(* ===== verification/_CoqProject ===== *)
-Q . S2P
Prelude.v
RegionName.v
Pb.v
RegionInfo.v
RegionTree.v
KeyRegionCache.v
CellBlocks.v
Hrpc.v
Mutate.v
Scanner.v
ScanTable.v
Compressor.v
Memory.v
Buffers.v
BufferPool.v
RpcError.v
Multi.v
Wire.v
RegionClient.v
Batching.v
ClientRegionCache.v
World.v
Dial.v
Rpc.v
Establish.v
Fuel.v
Discipline.v
Safety.v
Retries.v
Routing.v
Batch.v
BatchProps.v
BatchSafety.v
FilterPb.v
Filters.v
FilterProps.v
FilterSample.v
Client.v
Closing.v
ClientProps.v
AdminCalls.v
AdminClient.v
AdminProps.v
Zk.v
Turns.v
Progress.v
Pool.v
PoolProps.v
Debug.v
Tracing.v
