(* ===== verification/Prelude.v ===== *)
(** * Verification of the gohbase HBase client

    gohbase is a client library for HBase in Go.  A user calls [Get], [Put],
    [Scan], [SendBatch] and the like on a [client] (src/client.go, src/rpc.go);
    the client finds the region that serves a row (a cache over an ordered tree,
    src/caches.go; the meta table; zookeeper, src/zk), sends the call to the
    connection of the region's server (src/region/client.go), which batches
    calls, frames them and matches the responses, and retries when a region
    moves or a server goes away, while goroutines reestablish the regions.  The
    administrative client (src/admin_client.go) talks to the master in the same
    way.  The calls themselves are in src/hrpc, the filters in src/filter.

    This library models these parts as executable definitions, close to the Go
    code and under its names, and proves what makes them correct.

    ** Files and what they model

    - [Prelude]: bytes, machine integers with their wrap-around, [outcome] (a
      value, an error or a panic) with its [let*] notation, slices, big-endian
      and decimal numbers, comparison of byte slices, the unspecified order of
      map iteration ([RangeOrder]).
    - [RegionName]: names of regions and their order (src/region/info.go
      [Compare], src/rpc.go [createRegionSearchKey]).
    - [Pb], [FilterPb]: the generated messages, with the fields the client uses.
    - [RegionInfo]: region objects on a heap, their availability channel and
      context, parsing of meta rows (src/region/info.go).
    - [RegionTree], [KeyRegionCache]: the ordered tree (third party; a class
      with its laws and a list instance) and the cache of regions by key.
    - [CellBlocks], [Mutate], [Hrpc]: the KeyValue format, mutations, queries,
      scans and the options of calls (src/hrpc).
    - [Scanner]: src/scanner.go over any [SendRPC].
    - [ScanTable]: what a user reads who scans a table, from any servers that
      keep the contract of region scanners ([ScanServer]).
    - [Compressor], [Wire]: compressed cellblocks and the frames on the wire
      (src/region/compressor.go, [send], [receive] and [sendHello] of
      src/region/client.go).
    - [Memory], [Buffers], [BufferPool]: slices that share arrays; compression in
      buffers of the pool that all connections use ([newBuffer], [freeBuffer]);
      any number of goroutines that use it at once.
    - [RpcError], [Multi]: classes of errors, batches (src/region/multi.go).
    - [RegionClient]: the goroutines of one connection as an interleaving of
      atomic steps ([trySend], [receiveRPCs], [fail]).
    - [Batching]: [QueueRPC], [QueueBatch] and [processRPCs] beside them.
    - [Dial]: [Dial], [fail] and [Close] of a region client (src/region/new.go),
      with calls of [Close] by other goroutines between any two steps.
    - [ClientRegionCache]: the cache of connections (src/caches.go) but for
      [closeAll], which is in [Client].
    - [World], [Rpc], [Establish]: src/rpc.go as runs of one goroutine.  [World]
      has the shared state and the monad [M]; a run consumes a schedule of
      events, each of which says what the other goroutines did to the shared
      state and what the network, zookeeper or a timer answered.
    - [Fuel], [Discipline], [Safety], [Retries]: the schedule bounds every loop;
      the rely-guarantee discipline of the goroutines and the accesses that keep
      to it; the functions of src/rpc.go under it; retries.
    - [Routing]: that calls are given regions that serve them.
    - [Batch], [BatchProps], [BatchSafety]: [SendBatch] across region servers.
    - [Filters], [FilterProps], [FilterSample]: src/filter.
    - [Client], [Closing], [ClientProps]: src/client.go and [newAdminClient];
      [Close] with [closeAll] step by step, and how it keeps to the discipline of
      the goroutines it runs among.
    - [AdminCalls], [AdminClient], [AdminProps]: the administrative calls of
      src/hrpc and src/admin_client.go.
    - [Zk]: src/zk/client.go.
    - [Turns], [Progress], [Pool], [PoolProps]: all goroutines of a client
      together.  A run resumes where it waited ([Turns]); a goroutine waits for
      a region only while it is answerable for none ([Progress]); the steps of a
      pool of goroutines over one shared state ([Pool]) and what holds of every
      pool that a client can reach ([PoolProps]).
    - [Debug], [Tracing]: what [DebugState] tells of the caches; the carrier of
      trace information (src/internal/observability).

    ** What the theorems show

    - Cache of regions: it never holds overlapping regions, finds exactly the
      region of a row, and [put] replaces exactly the older overlaps.
    - Scans: a completed scan has covered its range; rows are put together from
      partial results without losing, repeating or reordering cells; [Next]
      returns.  Together: a user who calls [Next] until it fails has read exactly
      the rows of the range, complete and in order, or those up to a request that
      was not answered, the last of the run.
    - Sending: against every schedule within the discipline [SendRPC],
      [establishRegion] and [SendBatch] do not panic and block only on the
      schedule; a region that is marked unavailable always has a goroutine that
      will make it available or hand it over; retryable errors are retried and
      other answers returned; batch results go to their calls.
      A call is given a region of its table whose range has its row, and that
      region's connection.
    - All goroutines together: the discipline is discharged.  In every
      interleaving of any number of user calls and of the goroutines they start,
      [Close] among them, none panics, the caches stay well formed, and every
      unavailable region in use has exactly one goroutine that will make it available and that can go
      on, until the client is closed.
    - Connection: a call is answered at most once; a connection that fails
      drains; batching neither loses, repeats nor reorders calls; frames are
      laid out and decoded exactly, compression and cellblocks round-trip, and
      goroutines that compress in shared buffers do not disturb each other.
    - User and administrative interface: new clients are configured as the
      options say and satisfy the invariant of the goroutines; [Close], which any
      number of goroutines may call, closes [done] once and every connection that
      is in the cache when it goes through it; the calls return what the server
      answered, table operations wait for their procedure; filters composed to
      any depth decode to themselves.
    - Where the code does not do what it means to, a theorem states what it does
      (a lost call, a deadline left on an idle connection, a connection that is
      never closed, panics on malformed input).

    ** Conventions and assumptions

    - Integers are [Z] with [u16], [u32], [u64] and [i64] where the code has
      that width.  A slice is its bytes, with its capacity equal to its length,
      except in [Memory] and the files over it.
    - Third-party code is a parameter with its documented behaviour as the laws
      of a class or as hypotheses: the ordered tree ([RegionTree]), codecs
      ([Codec]), the protobuf runtime ([Protobuf], [Marshaling]), zookeeper,
      and the servers of a scanned table ([ScanServer]).  Instances show that the
      laws can hold.
    - Loops that are not structural take fuel: the number of tree items, the
      number of bytes left, or the length of the schedule, since every iteration
      that goes on consumes an event ([Fuel] proves that it is enough, so that
      running out of fuel never happens).
    - A schedule can interleave other goroutines between any two atomic steps.
      [Discipline] states what they may do ([rely]) and what a goroutine
      guarantees ([world_ok], relative to the state at its last turn, which the
      ghost field [w_frame] has); [Pool] shows that the guarantees of all give
      what each relies on.  The ghost fields [w_owned] and [w_private] record
      which goroutine is answerable for a region and which regions only one
      goroutine refers to.  What remains assumed is the environment: the rows of
      the meta table are well formed ([row_ok]) and, in [Routing], those answered
      to a lookup do not start after its row ([meta_answers]), calls are on tables
      and keys for which the name of a region can be formed ([table_fits]), and a scan of the
      meta table says [ErrClientClosed] only if the client is closed, which
      [SendRPC_disciplined] shows of the call that the scan is made of.
    - [closeOnce] and [done] are part of the shared state: closing [done] again, or
      one that was not made, is a panic, and [w_made] says whether the caches and
      [done] were made (they are nil in an admin client).  The mutex of the cache
      of connections, which [closeAll] holds, is not modelled as a lock: the
      other goroutines may come between all of its steps, which allows more
      than the code does.
    - The theorems about a connection assume fewer than 2^32 calls on it, after
      which the call ids wrap round.

    ** Not modelled

    Logging, metrics and spans; [String], the [MarshalJSON] of a region client and
    the JSON encoder, which only present the state; the pool of batches, apart
    from what [freeMulti] resets; the wire format of protobuf and the generated
    code under src/pb beyond its fields; the snappy algorithm; the network. *)

From Stdlib Require Export ZArith Lia.
From stdpp Require Export base tactics list gmap strings numbers sorting.
From Stdlib Require Export Strings.Byte.

#[export] Set Default Goal Selector "!".
#[global] Open Scope Z_scope.

(** ** Bytes and Go byte slices

    A Go [byte] is Stdlib's [Byte.byte]; a [[]byte] or a [string] is a list of
    them.  Machine integers are [Z] with the wrap-around written out. *)

Abbreviation byte := Byte.byte.
Abbreviation bytes := (list byte).

#[global] Instance byte_eq_dec : EqDecision byte := Byte.byte_eq_dec.

#[global] Program Instance byte_countable : Countable byte :=
  inj_countable' Byte.to_N (λ n, default x00 (Byte.of_N n)) _.
Next Obligation. intros b; simpl. by rewrite Byte.of_to_N. Qed.

(** [bs "abc"] is the byte slice of a string literal. *)
Definition bs (s : string) : bytes := String.list_byte_of_string s.

(** [int(b)] for a byte [b]. *)
Definition Z_of_byte (b : byte) : Z := Z.of_N (Byte.to_N b).

(** The conversion [byte(z)]: the low eight bits. *)
Definition byte_of_Z (z : Z) : byte :=
  default x00 (Byte.of_N (Z.to_N (z mod 256))).

(** Go's [len]. *)
Definition len {A} (l : list A) : Z := Z.of_nat (length l).

(** The conversions [uint16(z)], [uint32(z)], [uint64(z)] and [int64(z)]. *)
Definition u16 (z : Z) : Z := z mod 2 ^ 16.
Definition u32 (z : Z) : Z := z mod 2 ^ 32.
Definition u64 (z : Z) : Z := z mod 2 ^ 64.
Definition i64 (z : Z) : Z := (z + 2 ^ 63) mod 2 ^ 64 - 2 ^ 63.

Lemma i64_u64 v : - 2 ^ 63 <= v < 2 ^ 63 -> i64 (u64 v) = v.
Proof.
  intros Hv. unfold i64, u64. rewrite <- Zplus_mod_idemp_l, Zmod_mod, Zplus_mod_idemp_l.
  rewrite Z.mod_small by lia. lia.
Qed.

Definition MaxInt16 : Z := 2 ^ 15 - 1.
Definition MaxInt32 : Z := 2 ^ 31 - 1.
Definition MaxInt64 : Z := 2 ^ 63 - 1.
Definition MaxUint64 : Z := 2 ^ 64 - 1.

Lemma Z_of_byte_range b : 0 <= Z_of_byte b < 256.
Proof.
  unfold Z_of_byte. pose proof (Byte.to_N_bounded b). lia.
Qed.

Lemma Z_of_byte_inj b1 b2 : Z_of_byte b1 = Z_of_byte b2 -> b1 = b2.
Proof.
  unfold Z_of_byte. intros H%N2Z.inj.
  pose proof (Byte.of_to_N b1) as E1. pose proof (Byte.of_to_N b2) as E2.
  rewrite H in E1. congruence.
Qed.

Lemma Z_of_byte_of_Z z : Z_of_byte (byte_of_Z z) = z mod 256.
Proof.
  unfold Z_of_byte, byte_of_Z.
  assert (0 <= z mod 256 < 256) as Hr by (apply Z.mod_pos_bound; lia).
  destruct (Byte.of_N (Z.to_N (z mod 256))) as [b|] eqn:E; simpl.
  - apply Byte.to_of_N in E. rewrite E, Z2N.id; lia.
  - apply Byte.of_N_None_iff in E. lia.
Qed.

Lemma byte_of_Z_of_byte b : byte_of_Z (Z_of_byte b) = b.
Proof.
  apply Z_of_byte_inj. rewrite Z_of_byte_of_Z.
  apply Z.mod_small, Z_of_byte_range.
Qed.

Lemma len_nonneg {A} (l : list A) : 0 <= len l.
Proof. unfold len. lia. Qed.

Lemma len_cons {A} (x : A) l : len (x :: l) = 1 + len l.
Proof. unfold len. simpl. lia. Qed.

Lemma len_app {A} (l k : list A) : len (l ++ k) = len l + len k.
Proof. unfold len. rewrite length_app. lia. Qed.

(** ** Outcomes

    A Go function that returns [(T, error)] and that may also crash: a
    run-time panic, or [log.Fatal], which ends the process. *)

Inductive outcome (E A : Type) : Type :=
| Ok (a : A)
| Err (e : E)
| Panic.

Arguments Ok {E A} a.
Arguments Err {E A} e.
Arguments Panic {E A}.

Definition obind {E A B} (m : outcome E A) (f : A -> outcome E B) : outcome E B :=
  match m with
  | Ok a => f a
  | Err e => Err e
  | Panic => Panic
  end.

(** Wrap the error of a call, as [fmt.Errorf("...: %w", err)] does. *)
Definition map_err {E E' A} (f : E -> E') (m : outcome E A) : outcome E' A :=
  match m with
  | Ok a => Ok a
  | Err e => Err (f e)
  | Panic => Panic
  end.

Declare Scope go_scope.
Delimit Scope go_scope with go.
#[global] Open Scope go_scope.

Notation "'let*' x ':=' m 'in' k" :=
  (obind m (fun x => k))
    (at level 10, x binder, m at level 100, k at level 200) : go_scope.

Lemma obind_Ok_inv {E A B} (m : outcome E A) (f : A -> outcome E B) b :
  obind m f = Ok b -> exists a, m = Ok a /\ f a = Ok b.
Proof. destruct m; simpl; intros; naive_solver. Qed.

Lemma map_err_Ok_inv {E E' A} (f : E -> E') (m : outcome E A) a :
  map_err f m = Ok a -> m = Ok a.
Proof. destruct m; naive_solver. Qed.

(** Peel a chain of binds that ended well. *)
Ltac ok_inv :=
  repeat match goal with
  | H : obind _ _ = Ok _ |- _ =>
      let a := fresh "r" in let H1 := fresh "Hr" in
      apply obind_Ok_inv in H as (a & H1 & H)
  | H : map_err _ _ = Ok _ |- _ => apply map_err_Ok_inv in H
  | H : Ok _ = Ok _ |- _ => injection H as H
  | H : Err _ = Ok _ |- _ => discriminate H
  | H : Panic = Ok _ |- _ => discriminate H
  end.

(** ** Indexing and slicing

    A slice is modelled with its capacity equal to its length, so [b[lo:hi]]
    panics exactly when the bounds leave the slice. *)

Definition index {E A} (l : list A) (i : Z) : outcome E A :=
  if bool_decide (0 <= i) then
    match l !! Z.to_nat i with
    | Some x => Ok x
    | None => Panic
    end
  else Panic.

Definition slice {E A} (l : list A) (lo hi : Z) : outcome E (list A) :=
  if bool_decide (0 <= lo <= hi) && bool_decide (hi <= len l) then
    Ok (take (Z.to_nat (hi - lo)) (drop (Z.to_nat lo) l))
  else Panic.

(** [l[lo:]] and [l[:hi]]. *)
Definition slice_from {E A} (l : list A) (lo : Z) : outcome E (list A) := slice l lo (len l).
Definition slice_to {E A} (l : list A) (hi : Z) : outcome E (list A) := slice l 0 hi.

Lemma slice_mid {E A} (p m s : list A) lo hi :
  lo = len p -> hi = len p + len m -> @slice E A (p ++ m ++ s) lo hi = Ok m.
Proof.
  intros -> ->. unfold slice, len in *. rewrite !length_app.
  rewrite !bool_decide_eq_true_2 by lia. simpl.
  replace (Z.to_nat (Z.of_nat (length p))) with (length p) by lia.
  rewrite drop_app_length.
  replace (Z.to_nat _) with (length m) by lia. by rewrite take_app_length.
Qed.

Lemma slice_prefix {E A} (m s : list A) hi :
  hi = len m -> @slice_to E A (m ++ s) hi = Ok m.
Proof. intros ->. apply (slice_mid [] m s); done. Qed.

Lemma slice_suffix {E A} (p s : list A) lo :
  lo = len p -> @slice_from E A (p ++ s) lo = Ok s.
Proof.
  intros ->. unfold slice_from. rewrite <- (app_nil_r s) at 1.
  apply (slice_mid p s []); [done|]. apply len_app.
Qed.

Lemma slice_Ok_inv {E A} (l m : list A) lo hi :
  @slice E A l lo hi = Ok m ->
  0 <= lo <= hi /\ hi <= len l /\ m = take (Z.to_nat (hi - lo)) (drop (Z.to_nat lo) l)
  /\ len m = hi - lo.
Proof.
  unfold slice. case_bool_decide; simpl; [|done]. case_bool_decide; [|done].
  intros [= <-]. unfold len in *. rewrite length_take, length_drop. repeat split; lia.
Qed.

Lemma slice_to_Ok_inv {E A} (l m : list A) hi :
  @slice_to E A l hi = Ok m -> 0 <= hi <= len l /\ m = take (Z.to_nat hi) l /\ len m = hi.
Proof.
  intros (?&?&->&?)%slice_Ok_inv. rewrite Z.sub_0_r in *. simpl in *. eauto with lia.
Qed.

Lemma slice_from_Ok_inv {E A} (l m : list A) lo :
  @slice_from E A l lo = Ok m ->
  0 <= lo <= len l /\ m = drop (Z.to_nat lo) l /\ len m = len l - lo.
Proof.
  intros (?&?&->&?)%slice_Ok_inv. split; [lia|]. split; [|lia].
  apply take_ge. unfold len in *. rewrite length_drop. lia.
Qed.

(** ** Lexicographic comparison of byte slices ([bytes.Compare]) *)

Fixpoint bytes_compare (a b : bytes) : comparison :=
  match a, b with
  | [], [] => Eq
  | [], _ :: _ => Lt
  | _ :: _, [] => Gt
  | x :: a', y :: b' =>
      match Z_of_byte x ?= Z_of_byte y with
      | Eq => bytes_compare a' b'
      | c => c
      end
  end.

(** [bytes.Equal]. *)
Definition bytes_eqb (a b : bytes) : bool := bool_decide (a = b).

Definition bytes_ltb (a b : bytes) : bool := match bytes_compare a b with Lt => true | _ => false end.
Definition bytes_leb (a b : bytes) : bool := match bytes_compare a b with Gt => false | _ => true end.

Definition bytes_lt (a b : bytes) : Prop := bytes_compare a b = Lt.
Definition bytes_le (a b : bytes) : Prop := bytes_compare a b <> Gt.

Declare Scope bytes_scope.
Delimit Scope bytes_scope with bytes.
Notation "a <b b" := (bytes_lt a b) (at level 70) : bytes_scope.
Notation "a <=b b" := (bytes_le a b) (at level 70) : bytes_scope.
#[global] Open Scope bytes_scope.

Lemma bytes_compare_refl a : bytes_compare a a = Eq.
Proof. induction a as [|x a IH]; simpl; [done|]. by rewrite Z.compare_refl. Qed.

Lemma bytes_compare_eq a b : bytes_compare a b = Eq <-> a = b.
Proof.
  split; [|intros ->; apply bytes_compare_refl].
  revert b. induction a as [|x a IH]; intros [|y b]; simpl; try done.
  destruct (Z_of_byte x ?= Z_of_byte y) eqn:E; try done.
  apply Z.compare_eq, Z_of_byte_inj in E as ->. intros H. by rewrite (IH _ H).
Qed.

Lemma bytes_compare_antisym a b : bytes_compare b a = CompOpp (bytes_compare a b).
Proof.
  revert b. induction a as [|x a IH]; intros [|y b]; simpl; try done.
  rewrite (Z.compare_antisym (Z_of_byte x) (Z_of_byte y)).
  destruct (Z_of_byte x ?= Z_of_byte y); simpl; auto.
Qed.

Lemma bytes_lt_trans a b c : a <b b -> b <b c -> a <b c.
Proof.
  unfold bytes_lt. revert b c.
  induction a as [|x a IH]; intros [|y b] [|z c]; simpl; try done.
  destruct (Z.compare_spec (Z_of_byte x) (Z_of_byte y)) as [H|H|H]; try done;
  destruct (Z.compare_spec (Z_of_byte y) (Z_of_byte z)) as [H'|H'|H']; try done;
  destruct (Z.compare_spec (Z_of_byte x) (Z_of_byte z)); try done; try lia; eauto.
Qed.

#[global] Instance bytes_lt_strict : StrictOrder bytes_lt.
Proof.
  split.
  - intros a H. unfold bytes_lt in H. by rewrite bytes_compare_refl in H.
  - intros a b c. apply bytes_lt_trans.
Qed.

Lemma bytes_le_lt_or_eq a b : a <=b b <-> a <b b \/ a = b.
Proof.
  unfold bytes_le, bytes_lt. rewrite <- bytes_compare_eq.
  destruct (bytes_compare a b); intuition congruence.
Qed.

Lemma bytes_le_not_lt a b : a <=b b <-> ~ b <b a.
Proof.
  unfold bytes_le, bytes_lt. rewrite (bytes_compare_antisym a b).
  destruct (bytes_compare a b); naive_solver.
Qed.

Lemma bytes_lt_not_le a b : a <b b <-> ~ b <=b a.
Proof.
  unfold bytes_le, bytes_lt. rewrite (bytes_compare_antisym a b).
  destruct (bytes_compare a b); naive_solver.
Qed.

Lemma bytes_lt_le a b : a <b b -> a <=b b.
Proof. rewrite bytes_le_lt_or_eq. auto. Qed.

Lemma bytes_le_refl a : a <=b a.
Proof. rewrite bytes_le_lt_or_eq. auto. Qed.

Lemma bytes_le_lt_trans a b c : a <=b b -> b <b c -> a <b c.
Proof. rewrite bytes_le_lt_or_eq. intros [?| ->]; [|done]. by apply bytes_lt_trans. Qed.

Lemma bytes_lt_le_trans a b c : a <b b -> b <=b c -> a <b c.
Proof. rewrite (bytes_le_lt_or_eq b). intros ? [?| <-]; [|done]. by eapply bytes_lt_trans. Qed.

Lemma bytes_le_trans a b c : a <=b b -> b <=b c -> a <=b c.
Proof.
  rewrite (bytes_le_lt_or_eq a). intros [?| ->]; [|done].
  intros. by eapply bytes_lt_le, bytes_lt_le_trans.
Qed.

Lemma bytes_le_antisym a b : a <=b b -> b <=b a -> a = b.
Proof.
  rewrite bytes_le_lt_or_eq. intros [H|?]; [|done]. by rewrite bytes_le_not_lt.
Qed.

Lemma bytes_lt_irrefl a : ~ a <b a.
Proof. apply bytes_lt_strict. Qed.

Lemma bytes_lt_total a b : a <b b \/ a = b \/ b <b a.
Proof.
  unfold bytes_lt. rewrite <- bytes_compare_eq, (bytes_compare_antisym a b).
  destruct (bytes_compare a b); naive_solver.
Qed.

Lemma bytes_nil_le a : [] <=b a.
Proof. by destruct a. Qed.

Lemma bytes_not_lt_nil a : ~ a <b [].
Proof. by destruct a. Qed.

Lemma bytes_compare_app_same p a b : bytes_compare (p ++ a) (p ++ b) = bytes_compare a b.
Proof. induction p as [|x p IH]; simpl; [done|]. by rewrite Z.compare_refl. Qed.

Lemma bytes_ltb_spec a b : bytes_ltb a b = true <-> a <b b.
Proof. unfold bytes_ltb, bytes_lt. destruct (bytes_compare a b); naive_solver. Qed.

Lemma bytes_leb_spec a b : bytes_leb a b = true <-> a <=b b.
Proof. unfold bytes_leb, bytes_le. destruct (bytes_compare a b); naive_solver. Qed.

#[global] Instance bytes_lt_dec : RelDecision bytes_lt.
Proof. intros a b. unfold bytes_lt. apply _. Defined.

#[global] Instance bytes_le_dec : RelDecision bytes_le.
Proof. intros a b. unfold bytes_le. apply _. Defined.

(** A strict prefix is smaller. *)
Lemma bytes_lt_prefix a x b : a <b a ++ x :: b.
Proof. unfold bytes_lt. rewrite <- (app_nil_r a) at 1. by rewrite bytes_compare_app_same. Qed.

Create HintDb bytes_order.
#[export] Hint Resolve bytes_lt_le bytes_le_refl bytes_nil_le bytes_not_lt_nil bytes_lt_irrefl
  bytes_lt_prefix : bytes_order.
#[export] Hint Resolve bytes_lt_trans bytes_le_lt_trans bytes_lt_le_trans bytes_le_trans | 5
  : bytes_order.

(** ** Big-endian integers ([encoding/binary]) *)

Fixpoint be_encode (n : nat) (z : Z) : bytes :=
  match n with
  | O => []
  | S m => byte_of_Z (z / 256 ^ Z.of_nat m) :: be_encode m z
  end.

Definition be_decode (l : bytes) : Z :=
  foldl (fun acc b => acc * 256 + Z_of_byte b) 0 l.

Lemma length_be_encode n z : length (be_encode n z) = n.
Proof. induction n; simpl; auto. Qed.

Lemma len_be_encode n z : len (be_encode n z) = Z.of_nat n.
Proof. unfold len. by rewrite length_be_encode. Qed.

Lemma be_decode_acc l acc :
  foldl (fun acc b => acc * 256 + Z_of_byte b) acc l
  = acc * 256 ^ Z.of_nat (length l) + be_decode l.
Proof.
  unfold be_decode. revert acc. induction l as [|x l IH]; intros acc; cbn [foldl length].
  - lia.
  - rewrite IH, (IH (0 * 256 + Z_of_byte x)), Nat2Z.inj_succ, Z.pow_succ_r by lia. lia.
Qed.

Lemma be_decode_cons x l :
  be_decode (x :: l) = Z_of_byte x * 256 ^ Z.of_nat (length l) + be_decode l.
Proof. unfold be_decode at 1. cbn [foldl]. rewrite be_decode_acc. lia. Qed.

Lemma be_decode_range l : 0 <= be_decode l < 256 ^ Z.of_nat (length l).
Proof.
  induction l as [|x l IH]; [done|]. rewrite be_decode_cons. cbn [length].
  rewrite Nat2Z.inj_succ, Z.pow_succ_r by lia.
  pose proof (Z_of_byte_range x). nia.
Qed.

Lemma be_encode_mod n z k :
  (n <= k)%nat -> be_encode n (z mod 256 ^ Z.of_nat k) = be_encode n z.
Proof.
  induction n as [|n IH]; intros Hk; cbn [be_encode]; [done|].
  f_equal; [|apply IH; lia].
  apply Z_of_byte_inj. rewrite !Z_of_byte_of_Z.
  replace (Z.of_nat k) with (Z.of_nat n + (1 + Z.of_nat (k - n - 1))) by lia.
  rewrite Z.pow_add_r by lia.
  assert (0 < 256 ^ Z.of_nat n) by (apply Z.pow_pos_nonneg; lia).
  assert (0 < 256 ^ (1 + Z.of_nat (k - n - 1))) by (apply Z.pow_pos_nonneg; lia).
  rewrite Z.rem_mul_r by lia.
  rewrite (Z.mul_comm (256 ^ Z.of_nat n)), Z.div_add by lia.
  rewrite Z.div_small, Z.add_0_l by (apply Z.mod_pos_bound; lia).
  rewrite Z.pow_add_r, Z.pow_1_r by lia.
  rewrite Z.rem_mul_r by (try apply Z.pow_nonzero; lia).
  rewrite Z.mul_comm, Z.mod_add, Z.mod_mod by lia. done.
Qed.

Lemma be_decode_encode n z : be_decode (be_encode n z) = z mod 256 ^ Z.of_nat n.
Proof.
  induction n as [|n IH]; [by rewrite Z.mod_1_r|].
  cbn [be_encode]. rewrite be_decode_cons, IH, length_be_encode, Z_of_byte_of_Z.
  rewrite Nat2Z.inj_succ, Z.pow_succ_r, Z.mul_comm, (Z.mul_comm 256) by lia.
  assert (0 < 256 ^ Z.of_nat n) by (apply Z.pow_pos_nonneg; lia).
  rewrite Z.rem_mul_r by lia. lia.
Qed.

Lemma be_encode_decode l : be_encode (length l) (be_decode l) = l.
Proof.
  induction l as [|x l IH]; [done|]. cbn [length be_encode]. rewrite be_decode_cons.
  pose proof (be_decode_range l).
  f_equal.
  - rewrite Z.div_add_l by (apply Z.pow_nonzero; lia).
    rewrite Z.div_small, Z.add_0_r by done. apply byte_of_Z_of_byte.
  - rewrite <- (be_encode_mod _ _ (length l)) by lia.
    rewrite Z.add_comm, Z.mod_add, Z.mod_small by (try apply Z.pow_nonzero; lia). done.
Qed.

(** [binary.BigEndian.PutUintN] as the bytes written, and [UintN], which
    panics when the slice is shorter than the integer. *)
Definition PutUint16 (z : Z) : bytes := be_encode 2 z.
Definition PutUint32 (z : Z) : bytes := be_encode 4 z.
Definition PutUint64 (z : Z) : bytes := be_encode 8 z.

Definition UintN {E} (n : nat) (l : bytes) : outcome E Z :=
  if bool_decide (Z.of_nat n <= len l) then Ok (be_decode (take n l)) else Panic.

Definition Uint16 {E} (l : bytes) : outcome E Z := UintN 2 l.
Definition Uint32 {E} (l : bytes) : outcome E Z := UintN 4 l.
Definition Uint64 {E} (l : bytes) : outcome E Z := UintN 8 l.

Lemma UintN_encode {E} n z s :
  0 <= z < 256 ^ Z.of_nat n -> @UintN E n (be_encode n z ++ s) = Ok z.
Proof.
  intros. unfold UintN, len. rewrite bool_decide_eq_true_2.
  - rewrite take_app_length' by (by rewrite length_be_encode).
    by rewrite be_decode_encode, Z.mod_small.
  - rewrite length_app, length_be_encode. lia.
Qed.

Lemma UintN_Ok_inv {E} n l z :
  @UintN E n l = Ok z -> (n <= length l)%nat /\ z = be_decode (take n l)
  /\ 0 <= z < 256 ^ Z.of_nat n /\ take n l = be_encode n z.
Proof.
  unfold UintN, len. case_bool_decide; [|done]. intros [= <-].
  assert (length (take n l) = n) as Hl by (rewrite length_take; lia).
  pose proof (be_decode_range (take n l)) as Hr. rewrite Hl in Hr.
  repeat split; try lia. rewrite <- Hl at 2. by rewrite be_encode_decode.
Qed.

(** ** Decimal numerals *)

(** Numerals in decimal digits and their values. *)
Definition numeral (s : bytes) : Prop := s <> [] /\ Forall (fun b => 48 <= Z_of_byte b <= 57) s.
Definition numeral_value (s : bytes) : Z := foldl (fun n b => n * 10 + (Z_of_byte b - 48)) 0 s.

(** [fmt.Sprint] of an unsigned integer; an integer of 64 bits has at most 20 digits. *)
Fixpoint decimal (fuel : nat) (n : Z) : bytes :=
  match fuel with
  | O => []
  | S fuel => (if bool_decide (n < 10) then [] else decimal fuel (n / 10)) ++ [byte_of_Z (48 + n mod 10)]
  end.
Definition Sprint (n : Z) : bytes := decimal 20 n.

Lemma decimal_spec fuel n :
  0 <= n < 10 ^ Z.of_nat fuel -> (fuel <> 0)%nat -> numeral (decimal fuel n) /\ numeral_value (decimal fuel n) = n.
Proof.
  revert n. induction fuel as [|fuel IH]; intros n Hn Hf; [done|]. clear Hf. cbn [decimal].
  assert (Z_of_byte (byte_of_Z (48 + n mod 10)) = 48 + n mod 10) as Hb.
  { rewrite Z_of_byte_of_Z, Z.mod_small; [done|]. pose proof (Z.mod_pos_bound n 10). lia. }
  pose proof (Z.mod_pos_bound n 10 ltac:(lia)) as Hm.
  assert (forall l, numeral (l ++ [byte_of_Z (48 + n mod 10)]) <-> Forall (fun b => 48 <= Z_of_byte b <= 57) l) as Hnum.
  { intros l. unfold numeral. rewrite Forall_app, Forall_singleton, Hb. split; [tauto|]. intros H. split_and!; [by destruct l|done|lia..]. }
  rewrite Hnum. unfold numeral_value in *. rewrite foldl_app. cbn [foldl]. rewrite Hb. case_bool_decide as Ht.
  - split; [constructor|]. cbn [foldl]. rewrite (Z.mod_small n 10) by lia. lia.
  - assert (fuel <> 0%nat) as Hf by (intros ->; simpl in Hn; lia).
    assert (0 <= n / 10 < 10 ^ Z.of_nat fuel) as Hq.
    { rewrite Nat2Z.inj_succ, Z.pow_succ_r in Hn by lia. split; [apply Z.div_pos; lia|]. apply Z.div_lt_upper_bound; lia. }
    destruct (IH _ Hq Hf) as [[_ Hd] Hv]. split; [done|]. rewrite Hv. pose proof (Z.div_mod n 10 ltac:(lia)). lia.
Qed.

Lemma Sprint_spec n : 0 <= n < 2 ^ 64 -> numeral (Sprint n) /\ numeral_value (Sprint n) = n.
Proof. intros Hn. apply decimal_spec; [|done]. simpl. lia. Qed.

(** ** Lists *)

Lemma filter_none {A} (f : A -> bool) (l : list A) :
  (forall x, x ∈ l -> f x = false) -> filter (fun x => f x = true) l = [].
Proof.
  induction l as [|x l IH]; intros H; [done|]. rewrite filter_cons, decide_False.
  - apply IH. intros y Hy. apply H. by right.
  - rewrite H; [done|by left].
Qed.

Lemma filter_all {A} (P : A -> Prop) `{!forall x, Decision (P x)} (l : list A) :
  (forall x, x ∈ l -> P x) -> filter P l = l.
Proof.
  induction l as [|x l IH]; intros Hall; [done|].
  rewrite filter_cons, decide_True by (apply Hall; by left).
  f_equal. apply IH. intros y Hy. apply Hall. by right.
Qed.

Fixpoint take_while {A} (f : A -> bool) (l : list A) : list A :=
  match l with
  | [] => []
  | x :: l' => if f x then x :: take_while f l' else []
  end.

(** Once false, always false: a loop that stops early misses nothing. *)
Lemma take_while_filter {A} (f : A -> bool) (l : list A) :
  (forall i j a b, (i < j)%nat -> l !! i = Some a -> l !! j = Some b -> f b = true -> f a = true) ->
  take_while f l = filter (fun x => f x = true) l.
Proof.
  induction l as [|x l IH]; intros H; [done|]. simpl. rewrite filter_cons.
  destruct (f x) eqn:Hx; [rewrite decide_True by done|rewrite decide_False by congruence].
  - f_equal. apply IH. intros i j a b Hij Ha Hb. apply (H (S i) (S j)); [lia|done..].
  - symmetry. apply filter_none. intros y [j Hj]%list_elem_of_lookup.
    destruct (f y) eqn:Hy; [|done]. rewrite <- Hx. symmetry.
    apply (H 0%nat (S j) x y); [lia|done..].
Qed.

(** ** Writing into a slice

    [PutAt l i s] is [binary.BigEndian.PutUintN(l[i:], ...)] or an indexed
    assignment, which panic when the bytes do not fit; [copy_at l i s] is
    [copy(l[i:], s)], which copies what fits and returns how much. *)

Definition PutAt {E} (l : bytes) (i : Z) (s : bytes) : outcome E bytes :=
  if bool_decide (0 <= i) && bool_decide (i + len s <= len l) then
    Ok (take (Z.to_nat i) l ++ s ++ drop (Z.to_nat (i + len s)) l)
  else Panic.

Definition copy_at {E} (l : bytes) (i : Z) (s : bytes) : outcome E (bytes * Z) :=
  if bool_decide (0 <= i) && bool_decide (i <= len l) then
    let n := Z.min (len l - i) (len s) in
    Ok (take (Z.to_nat i) l ++ take (Z.to_nat n) s ++ drop (Z.to_nat (i + n)) l, n)
  else Panic.

(** [make([]byte, n)] *)
Definition make_bytes (n : nat) : bytes := replicate n x00.

(** Filling a zeroed tail from the left. *)
Lemma PutAt_fill {E} p s n i :
  i = len p -> @PutAt E (p ++ make_bytes (length s + n)) i s = Ok ((p ++ s) ++ make_bytes n).
Proof.
  intros ->. unfold PutAt, len, make_bytes.
  rewrite !bool_decide_eq_true_2; [|rewrite length_app, length_replicate; lia|lia]. simpl.
  rewrite Nat2Z.id, take_app_length, <- Nat2Z.inj_add, Nat2Z.id.
  by rewrite <- drop_drop, drop_app_length, drop_replicate, Nat.add_comm, Nat.add_sub, app_assoc.
Qed.

Lemma copy_at_fill {E} p s n i :
  i = len p ->
  @copy_at E (p ++ make_bytes (length s + n)) i s = Ok ((p ++ s) ++ make_bytes n, len s).
Proof.
  intros ->. unfold copy_at, len, make_bytes.
  rewrite !bool_decide_eq_true_2; [|rewrite length_app; lia|lia]. simpl.
  rewrite length_app, length_replicate. replace (Z.min _ _) with (Z.of_nat (length s)) by lia.
  rewrite <- Nat2Z.inj_add, !Nat2Z.id, take_app_length, firstn_all.
  by rewrite <- drop_drop, drop_app_length, drop_replicate, Nat.add_comm, Nat.add_sub, app_assoc.
Qed.

(** ** Iterating over a map

    [range] over a Go map visits every entry once, in an order that is not
    specified and may differ between two executions of the same statement.
    [range site m] is the order at one execution; every theorem holds for all
    orders. *)

Class RangeOrder := {
  range {K A} `{Countable K} : list nat -> gmap K A -> list (K * A);
  range_perm {K A} `{Countable K} (site : list nat) (m : gmap K A) : range site m ≡ₚ map_to_list m;
}.

#[global] Program Instance key_order : RangeOrder := {| range K A _ _ site m := map_to_list m |}.
Next Obligation. done. Qed.

Lemma elem_of_range `{RangeOrder} {K A} `{Countable K} site (m : gmap K A) k a :
  (k, a) ∈ range site m <-> m !! k = Some a.
Proof. rewrite range_perm. apply elem_of_map_to_list. Qed.

Lemma length_range `{RangeOrder} {K A} `{Countable K} site (m : gmap K A) :
  length (range site m) = size m.
Proof. rewrite range_perm. by rewrite length_map_to_list. Qed.

Lemma NoDup_range `{RangeOrder} {K A} `{Countable K} site (m : gmap K A) :
  NoDup (range site m).*1.
Proof. rewrite range_perm. apply NoDup_fst_map_to_list. Qed.

(** ** Fuel

    The error of a loop that was given too few steps; it stands for no
    behaviour of the program. *)
Inductive out_of_fuel := OutOfFuel.
