(* ===== verification/RegionName.v ===== *)
(** * Region names: region/info.go [Compare] and rpc.go [createRegionSearchKey]

    A region name is [table,start_key,suffix], the suffix being the timestamp
    and an optional [.MD5.].  The region cache is a tree ordered by [Compare],
    and a row is looked up with a search key of the same shape.

    The index loops of [Compare] are translated one by one; [name_compare] is
    the order they implement: lexicographic on the three parts. *)

From S2P Require Import Prelude.

(** ** The source *)

Definition comma : byte := x2c.
Definition colon : byte := x3a.

(** [for i := len(b)-1; i > offset; i--]: [n] is [i+1]. *)
Fixpoint findCommaFromEnd_loop {E} (b : bytes) (offset n : nat) : outcome E nat :=
  match n with
  | O => Panic
  | S i =>
      if bool_decide (offset < i)%nat then
        match b !! i with
        | Some c => if bool_decide (c = comma) then Ok i else findCommaFromEnd_loop b offset i
        | None => Panic
        end
      else Panic
  end.

Definition findCommaFromEnd {E} (b : bytes) (offset : nat) : outcome E nat :=
  findCommaFromEnd_loop b offset (length b).

(** The first loop of [Compare]: compares the table names.  [n] is the number
    of iterations left, [length - i].  [inl z] returns [z] from [Compare];
    [inr i] leaves the loop at index [i]. *)
Fixpoint compare_tables {E} (a b : bytes) (i n : nat) : outcome E (Z + nat) :=
  match n with
  | O => Ok (inr i)
  | S n' =>
      match a !! i, b !! i with
      | Some ai, Some bi =>
          if bool_decide (ai <> bi) then
            if bool_decide (ai = comma) then Ok (inl (-1001))
            else if bool_decide (bi = comma) then Ok (inl 1001)
            else Ok (inl (Z_of_byte ai - Z_of_byte bi))
          else if bool_decide (ai = comma) then Ok (inr i)
          else compare_tables a b (S i) n'
      | _, _ => Panic
      end
  end.

(** The loops over the keys and over the rest, [for ; i < stop; i++] with
    [n = stop - i] iterations left. *)
Fixpoint compare_range {E} (a b : bytes) (i n : nat) : outcome E (Z + nat) :=
  match n with
  | O => Ok (inr i)
  | S n' =>
      match a !! i, b !! i with
      | Some ai, Some bi =>
          if bool_decide (ai <> bi) then Ok (inl (Z_of_byte ai - Z_of_byte bi))
          else compare_range a b (S i) n'
      | _, _ => Panic
      end
  end.

Definition Compare {E} (a b : bytes) : outcome E Z :=
  let length_ := if bool_decide (length a < length b)%nat then length a else length b in
  let* r1 := compare_tables a b 0 length_ in
  match r1 with
  | inl z => Ok z
  | inr i =>
      let* aComma := findCommaFromEnd a i in
      let* bComma := findCommaFromEnd b i in
      let i := S i in
      let firstComma := if bool_decide (aComma < bComma)%nat then aComma else bComma in
      let* r2 := compare_range a b i (firstComma - i) in
      match r2 with
      | inl z => Ok z
      | inr i =>
          if bool_decide (aComma < bComma)%nat then Ok (-1002)
          else if bool_decide (bComma < aComma)%nat then Ok 1002
          else
            let* r3 := compare_range a b i (length_ - i) in
            match r3 with
            | inl z => Ok z
            | inr _ => Ok (len a - len b)
            end
      end
  end.

(** rpc.go: the META key to search for in order to locate [key]. *)
Definition createRegionSearchKey {E} (table key : bytes) : outcome E bytes :=
  let keylen := MaxInt16 - len table - 3 in
  let keylen := if bool_decide (len key < keylen) then len key else keylen in
  let* k := slice_to key keylen in
  Ok (table ++ [comma] ++ k ++ [comma] ++ [colon]).

(** ** The order [Compare] is meant to be *)

Record name := Name { n_table : bytes; n_key : bytes; n_suffix : bytes }.

Definition name_bytes (n : name) : bytes :=
  n_table n ++ comma :: n_key n ++ comma :: n_suffix n.

(** A table name and a suffix hold no comma; a key may. *)
Definition name_ok (n : name) : Prop := (comma ∉ n_table n) /\ (comma ∉ n_suffix n).

Definition name_compare (n m : name) : comparison :=
  match bytes_compare (n_table n) (n_table m) with
  | Eq =>
      match bytes_compare (n_key n) (n_key m) with
      | Eq => bytes_compare (n_suffix n) (n_suffix m)
      | c => c
      end
  | c => c
  end.

(** ** The loops, on decomposed lists *)

(** The first difference of two lists of the same length. *)
Fixpoint first_diff (m m' : bytes) : option Z :=
  match m, m' with
  | x :: m, y :: m' =>
      if bool_decide (x <> y) then Some (Z_of_byte x - Z_of_byte y) else first_diff m m'
  | _, _ => None
  end.

Definition sgn_of (o : option Z) : comparison := match o with Some z => z ?= 0 | None => Eq end.

Lemma Z_sub_compare x y : (x - y ?= 0) = (x ?= y).
Proof. destruct (Z.compare_spec x y), (Z.compare_spec (x - y) 0); lia || done. Qed.

Lemma first_diff_compare m m' :
  length m = length m' -> bytes_compare m m' = sgn_of (first_diff m m').
Proof.
  revert m'. induction m as [|x m IH]; intros [|y m'] Hl; try done; simpl in *.
  case_bool_decide as Hxy; simpl.
  - rewrite Z_sub_compare. destruct (Z.compare_spec (Z_of_byte x) (Z_of_byte y)) as [E| |]; try done.
    by apply Z_of_byte_inj in E.
  - assert (x = y) as -> by (by destruct (decide (x = y))). rewrite Z.compare_refl. auto.
Qed.

Lemma first_diff_nonzero m m' z : first_diff m m' = Some z -> z <> 0.
Proof.
  revert m'. induction m as [|x m IH]; intros [|y m']; try done. simpl.
  case_bool_decide as Hxy; [|apply IH].
  intros [= <-] H. apply Hxy, Z_of_byte_inj. lia.
Qed.

(** Two slices compare as their common prefix, then by length. *)
Lemma bytes_compare_min a b :
  bytes_compare a b =
  match bytes_compare (take (min (length a) (length b)) a) (take (min (length a) (length b)) b) with
  | Eq => (length a ?= length b)%nat
  | c => c
  end.
Proof.
  revert b. induction a as [|x a IH]; intros [|y b]; try done. simpl.
  destruct (Z_of_byte x ?= Z_of_byte y); auto.
Qed.

Lemma lookup_at {A} (p : list A) x s i : i = length p -> (p ++ x :: s) !! i = Some x.
Proof. intros ->. rewrite lookup_app_r by done. by rewrite Nat.sub_diag. Qed.

Lemma compare_range_app {E} p p' m m' s s' :
  length p = length p' -> length m = length m' ->
  @compare_range E (p ++ m ++ s) (p' ++ m' ++ s') (length p) (length m)
  = Ok (match first_diff m m' with Some z => inl z | None => inr (length p + length m)%nat end).
Proof.
  revert p p' m'. induction m as [|x m IH]; intros p p' [|y m'] Hp Hm; try done; simpl.
  { do 2 f_equal. lia. }
  rewrite !lookup_at by congruence.
  case_bool_decide as Hxy; [done|].
  assert (x = y) as -> by (by destruct (decide (x = y))).
  specialize (IH (p ++ [y]) (p' ++ [y]) m'). rewrite !length_app in IH. simpl in IH.
  rewrite <- !app_assoc in IH. simpl in IH.
  rewrite Nat.add_1_r in IH. rewrite IH by (simpl in *; lia).
  destruct (first_diff m m'); do 2 f_equal. lia.
Qed.

(** The table loop on two names whose tables hold no comma: [inl] with the
    sign of the comparison of the tables, or the position of the comma. *)
Lemma compare_tables_app {E} p p' t t' r r' n :
  length p = length p' -> comma ∉ t -> comma ∉ t' ->
  (min (length t) (length t') < n)%nat ->
  exists o, @compare_tables E (p ++ t ++ comma :: r) (p' ++ t' ++ comma :: r') (length p) n = Ok o /\
  match o with
  | inl z => (z ?= 0) = bytes_compare t t' /\ t <> t'
  | inr i => t = t' /\ i = (length p + length t)%nat
  end.
Proof.
  revert p p' t' n. induction t as [|x t IH]; intros p p' t' n Hp Ht Ht' Hn.
  - destruct n as [|n]; [simpl in *; lia|]. simpl app. simpl compare_tables.
    destruct t' as [|y t']; simpl app; rewrite !lookup_at by congruence.
    + rewrite bool_decide_eq_false_2 by (intros H; by apply H).
      rewrite bool_decide_eq_true_2 by done. eexists. split; [done|]. simpl. split; [done|lia].
    + apply not_elem_of_cons in Ht' as [? _].
      rewrite !bool_decide_eq_true_2 by done. eexists. split; [done|]. by simpl.
  - apply not_elem_of_cons in Ht as [? Ht].
    destruct n as [|n]; [lia|]. destruct t' as [|y t']; simpl app; simpl compare_tables;
      rewrite !lookup_at by congruence.
    + rewrite (bool_decide_eq_true_2 (x <> comma)), (bool_decide_eq_false_2 (x = comma)),
        (bool_decide_eq_true_2 (comma = comma)) by done.
      eexists. split; [done|]. by simpl.
    + apply not_elem_of_cons in Ht' as [? Ht'].
      rewrite !(bool_decide_eq_false_2 (_ = comma)) by done.
      case_bool_decide as Hxy.
      * eexists. split; [done|]. simpl. rewrite Z_sub_compare.
        destruct (Z.compare_spec (Z_of_byte x) (Z_of_byte y)) as [H1|H1|H1]; try (split; congruence).
        by apply Z_of_byte_inj in H1.
      * assert (x = y) as -> by (by destruct (decide (x = y))).
        destruct (IH (p ++ [y]) (p' ++ [y]) t' n) as (o & Ho & Hs); try done.
        { rewrite !length_app. simpl. lia. }
        { simpl in Hn. lia. }
        rewrite !length_app, <- !app_assoc in Ho. simpl in Ho. rewrite Nat.add_1_r in Ho.
        rewrite Ho. exists o. split; [done|]. destruct o as [z|i]; simpl.
        -- rewrite Z.compare_refl. destruct Hs. split; congruence.
        -- rewrite length_app in Hs. simpl in Hs. destruct Hs as [-> ->]. split; [done|lia].
Qed.

(** Searching from the end skips a comma-free suffix. *)
Lemma findCommaFromEnd_app {E} p s offset :
  comma ∉ s -> (offset < length p)%nat ->
  @findCommaFromEnd E (p ++ comma :: s) offset = Ok (length p).
Proof.
  intros Hs Ho. unfold findCommaFromEnd. rewrite length_app. simpl length.
  assert (forall k, (k <= length s)%nat ->
    @findCommaFromEnd_loop E (p ++ comma :: s) offset (length p + S k) = Ok (length p)) as H; [|by apply H].
  induction k as [|k IH]; intros Hk.
  - rewrite Nat.add_1_r. simpl. rewrite bool_decide_eq_true_2 by done. by rewrite lookup_at by done.
  - rewrite Nat.add_succ_r. simpl findCommaFromEnd_loop. rewrite bool_decide_eq_true_2 by lia.
    rewrite lookup_app_r by lia. replace (length p + S k - length p)%nat with (S k) by lia. simpl.
    destruct (s !! k) as [c|] eqn:Ec; [|apply lookup_ge_None in Ec; lia].
    rewrite bool_decide_eq_false_2; [apply IH; lia|].
    intros ->. by apply Hs, list_elem_of_lookup_2 with k.
Qed.

Lemma name_bytes_split n :
  name_bytes n = (n_table n ++ comma :: n_key n) ++ comma :: n_suffix n.
Proof. unfold name_bytes. by rewrite <- app_assoc. Qed.

(** The part of [Compare] after the table loop, on names of the same table. *)
Lemma compare_keys {E} t k k' s s' :
  comma ∉ s -> comma ∉ s' ->
  let a := name_bytes (Name t k s) in
  let b := name_bytes (Name t k' s') in
  let n := min (length k) (length k') in
  @compare_range E a b (S (length t)) (min (length t + S (length k)) (length t + S (length k')) - S (length t))
  = Ok (match first_diff (take n k) (take n k') with Some z => inl z | None => inr (S (length t) + n)%nat end).
Proof.
  intros Hs Hs' a b n.
  assert (length (take n k) = n) as Hk by (rewrite length_take; lia).
  assert (length (take n k') = n) as Hk' by (rewrite length_take; lia).
  pose proof (@compare_range_app E (t ++ [comma]) (t ++ [comma]) (take n k) (take n k')
    (drop n k ++ comma :: s) (drop n k' ++ comma :: s')) as H.
  rewrite length_app, Hk, Hk' in H. simpl length in H. rewrite Nat.add_1_r in H.
  rewrite <- H by done. clear H. f_equal.
  - unfold a, name_bytes. simpl. rewrite <- app_assoc. simpl. do 2 f_equal.
    by rewrite app_assoc, take_drop.
  - unfold b, name_bytes. simpl. rewrite <- app_assoc. simpl. do 2 f_equal.
    by rewrite app_assoc, take_drop.
  - lia.
Qed.

Lemma first_diff_None m m' : length m = length m' -> first_diff m m' = None -> m = m'.
Proof.
  intros Hl H. apply bytes_compare_eq. by rewrite (first_diff_compare _ _ Hl), H.
Qed.

Lemma name_bytes_length n :
  length (name_bytes n) = (length (n_table n) + S (length (n_key n) + S (length (n_suffix n))))%nat.
Proof. unfold name_bytes. rewrite !length_app. simpl. rewrite length_app. done. Qed.

(** Keys equal: the rest decides, the comma and then the suffixes. *)
Lemma compare_suffixes {E} t k s s' :
  let a := name_bytes (Name t k s) in
  let b := name_bytes (Name t k s') in
  let i := (S (length t) + length k)%nat in
  exists o, @compare_range E a b i (min (length a) (length b) - i) = Ok o /\
  (match o with inl z => z ?= 0 | inr _ => len a - len b ?= 0 end) = bytes_compare s s'.
Proof.
  intros a b i. set (n := min (length s) (length s')).
  assert (length (take n s) = n) as Hs by (rewrite length_take; lia).
  assert (length (take n s') = n) as Hs' by (rewrite length_take; lia).
  pose proof (@compare_range_app E (t ++ comma :: k) (t ++ comma :: k)
    (comma :: take n s) (comma :: take n s') (drop n s) (drop n s')) as H.
  rewrite length_app in H. simpl length in H. rewrite Hs, Hs' in H.
  replace (min _ _ - i)%nat with (S n)
    by (unfold a, b, i; rewrite !name_bytes_length; simpl; lia).
  replace i with (length t + S (length k))%nat by (unfold i; lia).
  eexists. split.
  { rewrite <- H by done. unfold a, b.
    rewrite !name_bytes_split. simpl. by rewrite !take_drop. }
  simpl.
  rewrite (bytes_compare_min s s'). fold n.
  rewrite (first_diff_compare (take n s)) by congruence.
  destruct (first_diff (take n s) (take n s')) as [z|] eqn:Hd; simpl.
  - apply first_diff_nonzero in Hd. destruct (Z.compare_spec z 0); done.
  - unfold len, a, b. rewrite !name_bytes_length, Z_sub_compare. simpl.
    destruct (Nat.compare_spec (length s) (length s')), (Z.compare_spec
     (Z.of_nat (length t + S (length k + S (length s))))
     (Z.of_nat (length t + S (length k + S (length s'))))); lia || done.
Qed.

(** [Compare] never panics on names of the documented form and its sign is
    the lexicographic order on (table, key, suffix). *)
Lemma Compare_sign {E} n m :
  name_ok n -> name_ok m ->
  exists z, @Compare E (name_bytes n) (name_bytes m) = Ok z /\ (z ?= 0) = name_compare n m.
Proof.
  destruct n as [t k s], m as [t' k' s']. intros [Ht Hs] [Ht' Hs']. simpl in *.
  unfold Compare. set (a := name_bytes _). set (b := name_bytes (Name t' _ _)).
  replace (if bool_decide (length a < length b)%nat then _ else _) with (min (length a) (length b))
    by (case_bool_decide; lia).
  destruct (@compare_tables_app E [] [] t t' (k ++ comma :: s) (k' ++ comma :: s')
    (min (length a) (length b))) as (o & Ho & Hspec); try done.
  { unfold a, b. rewrite !name_bytes_length. simpl. lia. }
  simpl in Ho. unfold a, b, name_bytes in *. simpl in Ho |- *. rewrite Ho. simpl.
  unfold name_compare. simpl. destruct o as [z|i].
  { destruct Hspec as [Hz Hne]. exists z. split; [done|]. rewrite Hz.
    destruct (bytes_compare t t') eqn:Hc; try done. by apply bytes_compare_eq in Hc. }
  destruct Hspec as [<- ->]. simpl. rewrite bytes_compare_refl.
  fold (name_bytes (Name t k s)) (name_bytes (Name t k' s')).
  change (t ++ comma :: k ++ comma :: s) with (name_bytes (Name t k s)).
  change (t ++ comma :: k' ++ comma :: s') with (name_bytes (Name t k' s')).
  assert (forall k0 s0, comma ∉ s0 -> @findCommaFromEnd E (name_bytes (Name t k0 s0)) (length t)
    = Ok (length t + S (length k0))%nat) as Hf.
  { intros k0 s0 H0. rewrite name_bytes_split. simpl. rewrite findCommaFromEnd_app; try done.
    - by rewrite length_app.
    - rewrite length_app. simpl. lia. }
  rewrite !Hf by done. simpl.
  replace (if bool_decide (length t + S (length k) < length t + S (length k'))%nat then _ else _)
    with (min (length t + S (length k)) (length t + S (length k'))) by (case_bool_decide; lia).
  rewrite compare_keys by done. simpl. rewrite (bytes_compare_min k k').
  set (n := min (length k) (length k')).
  rewrite (first_diff_compare (take n k)) by (rewrite !length_take; lia).
  destruct (first_diff (take n k) (take n k')) as [z|] eqn:Hd; simpl.
  { exists z. split; [done|]. apply first_diff_nonzero in Hd. by destruct (Z.compare_spec z 0). }
  case_bool_decide as H1.
  { exists (-1002). split; [done|]. by rewrite (proj2 (Nat.compare_lt_iff _ _)) by lia. }
  case_bool_decide as H2.
  { exists 1002. split; [done|]. by rewrite (proj2 (Nat.compare_gt_iff _ _)) by lia. }
  assert (k = k') as <-.
  { apply first_diff_None in Hd; [|rewrite !length_take; lia].
    rewrite !take_ge in Hd by lia. done. }
  rewrite (proj2 (Nat.compare_eq_iff _ _) eq_refl).
  destruct (@compare_suffixes E t k s s') as (o & Ho3 & Hsgn).
  replace n with (length k) by lia. simpl in Ho3. rewrite Ho3. simpl.
  destruct o as [z|i]; eauto.
Qed.

(** ** The order on names *)

Lemma name_compare_eq n m : name_compare n m = Eq <-> n = m.
Proof.
  destruct n as [t k s], m as [t' k' s']. unfold name_compare. simpl.
  destruct (bytes_compare t t') eqn:Ht; [|split; [done|]; intros [= <- _ _]..];
    [|by rewrite bytes_compare_refl in Ht..].
  apply bytes_compare_eq in Ht as <-.
  destruct (bytes_compare k k') eqn:Hk; [|split; [done|]; intros [= <- _]..];
    [|by rewrite bytes_compare_refl in Hk..].
  apply bytes_compare_eq in Hk as <-. rewrite bytes_compare_eq. split; [by intros ->|by intros [= ->]].
Qed.

Lemma name_compare_antisym n m : name_compare m n = CompOpp (name_compare n m).
Proof.
  unfold name_compare.
  rewrite (bytes_compare_antisym (n_table n)), (bytes_compare_antisym (n_key n)),
    (bytes_compare_antisym (n_suffix n)).
  destruct (bytes_compare (n_table n) _), (bytes_compare (n_key n) _); done.
Qed.

Definition name_lt (n m : name) : Prop := name_compare n m = Lt.

(** Lexicographic order spelled out. *)
Lemma name_lt_iff n m :
  name_lt n m <->
  n_table n <b n_table m \/
  n_table n = n_table m /\ (n_key n <b n_key m \/ n_key n = n_key m /\ n_suffix n <b n_suffix m).
Proof.
  unfold name_lt, name_compare, bytes_lt.
  rewrite <- (bytes_compare_eq (n_table n)), <- (bytes_compare_eq (n_key n)).
  destruct (bytes_compare (n_table n) _), (bytes_compare (n_key n) _); intuition congruence.
Qed.

Lemma name_lt_trans n m o : name_lt n m -> name_lt m o -> name_lt n o.
Proof.
  rewrite !name_lt_iff. destruct n as [t k s], m as [t' k' s'], o as [t'' k'' s'']. simpl.
  intros [?|[-> [?|[-> ?]]]] [?|[-> [?|[-> ?]]]]; eauto 6 using bytes_lt_trans.
Qed.

(** Keys of the region tree: the byte strings that are well-formed names. *)
Definition valid_key (k : bytes) : Prop := exists n, name_ok n /\ k = name_bytes n.

(** The collation order of the tree, as its comparator gives it. *)
Definition name_ord (a b : bytes) : comparison :=
  match @Compare Empty_set a b with
  | Ok z => z ?= 0
  | _ => Eq
  end.

Definition key_lt (a b : bytes) : Prop := name_ord a b = Lt.

Lemma name_ord_bytes n m :
  name_ok n -> name_ok m -> name_ord (name_bytes n) (name_bytes m) = name_compare n m.
Proof.
  intros Hn Hm. unfold name_ord.
  destruct (@Compare_sign Empty_set n m Hn Hm) as (z & -> & Hz). done.
Qed.

Lemma name_bytes_inj n m : name_ok n -> name_ok m -> name_bytes n = name_bytes m -> n = m.
Proof.
  intros Hn Hm H. apply name_compare_eq.
  rewrite <- (name_ord_bytes n m), <- H, name_ord_bytes by done. by apply name_compare_eq.
Qed.

Lemma name_ord_eq a b : valid_key a -> valid_key b -> name_ord a b = Eq <-> a = b.
Proof.
  intros (n & Hn & ->) (m & Hm & ->). rewrite name_ord_bytes by done.
  rewrite name_compare_eq. split; [by intros ->|by apply name_bytes_inj].
Qed.

Lemma name_ord_antisym a b :
  valid_key a -> valid_key b -> name_ord b a = CompOpp (name_ord a b).
Proof.
  intros (n & Hn & ->) (m & Hm & ->). rewrite !name_ord_bytes by done. apply name_compare_antisym.
Qed.

Lemma key_lt_trans a b c :
  valid_key a -> valid_key b -> valid_key c -> key_lt a b -> key_lt b c -> key_lt a c.
Proof.
  intros (n & Hn & ->) (m & Hm & ->) (o & Ho & ->). unfold key_lt.
  rewrite !name_ord_bytes by done. apply name_lt_trans.
Qed.

Lemma key_lt_irrefl a : valid_key a -> ~ key_lt a a.
Proof. unfold key_lt. intros H. by rewrite (proj2 (name_ord_eq a a H H) eq_refl). Qed.

Lemma Compare_name_ord {E} a b :
  valid_key a -> valid_key b -> exists z, @Compare E a b = Ok z /\ (z ?= 0) = name_ord a b.
Proof.
  intros (n & Hn & ->) (m & Hm & ->). rewrite name_ord_bytes by done. by apply Compare_sign.
Qed.

(** ** Search keys *)

Definition search_name (table key : bytes) : name := Name table key [colon].

Lemma search_name_ok table key : comma ∉ table -> name_ok (search_name table key).
Proof. intros. split; [done|]. simpl. by rewrite list_elem_of_singleton. Qed.

(** A key that fits is not shortened. *)
Lemma createRegionSearchKey_fits {E} table key :
  len table + len key + 3 <= MaxInt16 ->
  @createRegionSearchKey E table key = Ok (name_bytes (search_name table key)).
Proof.
  intros H. unfold createRegionSearchKey.
  replace (if bool_decide _ then _ else _) with (len key) by (case_bool_decide; lia).
  rewrite <- (app_nil_r key) at 1. rewrite slice_prefix by done. done.
Qed.

(** ** What the name order guarantees *)

(** C21. On region names [Compare] never panics, and the sign of its result is
    the order "table first, then start key, then suffix", commas in the keys
    and empty keys included; it is zero for equal names only. *)
Theorem Compare_is_name_order {E} n m :
  name_ok n -> name_ok m ->
  exists z, @Compare E (name_bytes n) (name_bytes m) = Ok z /\
    (z < 0 <-> name_lt n m) /\ (z = 0 <-> n = m) /\ (0 < z <-> name_lt m n).
Proof.
  intros Hn Hm. destruct (@Compare_sign E n m Hn Hm) as (z & Hz & Hs). exists z.
  rewrite <- (name_compare_eq n m). unfold name_lt. rewrite (name_compare_antisym n m), <- Hs.
  split; [done|]. destruct (Z.compare_spec z 0); simpl; split_and!; split; intros; lia || done.
Qed.

Lemma Compare_is_name_order_witness :
  exists z, @Compare Empty_set (bs "t,,1.") (bs "t,a,b,0.") = Ok z /\ z < 0.
Proof.
  destruct (@Compare_is_name_order Empty_set (Name (bs "t") [] (bs "1.")) (Name (bs "t") (bs "a,b") (bs "0.")))
    as (z & Hz & Hlt & _).
  { split; apply (bool_decide_unpack _); vm_compute; exact I. }
  { split; apply (bool_decide_unpack _); vm_compute; exact I. }
  exists z. split; [exact Hz|]. apply Hlt. vm_compute. reflexivity.
Defined.

(** The search key of a row is [table,prefix of the row,:] and never longer
    than the [MaxInt16] bytes HBase accepts; the whole row is kept when it
    fits; a table name too long for any key makes the slicing panic. *)
Theorem createRegionSearchKey_bounded {E} table key :
  (exists k, @createRegionSearchKey E table key = Ok (name_bytes (search_name table k)) /\
     k `prefix_of` key /\ len (name_bytes (search_name table k)) <= MaxInt16 /\
     (len table + len key + 3 <= MaxInt16 -> k = key)) \/
  (@createRegionSearchKey E table key = Panic /\ MaxInt16 < len table + 3).
Proof.
  destruct (decide (len table + len key + 3 <= MaxInt16)) as [Hfit|Hlong].
  { left. exists key. rewrite createRegionSearchKey_fits by done. split_and!; [done..| |done].
    unfold len in *. rewrite name_bytes_length. simpl. lia. }
  unfold createRegionSearchKey.
  rewrite bool_decide_eq_false_2 by lia. set (n := MaxInt16 - len table - 3).
  unfold slice_to, slice. destruct (decide (n < 0)) as [Hneg|Hpos].
  { right. case_bool_decide; [lia|]. simpl. split; [done|]. lia. }
  left. exists (take (Z.to_nat n) key). rewrite !bool_decide_eq_true_2 by lia. simpl.
  split_and!; [| | |lia].
  - f_equal. unfold name_bytes. simpl. by rewrite Z.sub_0_r.
  - exists (drop (Z.to_nat n) key). by rewrite take_drop.
  - unfold len in *. rewrite name_bytes_length. simpl. rewrite length_take. lia.
Qed.
