(* ===== verification/Pb.v ===== *)
(** * Protobuf messages (pb/*.pb.go)

    The generated structs, with the fields the client reads or writes.  A
    pointer field is an [option]; a repeated field is a list; a [bytes] field
    is a byte slice.  The wire encoding of protobuf is not modelled. *)

From S2P Require Import Prelude.

(** pb/Cell.pb.go *)
Record Cell := mkCell {
  Row : bytes;
  Family : bytes;
  Qualifier : bytes;
  Timestamp : option Z;
  CellType : option Z;
  Value : bytes;
}.

(** pb/Client.pb.go *)
Record Result := mkResult {
  Result_Cell : list Cell;
  AssociatedCellCount : option Z;
  Exists : option bool;
  Stale : option bool;
  Partial : option bool;
}.

(** The generated getters: the zero value for an absent field. *)
Definition GetPartial (r : Result) : bool := default false (Partial r).
Definition GetStale (r : Result) : bool := default false (Stale r).
Definition GetAssociatedCellCount (r : Result) : Z := default 0 (AssociatedCellCount r).

Definition set_Partial (b : bool) (r : Result) : Result :=
  mkResult (Result_Cell r) (AssociatedCellCount r) (Exists r) (Stale r) (Some b).

Definition set_Stale (b : bool) (r : Result) : Result :=
  mkResult (Result_Cell r) (AssociatedCellCount r) (Exists r) (Some b) (Partial r).

Definition set_Cell (cs : list Cell) (r : Result) : Result :=
  mkResult cs (AssociatedCellCount r) (Exists r) (Stale r) (Partial r).

Record ScanResponse := mkScanResponse {
  CellsPerResult : list Z;
  ScannerId : option Z;
  MoreResults : option bool;
  Results : list (option Result);
  PartialFlagPerResult : list bool;
  MoreResultsInRegion : option bool;
}.

Definition GetScannerId (r : ScanResponse) : Z := default 0 (ScannerId r).
Definition GetMoreResultsInRegion (r : ScanResponse) : bool := default false (MoreResultsInRegion r).

Record NameBytesPair := mkNameBytesPair { NBP_Name : bytes; NBP_Value : bytes }.

Record ResultOrException := mkROE {
  ROE_Index : option Z;
  ROE_Result : option Result;
  ROE_Exception : option NameBytesPair;
}.

Definition ROE_GetIndex (r : ResultOrException) : Z := default 0 (ROE_Index r).

Record RegionActionResult := mkRAR {
  RAR_ResultOrException : list ResultOrException;
  RAR_Exception : option NameBytesPair;
}.

Record MultiResponse := mkMultiResponse { MR_RegionActionResult : list RegionActionResult }.

(** Requests.  [MutationProto_MutationType], [_DeleteType] and [Consistency]
    are the enums of pb/Client.pb.go, [CompareType] of pb/HBase.pb.go. *)
Inductive MutationType := APPEND | INCREMENT | PUT | DELETE.
Inductive DeleteType :=
  DELETE_ONE_VERSION | DELETE_MULTIPLE_VERSIONS | DELETE_FAMILY | DELETE_FAMILY_VERSION.
Inductive PbConsistency := STRONG | TIMELINE.

#[global] Instance MutationType_eq_dec : EqDecision MutationType.
Proof. solve_decision. Defined.

Record RegionSpecifier := mkRegionSpecifier { RS_Type : Z; RS_Value : bytes }.
Definition REGION_NAME : Z := 1.

Record Column := mkColumn { Col_Family : bytes; Col_Qualifier : list bytes }.
Record TimeRange := mkTimeRange { TR_From : option Z; TR_To : option Z }.
Record Filter := mkFilter { Filter_Name : bytes; SerializedFilter : bytes }.
Record Comparator := mkComparator { Comparator_Name : bytes; SerializedComparator : bytes }.

Record PbGet := mkPbGet {
  PbGet_Row : bytes;
  PbGet_Column : list Column;
  PbGet_Filter : option Filter;
  PbGet_TimeRange : TimeRange;
  PbGet_MaxVersions : option Z;
  PbGet_CacheBlocks : option bool;
  PbGet_StoreLimit : option Z;
  PbGet_StoreOffset : option Z;
  PbGet_ExistenceOnly : option bool;
  PbGet_Consistency : option PbConsistency;
}.

Record GetRequest := mkGetRequest { GetRequest_Region : RegionSpecifier; GetRequest_Get : PbGet }.
Record GetResponse := mkGetResponse { GetResponse_Result : option Result }.

Record PbScan := mkPbScan {
  PbScan_Column : list Column;
  PbScan_StartRow : bytes;
  PbScan_StopRow : bytes;
  PbScan_Filter : option Filter;
  PbScan_TimeRange : TimeRange;
  PbScan_MaxVersions : option Z;
  PbScan_CacheBlocks : option bool;
  PbScan_MaxResultSize : option Z;
  PbScan_StoreLimit : option Z;
  PbScan_StoreOffset : option Z;
  PbScan_Reversed : option bool;
  PbScan_Consistency : option PbConsistency;
}.

Record ScanRequest := mkScanRequest {
  ScanRequest_Region : RegionSpecifier;
  ScanRequest_Scan : option PbScan;
  ScanRequest_ScannerId : option Z;
  ScanRequest_NumberOfRows : option Z;
  ScanRequest_CloseScanner : option bool;
  ClientHandlesPartials : option bool;
  ClientHandlesHeartbeats : option bool;
}.

Record QualifierValue := mkQualifierValue {
  QV_Qualifier : bytes;
  QV_Value : bytes;
  QV_Timestamp : option Z;
  QV_DeleteType : option DeleteType;
}.

Record ColumnValue := mkColumnValue { CV_Family : bytes; CV_QualifierValue : list QualifierValue }.

Record MutationProto := mkMutationProto {
  MP_Row : bytes;
  MP_MutateType : MutationType;
  MP_ColumnValue : list ColumnValue;
  MP_Timestamp : option Z;
  MP_Attribute : list NameBytesPair;
  MP_Durability : Z;
  MP_AssociatedCellCount : option Z;
}.

Record Condition := mkCondition {
  Condition_Row : bytes;
  Condition_Family : bytes;
  Condition_Qualifier : bytes;
  Condition_CompareType : Z;
  Condition_Comparator : Comparator;
}.

Definition CompareType_EQUAL : Z := 2.

Record MutateRequest := mkMutateRequest {
  MutateRequest_Region : RegionSpecifier;
  MutateRequest_Mutation : MutationProto;
  MutateRequest_Condition : option Condition;
}.

Record MutateResponse := mkMutateResponse {
  MutateResponse_Result : option Result;
  MutateResponse_Processed : option bool;
}.

Definition GetProcessed (r : MutateResponse) : bool := default false (MutateResponse_Processed r).

Record Action := mkAction {
  Action_Index : option Z;
  Action_Mutation : option MutationProto;
  Action_Get : option PbGet;
}.

Record RegionAction := mkRegionAction {
  RA_Region : RegionSpecifier;
  RA_Action : list Action;
}.

Record MultiRequest := mkMultiRequest { MQ_RegionAction : list RegionAction }.

(** pb/HBase.pb.go *)
Record TableName := mkTableName { TN_Namespace : bytes; TN_Qualifier : bytes }.

Record RegionInfo := mkRegionInfo {
  RegionId : option Z;
  RI_TableName : TableName;
  RI_StartKey : bytes;
  RI_EndKey : bytes;
  RI_Offline : option bool;
}.

Definition GetOffline (r : RegionInfo) : bool := default false (RI_Offline r).
Definition GetRegionId (r : RegionInfo) : Z := default 0 (RegionId r).

(** *** Administration: pb/Master.pb.go, pb/HBase.pb.go, pb/ErrorHandling.pb.go *)

Record SnapshotDescription := mkSnapshotDescription {
  SD_Name : option string;
  SD_Table : option string;
  SD_Type : option Z;
  SD_Version : option Z;
  SD_Owner : option string;
}.

Definition SnapshotDescription_SKIPFLUSH : Z := 2.
Definition ENCODED_REGION_NAME : Z := 2.

Record GenericException := mkGenericException { GE_ClassName : option string; GE_Message : option string }.

Definition GetProcedureResultResponse_NOT_FOUND : Z := 0.
Definition GetProcedureResultResponse_RUNNING : Z := 1.
Definition GetProcedureResultResponse_FINISHED : Z := 2.

(** The responses of the master, with the fields the client reads. *)
Inductive AdminResponse :=
| CreateTableResponse (procId : option Z)
| DeleteTableResponse (procId : option Z)
| EnableTableResponse (procId : option Z)
| DisableTableResponse (procId : option Z)
| CreateNamespaceResponse
| GetProcedureResultResponse (state : option Z) (exception : option (option GenericException))
| SnapshotResponse
| IsSnapshotDoneResponse (done : option bool)
| DeleteSnapshotResponse
| GetCompletedSnapshotsResponse (snapshots : list SnapshotDescription)
| RestoreSnapshotResponse
| IsRestoreSnapshotDoneResponse (done : option bool)
| GetTableNamesResponse (names : list TableName)
| SetBalancerRunningResponse (prevBalanceValue : option bool)
| MoveRegionResponse
| GetClusterStatusResponse (status : option string).
