(* ===== verification/RegionInfo.v ===== *)
(** * Regions: region/info.go

    A region is a shared mutable object: the caches, the RPCs waiting for it
    and the goroutines that re-establish it hold the same pointer.  So regions
    live in a [heap], and channels, whose identity matters to the waiters, are
    allocated from it too.

    [r_dead] is the state of the region's context (cancelled by [MarkDead]);
    [r_available] is [None] for the nil channel of an available region. *)

From S2P Require Import Prelude RegionName Pb.

(** Pointers to regions, pointers to region clients, channels. *)
Abbreviation ptr := nat.
Abbreviation cptr := nat.
Abbreviation chan := nat.

Record info := Info {
  r_id : Z;
  r_namespace : option bytes;
  r_table : bytes;
  r_name : bytes;
  r_startKey : bytes;
  r_stopKey : bytes;
  r_dead : bool;
  r_client : option cptr;
  r_available : option chan;
}.

Record heap := Heap {
  h_infos : gmap ptr info;
  h_next : ptr;
  h_next_chan : chan;
  h_closed : gset chan;
}.

Definition set_info (p : ptr) (i : info) (h : heap) : heap :=
  Heap (<[p := i]> (h_infos h)) (h_next h) (h_next_chan h) (h_closed h).

(** Dereference; a nil or dangling pointer panics. *)
Definition deref {E} (p : ptr) (h : heap) : outcome E info :=
  match h_infos h !! p with
  | Some i => Ok i
  | None => Panic
  end.

Definition empty_heap : heap := Heap ∅ 0 0 ∅.

(** ** Operations *)

Definition NewInfo (id : Z) (namespace : option bytes) (table name startKey stopKey : bytes)
    (h : heap) : ptr * heap :=
  let i := Info id namespace table name startKey stopKey false None None in
  (h_next h, Heap (<[h_next h := i]> (h_infos h)) (S (h_next h)) (h_next_chan h) (h_closed h)).

Definition IsUnavailable {E} (p : ptr) (h : heap) : outcome E bool :=
  let* i := deref p h in
  Ok (bool_decide (r_available i <> None)).

Definition AvailabilityChan {E} (p : ptr) (h : heap) : outcome E (option chan) :=
  let* i := deref p h in
  Ok (r_available i).

Definition set_available (a : option chan) (i : info) : info :=
  Info (r_id i) (r_namespace i) (r_table i) (r_name i) (r_startKey i) (r_stopKey i)
    (r_dead i) (r_client i) a.

Definition MarkUnavailable {E} (p : ptr) (h : heap) : outcome E (bool * heap) :=
  let* i := deref p h in
  match r_available i with
  | None =>
      let ch := h_next_chan h in
      Ok (true,
          Heap (<[p := set_available (Some ch) i]> (h_infos h)) (h_next h) (S ch) (h_closed h))
  | Some _ => Ok (false, h)
  end.

(** [close(ch)] panics on a nil channel and on a closed one. *)
Definition close {E} (ch : option chan) (h : heap) : outcome E heap :=
  match ch with
  | None => Panic
  | Some c =>
      if bool_decide (c ∈ h_closed h) then Panic
      else Ok (Heap (h_infos h) (h_next h) (h_next_chan h) ({[c]} ∪ h_closed h))
  end.

Definition MarkAvailable {E} (p : ptr) (h : heap) : outcome E heap :=
  let* i := deref p h in
  let ch := r_available i in
  let h := set_info p (set_available None i) h in
  close ch h.

Definition set_dead (i : info) : info :=
  Info (r_id i) (r_namespace i) (r_table i) (r_name i) (r_startKey i) (r_stopKey i)
    true (r_client i) (r_available i).

(** [i.cancel()]: cancelling a cancelled context does nothing. *)
Definition MarkDead {E} (p : ptr) (h : heap) : outcome E heap :=
  let* i := deref p h in
  Ok (set_info p (set_dead i) h).

(** [i.Context().Err() != nil]. *)
Definition ContextErr {E} (p : ptr) (h : heap) : outcome E bool :=
  let* i := deref p h in
  Ok (r_dead i).

Definition Client {E} (p : ptr) (h : heap) : outcome E (option cptr) :=
  let* i := deref p h in
  Ok (r_client i).

Definition set_client (c : option cptr) (i : info) : info :=
  Info (r_id i) (r_namespace i) (r_table i) (r_name i) (r_startKey i) (r_stopKey i)
    (r_dead i) c (r_available i).

Definition SetClient {E} (p : ptr) (c : option cptr) (h : heap) : outcome E heap :=
  let* i := deref p h in
  Ok (set_info p (set_client c i) h).

(** rpc.go [fullyQualifiedTable]: a nil namespace is the default one. *)
Definition fullyQualifiedTable (i : info) : bytes :=
  match r_namespace i with
  | None => r_table i
  | Some ns => ns ++ [colon] ++ r_table i
  end.

(** ** Parsing a row of the meta table *)

Inductive parse_error :=
| EmptyValue
| UnsupportedVersion (b : byte)
| InvalidMagic
| FailedToDecode
| OfflineRegionError (n : bytes)
| NoRegionInRow
| NoServerLocation.

Definition pbufMagic : Z := 1346524486.

Section Parse.

(** [proto.Unmarshal] into a [pb.RegionInfo]. *)
Context (unmarshal_RegionInfo : bytes -> option RegionInfo).

Definition infoFromCell (cell : Cell) (h : heap) : outcome parse_error (ptr * heap) :=
  let value := Value cell in
  match value with
  | [] => Err EmptyValue
  | v0 :: _ =>
      if bool_decide (v0 <> x50) then Err (UnsupportedVersion v0)
      else
        let* head := slice_to value 4 in
        let* magic := Uint32 head in
        if bool_decide (magic <> pbufMagic) then Err InvalidMagic
        else
          let* tail := slice_from value 4 in
          match unmarshal_RegionInfo tail with
          | None => Err FailedToDecode
          | Some regInfo =>
              if GetOffline regInfo then Err (OfflineRegionError (Row cell))
              else
                let ns := TN_Namespace (RI_TableName regInfo) in
                let namespace :=
                  if negb (bytes_eqb ns (bs "default")) then Some ns else None in
                Ok (NewInfo (GetRegionId regInfo) namespace (TN_Qualifier (RI_TableName regInfo))
                      (Row cell) (RI_StartKey regInfo) (RI_EndKey regInfo) h)
          end
  end.

(** The loop over the cells of the row; [reg] and [addr] are the variables it
    updates. *)
Fixpoint parse_cells (cells : list Cell) (reg : option ptr) (addr : bytes) (h : heap)
    : outcome parse_error (option ptr * bytes * heap) :=
  match cells with
  | [] => Ok (reg, addr, h)
  | cell :: cells' =>
      if bool_decide (Qualifier cell = bs "regioninfo") then
        let* r := infoFromCell cell h in
        parse_cells cells' (Some (fst r)) addr (snd r)
      else if bool_decide (Qualifier cell = bs "server") then
        if bool_decide (len (Value cell) = 0) then parse_cells cells' reg addr h
        else parse_cells cells' reg (Value cell) h
      else parse_cells cells' reg addr h
  end.

Definition ParseRegionInfo (metaRow : list Cell) (h : heap)
    : outcome parse_error (ptr * bytes * heap) :=
  let* r := parse_cells metaRow None [] h in
  let '(reg, addr, h) := r in
  match reg with
  | None => Err NoRegionInRow
  | Some p => if bool_decide (len addr = 0) then Err NoServerLocation else Ok (p, addr, h)
  end.

End Parse.

(** ** The heap invariant *)

(** Pointers are below the allocation mark; the channel of an unavailable
    region is open and belongs to that region only. *)
Record heap_ok (h : heap) : Prop := {
  heap_ok_ptr p i : h_infos h !! p = Some i -> (p < h_next h)%nat;
  heap_ok_chan p i c : h_infos h !! p = Some i -> r_available i = Some c ->
    (c < h_next_chan h)%nat /\ (c ∉ h_closed h);
  heap_ok_closed c : c ∈ h_closed h -> (c < h_next_chan h)%nat;
  heap_ok_inj p q i j c : h_infos h !! p = Some i -> h_infos h !! q = Some j ->
    r_available i = Some c -> r_available j = Some c -> p = q;
}.

Lemma deref_Ok {E} p h i : @deref E p h = Ok i <-> h_infos h !! p = Some i.
Proof. unfold deref. destruct (h_infos h !! p); split; intros; simplify_eq; done. Qed.

Lemma deref_lookup {E} p h i : h_infos h !! p = Some i -> @deref E p h = Ok i.
Proof. apply deref_Ok. Qed.

Create HintDb heap.
#[export] Hint Resolve deref_lookup : heap.
#[export] Hint Resolve heap_ok_ptr heap_ok_closed : heap.

(** Evaluate a [deref] whose target is known. *)
Ltac deref_tac := repeat (erewrite deref_lookup by eassumption; simpl).

Lemma empty_heap_ok : heap_ok empty_heap.
Proof. split; simpl; set_solver. Qed.

Lemma NewInfo_ok id ns t n sk ek h : heap_ok h -> heap_ok (snd (NewInfo id ns t n sk ek h)).
Proof.
  intros Hok. split; simpl; intros *; rewrite ?lookup_insert_Some.
  - intros [[<- _]|[_ H]]; [lia|]. apply heap_ok_ptr in H; [lia|done].
  - intros [[<- <-]|[_ H]]; [done|]. by eapply heap_ok_chan.
  - apply heap_ok_closed. done.
  - intros [[<- <-]|[_ ?]] [[<- <-]|[_ ?]]; try done. by eapply heap_ok_inj.
Qed.

(** Updates that leave the channels alone keep the invariant. *)
Lemma set_info_ok p i i' h :
  heap_ok h -> h_infos h !! p = Some i -> r_available i' = r_available i ->
  heap_ok (set_info p i' h).
Proof.
  intros Hok Hp Ha. split; simpl; intros *; rewrite ?lookup_insert_Some.
  - intros [[<- _]|[_ H]]; by eapply heap_ok_ptr.
  - intros [[<- <-]|[_ H]]; rewrite ?Ha; by eapply heap_ok_chan.
  - by apply heap_ok_closed.
  - intros [[<- <-]|[_ ?]] [[<- <-]|[_ ?]]; rewrite ?Ha; intros; try done;
      by eapply (heap_ok_inj h Hok).
Qed.

Lemma MarkUnavailable_spec {E} p h i :
  h_infos h !! p = Some i ->
  @MarkUnavailable E p h =
  Ok (match r_available i with
      | None => (true, Heap (<[p := set_available (Some (h_next_chan h)) i]> (h_infos h))
                         (h_next h) (S (h_next_chan h)) (h_closed h))
      | Some _ => (false, h)
      end).
Proof. intros Hp. unfold MarkUnavailable. deref_tac. by destruct (r_available i). Qed.

Lemma MarkUnavailable_ok {E} p h b h' :
  heap_ok h -> @MarkUnavailable E p h = Ok (b, h') -> heap_ok h'.
Proof.
  intros Hok H. unfold MarkUnavailable in H. ok_inv. apply deref_Ok in Hr.
  destruct (r_available r) as [c|] eqn:Ha; simplify_eq/=; [done|].
  split; simpl; intros *; rewrite ?lookup_insert_Some.
  - intros [[<- _]|[_ H]]; by eapply heap_ok_ptr.
  - intros [[<- <-]|[_ H]]; simpl.
    + intros [= <-]. split; [lia|]. intros Hc%heap_ok_closed; [lia|done].
    + intros Hi. eapply heap_ok_chan in H as [??]; [|done..]. split; [lia|done].
  - intros Hc%heap_ok_closed; [lia|done].
  - intros [[<- <-]|[_ H1]] [[<- <-]|[_ H2]]; simpl; intros; simplify_eq; [done|..].
    + eapply heap_ok_chan in H2 as [??]; [|done..]. lia.
    + eapply heap_ok_chan in H1 as [??]; [|done..]. lia.
    + by eapply heap_ok_inj.
Qed.

(** On an unavailable region [MarkAvailable] does not panic, and closes the
    region's channel and no other. *)
Lemma MarkAvailable_spec {E} p h i c :
  heap_ok h -> h_infos h !! p = Some i -> r_available i = Some c ->
  @MarkAvailable E p h =
  Ok (Heap (<[p := set_available None i]> (h_infos h)) (h_next h) (h_next_chan h)
        ({[c]} ∪ h_closed h)).
Proof.
  intros Hok Hp Ha. unfold MarkAvailable. deref_tac. rewrite Ha. simpl.
  rewrite bool_decide_eq_false_2; [done|]. by eapply heap_ok_chan.
Qed.

Lemma MarkAvailable_nil {E} p h i :
  h_infos h !! p = Some i -> r_available i = None -> @MarkAvailable E p h = Panic.
Proof. intros Hp Ha. unfold MarkAvailable. deref_tac. by rewrite Ha. Qed.

Lemma MarkAvailable_ok {E} p h h' :
  heap_ok h -> @MarkAvailable E p h = Ok h' -> heap_ok h'.
Proof.
  intros Hok H. unfold MarkAvailable in H. ok_inv. apply deref_Ok in Hr.
  destruct (r_available r) as [c|] eqn:Ha; simpl in H; [|done].
  case_bool_decide as Hc; simplify_eq/=.
  split; simpl; intros *; rewrite ?lookup_insert_Some.
  - intros [[<- _]|[_ H]]; by eapply heap_ok_ptr.
  - intros [[<- <-]|[Hne H]]; [done|]. intros Hi.
    pose proof (heap_ok_chan h Hok _ _ _ H Hi) as [??]. split; [done|].
    rewrite not_elem_of_union, elem_of_singleton. split; [|done].
    intros ->. apply Hne. by eapply heap_ok_inj.
  - rewrite elem_of_union, elem_of_singleton. intros [->|?]; [|by apply heap_ok_closed].
    by eapply heap_ok_chan.
  - intros [[<- <-]|[_ H1]] [[<- <-]|[_ H2]]; simpl; intros; simplify_eq. by eapply heap_ok_inj.
Qed.

Lemma MarkDead_ok {E} p h h' : heap_ok h -> @MarkDead E p h = Ok h' -> heap_ok h'.
Proof.
  intros Hok H. unfold MarkDead in H. ok_inv. subst. apply deref_Ok in Hr. by eapply set_info_ok.
Qed.

Lemma SetClient_ok {E} p c h h' : heap_ok h -> @SetClient E p c h = Ok h' -> heap_ok h'.
Proof.
  intros Hok H. unfold SetClient in H. ok_inv. subst. apply deref_Ok in Hr. by eapply set_info_ok.
Qed.

(** ** Sequences of operations on the regions *)

Inductive op :=
| OpMarkUnavailable (p : ptr)
| OpMarkAvailable (p : ptr)
| OpMarkDead (p : ptr)
| OpSetClient (p : ptr) (c : option cptr).

#[global] Instance op_eq_dec : EqDecision op.
Proof. solve_decision. Defined.

(** One operation; the boolean is the result of [MarkUnavailable]. *)
Definition do_op {E} (o : op) (h : heap) : outcome E (bool * heap) :=
  match o with
  | OpMarkUnavailable p => MarkUnavailable p h
  | OpMarkAvailable p => let* h := MarkAvailable p h in Ok (false, h)
  | OpMarkDead p => let* h := MarkDead p h in Ok (false, h)
  | OpSetClient p c => let* h := SetClient p c h in Ok (false, h)
  end.

(** A run with, for each operation, what it returned. *)
Inductive run {E} : heap -> list (op * bool) -> heap -> Prop :=
| run_nil h : run h [] h
| run_cons h o b h' l h'' : @do_op E o h = Ok (b, h') -> run h' l h'' -> run h ((o, b) :: l) h''.

(** How often a caller of [MarkUnavailable p] was told that it is the one to
    bring the region back, and how often the region was brought back. *)
Definition granted (p : ptr) (l : list (op * bool)) : nat :=
  sum_list_with (fun x => if decide (x = (OpMarkUnavailable p, true)) then 1%nat else 0%nat) l.
Definition released (p : ptr) (l : list (op * bool)) : nat :=
  sum_list_with (fun x => if decide (fst x = OpMarkAvailable p) then 1%nat else 0%nat) l.

Definition unavailable (i : info) : nat := match r_available i with Some _ => 1%nat | None => 0%nat end.

(** What an operation does to the availability of a region. *)
Lemma do_op_availability {E} o b h h' p i :
  h_infos h !! p = Some i -> @do_op E o h = Ok (b, h') ->
  exists i', h_infos h' !! p = Some i' /\
  (granted p [(o, b)] + unavailable i = released p [(o, b)] + unavailable i')%nat.
Proof.
  intros Hp H. unfold granted, released, unavailable. simpl.
  destruct o as [q|q|q|q c]; simpl in H; ok_inv; simplify_eq.
  - unfold MarkUnavailable in H. ok_inv. apply deref_Ok in Hr.
    destruct (decide (p = q)) as [->|Hne], (r_available r) eqn:Ha; simplify_eq/=;
      eexists; rewrite ?lookup_insert_eq, ?lookup_insert_ne by done; (split; [done|]);
      rewrite ?Ha; repeat case_decide; simplify_eq/=; done || lia.
  - unfold MarkAvailable in Hr. ok_inv. apply deref_Ok in Hr0.
    destruct (r_available r) eqn:Ha; simpl in Hr; [|done]. case_bool_decide; simplify_eq/=.
    destruct (decide (p = q)) as [->|Hne]; simplify_eq/=;
      eexists; rewrite ?lookup_insert_eq, ?lookup_insert_ne by done; (split; [done|]);
      rewrite ?Ha; repeat case_decide; simplify_eq/=; done || lia.
  - unfold MarkDead in Hr. ok_inv. simplify_eq. apply deref_Ok in Hr0.
    destruct (decide (p = q)) as [->|Hne]; simplify_eq; eexists; simpl;
      rewrite ?lookup_insert_eq, ?lookup_insert_ne by done; done.
  - unfold SetClient in Hr. ok_inv. simplify_eq. apply deref_Ok in Hr0.
    destruct (decide (p = q)) as [->|Hne]; simplify_eq; eexists; simpl;
      rewrite ?lookup_insert_eq, ?lookup_insert_ne by done; done.
Qed.

Lemma do_op_ok {E} o b h h' : heap_ok h -> @do_op E o h = Ok (b, h') -> heap_ok h'.
Proof.
  destruct o; simpl; intros Hok H; [by eapply MarkUnavailable_ok|ok_inv; simplify_eq..].
  - by eapply MarkAvailable_ok.
  - by eapply MarkDead_ok.
  - by eapply SetClient_ok.
Qed.

Lemma granted_app p l k : granted p (l ++ k) = (granted p l + granted p k)%nat.
Proof. unfold granted. apply sum_list_with_app. Qed.

Lemma released_app p l k : released p (l ++ k) = (released p l + released p k)%nat.
Proof. unfold released. apply sum_list_with_app. Qed.

Lemma run_availability {E} h l h' p i :
  @run E h l h' -> h_infos h !! p = Some i ->
  exists i', h_infos h' !! p = Some i' /\
  (granted p l + unavailable i = released p l + unavailable i')%nat.
Proof.
  intros Hrun. revert i. induction Hrun as [h|h o b h' l h'' Hop _ IH]; intros i Hp.
  - exists i. done.
  - destruct (do_op_availability _ _ _ _ _ _ Hp Hop) as (i1 & Hp1 & H1).
    destruct (IH _ Hp1) as (i2 & Hp2 & H2). exists i2. split; [done|].
    change ((o, b) :: l) with ([(o, b)] ++ l). rewrite granted_app, released_app. lia.
Qed.

(** ** Parsing *)

Section ParseProofs.
Context (unmarshal_RegionInfo : bytes -> option RegionInfo).

(** The region a [regioninfo] cell describes. *)
Definition describes (cell : Cell) (i : info) : Prop :=
  exists tail r,
    Value cell = bs "PBUF" ++ tail /\ unmarshal_RegionInfo tail = Some r /\
    GetOffline r = false /\
    i = Info (GetRegionId r)
          (if decide (TN_Namespace (RI_TableName r) = bs "default") then None
           else Some (TN_Namespace (RI_TableName r)))
          (TN_Qualifier (RI_TableName r)) (Row cell) (RI_StartKey r) (RI_EndKey r)
          false None None.

Lemma pbuf_magic l : len l = 4 -> be_decode l = pbufMagic -> l = bs "PBUF".
Proof.
  intros Hl Hm. rewrite <- (be_encode_decode l), Hm.
  replace (length l) with 4%nat by (unfold len in Hl; lia). reflexivity.
Qed.

Lemma infoFromCell_Ok cell h p h' :
  infoFromCell unmarshal_RegionInfo cell h = Ok (p, h') ->
  exists i, describes cell i /\ p = h_next h /\ h_infos h' = <[p := i]> (h_infos h)
    /\ h_next h' = S p.
Proof.
  unfold infoFromCell. destruct (Value cell) as [|v0 v] eqn:Hv; [done|].
  case_bool_decide; [done|]. intros H1. ok_inv.
  apply slice_to_Ok_inv in Hr as (_ & -> & Hl).
  apply UintN_Ok_inv in Hr0 as (_ & -> & _ & _).
  rewrite take_take in H1. simpl Nat.min in H1.
  case_bool_decide as Hm; [done|]. ok_inv.
  apply slice_from_Ok_inv in Hr as (_ & -> & _).
  destruct (unmarshal_RegionInfo _) as [reg|] eqn:Hu; [|done].
  destruct (GetOffline reg) eqn:Ho; [done|]. unfold NewInfo in H1. injection H1 as <- <-.
  eexists. split; [|done]. exists (drop 4 (v0 :: v)), reg. split.
  - rewrite Hv. change (Z.to_nat 4) with 4%nat in *.
    rewrite <- (take_drop 4 (v0 :: v)) at 1. f_equal. apply pbuf_magic; [done|].
    destruct (decide (be_decode (take 4 (v0 :: v)) = pbufMagic)); done.
  - split; [done|]. split; [done|]. unfold bytes_eqb. case_bool_decide; simpl; by case_decide.
Qed.

(** The only way [infoFromCell] panics: a version byte and less than the four
    bytes of the magic number. *)
Definition short_magic (cell : Cell) : Prop :=
  len (Value cell) < 4 /\ head (Value cell) = Some x50.

Lemma infoFromCell_Panic cell h :
  infoFromCell unmarshal_RegionInfo cell h = Panic <-> short_magic cell.
Proof.
  unfold infoFromCell, short_magic. destruct (Value cell) as [|v0 v] eqn:Hv; [split; [done|by intros []]|].
  simpl head. case_bool_decide as Hv0.
  { split; [done|]. intros [_ [= ->]]. done. }
  assert (v0 = x50) as -> by (by destruct (decide (v0 = x50))).
  unfold slice_to, slice. destruct (decide (4 <= len (x50 :: v))) as [Hl|Hl].
  - split; [|lia]. rewrite (bool_decide_eq_true_2 (0 <= 0 <= 4)), bool_decide_eq_true_2 by lia.
    simpl. unfold Uint32, UintN. rewrite bool_decide_eq_true_2.
    + simpl. case_bool_decide; [done|]. unfold slice_from, slice.
      rewrite (bool_decide_eq_true_2 (0 <= 4 <= _)), bool_decide_eq_true_2 by lia. simpl.
      destruct (unmarshal_RegionInfo _) as [reg|]; [|done]. by destruct (GetOffline reg).
    + unfold len in *. simpl in *. rewrite length_take. lia.
  - rewrite (bool_decide_eq_false_2 (4 <= _)) by done. rewrite andb_false_r. simpl.
    split; [|done]. split; [lia|done].
Qed.

(** The regions that the loop makes are available. *)
Lemma parse_cells_available cells reg addr h r h' p i c :
  parse_cells unmarshal_RegionInfo cells reg addr h = Ok (r, h') ->
  h_infos h' !! p = Some i -> r_available i = Some c -> h_infos h !! p = Some i.
Proof.
  revert reg addr h. induction cells as [|cell cells IH]; intros reg addr h H Hp Hc; simpl in H; [by simplify_eq|].
  case_bool_decide; [|repeat case_bool_decide; by eapply IH]. ok_inv. destruct r0 as [q h1]. simpl in H.
  destruct (infoFromCell_Ok _ _ _ _ Hr) as (j & (tail & ri & _ & _ & _ & ->) & -> & Hi & _).
  apply IH in H; [|done..]. rewrite Hi in H. by apply lookup_insert_Some in H as [[_ <-]|[_ ?]].
Qed.

(** What the loop over the cells has established. *)
Lemma parse_cells_Ok cells reg addr h reg' addr' h' :
  heap_ok h ->
  parse_cells unmarshal_RegionInfo cells reg addr h = Ok (reg', addr', h') ->
  heap_ok h' /\
  (forall p i, h_infos h !! p = Some i -> h_infos h' !! p = Some i) /\
  (reg' = reg \/ exists cell p i, cell ∈ cells /\ Qualifier cell = bs "regioninfo" /\
     reg' = Some p /\ describes cell i /\ h_infos h' !! p = Some i /\ (h_infos h !! p = None)) /\
  (addr' = addr \/ exists cell, cell ∈ cells /\ Qualifier cell = bs "server" /\
     addr' = Value cell /\ addr' <> []).
Proof.
  revert reg addr h. induction cells as [|cell cells IH]; intros reg addr h Hok H; simpl in H.
  { simplify_eq. split_and!; auto. }
  case_bool_decide as Hq; [|case_bool_decide as Hq2; [case_bool_decide as Hlen|]].
  2-4: apply IH in H as (? & ? & Hreg & Haddr); [|done]; split_and!; [done..| |].
  - ok_inv. destruct r as [p h1]. simpl in H.
    pose proof (infoFromCell_Ok _ _ _ _ Hr) as (i & Hd & -> & Hi & Hn).
    assert (h_infos h !! h_next h = None) as Hfresh.
    { apply eq_None_not_Some. intros [j Hj%heap_ok_ptr]; [lia|done]. }
    assert (heap_ok h1) as Hok1.
    { unfold infoFromCell in Hr. clear -Hr Hok.
      repeat (case_match; try done); ok_inv; repeat (case_match; try done; ok_inv).
      all: simplify_eq; eapply (NewInfo_ok _ _ _ _ _ _ _ Hok). }
    apply IH in H as (? & Hmono & Hreg & Haddr); [|done]. split_and!; [done|..].
    + intros p j Hj. apply Hmono. rewrite Hi, lookup_insert_ne; [done|]. congruence.
    + right. destruct Hreg as [->|(c & p & j & ? & ? & -> & ? & ? & Hp)].
      * exists cell, (h_next h), i. split_and!; try done; [by left|].
        apply Hmono. rewrite Hi. apply lookup_insert_eq.
      * exists c, p, j. split_and!; try done; [by right|].
        rewrite Hi, lookup_insert_None in Hp. tauto.
    + destruct Haddr as [?|(c & ? & ?)]; [by left|]. right. exists c. split; [by right|done].
  - destruct Hreg as [?|(c & ? & ? & ? & ?)]; [by left|]. right. do 3 eexists. split; [by right|done].
  - destruct Haddr as [?|(c & ? & ?)]; [by left|]. right. exists c. split; [by right|done].
  - destruct Hreg as [?|(c & ? & ? & ? & ?)]; [by left|]. right. do 3 eexists. split; [by right|done].
  - right. destruct Haddr as [->|(c & ? & ?)]; [|exists c; split; [by right|done]].
    exists cell. split_and!; try done; [by left|]. intros Hnil. by rewrite Hnil in Hlen.
  - destruct Hreg as [?|(c & ? & ? & ? & ?)]; [by left|]. right. do 3 eexists. split; [by right|done].
  - destruct Haddr as [?|(c & ? & ?)]; [by left|]. right. exists c. split; [by right|done].
Qed.

(** A panicking row holds a [regioninfo] cell with a truncated magic number. *)
Lemma parse_cells_Panic cells reg addr h :
  parse_cells unmarshal_RegionInfo cells reg addr h = Panic ->
  exists cell, cell ∈ cells /\ Qualifier cell = bs "regioninfo" /\ short_magic cell.
Proof.
  revert reg addr h. induction cells as [|cell cells IH]; intros reg addr h H; simpl in H; [done|].
  case_bool_decide as Hq; [|case_bool_decide; [case_bool_decide|]].
  - destruct (infoFromCell unmarshal_RegionInfo cell h) eqn:Hi; simpl in H; [|done|].
    + apply IH in H as (c & ? & ?). exists c. split; [by right|done].
    + apply infoFromCell_Panic in Hi. exists cell. split; [by left|done].
  - apply IH in H as (c & ? & ?). exists c. split; [by right|done].
  - apply IH in H as (c & ? & ?). exists c. split; [by right|done].
  - apply IH in H as (c & ? & ?). exists c. split; [by right|done].
Qed.

(** *** The exact outcome *)

(** Why a [regioninfo] cell is refused. *)
Definition rejects (cell : Cell) (e : parse_error) : Prop :=
  match e with
  | EmptyValue => Value cell = []
  | UnsupportedVersion b => head (Value cell) = Some b /\ b <> x50
  | InvalidMagic => head (Value cell) = Some x50 /\ 4 <= len (Value cell) /\ take 4 (Value cell) <> bs "PBUF"
  | FailedToDecode => exists tail, Value cell = bs "PBUF" ++ tail /\ unmarshal_RegionInfo tail = None
  | OfflineRegionError n => n = Row cell /\
      exists tail r, Value cell = bs "PBUF" ++ tail /\ unmarshal_RegionInfo tail = Some r /\ GetOffline r = true
  | NoRegionInRow | NoServerLocation => False
  end.

Lemma infoFromCell_Err cell h e : infoFromCell unmarshal_RegionInfo cell h = Err e -> rejects cell e.
Proof.
  unfold infoFromCell, rejects. destruct (Value cell) as [|v0 v] eqn:Hv; [by intros [= <-]|].
  case_bool_decide as Hv0; [by intros [= <-]|]. assert (v0 = x50) as -> by (by destruct (decide (v0 = x50))).
  destruct (decide (4 <= len (x50 :: v))) as [Hl|Hl].
  2: { unfold slice_to, slice. rewrite (bool_decide_eq_false_2 (4 <= _)) by done. by rewrite andb_false_r. }
  assert (slice_to (x50 :: v) 4 = Ok (E := parse_error) (take 4 (x50 :: v))) as ->.
  { unfold slice_to, slice. rewrite !bool_decide_eq_true_2 by lia. done. }
  assert (len (take 4 (x50 :: v)) = 4) as Hlen by (unfold len in *; rewrite length_take; lia).
  cbn [obind]. assert (Uint32 (take 4 (x50 :: v)) = Ok (E := parse_error) (be_decode (take 4 (x50 :: v)))) as ->.
  { unfold Uint32, UintN. rewrite bool_decide_eq_true_2 by lia. change (Z.to_nat 4) with 4%nat. by rewrite take_take. }
  cbn [obind]. case_bool_decide as Hm.
  { intros [= <-]. split_and!; [done|done|]. intros Heq. by rewrite Heq in Hm. }
  assert (x50 :: v = bs "PBUF" ++ drop 4 (x50 :: v)) as Hp.
  { rewrite <- (take_drop 4 (x50 :: v)) at 1. f_equal. apply pbuf_magic; [done|].
    by destruct (decide (be_decode (take 4 (x50 :: v)) = pbufMagic)). }
  assert (slice_from (x50 :: v) 4 = Ok (E := parse_error) (drop 4 (x50 :: v))) as ->.
  { unfold slice_from, slice. rewrite !bool_decide_eq_true_2 by lia. cbn [andb]. f_equal.
    change (Z.to_nat 4) with 4%nat. apply take_ge. rewrite length_drop. unfold len. lia. }
  cbn [obind]. destruct (unmarshal_RegionInfo _) as [reg|] eqn:Hu; [|by intros [= <-]; eauto].
  destruct (GetOffline reg) eqn:Ho; [intros [= <-]; eauto 10|done].
Qed.

Lemma infoFromCell_heap_ok cell h p h' :
  heap_ok h -> infoFromCell unmarshal_RegionInfo cell h = Ok (p, h') -> heap_ok h'.
Proof.
  intros Hok H. assert (parse_cells unmarshal_RegionInfo [mkCell (Row cell) (Family cell) (bs "regioninfo") None None (Value cell)]
    None [] h = Ok (Some p, [], h')) as Hp; [|by eapply (parse_cells_Ok _ _ _ _ _ _ _ Hok Hp)].
  simpl. unfold infoFromCell in *. simpl. by rewrite H.
Qed.

Definition info_cell (c : Cell) : Prop := Qualifier c = bs "regioninfo".
Definition server_cell (c : Cell) : Prop := Qualifier c = bs "server" /\ Value c <> [].

#[local] Instance info_cell_dec c : Decision (info_cell c).
Proof. unfold info_cell. apply _. Defined.
#[local] Instance server_cell_dec c : Decision (server_cell c).
Proof. unfold server_cell. apply _. Defined.

Definition well_described (c : Cell) : Prop := info_cell c -> exists i, describes c i.

(** The first bad cell decides; else the last region and the last address count. *)
Definition first_bad (bad : Cell -> Prop) (cells : list Cell) : Prop :=
  exists before c after, cells = before ++ c :: after /\ info_cell c /\ bad c /\ Forall well_described before.

Lemma first_bad_cons bad c cells : well_described c -> first_bad bad cells -> first_bad bad (c :: cells).
Proof. intros Hc (before & d & after & -> & ? & ? & ?). exists (c :: before), d, after. split_and!; [done..|by constructor]. Qed.

Lemma parse_cells_exact cells reg addr h :
  heap_ok h ->
  match parse_cells unmarshal_RegionInfo cells reg addr h with
  | Ok (reg', addr', h') =>
      Forall well_described cells /\ addr' = from_option Value addr (last (filter server_cell cells)) /\
      match last (filter info_cell cells) with
      | None => reg' = reg
      | Some c => exists p i, reg' = Some p /\ describes c i /\ h_infos h' !! p = Some i /\ h_infos h !! p = None
      end
  | Err e => first_bad (fun c => rejects c e) cells
  | Panic => first_bad short_magic cells
  end.
Proof.
  revert reg addr h. induction cells as [|cell cells IH]; intros reg addr h Hok; [by split_and!|]. cbn [parse_cells].
  rewrite !filter_cons. destruct (decide (info_cell cell)) as [Hq|Hq].
  - rewrite bool_decide_eq_true_2 by done. rewrite decide_False by (intros [Hs _]; rewrite Hq in Hs; done).
    destruct (infoFromCell unmarshal_RegionInfo cell h) as [[q h1]|e|] eqn:Hi; cbn [obind fst snd].
    + pose proof (infoFromCell_heap_ok _ _ _ _ Hok Hi) as Hok1.
      destruct (infoFromCell_Ok _ _ _ _ Hi) as (i & Hd & -> & Hins & _). assert (well_described cell) as Hwd by (intros _; by exists i).
      specialize (IH (Some (h_next h)) addr h1 Hok1).
      destruct (parse_cells unmarshal_RegionInfo cells (Some (h_next h)) addr h1) as [[[reg' addr'] h']|e|] eqn:Hp;
        [|by apply first_bad_cons..].
      destruct IH as (Hall & Ha & Hr). split; [by constructor|]. split; [done|]. rewrite last_cons.
      destruct (last (filter info_cell cells)) as [c|].
      * destruct Hr as (p & j & ? & ? & ? & Hn). exists p, j. split_and!; try done. rewrite Hins, lookup_insert_None in Hn. apply Hn.
      * exists (h_next h), i. destruct (parse_cells_Ok _ _ _ _ _ _ _ Hok1 Hp) as (_ & Hmono & _). split_and!; try done.
        -- apply Hmono. rewrite Hins. apply lookup_insert_eq.
        -- apply eq_None_not_Some. intros [j Hj%heap_ok_ptr]; [lia|done].
    + exists [], cell, cells. split_and!; [done|done|by eapply infoFromCell_Err|constructor].
    + exists [], cell, cells. split_and!; [done|done|by eapply infoFromCell_Panic|constructor].
  - rewrite bool_decide_eq_false_2 by done. assert (well_described cell) as Hwd by (by intros ?).
    case_bool_decide as Hs; [case_bool_decide as Hl|].
    + apply (f_equal Z.to_nat) in Hl. unfold len in Hl. rewrite Nat2Z.id in Hl. apply nil_length_inv in Hl.
      rewrite decide_False by (by intros [_ ?]). specialize (IH reg addr h Hok).
      destruct (parse_cells _ cells reg addr h) as [[[reg' addr'] h']|e|]; [|by apply first_bad_cons..].
      destruct IH as (? & ? & ?). split_and!; [by constructor|done..].
    + rewrite decide_True by (split; [done|]; intros Hn; by rewrite Hn in Hl). specialize (IH reg (Value cell) h Hok).
      destruct (parse_cells _ cells reg (Value cell) h) as [[[reg' addr'] h']|e|]; [|by apply first_bad_cons..].
      destruct IH as (? & -> & ?). split_and!; [by constructor| |done]. rewrite last_cons.
      by destruct (last (filter server_cell cells)).
    + rewrite decide_False by (by intros [? _]). specialize (IH reg addr h Hok).
      destruct (parse_cells _ cells reg addr h) as [[[reg' addr'] h']|e|]; [|by apply first_bad_cons..].
      destruct IH as (? & ? & ?). split_and!; [by constructor|done..].
Qed.

Lemma last_None_filter (P : Cell -> Prop) `{!forall c, Decision (P c)} l : last (filter P l) = None -> forall c, c ∈ l -> ~ P c.
Proof. intros Hl c Hc HP. apply last_None in Hl. assert (c ∈ filter P l) as Hin by (by apply list_elem_of_filter). rewrite Hl in Hin. by apply elem_of_nil in Hin. Qed.


End ParseProofs.

(** The decoder of the witness: a fixed region. *)
Definition sample_region : RegionInfo :=
  mkRegionInfo (Some 7) (mkTableName (bs "default") (bs "t")) [] [] None.

Definition sample_row : list Cell :=
  [mkCell (bs "t,,7.") (bs "info") (bs "regioninfo") None None (bs "PBUFx");
   mkCell (bs "t,,7.") (bs "info") (bs "server") None None (bs "host:1")].


(** brought down and brought back alternate: over any sequence of operations on the
    regions, started in any state, the callers of [MarkUnavailable] who were told to bring
    region [p] back and the calls of [MarkAvailable] on it balance, up to whether the
    region is unavailable before and after.  In particular two callers are
    never told to bring the same region back without a [MarkAvailable] between. *)
Theorem availability_alternates h l h' p i :
  @run Empty_set h l h' -> h_infos h !! p = Some i ->
  exists i', h_infos h' !! p = Some i' /\
  (granted p l + unavailable i = released p l + unavailable i')%nat /\
  (granted p l <= S (released p l))%nat.
Proof.
  intros Hrun Hp. destruct (run_availability _ _ _ _ _ Hrun Hp) as (i' & ? & ?).
  exists i'. split_and!; [done..|]. unfold unavailable in *. destruct (r_available i'); lia.
Qed.

Definition one_region : heap := snd (NewInfo 1 None (bs "t") (bs "t,,1") [] [] empty_heap).

Lemma availability_alternates_witness :
  exists l h', @run Empty_set one_region l h' /\ (granted 0 l <= S (released 0 l))%nat /\
    granted 0 l = 2%nat.
Proof.
  set (l := [(OpMarkUnavailable 0, true); (OpMarkUnavailable 0, false); (OpMarkAvailable 0, false);
             (OpMarkUnavailable 0, true)]).
  assert (exists h', @run Empty_set one_region l h') as [h' Hrun].
  { eexists. unfold l. repeat (eapply run_cons; [vm_compute; reflexivity|]). apply run_nil. }
  destruct (availability_alternates one_region l h' 0
    (Info 1 None (bs "t") (bs "t,,1") [] [] false None None) Hrun ltac:(vm_compute; reflexivity))
    as (i' & _ & _ & Hle).
  exists l, h'. split; [exact Hrun|]. split; [exact Hle|]. vm_compute. reflexivity.
Defined.

(** every operation keeps the channels of the regions apart, and bringing an
    unavailable region back closes exactly the channel its waiters hold: from
    a well-formed heap each operation leads to a well-formed heap, and
    [MarkAvailable] on a region whose [AvailabilityChan] is [c] returns, leaves
    the region available and closes [c] and no other channel. *)
Theorem MarkAvailable_wakes_waiters h p c :
  heap_ok h -> @AvailabilityChan Empty_set p h = Ok (Some c) ->
  (forall o b h', @do_op Empty_set o h = Ok (b, h') -> heap_ok h') /\
  (c ∉ h_closed h) /\
  exists h', @MarkAvailable Empty_set p h = Ok h' /\
    h_closed h' = {[c]} ∪ h_closed h /\
    @AvailabilityChan Empty_set p h' = Ok None /\ @IsUnavailable Empty_set p h' = Ok false.
Proof.
  intros Hok H. unfold AvailabilityChan in H. ok_inv. apply deref_Ok in Hr.
  split; [intros *; by apply do_op_ok|]. split; [by eapply heap_ok_chan|].
  eexists. split; [by eapply MarkAvailable_spec|]. split; [done|].
  unfold AvailabilityChan, IsUnavailable, deref. simpl. by rewrite lookup_insert_eq.
Qed.

Lemma MarkAvailable_wakes_waiters_witness :
  exists h h', heap_ok h /\ @MarkAvailable Empty_set 0 h = Ok h' /\ h_closed h' = {[0%nat]} ∪ h_closed h.
Proof.
  assert (heap_ok one_region) as Hok by apply (NewInfo_ok _ _ _ _ _ _ _ empty_heap_ok).
  destruct (@MarkUnavailable Empty_set 0 one_region) as [[b h]|e|] eqn:Hm;
    [|vm_compute in Hm; discriminate..].
  pose proof (MarkUnavailable_ok _ _ _ _ Hok Hm) as Hok'.
  destruct (MarkAvailable_wakes_waiters h 0 0 Hok') as (_ & _ & h' & Hh' & Hc & _).
  { vm_compute in Hm. injection Hm as _ <-. reflexivity. }
  exists h, h'. split; [exact Hok'|]. split; [exact Hh'|exact Hc].
Defined.

(** ** The immutable part of the regions *)

(** The attributes the source declares immutable. *)
Definition static (i : info) : info :=
  Info (r_id i) (r_namespace i) (r_table i) (r_name i) (r_startKey i) (r_stopKey i) false None None.

(** Regions stay allocated and keep their immutable attributes. *)
Definition heap_ext (h h' : heap) : Prop := static <$> h_infos h ⊆ static <$> h_infos h'.

#[global] Instance heap_ext_preorder : PreOrder heap_ext.
Proof. split; unfold heap_ext; [intros h; done|intros h1 h2 h3 ??; by etrans]. Qed.

Lemma heap_ext_lookup h h' p i :
  heap_ext h h' -> h_infos h !! p = Some i ->
  exists i', h_infos h' !! p = Some i' /\ static i' = static i.
Proof.
  intros Hext Hp. assert ((static <$> h_infos h) !! p = Some (static i)) as H1
    by (by rewrite lookup_fmap, Hp).
  eapply lookup_weaken in H1; [|exact Hext]. rewrite lookup_fmap in H1.
  destruct (h_infos h' !! p) as [i'|]; [|done]. exists i'. split; [done|]. simpl in H1. congruence.
Qed.

Lemma set_info_ext p i i' h :
  h_infos h !! p = Some i -> static i' = static i -> heap_ext h (set_info p i' h).
Proof.
  intros Hp Hs. unfold heap_ext. simpl. rewrite fmap_insert, insert_id; [done|].
  by rewrite lookup_fmap, Hp, Hs.
Qed.

Lemma MarkDead_ext {E} p h h' : @MarkDead E p h = Ok h' -> heap_ext h h'.
Proof.
  intros H. unfold MarkDead in H. ok_inv. subst. apply deref_Ok in Hr. by eapply set_info_ext.
Qed.

Lemma SetClient_ext {E} p c h h' : @SetClient E p c h = Ok h' -> heap_ext h h'.
Proof.
  intros H. unfold SetClient in H. ok_inv. subst. apply deref_Ok in Hr. by eapply set_info_ext.
Qed.

Lemma MarkUnavailable_ext {E} p h b h' : @MarkUnavailable E p h = Ok (b, h') -> heap_ext h h'.
Proof.
  intros H. unfold MarkUnavailable in H. ok_inv. apply deref_Ok in Hr.
  destruct (r_available r); simplify_eq; [done|]. by eapply (set_info_ext p r).
Qed.

Lemma MarkAvailable_ext {E} p h h' : @MarkAvailable E p h = Ok h' -> heap_ext h h'.
Proof.
  intros H. unfold MarkAvailable, close in H. ok_inv. apply deref_Ok in Hr.
  destruct (r_available r); [|done]. case_bool_decide; simplify_eq. by eapply (set_info_ext p r).
Qed.

(** A row belongs to a region. *)
Definition in_range (i : info) (k : bytes) : Prop :=
  r_startKey i <=b k /\ (r_stopKey i = [] \/ k <b r_stopKey i).
