(* ===== verification/RegionTree.v ===== *)
(** * The ordered tree behind the region cache

    caches.go keeps the regions in a [modernc.org/b/v2] B-tree, a third-party
    package.  [RegionTree] is the part of its interface the client calls;
    [RegionTreeSpec] states its documented behaviour: the items are kept in the
    order of the comparator, [Seek] lands on the first item that is not smaller
    than the key, [Prev] and [Next] return the current item and move, the end is
    sticky ([io.EOF]), and [Put] lets its callback decide on the old value.
    The client's theorems are proved against the class; [list_tree] shows that
    it can be met. *)

From S2P Require Import Prelude RegionName.

Section Spec.
Context {V : Type}.
Implicit Types l : list (bytes * V).

(** Items in strictly increasing collation order, all keys region names. *)
Definition tree_ok l : Prop :=
  Forall (fun kv => valid_key kv.1) l /\ StronglySorted (fun a b => key_lt a.1 b.1) l.

(** The number of items smaller than the key. *)
Fixpoint rank (k : bytes) l : nat :=
  match l with
  | [] => 0
  | kv :: l' => match name_ord kv.1 k with Lt => S (rank k l') | _ => 0 end
  end.

Definition hit (k : bytes) l : bool :=
  match l !! rank k l with
  | Some kv => bool_decide (kv.1 = k)
  | None => false
  end.

Fixpoint assoc_lookup (k : bytes) l : option V :=
  match l with
  | [] => None
  | kv :: l' => if bool_decide (kv.1 = k) then Some kv.2 else assoc_lookup k l'
  end.

Fixpoint assoc_insert (k : bytes) (v : V) l : list (bytes * V) :=
  match l with
  | [] => [(k, v)]
  | kv :: l' =>
      match name_ord k kv.1 with
      | Lt => (k, v) :: kv :: l'
      | Eq => (k, v) :: l'
      | Gt => kv :: assoc_insert k v l'
      end
  end.

Definition assoc_delete (k : bytes) l : list (bytes * V) := filter (fun kv => kv.1 <> k) l.

(** An enumerator: a position in the items, [None] once the end was reached on
    either side; [c_hit] says that the position is an item it was sent to, not
    the gap a failed [Seek] overshot. *)
Record cursor := Cursor { c_items : list (bytes * V); c_pos : option nat; c_hit : bool }.

Definition cursor_next (c : cursor) : option (bytes * V) * cursor :=
  match c_pos c with
  | None => (None, c)
  | Some i =>
      match c_items c !! i with
      | Some kv =>
          (Some kv,
           Cursor (c_items c) (if decide (S i < length (c_items c))%nat then Some (S i) else None) true)
      | None => (None, Cursor (c_items c) None (c_hit c))
      end
  end.

Definition cursor_prev (c : cursor) : option (bytes * V) * cursor :=
  match c_pos c with
  | None => (None, c)
  | Some i =>
      match (if c_hit c then Some i else match i with O => None | S j => Some j end) with
      | None => (None, Cursor (c_items c) None (c_hit c))
      | Some j =>
          match c_items c !! j with
          | Some kv =>
              (Some kv, Cursor (c_items c) (match j with O => None | S j' => Some j' end) true)
          | None => (None, Cursor (c_items c) None (c_hit c))
          end
      end
  end.

End Spec.

Class RegionTree (V : Type) := {
  tree : Type;
  enumerator : Type;
  TreeNew : tree;
  Len : tree -> Z;
  Seek {E} : tree -> bytes -> outcome E (enumerator * bool);
  SeekFirst : tree -> option enumerator;
  Next : enumerator -> option (bytes * V) * enumerator;
  Prev : enumerator -> option (bytes * V) * enumerator;
  Put {E X} : tree -> bytes -> (option V -> outcome E (option V * X)) -> outcome E (tree * X);
  Delete {E} : tree -> bytes -> outcome E (tree * bool);
}.

Class RegionTreeSpec (V : Type) (T : RegionTree V) := {
  items : tree -> list (bytes * V);
  view : enumerator -> @cursor V;
  items_new : items TreeNew = [];
  Len_items t : Len t = len (items t);
  Seek_items {E} t k :
    tree_ok (items t) -> valid_key k ->
    exists e, @Seek V T E t k = Ok (e, hit k (items t)) /\
      view e = Cursor (items t) (Some (rank k (items t))) (hit k (items t));
  SeekFirst_items t :
    match SeekFirst t with
    | None => items t = []
    | Some e => items t <> [] /\ view e = Cursor (items t) (Some 0%nat) true
    end;
  Next_view e : fst (Next e) = fst (cursor_next (view e)) /\
    view (snd (Next e)) = snd (cursor_next (view e));
  Prev_view e : fst (Prev e) = fst (cursor_prev (view e)) /\
    view (snd (Prev e)) = snd (cursor_prev (view e));
  Put_items {E X} t k (f : option V -> outcome E (option V * X)) :
    tree_ok (items t) -> valid_key k ->
    match f (assoc_lookup k (items t)) with
    | Ok (Some v, x) => exists t', Put t k f = Ok (t', x) /\ items t' = assoc_insert k v (items t)
    | Ok (None, x) => exists t', Put t k f = Ok (t', x) /\ items t' = items t
    | Err e => Put t k f = Err e
    | Panic => Put t k f = Panic
    end;
  Delete_items {E} t k :
    tree_ok (items t) -> valid_key k ->
    exists t', @Delete V T E t k = Ok (t', bool_decide (is_Some (assoc_lookup k (items t)))) /\
      items t' = assoc_delete k (items t);
}.

(** ** A sorted list meets the interface *)

Section ListTree.
Context {V : Type}.

#[global] Instance list_tree : RegionTree V := {|
  tree := list (bytes * V);
  enumerator := @cursor V;
  TreeNew := [];
  Len := len;
  Seek E t k := Ok (Cursor t (Some (rank k t)) (hit k t), hit k t);
  SeekFirst t := match t with [] => None | _ => Some (Cursor t (Some 0%nat) true) end;
  Next := cursor_next;
  Prev := cursor_prev;
  Put E X t k f :=
    let* r := f (assoc_lookup k t) in
    Ok (match r.1 with Some v => assoc_insert k v t | None => t end, r.2);
  Delete E t k := Ok (assoc_delete k t, bool_decide (is_Some (assoc_lookup k t)));
|}.

#[global] Instance list_tree_spec : RegionTreeSpec V list_tree.
Proof.
  refine {| items := fun t => t; view := fun e => e |}; simpl; try done.
  - intros. eauto.
  - intros [|]; done.
  - intros E X t k f _ _. destruct (f (assoc_lookup k t)) as [[[v|] x]| |]; simpl; eauto.
  - intros. eauto.
Defined.

End ListTree.

(** ** Lemmas on sorted items *)

Section Sorted.
Context {V : Type}.
Implicit Types l : list (bytes * V).

Lemma tree_ok_nil : @tree_ok V [].
Proof. split; constructor. Qed.

Lemma tree_ok_cons kv l :
  tree_ok (kv :: l) <->
  valid_key kv.1 /\ Forall (fun kv' => key_lt kv.1 kv'.1) l /\ tree_ok l.
Proof.
  unfold tree_ok. rewrite Forall_cons. split.
  - intros [[??] Hs]. apply StronglySorted_inv in Hs as [??]. tauto.
  - intros (? & ? & ? & ?). split; [tauto|]. by constructor.
Qed.

Lemma tree_ok_app_inv l k : tree_ok (l ++ k) -> tree_ok l /\ tree_ok k.
Proof.
  intros [Hf Hs]. apply Forall_app in Hf as [??].
  split; split; try done.
  - clear -Hs. induction l as [|x l IH]; [constructor|]. simpl in Hs.
    apply StronglySorted_inv in Hs as [? Hx]. constructor; [auto|]. by apply Forall_app in Hx as [??].
  - clear -Hs. induction l as [|x l IH]; [done|]. simpl in Hs.
    apply StronglySorted_inv in Hs as [? _]. auto.
Qed.

Lemma tree_ok_lookup_lt l i j a b :
  tree_ok l -> l !! i = Some a -> l !! j = Some b -> (i < j)%nat -> key_lt a.1 b.1.
Proof.
  revert i j. induction l as [|x l IH]; intros i j Hok Hi Hj Hij; [done|].
  apply tree_ok_cons in Hok as (_ & Hx & Hok).
  destruct i as [|i], j as [|j]; simpl in *; try lia.
  - injection Hi as <-. by apply (proj1 (Forall_forall _ _) Hx), list_elem_of_lookup_2 with j.
  - eapply IH; eauto with lia.
Qed.

Lemma rank_le k l : (rank k l <= length l)%nat.
Proof. induction l as [|x l IH]; simpl; [lia|]. destruct (name_ord x.1 k); lia. Qed.

(** Before the rank the keys are smaller, from it on they are not. *)
Lemma rank_below k l i a : (i < rank k l)%nat -> l !! i = Some a -> key_lt a.1 k.
Proof.
  revert i. induction l as [|x l IH]; intros i Hi Ha; [done|]. simpl in Hi.
  destruct (name_ord x.1 k) eqn:Hx; [lia| |lia].
  destruct i as [|i]; simpl in Ha; [by simplify_eq|]. eapply IH; [|done]. lia.
Qed.

Lemma rank_above k l i a :
  tree_ok l -> valid_key k -> (rank k l <= i)%nat -> l !! i = Some a -> a.1 <> k -> key_lt k a.1.
Proof.
  intros Hok Hk. revert i. induction l as [|x l IH]; intros i Hi Ha Hne; [done|].
  apply tree_ok_cons in Hok as (Hvx & Hx & Hok). simpl in Hi.
  assert (valid_key a.1) as Hva.
  { destruct i as [|i]; simpl in Ha; [by simplify_eq|]. destruct Hok as [Hf _].
    by apply (proj1 (Forall_forall _ _) Hf), list_elem_of_lookup_2 with i. }
  destruct (name_ord x.1 k) eqn:Hxk.
  - apply name_ord_eq in Hxk as Heq; [|done..]. destruct i as [|i]; simpl in Ha; [by simplify_eq|].
    rewrite <- Heq. by apply (proj1 (Forall_forall _ _) Hx), list_elem_of_lookup_2 with i.
  - destruct i as [|i]; [lia|]. simpl in Ha. eapply IH; [done| |done|done]. lia.
  - assert (key_lt k x.1) as Hlt.
    { unfold key_lt. rewrite (name_ord_antisym x.1 k) by done. by rewrite Hxk. }
    destruct i as [|i]; simpl in Ha; [by simplify_eq|].
    apply key_lt_trans with x.1; try done.
    by apply (proj1 (Forall_forall _ _) Hx), list_elem_of_lookup_2 with i.
Qed.

Lemma hit_false k l : (forall a, a ∈ l -> a.1 <> k) -> hit k l = false.
Proof.
  intros H. unfold hit. destruct (l !! rank k l) as [a|] eqn:Ha; [|done].
  apply bool_decide_eq_false_2, H. by apply list_elem_of_lookup_2 with (rank k l).
Qed.

Lemma assoc_lookup_Some k l v : assoc_lookup k l = Some v -> (k, v) ∈ l.
Proof.
  induction l as [|[k' v'] l IH]; simpl; [done|]. case_bool_decide as Hk.
  - intros [= <-]. subst. by left.
  - intros H. right. auto.
Qed.

Lemma assoc_lookup_None k l : assoc_lookup k l = None <-> forall a, a ∈ l -> a.1 <> k.
Proof.
  induction l as [|[k' v'] l IH]; simpl.
  - split; [|done]. intros _ a Ha. by apply elem_of_nil in Ha.
  - case_bool_decide as Hk.
    + split; [done|]. intros H. destruct (H (k', v')); [by left|done].
    + rewrite IH. split; intros H a Ha; [|by apply H; right].
      apply elem_of_cons in Ha as [->|Ha]; [done|auto].
Qed.

Lemma elem_of_assoc_insert k v l a :
  tree_ok l -> valid_key k -> assoc_lookup k l = None ->
  a ∈ assoc_insert k v l <-> a = (k, v) \/ a ∈ l.
Proof.
  intros Hok Hk. induction l as [|x l IH]; simpl; intros Hn.
  { rewrite list_elem_of_singleton, elem_of_nil. tauto. }
  apply tree_ok_cons in Hok as (Hvx & Hx & Hok).
  case_bool_decide as Hxk; [done|].
  destruct (name_ord k x.1) eqn:Ho.
  - apply name_ord_eq in Ho; [|done..]. by destruct Hxk.
  - by rewrite elem_of_cons.
  - rewrite elem_of_cons, IH, elem_of_cons by done. tauto.
Qed.

Lemma assoc_insert_ok k v l :
  tree_ok l -> valid_key k -> assoc_lookup k l = None -> tree_ok (assoc_insert k v l).
Proof.
  intros Hok Hk. induction l as [|x l IH]; simpl; intros Hn.
  { apply tree_ok_cons. split_and!; [done|constructor|apply tree_ok_nil]. }
  apply tree_ok_cons in Hok as (Hvx & Hx & Hok).
  case_bool_decide as Hxk; [done|].
  destruct (name_ord k x.1) eqn:Ho.
  - apply name_ord_eq in Ho; [|done..]. by destruct Hxk.
  - apply tree_ok_cons. split_and!; [done| |by apply tree_ok_cons].
    constructor; [done|]. eapply Forall_impl; [apply Forall_and; split; [exact Hx|apply Hok]|].
    intros y [??]. simpl. by apply key_lt_trans with x.1.
  - apply tree_ok_cons. split_and!; [done| |by apply IH].
    apply Forall_forall. intros y Hy. apply elem_of_assoc_insert in Hy as [->|Hy]; [| |done..].
    + unfold key_lt. simpl. rewrite (name_ord_antisym k x.1) by done. by rewrite Ho.
    + by apply (proj1 (Forall_forall _ _) Hx).
Qed.

Lemma tree_ok_sublist l k : k `sublist_of` l -> tree_ok l -> tree_ok k.
Proof.
  induction 1 as [|x k l Hs IH|x k l Hs IH]; [done| |].
  - rewrite !tree_ok_cons. intros (? & Hx & ?). split_and!; [done| |auto].
    apply Forall_forall. intros y Hy. apply (proj1 (Forall_forall _ _) Hx).
    by eapply elem_of_sublist.
  - rewrite tree_ok_cons. intros (? & ? & ?). auto.
Qed.

Lemma assoc_delete_ok k l : tree_ok l -> tree_ok (assoc_delete k l).
Proof. apply tree_ok_sublist. apply sublist_filter. Qed.

(** Keys are unique. *)
Lemma tree_ok_key_inj l a b : tree_ok l -> a ∈ l -> b ∈ l -> a.1 = b.1 -> a = b.
Proof.
  intros Hok [i Hi]%list_elem_of_lookup [j Hj]%list_elem_of_lookup Heq.
  assert (valid_key a.1) as Ha.
  { destruct Hok as [Hf _]. by eapply (proj1 (Forall_forall _ _) Hf), list_elem_of_lookup_2. }
  destruct (Nat.lt_trichotomy i j) as [H|[->|H]]; [|congruence|].
  - apply (tree_ok_lookup_lt l i j a b) in H; [|done..]. rewrite Heq in *. by apply key_lt_irrefl in H.
  - apply (tree_ok_lookup_lt l j i b a) in H; [|done..]. rewrite <- Heq in H. by apply key_lt_irrefl in H.
Qed.

End Sorted.
