(* ===== verification/KeyRegionCache.v ===== *)
(** * The key to region cache: caches.go [keyRegionCache], rpc.go [getRegionFromCache]

    The cache is a tree from region names to region pointers, kept under one
    mutex, so each operation is one step on the pair of the tree and the heap.
    The invariant [cache_ok] says that the cached regions are well formed, that
    the tree is sorted by name and that no two cached regions overlap; the
    abstract view is the set of cached regions, in which a row is served by at
    most one. *)

From S2P Require Import Prelude RegionName RegionInfo RegionTree.

Section KeyRegionCache.
Context {T : RegionTree ptr}.

(** ** The source *)

Definition get {E} (t : tree) (key : bytes) : outcome E (option (bytes * ptr)) :=
  let* r := Seek t key in
  let '(enum, ok) := r in
  if (ok : bool) then Panic (* log.Fatalf *)
  else Ok (fst (Prev enum)).

Definition isRegionOverlap (regA regB : info) : bool :=
  bytes_eqb (default [] (r_namespace regA)) (default [] (r_namespace regB)) &&
  bytes_eqb (r_table regA) (r_table regB) &&
  (bool_decide (len (r_stopKey regB) = 0) ||
   bool_decide (bytes_compare (r_startKey regA) (r_stopKey regB) = Lt)) &&
  (bool_decide (len (r_stopKey regA) = 0) ||
   bool_decide (bytes_compare (r_stopKey regA) (r_startKey regB) = Gt)).

(** [for err != io.EOF && isRegionOverlap(v, reg)], each iteration fetching the
    next region.  A tree of [n] items is exhausted after [n] iterations. *)
Fixpoint overlap_loop {E} (fuel : nat) (enum : enumerator) (reg : info) (h : heap)
    (overlaps : list ptr) : outcome E (list ptr) :=
  match fuel with
  | O => Ok overlaps
  | S fuel' =>
      match Next enum with
      | (None, _) => Ok overlaps
      | (Some (_, v), enum) =>
          let* i := deref v h in
          if isRegionOverlap i reg then overlap_loop fuel' enum reg h (overlaps ++ [v])
          else Ok overlaps
      end
  end.

Definition getOverlaps {E} (t : tree) (reg : info) (h : heap) : outcome E (list ptr) :=
  if bool_decide (Len t = 0) then Ok []
  else
    let* key := createRegionSearchKey (fullyQualifiedTable reg) (r_startKey reg) in
    let* r := Seek t key in
    let '(enum, ok) := r in
    if (ok : bool) then Panic (* log.Fatalf *)
    else
      let '(_, enum) := Prev enum in
      let '(n, enum) := Next enum in
      let* enum :=
        match n with
        | None =>
            match SeekFirst t with
            | None => Panic (* log.Fatalf *)
            | Some enum => Ok enum
            end
        | Some _ => Ok enum
        end in
      match Next enum with
      | (None, _) => Panic (* log.Fatalf *)
      | (Some (_, v), enum) =>
          let* i := deref v h in
          let overlaps := if isRegionOverlap i reg then [v] else [] in
          overlap_loop (Z.to_nat (Len t)) enum reg h overlaps
      end.

(** [o.ID() > reg.ID()] for some overlap [o]. *)
Fixpoint any_younger {E} (overlaps : list ptr) (reg : info) (h : heap) : outcome E bool :=
  match overlaps with
  | [] => Ok false
  | o :: os =>
      let* i := deref o h in
      if bool_decide (r_id i > r_id reg) then Ok true else any_younger os reg h
  end.

(** Delete the overlaps and mark them dead. *)
Fixpoint delete_overlaps {E} (overlaps : list ptr) (t : tree) (h : heap) : outcome E (tree * heap) :=
  match overlaps with
  | [] => Ok (t, h)
  | o :: os =>
      let* i := deref o h in
      let* r := Delete t (r_name i) in
      let* h := MarkDead o h in
      delete_overlaps os (fst r) h
  end.

Definition put {E} (p : ptr) (t : tree) (h : heap)
    : outcome E (list ptr * bool * tree * heap) :=
  let* reg := deref p h in
  let* r := Put t (r_name reg) (fun old =>
    match old with
    | Some v => Ok (None, ([v], false))
    | None =>
        let* overlaps := getOverlaps t reg h in
        let* younger := any_younger overlaps reg h in
        if (younger : bool) then Ok (None, (overlaps, false))
        else Ok (Some p, (overlaps, true))
    end) in
  let '(t, (overlaps, replaced)) := r in
  if (replaced : bool) then
    let* s := delete_overlaps overlaps t h in
    Ok (overlaps, true, fst s, snd s)
  else Ok (overlaps, false, t, h).

Definition del {E} (p : ptr) (t : tree) (h : heap) : outcome E (bool * tree * heap) :=
  let* reg := deref p h in
  let* r := Delete t (r_name reg) in
  let* h := MarkDead p h in
  Ok (snd r, fst r, h).

(** rpc.go: the part of [getRegionFromCache] that searches the cache, for a row
    of an ordinary table. *)
Definition cachedRegion {E} (table key : bytes) (t : tree) (h : heap)
    : outcome E (option ptr) :=
  let* regionName := createRegionSearchKey table key in
  let* kv := get t regionName in
  match kv with
  | None => Ok None
  | Some (_, region) =>
      let* i := deref region h in
      if negb (bytes_eqb (fullyQualifiedTable i) table) then Ok None
      else if bool_decide (len (r_stopKey i) <> 0) && bool_decide (bytes_compare key (r_stopKey i) <> Lt)
      then Ok None
      else Ok (Some region)
  end.

End KeyRegionCache.

(** ** Well-formed regions *)

(** What follows the second comma of the name. *)
Definition r_suffix (i : info) : bytes :=
  drop (length (fullyQualifiedTable i) + length (r_startKey i) + 2) (r_name i).

Definition r_rname (i : info) : name := Name (fullyQualifiedTable i) (r_startKey i) (r_suffix i).

Definition nonempty_range (i : info) : Prop := r_stopKey i = [] \/ r_startKey i <b r_stopKey i.

(** A region as HBase names it: the name is [table,start,timestamp...] with a
    suffix below [:], which is what the search keys rely on; namespace and
    table hold no colon; and the name fits in an HBase row. *)
Record region_ok (i : info) : Prop := {
  region_name : r_name i = name_bytes (r_rname i);
  region_name_ok : name_ok (r_rname i);
  region_suffix : r_suffix i <b [colon];
  region_range : nonempty_range i;
  region_table : colon ∉ r_table i;
  region_namespace : match r_namespace i with Some ns => (colon ∉ ns) /\ ns <> [] | None => True end;
  region_len : len (fullyQualifiedTable i) + len (r_startKey i) + 3 <= MaxInt16;
}.

#[export] Hint Resolve region_name region_name_ok region_range : heap.

Lemma region_valid_key i : region_ok i -> valid_key (r_name i).
Proof. intros H. exists (r_rname i). split; [apply H|apply H]. Qed.

Lemma app_colon_inj (a b c d : bytes) :
  colon ∉ a -> colon ∉ c -> a ++ colon :: b = c ++ colon :: d -> a = c /\ b = d.
Proof.
  revert c. induction a as [|x a IH]; intros [|y c] Ha Hc; simpl; intros H; simplify_eq.
  - done.
  - by destruct Hc; left.
  - by destruct Ha; left.
  - rewrite not_elem_of_cons in Ha, Hc. destruct (IH c) as [-> ->]; tauto.
Qed.

Lemma same_table_iff a b :
  region_ok a -> region_ok b ->
  (default [] (r_namespace a) = default [] (r_namespace b) /\ r_table a = r_table b) <->
  fullyQualifiedTable a = fullyQualifiedTable b.
Proof.
  intros Ha Hb. pose proof (region_table a Ha). pose proof (region_table b Hb).
  pose proof (region_namespace a Ha) as Na. pose proof (region_namespace b Hb) as Nb.
  unfold fullyQualifiedTable.
  destruct (r_namespace a) as [na|], (r_namespace b) as [nb|]; simpl in *; split.
  - by intros [-> ->].
  - intros [-> ->]%app_colon_inj; tauto.
  - intros [-> _]. tauto.
  - intros Heq. exfalso. rewrite <- Heq in *. set_solver.
  - intros [<- _]. tauto.
  - intros Heq. exfalso. rewrite Heq in *. set_solver.
  - by intros [_ ->].
  - by intros ->.
Qed.

Lemma len_zero_iff {A} (l : list A) : len l = 0 <-> l = [].
Proof. unfold len. split; [|by intros ->]. destruct l; simpl; [done|lia]. Qed.

Lemma isRegionOverlap_iff a b :
  region_ok a -> region_ok b ->
  isRegionOverlap a b = true <->
  fullyQualifiedTable a = fullyQualifiedTable b /\
  (r_stopKey b = [] \/ r_startKey a <b r_stopKey b) /\
  (r_stopKey a = [] \/ r_startKey b <b r_stopKey a).
Proof.
  intros Ha Hb. unfold isRegionOverlap, bytes_eqb.
  rewrite !andb_true_iff, !orb_true_iff, !bool_decide_eq_true, !len_zero_iff.
  rewrite <- (same_table_iff a b) by done.
  unfold bytes_lt. rewrite (bytes_compare_antisym (r_stopKey a) (r_startKey b)).
  destruct (bytes_compare (r_stopKey a) (r_startKey b)); simpl; intuition congruence.
Qed.

Lemma isRegionOverlap_sym a b :
  region_ok a -> region_ok b -> isRegionOverlap a b = isRegionOverlap b a.
Proof.
  intros Ha Hb. apply eq_bool_prop_intro. rewrite !Is_true_true.
  rewrite !isRegionOverlap_iff by done. intuition congruence.
Qed.

(** The test is the intersection of the key ranges. *)
Lemma isRegionOverlap_common_key a b :
  region_ok a -> region_ok b ->
  isRegionOverlap a b = true <->
  fullyQualifiedTable a = fullyQualifiedTable b /\ exists k, in_range a k /\ in_range b k.
Proof.
  intros Ha Hb. rewrite isRegionOverlap_iff by done. unfold in_range.
  pose proof (region_range a Ha) as Ra. pose proof (region_range b Hb) as Rb.
  unfold nonempty_range in *. split.
  - intros (Ht & H1 & H2). split; [done|].
    destruct (decide (r_startKey a <=b r_startKey b)) as [Hle|Hlt].
    + exists (r_startKey b). auto using bytes_le_refl.
    + exists (r_startKey a). rewrite bytes_le_not_lt in Hlt.
      assert (r_startKey b <b r_startKey a) as Hlt'
        by (destruct (decide (r_startKey b <b r_startKey a)); tauto).
      auto using bytes_le_refl, bytes_lt_le.
  - intros (Ht & k & (? & ?) & ? & ?). split; [done|].
    split; [destruct (r_stopKey b) eqn:?|destruct (r_stopKey a) eqn:?]; auto; right;
      eapply bytes_le_lt_trans; try done; intuition congruence.
Qed.

(** ** Names, ranges and search keys *)

Lemma region_key_lt a b :
  region_ok a -> region_ok b ->
  key_lt (r_name a) (r_name b) <-> name_lt (r_rname a) (r_rname b).
Proof.
  intros Ha Hb. unfold key_lt. rewrite (region_name a Ha), (region_name b Hb).
  by rewrite name_ord_bytes by (apply region_name_ok; done).
Qed.

(** A region sorts before the search key of a row exactly when it could be the
    one to serve it: same table and a start key not above the row. *)
Lemma region_lt_search i table k :
  region_ok i -> comma ∉ table ->
  key_lt (r_name i) (name_bytes (search_name table k)) <->
  fullyQualifiedTable i <b table \/ fullyQualifiedTable i = table /\ r_startKey i <=b k.
Proof.
  intros Hi Ht. unfold key_lt. rewrite (region_name i Hi).
  rewrite name_ord_bytes by (apply Hi || by apply search_name_ok).
  fold (name_lt (r_rname i) (search_name table k)). rewrite name_lt_iff. simpl.
  pose proof (region_suffix i Hi). rewrite bytes_le_lt_or_eq. tauto.
Qed.

Lemma search_lt_region i table k :
  region_ok i -> comma ∉ table ->
  key_lt (name_bytes (search_name table k)) (r_name i) <->
  table <b fullyQualifiedTable i \/ table = fullyQualifiedTable i /\ k <b r_startKey i.
Proof.
  intros Hi Ht. unfold key_lt. rewrite (region_name i Hi).
  rewrite name_ord_bytes by (apply Hi || by apply search_name_ok).
  fold (name_lt (search_name table k) (r_rname i)). rewrite name_lt_iff. simpl.
  pose proof (region_suffix i Hi) as Hs.
  split; [|intros [?|[? ?]]; auto]. intros [?|[? [?|[_ Hs']]]]; auto.
  exfalso. by apply (bytes_lt_irrefl [colon]), bytes_lt_trans with (r_suffix i).
Qed.

Lemma region_not_search i table k :
  region_ok i -> comma ∉ table -> r_name i <> name_bytes (search_name table k).
Proof.
  intros Hi Ht. rewrite (region_name i Hi). intros H.
  apply name_bytes_inj in H; [|apply Hi|by apply search_name_ok].
  injection H as _ _ Hs. pose proof (region_suffix i Hi) as H2. rewrite Hs in H2.
  by apply bytes_lt_irrefl in H2.
Qed.

(** Disjoint regions of one table lie one after the other. *)
Lemma disjoint_regions_order a b :
  region_ok a -> region_ok b -> isRegionOverlap a b = false ->
  key_lt (r_name a) (r_name b) -> fullyQualifiedTable a = fullyQualifiedTable b ->
  r_startKey a <b r_startKey b /\ r_stopKey a <> [] /\ r_stopKey a <=b r_startKey b.
Proof.
  intros Ha Hb Hno Hlt Ht. apply not_true_iff_false in Hno.
  rewrite isRegionOverlap_iff in Hno by done.
  apply region_key_lt in Hlt; [|done..]. apply name_lt_iff in Hlt. simpl in Hlt.
  pose proof (region_range a Ha) as Ra. pose proof (region_range b Hb) as Rb.
  unfold nonempty_range in *.
  assert (r_startKey a <=b r_startKey b) as Hle.
  { destruct Hlt as [Hlt|[_ [?|[-> _]]]]; [|by apply bytes_lt_le|apply bytes_le_refl].
    rewrite Ht in Hlt. by apply bytes_lt_irrefl in Hlt. }
  assert (r_stopKey b = [] \/ r_startKey a <b r_stopKey b) as H1.
  { destruct Rb; [by left|right; by eapply bytes_le_lt_trans]. }
  assert (~ (r_stopKey a = [] \/ r_startKey b <b r_stopKey a)) as H2 by tauto.
  assert (r_stopKey a <=b r_startKey b) as H3 by (rewrite bytes_le_not_lt; tauto).
  split_and!; [|tauto|done].
  destruct Ra as [?|Ra]; [tauto|]. by eapply bytes_lt_le_trans.
Qed.

Lemma region_comma i : region_ok i -> comma ∉ fullyQualifiedTable i.
Proof. intros H. apply (region_name_ok i H). Qed.

(** ** The cache invariant *)

Definition entry_ok (h : heap) (kv : bytes * ptr) : Prop :=
  exists i, h_infos h !! kv.2 = Some i /\ region_ok i /\ kv.1 = r_name i.

Record items_ok (h : heap) (l : list (bytes * ptr)) : Prop := {
  items_sorted : StronglySorted (fun a b => key_lt a.1 b.1) l;
  items_entries : Forall (entry_ok h) l;
  items_disjoint a b i j :
    a ∈ l -> b ∈ l -> a <> b -> h_infos h !! a.2 = Some i -> h_infos h !! b.2 = Some j ->
    isRegionOverlap i j = false;
}.

Lemma items_tree_ok h l : items_ok h l -> tree_ok l.
Proof.
  intros H. split; [|apply H]. eapply Forall_impl; [apply (items_entries h l H)|].
  intros kv (i & _ & Hi & ->). by apply region_valid_key.
Qed.

Lemma items_entry h l kv : items_ok h l -> kv ∈ l ->
  exists i, h_infos h !! kv.2 = Some i /\ region_ok i /\ kv.1 = r_name i.
Proof. intros H. apply (proj1 (Forall_forall _ _) (items_entries h l H)). Qed.

(** Does the cached entry overlap the region? *)
Definition overlaps_with (h : heap) (reg : info) (kv : bytes * ptr) : bool :=
  match h_infos h !! kv.2 with
  | Some i => isRegionOverlap i reg
  | None => false
  end.

Lemma overlaps_with_entry h reg kv i :
  h_infos h !! kv.2 = Some i -> overlaps_with h reg kv = isRegionOverlap i reg.
Proof. unfold overlaps_with. by intros ->. Qed.

(** ** Walking the tree *)

Section Walk.
Context {T : RegionTree ptr} {HT : RegionTreeSpec ptr T}.

(** The enumerator will next return item [i] of [l], if there is one. *)
Definition enum_at (e : enumerator) (l : list (bytes * ptr)) (i : nat) : Prop :=
  c_items (view e) = l /\
  (c_pos (view e) = Some i \/ c_pos (view e) = None /\ (length l <= i)%nat).

Lemma Next_at e l i :
  enum_at e l i ->
  match l !! i with
  | Some kv => exists e', Next e = (Some kv, e') /\ enum_at e' l (S i)
  | None => fst (Next e) = None
  end.
Proof.
  intros [Hl Hp]. pose proof (Next_view e) as [H1 H2].
  destruct (l !! i) as [kv|] eqn:Hi.
  - exists (snd (Next e)). assert (i < length l)%nat by (by eapply lookup_lt_Some).
    destruct Hp as [Hp|[_ ?]]; [|lia].
    unfold cursor_next in H1, H2. rewrite Hp, Hl, Hi in H1, H2.
    split; [by rewrite (surjective_pairing (Next e)), H1|].
    unfold enum_at. rewrite H2. simpl. split; [done|]. case_decide; [by left|right; split; [done|lia]].
  - rewrite H1. unfold cursor_next. destruct Hp as [->|[-> _]]; [|done]. by rewrite Hl, Hi.
Qed.

Lemma overlap_loop_spec {E} fuel e reg h acc l i :
  Forall (entry_ok h) l -> enum_at e l i -> (length l - i <= fuel)%nat ->
  @overlap_loop T E fuel e reg h acc
  = Ok (acc ++ (snd <$> take_while (overlaps_with h reg) (drop i l))).
Proof.
  intros Hl. revert e acc i. induction fuel as [|fuel IH]; intros e acc i He Hf; simpl.
  { rewrite drop_ge by lia. simpl. by rewrite app_nil_r. }
  apply Next_at in He. destruct (l !! i) as [kv|] eqn:Hi.
  - destruct He as (e' & -> & He'). destruct kv as [k v].
    pose proof (proj1 (Forall_lookup _ _) Hl _ _ Hi) as (r & Hr & _ & _). simpl in Hr.
    deref_tac. rewrite (drop_S _ _ _ Hi). simpl. unfold overlaps_with at 1. simpl. rewrite Hr.
    destruct (isRegionOverlap r reg); [|simpl; by rewrite app_nil_r].
    rewrite (IH _ _ _ He') by lia. simpl. by rewrite <- app_assoc.
  - destruct (Next e) as [o e']. simpl in He. subst o.
    rewrite drop_ge by (by apply lookup_ge_None). simpl. by rewrite app_nil_r.
Qed.

(** From the gap [Seek] left, [Prev] and [Next] find the item just before the
    gap, or report the beginning of the tree. *)
Lemma Prev_Next_at e l n :
  view e = Cursor l (Some n) false -> (n <= length l)%nat ->
  let e1 := snd (Prev e) in
  match fst (Next e1) with
  | Some _ => (2 <= n)%nat /\ enum_at (snd (Next e1)) l (pred n)
  | None => (n <= 1)%nat
  end.
Proof.
  intros He Hn e1. pose proof (Prev_view e) as [_ Hp]. rewrite He in Hp.
  pose proof (Next_view e1) as [H1 H2]. unfold e1 in *. rewrite Hp in H1, H2.
  unfold cursor_prev in H1, H2. simpl in H1, H2. destruct n as [|n].
  { rewrite H1. simpl. lia. }
  destruct (l !! n) as [kv|] eqn:Hl; [|apply lookup_ge_None in Hl; lia].
  destruct n as [|n]; [rewrite H1; simpl; lia|].
  unfold cursor_next in H1, H2. simpl in H1, H2.
  destruct (lookup_lt_is_Some_2 l n) as [kv' Hl']; [lia|]. rewrite Hl' in H1, H2.
  rewrite H1. simpl. split; [lia|]. unfold enum_at. rewrite H2. simpl. split; [done|]. left.
  by rewrite decide_True by lia.
Qed.

End Walk.

(** ** [getOverlaps] finds all overlaps *)

Section Overlaps.
Context {T : RegionTree ptr} {HT : RegionTreeSpec ptr T}.

Definition search_key (reg : info) : bytes :=
  name_bytes (search_name (fullyQualifiedTable reg) (r_startKey reg)).

Lemma search_key_valid reg : region_ok reg -> valid_key (search_key reg).
Proof. intros H. eexists. split; [|done]. by apply search_name_ok, region_comma. Qed.

Lemma items_no_hit h l table k :
  items_ok h l -> comma ∉ table -> hit (name_bytes (search_name table k)) l = false.
Proof.
  intros Hl Ht. apply hit_false. intros a Ha. destruct (items_entry h l a Hl Ha) as (i & _ & Hi & ->).
  by apply region_not_search.
Qed.

Lemma items_lookup h l i a :
  items_ok h l -> l !! i = Some a ->
  exists r, h_infos h !! a.2 = Some r /\ region_ok r /\ a.1 = r_name r.
Proof. intros Hl Ha. apply (items_entry h l a Hl). by apply list_elem_of_lookup_2 with i. Qed.

Lemma items_disjoint_lookup h l i j a b ra rb :
  items_ok h l -> (i < j)%nat -> l !! i = Some a -> l !! j = Some b ->
  h_infos h !! a.2 = Some ra -> h_infos h !! b.2 = Some rb ->
  isRegionOverlap ra rb = false /\ key_lt a.1 b.1.
Proof.
  intros Hl Hij Ha Hb Hra Hrb.
  pose proof (tree_ok_lookup_lt l i j a b (items_tree_ok h l Hl) Ha Hb Hij) as Hlt.
  split; [|done]. eapply (items_disjoint h l Hl a b); try done;
    try by eapply list_elem_of_lookup_2.
  intros ->. destruct (items_lookup h l j b Hl Hb) as (r & _ & Hr & Heq).
  rewrite Heq in Hlt. by apply key_lt_irrefl in Hlt; [|apply region_valid_key].
Qed.

(** Regions before the last one below the search key end too early. *)
Lemma overlaps_before h l reg i a :
  items_ok h l -> region_ok reg -> (S i < rank (search_key reg) l)%nat -> l !! i = Some a ->
  overlaps_with h reg a = false.
Proof.
  intros Hl Hreg Hi Ha. set (n := rank (search_key reg) l) in *.
  pose proof (rank_le (search_key reg) l) as Hn. fold n in Hn.
  destruct (lookup_lt_is_Some_2 l (pred n)) as [b Hb]; [lia|].
  destruct (items_lookup h l _ _ Hl Ha) as (ra & Hra & Oa & Ea).
  destruct (items_lookup h l _ _ Hl Hb) as (rb & Hrb & Ob & Eb).
  rewrite (overlaps_with_entry _ _ _ _ Hra).
  destruct (items_disjoint_lookup h l i (pred n) a b ra rb) as [Hdis Hlt]; try done; [lia|].
  assert (key_lt b.1 (search_key reg)) as Hbk by (eapply (rank_below _ l (pred n)); [lia|done]).
  rewrite Ea, Eb in Hlt. rewrite Eb in Hbk.
  apply region_lt_search in Hbk; [|done|by apply region_comma].
  apply not_true_iff_false. rewrite isRegionOverlap_iff by done. intros (Ht & _ & Hov).
  apply region_key_lt in Hlt as Hlt'; [|done..]. rewrite name_lt_iff in Hlt'. simpl in Hlt'.
  destruct Hbk as [Hbk|[Htb Hbk]].
  { rewrite <- Ht in Hbk. destruct Hlt' as [Hlt'|[Heq _]].
    - by apply (bytes_lt_irrefl (fullyQualifiedTable ra)), bytes_lt_trans with (fullyQualifiedTable rb).
    - rewrite Heq in Hbk. by apply bytes_lt_irrefl in Hbk. }
  destruct (disjoint_regions_order ra rb) as (_ & Hne & Hle); try done; [congruence|].
  destruct Hov as [?|Hov]; [done|].
  apply (bytes_lt_irrefl (r_startKey reg)). eapply bytes_lt_le_trans; [exact Hov|].
  by eapply bytes_le_trans.
Qed.

(** Above the search key the overlapping regions come first. *)
Lemma overlaps_prefix h l reg i j a b :
  items_ok h l -> region_ok reg -> (rank (search_key reg) l <= i)%nat -> (i < j)%nat ->
  l !! i = Some a -> l !! j = Some b ->
  overlaps_with h reg b = true -> overlaps_with h reg a = true.
Proof.
  intros Hl Hreg Hi Hij Ha Hb.
  destruct (items_lookup h l _ _ Hl Ha) as (ra & Hra & Oa & Ea).
  destruct (items_lookup h l _ _ Hl Hb) as (rb & Hrb & Ob & Eb).
  rewrite (overlaps_with_entry _ _ _ _ Hra), (overlaps_with_entry _ _ _ _ Hrb).
  rewrite !isRegionOverlap_iff by done. intros (Htb & Hsb & _).
  destruct (items_disjoint_lookup h l i j a b ra rb) as [Hdis Hlt]; try done.
  assert (key_lt (search_key reg) a.1) as Hka.
  { eapply (rank_above _ l i); try done; [by eapply items_tree_ok|by apply search_key_valid|].
    rewrite Ea. by apply region_not_search, region_comma. }
  rewrite Ea in Hka, Hlt. rewrite Eb in Hlt.
  apply search_lt_region in Hka; [|done|by apply region_comma].
  apply region_key_lt in Hlt as Hlt'; [|done..]. rewrite name_lt_iff in Hlt'. simpl in Hlt'.
  assert (fullyQualifiedTable reg = fullyQualifiedTable ra /\ r_startKey reg <b r_startKey ra)
    as [Hta Hsa].
  { destruct Hka as [Hka|?]; [|done]. exfalso. rewrite <- Htb in Hka. destruct Hlt' as [Hlt'|[Heq _]].
    - by apply (bytes_lt_irrefl (fullyQualifiedTable ra)), bytes_lt_trans with (fullyQualifiedTable rb).
    - rewrite Heq in Hka. by apply bytes_lt_irrefl in Hka. }
  destruct (disjoint_regions_order ra rb) as (Hss & _ & _); try done; [congruence|].
  split_and!; [done| |].
  - destruct Hsb as [?|Hsb]; [by left|right]. by eapply bytes_lt_trans.
  - destruct (region_range ra Oa) as [?|?]; [by left|right]. by eapply bytes_lt_trans.
Qed.

Lemma overlaps_split h l reg x :
  items_ok h l -> region_ok reg ->
  let m := pred (rank (search_key reg) l) in
  l !! m = Some x ->
  filter (fun kv => overlaps_with h reg kv = true) l
  = (if overlaps_with h reg x then [x] else []) ++ take_while (overlaps_with h reg) (drop (S m) l).
Proof.
  intros Hl Hreg m Hx. rewrite <- (take_drop m l) at 1. rewrite (drop_S _ _ _ Hx).
  rewrite filter_app, filter_cons, (filter_none _ (take m l)).
  - simpl. rewrite take_while_filter.
    + destruct (overlaps_with h reg x); [by rewrite decide_True|by rewrite decide_False].
    + intros i j a b Hij. rewrite !lookup_drop. intros Ha Hb.
      apply (overlaps_prefix h l reg (S m + i) (S m + j) a b); try done; unfold m; lia.
  - intros y [i Hi]%list_elem_of_lookup.
    assert (i < m)%nat.
    { apply lookup_lt_Some in Hi. rewrite length_take in Hi. lia. }
    rewrite lookup_take_lt in Hi by done. eapply overlaps_before; try done. lia.
Qed.

Lemma getOverlaps_spec {E} t reg h :
  items_ok h (items t) -> region_ok reg ->
  @getOverlaps T E t reg h
  = Ok (snd <$> filter (fun kv => overlaps_with h reg kv = true) (items t)).
Proof.
  intros Hl Hreg. unfold getOverlaps. rewrite Len_items.
  case_bool_decide as Hlen.
  { apply len_zero_iff in Hlen. by rewrite Hlen. }
  rewrite len_zero_iff in Hlen.
  rewrite createRegionSearchKey_fits by apply Hreg. simpl. fold (search_key reg).
  destruct (@Seek_items _ _ HT E t (search_key reg)) as (e & -> & He);
    [by eapply items_tree_ok|by apply search_key_valid|]. simpl.
  pose proof (items_no_hit h (items t) (fullyQualifiedTable reg) (r_startKey reg) Hl
    (region_comma reg Hreg)) as Hhit. fold (search_key reg) in Hhit. rewrite Hhit in *.
  pose proof (rank_le (search_key reg) (items t)) as Hrk.
  pose proof (Prev_Next_at e _ _ He Hrk) as Hpn.
  destruct (Prev e) as [o1 e1]. simpl in Hpn. destruct (Next e1) as [o2 e2]. simpl in Hpn.
  set (m := pred (rank (search_key reg) (items t))) in *.
  assert (exists e3, match o2 with
    | None => match SeekFirst t with None => Panic | Some enum => Ok enum end
    | Some _ => Ok e2 end = @Ok E _ e3 /\ enum_at e3 (items t) m) as (e3 & -> & He3).
  { destruct o2 as [kv|]; [destruct Hpn; eauto|].
    pose proof (SeekFirst_items t) as Hf. destruct (SeekFirst t) as [e3|]; [|done].
    exists e3. split; [done|]. destruct Hf as [_ Hf]. unfold enum_at. rewrite Hf. simpl.
    split; [done|]. left. f_equal. lia. }
  cbn [obind].
  destruct (lookup_lt_is_Some_2 (items t) m) as [[k v] Hx].
  { destruct (items t); [done|]. simpl length in *. lia. }
  apply Next_at in He3. rewrite Hx in He3. destruct He3 as (e4 & -> & He4).
  destruct (items_lookup h _ _ _ Hl Hx) as (r & Hr & _ & _). simpl in Hr. deref_tac.
  erewrite overlap_loop_spec; [|apply Hl|done|unfold len; lia].
  rewrite (overlaps_split h _ reg (k, v)) by done. rewrite fmap_app.
  rewrite (overlaps_with_entry h reg (k, v) r Hr). by destruct (isRegionOverlap r reg).
Qed.

End Overlaps.

(** ** The invariant depends on the immutable attributes only *)

Lemma region_ok_static i j : static i = static j -> region_ok i -> region_ok j.
Proof.
  unfold static. intros [= H1 H2 H3 H4 H5 H6] Hi.
  destruct i, j. simpl in *. subst. destruct Hi. by constructor.
Qed.

Lemma isRegionOverlap_static i i' j j' :
  static i = static i' -> static j = static j' -> isRegionOverlap i j = isRegionOverlap i' j'.
Proof.
  unfold static, isRegionOverlap. intros [= _ -> -> _ -> ->] [= _ -> -> _ -> ->]. done.
Qed.

Lemma items_ok_ext h h' l : heap_ext h h' -> items_ok h l -> items_ok h' l.
Proof.
  intros Hext Hl. split; [apply Hl| |].
  - eapply Forall_impl; [apply Hl|]. intros kv (i & Hi & Ho & He).
    destruct (heap_ext_lookup _ _ _ _ Hext Hi) as (i' & Hi' & Hs). exists i'. split_and!; [done| |].
    + by eapply region_ok_static.
    + rewrite He. unfold static in Hs. congruence.
  - intros a b i' j' Ha Hb Hab Hi' Hj'.
    destruct (items_entry h l a Hl Ha) as (i & Hi & _ & _).
    destruct (items_entry h l b Hl Hb) as (j & Hj & _ & _).
    destruct (heap_ext_lookup _ _ _ _ Hext Hi) as (i2 & ? & Hs1).
    destruct (heap_ext_lookup _ _ _ _ Hext Hj) as (j2 & ? & Hs2).
    rewrite (isRegionOverlap_static i' i j' j) by congruence. by apply (items_disjoint h l Hl a b).
Qed.

Lemma items_ok_sublist h l k : k `sublist_of` l -> items_ok h l -> items_ok h k.
Proof.
  intros Hs Hl. split.
  - eapply (tree_ok_sublist l k Hs), items_tree_ok, Hl.
  - apply Forall_forall. intros x Hx. apply (items_entry h l x Hl). by eapply elem_of_sublist.
  - intros a b i j Ha Hb. apply (items_disjoint h l Hl); by eapply elem_of_sublist.
Qed.

(** ** [put] *)

Section Put.
Context {T : RegionTree ptr} {HT : RegionTreeSpec ptr T}.

Definition younger (h : heap) (reg : info) (p : ptr) : bool :=
  match h_infos h !! p with Some i => bool_decide (r_id i > r_id reg) | None => false end.

Lemma any_younger_spec {E} os reg h :
  Forall (fun p => is_Some (h_infos h !! p)) os ->
  @any_younger E os reg h = Ok (existsb (younger h reg) os).
Proof.
  induction 1 as [|p os [i Hi] _ IH]; simpl; [done|]. deref_tac. unfold younger at 1. rewrite Hi.
  by case_bool_decide.
Qed.

(** The entries are deleted by name, and their regions are dead. *)
Lemma delete_overlaps_spec {E} es t h :
  tree_ok (items t) -> Forall (entry_ok h) es ->
  exists t' h', @delete_overlaps T E (snd <$> es) t h = Ok (t', h') /\
    items t' = filter (fun kv => kv.1 ∉ fst <$> es) (items t) /\ heap_ext h h' /\
    (heap_ok h -> heap_ok h') /\
    (forall p i, h_infos h' !! p = Some i ->
      exists i0, h_infos h !! p = Some i0 /\
        i = if decide (p ∈ snd <$> es) then set_dead i0 else i0).
Proof.
  revert t h. induction es as [|[k p] es IH]; intros t h Ht Hes; csimpl.
  { exists t, h. split_and!; [done| |done|done|].
    - symmetry. apply filter_all. intros x _. set_solver.
    - intros p i Hp. by exists i. }
  apply Forall_cons in Hes as [(i & Hi & Ho & Hk) Hes]. simpl in Hi, Hk. subst k.
  deref_tac.
  destruct (@Delete_items _ _ HT E t (r_name i)) as (t1 & -> & Ht1); [done|by apply region_valid_key|].
  cbn [obind fst]. unfold MarkDead. deref_tac. cbn [obind fst].
  set (h1 := set_info p (set_dead i) h).
  assert (heap_ext h h1) as Hext by (by eapply set_info_ext).
  destruct (IH t1 h1) as (t' & h' & -> & Hit & Hext' & Hok' & Hdead).
  { rewrite Ht1. by apply assoc_delete_ok. }
  { eapply Forall_impl; [exact Hes|]. intros kv (j & Hj & Oj & Ej).
    destruct (heap_ext_lookup _ _ _ _ Hext Hj) as (j' & Hj' & Hs). exists j'.
    split_and!; [done|by eapply region_ok_static|rewrite Ej; unfold static in Hs; congruence]. }
  exists t', h'. split_and!; [done| |by etrans| |].
  - rewrite Hit, Ht1. unfold assoc_delete. rewrite list_filter_filter.
    apply list_filter_iff. intros x. rewrite not_elem_of_cons. tauto.
  - intros Hok. apply Hok'. by eapply set_info_ok.
  - intros q j Hq. destruct (Hdead q j Hq) as (j1 & Hj1 & ->). unfold h1 in Hj1. simpl in Hj1.
    apply lookup_insert_Some in Hj1 as [[<- <-]|[Hne Hj1]].
    + exists i. split; [done|]. rewrite (decide_True (P := p ∈ p :: _)) by by left.
      by case_decide.
    + exists j1. split; [done|]. repeat case_decide; set_solver.
Qed.

(** The entries that overlap the region. *)
Definition overlap_entries (h : heap) (reg : info) (l : list (bytes * ptr)) : list (bytes * ptr) :=
  filter (fun kv => overlaps_with h reg kv = true) l.

(** The names of the overlaps single out the overlaps. *)
Lemma overlap_names h reg l kv :
  items_ok h l -> kv ∈ l ->
  kv.1 ∈ (fst <$> overlap_entries h reg l) <-> overlaps_with h reg kv = true.
Proof.
  intros Hl Hkv. rewrite list_elem_of_fmap. unfold overlap_entries. split.
  - intros (kv' & Heq & Hin). apply list_elem_of_filter in Hin as [Ho Hin].
    by rewrite (tree_ok_key_inj l kv kv' (items_tree_ok h l Hl) Hkv Hin Heq).
  - intros Ho. exists kv. split; [done|]. by apply list_elem_of_filter.
Qed.

(** Adding a region whose name is new and dropping what it overlaps keeps the
    invariant. *)
Lemma replace_items_ok h l p reg :
  items_ok h l -> h_infos h !! p = Some reg -> region_ok reg ->
  assoc_lookup (r_name reg) l = None ->
  let l' := filter (fun kv => kv.1 ∉ fst <$> overlap_entries h reg l)
              (assoc_insert (r_name reg) p l) in
  (forall kv, kv ∈ l' <-> kv = (r_name reg, p) \/ kv ∈ l /\ overlaps_with h reg kv = false) /\
  items_ok h l'.
Proof.
  intros Hl Hp Hreg Hnew l'.
  pose proof (items_tree_ok h l Hl) as Htree. pose proof (region_valid_key reg Hreg) as Hkey.
  assert (forall kv, kv ∈ l' <-> kv = (r_name reg, p) \/ kv ∈ l /\ overlaps_with h reg kv = false)
    as Hmem.
  { intros kv. unfold l'. rewrite list_elem_of_filter, elem_of_assoc_insert by done.
    split.
    - intros [Hn [->|Hin]]; [by left|right]. rewrite (overlap_names h reg l kv Hl Hin) in Hn.
      split; [done|]. by apply not_true_iff_false.
    - intros [->|[Hin Ho]].
      + split; [|by left]. simpl. rewrite list_elem_of_fmap. intros (kv & Heq & Hin).
        apply list_elem_of_filter in Hin as [_ Hin].
        by apply (proj1 (assoc_lookup_None _ _) Hnew kv).
      + rewrite (overlap_names h reg l kv Hl Hin). split; [congruence|by right]. }
  split; [done|]. split.
  - apply (tree_ok_sublist (assoc_insert (r_name reg) p l)); [by apply sublist_filter|].
    by apply assoc_insert_ok.
  - apply Forall_forall. intros kv [->|[Hin _]]%Hmem; [by exists reg|by apply (items_entry h l)].
  - intros a b i j Ha%Hmem Hb%Hmem Hab Hi Hj.
    destruct Ha as [->|[Ha Hoa]], Hb as [->|[Hb Hob]]; simpl in *; [done|..].
    + assert (i = reg) as -> by congruence.
      destruct (items_entry h l b Hl Hb) as (j0 & Hj0 & Hok & _).
      assert (j0 = j) as -> by congruence.
      rewrite isRegionOverlap_sym by done. by rewrite <- (overlaps_with_entry h reg b j).
    + assert (j = reg) as -> by congruence. by rewrite <- (overlaps_with_entry h reg a i).
    + by apply (items_disjoint h l Hl a b).
Qed.

(** ** What the operations do *)

Definition put_post (p : ptr) (reg : info) (l : list (bytes * ptr)) (h : heap)
    (r : list ptr * bool) (l' : list (bytes * ptr)) (h' : heap) : Prop :=
  match assoc_lookup (r_name reg) l with
  | Some v => r = ([v], false) /\ l' = l /\ h' = h
  | None =>
      let os := snd <$> overlap_entries h reg l in
      r.1 = os /\
      if existsb (younger h reg) os then r.2 = false /\ l' = l /\ h' = h
      else r.2 = true /\
        (forall kv, kv ∈ l' <-> kv = (r_name reg, p) \/ kv ∈ l /\ overlaps_with h reg kv = false) /\
        (forall q j, h_infos h' !! q = Some j -> exists j0, h_infos h !! q = Some j0 /\
           j = if decide (q ∈ os) then set_dead j0 else j0)
  end.

Lemma put_spec {E} p reg t h :
  items_ok h (items t) -> h_infos h !! p = Some reg -> region_ok reg ->
  exists os b t' h', @put T E p t h = Ok (os, b, t', h') /\
    items_ok h' (items t') /\ heap_ext h h' /\ (heap_ok h -> heap_ok h') /\
    put_post p reg (items t) h (os, b) (items t') h'.
Proof.
  intros Hl Hp Hreg. unfold put, put_post. deref_tac. cbn [obind].
  match goal with |- context [Put t (r_name reg) ?g] => set (f := g) end.
  pose proof (Put_items t (r_name reg) f (items_tree_ok h _ Hl) (region_valid_key reg Hreg)) as HP.
  destruct (assoc_lookup (r_name reg) (items t)) as [v|] eqn:Hnew.
  { destruct HP as (t' & -> & Ht'). cbn. exists [v], false, t', h. rewrite Ht'. by split_and!. }
  assert (Forall (entry_ok h) (overlap_entries h reg (items t))) as Hes.
  { apply Forall_forall. intros kv [_ Hin]%list_elem_of_filter. by apply (items_entry h (items t)). }
  set (os := snd <$> overlap_entries h reg (items t)).
  assert (f None = Ok (if existsb (younger h reg) os then (None, (os, false))
                       else (Some p, (os, true)))) as Hf.
  { unfold f. rewrite getOverlaps_spec by done. cbn [obind]. rewrite any_younger_spec.
    - cbn [obind]. fold (overlap_entries h reg (items t)). fold os. by destruct (existsb _ os).
    - apply Forall_fmap. eapply Forall_impl; [exact Hes|]. intros kv (i & Hi & _). by exists i. }
  rewrite Hf in HP. clearbody f. destruct (existsb (younger h reg) os).
  { destruct HP as (t' & -> & Ht'). cbn. exists os, false, t', h. rewrite Ht'. by split_and!. }
  destruct HP as (t1 & -> & Ht1). cbn.
  destruct (replace_items_ok h (items t) p reg Hl Hp Hreg Hnew) as [Hmem Hok].
  destruct (@delete_overlaps_spec E (overlap_entries h reg (items t)) t1 h) as (t' & h' & Hd & Ht' & Hext & Hhok & Hdead).
  { rewrite Ht1. apply assoc_insert_ok; [by eapply items_tree_ok|by apply region_valid_key|done]. }
  { done. }
  fold os in Hd, Hdead. rewrite Hd. cbn. rewrite Ht1 in Ht'. rewrite <- Ht' in Hmem, Hok.
  exists os, true, t', h'. split_and!; try done. by apply (items_ok_ext h).
Qed.

Lemma del_spec {E} p reg t h :
  items_ok h (items t) -> h_infos h !! p = Some reg -> region_ok reg ->
  exists t', @del T E p t h
      = Ok (bool_decide (is_Some (assoc_lookup (r_name reg) (items t))), t',
            set_info p (set_dead reg) h) /\
    items t' = assoc_delete (r_name reg) (items t) /\
    items_ok (set_info p (set_dead reg) h) (items t').
Proof.
  intros Hl Hp Hreg. unfold del. deref_tac. cbn [obind].
  destruct (@Delete_items _ _ HT E t (r_name reg)) as (t' & -> & Ht');
    [by eapply items_tree_ok|by apply region_valid_key|].
  unfold MarkDead. cbn. deref_tac. exists t'. split_and!; [done..|].
  rewrite Ht'. apply (items_ok_ext h); [by eapply set_info_ext|].
  apply (items_ok_sublist h (items t)); [apply sublist_filter|done].
Qed.

(** Is a cached entry the region of the row? *)
Definition serves (h : heap) (table key : bytes) (kv : bytes * ptr) : Prop :=
  exists i, h_infos h !! kv.2 = Some i /\ fullyQualifiedTable i = table /\ in_range i key.

(** The region of a row is the last one below its search key. *)
Lemma serves_rank h l table key i a :
  items_ok h l -> comma ∉ table -> l !! i = Some a -> serves h table key a ->
  rank (name_bytes (search_name table key)) l = S i.
Proof.
  intros Hl Hc Ha (ra & Hra & Ht & Hin). set (k := name_bytes _).
  destruct (items_lookup h l i a Hl Ha) as (ra' & ? & Oa & Ea). simplify_eq.
  assert (valid_key k) as Hk by (eexists; split; [by apply search_name_ok|done]).
  assert (key_lt a.1 k) as Hlt.
  { rewrite Ea. apply region_lt_search; [done..|]. right. split; [done|]. apply Hin. }
  destruct (Nat.lt_trichotomy (rank k l) (S i)) as [H|[H|H]]; [exfalso|done|exfalso].
  - assert (a.1 <> k) by (rewrite Ea; by apply region_not_search).
    assert (key_lt k a.1) as Hlt'
      by (apply (rank_above k l i a); [by eapply items_tree_ok|done|lia|done|done]).
    apply (key_lt_irrefl k); [done|]. apply key_lt_trans with a.1; try done.
    rewrite Ea. by apply region_valid_key.
  - pose proof (rank_le k l) as Hr. destruct (lookup_lt_is_Some_2 l (S i)) as [b Hb]; [lia|].
    destruct (items_lookup h l (S i) b Hl Hb) as (rb & Hrb & Ob & Eb).
    destruct (items_disjoint_lookup h l i (S i) a b ra rb) as [Hdis Hab]; try done; [lia|].
    assert (key_lt b.1 k) as Hbk by (by apply (rank_below k l (S i))).
    rewrite Eb in Hbk. apply region_lt_search in Hbk; [|done..].
    rewrite Ea, Eb in Hab. apply region_key_lt in Hab as Hab'; [|done..].
    apply name_lt_iff in Hab'. simpl in Hab'.
    assert (fullyQualifiedTable rb = fullyQualifiedTable ra) as Htb.
    { destruct Hbk as [Hbk|[? _]]; [|done]. destruct Hab' as [Hab'|[? _]]; [|done].
      exfalso. apply (bytes_lt_irrefl (fullyQualifiedTable ra)). by eapply bytes_lt_trans. }
    destruct Hbk as [Hbk|[_ Hbk]]; [rewrite Htb in Hbk; by apply bytes_lt_irrefl in Hbk|].
    destruct (disjoint_regions_order ra rb) as (_ & Hne & Hle); try done.
    destruct Hin as [_ [?|Hin]]; [done|]. apply (bytes_lt_irrefl key).
    eapply bytes_lt_le_trans; [exact Hin|]. by eapply bytes_le_trans.
Qed.

Lemma get_spec {E} h t table key :
  items_ok h (items t) -> comma ∉ table ->
  @get T E t (name_bytes (search_name table key))
  = Ok (match rank (name_bytes (search_name table key)) (items t) with
        | O => None
        | S n => items t !! n
        end).
Proof.
  intros Hl Hc. unfold get. set (k := name_bytes _).
  destruct (@Seek_items _ _ HT E t k) as (e & -> & He);
    [by eapply items_tree_ok|eexists; split; [by apply search_name_ok|done]|].
  unfold k in *. cbn [obind]. rewrite (items_no_hit h (items t)) in * by done.
  f_equal. rewrite (proj1 (Prev_view e)), He. unfold cursor_prev. simpl.
  destruct (rank _ _) as [|n]; [done|]. by destruct (items t !! n).
Qed.

(** The cache answers a row with the one region that serves it. *)
Lemma cachedRegion_spec {E} h t table key :
  items_ok h (items t) -> comma ∉ table -> len table + len key + 3 <= MaxInt16 ->
  exists o, @cachedRegion T E table key t h = Ok o /\
    forall p, o = Some p <-> exists kv, kv ∈ items t /\ kv.2 = p /\ serves h table key kv.
Proof.
  intros Hl Hc Hlen. unfold cachedRegion. rewrite createRegionSearchKey_fits by done.
  cbn [obind]. rewrite (get_spec h) by done. cbn [obind].
  set (k := name_bytes (search_name table key)).
  assert (forall kv, kv ∈ items t -> serves h table key kv ->
    match rank k (items t) with O => None | S n => items t !! n end = Some kv) as Huniq.
  { intros kv [i Hi]%list_elem_of_lookup Hs.
    pose proof (serves_rank h (items t) table key i kv Hl Hc Hi Hs) as Hr. fold k in Hr.
    by rewrite Hr. }
  assert (forall kv, match rank k (items t) with O => None | S n => items t !! n end = Some kv ->
    kv ∈ items t /\ key_lt kv.1 k) as Hat.
  { intros kv. destruct (rank k (items t)) as [|n] eqn:Hr; [done|]. intros Hn.
    split; [by eapply list_elem_of_lookup_2|]. apply (rank_below k (items t) n); [lia|done]. }
  destruct (match rank k (items t) with O => None | S n => items t !! n end) as [[k0 p]|].
  2: { exists None. split; [done|]. intros p. split; [done|]. intros (kv & Hin & _ & Hs).
       by specialize (Huniq kv Hin Hs). }
  destruct (Hat (k0, p) eq_refl) as [Hin Hlt].
  destruct (items_entry h _ _ Hl Hin) as (i & Hi & Oi & Ei). simpl in Hi, Ei, Hlt. subst k0.
  deref_tac. cbn [obind]. apply region_lt_search in Hlt; [|done..].
  assert (forall (o : option ptr), (o = Some p <-> serves h table key (r_name i, p)) -> (o = Some p \/ o = None) ->
    forall q, o = Some q <-> exists kv, kv ∈ items t /\ kv.2 = q /\ serves h table key kv) as Hfin.
  { intros o Ho Hcase q. split.
    - intros ->. assert (q = p) as -> by (destruct Hcase; congruence). exists (r_name i, p). tauto.
    - intros (kv & Hkv & <- & Hs). specialize (Huniq kv Hkv Hs). injection Huniq as <-. tauto. }
  assert (serves h table key (r_name i, p) <-> fullyQualifiedTable i = table /\ in_range i key) as Hserves.
  { unfold serves. simpl. rewrite Hi. split; [intros (? & [= ->] & ?); done|intros []; eauto]. }
  unfold bytes_eqb. case_bool_decide as Ht; simpl.
  2: { exists None. split; [done|]. apply Hfin; [|by right]. rewrite Hserves. intuition congruence. }
  assert (r_startKey i <=b key) as Hstart.
  { destruct Hlt as [Hlt|[_ ?]]; [|done]. rewrite Ht in Hlt. by apply bytes_lt_irrefl in Hlt. }
  rewrite <- bool_decide_and. case_bool_decide as Hstop.
  - exists None. split; [done|]. apply Hfin; [|by right]. rewrite Hserves. rewrite len_zero_iff in Hstop.
    unfold in_range, bytes_lt. intuition congruence.
  - exists (Some p). split; [done|]. apply Hfin; [|by left]. rewrite Hserves. rewrite len_zero_iff in Hstop.
    split; [intros _|done]. split; [done|]. split; [done|]. unfold bytes_lt.
    destruct (decide (r_stopKey i = [])); [by left|right].
    destruct (decide (bytes_compare key (r_stopKey i) = Lt)); tauto.
Qed.

End Put.

(** ** Histories of the cache *)

Inductive cache_op := CachePut (p : ptr) | CacheDel (p : ptr).

Section History.
Context {T : RegionTree ptr} {HT : RegionTreeSpec ptr T}.

Definition cache_step {E} (o : cache_op) (s : tree * heap) : outcome E (tree * heap) :=
  match o with
  | CachePut p => let* r := put p s.1 s.2 in let '(_, _, t, h) := r in Ok (t, h)
  | CacheDel p => let* r := del p s.1 s.2 in let '(_, t, h) := r in Ok (t, h)
  end.

Fixpoint cache_run {E} (ops : list cache_op) (s : tree * heap) : outcome E (tree * heap) :=
  match ops with
  | [] => Ok s
  | o :: ops => let* s := cache_step o s in cache_run ops s
  end.

Definition op_region (o : cache_op) : ptr := match o with CachePut p => p | CacheDel p => p end.

Definition op_ok (h : heap) (o : cache_op) : Prop :=
  exists i, h_infos h !! op_region o = Some i /\ region_ok i.

Lemma op_ok_ext h h' o : heap_ext h h' -> op_ok h o -> op_ok h' o.
Proof.
  intros Hext (i & Hi & Ho). destruct (heap_ext_lookup _ _ _ _ Hext Hi) as (i' & Hi' & Hs).
  exists i'. split; [done|]. by eapply region_ok_static.
Qed.

Lemma cache_step_ok {E} o t h :
  items_ok h (items t) -> op_ok h o ->
  exists t' h', @cache_step E o (t, h) = Ok (t', h') /\ items_ok h' (items t') /\ heap_ext h h'.
Proof.
  intros Hl (i & Hi & Ho). destruct o as [p|p]; simpl in *.
  - destruct (@put_spec _ _ E p i t h Hl Hi Ho) as (os & b & t' & h' & -> & ? & ? & _). simpl. eauto.
  - destruct (@del_spec _ _ E p i t h Hl Hi Ho) as (t' & -> & _ & ?). simpl.
    eexists _, _. split_and!; [done..|]. by eapply set_info_ext.
Qed.

Lemma cache_run_ok {E} ops t h :
  items_ok h (items t) -> Forall (op_ok h) ops ->
  exists t' h', @cache_run E ops (t, h) = Ok (t', h') /\ items_ok h' (items t') /\ heap_ext h h'.
Proof.
  revert t h. induction ops as [|o ops IH]; intros t h Hl Hops; simpl.
  { exists t, h. by split_and!. }
  apply Forall_cons in Hops as [Ho Hops].
  destruct (@cache_step_ok E o t h Hl Ho) as (t1 & h1 & -> & Hl1 & Hext). simpl.
  destruct (IH t1 h1 Hl1) as (t' & h' & -> & Hl' & Hext').
  { eapply Forall_impl; [exact Hops|]. intros o'. by apply op_ok_ext. }
  exists t', h'. split_and!; [done..|]. by etrans.
Qed.

Lemma items_ok_nil h : items_ok h [].
Proof. split; [constructor|constructor|]. intros a b i j Ha. by apply elem_of_nil in Ha. Qed.

(** C3. Any sequence of [put]s and [del]s of well-formed regions, from the empty
    cache, runs to the end without hitting one of the [log.Fatalf]s, and leaves
    a cache in which two entries that both hold a row of a table are the same
    entry: the cached regions of a table never overlap. *)
Theorem cache_never_overlaps {E} ops h :
  Forall (op_ok h) ops ->
  exists t' h', @cache_run E ops (TreeNew, h) = Ok (t', h') /\
    forall table key a b, a ∈ items t' -> b ∈ items t' ->
      serves h' table key a -> serves h' table key b -> a = b.
Proof.
  intros Hops. destruct (@cache_run_ok E ops TreeNew h) as (t' & h' & Hrun & Hl & _).
  { rewrite items_new. apply items_ok_nil. }
  { done. }
  exists t', h'. split; [done|]. intros table key a b Ha Hb (i & Hi & Hti & Hini) (j & Hj & Htj & Hinj).
  destruct (decide (a = b)) as [?|Hne]; [done|].
  pose proof (items_disjoint h' _ Hl a b i j Ha Hb Hne Hi Hj) as Hdis.
  destruct (items_entry _ _ _ Hl Ha) as (i' & ? & ? & _).
  destruct (items_entry _ _ _ Hl Hb) as (j' & ? & ? & _). simplify_eq.
  apply not_true_iff_false in Hdis. destruct Hdis. apply isRegionOverlap_common_key; [done..|]. eauto.
Qed.

(** C4. In a well-formed cache a row is answered with the cached region that
    serves it (same table, start key not above the row, stop key above it or
    empty), and with no region exactly when no cached region serves it. *)
Theorem cache_lookup_exact {E} h t table key :
  items_ok h (items t) -> comma ∉ table -> len table + len key + 3 <= MaxInt16 ->
  exists o, @cachedRegion T E table key t h = Ok o /\
    (forall p, o = Some p <-> exists kv, kv ∈ items t /\ kv.2 = p /\ serves h table key kv) /\
    (o = None <-> forall kv, kv ∈ items t -> ~ serves h table key kv).
Proof.
  intros Hl Hc Hlen. destruct (@cachedRegion_spec _ _ E h t table key Hl Hc Hlen) as (o & Ho & Hspec).
  exists o. split_and!; [done..|]. split.
  - intros -> kv Hin Hs. assert (@None ptr = Some kv.2) by (apply Hspec; eauto). done.
  - intros Hno. destruct o as [p|]; [|done]. destruct (proj1 (Hspec p) eq_refl) as (kv & Hin & _ & Hs).
    by destruct (Hno kv Hin).
Qed.

(** C5. [put] on a well-formed cache: a region whose name is cached leaves
    everything as it was and returns the cached one; otherwise it returns all
    the overlapping entries and, when one of them is younger, leaves everything
    as it was; else the cache holds the new region and the entries that do not
    overlap it, exactly the overlaps are marked dead, and the cache is well
    formed again. *)
Theorem put_replaces_older_overlaps {E} p reg t h :
  items_ok h (items t) -> h_infos h !! p = Some reg -> region_ok reg ->
  exists os b t' h', @put T E p t h = Ok (os, b, t', h') /\ items_ok h' (items t') /\
    put_post p reg (items t) h (os, b) (items t') h'.
Proof.
  intros Hl Hp Hreg. destruct (@put_spec _ _ E p reg t h Hl Hp Hreg) as (os & b & t' & h' & ? & ? & _ & _ & ?).
  exists os, b, t', h'. done.
Qed.

(** The walk of [getOverlaps] from the search key of the new region finds,
    in a well-formed cache, every cached region that shares a row of the table
    with it, and nothing else. *)
Theorem getOverlaps_exact {E} t reg h :
  items_ok h (items t) -> region_ok reg ->
  exists os, @getOverlaps T E t reg h = Ok os /\
    forall p, p ∈ os <-> exists kv i, kv ∈ items t /\ kv.2 = p /\ h_infos h !! p = Some i /\
      fullyQualifiedTable i = fullyQualifiedTable reg /\ exists k, in_range i k /\ in_range reg k.
Proof.
  intros Hl Hreg. rewrite getOverlaps_spec by done. eexists. split; [done|]. intros p.
  rewrite list_elem_of_fmap. split.
  - intros (kv & -> & [Ho Hin]%list_elem_of_filter).
    destruct (items_entry _ _ _ Hl Hin) as (i & Hi & Oi & _).
    rewrite (overlaps_with_entry _ _ _ _ Hi) in Ho. apply isRegionOverlap_common_key in Ho; [|done..].
    exists kv, i. tauto.
  - intros (kv & i & Hin & <- & Hi & Hov). exists kv. split; [done|]. apply list_elem_of_filter.
    split; [|done]. destruct (items_entry _ _ _ Hl Hin) as (i' & ? & Oi & _). simplify_eq.
    rewrite (overlaps_with_entry _ _ _ _ Hi). by apply isRegionOverlap_common_key.
Qed.

(** [del] removes the region's name and nothing else, reports whether it
    was there, marks the region dead and keeps the cache well formed. *)
Theorem del_removes {E} p reg t h :
  items_ok h (items t) -> h_infos h !! p = Some reg -> region_ok reg ->
  exists b t' h', @del T E p t h = Ok (b, t', h') /\
    (b = true <-> exists kv, kv ∈ items t /\ kv.1 = r_name reg) /\
    (forall kv, kv ∈ items t' <-> kv ∈ items t /\ kv.1 <> r_name reg) /\
    @ContextErr E p h' = Ok true /\ items_ok h' (items t').
Proof.
  intros Hl Hp Hreg. destruct (@del_spec _ _ E p reg t h Hl Hp Hreg) as (t' & -> & Ht' & Hok).
  eexists _, t', _. split_and!; [done| | | |done].
  - rewrite bool_decide_eq_true. split.
    + intros [v Hv%assoc_lookup_Some]. by exists (r_name reg, v).
    + intros (kv & Hin & Heq). destruct (assoc_lookup _ _) eqn:Hn; [done|].
      by destruct (proj1 (assoc_lookup_None _ _) Hn kv).
  - intros kv. rewrite Ht'. unfold assoc_delete. rewrite list_elem_of_filter. tauto.
  - unfold ContextErr, deref. simpl. by rewrite lookup_insert_eq.
Qed.

End History.

(** ** A split region, replayed *)

Definition mother : info := Info 1 None (bs "t") (bs "t,,1.") [] [] false None None.
Definition daughterA : info := Info 2 None (bs "t") (bs "t,,2.") [] (bs "m") false None None.
Definition daughterB : info := Info 2 None (bs "t") (bs "t,m,2.") (bs "m") [] false None None.

Definition split_heap : heap :=
  Heap (<[0%nat := mother]> (<[1%nat := daughterA]> (<[2%nat := daughterB]> ∅))) 3 0 ∅.

Ltac decide_tac := apply (bool_decide_unpack _); vm_compute; exact I.

Ltac sample_region_tac :=
  split; [reflexivity|split; decide_tac|vm_compute; reflexivity| |decide_tac|exact I|vm_compute; discriminate];
  first [left; reflexivity|right; vm_compute; reflexivity].

Lemma mother_ok : region_ok mother.
Proof. sample_region_tac. Qed.
Lemma daughterA_ok : region_ok daughterA.
Proof. sample_region_tac. Qed.
Lemma daughterB_ok : region_ok daughterB.
Proof. sample_region_tac. Qed.

Lemma mother_cached : items_ok split_heap [(r_name mother, 0%nat)].
Proof.
  split.
  - repeat constructor.
  - repeat constructor. exists mother. split_and!; [done|apply mother_ok|done].
  - intros a b i j Ha Hb Hne. apply list_elem_of_singleton in Ha, Hb. by subst.
Qed.

Lemma cache_never_overlaps_witness :
  exists t' h',
    @cache_run list_tree Empty_set [CachePut 0; CachePut 1; CachePut 2; CacheDel 1] ([], split_heap) = Ok (t', h') /\
    t' = [(r_name daughterB, 2%nat)] /\
    forall table key a b, a ∈ t' -> b ∈ t' -> serves h' table key a -> serves h' table key b -> a = b.
Proof.
  destruct (@cache_never_overlaps list_tree list_tree_spec Empty_set
    [CachePut 0; CachePut 1; CachePut 2; CacheDel 1] split_heap) as (t' & h' & Hrun & Huniq).
  { repeat constructor; eexists; (split; [reflexivity|]);
      (apply mother_ok || apply daughterA_ok || apply daughterB_ok). }
  exists t', h'. split; [exact Hrun|]. split; [|exact Huniq].
  pose proof (f_equal (fun o => match o with Ok (t, _) => t | _ => [] end) Hrun) as Ht.
  cbv beta iota in Ht. rewrite <- Ht. vm_compute. reflexivity.
Defined.

Lemma cache_lookup_exact_witness :
  exists o, @cachedRegion list_tree Empty_set (bs "t") (bs "row") [(r_name mother, 0%nat)] split_heap = Ok o /\
    o = Some 0%nat.
Proof.
  destruct (@cache_lookup_exact list_tree list_tree_spec Empty_set split_heap
    [(r_name mother, 0%nat)] (bs "t") (bs "row") mother_cached) as (o & Ho & Hsome & _).
  { apply (bool_decide_unpack _). vm_compute. exact I. }
  { vm_compute. discriminate. }
  exists o. split; [exact Ho|]. apply Hsome. exists (r_name mother, 0%nat).
  split; [apply list_elem_of_singleton; reflexivity|]. split; [reflexivity|]. exists mother.
  split; [reflexivity|]. split; [reflexivity|]. split; [discriminate|left; reflexivity].
Defined.

Lemma put_replaces_older_overlaps_witness :
  exists os b t' h',
    @put list_tree Empty_set 1%nat [(r_name mother, 0%nat)] split_heap = Ok (os, b, t', h') /\
    os = [0%nat] /\ b = true /\ items_ok h' t'.
Proof.
  destruct (@put_replaces_older_overlaps list_tree list_tree_spec Empty_set 1%nat daughterA
    [(r_name mother, 0%nat)] split_heap mother_cached eq_refl daughterA_ok)
    as (os & b & t' & h' & Hput & Hok & Hpost).
  exists os, b, t', h'. split; [exact Hput|]. vm_compute in Hpost.
  split; [apply Hpost|]. split; [apply Hpost|exact Hok].
Defined.

Lemma getOverlaps_exact_witness :
  exists os, @getOverlaps list_tree Empty_set [(r_name mother, 0%nat)] daughterB split_heap = Ok os /\
    0%nat ∈ os.
Proof.
  destruct (@getOverlaps_exact list_tree list_tree_spec Empty_set
    [(r_name mother, 0%nat)] daughterB split_heap mother_cached daughterB_ok) as (os & Hos & Hmem).
  exists os. split; [exact Hos|]. apply Hmem. exists (r_name mother, 0%nat), mother.
  split; [apply list_elem_of_singleton; reflexivity|]. split; [reflexivity|]. split; [reflexivity|].
  split; [reflexivity|]. exists (bs "m"). split; (split; [discriminate|left; reflexivity]).
Defined.

Lemma del_removes_witness :
  exists b t' h', @del list_tree Empty_set 0%nat [(r_name mother, 0%nat)] split_heap = Ok (b, t', h') /\
    b = true.
Proof.
  destruct (@del_removes list_tree list_tree_spec Empty_set 0%nat mother
    [(r_name mother, 0%nat)] split_heap mother_cached eq_refl mother_ok)
    as (b & t' & h' & Hdel & Hb & _).
  exists b, t', h'. split; [exact Hdel|]. apply Hb. exists (r_name mother, 0%nat).
  split; [apply list_elem_of_singleton; reflexivity|reflexivity].
Defined.
