(* ===== verification/CellBlocks.v ===== *)
(** * Cellblocks: hrpc/mutate.go [appendCellblock], hrpc/call.go [cellFromCellBlock]

    HBase ships cells outside the protobuf messages, in its KeyValue format.
    The writer fills a preallocated slice through an index; the reader cuts a
    slice with lengths it has just read, in 32-bit arithmetic that wraps.
    [cell_layout] is the format, as the comment of [appendCellblock] gives it;
    the writer produces it, the reader inverts it, and whatever the reader
    accepts has that layout. *)

From S2P Require Import Prelude Pb.

(** ** The source: writing *)

Definition cellblockLen (rowLen familyLen qualifierLen valueLen : Z) : Z :=
  let keyLength := 2 + rowLen + 1 + familyLen + qualifierLen + 8 + 1 in
  let keyValueLength := 4 + 4 + keyLength + valueLen in
  4 + keyValueLength.

Definition appendCellblock {E} (row family qualifier value : bytes) (ts : Z) (typ : byte)
    (cbs : bytes) : outcome E bytes :=
  let keylength := 2 + len row + 1 + len family + len qualifier + 8 + 1 in
  let valuelength := len value in
  let keyvaluelength := 4 + 4 + keylength + valuelength in
  let i := len cbs in
  let cbs := cbs ++ make_bytes (Z.to_nat
    (cellblockLen (len row) (len family) (len qualifier) (len value))) in
  (* Header *)
  let* cbs := PutAt cbs i (PutUint32 (u32 keyvaluelength)) in
  let i := i + 4 in
  let* cbs := PutAt cbs i (PutUint32 (u32 keylength)) in
  let i := i + 4 in
  let* cbs := PutAt cbs i (PutUint32 (u32 valuelength)) in
  let i := i + 4 in
  (* Key *)
  let* cbs := PutAt cbs i (PutUint16 (u16 (len row))) in
  let i := i + 2 in
  let* r := copy_at cbs i row in
  let '(cbs, n) := r in
  let i := i + n in
  let* cbs := PutAt cbs i [byte_of_Z (len family)] in
  let i := i + 1 in
  let* r := copy_at cbs i family in
  let '(cbs, n) := r in
  let i := i + n in
  let* r := copy_at cbs i qualifier in
  let '(cbs, n) := r in
  let i := i + n in
  let* cbs := PutAt cbs i (PutUint64 ts) in
  let i := i + 8 in
  let* cbs := PutAt cbs i [typ] in
  let i := i + 1 in
  (* Value *)
  let* r := copy_at cbs i value in
  Ok (fst r).

(** ** The source: reading *)

Inductive cell_error :=
| BufferTooSmall (expected got : Z)
| LiedAboutLength (expected got : Z).

Definition cellFromCellBlock (b : bytes) : outcome cell_error (Cell * Z) :=
  if bool_decide (len b < 4) then Err (BufferTooSmall 4 (len b))
  else
    let* s := slice b 0 4 in
    let* kvLen := Uint32 s in
    if bool_decide (len b < kvLen + 4) then Err (BufferTooSmall (kvLen + 4) (len b))
    else
      let* s := slice b 4 8 in
      let* rowKeyLen := Uint32 s in
      let* s := slice b 8 12 in
      let* valueLen := Uint32 s in
      let* s := slice b 12 14 in
      let* keyLen := Uint16 s in
      let* b := slice_from b 14 in
      let* key := slice_to b keyLen in
      let* b := slice_from b keyLen in
      let* b0 := index b 0 in
      let familyLen := Z_of_byte b0 in
      let* b := slice_from b 1 in
      let* family := slice_to b familyLen in
      let* b := slice_from b familyLen in
      let qualifierLen := u32 (rowKeyLen - keyLen - familyLen - 2 - 1 - 8 - 1) in
      let total := u32 (4 + 4 + 2 + keyLen + 1 + familyLen + qualifierLen + 8 + 1 + valueLen) in
      if bool_decide (total <> kvLen) then Err (LiedAboutLength kvLen total)
      else
        let* qualifier := slice_to b qualifierLen in
        let* b := slice_from b qualifierLen in
        let* s := slice_to b 8 in
        let* timestamp := Uint64 s in
        let* b := slice_from b 8 in
        let* b0 := index b 0 in
        let cellType := Z_of_byte b0 in
        let* b := slice_from b 1 in
        let* value := slice_to b valueLen in
        Ok (mkCell key family qualifier (Some timestamp) (Some cellType) value, u32 (kvLen + 4)).

(** The loop over the cells; an error comes with the bytes read so far. *)
Fixpoint deserialize_loop (n : nat) (b : bytes) (readLen : Z) (cells : list Cell)
    : outcome (Z * cell_error) (list Cell * Z) :=
  match n with
  | O => Ok (cells, readLen)
  | S n' =>
      let* s := slice_from b readLen in
      let* r := map_err (fun e => (readLen, e)) (cellFromCellBlock s) in
      let '(c, l) := r in
      deserialize_loop n' b (u32 (readLen + l)) (cells ++ [c])
  end.

Definition deserializeCellBlocks (b : bytes) (cellsLen : Z)
    : outcome (Z * cell_error) (list Cell * Z) :=
  deserialize_loop (Z.to_nat cellsLen) b 0 [].

(** ** The format *)

Definition cell_layout (row family qualifier value : bytes) (ts : Z) (typ : byte) : bytes :=
  let keylength := 2 + len row + 1 + len family + len qualifier + 8 + 1 in
  PutUint32 (8 + keylength + len value) ++ PutUint32 keylength ++ PutUint32 (len value) ++
  PutUint16 (len row) ++ row ++ [byte_of_Z (len family)] ++ family ++ qualifier ++
  PutUint64 ts ++ [typ] ++ value.

(** The lengths fit their fields. *)
Definition cell_fits (row family qualifier value : bytes) (ts : Z) : Prop :=
  len row < 2 ^ 16 /\ len family < 2 ^ 8 /\ 0 <= ts < 2 ^ 64 /\
  cellblockLen (len row) (len family) (len qualifier) (len value) < 2 ^ 32.

Lemma len_cell_layout row family qualifier value ts typ :
  len (cell_layout row family qualifier value ts typ)
  = cellblockLen (len row) (len family) (len qualifier) (len value).
Proof.
  unfold cell_layout, cellblockLen, PutUint16, PutUint32, PutUint64.
  rewrite !len_app, !len_be_encode. unfold len. simpl. lia.
Qed.

Lemma be_encode_modulo n z : be_encode n (z mod 256 ^ Z.of_nat n) = be_encode n z.
Proof.
  rewrite <- (be_encode_decode (be_encode n z)), be_decode_encode, length_be_encode. done.
Qed.

(** ** The writer produces the format *)

Lemma PutAt_fill_n {E} p s n m i :
  length s = n -> i = len p ->
  @PutAt E (p ++ make_bytes (n + m)) i s = Ok ((p ++ s) ++ make_bytes m).
Proof. intros <- ?. by apply PutAt_fill. Qed.

Ltac fill_side :=
  first [done | by rewrite length_be_encode
        |rewrite ?len_app, ?len_be_encode; unfold len; simpl; lia].

Lemma appendCellblock_layout {E} row family qualifier value ts typ cbs :
  @appendCellblock E row family qualifier value ts typ cbs
  = Ok (cbs ++ cell_layout row family qualifier value ts typ).
Proof.
  unfold appendCellblock, cell_layout, u16, u32, PutUint16, PutUint32, PutUint64.
  change (2 ^ 16) with (256 ^ Z.of_nat 2). change (2 ^ 32) with (256 ^ Z.of_nat 4).
  rewrite !be_encode_modulo.
  replace (Z.to_nat (cellblockLen _ _ _ _)) with
    (4 + (4 + (4 + (2 + (length row + (1 + (length family + (length qualifier +
     (8 + (1 + (length value + 0)))))))))))%nat by (unfold cellblockLen, len; lia).
  repeat (cbn [obind fst]; cbv zeta;
    first [rewrite (PutAt_fill_n _ _ 4%nat) by fill_side | rewrite (PutAt_fill_n _ _ 2%nat) by fill_side
          |rewrite (PutAt_fill_n _ _ 1%nat) by fill_side | rewrite (PutAt_fill_n _ _ 8%nat) by fill_side
          |rewrite copy_at_fill by fill_side]).
  cbn [obind fst]. unfold make_bytes. simpl replicate. rewrite app_nil_r, <- !app_assoc. done.
Qed.

(** ** The reader inverts it *)

Lemma slice_at {E} (l p m s : bytes) lo hi :
  l = p ++ m ++ s -> lo = len p -> hi = len p + len m -> @slice E byte l lo hi = Ok m.
Proof. intros ->. apply slice_mid. Qed.

Lemma slice_from_at {E} (l p s : bytes) lo :
  l = p ++ s -> lo = len p -> @slice_from E byte l lo = Ok s.
Proof. intros ->. apply slice_suffix. Qed.

Lemma index_head {E} (x : byte) l : @index E byte (x :: l) 0 = Ok x.
Proof. done. Qed.

Lemma UintN_exact {E} n z : 0 <= z < 256 ^ Z.of_nat n -> @UintN E n (be_encode n z) = Ok z.
Proof. intros Hz. rewrite <- (app_nil_r (be_encode n z)). by apply UintN_encode. Qed.

Definition cell_of (row family qualifier value : bytes) (ts : Z) (typ : byte) : Cell :=
  mkCell row family qualifier (Some ts) (Some (Z_of_byte typ)) value.

Ltac read_uint e := cbn [obind]; unfold e at 1; rewrite UintN_exact by (simpl; lia); cbn [obind].
Ltac cut_slice := cbn [obind]; rewrite slice_prefix by done; cbn [obind]; rewrite slice_suffix by done.

Lemma cellFromCellBlock_layout row family qualifier value ts typ rest :
  cell_fits row family qualifier value ts ->
  cellFromCellBlock (cell_layout row family qualifier value ts typ ++ rest)
  = Ok (cell_of row family qualifier value ts typ,
        cellblockLen (len row) (len family) (len qualifier) (len value)).
Proof.
  intros (Hrow & Hfam & Hts & Htot). pose proof (len_nonneg row). pose proof (len_nonneg family).
  pose proof (len_nonneg qualifier). pose proof (len_nonneg value). pose proof (len_nonneg rest).
  unfold cellFromCellBlock.
  assert (len (cell_layout row family qualifier value ts typ ++ rest)
    = cellblockLen (len row) (len family) (len qualifier) (len value) + len rest) as Hlen
    by (by rewrite len_app, len_cell_layout).
  rewrite Hlen. unfold cellblockLen in *. rewrite bool_decide_eq_false_2 by lia.
  unfold cell_layout, PutUint16, PutUint32, PutUint64. rewrite <- !app_assoc.
  set (kl := 2 + len row + 1 + len family + len qualifier + 8 + 1) in *.
  set (e1 := be_encode 4 (8 + kl + len value)). set (e2 := be_encode 4 kl).
  set (e3 := be_encode 4 (len value)). set (e4 := be_encode 2 (len row)). set (e5 := be_encode 8 ts).
  assert (len e1 = 4 /\ len e2 = 4 /\ len e3 = 4 /\ len e4 = 2 /\ len e5 = 8) as (L1 & L2 & L3 & L4 & L5)
    by (unfold e1, e2, e3, e4, e5; rewrite !len_be_encode; lia).
  set (body := row ++ [byte_of_Z (len family)] ++ family ++ qualifier ++ e5 ++ [typ] ++ value ++ rest).
  rewrite (slice_at _ [] e1 (e2 ++ e3 ++ e4 ++ body) 0 4) by (done || (unfold len at 1; simpl; lia)).
  cbn [obind]. unfold Uint32, Uint16, Uint64. unfold e1. rewrite UintN_exact by (simpl; lia). fold e1. cbn [obind].
  rewrite bool_decide_eq_false_2 by lia.
  rewrite (slice_at _ e1 e2 (e3 ++ e4 ++ body) 4 8) by (done || lia).
  read_uint e2.
  rewrite (slice_at _ (e1 ++ e2) e3 (e4 ++ body) 8 12) by (rewrite <- ?app_assoc, ?len_app; done || lia).
  read_uint e3.
  rewrite (slice_at _ (e1 ++ e2 ++ e3) e4 body 12 14) by (rewrite <- ?app_assoc, ?len_app; done || lia).
  read_uint e4.
  rewrite (slice_from_at _ (e1 ++ e2 ++ e3 ++ e4) body 14) by (rewrite <- ?app_assoc, ?len_app; done || lia).
  unfold body. cut_slice.
  cbn [obind app]. rewrite index_head. cbn [obind]. rewrite Z_of_byte_of_Z, Z.mod_small by lia.
  rewrite (slice_from_at _ [byte_of_Z (len family)] (family ++ qualifier ++ e5 ++ typ :: value ++ rest) 1) by done.
  cut_slice. cbn [obind].
  replace (u32 (kl - len row - len family - 2 - 1 - 8 - 1)) with (len qualifier)
    by (unfold u32; rewrite Z.mod_small; unfold kl; lia).
  rewrite bool_decide_eq_false_2 by (unfold u32; rewrite Z.mod_small; unfold kl; lia).
  cut_slice. cbn [obind].
  rewrite slice_prefix by done. read_uint e5.
  rewrite slice_suffix by done. cbn [obind]. rewrite index_head. cbn [obind].
  rewrite (slice_from_at _ [typ] (value ++ rest) 1) by done. cbn [obind].
  rewrite slice_prefix by done. cbn [obind]. unfold cell_of, u32. rewrite Z.mod_small by lia.
  do 2 f_equal. unfold kl. lia.
Qed.

(** ** What the reader accepts *)

Lemma slice_split {E} (l m : bytes) lo hi :
  @slice E byte l lo hi = Ok m ->
  exists p s, l = p ++ m ++ s /\ len p = lo /\ len m = hi - lo.
Proof.
  intros (H1 & H2 & -> & Hm)%slice_Ok_inv.
  exists (take (Z.to_nat lo) l), (drop (Z.to_nat (hi - lo)) (drop (Z.to_nat lo) l)).
  rewrite !take_drop. split; [done|]. split; [|done]. unfold len in *. rewrite length_take. lia.
Qed.

Lemma cut_split {E} (l m l' : bytes) n :
  @slice_to E byte l n = Ok m -> @slice_from E byte l n = Ok l' -> l = m ++ l' /\ len m = n.
Proof.
  intros (? & -> & ?)%slice_to_Ok_inv (? & -> & ?)%slice_from_Ok_inv. by rewrite take_drop.
Qed.

Lemma head_split {E} (l l' : bytes) x :
  @index E byte l 0 = Ok x -> @slice_from E byte l 1 = Ok l' -> l = x :: l'.
Proof.
  intros Hx (? & -> & ?)%slice_from_Ok_inv. destruct l as [|y l]; [done|]. by injection Hx as <-.
Qed.

Lemma Uint_split {E} n s z :
  @UintN E n s = Ok z -> len s = Z.of_nat n -> s = be_encode n z /\ 0 <= z < 256 ^ Z.of_nat n.
Proof.
  intros (Hl & _ & Hz & He)%UintN_Ok_inv Hn. split; [|done]. rewrite <- He. symmetry.
  apply take_ge. unfold len in Hn. lia.
Qed.

Lemma app_len_inj (a b a' b' : bytes) : a ++ b = a' ++ b' -> len a = len a' -> a = a' /\ b = b'.
Proof. unfold len. intros H Hl. apply app_inj_1 in H; [done|lia]. Qed.

(** The header and the lengths read from it. *)
Lemma header_split {E} (b s1 s2 s3 s4 b' : bytes) kv kl vl rl :
  @slice E byte b 0 4 = Ok s1 -> @Uint32 E s1 = Ok kv ->
  @slice E byte b 4 8 = Ok s2 -> @Uint32 E s2 = Ok kl ->
  @slice E byte b 8 12 = Ok s3 -> @Uint32 E s3 = Ok vl ->
  @slice E byte b 12 14 = Ok s4 -> @Uint16 E s4 = Ok rl ->
  @slice_from E byte b 14 = Ok b' ->
  b = PutUint32 kv ++ PutUint32 kl ++ PutUint32 vl ++ PutUint16 rl ++ b' /\
  0 <= kv < 2 ^ 32 /\ 0 <= kl < 2 ^ 32 /\ 0 <= vl < 2 ^ 32 /\ 0 <= rl < 2 ^ 16.
Proof.
  intros (p1 & t1 & E1 & P1 & L1)%slice_split U1 (p2 & t2 & E2 & P2 & L2)%slice_split U2
    (p3 & t3 & E3 & P3 & L3)%slice_split U3 (p4 & t4 & E4 & P4 & L4)%slice_split U4
    (_ & E5 & L5)%slice_from_Ok_inv.
  apply Uint_split in U1 as [-> ?]; [|done]. apply Uint_split in U2 as [-> ?]; [|done].
  apply Uint_split in U3 as [-> ?]; [|done]. apply Uint_split in U4 as [-> ?]; [|done].
  split; [|lia].
  assert (p1 = []) as -> by (destruct p1; [done|]; unfold len in P1; simpl in P1; lia).
  cbn [app] in E1. fold (PutUint32 kv) (PutUint32 kl) (PutUint32 vl) (PutUint16 rl) in *.
  subst b. apply app_len_inj in E2 as [<- E2]; [|lia]. rewrite E2 in *.
  rewrite app_assoc in E3. apply app_len_inj in E3 as [<- E3]; [|rewrite len_app; lia]. rewrite E3 in *.
  rewrite app_assoc, (app_assoc (_ ++ _)) in E4.
  apply app_len_inj in E4 as [<- E4]; [|rewrite !len_app; lia]. rewrite E4 in *.
  rewrite E5. rewrite !app_assoc. rewrite drop_app_length'; [done|].
  rewrite !length_app. unfold PutUint32, PutUint16. rewrite !length_be_encode. lia.
Qed.

(** Whatever the reader accepts has the format of the cell it returns. *)
Lemma cellFromCellBlock_sound b c l :
  len b < 2 ^ 32 -> cellFromCellBlock b = Ok (c, l) ->
  exists row family qualifier value ts typ rest,
    c = cell_of row family qualifier value ts typ /\
    b = cell_layout row family qualifier value ts typ ++ rest /\
    cell_fits row family qualifier value ts /\
    l = cellblockLen (len row) (len family) (len qualifier) (len value).
Proof.
  intros Hb H. unfold cellFromCellBlock in H. do 3 (case_bool_decide; [done|]; ok_inv).
  rename r8 into row, r12 into family, r14 into qualifier, r21 into value, r17 into ts, r19 into typ.
  destruct (header_split b _ _ _ _ r7 r0 r2 r4 r6 Hr Hr0 Hr1 Hr2 Hr3 Hr4 Hr5 Hr6 Hr7)
    as (Eb & Hkv & Hkl & Hvl & Hrl).
  destruct (cut_split _ _ _ _ Hr8 Hr9) as [E7 Lrow]. apply (head_split r9 r11 r10) in Hr10; [|done].
  destruct (cut_split _ _ _ _ Hr12 Hr13) as [E11 Lfam]. destruct (cut_split _ _ _ _ Hr14 Hr15) as [E13 Lq].
  destruct (cut_split _ _ _ _ Hr16 Hr18) as [E15 Lts]. apply (head_split r18 r20 typ) in Hr19; [|done].
  apply Uint_split in Hr17 as [Ets Hts]; [|done].
  apply slice_to_Ok_inv in Hr21 as (Hvalue & Ev & Lv).
  set (rest := drop (Z.to_nat r4) r20).
  assert (r20 = value ++ rest) as E20 by (unfold rest; rewrite Ev; by rewrite take_drop).
  set (q := u32 (r2 - r6 - Z_of_byte r10 - 2 - 1 - 8 - 1)) in *.
  assert (len b = 14 + r6 + 1 + Z_of_byte r10 + q + 8 + 1 + r4 + len rest) as Hlen.
  { rewrite Eb, E7, Hr10, E11, E13, E15, Hr19, E20.
    unfold PutUint32, PutUint16. repeat rewrite ?len_app, ?len_cons, ?len_be_encode. lia. }
  pose proof (Z_of_byte_range r10) as Hfam. pose proof (len_nonneg rest).
  assert (0 <= q < 2 ^ 32) as Hq by (apply Z.mod_pos_bound; lia).
  assert (r2 = 2 + r6 + 1 + Z_of_byte r10 + q + 8 + 1) as E2.
  { pose proof (Z.div_mod (r2 - r6 - Z_of_byte r10 - 2 - 1 - 8 - 1) (2 ^ 32) ltac:(lia)) as Hd.
    fold (u32 (r2 - r6 - Z_of_byte r10 - 2 - 1 - 8 - 1)) in Hd. fold q in Hd. lia. }
  unfold u32 in H2, H3. rewrite Z.mod_small in H2 by lia. rewrite Z.mod_small in H3 by lia.
  exists row, family, qualifier, value, ts, typ, rest. unfold cell_fits, cellblockLen, cell_layout.
  rewrite Lrow, Lfam, Lq, Lv. split_and!; [done| |lia..].
  rewrite Eb, E7, Hr10, E11, E13, E15, Hr19, E20, Ets, byte_of_Z_of_byte. unfold PutUint64.
  rewrite <- E2, <- !app_assoc. replace (8 + r2 + r4) with r0 by lia. done.
Qed.

(** ** Sequences of cells *)

Definition encode_cell (c : Cell) : bytes :=
  cell_layout (Row c) (Family c) (Qualifier c) (Value c) (default 0 (Timestamp c))
    (byte_of_Z (default 0 (CellType c))).

(** A cell that the format can carry. *)
Record cell_ok (c : Cell) : Prop := {
  cell_ok_ts : is_Some (Timestamp c);
  cell_ok_type : exists typ, CellType c = Some (Z_of_byte typ);
  cell_ok_fits : cell_fits (Row c) (Family c) (Qualifier c) (Value c) (default 0 (Timestamp c));
}.

Definition encode_cells (cs : list Cell) : bytes := concat (encode_cell <$> cs).

Lemma cell_of_encode c :
  cell_ok c ->
  cell_of (Row c) (Family c) (Qualifier c) (Value c) (default 0 (Timestamp c))
    (byte_of_Z (default 0 (CellType c))) = c.
Proof.
  intros [[ts Hts] [typ Htyp] _]. destruct c. simpl in *. subst.
  unfold cell_of. simpl. by rewrite byte_of_Z_of_byte.
Qed.

Lemma cellFromCellBlock_encode c rest :
  cell_ok c -> cellFromCellBlock (encode_cell c ++ rest) = Ok (c, len (encode_cell c)).
Proof.
  intros Hc. unfold encode_cell. rewrite cellFromCellBlock_layout by apply Hc.
  by rewrite len_cell_layout, cell_of_encode.
Qed.

Lemma cellFromCellBlock_Ok b c l :
  len b < 2 ^ 32 -> cellFromCellBlock b = Ok (c, l) ->
  cell_ok c /\ l = len (encode_cell c) /\ exists rest, b = encode_cell c ++ rest.
Proof.
  intros Hb H. destruct (cellFromCellBlock_sound b c l Hb H) as
    (row & family & qualifier & value & ts & typ & rest & -> & -> & Hfits & ->).
  unfold encode_cell, cell_of. simpl. rewrite byte_of_Z_of_byte, len_cell_layout.
  split_and!; [|done|by exists rest]. split; simpl; eauto.
Qed.

Lemma encode_cells_cons c cs : encode_cells (c :: cs) = encode_cell c ++ encode_cells cs.
Proof. done. Qed.

Lemma deserialize_loop_encode cs b rest acc :
  Forall cell_ok cs -> len b + len (encode_cells cs) < 2 ^ 32 ->
  deserialize_loop (length cs) (b ++ encode_cells cs ++ rest) (len b) acc
  = Ok (acc ++ cs, len b + len (encode_cells cs)).
Proof.
  intros Hcs. revert b acc. induction Hcs as [|c cs Hc _ IH]; intros b acc Hlen.
  { unfold encode_cells, len. simpl. by rewrite app_nil_r, Z.add_0_r. }
  cbn [length deserialize_loop]. rewrite encode_cells_cons, len_app in *.
  rewrite slice_suffix by done. cbn [obind]. rewrite <- app_assoc.
  rewrite cellFromCellBlock_encode by done. cbn [map_err obind].
  pose proof (len_nonneg b). pose proof (len_nonneg (encode_cell c)). pose proof (len_nonneg (encode_cells cs)).
  unfold u32. rewrite Z.mod_small by lia.
  rewrite (app_assoc b), <- len_app, IH by (rewrite len_app; lia).
  rewrite <- app_assoc, !len_app. cbn [app]. do 2 f_equal. lia.
Qed.

Lemma deserialize_loop_Ok n b readLen acc cs l :
  0 <= readLen -> len b < 2 ^ 32 ->
  deserialize_loop n b readLen acc = Ok (cs, l) ->
  exists new rest, cs = acc ++ new /\ length new = n /\ Forall cell_ok new /\
    l = readLen + len (encode_cells new) /\
    (new = [] \/ drop (Z.to_nat readLen) b = encode_cells new ++ rest).
Proof.
  intros Hr Hb. revert readLen acc Hr. induction n as [|n IH]; intros readLen acc Hr H; simpl in H.
  { injection H as <- <-. exists [], []. rewrite app_nil_r. split_and!; try done.
    - unfold encode_cells, len. simpl. lia.
    - by left. }
  ok_inv. destruct r0 as [c l1]. apply slice_from_Ok_inv in Hr0 as (Hle & -> & Hlen).
  apply cellFromCellBlock_Ok in Hr1 as (Hc & -> & rest & Hrest); [|lia].
  pose proof (len_nonneg rest) as Hrn. pose proof (len_nonneg (encode_cell c)) as Hcn.
  assert (len (drop (Z.to_nat readLen) b) = len (encode_cell c) + len rest) as Hl
    by (by rewrite Hrest, len_app).
  unfold u32 in H. rewrite Z.mod_small in H by lia.
  apply IH in H as (new & rest' & -> & <- & Hnew & -> & Hcase); [|lia].
  exists (c :: new), (if decide (new = []) then rest else rest').
  rewrite encode_cells_cons, len_app.
  split_and!; [by rewrite <- app_assoc|done|by constructor|lia|right].
  rewrite Hrest, <- app_assoc. f_equal. case_decide as Hd; [by subst|].
  destruct Hcase as [?|Hcase]; [done|]. rewrite <- Hcase.
  replace (Z.to_nat (readLen + len (encode_cell c)))
    with (Z.to_nat readLen + length (encode_cell c))%nat by (unfold len in *; lia).
  by rewrite <- drop_drop, Hrest, drop_app_length.
Qed.

(** ** What the codec guarantees *)

(** A cell written by [appendCellblock] after any bytes is read back by
    [cellFromCellBlock], whatever follows it, with its row, family, qualifier,
    timestamp, type and value, and with the length of its block, which is the
    one [cellblockLen] announces; the bytes already in the buffer are kept. *)
Theorem appendCellblock_read_back {E} row family qualifier value ts typ cbs rest :
  cell_fits row family qualifier value ts ->
  exists block, @appendCellblock E row family qualifier value ts typ cbs = Ok (cbs ++ block) /\
    len block = cellblockLen (len row) (len family) (len qualifier) (len value) /\
    cellFromCellBlock (block ++ rest)
    = Ok (mkCell row family qualifier (Some ts) (Some (Z_of_byte typ)) value, len block).
Proof.
  intros Hfits. exists (cell_layout row family qualifier value ts typ).
  rewrite appendCellblock_layout, len_cell_layout, cellFromCellBlock_layout by done. done.
Qed.

Lemma appendCellblock_read_back_witness :
  exists block, @appendCellblock Empty_set (bs "r") (bs "cf") (bs "q") (bs "v") 5 x04 [xff] = Ok (xff :: block) /\
    cellFromCellBlock (block ++ [x00])
    = Ok (mkCell (bs "r") (bs "cf") (bs "q") (Some 5) (Some 4) (bs "v"), len block).
Proof.
  destruct (@appendCellblock_read_back Empty_set (bs "r") (bs "cf") (bs "q") (bs "v") 5 x04 [xff] [x00])
    as (block & H1 & _ & H2).
  { unfold cell_fits. vm_compute. repeat split; discriminate || reflexivity. }
  exists block. split; [exact H1|exact H2].
Defined.

(** C15. What [deserializeCellBlocks] accepts, in a buffer below 4 GiB, is the
    encoding of exactly the announced number of cells: re-encoding the cells
    gives the bytes consumed, the length reported is theirs, and the rest of
    the buffer was not looked at. *)
Theorem deserializeCellBlocks_exact b n cells l :
  len b < 2 ^ 32 -> 0 <= n -> deserializeCellBlocks b n = Ok (cells, l) ->
  len cells = n /\ Forall cell_ok cells /\ l = len (encode_cells cells) /\
  encode_cells cells `prefix_of` b.
Proof.
  intros Hb Hn H. apply deserialize_loop_Ok in H as (new & rest & -> & Hlen & Hok & -> & Hcase);
    [|done..].
  cbn [app]. split_and!; [unfold len in *; lia|done|done|].
  destruct Hcase as [->|Hrest]; [exists b; done|]. exists rest. by rewrite drop_0 in Hrest.
Qed.

Definition sample_cells : list Cell :=
  [mkCell (bs "r") (bs "cf") (bs "a") (Some 1) (Some 4) (bs "x");
   mkCell (bs "r") (bs "cf") (bs "b") (Some 2) (Some 4) []].

Lemma deserializeCellBlocks_exact_witness :
  exists cells l, deserializeCellBlocks (encode_cells sample_cells ++ [x00]) 2 = Ok (cells, l) /\
    cells = sample_cells /\ encode_cells cells `prefix_of` (encode_cells sample_cells ++ [x00]).
Proof.
  exists sample_cells, (len (encode_cells sample_cells)).
  assert (deserializeCellBlocks (encode_cells sample_cells ++ [x00]) 2
    = Ok (sample_cells, len (encode_cells sample_cells))) as H by (vm_compute; reflexivity).
  split; [exact H|]. split; [reflexivity|].
  apply (deserializeCellBlocks_exact _ 2 _ (len (encode_cells sample_cells))).
  - vm_compute. reflexivity.
  - lia.
  - exact H.
Defined.

(** Any list of cells the format can carry, encoded and followed by other
    bytes, is read back entirely and in order. *)
Theorem deserializeCellBlocks_roundtrip cells rest :
  Forall cell_ok cells -> len (encode_cells cells) < 2 ^ 32 ->
  deserializeCellBlocks (encode_cells cells ++ rest) (len cells)
  = Ok (cells, len (encode_cells cells)).
Proof.
  intros Hok Hlen. unfold deserializeCellBlocks, len at 1. rewrite Nat2Z.id.
  by apply (deserialize_loop_encode cells [] rest []).
Qed.

Lemma deserializeCellBlocks_roundtrip_witness :
  deserializeCellBlocks (encode_cells sample_cells ++ [xff]) 2
  = Ok (sample_cells, len (encode_cells sample_cells)).
Proof.
  apply (deserializeCellBlocks_roundtrip sample_cells [xff]).
  - repeat constructor; vm_compute; (reflexivity || discriminate || eauto);
      try (by exists x04).
  - vm_compute. reflexivity.
Defined.

(** A block whose length field is honest about the buffer but too small to
    hold the fixed header makes [cellFromCellBlock] panic instead of returning
    an error, whatever the bytes. *)
Theorem cellFromCellBlock_short_panics b :
  4 <= len b < 14 -> be_decode (take 4 b) + 4 <= len b -> cellFromCellBlock b = Panic.
Proof.
  intros Hb Hkv. unfold cellFromCellBlock. rewrite bool_decide_eq_false_2 by lia.
  assert (forall lo hi, 0 <= lo <= hi -> hi <= len b -> exists s, @slice cell_error _ b lo hi = Ok s /\ len s = hi - lo) as Hs.
  { intros lo hi H1 H2. unfold slice. rewrite !bool_decide_eq_true_2 by done. simpl.
    eexists. split; [done|]. unfold len in *. rewrite length_take, length_drop. lia. }
  assert (forall n s, len s = Z.of_nat n -> exists z, @UintN cell_error n s = Ok z) as Hu.
  { intros n s Hl. unfold UintN. rewrite bool_decide_eq_true_2 by lia. eauto. }
  replace (slice b 0 4) with (@Ok cell_error _ (take 4 b)); cbn [obind].
  2: { unfold slice. rewrite !bool_decide_eq_true_2 by lia. done. }
  unfold Uint32, Uint16. unfold UintN at 1. rewrite bool_decide_eq_true_2.
  2: { unfold len in *. rewrite length_take. lia. }
  cbn [obind]. rewrite take_take. simpl Nat.min. rewrite bool_decide_eq_false_2 by lia.
  assert (forall lo hi, len b < hi -> @slice cell_error _ b lo hi = Panic) as Hp.
  { intros lo hi H. unfold slice. rewrite (bool_decide_eq_false_2 (hi <= _)) by lia. by rewrite andb_false_r. }
  destruct (decide (8 <= len b)) as [H8|?]; [|by rewrite (Hp 4 8) by lia].
  destruct (Hs 4 8) as (s1 & -> & L1); [lia..|]. cbn [obind].
  destruct (Hu 4%nat s1) as (z1 & ->); [done|]. cbn [obind].
  destruct (decide (12 <= len b)) as [H12|?]; [|by rewrite (Hp 8 12) by lia].
  destruct (Hs 8 12) as (s2 & -> & L2); [lia..|]. cbn [obind].
  destruct (Hu 4%nat s2) as (z2 & ->); [done|]. cbn [obind].
  by rewrite (Hp 12 14) by lia.
Qed.

Lemma cellFromCellBlock_short_panics_witness : cellFromCellBlock [x00; x00; x00; x00] = Panic.
Proof. apply cellFromCellBlock_short_panics; vm_compute; repeat split; discriminate. Defined.
