(* ===== verification/Hrpc.v ===== *)
(** * The calls: hrpc/call.go, query.go, get.go, scan.go, mutate.go, checkandput.go

    A call carries the table, the row, the options it was built with and, once
    the client found it, its region.  The options of the package are closures
    that test the dynamic type of the call and set a field; here they are the
    constructors of [callOption] and [applyOption] is what the closures do.
    The context is an opaque handle; the result channel is part of the region
    client's model. *)

From S2P Require Import Prelude Pb RegionInfo CellBlocks.

(** Errors made with [errors.New] and [fmt.Errorf] are their text. *)
Abbreviation error := string.

(** ** call.go: the common part *)

Inductive ConsistencyType := DefaultConsistency | StrongConsistency | TimelineConsistency.

Inductive callOption :=
| OptSkipBatch
| OptFamilies (f : gmap bytes (list bytes))
| OptFilters (f : outcome error Filter)     (* what [f.ConstructPBFilter()] returns *)
| OptTimeRangeUint64 (from to : Z)
| OptMaxVersions (versions : Z)
| OptMaxResultsPerColumnFamily (maxresults : Z)
| OptResultOffset (offset : Z)
| OptCacheBlocks (cacheBlocks : bool)
| OptConsistency (consistency : ConsistencyType)
| OptScannerID (id : Z)
| OptCloseScanner
| OptMaxResultSize (n : Z)
| OptNumberOfRows (n : Z)
| OptAllowPartialResults
| OptReversed
| OptTTL (nanoseconds : Z)
| OptTimestamp (unixNano : Z)
| OptTimestampUint64 (ts : Z)
| OptDurability (d : Z)
| OptDeleteOneVersion.

(** [TimeRange(from, to time.Time)]: nanoseconds to milliseconds. *)
Definition OptTimeRange (from to : Z) : callOption :=
  OptTimeRangeUint64 (u64 (from ÷ 1000000)) (u64 (to ÷ 1000000)).

Record base := mkBase {
  b_ctx : nat;
  b_table : bytes;
  b_key : bytes;
  b_options : list callOption;
  b_region : option ptr;
}.

Definition set_options (o : list callOption) (b : base) : base :=
  mkBase (b_ctx b) (b_table b) (b_key b) o (b_region b).

Definition set_region (r : option ptr) (b : base) : base :=
  mkBase (b_ctx b) (b_table b) (b_key b) (b_options b) r.

Definition set_key (k : bytes) (b : base) : base :=
  mkBase (b_ctx b) (b_table b) k (b_options b) (b_region b).

(** [info] carries its own specifier, built from its name. *)
Definition regionSpecifier {E} (b : base) (h : heap) : outcome E RegionSpecifier :=
  match b_region b with
  | None => Panic
  | Some p => let* i := deref p h in Ok (mkRegionSpecifier REGION_NAME (r_name i))
  end.

Definition colon_byte : byte := x3a.

(** [bytes.Index(table, ":")] *)
Fixpoint indexColon (table : bytes) : option nat :=
  match table with
  | [] => None
  | c :: t => if bool_decide (c = colon_byte) then Some 0%nat else S <$> indexColon t
  end.

Definition parseTableName (table : bytes) : bytes * bytes :=
  match indexColon table with
  | Some i => (take i table, drop (S i) table)
  | None => (bs "default", table)
  end.

(** ** query.go *)

Definition MinTimestamp : Z := 0.
Definition MaxTimestamp : Z := MaxUint64.
Definition DefaultMaxVersions : Z := 1.
Definition DefaultMaxResultSize : Z := 2097152.
Definition DefaultNumberOfRows : Z := MaxInt32.
Definition DefaultMaxResultsPerColumnFamily : Z := MaxInt32.
Definition DefaultCacheBlocks : bool := true.

#[global] Instance ConsistencyType_eq_dec : EqDecision ConsistencyType.
Proof. solve_decision. Defined.

Definition Consistency_toProto {E} (c : ConsistencyType) : outcome E PbConsistency :=
  match c with
  | TimelineConsistency => Ok TIMELINE
  | StrongConsistency => Ok STRONG
  | DefaultConsistency => Panic
  end.

Record baseQuery := mkBaseQuery {
  q_families : gmap bytes (list bytes);
  q_filter : option Filter;
  q_fromTimestamp : Z;
  q_toTimestamp : Z;
  q_maxVersions : Z;
  q_storeLimit : Z;
  q_storeOffset : Z;
  q_cacheBlocks : bool;
  q_consistency : ConsistencyType;
}.

Definition newBaseQuery : baseQuery :=
  mkBaseQuery ∅ None MinTimestamp MaxTimestamp DefaultMaxVersions DefaultMaxResultsPerColumnFamily 0
    DefaultCacheBlocks DefaultConsistency.

Definition setFamilies (f : gmap bytes (list bytes)) (q : baseQuery) : baseQuery :=
  mkBaseQuery f (q_filter q) (q_fromTimestamp q) (q_toTimestamp q) (q_maxVersions q)
    (q_storeLimit q) (q_storeOffset q) (q_cacheBlocks q) (q_consistency q).

Definition setFilter (f : Filter) (q : baseQuery) : baseQuery :=
  mkBaseQuery (q_families q) (Some f) (q_fromTimestamp q) (q_toTimestamp q) (q_maxVersions q)
    (q_storeLimit q) (q_storeOffset q) (q_cacheBlocks q) (q_consistency q).

Definition setTimeRangeUint64 (from to : Z) (q : baseQuery) : baseQuery :=
  mkBaseQuery (q_families q) (q_filter q) from to (q_maxVersions q)
    (q_storeLimit q) (q_storeOffset q) (q_cacheBlocks q) (q_consistency q).

Definition setMaxVersions (v : Z) (q : baseQuery) : baseQuery :=
  mkBaseQuery (q_families q) (q_filter q) (q_fromTimestamp q) (q_toTimestamp q) v
    (q_storeLimit q) (q_storeOffset q) (q_cacheBlocks q) (q_consistency q).

Definition setMaxResultsPerColumnFamily (n : Z) (q : baseQuery) : baseQuery :=
  mkBaseQuery (q_families q) (q_filter q) (q_fromTimestamp q) (q_toTimestamp q) (q_maxVersions q)
    n (q_storeOffset q) (q_cacheBlocks q) (q_consistency q).

Definition setResultOffset (n : Z) (q : baseQuery) : baseQuery :=
  mkBaseQuery (q_families q) (q_filter q) (q_fromTimestamp q) (q_toTimestamp q) (q_maxVersions q)
    (q_storeLimit q) n (q_cacheBlocks q) (q_consistency q).

Definition setCacheBlocks (b : bool) (q : baseQuery) : baseQuery :=
  mkBaseQuery (q_families q) (q_filter q) (q_fromTimestamp q) (q_toTimestamp q) (q_maxVersions q)
    (q_storeLimit q) (q_storeOffset q) b (q_consistency q).

Definition setConsistency (c : ConsistencyType) (q : baseQuery) : baseQuery :=
  mkBaseQuery (q_families q) (q_filter q) (q_fromTimestamp q) (q_toTimestamp q) (q_maxVersions q)
    (q_storeLimit q) (q_storeOffset q) (q_cacheBlocks q) c.

(** ** The calls *)

Record Get := mkGet {
  g_base : base;
  g_query : baseQuery;
  g_existsOnly : bool;
  g_skipbatch : bool;
}.

Record Scan := mkScan {
  s_base : base;
  s_query : baseQuery;
  s_startRow : bytes;
  s_stopRow : bytes;
  s_scannerID : Z;
  s_maxResultSize : Z;
  s_numberOfRows : Z;
  s_reversed : bool;
  s_closeScanner : bool;
  s_allowPartialResults : bool;
}.

(** A map from families to a map (perhaps nil) from qualifiers to values. *)
Record Mutate := mkMutate {
  m_base : base;
  m_mutationType : MutationType;
  m_values : gmap bytes (option (gmap bytes bytes));
  m_ttl : bytes;
  m_timestamp : Z;
  m_durability : Z;
  m_deleteOneVersion : bool;
  m_skipbatch : bool;
}.

Record CheckAndPut := mkCheckAndPut {
  cp_mutate : Mutate;
  cp_family : bytes;
  cp_qualifier : bytes;
  cp_comparator : Comparator;
}.

(** [CallOther] is any other call: it has a [base] and none of the interfaces. *)
Inductive call :=
| CallGet (g : Get)
| CallScan (s : Scan)
| CallMutate (m : Mutate)
| CallCheckAndPut (cp : CheckAndPut)
| CallOther (b : base) (name : string).

Definition Get_setQuery (f : baseQuery -> baseQuery) (g : Get) : Get :=
  mkGet (g_base g) (f (g_query g)) (g_existsOnly g) (g_skipbatch g).

Definition Scan_setQuery (f : baseQuery -> baseQuery) (s : Scan) : Scan :=
  mkScan (s_base s) (f (s_query s)) (s_startRow s) (s_stopRow s) (s_scannerID s) (s_maxResultSize s)
    (s_numberOfRows s) (s_reversed s) (s_closeScanner s) (s_allowPartialResults s).

Definition call_base (c : call) : base :=
  match c with
  | CallGet g => g_base g
  | CallScan s => s_base s
  | CallMutate m => m_base m
  | CallCheckAndPut cp => m_base (cp_mutate cp)
  | CallOther b _ => b
  end.

Definition Mutate_setBase (f : base -> base) (m : Mutate) : Mutate :=
  mkMutate (f (m_base m)) (m_mutationType m) (m_values m) (m_ttl m) (m_timestamp m) (m_durability m)
    (m_deleteOneVersion m) (m_skipbatch m).

Definition Scan_setBase (f : base -> base) (s : Scan) : Scan :=
  mkScan (f (s_base s)) (s_query s) (s_startRow s) (s_stopRow s) (s_scannerID s) (s_maxResultSize s)
    (s_numberOfRows s) (s_reversed s) (s_closeScanner s) (s_allowPartialResults s).

Definition call_setBase (f : base -> base) (c : call) : call :=
  match c with
  | CallGet g => CallGet (mkGet (f (g_base g)) (g_query g) (g_existsOnly g) (g_skipbatch g))
  | CallScan s => CallScan (Scan_setBase f s)
  | CallMutate m => CallMutate (Mutate_setBase f m)
  | CallCheckAndPut cp =>
      CallCheckAndPut (mkCheckAndPut (Mutate_setBase f (cp_mutate cp)) (cp_family cp) (cp_qualifier cp)
        (cp_comparator cp))
  | CallOther b n => CallOther (f b) n
  end.

(** [hrpc.Batchable]: implemented by [Get], by [Mutate], and by [CheckAndPut],
    which embeds a [Mutate]. *)
Definition setSkipBatch (v : bool) (c : call) : option call :=
  match c with
  | CallGet g => Some (CallGet (mkGet (g_base g) (g_query g) (g_existsOnly g) v))
  | CallMutate m =>
      Some (CallMutate (mkMutate (m_base m) (m_mutationType m) (m_values m) (m_ttl m) (m_timestamp m)
        (m_durability m) (m_deleteOneVersion m) v))
  | CallCheckAndPut cp =>
      let m := cp_mutate cp in
      Some (CallCheckAndPut (mkCheckAndPut (mkMutate (m_base m) (m_mutationType m) (m_values m) (m_ttl m)
        (m_timestamp m) (m_durability m) (m_deleteOneVersion m) v) (cp_family cp) (cp_qualifier cp)
        (cp_comparator cp)))
  | _ => None
  end.

Definition SkipBatch (c : call) : option bool :=
  match c with
  | CallGet g => Some (g_skipbatch g)
  | CallMutate m => Some (m_skipbatch m)
  | CallCheckAndPut cp => Some (m_skipbatch (cp_mutate cp))
  | _ => None
  end.

(** ** The options *)

(** [if c, ok := hc.(hasQueryOptions); ok]: [Get] and [Scan] embed [baseQuery]. *)
Definition on_query (f : baseQuery -> outcome error baseQuery) (e : error) (c : call)
    : outcome error call :=
  match c with
  | CallGet g => let* q := f (g_query g) in Ok (CallGet (Get_setQuery (fun _ => q) g))
  | CallScan s => let* q := f (s_query s) in Ok (CallScan (Scan_setQuery (fun _ => q) s))
  | _ => Err e
  end.

Definition applyQueryOption (o : callOption) (c : call) : outcome error call :=
  match o with
  | OptFamilies f =>
      on_query (fun q => Ok (setFamilies f q))
        "'Families' option can only be used with Get or Scan request" c
  | OptFilters f =>
      on_query (fun q => let* pbF := f in Ok (setFilter pbF q))
        "'Filters' option can only be used with Get or Scan request" c
  | OptTimeRangeUint64 from to =>
      on_query (fun q =>
          if bool_decide (from >= to) then
            Err "'from' timestamp is greater or equal to 'to' timestamp"%string
          else Ok (setTimeRangeUint64 from to q))
        "'TimeRange' option can only be used with Get or Scan request" c
  | OptMaxVersions versions =>
      on_query (fun q =>
          if bool_decide (versions > MaxInt32) then
            Err "'MaxVersions' exceeds supported number of versions"%string
          else Ok (setMaxVersions versions q))
        "'MaxVersions' option can only be used with Get or Scan request" c
  | OptMaxResultsPerColumnFamily maxresults =>
      on_query (fun q =>
          if bool_decide (maxresults > MaxInt32) then
            Err "'MaxResultsPerColumnFamily' exceeds supported number of value results"%string
          else Ok (setMaxResultsPerColumnFamily maxresults q))
        "'MaxResultsPerColumnFamily' option can only be used with Get or Scan request" c
  | OptResultOffset offset =>
      on_query (fun q =>
          if bool_decide (offset > MaxInt32) then
            Err "'ResultOffset' exceeds supported offset value"%string
          else Ok (setResultOffset offset q))
        "'ResultOffset' option can only be used with Get or Scan request" c
  | OptCacheBlocks b =>
      on_query (fun q => Ok (setCacheBlocks b q))
        "'CacheBlocks' option can only be used with Get or Scan request" c
  | OptConsistency consistency =>
      on_query (fun q => Ok (setConsistency consistency q))
        "'Consistency' option can only be used with Get or Scan requests" c
  | _ => Ok c
  end.

Definition on_scan (f : Scan -> outcome error Scan) (e : error) (c : call) : outcome error call :=
  match c with
  | CallScan s => let* s := f s in Ok (CallScan s)
  | _ => Err e
  end.

Definition applyScanOption (o : callOption) (c : call) : outcome error call :=
  match o with
  | OptScannerID id =>
      on_scan (fun s => Ok (mkScan (s_base s) (s_query s) (s_startRow s) (s_stopRow s) id
          (s_maxResultSize s) (s_numberOfRows s) (s_reversed s) (s_closeScanner s)
          (s_allowPartialResults s)))
        "'ScannerID' option can only be used with Scan queries" c
  | OptCloseScanner =>
      on_scan (fun s => Ok (mkScan (s_base s) (s_query s) (s_startRow s) (s_stopRow s) (s_scannerID s)
          (s_maxResultSize s) (s_numberOfRows s) (s_reversed s) true (s_allowPartialResults s)))
        "'Close' option can only be used with Scan queries" c
  | OptMaxResultSize n =>
      on_scan (fun s =>
          if bool_decide (n = 0) then Err "'MaxResultSize' option must be greater than 0"%string
          else Ok (mkScan (s_base s) (s_query s) (s_startRow s) (s_stopRow s) (s_scannerID s)
            n (s_numberOfRows s) (s_reversed s) (s_closeScanner s) (s_allowPartialResults s)))
        "'MaxResultSize' option can only be used with Scan queries" c
  | OptNumberOfRows n =>
      on_scan (fun s => Ok (mkScan (s_base s) (s_query s) (s_startRow s) (s_stopRow s) (s_scannerID s)
          (s_maxResultSize s) n (s_reversed s) (s_closeScanner s) (s_allowPartialResults s)))
        "'NumberOfRows' option can only be used with Scan queries" c
  | OptAllowPartialResults =>
      on_scan (fun s => Ok (mkScan (s_base s) (s_query s) (s_startRow s) (s_stopRow s) (s_scannerID s)
          (s_maxResultSize s) (s_numberOfRows s) (s_reversed s) (s_closeScanner s) true))
        "'AllowPartialResults' option can only be used with Scan queries" c
  | OptReversed =>
      on_scan (fun s => Ok (mkScan (s_base s) (s_query s) (s_startRow s) (s_stopRow s) (s_scannerID s)
          (s_maxResultSize s) (s_numberOfRows s) true (s_closeScanner s) (s_allowPartialResults s)))
        "'Reversed' option can only be used with Scan queries" c
  | _ => Ok c
  end.

Definition on_mutate (f : Mutate -> outcome error Mutate) (e : error) (c : call) : outcome error call :=
  match c with
  | CallMutate m => let* m := f m in Ok (CallMutate m)
  | _ => Err e
  end.

(** [UseDefault] to [FsyncWal] *)
Definition UseDefault : Z := 0.
Definition FsyncWal : Z := 4.

Definition applyMutateOption (o : callOption) (c : call) : outcome error call :=
  match o with
  | OptTTL t =>
      on_mutate (fun m => Ok (mkMutate (m_base m) (m_mutationType m) (m_values m)
          (PutUint64 (u64 (t ÷ 1000000))) (m_timestamp m) (m_durability m) (m_deleteOneVersion m)
          (m_skipbatch m)))
        "'TTL' option can only be used with mutation queries" c
  | OptTimestamp ts =>
      on_mutate (fun m => Ok (mkMutate (m_base m) (m_mutationType m) (m_values m) (m_ttl m)
          (u64 (ts ÷ 1000000)) (m_durability m) (m_deleteOneVersion m) (m_skipbatch m)))
        "'Timestamp' option can only be used with mutation queries" c
  | OptTimestampUint64 ts =>
      on_mutate (fun m => Ok (mkMutate (m_base m) (m_mutationType m) (m_values m) (m_ttl m)
          ts (m_durability m) (m_deleteOneVersion m) (m_skipbatch m)))
        "'TimestampUint64' option can only be used with mutation queries" c
  | OptDurability d =>
      on_mutate (fun m =>
          if bool_decide (d < UseDefault) || bool_decide (d > FsyncWal) then
            Err "invalid durability value"%string
          else Ok (mkMutate (m_base m) (m_mutationType m) (m_values m) (m_ttl m)
            (m_timestamp m) d (m_deleteOneVersion m) (m_skipbatch m)))
        "'Durability' option can only be used with mutation queries" c
  | OptDeleteOneVersion =>
      on_mutate (fun m => Ok (mkMutate (m_base m) (m_mutationType m) (m_values m) (m_ttl m)
          (m_timestamp m) (m_durability m) true (m_skipbatch m)))
        "'DeleteOneVersion' option can only be used with mutation queries" c
  | _ => Ok c
  end.

Definition applySkipBatch (c : call) : outcome error call :=
  match setSkipBatch true c with
  | Some c => Ok c
  | None => Err "'SkipBatch' option only works with Get and Mutate requests"%string
  end.

(** The closure an option stands for. *)
Definition applyOption (o : callOption) (c : call) : outcome error call :=
  match o with
  | OptSkipBatch => applySkipBatch c
  | OptFamilies _ | OptFilters _ | OptTimeRangeUint64 _ _ | OptMaxVersions _
  | OptMaxResultsPerColumnFamily _ | OptResultOffset _ | OptCacheBlocks _ | OptConsistency _ =>
      applyQueryOption o c
  | OptScannerID _ | OptCloseScanner | OptMaxResultSize _ | OptNumberOfRows _
  | OptAllowPartialResults | OptReversed => applyScanOption o c
  | _ => applyMutateOption o c
  end.

Fixpoint apply_loop (options : list callOption) (c : call) : outcome error call :=
  match options with
  | [] => Ok c
  | o :: os => let* c := applyOption o c in apply_loop os c
  end.

Definition applyOptions (c : call) (options : list callOption) : outcome error call :=
  apply_loop options (call_setBase (set_options options) c).

(** ** get.go *)

Definition baseGet (ctx : nat) (table key : bytes) (options : list callOption) : outcome error Get :=
  let g := mkGet (mkBase ctx table key [] None) newBaseQuery false false in
  let* c := applyOptions (CallGet g) options in
  match c with CallGet g => Ok g | _ => Panic end.

Definition NewGet := baseGet.

Definition ExistsOnly (g : Get) : Get := mkGet (g_base g) (g_query g) true (g_skipbatch g).

Section ToProto.
Context `{RangeOrder}.

Definition familiesToColumn (site : list nat) (families : gmap bytes (list bytes)) : list Column :=
  (fun fq => mkColumn fq.1 fq.2) <$> range site families.

(** [if f != default { p = &f }] *)
Definition unless {A} `{EqDecision A} (dflt f : A) : option A :=
  if bool_decide (f = dflt) then None else Some f.

Definition queryConsistency {E} (c : ConsistencyType) : outcome E (option PbConsistency) :=
  if bool_decide (c = DefaultConsistency) then Ok None
  else let* p := Consistency_toProto c in Ok (Some p).

Definition Get_ToProto {E} (site : list nat) (g : Get) (h : heap) : outcome E GetRequest :=
  let q := g_query g in
  let* region := regionSpecifier (g_base g) h in
  let* consistency := queryConsistency (q_consistency q) in
  Ok (mkGetRequest region (mkPbGet
    (b_key (g_base g))
    (familiesToColumn site (q_families q))
    (q_filter q)
    (mkTimeRange (unless MinTimestamp (q_fromTimestamp q)) (unless MaxTimestamp (q_toTimestamp q)))
    (unless DefaultMaxVersions (q_maxVersions q))
    (unless DefaultCacheBlocks (q_cacheBlocks q))
    (unless DefaultMaxResultsPerColumnFamily (q_storeLimit q))
    (unless 0 (q_storeOffset q))
    (if g_existsOnly g then Some true else None)
    consistency)).

(** ** scan.go *)

Definition baseScan (ctx : nat) (table : bytes) (options : list callOption) : outcome error Scan :=
  let s := mkScan (mkBase ctx table [] [] None) newBaseQuery [] [] MaxUint64 DefaultMaxResultSize
             DefaultNumberOfRows false false false in
  let* c := applyOptions (CallScan s) options in
  match c with CallScan s => Ok s | _ => Panic end.

Definition NewScan := baseScan.

Definition NewScanRange (ctx : nat) (table startRow stopRow : bytes) (options : list callOption)
    : outcome error Scan :=
  let* s := baseScan ctx table options in
  Ok (mkScan (set_key startRow (s_base s)) (s_query s) startRow stopRow (s_scannerID s)
    (s_maxResultSize s) (s_numberOfRows s) (s_reversed s) (s_closeScanner s) (s_allowPartialResults s)).

Definition NewScanStr (ctx : nat) (table : string) := NewScan ctx (bs table).
Definition NewScanRangeStr (ctx : nat) (table startRow stopRow : string) :=
  NewScanRange ctx (bs table) (bs startRow) (bs stopRow).

Definition Scan_ToProto {E} (site : list nat) (s : Scan) (h : heap) : outcome E ScanRequest :=
  let q := s_query s in
  let* region := regionSpecifier (s_base s) h in
  let scan p id := mkScanRequest region p id (Some (s_numberOfRows s)) (Some (s_closeScanner s))
    (Some true) (Some true) in
  if bool_decide (s_scannerID s <> MaxUint64) then Ok (scan None (Some (s_scannerID s)))
  else
    let* consistency := queryConsistency (q_consistency q) in
    Ok (scan (Some (mkPbScan
      (familiesToColumn site (q_families q))
      (s_startRow s)
      (s_stopRow s)
      (q_filter q)
      (mkTimeRange (unless MinTimestamp (q_fromTimestamp q)) (unless MaxTimestamp (q_toTimestamp q)))
      (unless DefaultMaxVersions (q_maxVersions q))
      (unless DefaultCacheBlocks (q_cacheBlocks q))
      (Some (s_maxResultSize s))
      (unless DefaultMaxResultsPerColumnFamily (q_storeLimit q))
      (unless 0 (q_storeOffset q))
      (if s_reversed s then Some true else None)
      consistency)) None).

End ToProto.

(** ** What the options guarantee *)

Definition query_ok (q : baseQuery) : Prop :=
  q_fromTimestamp q < q_toTimestamp q /\ q_maxVersions q <= MaxInt32 /\
  q_storeLimit q <= MaxInt32 /\ q_storeOffset q <= MaxInt32.

Definition call_ok (c : call) : Prop :=
  match c with
  | CallGet g => query_ok (g_query g)
  | CallScan s => query_ok (s_query s) /\ s_maxResultSize s <> 0
  | CallMutate m => UseDefault <= m_durability m <= FsyncWal
  | _ => True
  end.

(** What no option touches. *)
Definition call_fixed (c : call) : base * option (bytes * bytes) * option (MutationType * gmap bytes (option (gmap bytes bytes))) :=
  (call_base c,
   match c with CallScan s => Some (s_startRow s, s_stopRow s) | _ => None end,
   match c with CallMutate m => Some (m_mutationType m, m_values m) | _ => None end).

Definition call_kind (c : call) : nat :=
  match c with CallGet _ => 0 | CallScan _ => 1 | CallMutate _ => 2 | CallCheckAndPut _ => 3 | CallOther _ _ => 4 end.

Lemma newBaseQuery_ok : query_ok newBaseQuery.
Proof. done. Qed.

Lemma on_query_ok f e c c' :
  on_query f e c = Ok c' -> (forall q q', f q = Ok q' -> query_ok q -> query_ok q') ->
  call_ok c -> call_ok c' /\ call_fixed c' = call_fixed c /\ call_kind c' = call_kind c.
Proof.
  intros H Hf Hc. destruct c; simpl in *; try done; ok_inv; subst c'; simpl; split_and!; try done.
  - by eapply Hf.
  - eapply Hf; [done|]. tauto.
  - tauto.
Qed.

Lemma on_scan_ok f e c c' :
  on_scan f e c = Ok c' ->
  (forall s s', f s = Ok s' -> s_query s' = s_query s /\ s_base s' = s_base s /\
     s_startRow s' = s_startRow s /\ s_stopRow s' = s_stopRow s /\
     (s_maxResultSize s <> 0 -> s_maxResultSize s' <> 0)) ->
  call_ok c -> call_ok c' /\ call_fixed c' = call_fixed c /\ call_kind c' = call_kind c.
Proof.
  intros H Hf Hc. destruct c as [|s| | |]; simpl in *; try done. ok_inv. subst c'. unfold call_fixed. simpl.
  destruct (Hf _ _ Hr) as (-> & -> & -> & -> & ?). tauto.
Qed.

Lemma on_mutate_ok f e c c' :
  on_mutate f e c = Ok c' ->
  (forall m m', f m = Ok m' -> m_base m' = m_base m /\ m_mutationType m' = m_mutationType m /\
     m_values m' = m_values m /\
     (UseDefault <= m_durability m <= FsyncWal -> UseDefault <= m_durability m' <= FsyncWal)) ->
  call_ok c -> call_ok c' /\ call_fixed c' = call_fixed c /\ call_kind c' = call_kind c.
Proof.
  intros H Hf Hc. destruct c as [| |m| |]; simpl in *; try done. ok_inv. subst c'. unfold call_fixed. simpl.
  destruct (Hf _ _ Hr) as (-> & -> & -> & ?). tauto.
Qed.

(** Close a side condition of the three lemmas: one option's closure. *)
Ltac closure_tac :=
  let Hf := fresh "Hf" in
  intros ? ? Hf; cbv beta in Hf; try (case_bool_decide; [done|]); ok_inv; subst; unfold query_ok; simpl; intuition lia.

Lemma applyOption_ok o c c' :
  applyOption o c = Ok c' -> call_ok c ->
  call_ok c' /\ call_fixed c' = call_fixed c /\ call_kind c' = call_kind c.
Proof.
  intros H Hc. destruct o; simpl in H; clear -H Hc;
    try (eapply on_query_ok; [exact H|closure_tac|done]);
    try (eapply on_scan_ok; [exact H|closure_tac|done]);
    try (eapply on_mutate_ok; [exact H|closure_tac|done]).
  - unfold applySkipBatch in H. destruct c; simpl in *; ok_inv; subst; done.
  - eapply on_mutate_ok; [exact H| |done]. intros m m' Hm. cbv beta in Hm.
    destruct (bool_decide (d < UseDefault)) eqn:H1, (bool_decide (d > FsyncWal)) eqn:H2; try done.
    apply bool_decide_eq_false in H1, H2. simpl in Hm. ok_inv. subst m'. simpl. split_and!; try done; lia.
Qed.

Lemma apply_loop_ok os c c' :
  apply_loop os c = Ok c' -> call_ok c ->
  call_ok c' /\ call_fixed c' = call_fixed c /\ call_kind c' = call_kind c.
Proof.
  revert c. induction os as [|o os IH]; intros c H Hc; simpl in H; ok_inv; [by subst|].
  destruct (applyOption_ok _ _ _ Hr Hc) as (H1 & H2 & H3).
  destruct (IH _ H H1) as (? & -> & ->). done.
Qed.

Lemma baseScan_ok ctx table options s :
  baseScan ctx table options = Ok s ->
  query_ok (s_query s) /\ s_maxResultSize s <> 0 /\ s_base s = mkBase ctx table [] options None.
Proof.
  unfold baseScan, applyOptions. intros H. ok_inv. destruct r as [| s'| | |]; try done. injection H as ->.
  apply apply_loop_ok in Hr as ([Hq Hm] & Hfix & _); [|split; [apply newBaseQuery_ok|done]].
  unfold call_fixed in Hfix. simpl in Hfix. by injection Hfix as -> _ _.
Qed.

Lemma baseGet_ok ctx table key options g :
  baseGet ctx table key options = Ok g ->
  query_ok (g_query g) /\ g_base g = mkBase ctx table key options None.
Proof.
  unfold baseGet, applyOptions. intros H. ok_inv. destruct r as [g'| | | |]; try done. injection H as ->.
  apply apply_loop_ok in Hr as (Hq & Hfix & _); [|apply newBaseQuery_ok].
  unfold call_fixed in Hfix. simpl in Hfix. by injection Hfix as ->.
Qed.

Lemma queryConsistency_total {E} c : exists p, @queryConsistency E c = Ok p.
Proof. unfold queryConsistency. destruct c; eexists; reflexivity. Qed.

Section Requests.
Context {HO : RangeOrder}.

(** A scan the package hands out has a non-empty time range, limits that
    fit 32-bit signed integers and a positive result size, keeps its range and
    the options it was built with (the scanner builds its region scans from
    them), and, once on a region, becomes a request without panicking: one that
    names the open scanner, or one that carries the range. *)
Theorem NewScanRange_request {E : Type} ctx table startRow stopRow options s p i h site :
  NewScanRange ctx table startRow stopRow options = Ok s -> h_infos h !! p = Some i ->
  query_ok (s_query s) /\ s_maxResultSize s <> 0 /\
  s_base s = mkBase ctx table startRow options None /\
  exists req, @Scan_ToProto _ E site (Scan_setBase (set_region (Some p)) s) h = Ok req /\
    RS_Value (ScanRequest_Region req) = r_name i /\
    if bool_decide (s_scannerID s = MaxUint64)
    then ScanRequest_ScannerId req = None /\
      exists ps, ScanRequest_Scan req = Some ps /\ PbScan_StartRow ps = startRow /\ PbScan_StopRow ps = stopRow
    else ScanRequest_ScannerId req = Some (s_scannerID s) /\ ScanRequest_Scan req = None.
Proof.
  unfold NewScanRange. intros H Hp. ok_inv. subst s.
  apply baseScan_ok in Hr as (Hq & Hm & Hb). simpl. rewrite Hb. simpl. split_and!; [done..|].
  unfold Scan_ToProto, regionSpecifier. simpl. unfold deref. rewrite Hp. cbn [obind].
  destruct (@queryConsistency_total E (q_consistency (s_query r))) as [pc Hpc].
  case_bool_decide as Hid.
  - rewrite bool_decide_eq_false_2 by done. simpl. eauto 10.
  - rewrite bool_decide_eq_true_2 by (by destruct (decide (s_scannerID r = MaxUint64))).
    rewrite Hpc. simpl. eexists. split; [done|]. simpl. eauto 10.
Qed.

(** The same for a get: what [NewGet] accepts is within the limits, keeps
    its row and options, and becomes a request for that row. *)
Theorem NewGet_request {E : Type} ctx table key options g p i h site :
  NewGet ctx table key options = Ok g -> h_infos h !! p = Some i ->
  query_ok (g_query g) /\ g_base g = mkBase ctx table key options None /\
  exists req, @Get_ToProto _ E site (mkGet (set_region (Some p) (g_base g)) (g_query g) (g_existsOnly g)
                (g_skipbatch g)) h = Ok req /\
    RS_Value (GetRequest_Region req) = r_name i /\ PbGet_Row (GetRequest_Get req) = key.
Proof.
  unfold NewGet. intros H Hp. apply baseGet_ok in H as [Hq Hb]. rewrite Hb. split_and!; [done..|].
  unfold Get_ToProto, regionSpecifier. simpl. unfold deref. rewrite Hp. cbn [obind].
  destruct (@queryConsistency_total E (q_consistency (g_query g))) as [pc Hpc].
  rewrite Hpc. simpl. eauto.
Qed.

End Requests.

Definition one_region_heap : heap := snd (NewInfo 1 None (bs "t") (bs "t,,1") [] [] empty_heap).

Lemma NewScanRange_request_witness :
  exists s, NewScanRange 0 (bs "t") (bs "a") (bs "b") [OptNumberOfRows 5; OptReversed] = Ok s /\
    query_ok (s_query s).
Proof.
  destruct (NewScanRange 0 (bs "t") (bs "a") (bs "b") [OptNumberOfRows 5; OptReversed]) as [s|e|] eqn:Hs;
    [|vm_compute in Hs; discriminate..].
  exists s. split; [reflexivity|].
  destruct (@NewScanRange_request key_order Empty_set 0 (bs "t") (bs "a") (bs "b")
    [OptNumberOfRows 5; OptReversed] s 0 _ one_region_heap [] Hs eq_refl) as [Hq _]. exact Hq.
Defined.

Lemma NewGet_request_witness :
  exists g, NewGet 0 (bs "t") (bs "a") [OptMaxVersions 3; OptSkipBatch] = Ok g /\ query_ok (g_query g).
Proof.
  destruct (NewGet 0 (bs "t") (bs "a") [OptMaxVersions 3; OptSkipBatch]) as [g|e|] eqn:Hs;
    [|vm_compute in Hs; discriminate..].
  exists g. split; [reflexivity|].
  destruct (@NewGet_request key_order Empty_set 0 (bs "t") (bs "a")
    [OptMaxVersions 3; OptSkipBatch] g 0 _ one_region_heap [] Hs eq_refl) as [Hq _]. exact Hq.
Defined.
