(* ===== verification/Mutate.v ===== *)
(** * Mutations: hrpc/mutate.go and hrpc/checkandput.go, and the cellblocks of responses

    Building a mutation, turning its values into protobuf or into cellblocks,
    and reading the cells of the responses to Get, Scan and Mutate.  The values
    are a map from families to qualifiers to bytes; the order in which Go
    iterates over the maps is a parameter ([RangeOrder]). *)

From S2P Require Import Prelude Pb RegionInfo CellBlocks Hrpc.

(** ** Constructors *)

(** [APPEND] is the zero value of [mutationType]; every caller sets the field. *)
Definition baseMutate (ctx : nat) (table key : bytes) (values : gmap bytes (option (gmap bytes bytes)))
    (options : list callOption) : outcome error Mutate :=
  let m := mkMutate (mkBase ctx table key [] None) APPEND values [] MaxTimestamp UseDefault false false in
  let* c := applyOptions (CallMutate m) options in
  match c with CallMutate m => Ok m | _ => Panic end.

Definition setMutationType (t : MutationType) (m : Mutate) : Mutate :=
  mkMutate (m_base m) t (m_values m) (m_ttl m) (m_timestamp m) (m_durability m)
    (m_deleteOneVersion m) (m_skipbatch m).

Definition NewPut (ctx : nat) (table key : bytes) values options : outcome error Mutate :=
  let* m := baseMutate ctx table key values options in
  Ok (setMutationType PUT m).

Definition NewDel (ctx : nat) (table key : bytes) values options : outcome error Mutate :=
  let* m := baseMutate ctx table key values options in
  if bool_decide (m_values m = ∅) && m_deleteOneVersion m then
    Err "'DeleteOneVersion' option cannot be specified for delete entire row request"%string
  else Ok (setMutationType DELETE m).

Definition NewApp (ctx : nat) (table key : bytes) values options : outcome error Mutate :=
  let* m := baseMutate ctx table key values options in
  Ok (setMutationType APPEND m).

Definition NewInc (ctx : nat) (table key : bytes) values options : outcome error Mutate :=
  let* m := baseMutate ctx table key values options in
  Ok (setMutationType INCREMENT m).

Definition NewIncSingle (ctx : nat) (table key family qualifier : bytes) (amount : Z) options
    : outcome error Mutate :=
  NewInc ctx table key {[family := Some {[qualifier := PutUint64 (u64 amount)]}]} options.

(** The same with strings: [[]byte(s)]. *)
Definition NewPutStr (ctx : nat) (table key : string) := NewPut ctx (bs table) (bs key).
Definition NewDelStr (ctx : nat) (table key : string) := NewDel ctx (bs table) (bs key).
Definition NewAppStr (ctx : nat) (table key : string) := NewApp ctx (bs table) (bs key).
Definition NewIncStr (ctx : nat) (table key : string) := NewInc ctx (bs table) (bs key).
Definition NewIncStrSingle (ctx : nat) (table key family qualifier : string) :=
  NewIncSingle ctx (bs table) (bs key) (bs family) (bs qualifier).

Section Values.
Context `{RangeOrder}.

Definition emptyQualifier : gmap bytes bytes := {[ [] := [] ]}.

(** ** Values to protobuf *)

(** The delete type of a family's values, and the values with the empty
    qualifier added when a whole family is deleted. *)
Definition deleteTypeProto (m : Mutate) (v : option (gmap bytes bytes))
    : option DeleteType * gmap bytes bytes :=
  if bool_decide (m_mutationType m = DELETE) then
    if bool_decide (default ∅ v = ∅) then
      (Some (if m_deleteOneVersion m then DELETE_FAMILY_VERSION else DELETE_FAMILY),
       match v with None => emptyQualifier | Some v => v end)
    else
      (Some (if m_deleteOneVersion m then DELETE_ONE_VERSION else DELETE_MULTIPLE_VERSIONS),
       default ∅ v)
  else (None, default ∅ v).

Definition valuesToProto (site : list nat) (m : Mutate) (ts : option Z) : list ColumnValue :=
  (fun kv : bytes * option (gmap bytes bytes) =>
     let '(dt, v) := deleteTypeProto m kv.2 in
     mkColumnValue kv.1
       ((fun qv => mkQualifierValue qv.1 qv.2 ts dt) <$> range (0%nat :: site) v))
  <$> range (1%nat :: site) (m_values m).

(** ** Values to cellblocks *)

Definition putType : byte := byte_of_Z 4.
Definition deleteType : byte := byte_of_Z 8.
Definition deleteFamilyVersionType : byte := byte_of_Z 10.
Definition deleteColumnType : byte := byte_of_Z 12.
Definition deleteFamilyType : byte := byte_of_Z 14.

(** First pass: the number of cells and the size of their blocks. *)
Definition family_size (site : list nat) (m : Mutate) (kv : bytes * option (gmap bytes bytes)) : Z * Z :=
  let v := match kv.2 with None => emptyQualifier | Some v => v end in
  (Z.of_nat (size v),
   foldr (fun q acc => cellblockLen (len (b_key (m_base m))) (len kv.1) (len q.1) (len q.2) + acc) 0
     (range site v)).

(** Second pass: the type of the cells and the qualifiers written. *)
Definition mutation_cell_type (m : Mutate) (v : option (gmap bytes bytes)) : byte * gmap bytes bytes :=
  if bool_decide (m_mutationType m = DELETE) then
    if bool_decide (default ∅ v = ∅) then
      (if m_deleteOneVersion m then deleteFamilyVersionType else deleteFamilyType,
       match v with None => emptyQualifier | Some v => v end)
    else (if m_deleteOneVersion m then deleteType else deleteColumnType, default ∅ v)
  else (putType, default ∅ v).

Fixpoint append_qualifiers {E : Type} (row family : bytes) (ts : Z) (mt : byte) (qs : list (bytes * bytes))
    (cbs : bytes) : outcome E bytes :=
  match qs with
  | [] => Ok cbs
  | (k1, v1) :: qs =>
      let* cbs := appendCellblock row family k1 v1 ts mt cbs in
      append_qualifiers row family ts mt qs cbs
  end.

Fixpoint append_families {E : Type} (site : list nat) (m : Mutate) (ts : Z)
    (l : list (bytes * option (gmap bytes bytes))) (cbs : bytes) : outcome E bytes :=
  match l with
  | [] => Ok cbs
  | (family, v) :: l =>
      let '(mt, v) := mutation_cell_type m v in
      let* cbs := append_qualifiers (b_key (m_base m)) family ts mt (range (length l :: site) v) cbs in
      append_families site m ts l cbs
  end.

(** Returns the blocks, the number of cells ([int32]) and the size ([uint32]). *)
Definition cellblock_timestamp (m : Mutate) : Z :=
  if bool_decide (m_timestamp m = MaxTimestamp) then MaxInt64 else m_timestamp m.

Definition i32 (z : Z) : Z := (z + 2 ^ 31) mod 2 ^ 32 - 2 ^ 31.

Definition valuesToCellblocks {E : Type} (site : list nat) (m : Mutate) : outcome E (bytes * Z * Z) :=
  if bool_decide (m_values m = ∅) then Ok ([], 0, 0)
  else
    let sizes := family_size (2%nat :: site) m <$> range (3%nat :: site) (m_values m) in
    let count := foldr Z.add 0 (fst <$> sizes) in
    let cbsLen := foldr Z.add 0 (snd <$> sizes) in
    let* cbs := append_families (4%nat :: site) m (cellblock_timestamp m)
                  (range (5%nat :: site) (m_values m)) [] in
    if bool_decide (len cbs <> cbsLen) then Panic
    else Ok (cbs, i32 count, u32 (len cbs)).

(** ** The request *)

Definition attributeNameTTL : bytes := bs "_ttl".

(** [durabilities[m.durability]] *)
Definition durability_proto {E : Type} (d : Z) : outcome E Z := index [0; 1; 2; 3; 4] d.

Definition Mutate_toProto {E : Type} (site : list nat) (m : Mutate) (isCellblocks : bool) (cbs : list bytes)
    (h : heap) : outcome E (MutateRequest * list bytes * Z) :=
  let ts := if bool_decide (m_timestamp m <> MaxTimestamp) then Some (m_timestamp m) else None in
  let* durability := durability_proto (m_durability m) in
  let* r :=
    if isCellblocks then
      let* v := valuesToCellblocks site m in
      let '(cellblocks, count, sz) := v in
      Ok ([], Some count, if bool_decide (sz > 0) then cbs ++ [cellblocks] else cbs, sz)
    else Ok (valuesToProto site m ts, None, cbs, 0) in
  let '(columns, count, cbs, size) := r in
  let attribute :=
    if bool_decide (len (m_ttl m) > 0) then [mkNameBytesPair attributeNameTTL (m_ttl m)] else [] in
  let* region := regionSpecifier (m_base m) h in
  Ok (mkMutateRequest region
        (mkMutationProto (b_key (m_base m)) (m_mutationType m) columns ts attribute durability count)
        None,
      cbs, size).

Definition Mutate_ToProto {E : Type} (site : list nat) (m : Mutate) (h : heap) : outcome E MutateRequest :=
  let* r := Mutate_toProto site m false [] h in Ok (fst (fst r)).

Definition Mutate_SerializeCellBlocks {E : Type} (site : list nat) (m : Mutate) (cbs : list bytes) (h : heap)
    : outcome E (MutateRequest * list bytes * Z) :=
  Mutate_toProto site m true cbs h.

(** ** CheckAndPut *)

(** The comparator is built by the filter package; [cmp] is what it returns.
    The put it takes is the one it will send: its [skipbatch] is set. *)
Definition NewCheckAndPut (put : Mutate) (family qualifier : bytes) (cmp : outcome error Comparator)
    : outcome error CheckAndPut :=
  if bool_decide (m_mutationType put <> PUT) then
    Err "'CheckAndPut' only takes 'Put' request"%string
  else
    let* cmp := cmp in
    Ok (mkCheckAndPut
      (mkMutate (m_base put) (m_mutationType put) (m_values put) (m_ttl put) (m_timestamp put)
        (m_durability put) (m_deleteOneVersion put) true)
      family qualifier cmp).

Definition CheckAndPut_ToProto {E : Type} (site : list nat) (cp : CheckAndPut) (h : heap)
    : outcome E MutateRequest :=
  let* r := Mutate_toProto site (cp_mutate cp) false [] h in
  let '(req, _, _) := r in
  Ok (mkMutateRequest (MutateRequest_Region req) (MutateRequest_Mutation req)
    (Some (mkCondition (b_key (m_base (cp_mutate cp))) (cp_family cp) (cp_qualifier cp)
      CompareType_EQUAL (cp_comparator cp)))).

(** [CellBlocksEnabled] of Mutate and of CheckAndPut, which overrides it. *)
Definition CellBlocksEnabled (c : call) : bool :=
  match c with
  | CallMutate _ => true
  | _ => false
  end.

End Values.

(** ** Cells of the responses *)

Definition Result_DeserializeCellBlocks (r : option Result) (b : bytes)
    : outcome cell_error (option Result * Z) :=
  match r with
  | None => Ok (None, 0)
  | Some r =>
      let* c := map_err snd (deserializeCellBlocks b (u32 (GetAssociatedCellCount r))) in
      let '(cells, read) := c in
      Ok (Some (set_Cell (Result_Cell r ++ cells) r), read)
  end.

Definition Get_DeserializeCellBlocks (resp : GetResponse) (b : bytes)
    : outcome cell_error (GetResponse * Z) :=
  let* r := Result_DeserializeCellBlocks (GetResponse_Result resp) b in
  Ok (mkGetResponse (fst r), snd r).

Definition Mutate_DeserializeCellBlocks (resp : MutateResponse) (b : bytes)
    : outcome cell_error (MutateResponse * Z) :=
  let* r := Result_DeserializeCellBlocks (MutateResponse_Result resp) b in
  Ok (mkMutateResponse (fst r) (MutateResponse_Processed resp), snd r).

(** The loop over [CellsPerResult]: result [i] gets its cells and its flag. *)
Fixpoint scan_results (i : Z) (counts : list Z) (partials : list bool) (b : bytes) (readLen : Z)
    (results : list (option Result)) : outcome cell_error (list (option Result) * Z) :=
  match counts with
  | [] => Ok (results, readLen)
  | numCells :: counts =>
      let* s := slice_from b readLen in
      let* c := map_err snd (deserializeCellBlocks s numCells) in
      let '(cells, l) := c in
      let* partial := index partials i in
      let r := mkResult cells None None None (Some partial) in
      scan_results (i + 1) counts partials b (u32 (readLen + l)) (<[Z.to_nat i := Some r]> results)
  end.

Definition Scan_DeserializeCellBlocks (resp : ScanResponse) (b : bytes)
    : outcome cell_error (ScanResponse * Z) :=
  let partials := PartialFlagPerResult resp in
  let* r := scan_results 0 (CellsPerResult resp) partials b 0 (replicate (length partials) None) in
  Ok (mkScanResponse (CellsPerResult resp) (ScannerId resp) (MoreResults resp) (fst r)
        (PartialFlagPerResult resp) (MoreResultsInRegion resp), snd r).

(** ** What is written *)

Definition sumZ (l : list Z) : Z := foldr Z.add 0 l.

#[global] Instance sumZ_perm : Proper ((≡ₚ) ==> eq) sumZ.
Proof. intros l k. induction 1; unfold sumZ in *; simpl in *; lia. Qed.

Lemma sumZ_app l k : sumZ (l ++ k) = sumZ l + sumZ k.
Proof. induction l as [|x l IH]; unfold sumZ in *; simpl in *; lia. Qed.

Lemma sumZ_le l k : Forall2 Z.le l k -> sumZ l <= sumZ k.
Proof. induction 1; unfold sumZ in *; simpl in *; lia. Qed.

Lemma sumZ_lt {A} (f g : A -> Z) l x :
  x ∈ l -> f x < g x -> (forall y, f y <= g y) -> sumZ (f <$> l) < sumZ (g <$> l).
Proof.
  intros Hx Hlt Hle. induction Hx as [x l|x y l _ IH]; unfold sumZ in *; csimpl.
  - specialize (sumZ_le (f <$> l) (g <$> l)) as Hs. unfold sumZ in Hs.
    assert (Forall2 Z.le (f <$> l) (g <$> l)) as H2 by (apply Forall2_fmap, Forall_Forall2_diag, Forall_forall; auto).
    specialize (Hs H2). lia.
  - specialize (IH Hlt). specialize (Hle y). lia.
Qed.

Lemma foldr_sumZ {A} (f : A -> Z) l : foldr (fun x acc => f x + acc) 0 l = sumZ (f <$> l).
Proof. induction l as [|x l IH]; unfold sumZ in *; csimpl; lia. Qed.

Lemma encode_cells_app cs ds : encode_cells (cs ++ ds) = encode_cells cs ++ encode_cells ds.
Proof. unfold encode_cells. by rewrite fmap_app, concat_app. Qed.

Lemma len_encode_cells cs : len (encode_cells cs) = sumZ ((fun c => len (encode_cell c)) <$> cs).
Proof.
  induction cs as [|c cs IH]; [done|]. rewrite encode_cells_cons, len_app, IH. done.
Qed.

Section Written.
Context `{RangeOrder}.
Implicit Types (m : Mutate) (kv : bytes * option (gmap bytes bytes)).

(** The cells of one family, in the order of the maps, and their number. *)
Definition family_cells (m : Mutate) (kv : bytes * option (gmap bytes bytes)) : list Cell :=
  let '(mt, v) := mutation_cell_type m kv.2 in
  (fun q => cell_of (b_key (m_base m)) kv.1 q.1 q.2 (cellblock_timestamp m) mt) <$> map_to_list v.

(** All the cells of a mutation. *)
Definition mutation_cells (m : Mutate) : list Cell := map_to_list (m_values m) ≫= family_cells m.

Definition family_len (m : Mutate) (kv : bytes * option (gmap bytes bytes)) : Z :=
  len (encode_cells (family_cells m kv)).

Lemma encode_cell_of row f q v ts mt :
  encode_cell (cell_of row f q v ts mt) = cell_layout row f q v ts mt.
Proof. unfold encode_cell, cell_of. simpl. by rewrite byte_of_Z_of_byte. Qed.

Lemma append_qualifiers_spec {E} row f ts mt qs cbs :
  @append_qualifiers E row f ts mt qs cbs
  = Ok (cbs ++ encode_cells ((fun q => cell_of row f q.1 q.2 ts mt) <$> qs)).
Proof.
  revert cbs. induction qs as [|[k v] qs IH]; intros cbs; csimpl.
  { unfold encode_cells. simpl. by rewrite app_nil_r. }
  rewrite appendCellblock_layout. cbn [obind]. rewrite IH.
  by rewrite encode_cells_cons, encode_cell_of, app_assoc.
Qed.

Lemma append_families_spec {E} site m l cbs :
  exists cells, @append_families _ E site m (cellblock_timestamp m) l cbs
    = Ok (cbs ++ encode_cells cells) /\ cells ≡ₚ l ≫= family_cells m.
Proof.
  revert cbs. induction l as [|[f v] l IH]; intros cbs; csimpl.
  { exists []. unfold encode_cells. simpl. by rewrite app_nil_r. }
  unfold family_cells at 1. simpl. destruct (mutation_cell_type m v) as [mt qs].
  rewrite append_qualifiers_spec. cbn [obind].
  match goal with |- context [append_families _ _ _ _ (cbs ++ encode_cells ?c)] => set (cs := c) end.
  destruct (IH (cbs ++ encode_cells cs)) as (cells & -> & Hp).
  exists (cs ++ cells). rewrite encode_cells_app, app_assoc. split; [done|].
  rewrite Hp. apply Permutation_app_tail. unfold cs. by rewrite range_perm.
Qed.

(** The first pass announces at least what the second writes, and exactly that
    but for a nil map in a mutation that is not a delete. *)
Lemma family_size_len site m kv :
  (m_mutationType m = DELETE \/ kv.2 <> None) -> snd (family_size site m kv) = family_len m kv.
Proof.
  intros Hnil. unfold family_size, family_len, family_cells. simpl. rewrite foldr_sumZ, len_encode_cells.
  assert ((mutation_cell_type m kv.2).2 = match kv.2 with Some v => v | None => emptyQualifier end) as Hv.
  { unfold mutation_cell_type. destruct kv.2 as [v|]; simpl.
    - by repeat case_bool_decide.
    - rewrite bool_decide_eq_true_2 by (destruct Hnil; done). by rewrite bool_decide_eq_true_2. }
  destruct (mutation_cell_type m kv.2) as [mt v]. simpl in Hv. subst v. rewrite range_perm.
  rewrite <- list_fmap_compose. f_equal. apply list_fmap_ext. intros i [q x] _. simpl.
  by rewrite encode_cell_of, len_cell_layout.
Qed.

Lemma family_size_nil site m f :
  m_mutationType m <> DELETE -> family_len m (f, None) < snd (family_size site m (f, None)).
Proof.
  intros Hm. unfold family_len, family_cells, mutation_cell_type, family_size. simpl.
  rewrite bool_decide_eq_false_2 by done. simpl. rewrite map_to_list_empty. simpl.
  rewrite foldr_sumZ, range_perm. unfold emptyQualifier. rewrite map_to_list_singleton.
  unfold sumZ, len, encode_cells, cellblockLen. simpl. lia.
Qed.

Lemma family_size_le site m kv : family_len m kv <= snd (family_size site m kv).
Proof.
  destruct (decide (m_mutationType m = DELETE \/ kv.2 <> None)) as [Hd|Hd].
  { by rewrite family_size_len. }
  destruct kv as [f [v|]]; [destruct Hd; by right|]. apply Z.lt_le_incl, family_size_nil. tauto.
Qed.

Lemma len_families m l cells :
  cells ≡ₚ l ≫= family_cells m -> len (encode_cells cells) = sumZ (family_len m <$> l).
Proof.
  intros Hp. rewrite len_encode_cells, Hp. clear Hp. induction l as [|kv l IH]; csimpl; [done|].
  rewrite fmap_app, sumZ_app, IH. unfold family_len at 2. by rewrite len_encode_cells.
Qed.

Lemma family_count m kv site :
  (m_mutationType m = DELETE \/ kv.2 <> None) -> fst (family_size site m kv) = len (family_cells m kv).
Proof.
  intros Hnil. unfold family_size, family_cells. simpl.
  unfold mutation_cell_type. destruct kv.2 as [v|]; simpl.
  - by repeat case_bool_decide; unfold len; rewrite length_fmap, length_map_to_list.
  - rewrite bool_decide_eq_true_2 by (destruct Hnil; done). rewrite bool_decide_eq_true_2 by done.
    unfold len. by rewrite length_fmap, length_map_to_list.
Qed.

Lemma len_bind_cells m l : len (l ≫= family_cells m) = sumZ ((fun kv => len (family_cells m kv)) <$> l).
Proof. induction l as [|kv l IH]; [done|]. csimpl. rewrite len_app, IH. done. Qed.

(** No family has a nil map, unless the mutation is a delete. *)
Definition values_ok (m : Mutate) : Prop :=
  m_mutationType m = DELETE \/ forall f, m_values m !! f <> Some None.

Lemma values_ok_elem m kv : values_ok m -> kv ∈ map_to_list (m_values m) ->
  m_mutationType m = DELETE \/ kv.2 <> None.
Proof.
  intros [?|Hv] Hkv; [by left|right]. destruct kv as [f v]. apply elem_of_map_to_list in Hkv.
  simpl. intros ->. by destruct (Hv f).
Qed.

Lemma valuesToCellblocks_written {E} site m :
  values_ok m -> exists cells, @valuesToCellblocks _ E site m
    = Ok (encode_cells cells, i32 (len cells), u32 (len (encode_cells cells))) /\ cells ≡ₚ mutation_cells m.
Proof.
  intros Hok. unfold valuesToCellblocks. case_bool_decide as Hemp.
  { exists []. split; [done|]. unfold mutation_cells. by rewrite Hemp. }
  destruct (@append_families_spec E (4%nat :: site) m (range (5%nat :: site) (m_values m)) [])
    as (cells & -> & Hp). cbn [obind app].
  assert (cells ≡ₚ mutation_cells m) as Hp' by (rewrite Hp, range_perm; done).
  assert (len cells = len (mutation_cells m)) as Hc by (unfold len; by rewrite Hp').
  assert (len (encode_cells cells) = len (encode_cells (mutation_cells m))) as Hl
    by (by rewrite !len_encode_cells, Hp').
  rewrite bool_decide_eq_false_2.
  2: { rewrite (len_families m _ _ Hp). intros Hne. apply Hne.
       fold (sumZ (snd <$> (family_size (2%nat :: site) m <$> range (3%nat :: site) (m_values m)))).
       rewrite <- list_fmap_compose, !range_perm. f_equal. apply list_fmap_ext.
       intros i kv Hkv%list_elem_of_lookup_2. symmetry.
       by apply family_size_len, values_ok_elem. }
  exists cells. split; [|done]. do 4 f_equal.
  fold (sumZ (fst <$> (family_size (2%nat :: site) m <$> range (3%nat :: site) (m_values m)))).
  rewrite <- list_fmap_compose, range_perm.
  rewrite (list_fmap_ext _ (fun kv => len (family_cells m kv))).
  2: { intros i kv Hkv%list_elem_of_lookup_2. by apply family_count, values_ok_elem. }
  rewrite <- len_bind_cells. fold (mutation_cells m). by rewrite Hc.
Qed.

Lemma len_encode_perm cs ds : cs ≡ₚ ds -> len (encode_cells cs) = len (encode_cells ds).
Proof. intros Hp. by rewrite !len_encode_cells, Hp. Qed.

Lemma valuesToCellblocks_spec {E} site m :
  values_ok m -> len (mutation_cells m) < 2 ^ 31 -> len (encode_cells (mutation_cells m)) < 2 ^ 32 ->
  exists cells, @valuesToCellblocks _ E site m
    = Ok (encode_cells cells, len cells, len (encode_cells cells)) /\ cells ≡ₚ mutation_cells m.
Proof.
  intros Hok Hcount Hlen. destruct (@valuesToCellblocks_written E site m Hok) as (cells & -> & Hp).
  exists cells. split; [|done]. pose proof (len_nonneg (mutation_cells m)). pose proof (len_nonneg (encode_cells cells)).
  assert (i32 (len cells) = len cells) as ->.
  { assert (len cells = len (mutation_cells m)) as -> by (unfold len; by rewrite Hp). unfold i32. rewrite Z.mod_small; lia. }
  unfold u32. rewrite (Z.mod_small (len (encode_cells cells))); [done|]. rewrite (len_encode_perm _ _ Hp) in *. lia.
Qed.

(** The reader gets cells back from their encoding. *)
Lemma cells_read_back cells :
  Forall cell_ok cells -> len (encode_cells cells) < 2 ^ 32 ->
  deserializeCellBlocks (encode_cells cells) (len cells) = Ok (cells, len (encode_cells cells)).
Proof.
  intros Hok Hlen. unfold deserializeCellBlocks, len at 1. rewrite Nat2Z.id.
  rewrite <- (app_nil_r (encode_cells cells)) at 1.
  apply (deserialize_loop_encode cells [] [] []); [done|]. unfold len at 1. simpl. lia.
Qed.

End Written.

(** ** What the encodings guarantee *)

Section Guarantees.
Context `{RangeOrder}.

(** A mutation other than a delete with a nil map for some family announces
    more bytes than it writes, and panics. *)
Theorem nil_family_panics {E : Type} site m f :
  m_mutationType m <> DELETE -> m_values m !! f = Some None ->
  @valuesToCellblocks _ E site m = Panic.
Proof.
  intros Hm Hf. unfold valuesToCellblocks. rewrite bool_decide_eq_false_2.
  2: { intros Hemp. by rewrite Hemp in Hf. }
  destruct (@append_families_spec _ E (4%nat :: site) m (range (5%nat :: site) (m_values m)) [])
    as (cells & -> & Hp). cbn [obind app].
  rewrite bool_decide_eq_true_2; [done|]. apply Z.lt_neq. rewrite (len_families m _ _ Hp).
  fold (sumZ (snd <$> (family_size (2%nat :: site) m <$> range (3%nat :: site) (m_values m)))).
  rewrite <- list_fmap_compose, !range_perm. apply (sumZ_lt _ _ _ (f, None)).
  - by apply elem_of_map_to_list.
  - by apply family_size_nil.
  - intros kv. apply family_size_le.
Qed.

(** C16. The cellblocks of a mutation, whatever the iteration orders of the maps.
    If a family of a put, an append or an increment has a nil map, the length check
    panics.  Otherwise it does not trip: what is written is one encoded cell per
    qualifier, and its number and size are returned (the number as an int32, the
    size as a uint32).  If moreover the row, the families, the qualifiers and the
    values have lengths that fit their fields (16 bits for a row, 8 for a family,
    32 for a cell) and the whole is shorter than 4 GiB, the reader of cellblocks gets
    back exactly the cells of the mutation, with the row, the timestamp and the
    type. *)
Theorem mutation_cellblocks_roundtrip {E : Type} site m :
  (forall f, m_mutationType m <> DELETE -> m_values m !! f = Some None -> @valuesToCellblocks _ E site m = Panic) /\
  (values_ok m -> exists cells,
     @valuesToCellblocks _ E site m = Ok (encode_cells cells, i32 (len cells), u32 (len (encode_cells cells))) /\
     cells ≡ₚ mutation_cells m /\
     (Forall cell_ok (mutation_cells m) ->
      len (mutation_cells m) < 2 ^ 31 -> len (encode_cells (mutation_cells m)) < 2 ^ 32 ->
      deserializeCellBlocks (encode_cells cells) (i32 (len cells)) = Ok (cells, u32 (len (encode_cells cells))))).
Proof.
  split; [intros f; apply nil_family_panics|]. intros Hok.
  destruct (@valuesToCellblocks_written _ E site m Hok) as (cells & Hv & Hp). exists cells. split_and!; [done..|].
  intros Hcells Hcount Hlen. destruct (@valuesToCellblocks_spec _ E site m Hok Hcount Hlen) as (cells' & Hv' & Hp').
  rewrite Hv in Hv'. injection Hv' as Henc Hc Hl. rewrite Hl, Hc. rewrite Henc.
  assert (len cells = len cells') as Hlc by (unfold len; by rewrite Hp, Hp').
  assert (Forall cell_ok cells /\ Forall cell_ok cells') as [Hok1 Hok2] by (by rewrite Hp, Hp').
  assert (len (encode_cells cells') < 2 ^ 32) as Hlen' by (by rewrite (len_encode_perm _ _ Hp')).
  rewrite <- Hlc, <- Henc. apply cells_read_back; [done|]. by rewrite Henc.
Qed.

(** A delete whose families have empty (but not nil) maps is sent exactly
    like a delete of the whole row: no cell and a count of zero. *)
Theorem empty_family_deletes_row {E : Type} site m m0 :
  m_mutationType m = DELETE -> (forall f v, m_values m !! f = Some v -> v = Some ∅) ->
  m_values m0 = ∅ -> m_base m0 = m_base m -> m_mutationType m0 = DELETE -> m_ttl m0 = m_ttl m ->
  m_timestamp m0 = m_timestamp m -> m_durability m0 = m_durability m ->
  forall cbs h, @Mutate_SerializeCellBlocks _ E site m cbs h = @Mutate_SerializeCellBlocks _ E site m0 cbs h.
Proof.
  intros Hm Hv H0 Hb Hm0 Httl Hts Hd cbs h.
  assert (mutation_cells m = []) as Hnone.
  { unfold mutation_cells. apply elem_of_nil_inv. intros c ([f v] & Hc & Hkv)%list_elem_of_bind.
    apply elem_of_map_to_list, Hv in Hkv as ->. revert Hc. unfold family_cells, mutation_cell_type. simpl.
    rewrite bool_decide_eq_true_2 by done. rewrite bool_decide_eq_true_2 by done.
    destruct (m_deleteOneVersion m); simpl; rewrite map_to_list_empty; apply not_elem_of_nil. }
  assert (@valuesToCellblocks _ E site m = Ok ([], 0, 0)) as Hcb.
  { destruct (@valuesToCellblocks_spec _ E site m) as (cells & -> & Hp).
    - by left.
    - rewrite Hnone. done.
    - rewrite Hnone. done.
    - rewrite Hnone in Hp. by apply Permutation_nil_r in Hp as ->. }
  unfold Mutate_SerializeCellBlocks, Mutate_toProto.
  rewrite Hcb, Hb, Hm, Hm0, Httl, Hts, Hd. unfold valuesToCellblocks. rewrite H0.
  by rewrite (bool_decide_eq_true_2 (@eq (gmap bytes (option (gmap bytes bytes))) ∅ ∅)).
Qed.

(** The cell type that says in a cellblock what a delete type says in protobuf. *)
Definition type_of_delete (dt : option DeleteType) : byte :=
  match dt with
  | None => putType
  | Some DELETE_ONE_VERSION => deleteType
  | Some DELETE_MULTIPLE_VERSIONS => deleteColumnType
  | Some DELETE_FAMILY => deleteFamilyType
  | Some DELETE_FAMILY_VERSION => deleteFamilyVersionType
  end.

(** The timestamp that a cell of a protobuf mutation has: its own, or that of the
    mutation, or the one that stands for the time of the server. *)
Definition proto_timestamp (mp : MutationProto) (qv : QualifierValue) : Z :=
  default (default MaxInt64 (MP_Timestamp mp)) (QV_Timestamp qv).

(** The cells that a protobuf mutation stands for. *)
Definition proto_cells (mp : MutationProto) : list Cell :=
  MP_ColumnValue mp ≫= fun cv =>
    (fun qv => cell_of (MP_Row mp) (CV_Family cv) (QV_Qualifier qv) (QV_Value qv) (proto_timestamp mp qv)
                 (type_of_delete (QV_DeleteType qv)))
    <$> CV_QualifierValue cv.

Lemma deleteTypeProto_type m v :
  mutation_cell_type m v = (type_of_delete (deleteTypeProto m v).1, (deleteTypeProto m v).2).
Proof.
  unfold mutation_cell_type, deleteTypeProto.
  case_bool_decide; [|done]. by case_bool_decide; destruct (m_deleteOneVersion m).
Qed.

(** The timestamp that [toProto] gives to the columns. *)
Definition request_timestamp (m : Mutate) : option Z :=
  if bool_decide (m_timestamp m <> MaxTimestamp) then Some (m_timestamp m) else None.

Lemma request_timestamp_cell m : default MaxInt64 (request_timestamp m) = cellblock_timestamp m.
Proof. unfold request_timestamp, cellblock_timestamp. by repeat case_bool_decide. Qed.

Lemma proto_cells_of m site mp :
  MP_Row mp = b_key (m_base m) -> MP_Timestamp mp = request_timestamp m ->
  MP_ColumnValue mp = valuesToProto site m (request_timestamp m) -> proto_cells mp ≡ₚ mutation_cells m.
Proof.
  unfold proto_cells, mutation_cells, valuesToProto. intros -> Hts ->. rewrite range_perm.
  induction (map_to_list (m_values m)) as [|[f v] l IH]; csimpl; [done|]. unfold family_cells at 1.
  rewrite deleteTypeProto_type. simpl. destruct (deleteTypeProto m v) as [dt qs]. simpl. rewrite IH. apply Permutation_app_tail.
  rewrite range_perm, <- list_fmap_compose. erewrite list_fmap_ext; [done|]. intros i q _. simpl.
  unfold proto_timestamp. rewrite Hts, <- request_timestamp_cell. simpl. by destruct (request_timestamp m).
Qed.

Lemma serialized_values_ok {E} site m r : @valuesToCellblocks _ E site m = Ok r -> values_ok m.
Proof.
  intros Hv. unfold values_ok. destruct (decide (m_mutationType m = DELETE)) as [?|Hm]; [by left|right].
  intros f Hf. by rewrite (@nil_family_panics E site m f Hm Hf) in Hv.
Qed.

(** C25. The two encodings of a mutation say the same.  Where both can be made (the
    cellblocks cannot if a family of something other than a delete has a nil map)
    they agree in the region, the row, the kind, the timestamp, the attributes and
    the durability of the mutation; and the cells that the reader of cellblocks
    gets from the second, with the number that goes with it, are those that the
    columns of the first stand for, each with its timestamp and its type: the
    timestamp of the column, or the latest when there is none.  The mutation has to
    have cells that fit into cellblocks. *)
Theorem proto_and_cellblocks_agree {E : Type} site site' m h req req' cbs sz :
  @Mutate_ToProto _ E site m h = Ok req -> @Mutate_SerializeCellBlocks _ E site' m [] h = Ok (req', cbs, sz) ->
  Forall cell_ok (mutation_cells m) ->
  len (mutation_cells m) < 2 ^ 31 -> len (encode_cells (mutation_cells m)) < 2 ^ 32 ->
  let mp := MutateRequest_Mutation req in
  exists count cells,
    req' = mkMutateRequest (MutateRequest_Region req)
      (mkMutationProto (MP_Row mp) (MP_MutateType mp) [] (MP_Timestamp mp) (MP_Attribute mp) (MP_Durability mp) (Some count))
      (MutateRequest_Condition req) /\
    deserializeCellBlocks (concat cbs) count = Ok (cells, sz) /\ cells ≡ₚ proto_cells mp.
Proof.
  unfold Mutate_ToProto, Mutate_SerializeCellBlocks, Mutate_toProto. fold (request_timestamp m).
  destruct (durability_proto (m_durability m)) as [d| |]; try done. cbn [obind].
  destruct (regionSpecifier (m_base m) h) as [reg| |]; cbn [obind]; intros Hreq; [|done..].
  destruct (@valuesToCellblocks _ E site' m) as [[[cb count] sz0]| |] eqn:Hv; try done. cbn [obind].
  intros Hreq' Hcells Hcount Hlen. injection Hreq as <-. injection Hreq' as <- <- <-.
  destruct (@valuesToCellblocks_spec _ E site' m) as (cells & Hv' & Hp); [by eapply serialized_values_ok|done|done|].
  rewrite Hv in Hv'. injection Hv' as -> -> ->. exists (len cells), cells. split; [done|]. split.
  - replace (concat _) with (encode_cells cells).
    + apply cells_read_back; [by rewrite Hp|]. by rewrite (len_encode_perm _ _ Hp).
    + case_bool_decide as Hsz; simpl; [by rewrite app_nil_r|]. pose proof (len_nonneg (encode_cells cells)) as Hnn.
      apply nil_length_inv. unfold len in *. lia.
  - rewrite Hp. symmetry. by eapply proto_cells_of.
Qed.

End Guarantees.

(** A put of two qualifiers, a put with a nil family. *)
Definition sample_put (vs : gmap bytes (option (gmap bytes bytes))) : Mutate :=
  mkMutate (mkBase 0 (bs "t") (bs "row") [] None) PUT vs [] MaxTimestamp 0 false false.

Definition sample_values : gmap bytes (option (gmap bytes bytes)) :=
  {[ bs "cf" := Some {[ bs "a" := bs "1"; bs "b" := bs "2" ]} ]}.

(** The put with a timestamp of its own, in a region. *)
Definition sample_timed : Mutate :=
  mkMutate (mkBase 0 (bs "t") (bs "row") [] (Some 0%nat)) PUT sample_values [] 77 0 false false.

Definition sample_region_heap : heap := snd (NewInfo 0 None (bs "t") (bs "t,,1.") [] [] empty_heap).

Lemma sample_mutation_cells m ts :
  m = sample_put sample_values /\ ts = MaxInt64 \/ m = sample_timed /\ ts = 77 ->
  mutation_cells m = [cell_of (bs "row") (bs "cf") (bs "b") (bs "2") ts putType;
                      cell_of (bs "row") (bs "cf") (bs "a") (bs "1") ts putType].
Proof. intros [[-> ->]|[-> ->]]; vm_compute; reflexivity. Qed.

Lemma sample_mutation_cells_ok m :
  m = sample_put sample_values \/ m = sample_timed -> Forall cell_ok (mutation_cells m).
Proof.
  intros Hm. assert (exists ts, (ts = MaxInt64 \/ ts = 77) /\ (m = sample_put sample_values /\ ts = MaxInt64 \/ m = sample_timed /\ ts = 77))
    as (ts & Hts & Hc) by (destruct Hm; eauto 10).
  rewrite (sample_mutation_cells m ts Hc). destruct Hts as [-> | ->]; (apply Forall_cons; split; [|apply Forall_cons; split; [|constructor]]);
    (split; [eexists; reflexivity|exists putType; reflexivity|]); vm_compute; repeat split; discriminate || reflexivity.
Qed.

Lemma mutation_cellblocks_roundtrip_witness :
  exists cbs count sz cells,
    @valuesToCellblocks key_order Empty_set [] (sample_put sample_values) = Ok (cbs, count, sz) /\
    deserializeCellBlocks cbs count = Ok (cells, sz) /\ length cells = 2%nat.
Proof.
  destruct (@mutation_cellblocks_roundtrip key_order Empty_set [] (sample_put sample_values)) as [_ H].
  destruct H as (cells & H1 & Hp & H2).
  - right. intros f Hf. unfold sample_put, sample_values in Hf. simpl in Hf.
    apply lookup_singleton_Some in Hf as [_ Hf]. discriminate.
  - eexists _, _, _, cells. split; [exact H1|]. split; [|rewrite Hp; vm_compute; reflexivity].
    apply H2; [apply sample_mutation_cells_ok; left; reflexivity|vm_compute; reflexivity|vm_compute; reflexivity].
Defined.

Lemma proto_and_cellblocks_agree_witness :
  exists req req' cbs sz count cells,
    @Mutate_ToProto key_order Empty_set [] sample_timed sample_region_heap = Ok req /\
    @Mutate_SerializeCellBlocks key_order Empty_set [1%nat] sample_timed [] sample_region_heap = Ok (req', cbs, sz) /\
    deserializeCellBlocks (concat cbs) count = Ok (cells, sz) /\ cells ≡ₚ proto_cells (MutateRequest_Mutation req) /\
    length cells = 2%nat.
Proof.
  destruct (@Mutate_ToProto key_order Empty_set [] sample_timed sample_region_heap) as [req|[]|] eqn:Hreq;
    [|vm_compute in Hreq; discriminate].
  destruct (@Mutate_SerializeCellBlocks key_order Empty_set [1%nat] sample_timed [] sample_region_heap)
    as [[[req' cbs] sz]|[]|] eqn:Hser; [|vm_compute in Hser; discriminate].
  destruct (@proto_and_cellblocks_agree key_order Empty_set [] [1%nat] sample_timed sample_region_heap req req' cbs sz Hreq Hser)
    as (count & cells & _ & Hcells & Hp).
  - apply sample_mutation_cells_ok. right. reflexivity.
  - vm_compute. reflexivity.
  - vm_compute. reflexivity.
  - exists req, req', cbs, sz, count, cells. split; [reflexivity|]. split; [reflexivity|]. split; [exact Hcells|].
    split; [exact Hp|]. rewrite Hp. vm_compute in Hreq. injection Hreq as <-. vm_compute. reflexivity.
Defined.

Lemma nil_family_panics_witness :
  @valuesToCellblocks key_order Empty_set [] (sample_put {[ bs "cf" := None ]}) = Panic.
Proof. apply (@nil_family_panics key_order Empty_set [] _ (bs "cf")); [discriminate|reflexivity]. Defined.

Lemma empty_family_deletes_row_witness :
  @Mutate_SerializeCellBlocks key_order Empty_set [] (setMutationType DELETE (sample_put {[ bs "cf" := Some ∅ ]})) [] empty_heap
  = @Mutate_SerializeCellBlocks key_order Empty_set [] (setMutationType DELETE (sample_put ∅)) [] empty_heap.
Proof.
  apply (@empty_family_deletes_row key_order Empty_set); try reflexivity.
  intros f v Hf. unfold sample_put in Hf. simpl in Hf. apply lookup_singleton_Some in Hf as [_ Hf].
  by symmetry.
Defined.
