(* ===== verification/Scanner.v ===== *)
(** * The scanner: scanner.go

    A scan walks the regions of a table: on each it opens a region scanner,
    fetches batches of results until the server says there are no more in the
    region, and goes on with the next region.  Results may be parts of a row,
    which [Next] puts together.

    The scanner reaches the servers through the [RPCClient] interface only:
    [send] is [SendRPC] with the state of the rest of the world made explicit;
    it returns the message ([None] for one that is not a ScanResponse) with the
    region the call was sent to.  The requests that close a region scanner are
    sent by goroutines nobody waits for: they are recorded in [sc_spawned].
    The two unbounded loops take fuel; running out is [Err OutOfFuel], never a
    result. *)

From S2P Require Import Prelude Pb RegionInfo Hrpc.

(** ** hrpc/call.go: results for the user *)

Record LocalResult := mkLocalResult {
  Cells : list Cell;
  L_Stale : bool;
  L_Partial : bool;
  L_Exists : option bool;
}.

Definition extractBool (v : option bool) : bool := match v with Some b => b | None => false end.

Definition ToLocalResult (pbr : option Result) : LocalResult :=
  match pbr with
  | None => mkLocalResult [] false false None
  | Some r => mkLocalResult (Result_Cell r) (extractBool (Stale r)) (extractBool (Partial r)) (Exists r)
  end.

(** ** scanner.go *)

Inductive scan_error (E : Type) :=
| EOF
| RPCError (e : E)
| OtherError (msg : error).
Arguments EOF {E}.
Arguments RPCError {E} _.
Arguments OtherError {E} _.

Definition noScannerID : Z := MaxUint64.
Definition rowPadding : bytes := replicate 8 xff.

Record scanner := mkScanner {
  sc_rpc : Scan;
  curRegionScannerID : Z;
  startRow : bytes;
  results : list (option Result);
  closed : bool;
  sc_spawned : list Scan;
}.

Definition set_results (r : list (option Result)) (s : scanner) : scanner :=
  mkScanner (sc_rpc s) (curRegionScannerID s) (startRow s) r (closed s) (sc_spawned s).

Definition set_startRow (r : bytes) (s : scanner) : scanner :=
  mkScanner (sc_rpc s) (curRegionScannerID s) r (results s) (closed s) (sc_spawned s).

Definition set_scannerID (id : Z) (s : scanner) : scanner :=
  mkScanner (sc_rpc s) id (startRow s) (results s) (closed s) (sc_spawned s).

Definition set_closed (s : scanner) : scanner :=
  mkScanner (sc_rpc s) (curRegionScannerID s) (startRow s) (results s) true (sc_spawned s).

Definition spawn (rpc : Scan) (s : scanner) : scanner :=
  mkScanner (sc_rpc s) (curRegionScannerID s) (startRow s) (results s) (closed s) (sc_spawned s ++ [rpc]).

Definition newScanner (rpc : Scan) : scanner :=
  mkScanner rpc noScannerID (s_startRow rpc) [] false [].

Definition isRegionScannerClosed (s : scanner) : bool :=
  bool_decide (curRegionScannerID s = noScannerID).

Definition openRegionScanner {F} (scannerId : Z) (s : scanner) : outcome F scanner :=
  if negb (isRegionScannerClosed s) then Panic else Ok (set_scannerID scannerId s).

(** [context.Background()] *)
Definition background : nat := 0.

Definition closeRegionScanner {F} (s : scanner) : outcome F scanner :=
  if isRegionScannerClosed s then Ok s
  else
    let* s :=
      if negb (s_closeScanner (sc_rpc s)) then
        match NewScanRange background (b_table (s_base (sc_rpc s))) (startRow s) []
                [OptScannerID (curRegionScannerID s); OptCloseScanner; OptNumberOfRows 0] with
        | Ok rpc => Ok (spawn rpc s)
        | _ => Panic
        end
      else Ok s in
    Ok (set_scannerID noScannerID s).

Definition Close {F} (s : scanner) : outcome F scanner :=
  if closed s then Ok s else closeRegionScanner (set_closed s).

(** The start row of a reversed scan in the region before the one that starts
    at [rsk]. *)
Definition rowBefore {F} (rsk : bytes) : outcome F bytes :=
  let* b := index rsk (len rsk - 1) in
  if bool_decide (b = x00) then slice_to rsk (len rsk - 1)
  else
    let* tmp := PutAt rsk (len rsk - 1) [byte_of_Z (Z_of_byte b - 1)] in
    Ok (tmp ++ rowPadding).

(** The region is a nil interface when the call was never given one. *)
Definition regionOf {F} (region : option info) : outcome F info :=
  match region with Some i => Ok i | None => Panic end.

Definition update {F} (resp : ScanResponse) (region : option info) (s : scanner) : outcome F scanner :=
  let* s :=
    if isRegionScannerClosed s && bool_decide (ScannerId resp <> None)
    then openRegionScanner (GetScannerId resp) s
    else Ok s in
  if negb (GetMoreResultsInRegion resp) then
    let* s := closeRegionScanner s in
    let* region := regionOf region in
    if negb (s_reversed (sc_rpc s)) then Ok (set_startRow (r_stopKey region) s)
    else if bool_decide (len (r_startKey region) = 0) then Ok (set_startRow (r_startKey region) s)
    else
      let* row := rowBefore (r_startKey region) in
      Ok (set_startRow row s)
  else Ok s.

Definition isDone {F} (resp : ScanResponse) (region : option info) (s : scanner) : outcome F bool :=
  if bool_decide (MoreResults resp = Some false) then Ok true
  else if negb (isRegionScannerClosed s) then Ok false
  else
    let* region := regionOf region in
    let reversed := s_reversed (sc_rpc s) in
    let stopRow := s_stopRow (sc_rpc s) in
    if bool_decide (len (r_stopKey region) = 0) && negb reversed then Ok true
    else if reversed && bool_decide (len (r_startKey region) = 0) then Ok true
    else if negb reversed then
      Ok (bool_decide (len stopRow <> 0) && bool_decide (bytes_compare stopRow (r_stopKey region) <> Gt))
    else
      Ok (bool_decide (len stopRow <> 0) && bool_decide (bytes_compare stopRow (r_startKey region) <> Lt)).

Definition shift (s : scanner) : scanner := set_results (tail (results s)) s.

Definition coalesce {F} (result partial : option Result) : outcome F (option Result * bool) :=
  match result with
  | None => Ok (partial, true)
  | Some r =>
      if negb (GetPartial r) then Ok (Some r, false)
      else
        match partial with
        | None => Panic
        | Some p =>
            let* newRow :=
              match Result_Cell p with
              | [] => Ok false
              | pc :: _ =>
                  let* rc := index (Result_Cell r) 0 in
                  Ok (negb (bytes_eqb (Row rc) (Row pc)))
              end in
            if (newRow : bool) then Ok (Some (set_Partial false r), false)
            else
              let r := set_Cell (Result_Cell r ++ Result_Cell p) r in
              Ok (Some (if GetStale p then set_Stale true r else r), true)
        end
  end.

Definition toLocalResult (r : option Result) : option LocalResult :=
  match r with None => None | Some _ => Some (ToLocalResult r) end.

(** ** The parts that talk to the servers *)

Section Send.
Context {W E : Type}.
Variable send : Scan -> W -> (E + option ScanResponse * option info) * W.

(** A function that may fail returns its error or value, the scanner and the
    world. *)
Definition reply (A : Type) : Type := outcome out_of_fuel ((scan_error E + A) * scanner * W).

Definition request_scan (s : scanner) : outcome error Scan :=
  if isRegionScannerClosed s then
    NewScanRange (b_ctx (s_base (sc_rpc s))) (b_table (s_base (sc_rpc s))) (startRow s)
      (s_stopRow (sc_rpc s)) (b_options (s_base (sc_rpc s)))
  else
    NewScanRange (b_ctx (s_base (sc_rpc s))) (b_table (s_base (sc_rpc s))) (startRow s) []
      [OptScannerID (curRegionScannerID s); OptNumberOfRows (s_numberOfRows (sc_rpc s))].

Definition request (s : scanner) (w : W)
    : outcome out_of_fuel ((scan_error E + ScanResponse * option info) * W) :=
  match request_scan s with
  | Panic => Panic
  | Err e => Ok (inl (OtherError e), w)
  | Ok rpc =>
      match send rpc w with
      | (inl e, w) => Ok (inl (RPCError e), w)
      | (inr (None, _), w) => Ok (inl (OtherError "got non-ScanResponse for scan request"), w)
      | (inr (Some resp, region), w) => Ok (inr (resp, region), w)
      end
  end.

Fixpoint fetch (fuel : nat) (s : scanner) (w : W) : reply (list (option Result)) :=
  match fuel with
  | O => Err OutOfFuel
  | S fuel' =>
      let* r := request s w in
      match r with
      | (inl e, w) => let* s := Close s in Ok (inl e, s, w)
      | (inr (resp, region), w) =>
          let* s := update resp region s in
          let* done := isDone resp region s in
          let* s := if (done : bool) then Close s else Ok s in
          if bool_decide (Results resp <> []) then Ok (inr (Results resp), s, w)
          else if closed s then Ok (inl EOF, s, w)
          else fetch fuel' s w
      end
  end.

Definition peek (fuel : nat) (s : scanner) (w : W) : reply (option Result) :=
  match results s with
  | r :: _ => Ok (inr r, s, w)
  | [] =>
      if closed s then Ok (inl EOF, s, w)
      else
        let* f := fetch fuel s w in
        match f with
        | (inl e, s, w) => Ok (inl e, s, w)
        | (inr rs, s, w) =>
            let s := set_results rs s in
            let* r := index (results s) 0 in
            Ok (inr r, s, w)
        end
  end.

(** The loop of [Next], from the result put together so far.  The error comes
    with that result. *)
Fixpoint next_loop (fuel : nat) (result : option Result) (s : scanner) (w : W)
    : outcome out_of_fuel (option LocalResult * option (scan_error E) * scanner * W) :=
  match fuel with
  | O => Err OutOfFuel
  | S fuel' =>
      let* p := peek fuel s w in
      match p with
      | (inl err, s, w) =>
          match err, result with
          | EOF, Some r => Ok (toLocalResult (Some (set_Partial false r)), None, s, w)
          | _, _ => Ok (toLocalResult result, Some err, s, w)
          end
      | (inr partial, s, w) =>
          let* c := coalesce result partial in
          let '(result, done) := c in
          let s := if (done : bool) then shift s else s in
          match result with
          | Some r =>
              if negb (GetPartial r) then Ok (toLocalResult result, None, s, w)
              else next_loop fuel' result s w
          | None => Ok (None, None, s, w)
          end
      end
  end.

(** [ctxErr] is the error of the call's context when it is done. *)
Definition Next (fuel : nat) (ctxErr : option E) (s : scanner) (w : W)
    : outcome out_of_fuel (option LocalResult * option (scan_error E) * scanner * W) :=
  match ctxErr with
  | Some e => let* s := Close s in Ok (None, Some (RPCError e), s, w)
  | None =>
      if s_allowPartialResults (sc_rpc s) then
        let* p := peek fuel s w in
        match p with
        | (inl err, s, w) => Ok (None, Some err, s, w)
        | (inr result, s, w) => Ok (toLocalResult result, None, shift s, w)
        end
      else next_loop fuel None s w
  end.

End Send.

(** ** The row before a region *)

Lemma bytes_compare_cons x y a b :
  bytes_compare (x :: a) (y :: b)
  = match Z_of_byte x ?= Z_of_byte y with Eq => bytes_compare a b | c => c end.
Proof. done. Qed.

(** Any key is at most [n] bytes 0xff, or a proper extension of them. *)
Lemma le_padding n t : t <=b replicate n xff \/ exists c s, t = replicate n xff ++ c :: s.
Proof.
  revert t. induction n as [|n IH]; intros [|c t]; simpl.
  - left. apply bytes_le_refl.
  - right. eauto.
  - left. apply bytes_nil_le.
  - unfold bytes_le. rewrite bytes_compare_cons.
    pose proof (Z_of_byte_range c) as Hc. change (Z_of_byte xff) with 255.
    destruct (Z.compare_spec (Z_of_byte c) 255) as [Heq| |]; [|left; done|lia].
    assert (c = xff) as -> by (by apply Z_of_byte_inj).
    destruct (IH t) as [H|(c' & s & ->)]; [by left|right; eauto].
Qed.

(** What lies below [p ++ [b]]: below, equal to or above every key that starts
    with [p] and a smaller byte. *)
Lemma below_snoc p b k q :
  k <b p ++ [b] ->
  k <b p ++ q :: [] \/ exists c t, k = p ++ c :: t /\ Z_of_byte q <= Z_of_byte c < Z_of_byte b.
Proof.
  revert k. induction p as [|x p IH]; intros k; simpl.
  - unfold bytes_lt. destruct k as [|c t]; [by left|]. rewrite !bytes_compare_cons.
    destruct (Z.compare_spec (Z_of_byte c) (Z_of_byte b)); [by destruct t| |done]. intros _.
    destruct (Z.compare_spec (Z_of_byte c) (Z_of_byte q)); [right|by left|right]; exists c, t; split_and!; done || lia.
  - unfold bytes_lt in *. destruct k as [|y k]; [by left|]. rewrite !bytes_compare_cons.
    destruct (Z.compare_spec (Z_of_byte y) (Z_of_byte x)) as [Heq| |]; [|by left|done].
    apply Z_of_byte_inj in Heq as ->.
    intros H. destruct (IH k H) as [?|(c & t & -> & ?)]; [by left|right; eauto].
Qed.

Lemma bytes_lt_app_l p a b : p ++ a <b p ++ b <-> a <b b.
Proof. unfold bytes_lt. by rewrite bytes_compare_app_same. Qed.

Lemma bytes_le_app_l p a b : p ++ a <=b p ++ b <-> a <=b b.
Proof. unfold bytes_le. by rewrite bytes_compare_app_same. Qed.

Lemma rowBefore_snoc {F} p b :
  @rowBefore F (p ++ [b])
  = Ok (if bool_decide (b = x00) then p else (p ++ [byte_of_Z (Z_of_byte b - 1)]) ++ rowPadding).
Proof.
  unfold rowBefore. rewrite len_app. change (len [b]) with 1.
  replace (len p + 1 - 1) with (len p) by lia.
  assert (@index F byte (p ++ [b]) (len p) = Ok b) as ->.
  { unfold index, len. rewrite bool_decide_eq_true_2 by lia. rewrite Nat2Z.id.
    by rewrite list_lookup_middle. }
  cbn [obind]. case_bool_decide.
  - by apply slice_prefix.
  - unfold PutAt. rewrite !bool_decide_eq_true_2; [|rewrite len_app; unfold len; simpl; lia|unfold len; lia].
    cbn [andb]. unfold len. simpl length. rewrite Nat2Z.id, take_app_length.
    rewrite drop_ge by (rewrite length_app; simpl; lia). by rewrite app_nil_r.
Qed.

(** Nothing is between a key and the key followed by a zero byte. *)
Lemma le_of_lt_zero p k : k <b p ++ [x00] -> k <=b p.
Proof.
  revert k. induction p as [|x p IH]; intros [|y k]; unfold bytes_le, bytes_lt; simpl; try done.
  - pose proof (Z_of_byte_range y). change (Z_of_byte x00) with 0.
    destruct (Z.compare_spec (Z_of_byte y) 0); [by destruct k|lia|done].
  - destruct (Z_of_byte y ?= Z_of_byte x); try done. apply IH.
Qed.

Lemma rowBefore_gap {F} rsk :
  rsk <> [] ->
  exists row, @rowBefore F rsk = Ok row /\ row <b rsk /\
    forall k, k <b rsk -> k <=b row \/
      (last rsk <> Some x00 /\ exists c t, k = row ++ c :: t).
Proof.
  intros Hne. destruct (exists_last Hne) as (p & b & ->). rewrite rowBefore_snoc.
  eexists. split; [done|]. case_bool_decide as Hb.
  - subst b. split; [apply bytes_lt_prefix|]. intros k Hk.
    left. by apply le_of_lt_zero.
  - pose proof (Z_of_byte_range b) as Hr.
    assert (Z_of_byte b <> 0) as Hz.
    { intros H0. apply Hb. apply Z_of_byte_inj. by rewrite H0. }
    set (b' := byte_of_Z (Z_of_byte b - 1)).
    assert (Z_of_byte b' = Z_of_byte b - 1) as Hb' by (unfold b'; rewrite Z_of_byte_of_Z, Z.mod_small; lia).
    rewrite <- app_assoc. split.
    + apply bytes_lt_app_l. unfold bytes_lt. simpl.
      by destruct (Z.compare_spec (Z_of_byte b') (Z_of_byte b)); [lia| |lia].
    + intros k Hk. destruct (below_snoc p b k b' Hk) as [H|(c & t & -> & Hc)].
      * left. apply bytes_lt_le. eapply bytes_lt_trans; [exact H|]. apply bytes_lt_app_l.
        apply (bytes_lt_prefix [b'] xff (replicate 7 xff)).
      * assert (c = b') as -> by (apply Z_of_byte_inj; lia).
        destruct (le_padding 8 t) as [Hle|(c' & s & ->)].
        -- left. apply (proj2 (bytes_le_app_l p (b' :: t) (b' :: rowPadding))).
           by apply (proj2 (bytes_le_app_l [b'] t rowPadding)).
        -- right. split; [rewrite last_snoc; congruence|]. exists c', s. by rewrite <- app_assoc.
Qed.

(** The start row of the next region of a reversed scan is below the region
    just scanned, and nothing is between them but rows that extend it: when the
    region's start key ends with a zero byte, nothing at all; otherwise only
    keys that start with the lowered key followed by eight 0xff bytes. *)
Theorem rowBefore_nearest {F : Type} rsk :
  rsk <> [] ->
  exists row, @rowBefore F rsk = Ok row /\ row <b rsk /\
    forall k, k <b rsk -> k <=b row \/
      (last rsk <> Some x00 /\ exists c t, k = row ++ c :: t).
Proof. apply rowBefore_gap. Qed.

Lemma rowBefore_nearest_witness :
  exists row, @rowBefore Empty_set (bs "m") = Ok row /\ row <b bs "m".
Proof.
  destruct (@rowBefore_nearest Empty_set (bs "m")) as (row & H1 & H2 & _); [discriminate|].
  exists row. split; [exact H1|exact H2].
Defined.

(** ** Closing *)

Lemma closeRegionScanner_spec {F} s :
  exists s', @closeRegionScanner F s = Ok s' /\ curRegionScannerID s' = noScannerID /\
    sc_rpc s' = sc_rpc s /\ startRow s' = startRow s /\ results s' = results s /\ closed s' = closed s.
Proof.
  unfold closeRegionScanner. destruct (isRegionScannerClosed s) eqn:Hc.
  { apply bool_decide_eq_true in Hc. eauto 10. }
  destruct (negb (s_closeScanner (sc_rpc s))); simpl; eauto 10.
Qed.

Lemma Close_spec {F} s :
  exists s', @Close F s = Ok s' /\ sc_rpc s' = sc_rpc s /\ startRow s' = startRow s /\
    results s' = results s /\ closed s' = true.
Proof.
  unfold Close. destruct (closed s) eqn:Hc; [eauto 10|].
  destruct (@closeRegionScanner_spec F (set_closed s)) as (s' & -> & _ & H). exists s'. by split.
Qed.

(** ** One response *)

(** What an iteration of [fetch] does with a response. *)
Definition absorb {F} (resp : ScanResponse) (region : option info) (s : scanner) : outcome F scanner :=
  let* s := update resp region s in
  let* done := isDone resp region s in
  if (done : bool) then Close s else Ok s.

(** A server that has more for a region keeps a region scanner open. *)
Definition keeps_scanner (resp : ScanResponse) (s : scanner) : Prop :=
  GetMoreResultsInRegion resp = true ->
  isRegionScannerClosed s = false \/ exists id, ScannerId resp = Some id /\ id <> noScannerID.

(** Should the scan end with this region? *)
Definition last_region (rpc : Scan) (i : info) : bool :=
  if s_reversed rpc then
    bool_decide (r_startKey i = []) ||
    (bool_decide (s_stopRow rpc <> []) && bytes_leb (r_startKey i) (s_stopRow rpc))
  else
    bool_decide (r_stopKey i = []) ||
    (bool_decide (s_stopRow rpc <> []) && bytes_leb (s_stopRow rpc) (r_stopKey i)).

Definition next_start (rpc : Scan) (i : info) (row : bytes) : Prop :=
  if s_reversed rpc then
    match r_startKey i with [] => row = [] | _ => @rowBefore Empty_set (r_startKey i) = Ok row end
  else row = r_stopKey i.

Lemma rowBefore_total {F} rsk : rsk <> [] -> exists row, @rowBefore F rsk = Ok row /\ @rowBefore Empty_set rsk = Ok row.
Proof. intros Hne. destruct (exists_last Hne) as (p & b & ->). rewrite !rowBefore_snoc. eauto. Qed.

Lemma len_zero {A} (l : list A) : len l = 0 <-> l = [].
Proof. unfold len. destruct l; simpl; [done|]. split; [lia|done]. Qed.

Lemma open_spec {F} resp s :
  exists s', (if isRegionScannerClosed s && bool_decide (ScannerId resp <> None)
    then @openRegionScanner F (GetScannerId resp) s else Ok s) = Ok s' /\
    sc_rpc s' = sc_rpc s /\ startRow s' = startRow s /\ results s' = results s /\ closed s' = closed s /\
    (isRegionScannerClosed s' = false <->
     isRegionScannerClosed s = false \/ exists id, ScannerId resp = Some id /\ id <> noScannerID).
Proof.
  unfold openRegionScanner. destruct (isRegionScannerClosed s) eqn:Hc; simpl.
  - case_bool_decide as Hid; (eexists; split; [done|]); simpl; split_and!; try done.
    + unfold isRegionScannerClosed. simpl. rewrite bool_decide_eq_false. unfold GetScannerId.
      destruct (ScannerId resp) as [id|]; [|done]. simpl. split; [eauto|].
      intros [?|(? & [= ->] & ?)]; done.
    + rewrite Hc. split; [done|]. intros [?|(? & Hs & _)]; [done|]. by rewrite Hs in Hid.
  - eexists. split; [done|]. split_and!; try done. by split; [left|].
Qed.

Lemma update_spec {F} resp i s :
  exists s', @update F resp (Some i) s = Ok s' /\ sc_rpc s' = sc_rpc s /\ results s' = results s /\
    closed s' = closed s /\
    if GetMoreResultsInRegion resp
    then startRow s' = startRow s /\ (keeps_scanner resp s -> isRegionScannerClosed s' = false)
    else isRegionScannerClosed s' = true /\ next_start (sc_rpc s) i (startRow s').
Proof.
  unfold update. destruct (@open_spec F resp s) as (s1 & -> & E1 & E2 & E3 & E4 & E5). cbn [obind].
  destruct (GetMoreResultsInRegion resp) eqn:Hmore; cbn [negb].
  { exists s1. split_and!; try done. intros Hk. apply E5. by apply Hk. }
  destruct (@closeRegionScanner_spec F s1) as (s2 & -> & C0 & C1 & C2 & C3 & C4). cbn [obind regionOf].
  unfold next_start. rewrite <- E1, <- C1.
  destruct (s_reversed (sc_rpc s2)); cbn [negb].
  - case_bool_decide as Hl.
    + apply len_zero in Hl. eexists. split; [done|]. simpl. rewrite Hl, C1, C3, C4, E3, E4.
      unfold isRegionScannerClosed. simpl. by rewrite C0.
    + rewrite len_zero in Hl. destruct (@rowBefore_total F _ Hl) as (row & -> & Hrow).
      eexists. split; [done|]. simpl. rewrite C1, C3, C4, E3, E4. unfold isRegionScannerClosed. simpl.
      rewrite C0. split_and!; try done. by destruct (r_startKey i).
  - eexists. split; [done|]. simpl. rewrite C1, C3, C4, E3, E4. unfold isRegionScannerClosed. simpl.
    by rewrite C0.
Qed.

Lemma isDone_spec {F} resp i s :
  @isDone F resp (Some i) s
  = Ok (bool_decide (MoreResults resp = Some false) ||
        (isRegionScannerClosed s && last_region (sc_rpc s) i)).
Proof.
  unfold isDone, last_region. case_bool_decide as Hm; [done|]. cbn [orb].
  destruct (isRegionScannerClosed s); [|done]. cbn [negb andb obind regionOf].
  rewrite (bool_decide_ext _ _ (len_zero (r_stopKey i))), (bool_decide_ext _ _ (len_zero (r_startKey i))).
  rewrite (bool_decide_ext (len (s_stopRow (sc_rpc s)) <> 0) (s_stopRow (sc_rpc s) <> []))
    by (by rewrite len_zero).
  destruct (s_reversed (sc_rpc s)); cbn [negb andb].
  - rewrite andb_false_r. case_bool_decide; [done|]. cbn [orb]. do 2 f_equal.
    unfold bytes_leb. rewrite (bytes_compare_antisym (s_stopRow (sc_rpc s)) (r_startKey i)).
    by destruct (bytes_compare (s_stopRow (sc_rpc s)) (r_startKey i)).
  - rewrite andb_true_r. case_bool_decide; [done|]. cbn [orb]. do 2 f_equal.
    unfold bytes_leb. by destruct (bytes_compare (s_stopRow (sc_rpc s)) (r_stopKey i)).
Qed.

Lemma absorb_spec {F} resp i s :
  closed s = false -> MoreResults resp <> Some false -> keeps_scanner resp s ->
  exists s', @absorb F resp (Some i) s = Ok s' /\ sc_rpc s' = sc_rpc s /\ results s' = results s /\
    if GetMoreResultsInRegion resp then startRow s' = startRow s /\ closed s' = false
    else next_start (sc_rpc s) i (startRow s') /\ closed s' = last_region (sc_rpc s) i.
Proof.
  intros Hopen Hmr Hk. unfold absorb.
  destruct (@update_spec F resp i s) as (s1 & -> & E1 & E2 & E3 & E4). cbn [obind].
  rewrite isDone_spec. cbn [obind]. rewrite bool_decide_eq_false_2 by done. cbn [orb].
  destruct (GetMoreResultsInRegion resp).
  - destruct E4 as [E4 E5]. rewrite (E5 Hk). cbn [andb]. exists s1. split_and!; congruence.
  - destruct E4 as [E4 E5]. rewrite E4, E1. cbn [andb].
    destruct (last_region (sc_rpc s) i); [|exists s1; split_and!; congruence].
    destruct (@Close_spec F s1) as (s2 & -> & C1 & C2 & C3 & C4). exists s2.
    rewrite C2. split_and!; congruence.
Qed.

(** ** Walking the regions of a table *)

(** A region with the row the scan of it started from, and the rows such a scan
    goes through. *)
Definition visit : Type := info * bytes.

Definition scans (reversed : bool) (v : visit) (k : bytes) : Prop :=
  in_range v.1 k /\ if reversed then k <=b v.2 else v.2 <=b k.

(** The responses of a scan, in order: each comes from the region that holds the
    row the scanner was at (the client looks the region up by that row), and
    none says that the whole scan is over. *)
Inductive walk {F} : scanner -> list (ScanResponse * visit) -> scanner -> Prop :=
| walk_nil s : walk s [] s
| walk_cons s resp i s1 l s' :
    closed s = false -> in_range i (startRow s) -> MoreResults resp <> Some false ->
    keeps_scanner resp s -> @absorb F resp (Some i) s = Ok s1 -> walk s1 l s' ->
    walk s ((resp, (i, startRow s)) :: l) s'.

(** The regions the scan has been through to their end. *)
Definition finished (l : list (ScanResponse * visit)) : list visit :=
  snd <$> filter (fun ri => GetMoreResultsInRegion ri.1 = false) l.

Lemma finished_cons resp v l :
  finished ((resp, v) :: l)
  = if GetMoreResultsInRegion resp then finished l else v :: finished l.
Proof.
  unfold finished. rewrite filter_cons. simpl. by destruct (GetMoreResultsInRegion resp).
Qed.

(** Regions one after the other, each further than the last. *)
Definition ascending (l : list visit) : Prop :=
  StronglySorted (fun v v' => r_stopKey v.1 <> [] /\
    (r_stopKey v'.1 = [] \/ r_stopKey v.1 <b r_stopKey v'.1)) l.

Lemma walk_forward {F} s l s' :
  s_reversed (sc_rpc s) = false -> @walk F s l s' ->
  sc_rpc s' = sc_rpc s /\
  (forall k, startRow s <=b k -> (closed s' = false -> k <b startRow s') ->
     (closed s' = true -> s_stopRow (sc_rpc s) = [] \/ k <b s_stopRow (sc_rpc s)) ->
     closed s = false -> exists v, v ∈ finished l /\ scans false v k) /\
  ascending (finished l) /\
  Forall (fun v => r_stopKey v.1 = [] \/ startRow s <b r_stopKey v.1) (finished l).
Proof.
  intros Hfwd Hw. induction Hw as [s|s resp i s1 l s' Hopen Hin Hmr Hk Habs Hw IH].
  { split; [done|]. split; [|split; constructor]. intros k Hk1 Hk2 _ Hopen.
    exfalso. apply (bytes_lt_irrefl k). eapply bytes_lt_le_trans; [by apply Hk2|done]. }
  destruct (absorb_spec (F := F) resp i s Hopen Hmr Hk) as (s1' & Heq & E1 & _ & E2).
  assert (s1' = s1) as -> by congruence. rewrite E1 in *. destruct (IH Hfwd) as (IH1 & IH2 & IH3 & IH4).
  split; [done|]. rewrite finished_cons. destruct (GetMoreResultsInRegion resp).
  { destruct E2 as [E2 E3]. rewrite E2 in *. split_and!; try done. intros k ? ? ? _. by apply IH2. }
  destruct E2 as [E2 E3]. unfold next_start, last_region in *. rewrite Hfwd in *. rewrite E2 in *.
  destruct Hin as [Hin1 Hin2].
  assert (closed s1 = false -> r_stopKey i <> [] /\ startRow s <b r_stopKey i) as Hnext.
  { rewrite E3. intros [H1 _]%orb_false_iff. apply bool_decide_eq_false in H1. tauto. }
  assert (forall k, startRow s <=b k -> (r_stopKey i = [] \/ k <b r_stopKey i) ->
    exists v, v ∈ (i, startRow s) :: finished l /\ scans false v k) as Hhere.
  { intros k Hk1 Hk2. exists (i, startRow s). split; [by left|]. split; [|done]. split; [|done].
    by eapply bytes_le_trans. }
  assert (closed s1 = true -> finished l = [] /\ s' = s1) as Hend.
  { intros Hc. inversion Hw; subst; [done|congruence]. }
  split_and!.
  - intros k Hk1 Hk2 Hk3 _. destruct (closed s1) eqn:Hc.
    + destruct (Hend eq_refl) as [_ ->]. apply Hhere; [done|]. symmetry in E3.
      apply orb_true_iff in E3 as [H1|[H1 H2]%andb_true_iff].
      * apply bool_decide_eq_true in H1. by left.
      * apply bool_decide_eq_true in H1. apply bytes_leb_spec in H2. right.
        destruct (Hk3 Hc) as [?|Hk4]; [done|]. by eapply bytes_lt_le_trans.
    + destruct (Hnext eq_refl) as [Hne Hlt].
      destruct (decide (k <b r_stopKey i)) as [?|Hge]; [apply Hhere; auto|].
      destruct (IH2 k) as (j & Hj & Hjk); try done; [by apply bytes_le_not_lt|].
      exists j. split; [by right|done].
  - constructor; [done|]. destruct (closed s1) eqn:Hc; [destruct (Hend eq_refl) as [-> _]; constructor|].
    eapply Forall_impl; [exact IH4|]. intros j Hj. split; [apply Hnext; done|done].
  - constructor; [tauto|]. destruct (closed s1) eqn:Hc; [destruct (Hend eq_refl) as [-> _]; constructor|].
    eapply Forall_impl; [exact IH4|]. intros j [?|Hj]; [by left|right].
    eapply bytes_lt_trans; [apply Hnext; done|done].
Qed.

(** C8. A forward scan that ran to its end has finished a sequence of regions,
    each further than the last, and every row of the scan's range lies in one of
    them at or above the row the scan of that region started from: it skips no
    row and visits no region twice. *)
Theorem forward_scan_covers_range {F : Type} rpc l s' :
  s_reversed rpc = false -> @walk F (newScanner rpc) l s' -> closed s' = true ->
  ascending (finished l) /\
  forall k, s_startRow rpc <=b k -> s_stopRow rpc = [] \/ k <b s_stopRow rpc ->
    exists v, v ∈ finished l /\ scans false v k.
Proof.
  intros Hfwd Hw Hc. destruct (walk_forward (newScanner rpc) l s' Hfwd Hw) as (_ & Hcov & Hasc & _).
  split; [done|]. intros k Hk1 Hk2. apply Hcov; [done| |done|done]. congruence.
Qed.

(** The rows a reversed scan jumps over: those that extend the row it takes to
    be the one before a region it finished. *)
Definition jumped (l : list (ScanResponse * visit)) (k : bytes) : Prop :=
  exists v row c t, v ∈ finished l /\ @rowBefore Empty_set (r_startKey v.1) = Ok row /\
    last (r_startKey v.1) <> Some x00 /\ k = row ++ c :: t.

Lemma jumped_cons ri l k : jumped l k -> jumped (ri :: l) k.
Proof.
  intros (i & row & c & t & Hi & H). exists i, row, c, t. split; [|done].
  destruct ri as [resp j]. rewrite finished_cons. destruct (GetMoreResultsInRegion resp); [done|by right].
Qed.

Lemma walk_reversed {F} s l s' :
  s_reversed (sc_rpc s) = true -> @walk F s l s' ->
  forall k, k <=b startRow s -> closed s' = true -> s_stopRow (sc_rpc s) = [] \/ s_stopRow (sc_rpc s) <b k ->
    closed s = false -> (exists v, v ∈ finished l /\ scans true v k) \/ jumped l k.
Proof.
  intros Hrev Hw. induction Hw as [s|s resp i s1 l s' Hopen Hin Hmr Hk Habs Hw IH].
  { intros. congruence. }
  intros k Hk1 Hk2 Hk3 _.
  destruct (absorb_spec (F := F) resp i s Hopen Hmr Hk) as (s1' & Heq & E1 & _ & E2).
  assert (s1' = s1) as -> by congruence. rewrite E1 in *. specialize (IH Hrev).
  assert (closed s1 = false -> k <=b startRow s1 ->
    (exists v, v ∈ finished ((resp, (i, startRow s)) :: l) /\ scans true v k) \/
    jumped ((resp, (i, startRow s)) :: l) k) as Hrest.
  { intros Hc Hle. destruct (IH k Hle Hk2 Hk3 Hc) as [(j & Hj & ?)|Hj]; [left|right; by apply jumped_cons].
    exists j. split; [|done]. rewrite finished_cons.
    destruct (GetMoreResultsInRegion resp); [done|by right]. }
  destruct (GetMoreResultsInRegion resp) eqn:Hmore.
  { destruct E2 as [E2 E3]. apply Hrest; [done|]. by rewrite E2. }
  destruct E2 as [E2 E3]. unfold next_start, last_region in *. rewrite Hrev in *. destruct Hin as [Hin1 Hin2].
  assert ((i, startRow s) ∈ finished ((resp, (i, startRow s)) :: l)) as Hi by (rewrite finished_cons, Hmore; by left).
  destruct (decide (r_startKey i <=b k)) as [Hge|Hlt].
  { left. exists (i, startRow s). split; [done|]. split; [|done]. split; [done|]. destruct Hin2 as [?|?]; [by left|right].
    by eapply bytes_le_lt_trans. }
  assert (k <b r_startKey i) as Hlt' by (rewrite bytes_lt_not_le; done).
  assert (r_startKey i <> []) as Hne by (intros Hs; rewrite Hs in Hlt'; by apply bytes_not_lt_nil in Hlt').
  assert (closed s1 = false) as Hc.
  { rewrite E3, orb_false_iff. split; [by apply bool_decide_eq_false|].
    destruct Hk3 as [->|Hk3]; [done|]. apply andb_false_intro2, not_true_iff_false.
    rewrite bytes_leb_spec, bytes_le_not_lt. intros H. apply H. by eapply bytes_lt_trans. }
  destruct (@rowBefore_gap Empty_set (r_startKey i) Hne) as (row & Hrow & _ & Hgap).
  destruct (r_startKey i) as [|x0 xs] eqn:Hs; [done|]. rewrite <- Hs in *.
  assert (row = startRow s1) as -> by congruence.
  destruct (Hgap k Hlt') as [Hle|(Hz & c & t & ->)]; [by apply Hrest|]. right.
  exists (i, startRow s), (startRow s1), c, t. done.
Qed.

(** C23. A reversed scan that ran to its end has finished regions such that every
    row of its range lies in one of them, at or below the row the scan of that
    region started from, except for rows that extend one of the padded rows it
    continued from: those it jumps over. *)
Theorem reversed_scan_covers_range {F : Type} rpc l s' :
  s_reversed rpc = true -> @walk F (newScanner rpc) l s' -> closed s' = true ->
  forall k, k <=b s_startRow rpc -> s_stopRow rpc = [] \/ s_stopRow rpc <b k ->
    (exists v, v ∈ finished l /\ scans true v k) \/ jumped l k.
Proof.
  intros Hrev Hw Hc k Hk1 Hk2. by apply (walk_reversed (newScanner rpc) l s' Hrev Hw).
Qed.

(** ** Rows put together from partial results *)

Section Assembly.
Context {W E : Type}.
Variable send : Scan -> W -> (E + option ScanResponse * option info) * W.

(** The raw results the scanner hands out one by one: [peek] and [shift]; the
    last [peek] may not be followed by a [shift]. *)
Inductive pulls : scanner -> W -> list (option Result) -> scanner -> W -> Prop :=
| pulls_nil s w : pulls s w [] s w
| pulls_peek s w fuel x s1 w1 : peek send fuel s w = Ok (x, s1, w1) -> pulls s w [] s1 w1
| pulls_cons s w fuel r s1 w1 rs s' w' :
    peek send fuel s w = Ok (inr r, s1, w1) -> pulls (shift s1) w1 rs s' w' ->
    pulls s w (r :: rs) s' w'.

(** The first row of a result. *)
Definition row_of (r : Result) : option bytes := Row <$> head (Result_Cell r).

(** [coalesce] keeps, appends or declines: what was accepted is in the cells. *)
Lemma coalesce_spec {F} acc p r' done :
  @coalesce F acc (Some p) = Ok (r', done) ->
  match acc with
  | None => r' = Some p /\ done = true
  | Some r =>
      if done then GetPartial r = true /\
        exists r1, r' = Some r1 /\ Result_Cell r1 = Result_Cell r ++ Result_Cell p /\ GetPartial r1 = true /\
          (Result_Cell p = [] \/ row_of p = row_of r)
      else exists r1, r' = Some r1 /\ Result_Cell r1 = Result_Cell r /\ GetPartial r1 = false
  end.
Proof.
  unfold coalesce. intros H. destruct acc as [r|]; [|by injection H as <- <-].
  destruct (GetPartial r) eqn:Hp; cbn [negb] in H; [|injection H as <- <-; eauto].
  apply obind_Ok_inv in H as (newRow & Hn & H). destruct newRow; injection H as <- <-; [eauto|].
  split; [done|]. eexists. split; [done|].
  assert (Result_Cell p = [] \/ row_of p = row_of r) as Hrow.
  { unfold row_of. destruct (Result_Cell p) as [|pc ps]; [by left|right].
    destruct (Result_Cell r) as [|rc rs]; simpl in Hn; [done|]. injection Hn as Hn.
    apply negb_false_iff, bool_decide_eq_true in Hn. simpl. by rewrite Hn. }
  destruct (GetStale p); done.
Qed.

Definition cells_of (rs : list Result) : list Cell := concat (Result_Cell <$> rs).

(** The parts are of one row, the one of the cells. *)
Definition same_row (cs : list Cell) (rs : list Result) : Prop :=
  forall r, r ∈ rs -> Result_Cell r = [] \/ row_of r = Row <$> head cs.

(** What has been accepted so far: the result under construction and its parts. *)
Definition built (acc : option Result) (rs : list Result) : Prop :=
  match acc with
  | None => rs = []
  | Some r => rs <> [] /\ Result_Cell r = cells_of rs /\ same_row (Result_Cell r) rs
  end.

Lemma cells_of_snoc rs p : cells_of (rs ++ [p]) = cells_of rs ++ Result_Cell p.
Proof. unfold cells_of. rewrite fmap_app, concat_app. simpl. by rewrite app_nil_r. Qed.

Lemma built_first p : built (Some p) [p].
Proof.
  split_and!; [done|unfold cells_of; simpl; by rewrite app_nil_r|].
  intros r Hr. apply list_elem_of_singleton in Hr as ->. by right.
Qed.

Lemma built_snoc r rs p r1 :
  built (Some r) rs -> Result_Cell r1 = Result_Cell r ++ Result_Cell p ->
  Result_Cell p = [] \/ row_of p = row_of r -> built (Some r1) (rs ++ [p]).
Proof.
  intros (Hne & Hc & Hrow) H1 Hp. split_and!.
  - by destruct rs.
  - by rewrite cells_of_snoc, H1, Hc.
  - assert (Row <$> head (Result_Cell r1) = row_of r) as Hhead.
    { rewrite H1. unfold row_of in *. destruct (Result_Cell r); [|done].
      destruct Hp as [->|Hp]; [done|]. by destruct (Result_Cell p). }
    rewrite <- Hhead in Hp. intros q [Hq|Hq]%elem_of_app.
    + destruct (Hrow q Hq) as [?|Hq']; [by left|right]. rewrite Hhead. exact Hq'.
    + apply list_elem_of_singleton in Hq as ->. done.
Qed.

Definition next_post (parts : list Result) (lr : option LocalResult) (err : option (scan_error E))
    (rs : list (option Result)) : Prop :=
  match lr with
  | Some l => exists new, rs = Some <$> new /\ parts ++ new <> [] /\ Cells l = cells_of (parts ++ new) /\
      same_row (Cells l) (parts ++ new) /\ (err = None -> L_Partial l = false)
  | None => parts = [] /\ rs = match err with Some _ => [] | None => [None] end
  end.

Lemma next_post_built r parts err p :
  built (Some r) parts -> (err = None -> p = false) ->
  next_post parts (toLocalResult (Some (if p then r else set_Partial false r))) err [].
Proof.
  intros (Hne & Hc & Hrow) Hp. exists []. rewrite app_nil_r.
  destruct p; simpl; split_and!; try done; intros Herr; by specialize (Hp Herr).
Qed.

Lemma next_loop_spec fuel acc parts s w lr err s' w' :
  next_loop send fuel acc s w = Ok (lr, err, s', w') -> built acc parts ->
  (forall r, acc = Some r -> GetPartial r = true) ->
  exists rs, pulls s w rs s' w' /\ next_post parts lr err rs.
Proof.
  revert acc parts s w. induction fuel as [|fuel IH]; intros acc parts s w H Hb Hpart; [done|].
  cbn [next_loop] in H. apply obind_Ok_inv in H as ([[x s1] w1] & Hpeek & H). destruct x as [e|p].
  - exists []. destruct acc as [r|].
    + destruct e; injection H as <- <- <- <-; (split; [by eapply pulls_peek|]).
      * by apply (next_post_built r parts None false).
      * by apply (next_post_built r parts (Some (RPCError e)) true).
      * by apply (next_post_built r parts (Some (OtherError msg)) true).
    + simpl in Hb. subst parts.
      destruct e; injection H as <- <- <- <-; (split; [by eapply pulls_peek|done]).
  - apply obind_Ok_inv in H as ([r' done] & Hco & H). destruct p as [p|].
    2: { destruct acc as [r|]; simpl in Hco.
         - by rewrite (Hpart r eq_refl) in Hco.
         - injection Hco as <- <-. injection H as <- <- <- <-. simpl in Hb. subst parts.
           exists [None]. split; [|done]. by eapply pulls_cons; [|apply pulls_nil]. }
    apply coalesce_spec in Hco. destruct acc as [r|].
    + destruct done.
      * destruct Hco as (_ & r1 & -> & Hc & Hp & Hrow). rewrite Hp in H. cbn [negb] in H.
        apply (IH _ (parts ++ [p])) in H as (rs & Hpulls & Hpost); [|by eapply built_snoc|by intros ? [= <-]].
        exists (Some p :: rs). split; [by eapply pulls_cons|]. destruct lr as [l|].
        -- destruct Hpost as (new & -> & Hpost). exists (p :: new).
           rewrite <- app_assoc in Hpost. by simpl in Hpost.
        -- destruct Hpost as [Hpost _]. by destruct parts.
      * destruct Hco as (r1 & -> & Hc & Hp). rewrite Hp in H. injection H as <- <- <- <-.
        exists []. split; [by eapply pulls_peek|]. exists []. rewrite app_nil_r. simpl.
        destruct Hb as (? & Hb & Hrow). rewrite Hc. by split_and!.
    + destruct Hco as [-> ->]. simpl in Hb. subst parts. pose proof (built_first p) as Hfirst.
      destruct (GetPartial p) eqn:Hp; cbn [negb] in H.
      * apply (IH _ [p]) in H as (rs & Hpulls & Hpost); [|done|by intros ? [= <-]].
        exists (Some p :: rs). split; [by eapply pulls_cons|]. destruct lr as [l|]; [|by destruct Hpost].
        destruct Hpost as (new & -> & Hpost). by exists (p :: new).
      * injection H as <- <- <- <-. exists [Some p]. split; [by eapply pulls_cons; [|apply pulls_nil]|].
        exists [p]. simpl. destruct Hfirst as (? & Hc & Hrow). by split_and!.
Qed.


End Assembly.

(** ** The scanner returns *)

Section Script.
Context {E : Type}.
Variable e_end : E.

(** Servers that answer a finite list of replies and then fail. *)
Abbreviation server_reply := (E + option ScanResponse * option info)%type.

Definition send_script (rpc : Scan) (w : list server_reply) : server_reply * list server_reply :=
  match w with
  | [] => (inl e_end, [])
  | r :: w => (r, w)
  end.

(** The filters of the scan were constructed. *)
Definition options_ok (os : list callOption) : Prop := Forall (fun o => o <> OptFilters Panic) os.

Lemma applyOption_no_panic o c : o <> OptFilters Panic -> applyOption o c <> Panic.
Proof.
  intros Ho. destruct o; simpl; unfold applySkipBatch, on_query, on_scan, on_mutate;
    destruct c; simpl; repeat case_bool_decide; simpl; try done.
  all: match goal with f : outcome error Filter |- _ => by destruct f end.
Qed.

Lemma apply_loop_no_panic os c : options_ok os -> apply_loop os c <> Panic.
Proof.
  intros Hos. revert c. induction Hos as [|o os Ho _ IH]; intros c; simpl; [done|].
  pose proof (applyOption_no_panic o c Ho). destruct (applyOption o c); simpl; [apply IH|done|done].
Qed.

Lemma NewScanRange_no_panic ctx table a b os : options_ok os -> NewScanRange ctx table a b os <> Panic.
Proof.
  intros Hos. unfold NewScanRange, baseScan, applyOptions.
  pose proof (apply_loop_no_panic os) as Hp.
  match goal with |- context [apply_loop os ?c] => set (c0 := c); specialize (Hp c0 Hos) end.
  destruct (apply_loop os c0) as [c| |] eqn:Hc; simpl; [|done|done].
  apply apply_loop_ok in Hc as (_ & _ & Hk); [|split; [apply newBaseQuery_ok|done]].
  by destruct c.
Qed.

Lemma request_scan_no_panic s : options_ok (b_options (s_base (sc_rpc s))) -> request_scan s <> Panic.
Proof.
  intros Hos. unfold request_scan. destruct (isRegionScannerClosed s); [by apply NewScanRange_no_panic|].
  apply NewScanRange_no_panic. repeat constructor; done.
Qed.

(** A reply with a response comes from a region, and its results hold cells. *)
Definition result_good (r : option Result) : Prop := exists x, r = Some x /\ Result_Cell x <> [].

Definition reply_good (r : server_reply) : Prop :=
  match r with
  | inr (Some resp, region) => is_Some region /\ Forall result_good (Results resp)
  | _ => True
  end.

Definition reply_cost (r : server_reply) : nat :=
  match r with inr (Some resp, _) => S (length (Results resp)) | _ => 1 end.

Definition script_cost (w : list server_reply) : nat := sum_list_with reply_cost w.

Lemma script_cost_cons r w : script_cost (r :: w) = (reply_cost r + script_cost w)%nat.
Proof. done. Qed.

Lemma absorb_keeps {F} resp i s s' :
  @absorb F resp (Some i) s = Ok s' -> sc_rpc s' = sc_rpc s /\ results s' = results s.
Proof.
  unfold absorb. destruct (@update_spec F resp i s) as (s1 & -> & E1 & E2 & _). cbn [obind].
  rewrite isDone_spec. cbn [obind]. destruct (_ || _).
  - destruct (@Close_spec F s1) as (s2 & -> & C1 & _ & C3 & _). intros [= <-]. split; congruence.
  - intros [= <-]. done.
Qed.

Lemma absorb_total {F} resp i s : exists s', @absorb F resp (Some i) s = Ok s'.
Proof.
  unfold absorb. destruct (@update_spec F resp i s) as (s1 & -> & _). cbn [obind].
  rewrite isDone_spec. cbn [obind]. destruct (_ || _); [|eauto].
  destruct (@Close_spec F s1) as (s2 & -> & _). eauto.
Qed.

Lemma fetch_unfold {W} (send : Scan -> W -> server_reply * W) fuel s w :
  fetch send (S fuel) s w =
  let* r := request send s w in
  match r with
  | (inl e, w) => let* s := Close s in Ok (inl e, s, w)
  | (inr (resp, region), w) =>
      let* s := absorb resp region s in
      if bool_decide (Results resp <> []) then Ok (inr (Results resp), s, w)
      else if closed s then Ok (inl EOF, s, w)
      else fetch send fuel s w
  end.
Proof.
  cbn [fetch]. destruct (request send s w) as [[[e|[resp region]] w']| |]; try done. cbn [obind].
  unfold absorb. destruct (update resp region s) as [s1| |]; [|done|done]. cbn [obind].
  destruct (isDone resp region s1) as [d| |]; [|done|done]. cbn [obind]. by destruct d.
Qed.

Lemma fetch_script fuel s w :
  (length w < fuel)%nat -> Forall reply_good w -> options_ok (b_options (s_base (sc_rpc s))) ->
  exists r s' w', fetch send_script fuel s w = Ok (r, s', w') /\
    sc_rpc s' = sc_rpc s /\ Forall reply_good w' /\ (script_cost w' <= script_cost w)%nat /\
    match r with
    | inr rs => rs <> [] /\ Forall result_good rs /\ (length rs + script_cost w' < script_cost w)%nat
    | inl _ => results s' = results s
    end.
Proof.
  revert s w. induction fuel as [|fuel IH]; intros s w Hf Hw Hos; [lia|].
  rewrite fetch_unfold. unfold request. pose proof (request_scan_no_panic s Hos) as Hns.
  destruct (request_scan s) as [rpc|e|]; [|clear Hns|done].
  2: { cbn [obind]. destruct (@Close_spec out_of_fuel s) as (s1 & -> & C1 & _ & C3 & _). simpl.
       eexists _, s1, w. by split_and!. }
  destruct w as [|r w]; cbn [send_script].
  { cbn [obind]. destruct (@Close_spec out_of_fuel s) as (s1 & -> & C1 & _ & C3 & _). simpl.
    eexists _, s1, []. by split_and!. }
  apply Forall_cons in Hw as [Hr Hw]. rewrite script_cost_cons.
  destruct r as [e|[[resp|] region]]; cbn [obind].
  - destruct (@Close_spec out_of_fuel s) as (s1 & -> & C1 & _ & C3 & _). simpl.
    eexists _, s1, w. split_and!; try done. cbn [reply_cost]; lia.
  - destruct Hr as [[i ->] Hres]. destruct (@absorb_total out_of_fuel resp i s) as (s1 & Ha).
    rewrite Ha. cbn [obind]. apply absorb_keeps in Ha as [A1 A2]. case_bool_decide as Hne.
    { eexists (inr _), s1, w. cbn [reply_cost]. split_and!; try done; lia. }
    destruct (closed s1).
    { eexists (inl _), s1, w. cbn [reply_cost]. split_and!; try done; lia. }
    simpl in Hf. rewrite <- A1 in Hos.
    destruct (IH s1 w) as (r & s' & w' & Hfetch & F1 & F2 & F3 & F4); [lia|done|done|].
    eexists r, s', w'. rewrite A1 in F1. split_and!; try done; [cbn [reply_cost]; lia|].
    destruct r; [congruence|]. destruct F4 as (? & ? & ?). split_and!; try done. cbn [reply_cost]; lia.
  - destruct (@Close_spec out_of_fuel s) as (s1 & -> & C1 & _ & C3 & _). simpl.
    eexists _, s1, w. split_and!; try done. cbn [reply_cost]; lia.
Qed.

Lemma script_cost_length w : (length w <= script_cost w)%nat.
Proof.
  induction w as [|r w IH]; [done|]. unfold script_cost in *. simpl.
  destruct r as [|[[]?]]; simpl; lia.
Qed.

Lemma peek_script fuel s w :
  (length (results s) + script_cost w < fuel)%nat -> Forall reply_good w -> Forall result_good (results s) ->
  options_ok (b_options (s_base (sc_rpc s))) ->
  exists r s' w', peek send_script fuel s w = Ok (r, s', w') /\
    sc_rpc s' = sc_rpc s /\ Forall reply_good w' /\
    match r with
    | inr p => result_good p /\ Forall result_good (results s') /\ results s' <> [] /\
        (length (results s') + script_cost w' <= length (results s) + script_cost w)%nat
    | inl _ => True
    end.
Proof.
  intros Hf Hw Hs Hos. unfold peek. destruct (results s) as [|r rs] eqn:Hrs.
  - destruct (closed s); [by eexists _, s, w|].
    pose proof (script_cost_length w) as Hlen. simpl in Hf.
    destruct (fetch_script fuel s w) as (r & s' & w' & -> & F1 & F2 & F3 & F4); [lia|done|done|].
    cbn [obind]. destruct r as [e|rs]; [by eexists _, s', w'|]. destruct F4 as (Hne & Hgood & Hc).
    destruct rs as [|r rs]; [done|]. simpl. eexists _, _, w'. split; [done|]. simpl.
    apply Forall_cons in Hgood as [Hr Hgood]. split_and!; try done; [by constructor|simpl in Hc; lia].
  - eexists _, s, w. split; [done|]. rewrite Hrs. apply Forall_cons in Hs as [Hr Hs].
    split_and!; try done. by constructor.
Qed.

Lemma coalesce_good {F} acc p :
  (forall r, acc = Some r -> Result_Cell r <> []) -> Result_Cell p <> [] ->
  exists r' done, @coalesce F acc (Some p) = Ok (Some r', done) /\ Result_Cell r' <> [] /\
    (done = false -> GetPartial r' = false).
Proof.
  intros Hacc Hp. unfold coalesce. destruct acc as [r|]; [|by eexists p, true].
  specialize (Hacc r eq_refl). destruct (GetPartial r) eqn:Hpart; [|by eexists r, false].
  cbn [negb]. destruct (Result_Cell p) as [|pc ps] eqn:Hpc; [done|].
  destruct (Result_Cell r) as [|rc rs] eqn:Hrc; [done|]. cbn [index]. simpl.
  destruct (negb (bytes_eqb (Row rc) (Row pc))).
  - eexists _, false. split; [done|]. simpl. rewrite Hrc. done.
  - eexists _, true. split; [done|]. destruct (GetStale p); simpl; done.
Qed.

Lemma next_loop_script fuel acc s w :
  (length (results s) + script_cost w < fuel)%nat -> Forall reply_good w -> Forall result_good (results s) ->
  options_ok (b_options (s_base (sc_rpc s))) -> (forall r, acc = Some r -> Result_Cell r <> []) ->
  exists x, next_loop send_script fuel acc s w = Ok x.
Proof.
  revert acc s w. induction fuel as [|fuel IH]; intros acc s w Hf Hw Hs Hos Hacc; [lia|].
  cbn [next_loop].
  destruct (peek_script (S fuel) s w Hf Hw Hs Hos) as (r & s1 & w1 & -> & P1 & P2 & P3). cbn [obind].
  destruct r as [e|p]; [destruct e, acc; eauto|].
  destruct P3 as ((x & -> & Hx) & Hs1 & Hne & Hc).
  destruct (@coalesce_good out_of_fuel acc x Hacc Hx) as (r' & done & -> & Hr' & Hd). cbn [obind].
  destruct (GetPartial r') eqn:Hp; cbn [negb]; [|eauto].
  destruct done; [|by specialize (Hd eq_refl)].
  destruct (results s1) as [|y ys] eqn:Hrs; [done|]. simpl in Hc.
  apply IH; unfold shift; simpl; rewrite ?Hrs, ?P1; simpl; try done; [lia|by apply Forall_cons in Hs1 as [_ ?]|].
  by intros ? [= <-].
Qed.

(** C22. Against servers that answer any finite list of well-formed replies and
    then fail, [Next] returns: it neither spins nor panics, with fuel above the
    number of replies and results still to come. *)
Theorem Next_returns fuel ctxErr s w :
  (length (results s) + script_cost w < fuel)%nat -> Forall reply_good w -> Forall result_good (results s) ->
  options_ok (b_options (s_base (sc_rpc s))) ->
  exists lr err s' w', Next send_script fuel ctxErr s w = Ok (lr, err, s', w').
Proof.
  intros Hf Hw Hs Hos. unfold Next. destruct ctxErr as [e|].
  { destruct (@Close_spec out_of_fuel s) as (s' & -> & _). simpl. eauto 10. }
  destruct (s_allowPartialResults (sc_rpc s)).
  - destruct (peek_script fuel s w Hf Hw Hs Hos) as (r & s1 & w1 & -> & _). cbn [obind].
    destruct r; eauto 10.
  - destruct (next_loop_script fuel None s w Hf Hw Hs Hos) as ([[[lr err] s'] w'] & ->); [done|]. eauto 10.
Qed.

End Script.

(** When the start key of a region does not end with a zero byte, the row the
    reversed scan continues from is not the nearest lower value: every proper
    extension of it still lies below the region and is never asked for. *)
Theorem rowBefore_not_nearest {F : Type} p b c t :
  b <> x00 ->
  exists row, @rowBefore F (p ++ [b]) = Ok row /\ row <b row ++ c :: t /\ row ++ c :: t <b p ++ [b].
Proof.
  intros Hb. rewrite rowBefore_snoc, bool_decide_eq_false_2 by done. eexists. split; [done|].
  split; [apply bytes_lt_prefix|]. rewrite <- !app_assoc. apply bytes_lt_app_l.
  pose proof (Z_of_byte_range b) as Hr.
  assert (Z_of_byte b <> 0) as Hz by (intros H0; apply Hb, Z_of_byte_inj; by rewrite H0).
  unfold bytes_lt. simpl. rewrite Z_of_byte_of_Z, Z.mod_small by lia.
  by destruct (Z.compare_spec (Z_of_byte b - 1) (Z_of_byte b)); [lia| |lia].
Qed.

Lemma rowBefore_not_nearest_witness :
  exists row, @rowBefore Empty_set (bs "b") = Ok row /\ row <b row ++ [x00] /\ row ++ [x00] <b bs "b".
Proof. apply (@rowBefore_not_nearest Empty_set [] x62 x00 []). discriminate. Defined.

(** ** A table of two regions *)

Definition region1 : info := Info 1 None (bs "t") (bs "t,,1.") [] (bs "m") false None None.
Definition region2 : info := Info 1 None (bs "t") (bs "t,m,1.") (bs "m") [] false None None.

Definition sample_scan (reversed : bool) : Scan :=
  mkScan (mkBase 0 (bs "t") (if reversed then bs "z" else bs "a") [] None) newBaseQuery
    (if reversed then bs "z" else bs "a") [] MaxUint64 DefaultMaxResultSize DefaultNumberOfRows
    reversed false false.

Definition part (row : string) (q : string) (partial : bool) : Result :=
  mkResult [mkCell (bs row) (bs "cf") (bs q) (Some 1) (Some 4) (bs "v")] None None None (Some partial).

(** Two parts of a row and the end of the region. *)
Definition sample_resp : ScanResponse :=
  mkScanResponse [] (Some 7) None [Some (part "b" "p" true); Some (part "b" "q" true)] [] (Some false).

Ltac walk_tac :=
  repeat (eapply walk_cons;
    [reflexivity|split; [discriminate|first [left; reflexivity|right; vm_compute; reflexivity]]
    |discriminate|intros ?; discriminate|vm_compute; reflexivity|]); apply walk_nil.

Lemma forward_scan_covers_range_witness :
  exists l s', @walk Empty_set (newScanner (sample_scan false)) l s' /\ closed s' = true /\
    exists v, v ∈ finished l /\ scans false v (bs "x").
Proof.
  assert (exists s', @walk Empty_set (newScanner (sample_scan false))
    [(sample_resp, (region1, bs "a")); (sample_resp, (region2, bs "m"))] s' /\ closed s' = true) as (s' & Hw & Hc).
  { eexists. split; [walk_tac|]. vm_compute. reflexivity. }
  exists [(sample_resp, (region1, bs "a")); (sample_resp, (region2, bs "m"))], s'.
  split; [exact Hw|]. split; [exact Hc|].
  apply (@forward_scan_covers_range Empty_set (sample_scan false) _ s' eq_refl Hw Hc).
  - discriminate.
  - left. reflexivity.
Defined.

Lemma reversed_scan_covers_range_witness :
  exists l s', @walk Empty_set (newScanner (sample_scan true)) l s' /\ closed s' = true /\
    ((exists v, v ∈ finished l /\ scans true v (bs "b")) \/ jumped l (bs "b")).
Proof.
  set (l := [(sample_resp, (region2, bs "z")); (sample_resp, (region1, bs "l" ++ rowPadding))]).
  assert (exists s', @walk Empty_set (newScanner (sample_scan true)) l s' /\ closed s' = true)
    as (s' & Hw & Hc).
  { eexists. split; [unfold l; walk_tac|]. vm_compute. reflexivity. }
  exists l, s'. split; [exact Hw|]. split; [exact Hc|].
  apply (@reversed_scan_covers_range Empty_set (sample_scan true) l s' eq_refl Hw Hc).
  - discriminate.
  - left. reflexivity.
Defined.


Lemma Next_returns_witness :
  exists lr err s' w', Next (send_script tt) 10 None (newScanner (sample_scan false))
      [inr (Some sample_resp, Some region1)] = Ok (lr, err, s', w').
Proof.
  apply (Next_returns tt 10 None (newScanner (sample_scan false)) [inr (Some sample_resp, Some region1)]).
  - vm_compute. lia.
  - apply Forall_cons; split; [|constructor]. split; [eexists; reflexivity|].
    apply Forall_cons; split; [|apply Forall_cons; split; [|constructor]];
      (eexists; split; [reflexivity|discriminate]).
  - constructor.
  - constructor.
Defined.
