(* ===== verification/ScanTable.v ===== *)
(** * Scanning a table: scanner.go against the servers of a table

    What a user gets who calls [Next] until it fails, when the servers hold a
    table.  A table is its rows in the order of their keys.  [ScanServer] states
    the contract of the servers with a client that scans: a region scanner that is
    opened goes through the rows of the region that are in the range of the
    request; its answers carry them cut into results at any cell, any number of
    results at a time, none included; and the servers answer finitely often.  The
    servers may fail at any time, and the regions may change between two requests
    that open a region scanner.  [table_server] is a server that keeps the
    contract. *)

From S2P Require Import Prelude Pb RegionInfo Hrpc Scanner.

(** ** Tables *)

Record table_row := TableRow { tr_key : bytes; tr_cells : list Cell }.

Definition row_ok (r : table_row) : Prop :=
  tr_cells r <> [] /\ Forall (fun c => Row c = tr_key r) (tr_cells r).

Record table_ok (t : list table_row) : Prop := {
  tk_sorted : StronglySorted (fun r r' => tr_key r <b tr_key r') t;
  tk_rows : Forall row_ok t;
}.

(** Before a row, the empty one being the end. *)
Definition before (b : bytes) (r : table_row) : bool := bool_decide (b = []) || bytes_ltb (tr_key r) b.

Definition in_scan (a b : bytes) (r : table_row) : bool := bytes_leb a (tr_key r) && before b r.

Definition in_region (i : info) (r : table_row) : bool :=
  bytes_leb (r_startKey i) (tr_key r) && before (r_stopKey i) r.

Definition rows_between (a b : bytes) (t : list table_row) : list table_row :=
  filter (fun r => in_scan a b r = true) t.

Definition region_rows (i : info) (a b : bytes) (t : list table_row) : list table_row :=
  filter (fun r => in_scan a b r && in_region i r = true) t.

Lemma table_ok_app l k : table_ok (l ++ k) -> table_ok k.
Proof.
  intros [Hs Hr]. apply Forall_app in Hr as [_ Hr]. split; [|done].
  induction l as [|x l IH]; [done|]. simpl in Hs. apply StronglySorted_inv in Hs as [Hs _]. auto.
Qed.

Lemma table_ok_filter (P : table_row -> Prop) `{!forall x, Decision (P x)} t : table_ok t -> table_ok (filter P t).
Proof.
  assert (forall (Q : table_row -> Prop) l, Forall Q l -> Forall Q (filter P l)) as HF.
  { intros Q l. rewrite !Forall_forall. intros HQ x [_ Hx]%list_elem_of_filter. auto. }
  intros [Hs Hr]. split; [|by apply HF]. clear Hr.
  induction Hs as [|x t _ IH Hx]; [constructor|]. rewrite filter_cons.
  case_decide; [|done]. constructor; [done|by apply HF].
Qed.

(** In a sorted table the rows before a key come first. *)
Lemma filter_sorted_split (f g : table_row -> bool) t :
  StronglySorted (fun r r' => tr_key r <b tr_key r') t ->
  (forall r r', tr_key r <b tr_key r' -> g r' = true -> g r = true) ->
  filter (fun r => f r = true) t =
  filter (fun r => f r && g r = true) t ++ filter (fun r => f r && negb (g r) = true) t.
Proof.
  intros Hs Hg. induction Hs as [|x t _ IH Hx]; [done|]. rewrite !filter_cons, IH.
  destruct (f x) eqn:Hf; simpl; [|done]. destruct (g x) eqn:Hgx; simpl; [done|].
  replace (filter (fun r => f r && g r = true) t) with (@nil table_row); [done|].
  symmetry. apply filter_none. intros y Hy. rewrite Forall_forall in Hx.
  apply andb_false_intro2, not_true_iff_false. intros Hgy. by rewrite (Hg x y (Hx y Hy) Hgy) in Hgx.
Qed.

Lemma before_down b r r' : tr_key r <b tr_key r' -> before b r' = true -> before b r = true.
Proof.
  unfold before. rewrite !orb_true_iff, !bytes_ltb_spec. intros Hlt [?|?]; [by left|right].
  by eapply bytes_lt_trans.
Qed.

(** What a scan from a row of a region has to go through: the rows of the region,
    then those from its end. *)
Lemma rows_between_region i a b t :
  table_ok t -> in_range i a ->
  rows_between a b t = region_rows i a b t ++ (if decide (r_stopKey i = []) then [] else rows_between (r_stopKey i) b t).
Proof.
  intros [Hs _] [Ha1 Ha2]. unfold rows_between, region_rows.
  rewrite (filter_sorted_split (in_scan a b) (before (r_stopKey i)) t Hs (before_down _)). f_equal.
  - apply list_filter_iff. intros r. unfold in_region, in_scan. rewrite !andb_true_iff, !bytes_leb_spec.
    split; [intros [[? ?] ?]; split_and!; try done; by eapply bytes_le_trans|tauto].
  - case_decide as Hk.
    + apply filter_none. intros r _. unfold before at 1. rewrite bool_decide_eq_true_2 by done.
      by rewrite andb_false_r.
    + destruct Ha2 as [?|Ha2]; [done|]. apply list_filter_iff. intros r.
      unfold in_scan, before at 2. rewrite bool_decide_eq_false_2 by done. cbn [orb].
      rewrite !andb_true_iff, negb_true_iff, !bytes_leb_spec. split.
      * intros [[? ?] Hn]. split; [|done]. apply bytes_le_not_lt. intros ?%bytes_ltb_spec. congruence.
      * intros [Hle ?]. split_and!; [|done|].
        -- eapply bytes_le_trans; [by apply bytes_lt_le|done].
        -- apply not_true_iff_false. rewrite bytes_ltb_spec. by apply bytes_le_not_lt.
Qed.

(** ** Rows cut into results *)

(** A row in one or more results, all but the last partial. *)
Inductive row_pieces : list Cell -> list Result -> Prop :=
| rp_last r : Result_Cell r <> [] -> row_pieces (Result_Cell r) [r]
| rp_more r cs rs :
    Result_Cell r <> [] -> GetPartial r = true -> row_pieces cs rs ->
    row_pieces (Result_Cell r ++ cs) (r :: rs).

Inductive pieces : list table_row -> list Result -> Prop :=
| pieces_nil : pieces [] []
| pieces_row r rows rs rs' : row_pieces (tr_cells r) rs -> pieces rows rs' -> pieces (r :: rows) (rs ++ rs').

Lemma pieces_app rows rows' rs rs' : pieces rows rs -> pieces rows' rs' -> pieces (rows ++ rows') (rs ++ rs').
Proof. intros H H'. induction H; [done|]. simpl. rewrite <- app_assoc. by constructor. Qed.

Lemma row_pieces_cells cs rs : row_pieces cs rs -> cs = cells_of rs /\ rs <> [].
Proof.
  unfold cells_of. induction 1 as [r|r cs rs _ _ _ [-> _]]; csimpl; [by rewrite app_nil_r|done].
Qed.

Lemma cells_of_app rs rs' : cells_of (rs ++ rs') = cells_of rs ++ cells_of rs'.
Proof. unfold cells_of. by rewrite fmap_app, concat_app. Qed.

Lemma pieces_cells rows rs : pieces rows rs -> concat (tr_cells <$> rows) = cells_of rs.
Proof.
  induction 1 as [|r rows rs rs' [H _]%row_pieces_cells _ IH]; [done|].
  csimpl. by rewrite cells_of_app, IH, H.
Qed.

Lemma pieces_nil_inv rows : pieces rows [] -> rows = [].
Proof.
  intros H. inversion H as [|r rows' rs rs' Hr Hp Hrows Heq]; [done|]. apply row_pieces_cells in Hr as [_ Hne].
  by apply app_nil in Heq as [-> _].
Qed.

(** The results of the first row, the first of them apart. *)
Lemma pieces_cons_inv rows x rs :
  pieces rows (x :: rs) ->
  exists r rows' rs1 rs2, rows = r :: rows' /\ rs = rs1 ++ rs2 /\ pieces rows' rs2 /\ Result_Cell x <> [] /\
    ((rs1 = [] /\ tr_cells r = Result_Cell x) \/
     exists cs, GetPartial x = true /\ row_pieces cs rs1 /\ tr_cells r = Result_Cell x ++ cs).
Proof.
  inversion 1 as [|r rows' rs1 rs2 Hr Hp Hrows Heq]; subst.
  inversion Hr as [x' Hne Hc Hx|x' cs rs' Hne Hpart Hr' Hc Hx]; subst; simpl in Heq; simplify_eq.
  - eexists _, _, [], _. split_and!; try done. by left.
  - eexists _, _, _, _. split_and!; try done. right. eauto.
Qed.

(** ** The servers *)

(** An open region scanner: its region, the row it stops before and the results
    that it has not yet sent. *)
Record session := Session { ss_region : info; ss_stop : bytes; ss_rest : list Result }.

(** The error that the scanner makes of an answer, if it is not a ScanResponse. *)
Definition failure {E : Type} (ans : E + option ScanResponse * option info) : option (scan_error E) :=
  match ans with
  | inl e => Some (RPCError e)
  | inr (None, _) => Some (OtherError "got non-ScanResponse for scan request")
  | inr (Some _, _) => None
  end.

Section Scans.
Context {W E : Type}.
Variable send : Scan -> W -> (E + option ScanResponse * option info) * W.
Variable tbl : bytes.
Variable t : list table_row.

Definition opens (rpc : Scan) (x : session) : Prop :=
  in_range (ss_region x) (s_startRow rpc) /\ ss_stop x = s_stopRow rpc /\
  pieces (region_rows (ss_region x) (s_startRow rpc) (s_stopRow rpc) t) (ss_rest x).

(** The scanner the answer leaves open. *)
Definition answer_id (rpc : Scan) (resp : ScanResponse) : Z :=
  if bool_decide (s_scannerID rpc = noScannerID) then GetScannerId resp else s_scannerID rpc.

(** The contract: [patience] bounds the answers still to come, [session_of] are
    the open region scanners. *)
Class ScanServer := {
  patience : W -> nat;
  session_of : W -> Z -> option session;
  send_answer rpc w resp region w' :
    b_table (s_base rpc) = tbl -> s_reversed rpc = false -> send rpc w = (inr (Some resp, region), w') ->
    (patience w' < patience w)%nat /\
    exists x rs rest, region = Some (ss_region x) /\ Results resp = Some <$> rs /\ ss_rest x = rs ++ rest /\
      (if bool_decide (s_scannerID rpc = noScannerID) then opens rpc x
       else session_of w (s_scannerID rpc) = Some x) /\
      (if GetMoreResultsInRegion resp
       then answer_id rpc resp <> noScannerID /\
         session_of w' (answer_id rpc resp) = Some (Session (ss_region x) (ss_stop x) rest) /\
         (s_scannerID rpc = noScannerID -> ScannerId resp <> None)
       else rest = []) /\
      (MoreResults resp = Some false -> rest = [] /\
         (r_stopKey (ss_region x) <> [] -> rows_between (r_stopKey (ss_region x)) (ss_stop x) t = []));
}.

(** ** Reading to the end *)

(** What a user does: [Next] until it returns an error. *)
Fixpoint read_all (calls fuel : nat) (s : scanner) (w : W) : outcome out_of_fuel (list LocalResult * scan_error E * W) :=
  match calls with
  | O => Err OutOfFuel
  | S calls =>
      let* n := Next send fuel None s w in
      match n with
      | (Some r, None, s, w) => let* '(rs, e, w) := read_all calls fuel s w in Ok (r :: rs, e, w)
      | (_, Some e, _, w) => Ok ([], e, w)
      | (None, None, _, _) => Panic
      end
  end.

(** ** What is still to come *)

Context {HS : ScanServer} (Ht : table_ok t).

(** The scan of the user: forward, over whole rows, as [NewScanRange] made it. *)
Record user_scan (rpc : Scan) (a b : bytes) : Prop := {
  us_made : NewScanRange (b_ctx (s_base rpc)) tbl a b (b_options (s_base rpc)) = Ok rpc;
  us_forward : s_reversed rpc = false;
  us_whole_rows : s_allowPartialResults rpc = false;
  us_no_id : s_scannerID rpc = noScannerID;
}.

Lemma NewScanRange_start ctx a a' b os rpc :
  NewScanRange ctx tbl a b os = Ok rpc ->
  exists rpc', NewScanRange ctx tbl a' b os = Ok rpc' /\ b_table (s_base rpc') = tbl /\ s_startRow rpc' = a' /\
    s_stopRow rpc' = b /\ s_reversed rpc' = s_reversed rpc /\ s_scannerID rpc' = s_scannerID rpc.
Proof.
  unfold NewScanRange. intros H. ok_inv. subst rpc. rewrite Hr. cbn [obind].
  apply baseScan_ok in Hr as (_ & _ & Hb). eexists. split; [done|]. simpl. by rewrite Hb.
Qed.

Context (rpc : Scan) (a b : bytes) (Hrpc : user_scan rpc a b).

Lemma user_scan_fields : b_table (s_base rpc) = tbl /\ s_startRow rpc = a /\ s_stopRow rpc = b.
Proof.
  destruct Hrpc as [Hm _ _ _]. destruct (NewScanRange_start _ _ a _ _ _ Hm) as (r & Hr & H1 & H2 & H3 & _).
  rewrite Hm in Hr. injection Hr as <-. done.
Qed.

(** The scanner between two requests: the results that are left in its region
    scanner, and the rows beyond the region. *)
Definition upcoming (s : scanner) (w : W) (rest : list Result) (later : list table_row) : Prop :=
  if closed s then rest = [] /\ later = []
  else if isRegionScannerClosed s then rest = [] /\ later = rows_between (startRow s) b t
  else exists x, session_of w (curRegionScannerID s) = Some x /\ ss_stop x = b /\ ss_rest x = rest /\
    in_range (ss_region x) (startRow s) /\
    later = if decide (r_stopKey (ss_region x) = []) then [] else rows_between (r_stopKey (ss_region x)) b t.

(** The request, and the answers that it can get. *)
Lemma request_scan_made s :
  sc_rpc s = rpc -> closed s = false ->
  exists r, request_scan s = Ok r /\ b_table (s_base r) = tbl /\ s_reversed r = false /\
    s_scannerID r = curRegionScannerID s /\
    (isRegionScannerClosed s = true -> s_startRow r = startRow s /\ s_stopRow r = b).
Proof.
  intros Hs Hc. unfold request_scan. rewrite Hs. destruct user_scan_fields as (Htbl & Hsa & Hsb). rewrite Htbl, Hsb.
  destruct Hrpc as [Hm Hf _ Hid]. destruct (isRegionScannerClosed s) eqn:Hcl.
  - apply bool_decide_eq_true in Hcl. destruct (NewScanRange_start _ _ (startRow s) _ _ _ Hm) as (r & -> & H1 & H2 & H3 & H4 & H5).
    exists r. rewrite H4, H5, Hcl. done.
  - eexists. split; [reflexivity|]. done.
Qed.

Lemma absorb_more {F} resp i s :
  closed s = false -> GetMoreResultsInRegion resp = true -> keeps_scanner resp s ->
  exists s', @absorb F resp (Some i) s = Ok s' /\ sc_rpc s' = sc_rpc s /\ results s' = results s /\
    closed s' = bool_decide (MoreResults resp = Some false) /\
    (closed s' = false -> startRow s' = startRow s /\ isRegionScannerClosed s' = false /\
       curRegionScannerID s' = if isRegionScannerClosed s then GetScannerId resp else curRegionScannerID s).
Proof.
  intros Hopen Hmore Hk. unfold absorb, update. rewrite Hmore.
  destruct (@open_spec F resp s) as (s1 & Ho & E1 & E2 & E3 & E4 & E5). rewrite Ho. cbn [obind negb].
  assert (isRegionScannerClosed s1 = false) as Hc1 by (apply E5, Hk, Hmore).
  rewrite isDone_spec, Hc1. cbn [obind andb]. rewrite orb_false_r.
  assert (curRegionScannerID s1 = if isRegionScannerClosed s then GetScannerId resp else curRegionScannerID s) as Hid.
  { destruct (isRegionScannerClosed s) eqn:Hcs; simpl in Ho; [|by injection Ho as <-].
    case_bool_decide as Hsi; simpl in Ho; [|injection Ho as <-; congruence].
    unfold openRegionScanner in Ho. rewrite Hcs in Ho. simpl in Ho. by injection Ho as <-. }
  destruct (bool_decide (MoreResults resp = Some false)).
  - destruct (@Close_spec F s1) as (s2 & -> & C1 & C2 & C3 & C4). exists s2. split_and!; [congruence..|intros ?; exfalso; congruence].
  - exists s1. split_and!; congruence || done.
Qed.

Lemma absorb_end {F} resp i s :
  closed s = false -> GetMoreResultsInRegion resp = false ->
  exists s', @absorb F resp (Some i) s = Ok s' /\ sc_rpc s' = sc_rpc s /\ results s' = results s /\
    closed s' = bool_decide (MoreResults resp = Some false) || last_region (sc_rpc s) i /\
    (closed s' = false -> isRegionScannerClosed s' = true /\ next_start (sc_rpc s) i (startRow s')).
Proof.
  intros Hopen Hmore. unfold absorb. destruct (@update_spec F resp i s) as (s1 & -> & E1 & E2 & E3 & E4).
  rewrite Hmore in E4. destruct E4 as [E4 E5]. cbn [obind]. rewrite isDone_spec, E4, E1. cbn [obind andb].
  destruct (_ || _).
  - destruct (@Close_spec F s1) as (s2 & -> & C1 & C2 & C3 & C4). exists s2. split_and!; [congruence..|intros ?; exfalso; congruence].
  - exists s1. split_and!; congruence || done.
Qed.

(** The rows after a region. *)
Definition beyond (i : info) : list table_row :=
  if decide (r_stopKey i = []) then [] else rows_between (r_stopKey i) b t.

Lemma last_region_beyond i : last_region rpc i = true -> beyond i = [].
Proof.
  unfold last_region, beyond. destruct user_scan_fields as (_ & _ & ->). rewrite (us_forward _ _ _ Hrpc).
  case_decide as Hk; [done|]. rewrite (bool_decide_eq_false_2 _ Hk). cbn [orb].
  intros [Hb Hle]%andb_true_iff. apply bool_decide_eq_true in Hb. apply bytes_leb_spec in Hle.
  apply filter_none. intros r _. unfold in_scan, before. rewrite (bool_decide_eq_false_2 _ Hb). cbn [orb].
  apply not_true_iff_false. rewrite andb_true_iff, bytes_leb_spec, bytes_ltb_spec. intros [H1 H2].
  apply (bytes_lt_irrefl b). eapply bytes_le_lt_trans; [done|]. by eapply bytes_le_lt_trans.
Qed.

(** The answer of a region scanner, absorbed. *)
Lemma absorb_upcoming r resp s w' x rs rest :
  sc_rpc s = rpc -> closed s = false -> s_scannerID r = curRegionScannerID s ->
  ss_stop x = b -> in_range (ss_region x) (startRow s) ->
  (if GetMoreResultsInRegion resp
   then answer_id r resp <> noScannerID /\
     session_of w' (answer_id r resp) = Some (Session (ss_region x) (ss_stop x) rest) /\
     (s_scannerID r = noScannerID -> ScannerId resp <> None)
   else rest = []) ->
  (MoreResults resp = Some false -> rest = [] /\
     (r_stopKey (ss_region x) <> [] -> rows_between (r_stopKey (ss_region x)) (ss_stop x) t = [])) ->
  ss_rest x = rs ++ rest ->
  exists s1, @absorb out_of_fuel resp (Some (ss_region x)) s = Ok s1 /\ sc_rpc s1 = rpc /\ results s1 = results s /\
    upcoming s1 w' rest (beyond (ss_region x)).
Proof.
  intros Hs Hc Hid Hstop Hin Hmore Hend Hrest.
  assert (MoreResults resp = Some false -> rest = [] /\ beyond (ss_region x) = []) as Hend'.
  { intros H. destruct (Hend H) as [-> Hrows]. split; [done|]. unfold beyond. case_decide; [done|].
    rewrite <- Hstop. by apply Hrows. }
  unfold answer_id in Hmore. rewrite Hid in Hmore. destruct (GetMoreResultsInRegion resp) eqn:Hm.
  - destruct Hmore as (Hne & Hsess & Hopen). assert (keeps_scanner resp s) as Hk.
    { intros _. unfold isRegionScannerClosed. case_bool_decide as Hcl; [right|by left].
      unfold GetScannerId in Hne. destruct (ScannerId resp) as [id|]; [eauto|by destruct (Hopen Hcl)]. }
    destruct (@absorb_more out_of_fuel resp (ss_region x) s Hc Hm Hk) as (s1 & -> & E1 & E2 & E3 & E4).
    exists s1. split_and!; [done|congruence|done|]. unfold upcoming.
    destruct (closed s1) eqn:Hc1; [symmetry in E3; apply bool_decide_eq_true in E3; by apply Hend'|].
    destruct (E4 eq_refl) as (E5 & E6 & E7). rewrite E6, E5.
    replace (curRegionScannerID s1) with (if bool_decide (curRegionScannerID s = noScannerID) then GetScannerId resp else curRegionScannerID s).
    eexists. split; [exact Hsess|]. done.
  - subst rest. destruct (@absorb_end out_of_fuel resp (ss_region x) s Hc Hm) as (s1 & -> & E1 & E2 & E3 & E4).
    exists s1. split_and!; [done|congruence|done|]. unfold upcoming. rewrite Hs in *.
    destruct (closed s1) eqn:Hc1.
    + symmetry in E3. apply orb_true_iff in E3 as [Hmr|Hl]; [apply bool_decide_eq_true in Hmr; by apply Hend'|].
      split; [done|]. by apply last_region_beyond.
    + destruct (E4 eq_refl) as [-> E5]. split; [done|]. symmetry in E3. apply orb_false_iff in E3 as [_ Hl].
      unfold next_start, last_region in E5, Hl. rewrite (us_forward _ _ _ Hrpc) in E5, Hl.
      apply orb_false_iff in Hl as [Hl _]. apply bool_decide_eq_false in Hl. rewrite E5. unfold beyond.
      by rewrite decide_False.
Qed.

(** The states that answered requests lead to, and the state after answered
    requests and one that failed with the error. *)
Definition sent (w w' : W) : Prop := exists r ans, send r w = (ans, w') /\ failure ans = None.

Definition failed_at (w : W) (e : scan_error E) (w' : W) : Prop :=
  exists w1 r ans, rtc sent w w1 /\ send r w1 = (ans, w') /\ failure ans = Some e.

Lemma failed_at_later w w1 e w' : rtc sent w w1 -> failed_at w1 e w' -> failed_at w e w'.
Proof. intros H (w2 & r & ans & H1 & H2). exists w2, r, ans. split; [by etrans|done]. Qed.

(** One request: it fails, or its answer carries the next results. *)
Lemma one_answer s w rest later :
  sc_rpc s = rpc -> closed s = false -> upcoming s w rest later ->
  (exists e w', request send s w = Ok (inl e, w') /\ e <> EOF /\ failed_at w e w') \/
  exists resp region w' s1 rs mid new rest' later', request send s w = Ok (inr (resp, region), w') /\
    @absorb out_of_fuel resp region s = Ok s1 /\ (patience w' < patience w)%nat /\ sent w w' /\ Results resp = Some <$> rs /\
    sc_rpc s1 = rpc /\ results s1 = results s /\ upcoming s1 w' rest' later' /\
    pieces mid new /\ later = mid ++ later' /\ rest ++ new = rs ++ rest'.
Proof.
  intros Hs Hc Hup. destruct (request_scan_made s Hs Hc) as (r & Hr & Htbl & Hf & Hid & Hopen).
  unfold request. rewrite Hr. destruct (send r w) as [[e|[[resp|] region]] w'] eqn:Hsend.
  1, 3: left; eexists _, _; split; [done|]; split; [done|]; eexists _, _, _; split; [apply rtc_refl|by rewrite Hsend].
  right. destruct (send_answer r w resp region w' Htbl Hf Hsend) as (Hpat & x & rs & rest' & -> & Hres & Hrest & Hx & Hmore & Hend).
  unfold upcoming in Hup. rewrite Hc in Hup. unfold isRegionScannerClosed in Hup, Hopen. rewrite Hid in Hx.
  assert (ss_stop x = b /\ in_range (ss_region x) (startRow s) /\
    exists mid new, pieces mid new /\ later = mid ++ beyond (ss_region x) /\ rest ++ new = rs ++ rest')
    as (Hstop & Hin & mid & new & Hp & Hlater & Hnew).
  { case_bool_decide as Hcl.
    - destruct Hup as [-> ->]. destruct (Hopen eq_refl) as [Ha Hb]. destruct Hx as (Hin & Hstop & Hp).
      rewrite Ha, Hb in *. split_and!; [done|done|]. exists (region_rows (ss_region x) (startRow s) b t), (ss_rest x).
      split_and!; [done| |done]. by apply rows_between_region.
    - destruct Hup as (y & Hy & H1 & H2 & H3 & ->). rewrite Hx in Hy. injection Hy as <-.
      split_and!; [done|done|]. exists [], []. rewrite app_nil_r. split_and!; [constructor|done|congruence]. }
  destruct (absorb_upcoming r resp s w' x rs rest' Hs Hc Hid Hstop Hin Hmore Hend Hrest) as (s1 & Ha & A1 & A2 & A3).
  exists resp, (Some (ss_region x)), w', s1, rs, mid, new, rest', (beyond (ss_region x)).
  split_and!; try done. by eexists _, _.
Qed.

Lemma fetch_table fuel s w rest later :
  sc_rpc s = rpc -> closed s = false -> upcoming s w rest later -> (patience w < fuel)%nat ->
  exists r s' w', fetch send fuel s w = Ok (r, s', w') /\
    match r with
    | inr rs0 => sc_rpc s' = rpc /\ results s' = results s /\ (patience w' < patience w)%nat /\ rtc sent w w' /\
        exists rs mid new rest' later', rs0 = Some <$> rs /\ rs <> [] /\ pieces mid new /\ later = mid ++ later' /\
          rest ++ new = rs ++ rest' /\ upcoming s' w' rest' later'
    | inl EOF => rest = [] /\ later = [] /\ closed s' = true /\ sc_rpc s' = rpc /\ results s' = results s /\
        (patience w' <= patience w)%nat /\ rtc sent w w'
    | inl e => failed_at w e w'
    end.
Proof.
  revert s w rest later. induction fuel as [|fuel IH]; intros s w rest later Hs Hc Hup Hf; [lia|].
  rewrite fetch_unfold.
  destruct (one_answer s w rest later Hs Hc Hup) as [(e & w' & -> & He & Hfail)|
    (resp & region & w' & s1 & rs & mid & new & rest' & later' & -> & Habs & Hpat & Hsent & Hres & E1 & E2 & Hup1 & Hp & -> & Hnew)].
  - cbn [obind]. destruct (@Close_spec out_of_fuel s) as (s1 & -> & _). cbn [obind].
    eexists _, _, _. split; [done|]. by destruct e.
  - cbn [obind]. rewrite Habs. cbn [obind]. case_bool_decide as Hne.
    + eexists _, _, _. split; [done|]. rewrite Hres in *. split_and!; [done|done|done|by apply rtc_once|].
      exists rs, mid, new, rest', later'. split_and!; try done. by destruct rs.
    + rewrite Hres in Hne. destruct rs; [|done]. simpl in Hnew.
      destruct (closed s1) eqn:Hc1.
      * eexists _, _, _. split; [done|]. unfold upcoming in Hup1. rewrite Hc1 in Hup1. destruct Hup1 as [-> ->].
        apply app_nil in Hnew as [-> ->]. apply pieces_nil_inv in Hp as ->. split_and!; try done; [lia|by apply rtc_once].
      * destruct (IH s1 w' rest' later' E1 Hc1 Hup1) as (r & s2 & w2 & -> & Hr); [lia|].
        eexists _, _, _. split; [done|]. destruct r as [[| |]|rs0].
        -- destruct Hr as (-> & -> & F1 & F2 & F3 & F4 & F5). apply app_nil in Hnew as [-> ->].
           apply pieces_nil_inv in Hp as ->. split_and!; try done; [congruence|lia|by eapply rtc_l].
        -- eapply failed_at_later; [by apply rtc_once|done].
        -- eapply failed_at_later; [by apply rtc_once|done].
        -- destruct Hr as (F1 & F2 & F3 & F4 & rs & mid2 & new2 & rest2 & later2 & -> & Hne2 & Hp2 & -> & Hnew2 & Hup2).
           split_and!; [done|congruence|lia|by eapply rtc_l|].
           exists rs, (mid ++ mid2), (new ++ new2), rest2, later2.
           split_and!; [done|done|by apply pieces_app|by rewrite app_assoc| |done].
           by rewrite app_assoc, Hnew, Hnew2.
Qed.

(** Between two calls of [Next]: the results that the scanner or its region
    scanner holds, and the rows after them. *)
Record pending (s : scanner) (w : W) (pend : list Result) (later : list table_row) : Prop := {
  pd_rpc : sc_rpc s = rpc;
  pd_held : exists held rest, results s = Some <$> held /\ pend = held ++ rest /\ upcoming s w rest later;
}.

Lemma peek_table fuel s w pend later :
  pending s w pend later -> (patience w < fuel)%nat ->
  exists r s' w', peek send fuel s w = Ok (r, s', w') /\
    match r with
    | inr p => (patience w' <= patience w)%nat /\ rtc sent w w' /\
        exists x tl mid new later', p = Some x /\ pieces mid new /\ later = mid ++ later' /\ pend ++ new = x :: tl /\
          pending s' w' (x :: tl) later' /\ pending (shift s') w' tl later'
    | inl EOF => pend = [] /\ later = [] /\ pending s' w' [] [] /\ (patience w' <= patience w)%nat /\ rtc sent w w'
    | inl e => failed_at w e w'
    end.
Proof.
  intros [Hs (held & rest & Hheld & -> & Hup)] Hf. unfold peek. rewrite Hheld.
  destruct held as [|x held]; cbn [fmap list_fmap].
  - destruct (closed s) eqn:Hc.
    { eexists _, _, _. split; [done|]. unfold upcoming in Hup. rewrite Hc in Hup. destruct Hup as [-> ->].
      split_and!; try done. split; [done|]. exists [], []. unfold upcoming. by rewrite Hc. }
    destruct (fetch_table fuel s w rest later Hs Hc Hup Hf) as (r & s1 & w1 & -> & Hr). cbn [obind].
    destruct r as [e|rs0].
    { eexists _, _, _. split; [done|]. destruct e; [|done..]. destruct Hr as (-> & -> & F1 & F2 & F3 & F4 & F5).
      split_and!; try done. split; [done|]. exists [], []. unfold upcoming. by rewrite F1, F3. }
    destruct Hr as (F1 & F2 & F3 & F4 & rs & mid & new & rest' & later' & -> & Hne & Hp & -> & Hnew & Hup1).
    destruct rs as [|x rs]; [done|]. cbn [index set_results results fmap list_fmap]. simpl.
    eexists _, _, _. split; [done|]. split; [lia|]. split; [done|].
    exists x, (rs ++ rest'), mid, new, later'. split_and!; try done.
    + split; [done|]. exists (x :: rs), rest'. done.
    + split; [done|]. exists rs, rest'. done.
  - eexists _, _, _. split; [done|]. split; [lia|]. split; [apply rtc_refl|].
    exists x, (held ++ rest), [], [], later. rewrite app_nil_r. split_and!; try done; [constructor| |].
    + split; [done|]. exists (x :: held), rest. done.
    + split; [done|]. exists held, rest. unfold shift. simpl. by rewrite Hheld.
Qed.

(** ** Rows put together *)

Lemma coalesce_same r x k :
  GetPartial r = true -> Result_Cell r <> [] -> Result_Cell x <> [] ->
  Forall (fun c => Row c = k) (Result_Cell r) -> Forall (fun c => Row c = k) (Result_Cell x) ->
  exists r1, @coalesce out_of_fuel (Some r) (Some x) = Ok (Some r1, true) /\
    Result_Cell r1 = Result_Cell r ++ Result_Cell x /\ GetPartial r1 = true.
Proof.
  intros Hp Hr Hx Hkr Hkx. unfold coalesce. rewrite Hp. destruct (Result_Cell r) as [|rc rs] eqn:Er; [done|].
  destruct (Result_Cell x) as [|xc xs] eqn:Ex; [done|]. apply Forall_cons in Hkr as [Hrc _]. apply Forall_cons in Hkx as [Hxc _].
  cbn [negb index obind]. simpl. unfold bytes_eqb. rewrite bool_decide_eq_true_2 by congruence. cbn [negb].
  eexists. split; [done|]. by destruct (GetStale x).
Qed.

Lemma coalesce_next r x k k' :
  GetPartial r = true -> Result_Cell r <> [] -> Result_Cell x <> [] -> k <> k' ->
  Forall (fun c => Row c = k) (Result_Cell r) -> Forall (fun c => Row c = k') (Result_Cell x) ->
  @coalesce out_of_fuel (Some r) (Some x) = Ok (Some (set_Partial false r), false).
Proof.
  intros Hp Hr Hx Hk Hkr Hkx. unfold coalesce. rewrite Hp. destruct (Result_Cell r) as [|rc rs] eqn:Er; [done|].
  destruct (Result_Cell x) as [|xc xs] eqn:Ex; [done|]. apply Forall_cons in Hkr as [Hrc _]. apply Forall_cons in Hkx as [Hxc _].
  cbn [negb index obind]. simpl. unfold bytes_eqb. by rewrite bool_decide_eq_false_2 by congruence.
Qed.

(** The row that [next_loop] has begun, and the results it still has to read. *)
Definition building (acc : option Result) (pend : list Result) (rows : list table_row) : Prop :=
  match acc with
  | None => pieces rows pend
  | Some r => exists tr rs1 rs2 rows', rows = tr :: rows' /\ pend = rs1 ++ rs2 /\ pieces rows' rs2 /\
      Result_Cell r <> [] /\ GetPartial r = true /\
      ((rs1 = [] /\ tr_cells tr = Result_Cell r) \/
       exists cs, row_pieces cs rs1 /\ tr_cells tr = Result_Cell r ++ cs)
  end.

Lemma building_more acc pend rows mid new :
  building acc pend rows -> pieces mid new -> building acc (pend ++ new) (rows ++ mid).
Proof.
  destruct acc as [r|]; simpl; [|by apply pieces_app].
  intros (tr & rs1 & rs2 & rows' & -> & -> & Hp & H) Hm. exists tr, rs1, (rs2 ++ new), (rows' ++ mid).
  split_and!; [done|by rewrite app_assoc|by apply pieces_app|apply H..].
Qed.

(** What [Next] returns, of the rows that are still to come. *)
Definition next_row (w : W) (todo : list table_row) (lr : option LocalResult) (err : option (scan_error E))
    (s' : scanner) (w' : W) : Prop :=
  match lr, err with
  | Some l, None => exists tr rows' pend' later', todo = tr :: rows' ++ later' /\ Cells l = tr_cells tr /\
      L_Partial l = false /\ pieces rows' pend' /\ pending s' w' pend' later' /\
      (patience w' <= patience w)%nat /\ rtc sent w w'
  | None, None => False
  | _, Some EOF => todo = [] /\ rtc sent w w'
  | _, Some e => failed_at w e w'
  end.

Lemma next_row_later w w1 todo lr err s' w' :
  rtc sent w w1 -> (patience w1 <= patience w)%nat -> next_row w1 todo lr err s' w' -> next_row w todo lr err s' w'.
Proof.
  intros Hs Hp. destruct lr as [l|], err as [[| |]|]; simpl; try done; try by apply failed_at_later.
  1, 3: intros [-> ?]; split; [done|by etrans].
  intros (tr & rows' & pend' & later' & H1 & H2 & H3 & H4 & H5 & H6 & H7). exists tr, rows', pend', later'.
  split_and!; try done; [lia|by etrans].
Qed.

Definition effort (pend : list Result) (later : list table_row) : nat :=
  length (cells_of pend) + length (concat (tr_cells <$> later)).

Lemma effort_more pend later mid new later' x tl :
  pieces mid new -> later = mid ++ later' -> pend ++ new = x :: tl ->
  (effort pend later = length (Result_Cell x) + effort tl later')%nat.
Proof.
  intros Hp -> Heq. unfold effort. rewrite fmap_app, concat_app, length_app, (pieces_cells _ _ Hp).
  rewrite Nat.add_assoc, <- length_app, <- cells_of_app, Heq. unfold cells_of at 1. csimpl. rewrite length_app. fold (cells_of tl). lia.
Qed.

Lemma next_loop_table fuel acc s w pend later rows :
  pending s w pend later -> building acc pend rows -> table_ok (rows ++ later) ->
  (patience w + effort pend later < fuel)%nat ->
  exists lr err s' w', next_loop send fuel acc s w = Ok (lr, err, s', w') /\ next_row w (rows ++ later) lr err s' w'.
Proof.
  revert acc s w pend later rows. induction fuel as [|fuel IH]; intros acc s w pend later rows Hpd Hb Hok Hf; [lia|].
  cbn [next_loop]. destruct (peek_table (S fuel) s w pend later Hpd) as (r & s1 & w1 & -> & Hr); [lia|]. cbn [obind].
  destruct r as [err|p].
  { destruct err as [| |].
    - destruct Hr as (-> & -> & Hpd1 & Hpat & Hsent). destruct acc as [r|]; simpl in Hb.
      + destruct Hb as (tr & rs1 & rs2 & rows' & -> & Heq & Hp & Hne & Hpart & Hcase).
        symmetry in Heq. apply app_nil in Heq as [-> ->]. apply pieces_nil_inv in Hp as ->.
        destruct Hcase as [[_ Hcells]|(cs & Hrp%row_pieces_cells & _)]; [|by destruct Hrp].
        eexists _, _, _, _. split; [done|]. exists tr, [], [], []. split_and!; try done. constructor.
      + apply pieces_nil_inv in Hb as ->. by eexists _, _, _, _.
    - eexists _, _, _, _. split; [done|]. by destruct acc.
    - eexists _, _, _, _. split; [done|]. by destruct acc. }
  destruct Hr as (Hpat & Hsent & x & tl & mid & new & later' & -> & Hmid & -> & Heq & Hpd1 & Hpd2).
  pose proof (effort_more pend (mid ++ later') mid new later' x tl Hmid eq_refl Heq) as Heff.
  pose proof (building_more acc pend rows mid new Hb Hmid) as Hb1. rewrite Heq in Hb1.
  rewrite (app_assoc rows) in *. set (todo := rows ++ mid) in *. clearbody todo.
  destruct acc as [r|]; simpl in Hb1.
  - destruct Hb1 as (tr & rs1 & rs2 & rows' & -> & Hpend & Hp & Hne & Hpart & Hcase).
    pose proof (tk_rows _ Hok) as Hrows. apply Forall_cons in Hrows as [[_ Hrow] Hrows].
    destruct rs1 as [|y rs1].
    + simpl in Hpend. subst rs2. destruct Hcase as [[_ Hcells]|(cs & [_ H]%row_pieces_cells & _)]; [|done].
      destruct (pieces_cons_inv _ _ _ Hp) as (tr2 & rows2 & rs1 & rs2 & -> & _ & _ & Hnx & Hx2).
      apply Forall_cons in Hrows as [[_ Hrow2] _].
      assert (Forall (fun c => Row c = tr_key tr2) (Result_Cell x)) as Hkx.
      { destruct Hx2 as [[_ <-]|(cs & _ & _ & Hc)]; [done|]. rewrite Hc in Hrow2. by apply Forall_app in Hrow2 as [? _]. }
      assert (tr_key tr <> tr_key tr2) as Hkey.
      { pose proof (tk_sorted _ Hok) as Hs. simpl in Hs. apply StronglySorted_inv in Hs as [_ Hs].
        apply Forall_cons in Hs as [Hlt _]. intros Hk. rewrite Hk in Hlt. by apply bytes_lt_irrefl in Hlt. }
      rewrite Hcells in Hrow. rewrite (coalesce_next r x (tr_key tr) (tr_key tr2)) by done. cbn [obind].
      eexists _, _, _, _. split; [done|]. exists tr, (tr2 :: rows2), (x :: tl), later'. done.
    + simpl in Hpend. injection Hpend as <- ->. destruct Hcase as [[? _]|(cs & Hrp & Hcells)]; [done|].
      assert (Result_Cell x <> [] /\ exists cs', cs = Result_Cell x ++ cs' /\
        ((rs1 = [] /\ cs' = []) \/ row_pieces cs' rs1)) as (Hnx & cs' & Hcs & Hrest).
      { inversion Hrp; subst; (split; [done|]).
        - exists []. rewrite app_nil_r. split; [done|by left].
        - eexists. split; [done|by right]. }
      rewrite Hcells, Hcs in Hrow. apply Forall_app in Hrow as [Hkr Hkx]. apply Forall_app in Hkx as [Hkx _].
      destruct (coalesce_same r x (tr_key tr) Hpart Hne Hnx Hkr Hkx) as (r1 & -> & Hc1 & Hp1). cbn [obind].
      rewrite Hp1. cbn [negb].
      destruct (IH (Some r1) (shift s1) w1 (rs1 ++ rs2) later' (tr :: rows') Hpd2) as (lr & err & s' & w' & -> & Hres);
        [|done| |].
      * exists tr, rs1, rs2, rows'. split_and!; try done; [rewrite Hc1; by destruct (Result_Cell r)|].
        rewrite Hc1, Hcells, Hcs. destruct Hrest as [[-> ->]|Hrest]; [left; by rewrite app_nil_r|right].
        exists cs'. by rewrite app_assoc.
      * destruct (Result_Cell x); [done|]. simpl in Heff. lia.
      * eexists _, _, _, _. split; [done|]. by eapply next_row_later.
  - simpl. destruct (pieces_cons_inv _ _ _ Hb1) as (tr & rows' & rs1 & rs2 & -> & -> & Hp & Hnx & Hcase).
    destruct (GetPartial x) eqn:Hpx; cbn [negb].
    + destruct (IH (Some x) (shift s1) w1 (rs1 ++ rs2) later' (tr :: rows') Hpd2) as (lr & err & s' & w' & -> & Hres);
        [|done| |].
      * exists tr, rs1, rs2, rows'. split_and!; try done. destruct Hcase as [?|(cs & _ & ?)]; eauto.
      * destruct (Result_Cell x); [done|]. simpl in Heff. lia.
      * eexists _, _, _, _. split; [done|]. by eapply next_row_later.
    + destruct Hcase as [[-> Hcells]|(cs & ? & _)]; [|done].
      eexists _, _, _, _. split; [done|]. exists tr, rows', rs2, later'. split_and!; done.
Qed.

Lemma next_table fuel s w pend later rows :
  pending s w pend later -> pieces rows pend -> table_ok (rows ++ later) ->
  (patience w + length (concat (tr_cells <$> rows ++ later)) < fuel)%nat ->
  exists lr err s' w', Next send fuel None s w = Ok (lr, err, s', w') /\ next_row w (rows ++ later) lr err s' w'.
Proof.
  intros Hpd Hp Hok Hf. unfold Next. rewrite (pd_rpc _ _ _ _ Hpd), (us_whole_rows _ _ _ Hrpc).
  apply (next_loop_table fuel None s w pend); [done|done|done|].
  unfold effort. rewrite <- (pieces_cells _ _ Hp). by rewrite <- length_app, <- concat_app, <- fmap_app.
Qed.

(** How a scan of the rows [todo] ends. *)
Definition read_ok (w : W) (todo : list table_row) (rows : list LocalResult) (e : scan_error E) (w' : W) : Prop :=
  exists got rest, todo = got ++ rest /\ Cells <$> rows = tr_cells <$> got /\
    Forall (fun r => L_Partial r = false) rows /\
    match e with EOF => rest = [] /\ rtc sent w w' | _ => failed_at w e w' end.

Lemma read_all_table calls fuel s w pend later rows :
  pending s w pend later -> pieces rows pend -> table_ok (rows ++ later) ->
  (length (rows ++ later) < calls)%nat ->
  (patience w + length (concat (tr_cells <$> rows ++ later)) < fuel)%nat ->
  exists ls e w', read_all calls fuel s w = Ok (ls, e, w') /\ read_ok w (rows ++ later) ls e w'.
Proof.
  revert s w pend later rows. induction calls as [|calls IH]; intros s w pend later rows Hpd Hp Hok Hc Hf; [lia|].
  cbn [read_all]. destruct (next_table fuel s w pend later rows Hpd Hp Hok Hf) as (lr & err & s' & w' & -> & Hn).
  cbn [obind]. destruct err as [e|].
  - exists [], e, w'. split; [by destruct lr|]. exists [], (rows ++ later). split_and!; try done.
    destruct lr, e; exact Hn.
  - destruct lr as [l|]; [|done]. destruct Hn as (tr & rows' & pend' & later' & Htodo & Hcells & Hpart & Hp' & Hpd' & Hpat & Hsent).
    rewrite Htodo in *. csimpl in Hf. rewrite length_app in Hf. simpl in Hc.
    destruct (IH s' w' pend' later' rows' Hpd' Hp') as (ls & e & w2 & -> & got & rest & Hgot & Hls & Hps & He).
    { by apply (table_ok_app [tr]). }
    { lia. }
    { lia. }
    cbn [obind]. exists (l :: ls), e, w2. split; [done|]. exists (tr :: got), rest. simpl in *.
    split_and!; [by rewrite Hgot|by f_equal|by constructor|].
    destruct e; [destruct He as [-> ?]; split; [done|by etrans]|by eapply failed_at_later..].
Qed.

End Scans.

(** ** The requests of a run *)

Section Logged.
Context {W E : Type}.
Variable send : Scan -> W -> (E + option ScanResponse * option info) * W.

Abbreviation log := (list (Scan * (E + option ScanResponse * option info))).

(** The same servers, with a record of the requests and their answers. *)
Definition logged (rpc : Scan) (x : W * log) : (E + option ScanResponse * option info) * (W * log) :=
  let '(ans, w) := send rpc (fst x) in (ans, (w, snd x ++ [(rpc, ans)])).

Definition answered (x : Scan * (E + option ScanResponse * option info)) : Prop := failure (snd x) = None.

Lemma logged_sent x y : rtc (sent logged) x y -> exists l, snd y = snd x ++ l /\ Forall answered l.
Proof.
  induction 1 as [x|x y z (r & ans & Hs & Hf) _ (l & -> & Hl)]; [exists []; by rewrite app_nil_r|].
  unfold logged in Hs. destruct (send r (fst x)) as [ans' w]. injection Hs as -> <-. exists ((r, ans) :: l).
  simpl. rewrite <- app_assoc. split; [done|by constructor].
Qed.

Lemma logged_failed x e y :
  failed_at logged x e y -> exists l r ans, snd y = snd x ++ l ++ [(r, ans)] /\ Forall answered l /\ failure ans = Some e.
Proof.
  intros (x1 & r & ans & Hs & Hr & Hf). destruct (logged_sent _ _ Hs) as (l & Hl & Hans). unfold logged in Hr.
  destruct (send r (fst x1)) as [ans' w]. injection Hr as -> <-. exists l, r, ans. simpl. by rewrite Hl, <- app_assoc.
Qed.

(** The record changes nothing. *)
Definition unlog {A : Type} (o : outcome out_of_fuel (A * (W * log))) : outcome out_of_fuel (A * W) :=
  match o with Ok (a, x) => Ok (a, fst x) | Err e => Err e | Panic => Panic end.

Lemma request_logged s x : request send s (fst x) = unlog (request logged s x).
Proof.
  unfold request. destruct (request_scan s) as [rpc| |]; try done. unfold logged.
  by destruct (send rpc (fst x)) as [[e|[[resp|] region]] w].
Qed.

Lemma fetch_logged fuel s x : fetch send fuel s (fst x) = unlog (fetch logged fuel s x).
Proof.
  revert s x. induction fuel as [|fuel IH]; intros s x; [done|]. cbn [fetch]. rewrite request_logged.
  destruct (request logged s x) as [[[e|[resp region]] y]| |]; try done; cbn [unlog obind].
  - by destruct (Close s).
  - destruct (update resp region s) as [s1| |]; try done. cbn [obind].
    destruct (isDone resp region s1) as [d| |]; try done. cbn [obind].
    destruct (if d then Close s1 else Ok s1) as [s2| |]; try done. cbn [obind].
    case_bool_decide; [done|]. destruct (closed s2); [done|]. apply IH.
Qed.

Lemma peek_logged fuel s x : peek send fuel s (fst x) = unlog (peek logged fuel s x).
Proof.
  unfold peek. destruct (results s); [|done]. destruct (closed s); [done|]. rewrite fetch_logged.
  destruct (fetch logged fuel s x) as [[[[e|rs] s1] y]| |]; try done. cbn [unlog obind]. by destruct (index _ 0).
Qed.

Lemma next_loop_logged fuel acc s x : next_loop send fuel acc s (fst x) = unlog (next_loop logged fuel acc s x).
Proof.
  revert acc s x. induction fuel as [|fuel IH]; intros acc s x; [done|]. cbn [next_loop]. rewrite peek_logged.
  destruct (peek logged (S fuel) s x) as [[[[e|p] s1] y]| |]; try done; cbn [unlog obind].
  - by destruct e, acc.
  - destruct (coalesce acc p) as [[[r|] d]| |]; try done. cbn [obind]. destruct (negb (GetPartial r)); [done|]. apply IH.
Qed.

Lemma Next_logged fuel ctx s x : Next send fuel ctx s (fst x) = unlog (Next logged fuel ctx s x).
Proof.
  unfold Next. destruct ctx as [e|]; [by destruct (Close s)|]. destruct (s_allowPartialResults (sc_rpc s)); [|apply next_loop_logged].
  rewrite peek_logged. by destruct (peek logged fuel s x) as [[[[e|p] s1] y]| |].
Qed.

Lemma read_all_logged calls fuel s x : read_all send calls fuel s (fst x) = unlog (read_all logged calls fuel s x).
Proof.
  revert s x. induction calls as [|calls IH]; intros s x; [done|]. cbn [read_all]. rewrite Next_logged.
  destruct (Next logged fuel None s x) as [[[[[r|] [e|]] s1] y]| |]; try done. cbn [unlog obind]. rewrite IH.
  by destruct (read_all logged calls fuel s1 y) as [[[rs e] z]| |].
Qed.

Lemma logged_server tbl t : ScanServer send tbl t -> ScanServer logged tbl t.
Proof.
  intros HS. refine {| patience := fun x : W * log => patience send tbl t (fst x);
    session_of := fun x : W * log => session_of send tbl t (fst x) |}.
  intros rpc [w l] resp region [w' l'] Htbl Hrev Hs. unfold logged in Hs. simpl in *.
  destruct (send rpc w) as [ans w1] eqn:Hw. injection Hs as -> <- _. by apply send_answer.
Defined.

End Logged.

(** C7. A user who makes a forward scan over whole rows (neither [Reversed] nor
    [AllowPartialResults] nor [ScannerID] among the options) of a range of a table
    and calls [Next] until it fails gets, from servers that keep their contract,
    complete rows of the range in their order, none left out and none twice, each
    with all its cells and nothing else.  If the scan ends with [EOF], every request
    that it made was answered and these are all the rows of the range.  It ends with
    another error only after a request to which it got no ScanResponse: the last
    request of the run, all before it having been answered, and the error is what
    that request got.  And it always ends: as many calls as there are rows and one
    more, with fuel above the answers and cells to come, are enough. *)
Theorem scan_reads_the_range {W E : Type} (send : Scan -> W -> (E + option ScanResponse * option info) * W)
    tbl t `{HS : !ScanServer send tbl t} calls fuel ctx a b os rpc w :
  table_ok t -> NewScanRange ctx tbl a b os = Ok rpc ->
  s_reversed rpc = false -> s_allowPartialResults rpc = false -> s_scannerID rpc = noScannerID ->
  (length (rows_between a b t) < calls)%nat ->
  (patience send tbl t w + length (concat (tr_cells <$> rows_between a b t)) < fuel)%nat ->
  exists rows e w' log,
    read_all send calls fuel (newScanner rpc) w = Ok (rows, e, w') /\
    read_all (logged send) calls fuel (newScanner rpc) (w, []) = Ok (rows, e, (w', log)) /\
    (exists got rest, rows_between a b t = got ++ rest /\ Cells <$> rows = tr_cells <$> got /\
       (e = EOF -> rest = [])) /\
    Forall (fun r => L_Partial r = false) rows /\
    (e = EOF -> Forall answered log) /\
    (e <> EOF -> exists before r ans, log = before ++ [(r, ans)] /\ Forall answered before /\ failure ans = Some e).
Proof.
  intros Ht Hm Hf Hp Hid Hc Hfu.
  assert (user_scan tbl rpc a b) as Hu.
  { split; [|done..]. unfold NewScanRange in *. ok_inv. subst rpc. pose proof Hr as Hbase.
    apply baseScan_ok in Hr as (_ & _ & Hb). simpl. rewrite Hb. simpl. rewrite Hbase. simpl. by rewrite Hb. }
  destruct (user_scan_fields _ _ _ _ Hu) as (_ & Hsa & Hsb).
  destruct (@read_all_table _ _ (logged send) tbl t (logged_server send tbl t HS) Ht rpc a b Hu calls fuel (newScanner rpc) (w, []) []
      (rows_between a b t) []) as (rows & e & [w' l] & Hread & got & rest & Hgot & Hcells & Hpart & He);
    [|constructor|by apply (table_ok_filter (fun r => in_scan a b r = true))|done|done|].
  - split; [done|]. exists [], []. split_and!; [done..|]. unfold upcoming, newScanner, isRegionScannerClosed. simpl.
    by rewrite Hsa.
  - pose proof (read_all_logged send calls fuel (newScanner rpc) (w, [])) as Hlog. rewrite Hread in Hlog.
    exists rows, e, w', l. split; [exact Hlog|].
    split; [done|]. simpl in *. split_and!; [|done|..].
    + exists got, rest. split_and!; try done. by intros ->; destruct He.
    + intros ->. destruct He as [_ Hs]. destruct (logged_sent _ _ _ Hs) as (l0 & Hl & Hans). simpl in Hl. by subst.
    + intros Hne. destruct e; [done| |]; apply logged_failed in He as (l0 & r & ans & Hl & Hans & Hfail); simpl in Hl; subst; eauto 10.
Qed.

(** ** A server that keeps the contract *)

(** A row in results of one cell. *)
Fixpoint cut_row (cs : list Cell) : list Result :=
  match cs with
  | [] => []
  | [c] => [mkResult [c] None None None (Some false)]
  | c :: cs => mkResult [c] None None None (Some true) :: cut_row cs
  end.

Lemma cut_row_pieces cs : cs <> [] -> row_pieces cs (cut_row cs).
Proof.
  induction cs as [|c cs IH]; [done|]. intros _. destruct cs as [|c' cs]; [by apply (rp_last (mkResult [c] None None None (Some false)))|].
  apply (rp_more (mkResult [c] None None None (Some true))); [done|done|by apply IH].
Qed.

Lemma cut_rows_pieces rows : Forall row_ok rows -> pieces rows (concat ((fun r => cut_row (tr_cells r)) <$> rows)).
Proof. induction 1 as [|r rows [Hne _] _ IH]; [constructor|]. csimpl. constructor; [by apply cut_row_pieces|done]. Qed.

Section TableServer.
Variable regions : list info.
Variable t : list table_row.

Record server := Server { sv_patience : nat; sv_next : Z; sv_open : gmap Z session }.

Definition region_at (row : bytes) : option info :=
  find (fun i => bytes_leb (r_startKey i) row && (bool_decide (r_stopKey i = []) || bytes_ltb row (r_stopKey i))) regions.

Definition open_session (rpc : Scan) : option session :=
  i ← region_at (s_startRow rpc);
  Some (Session i (s_stopRow rpc)
    (concat ((fun r => cut_row (tr_cells r)) <$> region_rows i (s_startRow rpc) (s_stopRow rpc) t))).

(** One result an answer, as often as the server has patience. *)
Definition table_server (rpc : Scan) (w : server) : (string + option ScanResponse * option info) * server :=
  match sv_patience w with
  | O => (inl "connection lost"%string, w)
  | S n =>
      let opening := bool_decide (s_scannerID rpc = noScannerID) in
      match (if opening then open_session rpc else sv_open w !! s_scannerID rpc) with
      | None => (inl "unknown scanner"%string, w)
      | Some x =>
          let id := if opening then sv_next w mod 2 ^ 63 else s_scannerID rpc in
          let resp rs more := mkScanResponse [] (Some id) None (Some <$> rs) [] (Some more) in
          match ss_rest x with
          | r :: (_ :: _) as rest =>
              (inr (Some (resp [r] true), Some (ss_region x)),
               Server n (sv_next w + 1) (<[id := Session (ss_region x) (ss_stop x) rest]> (sv_open w)))
          | rest => (inr (Some (resp rest false), Some (ss_region x)), Server n (sv_next w) (sv_open w))
          end
      end
  end.

Lemma open_session_opens rpc x : table_ok t -> open_session rpc = Some x -> opens t rpc x.
Proof.
  intros Ht. unfold open_session, region_at. destruct (find _ regions) as [i|] eqn:Hf; simpl; [|done]. intros [= <-].
  apply find_some in Hf as [_ Hf]. rewrite andb_true_iff, orb_true_iff, bytes_leb_spec, bytes_ltb_spec in Hf.
  split; [|split; [done|]].
  - split; [apply Hf|]. destruct Hf as [_ [H|?]]; [left; by apply bool_decide_eq_true in H|by right].
  - apply cut_rows_pieces. unfold region_rows.
    apply (tk_rows _ (table_ok_filter (fun r => in_scan _ _ r && in_region i r = true) t Ht)).
Qed.

Lemma table_server_keeps tbl : table_ok t -> ScanServer table_server tbl t.
Proof.
  intros Ht. refine {| patience := sv_patience : server -> nat; session_of w id := sv_open w !! id |}.
  intros rpc w resp region w' _ _. unfold table_server. destruct (sv_patience w) as [|n] eqn:Hp; [done|].
  set (opening := bool_decide (s_scannerID rpc = noScannerID)).
  destruct (if opening then open_session rpc else sv_open w !! s_scannerID rpc) as [x|] eqn:Hx; [|done].
  assert (if opening then opens t rpc x else sv_open w !! s_scannerID rpc = Some x) as Hx'.
  { destruct opening; [by apply open_session_opens|done]. }
  set (id := if opening then sv_next w mod 2 ^ 63 else s_scannerID rpc).
  assert (id <> noScannerID) as Hid.
  { unfold id, opening. case_bool_decide; [|done]. pose proof (Z.mod_pos_bound (sv_next w) (2 ^ 63)).
    unfold noScannerID, MaxUint64. lia. }
  destruct (ss_rest x) as [|r [|r' rest]] eqn:Hrest; intros [= <- <- <-]; (split; [simpl; lia|]).
  - exists x, [], []. split_and!; done.
  - exists x, [r], []. split_and!; done.
  - exists x, [r], (r' :: rest). split_and!; try done.
    unfold GetMoreResultsInRegion, answer_id, GetScannerId. simpl.
    assert ((if bool_decide (s_scannerID rpc = noScannerID) then id else s_scannerID rpc) = id) as ->.
    { unfold id. fold opening. by destruct opening. }
    split_and!; [done|by rewrite lookup_insert_eq|done].
Defined.

End TableServer.

(** ** Three rows in two regions *)

Definition cell_of (row q : string) : Cell := mkCell (bs row) (bs "cf") (bs q) (Some 1) (Some 4) (bs "v").

Definition sample_rows : list table_row :=
  [TableRow (bs "b") [cell_of "b" "p"; cell_of "b" "q"];
   TableRow (bs "k") [cell_of "k" "p"];
   TableRow (bs "n") [cell_of "n" "p"; cell_of "n" "q"; cell_of "n" "r"]].

Lemma sample_rows_ok : table_ok sample_rows.
Proof. split; repeat constructor; done. Qed.

Definition sample_server : (Scan -> server -> (string + option ScanResponse * option info) * server) :=
  table_server [region1; region2] sample_rows.

#[local] Instance sample_keeps : ScanServer sample_server (bs "t") sample_rows :=
  table_server_keeps [region1; region2] sample_rows (bs "t") sample_rows_ok.

(** The scan from "c" returns the second row and then, across the regions, the third. *)
Lemma scan_reads_the_range_witness :
  exists rpc rows e w', NewScanRange 0 (bs "t") (bs "c") (bs "z") [] = Ok rpc /\
    read_all sample_server 3 40 (newScanner rpc) (Server 20 0 ∅) = Ok (rows, e, w') /\ e = EOF /\
    Cells <$> rows = tr_cells <$> rows_between (bs "c") (bs "z") sample_rows.
Proof.
  destruct (NewScanRange 0 (bs "t") (bs "c") (bs "z") []) as [rpc|e|] eqn:Hm; [|vm_compute in Hm; discriminate..].
  destruct (scan_reads_the_range sample_server (bs "t") sample_rows 3 40 0 (bs "c") (bs "z") [] rpc (Server 20 0 ∅)
    sample_rows_ok Hm) as (rows & e & w' & log & Hread & _ & (got & rest & Hgot & Hcells & Hend) & _).
  - vm_compute in Hm. injection Hm as <-. reflexivity.
  - vm_compute in Hm. injection Hm as <-. reflexivity.
  - vm_compute in Hm. injection Hm as <-. reflexivity.
  - vm_compute. lia.
  - vm_compute. lia.
  - assert (e = EOF) as He.
    { vm_compute in Hm. injection Hm as <-. vm_compute in Hread. injection Hread as _ <- _. reflexivity. }
    exists rpc, rows, e, w'. split; [reflexivity|]. split; [exact Hread|]. split; [exact He|].
    rewrite Hgot, (Hend He), app_nil_r. exact Hcells.
Defined.
