(* ===== verification/Compressor.v ===== *)
(** * Compression of cellblocks: region/compressor.go, compression/

    The Hadoop block stream: the length of the uncompressed block, then chunks,
    each with its compressed length.  The compression of a chunk is the codec's:
    [Codec] is the interface of compression/codec.go, [CodecSpec] what the
    compressor relies on, [snappyCodec] the implementation over the third-party
    snappy functions, which are parameters with the law that decoding undoes
    encoding.  Reading from [net.Buffers] is modelled on the list of buffers. *)

From S2P Require Import Prelude Hrpc.

(** ** compression/codec.go *)

Class Codec := {
  Encode : bytes -> bytes -> bytes * Z;
  Decode : bytes -> bytes -> outcome error (bytes * Z);
  ChunkLen : Z;
  CellBlockCompressorClass : string;
}.

(** Encoding appends a chunk that decodes to its source. *)
Class CodecSpec (C : Codec) := {
  chunk : bytes -> bytes;
  Encode_chunk src dst : len (chunk src) < 2 ^ 32 -> Encode src dst = (dst ++ chunk src, len (chunk src));
  Decode_chunk src dst : len src < 2 ^ 32 -> Decode (chunk src) dst = Ok (dst ++ src, len src);
  ChunkLen_pos : 0 < ChunkLen < 2 ^ 32;
}.

(** ** compression/snappy *)

Section Snappy.
Variable snappy_Encode : bytes -> bytes.
Variable snappy_Decode : bytes -> outcome error bytes.

Definition snappyChunkLen : Z := (256 * 1024 * 5) `div` 6 - 32.

Definition snappyCodec : Codec := {|
  Encode src dst := let chunk := snappy_Encode src in (dst ++ chunk, u32 (len chunk));
  Decode src dst := let* chunk := snappy_Decode src in Ok (dst ++ chunk, u32 (len chunk));
  ChunkLen := snappyChunkLen;
  CellBlockCompressorClass := "org.apache.hadoop.io.compress.SnappyCodec";
|}.

Hypothesis snappy_roundtrip : forall src, snappy_Decode (snappy_Encode src) = Ok src.

Lemma snappyCodec_spec : CodecSpec snappyCodec.
Proof.
  refine {| chunk := snappy_Encode : bytes -> bytes |}.
  - intros src dst H. simpl. unfold u32. pose proof (len_nonneg (snappy_Encode src)).
    by rewrite Z.mod_small by lia.
  - intros src dst H. simpl. rewrite snappy_roundtrip. simpl. unfold u32. pose proof (len_nonneg src).
    by rewrite Z.mod_small by lia.
  - done.
Defined.

End Snappy.

(** ** net.Buffers *)

(** [Read] into a buffer of [n] bytes: the bytes read and the buffers left;
    it reports [io.EOF] when none is left. *)
Fixpoint Read (n : nat) (v : list bytes) : bytes * list bytes :=
  match v with
  | [] => ([], [])
  | b :: v' =>
      if bool_decide (length b <= n)%nat then
        let '(r, w) := Read (n - length b) v' in (b ++ r, w)
      else (take n b, drop n b :: v')
  end.

Section Compressor.
Context {C : Codec}.

(** ** Compressing *)

Definition growBuffer (b : bytes) (sz : nat) : bytes := b ++ make_bytes sz.

Fixpoint compress_loop (fuel : nat) (sz : nat) (cbs : list bytes) (b : bytes) : outcome out_of_fuel bytes :=
  match fuel with
  | O => Err OutOfFuel
  | S fuel' =>
      let '(src, cbs) := Read sz cbs in
      match src with
      | [] => Ok b
      | _ =>
          let lenOffset := len b in
          let b := growBuffer b 4 in
          let '(b, chunkLen) := Encode src b in
          let* b := PutAt b lenOffset (PutUint32 chunkLen) in
          match cbs with
          | [] => Ok b
          | _ => compress_loop fuel' sz cbs b
          end
      end
  end.

Definition compressCellblocks (cbs : list bytes) (uncompressedLen : Z) : outcome out_of_fuel bytes :=
  compress_loop (S (length (concat cbs))) (Z.to_nat (Z.min uncompressedLen ChunkLen)) cbs
    (PutUint32 uncompressedLen).

(** ** Decompressing *)

Inductive decompress_error :=
| ShortRead (what : error) (want got : Z)
| DecodeFailed (e : error)
| TooMuch (expected got : Z)
| NoFuel.

Definition readN (what : error) (b : bytes) (n : Z) : outcome decompress_error (bytes * bytes) :=
  if bool_decide (len b < n) then Err (ShortRead what n (len b))
  else
    let* hd := slice_to b n in
    let* tl := slice_from b n in
    Ok (hd, tl).

Definition readUint32 (what : error) (b : bytes) : outcome decompress_error (Z * bytes) :=
  let* r := readN what b 4 in
  let* z := Uint32 (fst r) in
  Ok (z, snd r).

(** The chunks of one block of [blockLen] bytes, [soFar] of which are out. *)
Fixpoint decompress_chunks (fuel : nat) (blockLen soFar : Z) (b out : bytes)
    : outcome decompress_error (bytes * bytes * Z) :=
  if bool_decide (soFar < blockLen) then
    match fuel with
    | O => Err NoFuel
    | S fuel' =>
        let* r := readUint32 "failed to read compressed chunk block length" b in
        let* s := readN "failed to read compressed chunk" (snd r) (fst r) in
        let* d := map_err DecodeFailed (Decode (fst s) out) in
        decompress_chunks fuel' blockLen (u32 (soFar + snd d)) (snd s) (fst d)
    end
  else Ok (b, out, soFar).

Fixpoint decompress_loop (fuel : nat) (b out : bytes) : outcome decompress_error bytes :=
  if bool_decide (len b > 0) then
    match fuel with
    | O => Err NoFuel
    | S fuel' =>
        let* r := readUint32 "failed to read uncompressed block length" b in
        let* c := decompress_chunks (length b) (fst r) 0 (snd r) out in
        let '(b, out, soFar) := c in
        if bool_decide (soFar > fst r) then Err (TooMuch (fst r) soFar)
        else decompress_loop fuel' b out
    end
  else Ok out.

Definition decompressCellblocks (b : bytes) : outcome decompress_error bytes :=
  decompress_loop (length b) b [].

End Compressor.

(** ** The stream written *)

Lemma Read_spec n v :
  fst (Read n v) = take n (concat v) /\ concat (snd (Read n v)) = drop n (concat v) /\
  (snd (Read n v) = [] <-> (length (concat v) <= n)%nat).
Proof.
  revert n. induction v as [|b v IH]; intros n; cbn [Read concat].
  { rewrite take_nil, drop_nil. simpl. split_and!; [done..|]. split; [lia|done]. }
  case_bool_decide as Hb.
  - destruct (IH (n - length b)%nat) as (H1 & H2 & H3). destruct (Read (n - length b) v) as [r w].
    simpl in *. rewrite take_app_ge, drop_app_ge by done. rewrite H1. split_and!; [done..|].
    rewrite H3, length_app. lia.
  - simpl. rewrite take_app_le, drop_app_le by lia. split_and!; [done..|].
    rewrite length_app. split; [done|lia].
Qed.

Section Stream.
Context {C : Codec} {HC : CodecSpec C}.

(** Cut into pieces of [sz] bytes. *)
Fixpoint pieces (fuel sz : nat) (l : bytes) : list bytes :=
  match fuel with
  | O => []
  | S fuel' => match l with [] => [] | _ => take sz l :: pieces fuel' sz (drop sz l) end
  end.

Definition chunk_bytes (src : bytes) : bytes := PutUint32 (len (chunk src)) ++ chunk src.

Definition stream (ps : list bytes) : bytes := concat (chunk_bytes <$> ps).

Lemma stream_cons p ps : stream (p :: ps) = PutUint32 (len (chunk p)) ++ chunk p ++ stream ps.
Proof. unfold stream, chunk_bytes. cbn [fmap list_fmap concat]. by rewrite <- app_assoc. Qed.

Definition chunks_fit (ps : list bytes) : Prop := Forall (fun p => len (chunk p) < 2 ^ 32) ps.

Lemma put_chunk src b :
  len (chunk src) < 2 ^ 32 ->
  (let '(b', n) := Encode src (growBuffer b 4) in @PutAt out_of_fuel b' (len b) (PutUint32 n))
  = Ok (b ++ chunk_bytes src).
Proof.
  intros Hlt. rewrite Encode_chunk by done. unfold growBuffer, chunk_bytes, PutAt, PutUint32.
  rewrite !bool_decide_eq_true_2; [|rewrite !len_app, len_be_encode; pose proof (len_nonneg (chunk src)); unfold len, make_bytes; simpl; lia|unfold len; lia].
  cbn [andb]. f_equal. rewrite len_be_encode. unfold len.
  rewrite <- Nat2Z.inj_add, !Nat2Z.id. rewrite <- !app_assoc, take_app_length.
  by rewrite <- drop_drop, drop_app_length.
Qed.

Lemma compress_loop_spec fuel sz cbs b :
  (0 < sz)%nat -> (length (concat cbs) < fuel)%nat -> chunks_fit (pieces fuel sz (concat cbs)) ->
  compress_loop fuel sz cbs b = Ok (b ++ stream (pieces fuel sz (concat cbs))).
Proof.
  intros Hsz. revert cbs b. induction fuel as [|fuel IH]; intros cbs b Hf Hfit; [lia|].
  cbn [compress_loop pieces] in *. destruct (Read_spec sz cbs) as (H1 & H2 & H3).
  destruct (Read sz cbs) as [src cbs']. cbn [fst snd] in *.
  destruct (concat cbs) as [|x l] eqn:Hc.
  { rewrite take_nil in H1. subst src. unfold stream. simpl. by rewrite app_nil_r. }
  assert (length src = Nat.min sz (length (x :: l))) as Hl by (by rewrite H1, length_take).
  destruct src as [|y src]; [simpl in Hl; lia|]. rewrite <- H1 in *.
  apply Forall_cons in Hfit as [Hfit1 Hfit2]. pose proof (put_chunk (y :: src) b Hfit1) as Hp.
  destruct (Encode (y :: src) (growBuffer b 4)) as [b' n]. rewrite Hp. cbn [obind].
  destruct cbs' as [|c cbs'].
  - assert (drop sz (x :: l) = []) as ->  by (apply drop_ge, H3; done).
    destruct fuel; unfold stream; simpl; by rewrite app_nil_r.
  - rewrite IH.
    + rewrite H2. unfold stream. csimpl. by rewrite <- app_assoc.
    + rewrite H2, length_drop. simpl in *. lia.
    + by rewrite H2.
Qed.

(** ** The stream read *)

Lemma readN_app what (m s : bytes) n : n = len m -> readN what (m ++ s) n = Ok (m, s).
Proof.
  intros ->. unfold readN. pose proof (len_nonneg s).
  rewrite bool_decide_eq_false_2 by (rewrite len_app; lia).
  rewrite slice_prefix by done. cbn [obind]. by rewrite slice_suffix.
Qed.

Lemma readUint32_app what z s : 0 <= z < 2 ^ 32 -> readUint32 what (PutUint32 z ++ s) = Ok (z, s).
Proof.
  intros Hz. unfold readUint32. rewrite readN_app by (unfold PutUint32; by rewrite len_be_encode).
  cbn [obind fst snd]. unfold Uint32, PutUint32. rewrite <- (app_nil_r (be_encode 4 z)).
  rewrite UintN_encode by done. done.
Qed.

Lemma decompress_chunks_spec fuel ps blockLen soFar out rest :
  chunks_fit ps -> Forall (fun p => p <> []) ps -> (length ps <= fuel)%nat ->
  soFar + len (concat ps) = blockLen -> 0 <= soFar -> blockLen < 2 ^ 32 ->
  decompress_chunks fuel blockLen soFar (stream ps ++ rest) out = Ok (rest, out ++ concat ps, blockLen).
Proof.
  intros Hfit Hne. revert fuel soFar out. induction ps as [|p ps IH]; intros fuel soFar out Hf Hsum Hs Hb.
  { simpl in Hsum. unfold len in Hsum. simpl in Hsum. unfold decompress_chunks, stream. simpl.
    rewrite app_nil_r. destruct fuel; rewrite bool_decide_eq_false_2 by lia; do 2 f_equal; lia. }
  apply Forall_cons in Hfit as [Hp Hfit]. apply Forall_cons in Hne as [Hpn Hne].
  cbn [concat] in Hsum. rewrite len_app in Hsum. pose proof (len_nonneg (concat ps)).
  assert (0 < len p) by (destruct p; [done|unfold len; simpl; lia]).
  destruct fuel as [|fuel]; [simpl in Hf; lia|]. cbn [decompress_chunks].
  rewrite bool_decide_eq_true_2 by lia. rewrite stream_cons.
  rewrite <- !app_assoc. pose proof (len_nonneg (chunk p)).
  rewrite readUint32_app by lia. cbn [obind fst snd]. rewrite readN_app by done. cbn [obind fst snd].
  rewrite Decode_chunk by lia. cbn [map_err obind fst snd]. unfold u32. rewrite Z.mod_small by lia.
  rewrite IH; try done; [by rewrite <- app_assoc|simpl in Hf; lia|lia..].
Qed.

Lemma pieces_concat fuel sz l : (0 < sz)%nat -> (length l < fuel)%nat -> concat (pieces fuel sz l) = l.
Proof.
  intros Hsz. revert l. induction fuel as [|fuel IH]; intros l Hf; [lia|]. simpl.
  destruct l as [|x l]; [done|]. cbn [concat]. rewrite IH by (rewrite length_drop; simpl in *; lia).
  apply take_drop.
Qed.

Lemma pieces_nonempty fuel sz l : (0 < sz)%nat -> Forall (fun p => p <> []) (pieces fuel sz l).
Proof.
  intros Hsz. revert l. induction fuel as [|fuel IH]; intros l; simpl; [constructor|].
  destruct l as [|x l]; [constructor|]. constructor; [|apply IH]. destruct sz; [lia|done].
Qed.

Lemma stream_length ps : (length ps <= length (stream ps))%nat.
Proof.
  induction ps as [|p ps IH]; [done|]. rewrite stream_cons, !length_app.
  unfold PutUint32. rewrite length_be_encode. simpl. lia.
Qed.

(** The pieces a list of buffers is compressed in. *)
Definition chunk_list (cbs : list bytes) : list bytes :=
  pieces (S (length (concat cbs))) (Z.to_nat (Z.min (len (concat cbs)) ChunkLen)) (concat cbs).

(** C32. Compressing a list of cellblocks and decompressing the stream gives back
    the bytes of the cellblocks, however they were cut into buffers, and both
    loops end, for a codec whose decoding undoes its encoding and whose chunks
    fit the length field. *)
Theorem compress_roundtrip cbs :
  len (concat cbs) < 2 ^ 32 -> chunks_fit (chunk_list cbs) ->
  exists b, compressCellblocks cbs (len (concat cbs)) = Ok b /\ decompressCellblocks b = Ok (concat cbs).
Proof.
  intros Hlen Hfit. pose proof ChunkLen_pos as Hpos. pose proof (len_nonneg (concat cbs)) as Hnn.
  unfold compressCellblocks. unfold chunk_list in Hfit. set (sz := Z.to_nat _) in *.
  destruct (decide (concat cbs = [])) as [Hemp|Hne].
  { assert (sz = 0%nat) as Hsz by (unfold sz; rewrite Hemp; unfold len; simpl; lia). rewrite Hsz.
    cbn [compress_loop]. destruct (Read_spec 0 cbs) as (H1 & _ & _).
    destruct (Read 0 cbs) as [src v]. cbn [fst] in H1. rewrite take_0 in H1. subst src.
    eexists. split; [done|]. rewrite Hemp. reflexivity. }
  assert (0 < sz)%nat as Hsz.
  { unfold sz. destruct (concat cbs); [done|]. unfold len. simpl length. lia. }
  rewrite compress_loop_spec by (done || lia). eexists. split; [done|].
  set (ps := pieces (S (length (concat cbs))) sz (concat cbs)) in *.
  assert (concat ps = concat cbs) as Hcat by (apply pieces_concat; lia).
  unfold decompressCellblocks. unfold PutUint32 at 1. rewrite length_app, length_be_encode. cbn [Nat.add decompress_loop].
  rewrite bool_decide_eq_true_2 by (rewrite len_app; unfold PutUint32; rewrite len_be_encode; pose proof (len_nonneg (stream ps)); lia).
  rewrite readUint32_app by lia. cbn [obind fst snd]. rewrite <- (app_nil_r (stream ps)) at 2.
  rewrite (decompress_chunks_spec _ ps (len (concat cbs)) 0 [] []); try done.
  - cbn [obind app]. rewrite bool_decide_eq_false_2 by lia. simpl. by rewrite Hcat.
  - by apply pieces_nonempty.
  - rewrite length_app. pose proof (stream_length ps). lia.
  - by rewrite Hcat.
Qed.

End Stream.

(** ** Any input is read to the end *)

Section Total.
Context {C : Codec}.

Lemma readN_cases what b n :
  0 <= n -> (exists e, readN what b n = Err e /\ e <> NoFuel) \/
  exists hd tl, readN what b n = Ok (hd, tl) /\ b = hd ++ tl /\ len hd = n.
Proof.
  intros Hn. unfold readN. case_bool_decide; [left; by eexists|right].
  assert (len (take (Z.to_nat n) b) = n) as Hl by (unfold len in *; rewrite length_take; lia).
  exists (take (Z.to_nat n) b), (drop (Z.to_nat n) b). rewrite take_drop. split; [|done].
  replace (slice_to b n) with (@Ok decompress_error _ (take (Z.to_nat n) b)).
  2: { rewrite <- (take_drop (Z.to_nat n) b) at 2. by rewrite slice_prefix. }
  replace (slice_from b n) with (@Ok decompress_error _ (drop (Z.to_nat n) b)); [done|].
  rewrite <- (take_drop (Z.to_nat n) b) at 2. by rewrite slice_suffix.
Qed.

Lemma readUint32_cases what b :
  (exists e, readUint32 what b = Err e /\ e <> NoFuel) \/
  exists z tl, readUint32 what b = Ok (z, tl) /\ 0 <= z /\ (length tl < length b)%nat.
Proof.
  unfold readUint32. destruct (readN_cases what b 4) as [(e & -> & He)|(hd & tl & -> & -> & Hl)]; [lia|left; eauto|].
  cbn [obind fst snd]. right. unfold Uint32, UintN. rewrite bool_decide_eq_true_2 by (rewrite Hl; lia).
  cbn [obind]. eexists _, tl. split; [done|]. pose proof (be_decode_range (take 4 hd)).
  split; [lia|]. rewrite length_app. unfold len in Hl. lia.
Qed.

Context (Decode_no_panic : forall s o, Decode s o <> Panic).

Lemma decompress_chunks_cases fuel blockLen soFar b out :
  (length b < fuel)%nat ->
  (exists e, decompress_chunks fuel blockLen soFar b out = Err e /\ e <> NoFuel) \/
  exists b' out' n, decompress_chunks fuel blockLen soFar b out = Ok (b', out', n) /\ (length b' <= length b)%nat.
Proof.
  revert soFar b out. induction fuel as [|fuel IH]; intros soFar b out Hf; [lia|]. cbn [decompress_chunks].
  case_bool_decide; [|right; eauto].
  destruct (readUint32_cases "failed to read compressed chunk block length" b)
    as [(e & -> & He)|(z & tl & -> & Hz & Hlt)]; [left; eauto|]. cbn [obind fst snd].
  destruct (readN_cases "failed to read compressed chunk" tl z Hz)
    as [(e & -> & He)|(hd & tl' & -> & -> & Hl)]; [left; eauto|]. cbn [obind fst snd].
  pose proof (Decode_no_panic hd out). destruct (Decode hd out) as [[o n]|e|]; [|left; by eexists|done].
  cbn [map_err obind fst snd]. rewrite length_app in Hlt.
  destruct (IH (u32 (soFar + n)) tl' o) as [?|(b' & out' & n' & -> & Hle)]; [lia|by left|].
  right. eexists _, _, _. split; [done|]. lia.
Qed.

Lemma decompress_loop_cases fuel b out :
  (length b <= fuel)%nat ->
  (exists e, decompress_loop fuel b out = Err e /\ e <> NoFuel) \/ exists o, decompress_loop fuel b out = Ok o.
Proof.
  revert b out. induction fuel as [|fuel IH]; intros b out Hf.
  { destruct b; [|simpl in Hf; lia]. right. eexists. reflexivity. }
  cbn [decompress_loop]. case_bool_decide; [|right; eauto].
  destruct (readUint32_cases "failed to read uncompressed block length" b)
    as [(e & -> & He)|(z & tl & -> & Hz & Hlt)]; [left; eauto|]. cbn [obind fst snd].
  destruct (decompress_chunks_cases (length b) z 0 tl out Hlt)
    as [(e & -> & He)|(b' & out' & n & -> & Hle)]; [left; eauto|]. cbn [obind].
  case_bool_decide; [left; by eexists|]. apply IH. lia.
Qed.

(** Whatever bytes arrive, [decompressCellblocks] ends with the decompressed
    bytes or with one of its errors: it never loops, and never panics on a
    stream that was cut short or lies about its lengths. *)
Theorem decompress_total b :
  (exists out, decompressCellblocks b = Ok out) \/
  exists e, decompressCellblocks b = Err e /\ e <> NoFuel.
Proof.
  unfold decompressCellblocks. destruct (decompress_loop_cases (length b) b []) as [?|?]; auto.
Qed.

End Total.

(** A codec that stores. *)
Definition stored : Codec := snappyCodec (fun src => src) (fun src => Ok src).

Lemma compress_roundtrip_witness :
  exists b, @compressCellblocks stored [bs "ab"; []; bs "c"] 3 = Ok b /\
    @decompressCellblocks stored b = Ok (bs "abc").
Proof.
  apply (@compress_roundtrip stored (snappyCodec_spec (fun src => src) (fun src => Ok src) (fun _ => eq_refl))
    [bs "ab"; []; bs "c"]).
  - vm_compute. reflexivity.
  - apply Forall_cons. split; [vm_compute; reflexivity|constructor].
Defined.

Lemma decompress_total_witness :
  exists e, @decompressCellblocks stored [x00; x00] = Err e /\ e <> NoFuel.
Proof.
  destruct (@decompress_total stored (fun s o => ltac:(discriminate)) [x00; x00]) as [[out H]|H].
  - vm_compute in H. discriminate.
  - exact H.
Defined.
