(* ===== verification/Memory.v ===== *)
(** * Byte slices that share their arrays

    The other files model a [[]byte] by its bytes.  Where buffers are reused
    (region/client.go [newBuffer], [freeBuffer], region/compressor.go) two slices
    may refer to one array: here a slice is an array with an offset, a length and
    a capacity, and the arrays are in a memory.  [modifies X m m'] says that from
    [m] to [m'] at most the arrays of [X] were written and arrays were allocated;
    [foot b] is the array of a slice, none for a slice without capacity. *)

From S2P Require Import Prelude.

Record buf := Buf { b_arr : nat; b_off : nat; b_len : nat; b_cap : nat }.

#[global] Instance buf_eq_dec : EqDecision buf.
Proof. solve_decision. Defined.

Record mem := Mem { m_arrs : gmap nat bytes; m_next : nat }.

Definition no_mem : mem := Mem ∅ 0.

(** The nil slice. *)
Definition nil_buf : buf := Buf 0 0 0 0.

Definition array (m : mem) (a : nat) : bytes := default [] (m_arrs m !! a).

Definition contents (m : mem) (b : buf) : bytes := take (b_len b) (drop (b_off b) (array m (b_arr b))).

(** [b[:n]] may grow up to the capacity, [b[n:]] starts inside the slice. *)
Definition buf_to {E} (b : buf) (n : nat) : outcome E buf :=
  if bool_decide (n <= b_cap b)%nat then Ok (Buf (b_arr b) (b_off b) n (b_cap b)) else Panic.

Definition buf_from {E} (b : buf) (n : nat) : outcome E buf :=
  if bool_decide (n <= b_len b)%nat then Ok (Buf (b_arr b) (b_off b + n) (b_len b - n) (b_cap b - n)) else Panic.

(** [b[len(b):cap(b)]] *)
Definition room (b : buf) : buf :=
  Buf (b_arr b) (b_off b + b_len b) (b_cap b - b_len b) (b_cap b - b_len b).

Definition splice (i : nat) (s l : bytes) : bytes := take i l ++ s ++ drop (i + length s) l.

(** Write [s] at index [i] of the slice. *)
Definition write (b : buf) (i : nat) (s : bytes) (m : mem) : mem :=
  Mem (alter (splice (b_off b + i) s) (b_arr b) (m_arrs m)) (m_next m).

(** [make], with the bytes it holds first. *)
Definition alloc (l : bytes) (m : mem) : buf * mem :=
  (Buf (m_next m) 0 (length l) (length l), Mem (<[m_next m := l]> (m_arrs m)) (S (m_next m))).

(** [binary.BigEndian.PutUint32(b[i:], z)] *)
Definition put_uint32 {E} (b : buf) (i : nat) (z : Z) (m : mem) : outcome E mem :=
  if bool_decide (i + 4 <= b_len b)%nat then Ok (write b i (PutUint32 z) m) else Panic.

(** How much a slice grows when [append] has to move it is up to the runtime. *)
Class Growth := { more_cap : nat -> nat -> nat }.

(** [append(b, s...)] *)
Definition append `{Growth} (b : buf) (s : bytes) (m : mem) : buf * mem :=
  let n := (b_len b + length s)%nat in
  if bool_decide (n <= b_cap b)%nat
  then (Buf (b_arr b) (b_off b) n (b_cap b), write b (b_len b) s m)
  else
    let '(b', m) := alloc (contents m b ++ s ++ make_bytes (more_cap (b_cap b) n)) m in
    (Buf (b_arr b') 0 n (b_cap b'), m).

(** ** Well-formed slices *)

Definition mem_ok (m : mem) : Prop := forall a, is_Some (m_arrs m !! a) -> (a < m_next m)%nat.

Record buf_ok (m : mem) (b : buf) : Prop := {
  bo_len : (b_len b <= b_cap b)%nat;
  bo_cap : (b_off b + b_cap b <= length (array m (b_arr b)))%nat;
}.

Definition foot (b : buf) : gset nat := if decide (b_cap b = 0%nat) then ∅ else {[b_arr b]}.

Definition foots (l : list buf) : gset nat := ⋃ (foot <$> l).

Record modifies (X : gset nat) (m m' : mem) : Prop := {
  mo_ok : mem_ok m';
  mo_next : (m_next m <= m_next m')%nat;
  mo_len a : length (array m a) = length (array m' a) \/ (m_next m <= a)%nat;
  mo_same a : a ∉ X -> (a < m_next m)%nat -> array m' a = array m a;
}.

(** What [b] of the memory [m] has become: a slice of the same array or of a new one. *)
Record grown (m : mem) (b : buf) (m' : mem) (b' : buf) : Prop := {
  gr_mod : modifies (foot b) m m';
  gr_ok : buf_ok m' b';
  gr_foot a : a ∈ foot b' -> a ∈ foot b \/ (m_next m <= a)%nat;
}.

(** ** Bytes after a write *)

Lemma lookup_splice i (s l : bytes) j :
  (i + length s <= length l)%nat ->
  splice i s l !! j = if decide (i <= j < i + length s)%nat then s !! (j - i)%nat else l !! j.
Proof.
  intros H. unfold splice. destruct (decide (j < i)%nat).
  { rewrite decide_False by lia. rewrite lookup_app_l by (rewrite length_take; lia). by apply lookup_take_lt. }
  rewrite lookup_app_r, length_take by (rewrite length_take; lia). rewrite Nat.min_l by lia.
  case_decide.
  - by apply lookup_app_l; lia.
  - rewrite lookup_app_r by lia. rewrite lookup_drop. f_equal. lia.
Qed.

Lemma length_splice i (s l : bytes) : (i + length s <= length l)%nat -> length (splice i s l) = length l.
Proof. intros. unfold splice. rewrite !length_app, length_take, length_drop. lia. Qed.

Lemma lookup_contents m b j :
  contents m b !! j = if decide (j < b_len b)%nat then array m (b_arr b) !! (b_off b + j)%nat else None.
Proof. unfold contents. rewrite lookup_take. case_decide; [by rewrite lookup_drop|done]. Qed.

Lemma length_contents m b : buf_ok m b -> length (contents m b) = b_len b.
Proof. intros [Hl Hc]. unfold contents. rewrite length_take, length_drop. lia. Qed.

Lemma array_write b i s m a :
  (b_off b + i + length s <= length (array m (b_arr b)))%nat ->
  array (write b i s m) a = if decide (a = b_arr b) then splice (b_off b + i) s (array m a) else array m a.
Proof.
  intros H. unfold array, write in *. simpl. case_decide as Ha.
  - subst a. rewrite lookup_alter_eq. destruct (m_arrs m !! b_arr b) as [l|]; simpl in *; [done|].
    destruct s; simpl in *; [|lia]. unfold splice. by rewrite take_nil, drop_nil.
  - by rewrite lookup_alter_ne.
Qed.

Lemma array_write_same b i s m :
  (b_off b + i + length s <= length (array m (b_arr b)))%nat ->
  array (write b i s m) (b_arr b) = splice (b_off b + i) s (array m (b_arr b)).
Proof. intros H. rewrite array_write by done. by rewrite decide_True. Qed.

Lemma write_ok b i s m : mem_ok m -> mem_ok (write b i s m).
Proof. intros Hm a. unfold write. simpl. rewrite lookup_alter_is_Some. apply Hm. Qed.

(** Equality of byte strings index by index. *)
Ltac by_index :=
  apply list_eq; intros ?;
  repeat first
    [ rewrite lookup_contents | rewrite lookup_splice by (simpl in *; lia)
    | rewrite lookup_take | rewrite lookup_drop ];
  simpl; repeat case_decide; try lia; try done; try (f_equal; lia).

(** ** What is left alone *)

Lemma elem_of_foot a b : a ∈ foot b <-> b_cap b <> 0%nat /\ a = b_arr b.
Proof. unfold foot. case_decide; set_solver. Qed.

Lemma elem_of_foots a l : a ∈ foots l <-> exists b, b ∈ l /\ a ∈ foot b.
Proof.
  unfold foots. rewrite elem_of_union_list. split.
  - intros (X & (b & -> & Hb)%list_elem_of_fmap & Ha). eauto.
  - intros (b & Hb & Ha). exists (foot b). split; [|done]. by apply list_elem_of_fmap_2.
Qed.

Lemma foots_cons b l : foots (b :: l) = foot b ∪ foots l.
Proof. done. Qed.

Lemma array_beyond m a : mem_ok m -> (m_next m <= a)%nat -> array m a = [].
Proof.
  intros Hm Ha. unfold array. destruct (m_arrs m !! a) eqn:E; [|done].
  assert (a < m_next m)%nat by (apply Hm; by eexists). lia.
Qed.

Lemma foot_old m b a : mem_ok m -> buf_ok m b -> a ∈ foot b -> (a < m_next m)%nat.
Proof.
  intros Hm [Hl Hc] [Hn ->]%elem_of_foot. destruct (decide (b_arr b < m_next m)%nat); [done|].
  rewrite array_beyond in Hc by (done || lia). simpl in Hc. lia.
Qed.

Lemma modifies_refl X m : mem_ok m -> modifies X m m.
Proof. split; auto. Qed.

Lemma modifies_weaken X Y m m' : X ⊆ Y -> modifies X m m' -> modifies Y m m'.
Proof. intros HXY []. split; auto. Qed.

(** What was written after arrays were allocated may be in them. *)
Lemma modifies_trans X Y m m' m'' :
  modifies X m m' -> modifies Y m' m'' -> (forall a, a ∈ Y -> a ∈ X \/ (m_next m <= a)%nat) -> modifies X m m''.
Proof.
  intros [O1 N1 L1 S1] [O2 N2 L2 S2] HY. split; [done|lia|..].
  - intros a. destruct (L1 a), (L2 a); try (right; lia). left. congruence.
  - intros a Ha Hlt. rewrite S2 by (lia || (intros [|]%HY; [done|lia])). by apply S1.
Qed.

Lemma modifies_buf_ok X m m' b : mem_ok m -> modifies X m m' -> buf_ok m b -> buf_ok m' b.
Proof.
  intros Hm [O N L S] [Hl Hc]. split; [done|]. destruct (L (b_arr b)); [lia|].
  rewrite array_beyond in Hc by done. simpl in Hc. lia.
Qed.

Lemma modifies_contents X m m' b :
  mem_ok m -> modifies X m m' -> buf_ok m b -> foot b ## X -> contents m' b = contents m b.
Proof.
  intros Hm HM Hb HX. unfold contents. destruct (decide (b_cap b = 0%nat)) as [Hz|Hz].
  { destruct Hb as [Hl _]. replace (b_len b) with 0%nat by lia. by rewrite !take_0. }
  assert (b_arr b ∈ foot b) as Hin by (by apply elem_of_foot).
  rewrite (mo_same _ _ _ HM); [done|set_solver|by eapply foot_old].
Qed.

Lemma grown_refl m b : mem_ok m -> buf_ok m b -> grown m b m b.
Proof. intros Hm Hb. split; [by apply modifies_refl|done|auto]. Qed.

Lemma grown_trans m b m' b' m'' b'' : grown m b m' b' -> grown m' b' m'' b'' -> grown m b m'' b''.
Proof.
  intros [M1 O1 F1] [M2 O2 F2]. pose proof (mo_next _ _ _ M1). split; [|done|].
  - eapply modifies_trans; [done..|]. apply F1.
  - intros a [Ha|Ha]%F2; [by apply F1|right; lia].
Qed.

(** Slices away from what grows stay as they are, and away from what it has become. *)
Lemma grown_other m b m' b' c :
  mem_ok m -> grown m b m' b' -> buf_ok m c -> foot c ## foot b ->
  contents m' c = contents m c /\ buf_ok m' c /\ foot c ## foot b'.
Proof.
  intros Hm [HM Hb' HF] Hc HX. split_and!; [by eapply modifies_contents|by eapply modifies_buf_ok|].
  intros a Ha [Hb|Hb]%HF; [set_solver|]. pose proof (foot_old _ _ _ Hm Hc Ha). lia.
Qed.

(** ** The operations *)

Lemma foot_same_arr b b' : b_arr b' = b_arr b -> (b_cap b' <= b_cap b)%nat -> foot b' ⊆ foot b.
Proof. intros Ha Hc a [Hn ->]%elem_of_foot. apply elem_of_foot. split; [lia|done]. Qed.

Lemma room_ok m b : buf_ok m b -> buf_ok m (room b) /\ foot (room b) ⊆ foot b.
Proof.
  intros [Hl Hc]. split; [split; simpl; lia|]. apply foot_same_arr; simpl; [done|lia].
Qed.

Lemma buf_to_Ok {E} m b n :
  buf_ok m b -> (n <= b_cap b)%nat ->
  exists b', @buf_to E b n = Ok b' /\ buf_ok m b' /\ foot b' = foot b /\ b_len b' = n /\ b_cap b' = b_cap b /\
    take (Nat.min n (b_len b)) (contents m b') = take (Nat.min n (b_len b)) (contents m b).
Proof.
  intros [Hl Hc] Hn. unfold buf_to. rewrite bool_decide_eq_true_2 by done.
  eexists. split; [done|]. split_and!; [by split|done|done|done|]. by_index.
Qed.

Lemma write_modifies b i s m :
  mem_ok m -> buf_ok m b -> (i + length s <= b_cap b)%nat -> modifies (foot b) m (write b i s m).
Proof.
  intros Hm [Hl Hc] Hi. split; [by apply write_ok|simpl; lia|..].
  - intros a. left. rewrite array_write by lia. case_decide; [subst|done]. rewrite length_splice; lia.
  - intros a Ha _. rewrite array_write by lia. case_decide; [subst|done].
    destruct (decide (b_cap b = 0%nat)).
    + destruct s; [|simpl in Hi; lia]. apply list_eq. intros j. rewrite lookup_splice by (simpl; lia).
      by rewrite decide_False by (simpl; lia).
    + exfalso. apply Ha. by apply elem_of_foot.
Qed.

Lemma contents_write b i s m :
  buf_ok m b -> (i + length s <= b_len b)%nat -> contents (write b i s m) b = splice i s (contents m b).
Proof.
  intros Hb Hi. pose proof (length_contents m b Hb) as Hlen. destruct Hb as [Hl Hc]. apply list_eq. intros j.
  rewrite lookup_splice by lia. rewrite !lookup_contents, array_write_same by lia.
  rewrite lookup_splice by lia. repeat case_decide; try lia; try done. f_equal. lia.
Qed.

Lemma put_uint32_Ok {E} b i z m :
  mem_ok m -> buf_ok m b -> (i + 4 <= b_len b)%nat ->
  exists m', @put_uint32 E b i z m = Ok m' /\ modifies (foot b) m m' /\
    contents m' b = splice i (PutUint32 z) (contents m b).
Proof.
  intros Hm Hb Hi. unfold put_uint32. rewrite bool_decide_eq_true_2 by done. eexists. split; [done|].
  assert (length (PutUint32 z) = 4%nat) as H4 by (unfold PutUint32; by rewrite length_be_encode).
  split; [apply write_modifies; [done..|destruct Hb; lia]|]. apply contents_write; [done|lia].
Qed.

Lemma alloc_spec l m :
  mem_ok m ->
  let '(b, m') := alloc l m in
  modifies ∅ m m' /\ b_arr b = m_next m /\ b_off b = 0%nat /\ b_len b = length l /\ b_cap b = length l /\
  array m' (b_arr b) = l.
Proof.
  intros Hm. unfold alloc. split_and!; try done.
  - split; simpl.
    + intros a. simpl. rewrite lookup_insert_is_Some'. intros [<-|Ha]; [lia|]. apply Hm in Ha. lia.
    + lia.
    + intros a. unfold array. simpl. destruct (decide (a = m_next m)) as [->|Hne]; [right; lia|].
      left. by rewrite lookup_insert_ne.
    + intros a _ Ha. unfold array. simpl. rewrite lookup_insert_ne; [done|lia].
  - unfold array. simpl. by rewrite lookup_insert_eq.
Qed.

Lemma append_spec `{Growth} b s m :
  mem_ok m -> buf_ok m b ->
  let '(b', m') := append b s m in
  grown m b m' b' /\ contents m' b' = contents m b ++ s.
Proof.
  intros Hm Hb. unfold append. pose proof (length_contents m b Hb) as Hlen. case_bool_decide as Hc.
  - assert (buf_ok m (Buf (b_arr b) (b_off b) (b_len b + length s) (b_cap b))) as Hb'.
    { destruct Hb. split; simpl; lia. }
    pose proof (write_modifies b (b_len b) s m Hm Hb Hc) as HM. split.
    + split; [done|by eapply modifies_buf_ok|]. intros a Ha. left. by apply elem_of_foot in Ha; apply elem_of_foot.
    + destruct Hb as [Hl Hcap]. apply list_eq. intros j. rewrite lookup_app, !lookup_contents, Hlen. simpl.
      rewrite array_write_same by lia. rewrite lookup_splice by lia.
      destruct (decide (j < b_len b)%nat).
      * rewrite decide_True, decide_False by lia.
        destruct (array m (b_arr b) !! _) eqn:E; [done|]. apply lookup_ge_None in E. lia.
      * case_decide; [rewrite decide_True by lia; f_equal; lia|]. symmetry. apply lookup_ge_None_2. lia.
  - destruct (alloc _ m) as [b' m'] eqn:Ea. pose proof (alloc_spec (contents m b ++ s ++ make_bytes (more_cap (b_cap b) (b_len b + length s))) m Hm) as Hs.
    rewrite Ea in Hs. destruct Hs as (HM & Ha & Ho & Hl & Hcp & Harr).
    assert (b_len b + length s <= b_cap b')%nat as Hfit by (rewrite Hcp, !length_app, Hlen; lia). split.
    + split; [eapply modifies_weaken; [|done]; set_solver| |].
      * split; simpl; [done|]. rewrite Harr, Hcp. lia.
      * intros a [_ ->]%elem_of_foot. right. simpl. lia.
    + unfold contents at 1. simpl. rewrite Harr, drop_0, app_assoc. rewrite take_app_le by (rewrite length_app; lia).
      apply take_ge. rewrite length_app. lia.
Qed.

(** ** Slices with different arrays *)

Fixpoint separate (l : list buf) : Prop :=
  match l with
  | [] => True
  | b :: l => foot b ## foots l /\ separate l
  end.

#[global] Instance foots_Permutation : Proper ((≡ₚ) ==> (=)) foots.
Proof. intros l k H. apply leibniz_equiv. unfold foots. by rewrite H. Qed.

#[global] Instance separate_Permutation : Proper ((≡ₚ) ==> iff) separate.
Proof.
  intros l k H. induction H as [|b l k H IH|a b l|l k j H1 IH1 H2 IH2]; simpl.
  - done.
  - by rewrite IH, H.
  - rewrite !foots_cons. set_solver.
  - by rewrite IH1.
Qed.

Lemma foots_app l k : foots (l ++ k) = foots l ∪ foots k.
Proof. unfold foots. rewrite fmap_app. apply leibniz_equiv. by rewrite union_list_app. Qed.

(** Only inside a slice is written. *)
Record within (p : buf) (m m' : mem) : Prop := {
  wi_mod : modifies (foot p) m m';
  wi_out j : (b_arr p < m_next m)%nat -> ~ (b_off p <= j < b_off p + b_len p)%nat -> array m' (b_arr p) !! j = array m (b_arr p) !! j;
}.

Lemma write_within b i s m :
  mem_ok m -> buf_ok m b -> (i + length s <= b_len b)%nat -> within b m (write b i s m).
Proof.
  intros Hm Hb Hi. split; [apply write_modifies; [done..|destruct Hb; lia]|]. intros j _ Hj. destruct Hb.
  rewrite array_write_same, lookup_splice by lia. case_decide; [lia|done].
Qed.

(** A slice that ends before [p] starts in the same array, and is as long as before. *)
Lemma within_before p m m' b :
  mem_ok m -> buf_ok m b ->
  within p m m' -> b_arr b = b_arr p -> (b_off b + b_len b <= b_off p)%nat -> contents m' b = contents m b.
Proof.
  intros Hm [Hbl Hbc] [_ Ho] Ha Hl. apply list_eq. intros j. rewrite !lookup_contents. case_decide; [|done].
  rewrite Ha in *. apply Ho; [|lia]. destruct (decide (b_arr p < m_next m)%nat); [done|].
  rewrite array_beyond in Hbc by (done || lia). simpl in Hbc. lia.
Qed.

Lemma within_trans p q m m' m'' :
  within p m m' -> within q m' m'' -> b_arr q = b_arr p -> (b_cap q <= b_cap p)%nat ->
  (b_off p <= b_off q)%nat -> (b_off q + b_len q <= b_off p + b_len p)%nat -> within p m m''.
Proof.
  intros [M1 O1] [M2 O2] Ha Hc Hl Hr. split.
  - eapply modifies_trans; [done..|]. intros a H. left. by eapply foot_same_arr.
  - intros j Hlt Hj. pose proof (mo_next _ _ _ M1). rewrite <- Ha, O2 by lia. rewrite Ha. by apply O1.
Qed.
