(* ===== verification/Buffers.v ===== *)
(** * Compressing in buffers that are reused: region/client.go [bufferPool], region/compressor.go

    [newBuffer] takes a buffer from a pool that all connections share and
    [freeBuffer] gives it back, with whatever was written to it; [growBuffer]
    exposes old bytes of its capacity, and [snappyCodec.Encode] compresses in place
    when there is room.  Here [compressCellblocks] is modelled on the memory of
    Memory.v.  What the pool returns is a choice: any of its buffers, or none.
    [snappy.Encode] is third party: its documentation asks that [dst] and [src] do
    not overlap, and says that the result is in [dst] or newly allocated. *)

From S2P Require Import Prelude Hrpc Compressor Memory.

(** ** compression/codec.go on buffers *)

Class BufCodec := {
  EncodeTo : buf -> buf -> mem -> buf * Z * mem;
}.

(** A codec on buffers and the codec on bytes it is. *)
Class BufCodecSpec (C : Codec) (B : BufCodec) := {
  packed : bytes -> bytes;
  Encode_packed src dst : Encode src dst = (dst ++ packed src, u32 (len (packed src)));
  EncodeTo_spec src dst m :
    mem_ok m -> buf_ok m src -> buf_ok m dst -> foot src ## foot dst ->
    exists b n m', EncodeTo src dst m = (b, n, m') /\ grown m dst m' b /\
      Encode (contents m src) (contents m dst) = (contents m' b, n);
}.

(** ** compression/snappy on buffers *)

Class Snappy := { snappyEncode : buf -> buf -> mem -> buf * mem }.

Class SnappyDoc (S : Snappy) (enc : bytes -> bytes) :=
  snappyEncode_doc dst src m :
    mem_ok m -> buf_ok m dst -> buf_ok m src -> foot src ## foot dst ->
    exists r m', snappyEncode dst src m = (r, m') /\ within dst m m' /\ contents m' r = enc (contents m src).

Section SnappyCodec.
Context {G : Growth} {S : Snappy}.

Definition snappyBufCodec : BufCodec := {|
  EncodeTo src dst m :=
    let '(chunk, m) := snappyEncode (room dst) src m in
    let c := contents m chunk in
    let '(b, m) := append dst c m in
    (b, u32 (len c), m)
|}.

Context (enc : bytes -> bytes) (dec : bytes -> outcome error bytes) {HS : SnappyDoc S enc}.

Lemma snappyBufCodec_spec : BufCodecSpec (snappyCodec enc dec) snappyBufCodec.
Proof.
  refine {| packed := enc : bytes -> bytes |}; [done|].
  intros src dst m Hm Hsrc Hdst Hsep. simpl. destruct (room_ok m dst Hdst) as [Hroom Hfoot].
  destruct (snappyEncode_doc (room dst) src m) as (r & m1 & -> & Hw & Hc); [done|done|done|set_solver|].
  assert (modifies (foot dst) m m1) as HM by (eapply modifies_weaken; [done|apply Hw]).
  assert (buf_ok m1 dst) as Hdst1 by (by eapply modifies_buf_ok).
  assert (contents m1 dst = contents m dst) as Hkeep by (eapply within_before; [done..|simpl; lia]).
  pose proof (append_spec dst (contents m1 r) m1 (mo_ok _ _ _ HM) Hdst1) as Happ.
  destruct (append dst (contents m1 r) m1) as [b m2]. destruct Happ as [Hg Hb].
  eexists _, _, _. split; [done|]. rewrite Hb, Hkeep, Hc. split; [|done].
  eapply grown_trans; [|done]. split; [done|done|auto].
Qed.

End SnappyCodec.

(** ** The pool *)

Record store := Store { st_mem : mem; st_pool : list buf }.

(** [bufferPool.Get()]: one of the buffers, or none. *)
Definition pool_get (pick : option nat) (pool : list buf) : option buf * list buf :=
  match pick with
  | None => (None, pool)
  | Some i => match pool !! i with Some b => (Some b, delete i pool) | None => (None, pool) end
  end.

Section Ops.
Context {G : Growth}.

Definition newBuffer {E} (pick : option nat) (size : nat) (st : store) : outcome E (buf * store) :=
  let '(v, pool) := pool_get pick (st_pool st) in
  let b := default nil_buf v in
  if bool_decide (b_cap b < size)%nat then
    let* b := buf_to b 0 in
    let '(b, m) := append b (make_bytes size) (st_mem st) in
    let* b := buf_to b size in
    Ok (b, Store m pool)
  else
    let* b := buf_to b size in
    Ok (b, Store (st_mem st) pool).

Definition freeBuffer {E} (b : buf) (st : store) : outcome E store :=
  let* b := buf_to b 0 in
  Ok (Store (st_mem st) (b :: st_pool st)).

(** ** region/compressor.go on buffers *)

Definition growBufferM {E} (b : buf) (sz : nat) (m : mem) : outcome E (buf * mem) :=
  let l := (b_len b + sz)%nat in
  if bool_decide (l <= b_cap b)%nat
  then let* b := buf_to b l in Ok (b, m)
  else Ok (append b (make_bytes sz) m).

(** [resizeBufferCap] of the decompressor: room for [capacity] bytes behind what is there. *)
Definition resizeBufferCapM {E} (b : buf) (capacity : nat) (m : mem) : outcome E (buf * mem) :=
  if bool_decide (capacity <= b_cap b)%nat then Ok (b, m)
  else
    let l := b_len b in
    let '(b, m) := append b (make_bytes (capacity - l)) m in
    let* b := buf_to b l in
    Ok (b, m).

(** [net.Buffers.Read] into [p]: how much was read and what is left. *)
Fixpoint ReadM (p : buf) (v : list buf) (m : mem) : nat * list buf * mem :=
  match v with
  | [] => (0%nat, [], m)
  | b :: v' =>
      if bool_decide (b_len b <= b_len p)%nat then
        let m := write p 0 (contents m b) m in
        let '(n, w, m) :=
          ReadM (Buf (b_arr p) (b_off p + b_len b) (b_len p - b_len b) (b_cap p - b_len b)) v' m in
        ((b_len b + n)%nat, w, m)
      else
        (b_len p, Buf (b_arr b) (b_off b + b_len p) (b_len b - b_len p) (b_cap b - b_len p) :: v',
         write p 0 (take (b_len p) (contents m b)) m)
  end.

Context {C : Codec} {B : BufCodec}.

(** One turn of the loop of [compressCellblocks], and whether it was the last. *)
Definition compress_turn (u : buf) (cbs : list buf) (b : buf) (m : mem)
    : outcome out_of_fuel (bool * list buf * buf * mem) :=
  let '(n, cbs, m) := ReadM u cbs m in
  if bool_decide (n = 0%nat) then Ok (true, cbs, b, m)
  else
    let lenOffset := b_len b in
    let* r := growBufferM b 4 m in
    let* src := buf_to u n in
    let '(b, chunkLen, m) := EncodeTo src (fst r) (snd r) in
    let* m := put_uint32 b lenOffset chunkLen m in
    Ok (match cbs with [] => true | _ => false end, cbs, b, m).

Fixpoint compress_loopM (fuel : nat) (u : buf) (cbs : list buf) (b : buf) (m : mem)
    : outcome out_of_fuel (buf * mem) :=
  match fuel with
  | O => Err OutOfFuel
  | S fuel =>
      let* r := compress_turn u cbs b m in
      let '(last, cbs, b, m) := r in
      if last : bool then Ok (b, m) else compress_loopM fuel u cbs b m
  end.

Definition total_len (cbs : list buf) : nat := sum_list (b_len <$> cbs).

Definition compressCellblocksM (pick pick' : option nat) (cbs : list buf) (uncompressedLen : Z) (st : store)
    : outcome out_of_fuel (buf * store) :=
  let* r := newBuffer pick 4 st in
  let '(b, st) := r in
  let* m := put_uint32 b 0 uncompressedLen (st_mem st) in
  let* r := newBuffer pick' (Z.to_nat (Z.min uncompressedLen ChunkLen)) (Store m (st_pool st)) in
  let '(u, st) := r in
  let* r := compress_loopM (S (total_len cbs)) u cbs b (st_mem st) in
  let* st := freeBuffer u (Store (snd r) (st_pool st)) in
  Ok (fst r, st).

End Ops.

(** ** Taking from the pool and giving back *)

(** The buffers [l] are in order in the memory, and none shares its array. *)
Record bufs_ok (m : mem) (l : list buf) : Prop := {
  bs_ok : Forall (buf_ok m) l;
  bs_sep : separate l;
}.

#[global] Instance bufs_ok_Permutation m : Proper ((≡ₚ) ==> iff) (bufs_ok m).
Proof. intros l k H. split; intros [H1 H2]; split; by rewrite ?H in *. Qed.

Lemma bufs_ok_cons m b l : bufs_ok m (b :: l) <-> buf_ok m b /\ foot b ## foots l /\ bufs_ok m l.
Proof.
  split.
  - intros [[H1 H2]%Forall_cons [H3 H4]]. done.
  - intros (H1 & H2 & [H3 H4]). split; [by constructor|done].
Qed.

Lemma separate_app l k : separate (l ++ k) <-> separate l /\ separate k /\ foots l ## foots k.
Proof.
  induction l as [|b l IH]; cbn [app separate].
  - split; [|by intros (_ & ? & _)]. intros H. split_and!; [done..|]. change (∅ ## foots k). set_solver.
  - rewrite IH, foots_app, foots_cons, !disjoint_union_l, !disjoint_union_r. tauto.
Qed.

Lemma bufs_ok_app m l k : bufs_ok m (l ++ k) <-> bufs_ok m l /\ bufs_ok m k /\ foots l ## foots k.
Proof.
  split.
  - intros [[H1 H2]%Forall_app (H3 & H4 & H5)%separate_app]. done.
  - intros ([H1 H2] & [H3 H4] & H5). split; [by apply Forall_app|by apply separate_app].
Qed.

Lemma nil_buf_ok m l : bufs_ok m (nil_buf :: l) <-> bufs_ok m l.
Proof.
  rewrite bufs_ok_cons. assert (foot nil_buf = ∅) as Hf by (unfold foot; by rewrite decide_True).
  rewrite Hf. split; [by intros (_ & _ & ?)|]. intros H. split_and!; [split; simpl; lia|set_solver|done].
Qed.

(** Another buffer for one of the list. *)
Lemma bufs_ok_grown m b l m' b' :
  mem_ok m -> bufs_ok m (b :: l) -> grown m b m' b' -> bufs_ok m' (b' :: l).
Proof.
  intros Hm (Hb & Hsep & [Hl Hs])%bufs_ok_cons Hg. apply bufs_ok_cons. split_and!; [apply Hg|..].
  - intros a Ha' (c & Hc & Ha)%elem_of_foots. rewrite Forall_forall in Hl.
    assert (foot c ## foot b) as Hcb.
    { intros x Hx Hxb. apply (Hsep x Hxb). apply elem_of_foots. eauto. }
    destruct (grown_other m b m' b' c Hm Hg (Hl c Hc) Hcb) as (_ & _ & Hd). by apply (Hd a).
  - split; [|done]. eapply Forall_impl; [done|]. intros c. by apply (modifies_buf_ok (foot b)); [|apply Hg].
Qed.

(** The buffers that a step has in its hands before and after. *)
Record moves (m : mem) (l : list buf) (m' : mem) (k : list buf) : Prop := {
  mv_ok : bufs_ok m' k;
  mv_mod : modifies (foots l) m m';
  mv_foot a : a ∈ foots k -> a ∈ foots l \/ (m_next m <= a)%nat;
}.

Lemma moves_refl m l k : mem_ok m -> l ≡ₚ k -> bufs_ok m l -> moves m l m k.
Proof.
  intros Hm Hp Hl. split; [by rewrite <- Hp|by apply modifies_refl|]. intros a. rewrite Hp. auto.
Qed.

Lemma moves_trans m l m' k m'' j : moves m l m' k -> moves m' k m'' j -> moves m l m'' j.
Proof.
  intros [O1 M1 F1] [O2 M2 F2]. pose proof (mo_next _ _ _ M1). split; [done| |].
  - eapply modifies_trans; [done..|]. apply F1.
  - intros a [Ha|Ha]%F2; [by apply F1|right; lia].
Qed.

Lemma moves_grown m b l m' b' :
  mem_ok m -> bufs_ok m (b :: l) -> grown m b m' b' -> moves m (b :: l) m' (b' :: l).
Proof.
  intros Hm Hl Hg. split; [by eapply bufs_ok_grown| |].
  - eapply modifies_weaken; [|apply Hg]. rewrite foots_cons. set_solver.
  - intros a. rewrite !foots_cons. intros [Ha|Ha]%elem_of_union; [|set_solver].
    apply (gr_foot _ _ _ _ Hg) in Ha as [Ha|Ha]; [set_solver|by right].
Qed.

Lemma foots_nil_buf l : foots (nil_buf :: l) = foots l.
Proof. rewrite foots_cons. unfold foot. rewrite decide_True by done. set_solver. Qed.

Lemma pool_get_moves m pick pool l :
  mem_ok m -> bufs_ok m (pool ++ l) ->
  let '(v, pool') := pool_get pick pool in moves m (pool ++ l) m (default nil_buf v :: pool' ++ l).
Proof.
  intros Hm Hl. assert (moves m (pool ++ l) m (nil_buf :: pool ++ l)) as Hnil.
  { split; [by apply nil_buf_ok|by apply modifies_refl|]. intros a. rewrite foots_nil_buf. auto. }
  unfold pool_get. destruct pick as [i|]; [|done]. destruct (pool !! i) as [b|] eqn:Hi; [|done].
  apply moves_refl; [done| |done]. simpl. change (b :: delete i pool ++ l) with ((b :: delete i pool) ++ l).
  f_equiv. by apply delete_Permutation.
Qed.

(** Slicing up to the capacity. *)
Lemma buf_to_grown {E} m b n :
  mem_ok m -> buf_ok m b -> (n <= b_cap b)%nat ->
  exists b', @buf_to E b n = Ok b' /\ b_len b' = n /\ b_cap b' = b_cap b /\ foot b' = foot b /\ grown m b m b' /\
    take (Nat.min n (b_len b)) (contents m b') = take (Nat.min n (b_len b)) (contents m b).
Proof.
  intros Hm Hb Hn. destruct (@buf_to_Ok E m b n Hb Hn) as (b' & H & Hok & Hf & Hlen & Hcap & Hc).
  exists b'. split_and!; try done. split; [by apply modifies_refl|done|]. rewrite Hf. auto.
Qed.

Section PoolSpecs.
Context {G : Growth}.

Lemma newBuffer_spec {E} pick size st l :
  mem_ok (st_mem st) -> bufs_ok (st_mem st) (st_pool st ++ l) ->
  exists b st', @newBuffer _ E pick size st = Ok (b, st') /\ b_len b = size /\
    moves (st_mem st) (st_pool st ++ l) (st_mem st') (b :: st_pool st' ++ l).
Proof.
  intros Hm Hl. unfold newBuffer. pose proof (pool_get_moves (st_mem st) pick (st_pool st) l Hm Hl) as Hg.
  destruct (pool_get pick (st_pool st)) as [v pool]. set (b0 := default nil_buf v) in *.
  pose proof (mv_ok _ _ _ _ Hg) as Hok. pose proof Hok as (Hb0 & _ & _)%bufs_ok_cons. case_bool_decide as Hc.
  - destruct (@buf_to_grown E (st_mem st) b0 0 Hm Hb0) as (b1 & -> & Hl1 & _ & _ & Hg1 & _); [lia|]. cbn [obind].
    pose proof (append_spec b1 (make_bytes size) (st_mem st) Hm (gr_ok _ _ _ _ Hg1)) as Happ.
    destruct (append b1 (make_bytes size) (st_mem st)) as [b2 m2]. destruct Happ as [Hg2 Hc2].
    assert (mem_ok m2) as Hm2 by (eapply mo_ok, Hg2).
    assert (b_len b2 = size) as Hl2.
    { rewrite <- (length_contents m2 b2) by apply Hg2. rewrite Hc2, length_app, (length_contents (st_mem st)) by apply Hg1.
      unfold make_bytes. rewrite length_replicate. lia. }
    pose proof (gr_ok _ _ _ _ Hg2) as [Hle2 _].
    destruct (@buf_to_grown E m2 b2 size Hm2 (gr_ok _ _ _ _ Hg2)) as (b3 & -> & Hl3 & _ & _ & Hg3 & _); [lia|].
    cbn [obind]. eexists _, _. split; [done|]. split; [done|]. cbn [st_mem st_pool].
    eapply moves_trans; [done|]. apply moves_grown; [done..|].
    eapply grown_trans; [done|]. by eapply grown_trans.
  - destruct (@buf_to_grown E (st_mem st) b0 size Hm Hb0) as (b1 & -> & Hl1 & _ & _ & Hg1 & _); [lia|].
    cbn [obind]. eexists _, _. split; [done|]. split; [done|]. eapply moves_trans; [done|]. by apply moves_grown.
Qed.

(** Only buffers of the pool are written. *)
Lemma newBuffer_modifies {E} pick size st l b st' :
  mem_ok (st_mem st) -> bufs_ok (st_mem st) (st_pool st ++ l) -> @newBuffer _ E pick size st = Ok (b, st') ->
  modifies (foots (st_pool st)) (st_mem st) (st_mem st').
Proof.
  intros Hm (Hl & _ & _)%bufs_ok_app H. rewrite <- (app_nil_r (st_pool st)) in Hl.
  destruct (@newBuffer_spec E pick size st [] Hm Hl) as (b1 & st1 & H1 & _ & Hmv).
  rewrite H in H1. injection H1 as <- <-. pose proof (mv_mod _ _ _ _ Hmv) as HM. by rewrite app_nil_r in HM.
Qed.

Lemma freeBuffer_spec {E} b st l :
  mem_ok (st_mem st) -> bufs_ok (st_mem st) (b :: st_pool st ++ l) ->
  exists st', @freeBuffer E b st = Ok st' /\ st_mem st' = st_mem st /\
    moves (st_mem st) (b :: st_pool st ++ l) (st_mem st') (st_pool st' ++ l).
Proof.
  intros Hm Hl. unfold freeBuffer. pose proof Hl as (Hb & _ & _)%bufs_ok_cons.
  destruct (@buf_to_grown E (st_mem st) b 0 Hm Hb) as (b1 & -> & _ & _ & _ & Hg & _); [lia|]. cbn [obind].
  eexists. split; [done|]. split; [done|]. by apply (moves_grown _ b (st_pool st ++ l)).
Qed.

Lemma growBufferM_spec {E} b sz m :
  mem_ok m -> buf_ok m b ->
  exists b' m', @growBufferM _ E b sz m = Ok (b', m') /\ grown m b m' b' /\ b_len b' = (b_len b + sz)%nat /\
    take (b_len b) (contents m' b') = contents m b.
Proof.
  intros Hm Hb. unfold growBufferM. pose proof (length_contents m b Hb) as Hlen. case_bool_decide.
  - destruct (@buf_to_grown E m b (b_len b + sz) Hm Hb) as (b1 & -> & Hl1 & _ & _ & Hg & Hc); [done|].
    cbn [obind]. eexists _, _. split_and!; [done|done|done|].
    rewrite Nat.min_r in Hc by lia. rewrite Hc. apply take_ge. lia.
  - pose proof (append_spec b (make_bytes sz) m Hm Hb) as Happ.
    destruct (append b (make_bytes sz) m) as [b2 m2]. destruct Happ as [Hg Hc].
    eexists _, _. split_and!; [done|done| |].
    + rewrite <- (length_contents m2 b2) by apply Hg. rewrite Hc, length_app, Hlen.
      unfold make_bytes. by rewrite length_replicate.
    + rewrite Hc. by apply take_app_length'.
Qed.

End PoolSpecs.

(** ** Reading the cellblocks *)

(** A slice as its first [k] bytes and the rest. *)
Lemma contents_split m p k :
  (k <= b_len p)%nat ->
  contents m p = contents m (Buf (b_arr p) (b_off p) k k) ++
    contents m (Buf (b_arr p) (b_off p + k) (b_len p - k) (b_cap p - k)).
Proof.
  intros Hk. unfold contents. simpl. rewrite <- drop_drop.
  rewrite take_take_drop. f_equal. lia.
Qed.

Lemma contents_others X m m' v :
  mem_ok m -> modifies X m m' -> Forall (buf_ok m) v -> foots v ## X ->
  contents m' <$> v = contents m <$> v /\ Forall (buf_ok m') v.
Proof.
  intros Hm HM Hv HX. split.
  - apply list_fmap_ext. intros i b Hi. apply list_elem_of_lookup_2 in Hi as Hin. rewrite Forall_forall in Hv.
    eapply modifies_contents; [done..|by apply Hv|]. intros a Ha. apply HX, elem_of_foots. eauto.
  - eapply Forall_impl; [done|]. intros b Hb. by eapply modifies_buf_ok.
Qed.

(** Filling the first bytes. *)
Lemma contents_fill p m s :
  buf_ok m p -> (length s <= b_len p)%nat ->
  contents (write p 0 s m) (Buf (b_arr p) (b_off p) (length s) (length s)) = s.
Proof.
  intros [Hl Hc] Hs. set (p1 := Buf (b_arr p) (b_off p) (length s) (length s)).
  assert (buf_ok m p1) as Hp1 by (split; simpl; lia).
  change (write p 0 s m) with (write p1 0 s m). rewrite contents_write by (done || simpl; lia).
  unfold splice. rewrite take_0, drop_ge; [by rewrite app_nil_r|]. by rewrite length_contents.
Qed.

Lemma ReadM_spec p v m :
  mem_ok m -> buf_ok m p -> Forall (buf_ok m) v -> foots v ## foot p ->
  let '(n, w, m') := ReadM p v m in
  let '(src, w') := Read (b_len p) (contents m <$> v) in
  n = length src /\ (n <= b_len p)%nat /\ take n (contents m' p) = src /\ contents m' <$> w = w' /\
  Forall (buf_ok m') w /\ foots w ⊆ foots v /\ within p m m'.
Proof.
  intros Hm. revert p m Hm. induction v as [|b v IH]; intros p m Hm Hp Hv Hsep; cbn [ReadM fmap list_fmap Read].
  { split_and!; try done; [lia|]. split; [by apply modifies_refl|done]. }
  apply Forall_cons in Hv as [Hb Hv]. rewrite foots_cons in Hsep. pose proof (length_contents m b Hb) as Hlb.
  rewrite Hlb. case_bool_decide as Hle.
  - set (q := Buf (b_arr p) (b_off p + b_len b) (b_len p - b_len b) (b_cap p - b_len b)).
    set (m1 := write p 0 (contents m b) m).
    assert (within p m m1) as Hw by (apply write_within; [done..|lia]).
    assert (buf_ok m1 p) as Hp1 by (eapply modifies_buf_ok; [done|apply Hw|done]).
    assert (foot q ⊆ foot p) as Hfq by (apply foot_same_arr; simpl; [done|lia]).
    assert (buf_ok m1 q) as Hq by (destruct Hp1; split; simpl; lia).
    destruct (contents_others _ _ _ v Hm (wi_mod _ _ _ Hw) Hv) as [Hcv Hv1]; [set_solver|].
    specialize (IH q m1 (mo_ok _ _ _ (wi_mod _ _ _ Hw)) Hq Hv1 ltac:(set_solver)).
    rewrite Hcv in IH. destruct (ReadM q v m1) as [[n w] m2]. cbn [b_len q] in IH.
    destruct (Read (b_len p - b_len b) (contents m <$> v)) as [src w'].
    destruct IH as (Hn & Hnle & Htake & Hw' & Hwok & Hwf & Hwq). simpl in Hnle.
    split_and!; try done.
    + rewrite length_app. lia.
    + lia.
    + rewrite (contents_split m2 p (b_len b)) by done.
      rewrite (within_before q m1 m2) by (done || (split; destruct Hp1; simpl; lia) || apply Hw || simpl; lia). rewrite <- Hlb.
      unfold m1. rewrite contents_fill by (done || lia). rewrite Hlb. rewrite take_app_add' by done. by f_equal.
    + rewrite foots_cons. set_solver.
    + eapply within_trans; [done..|simpl; lia| |]; simpl; lia.
  - set (s := take (b_len p) (contents m b)). assert (length s = b_len p) as Hs by (unfold s; rewrite length_take; lia).
    assert (within p m (write p 0 s m)) as Hw by (apply write_within; [done..|lia]).
    set (b' := Buf (b_arr b) (b_off b + b_len p) (b_len b - b_len p) (b_cap b - b_len p)).
    assert (foot b' ⊆ foot b) as Hfb by (apply foot_same_arr; simpl; [done|lia]).
    assert (buf_ok m b') as Hb' by (destruct Hb; split; simpl; lia).
    destruct (contents_others _ _ _ (b' :: v) Hm (wi_mod _ _ _ Hw)) as [Hcv Hv1].
    { by constructor. }
    { rewrite foots_cons. set_solver. }
    split_and!; try done.
    + rewrite contents_write by (done || lia). unfold splice. rewrite take_0, app_nil_l.
      by apply take_app_length'.
    + rewrite Hcv. cbn [fmap list_fmap]. f_equal.
      unfold contents. simpl. by rewrite <- drop_drop, skipn_firstn_comm.
    + rewrite !foots_cons. set_solver.
Qed.

(** ** One turn of the loop *)

Lemma moves_Permutation m m' l l' k k' : l ≡ₚ l' -> k ≡ₚ k' -> moves m l m' k -> moves m l' m' k'.
Proof. intros Hl Hk [O M F]. split; [by rewrite <- Hk|by rewrite <- Hl|]. intros a. rewrite <- Hl, <- Hk. apply F. Qed.

(** The second of a list grows. *)
Lemma moves_grown_second m b u l m' u' :
  mem_ok m -> bufs_ok m (b :: u :: l) -> grown m u m' u' -> moves m (b :: u :: l) m' (b :: u' :: l).
Proof.
  intros Hm Hl Hg. eapply (moves_Permutation _ _ (u :: b :: l) _ (u' :: b :: l)); [apply perm_swap..|].
  apply moves_grown; [done| |done]. by rewrite (perm_swap b u l).
Qed.

Lemma splice_over (b stale s r : bytes) :
  length stale = length s -> splice (length b) s ((b ++ stale) ++ r) = b ++ s ++ r.
Proof.
  intros H. unfold splice. rewrite <- app_assoc. rewrite take_app_length. do 2 f_equal.
  rewrite <- drop_drop, drop_app_length. by apply drop_app_length'.
Qed.

Lemma PutAt_over {E} (b stale s r : bytes) :
  length stale = length s -> @PutAt E ((b ++ stale) ++ r) (len b) s = Ok (b ++ s ++ r).
Proof.
  intros H. unfold PutAt, len. rewrite !bool_decide_eq_true_2; [|rewrite !length_app; lia|lia]. cbn [andb].
  rewrite <- Nat2Z.inj_add, !Nat2Z.id. f_equal. by apply splice_over.
Qed.

Section Turn.
Context {G : Growth} {C : Codec} {B : BufCodec} {HB : BufCodecSpec C B}.

(** A chunk behind what is there: the same bytes as on byte strings, whatever
    the buffers held. *)
Lemma put_chunkM u n b m l src :
  mem_ok m -> bufs_ok m (b :: u :: l) -> (n <= b_len u)%nat -> take n (contents m u) = src ->
  exists b2 m4,
    (let* r := growBufferM b 4 m in
     let* s := buf_to u n in
     let '(b', chunkLen, m') := EncodeTo s (fst r) (snd r) in
     let* m' := put_uint32 b' (b_len b) chunkLen m' in
     @Ok out_of_fuel _ (b', m')) = Ok (b2, m4) /\
    grown m b m4 b2 /\
    contents m4 b2 = contents m b ++ PutUint32 (u32 (len (packed src))) ++ packed src.
Proof.
  intros Hm Hl Hn Hsrc. pose proof Hl as (Hb & Hsep & (Hu & _ & _)%bufs_ok_cons)%bufs_ok_cons.
  rewrite foots_cons in Hsep.
  destruct (@growBufferM_spec _ out_of_fuel b 4 m Hm Hb) as (b1 & m1 & -> & Hg1 & Hl1 & Hc1). cbn [obind fst snd].
  pose proof (mo_ok _ _ _ (gr_mod _ _ _ _ Hg1)) as Hm1.
  destruct (grown_other m b m1 b1 u Hm Hg1 Hu) as (Hcu & Hu1 & Hsep1); [set_solver|].
  destruct (@buf_to_grown out_of_fuel m1 u n Hm1 Hu1) as (s & -> & Hls & _ & Hfs & Hgs & Hcs); [destruct Hu; lia|].
  cbn [obind]. rewrite Nat.min_l, take_ge in Hcs by (done || rewrite length_contents by apply Hgs; lia).
  destruct (EncodeTo_spec s b1 m1) as (b2 & k & m2 & -> & Hg2 & He); [done|apply Hgs|apply Hg1|by rewrite Hfs|].
  rewrite Hcs, Hcu, Hsrc, Encode_packed in He. injection He as He <-.
  pose proof (length_contents m1 b1 (gr_ok _ _ _ _ Hg1)) as Hlen1.
  pose proof (length_contents m2 b2 (gr_ok _ _ _ _ Hg2)) as Hlen2. rewrite <- He, length_app in Hlen2.
  destruct (@put_uint32_Ok out_of_fuel b2 (b_len b) (u32 (len (packed src))) m2) as (m3 & -> & HM3 & Hc3);
    [apply Hg2|apply Hg2|lia|].
  cbn [obind]. eexists _, _. split; [done|]. split.
  - eapply grown_trans; [done|]. eapply grown_trans; [done|]. split; [done|eapply modifies_buf_ok; [apply Hg2|done|apply Hg2]|auto].
  - rewrite Hc3, <- He. rewrite <- (take_drop (b_len b) (contents m1 b1)), Hc1.
    rewrite <- (length_contents m b Hb) at 1. apply splice_over.
    rewrite length_drop. unfold PutUint32. rewrite length_be_encode. lia.
Qed.

Lemma pure_turn fuel sz cbs b src cbs' :
  Read sz cbs = (src, cbs') -> src <> [] ->
  compress_loop (S fuel) sz cbs b =
    let b' := b ++ PutUint32 (u32 (len (packed src))) ++ packed src in
    match cbs' with [] => Ok b' | _ => compress_loop fuel sz cbs' b' end.
Proof.
  intros HR Hs. cbn [compress_loop]. rewrite HR. destruct src as [|x src]; [done|]. rewrite Encode_packed.
  unfold growBuffer. rewrite PutAt_over; [done|]. unfold make_bytes, PutUint32.
  by rewrite length_replicate, length_be_encode.
Qed.

(** What a turn is given: the buffers of the loop, those of others, and the
    cellblocks that are left, which are in no buffer. *)
Lemma compress_turn_spec u cbs b m l :
  mem_ok m -> bufs_ok m (b :: u :: l) -> Forall (buf_ok m) cbs -> foots cbs ## foots (b :: u :: l) ->
  exists last cbs' b' m', compress_turn u cbs b m = Ok (last, cbs', b', m') /\
    moves m (b :: u :: l) m' (b' :: u :: l) /\ modifies (foot b ∪ foot u) m m' /\
    Forall (buf_ok m') cbs' /\ foots cbs' ⊆ foots cbs /\
    (forall fuel, compress_loop (S fuel) (b_len u) (contents m <$> cbs) (contents m b) =
       if last : bool then Ok (contents m' b')
       else compress_loop fuel (b_len u) (contents m' <$> cbs') (contents m' b')) /\
    (last = false -> (length (concat (contents m' <$> cbs')) < length (concat (contents m <$> cbs)))%nat).
Proof.
  intros Hm Hl Hcbs Hsep. unfold compress_turn.
  pose proof Hl as (Hb & Hbu & (Hu & _ & _)%bufs_ok_cons)%bufs_ok_cons. rewrite !foots_cons in Hsep. rewrite foots_cons in Hbu.
  pose proof (ReadM_spec u cbs m Hm Hu Hcbs ltac:(set_solver)) as HR.
  destruct (Read_spec (b_len u) (contents m <$> cbs)) as (_ & Hdrop & _).
  destruct (ReadM u cbs m) as [[n cbs1] m1]. destruct (Read (b_len u) _) as [src w] eqn:Hread.
  destruct HR as (Hn & Hnu & Hsrc & Hw & Hcbs1 & Hf1 & Hwi). cbn [snd] in Hdrop.
  assert (grown m u m1 u) as Hgu by (split; [apply Hwi|eapply modifies_buf_ok; [done|apply Hwi|done]|auto]).
  pose proof (moves_grown_second m b u l m1 u Hm Hl Hgu) as Hmv1.
  pose proof (mo_ok _ _ _ (mv_mod _ _ _ _ Hmv1)) as Hm1.
  assert (contents m1 b = contents m b) as Hcb by (eapply modifies_contents; [done|apply Hwi|done|set_solver]).
  case_bool_decide as Hz.
  { destruct src; [|simpl in *; lia]. eexists true, _, _, _. split; [done|]. split_and!; try done.
    - eapply modifies_weaken; [|apply Hwi]. set_solver.
    - intros fuel. cbn [compress_loop]. by rewrite Hread, Hcb. }
  destruct (put_chunkM u n b m1 l src Hm1 (mv_ok _ _ _ _ Hmv1) Hnu Hsrc) as (b2 & m4 & Heq & Hg & Hc).
  destruct (growBufferM b 4 m1) as [r| |]; [|done..]. cbn [obind] in Heq |- *.
  destruct (buf_to u n) as [s| |]; [|done..]. cbn [obind] in Heq |- *.
  destruct (EncodeTo s (fst r) (snd r)) as [[b' k] m'].
  destruct (put_uint32 b' (b_len b) k m') as [m''| |]; [|done..]. cbn [obind] in Heq |- *. injection Heq as -> ->.
  destruct (contents_others _ _ _ cbs1 Hm1 (gr_mod _ _ _ _ Hg) Hcbs1) as [Hcc Hok4]; [set_solver|].
  eexists _, _, _, _. split; [done|]. split_and!; try done.
  - eapply moves_trans; [done|]. apply moves_grown; [done|apply Hmv1|done].
  - eapply modifies_trans; [|apply Hg|set_solver]. eapply modifies_weaken; [|apply Hwi]. set_solver.
  - intros fuel. rewrite (pure_turn _ _ _ _ src w) by (done || by destruct src). cbn zeta.
    rewrite <- Hcb, <- Hc, Hcc, <- Hw. by destruct cbs1.
  - intros _. rewrite Hcc, Hw, Hdrop, length_drop. pose proof (Read_spec (b_len u) (contents m <$> cbs)) as (H1 & _).
    rewrite Hread in H1. cbn [fst] in H1. apply (f_equal length) in H1. rewrite length_take in H1. lia.
Qed.

(** What is apart from buffers stays apart from what they become. *)
Lemma moves_apart m l m' k v w :
  mem_ok m -> moves m l m' k -> Forall (buf_ok m) v -> foots v ## foots l -> foots w ⊆ foots v -> foots w ## foots k.
Proof.
  intros Hm Hmv Hv Hsep Hw a Ha [Hin|Hge]%(mv_foot _ _ _ _ Hmv); [set_solver|].
  apply Hw, elem_of_foots in Ha as (c & Hc & Ha). rewrite Forall_forall in Hv.
  pose proof (foot_old m c a Hm (Hv c Hc) Ha). lia.
Qed.

(** ** The whole of [compressCellblocks], alone *)

Lemma compress_loopM_spec fuel u cbs b m l :
  mem_ok m -> bufs_ok m (b :: u :: l) -> Forall (buf_ok m) cbs -> foots cbs ## foots (b :: u :: l) ->
  (length (concat (contents m <$> cbs)) < fuel)%nat ->
  exists b' m', compress_loopM fuel u cbs b m = Ok (b', m') /\ moves m (b :: u :: l) m' (b' :: u :: l) /\
    compress_loop fuel (b_len u) (contents m <$> cbs) (contents m b) = Ok (contents m' b').
Proof.
  revert cbs b m. induction fuel as [|fuel IH]; intros cbs b m Hm Hl Hcbs Hsep Hf; [lia|]. cbn [compress_loopM].
  destruct (compress_turn_spec u cbs b m l Hm Hl Hcbs Hsep)
    as (last & cbs1 & b1 & m1 & -> & Hmv & HM & Hok1 & Hf1 & Hpure & Hlt). cbn [obind].
  rewrite Hpure. destruct last; [by eexists _, _|].
  pose proof (moves_apart _ _ _ _ _ _ Hm Hmv Hcbs Hsep Hf1) as Hsep1.
  destruct (IH cbs1 b1 m1 (mo_ok _ _ _ HM) (mv_ok _ _ _ _ Hmv) Hok1 Hsep1) as (b2 & m2 & -> & Hmv2 & ->);
    [specialize (Hlt eq_refl); lia|].
  eexists _, _. split; [done|]. split; [by eapply moves_trans|done].
Qed.

Lemma total_len_contents m cbs :
  Forall (buf_ok m) cbs -> total_len cbs = length (concat (contents m <$> cbs)).
Proof.
  unfold total_len. induction 1 as [|b cbs Hb _ IH]; [done|]. csimpl. by rewrite length_app, length_contents, <- IH.
Qed.

Lemma header_written m m' b z :
  buf_ok m b -> b_len b = 4%nat -> contents m' b = splice 0 (PutUint32 z) (contents m b) -> contents m' b = PutUint32 z.
Proof.
  intros Hb Hl ->. unfold splice. rewrite take_0, drop_ge; [by rewrite app_nil_r|].
  rewrite length_contents by done. unfold PutUint32. rewrite length_be_encode. lia.
Qed.

(** The first buffer, with the length of the cellblocks. *)
Lemma open_stream pick n st :
  mem_ok (st_mem st) -> bufs_ok (st_mem st) (st_pool st) ->
  exists b st' m, @newBuffer _ out_of_fuel pick 4 st = Ok (b, st') /\
    @put_uint32 out_of_fuel b 0 n (st_mem st') = Ok m /\ contents m b = PutUint32 n /\
    moves (st_mem st) (st_pool st) m (b :: st_pool st').
Proof.
  intros Hm Hp.
  destruct (@newBuffer_spec _ out_of_fuel pick 4 st []) as (b & st1 & Hnew & Hlen & Hmv); [done|by rewrite app_nil_r|].
  rewrite !app_nil_r in Hmv. pose proof (mv_ok _ _ _ _ Hmv) as (Hb & _ & _)%bufs_ok_cons.
  pose proof (mo_ok _ _ _ (mv_mod _ _ _ _ Hmv)) as Hm1.
  destruct (@put_uint32_Ok out_of_fuel b 0 n (st_mem st1)) as (m2 & Hput & HM & Hc); [done|done|lia|].
  exists b, st1, m2. split_and!; [done|done|by eapply header_written|].
  eapply moves_trans; [done|]. apply moves_grown; [done|apply Hmv|].
  split; [done|by eapply modifies_buf_ok|auto].
Qed.

(** The second buffer, beside the first. *)
Lemma second_buffer pick size st b :
  mem_ok (st_mem st) -> bufs_ok (st_mem st) (b :: st_pool st) ->
  exists u st', @newBuffer _ out_of_fuel pick size st = Ok (u, st') /\ b_len u = size /\
    modifies (foots (st_pool st)) (st_mem st) (st_mem st') /\ contents (st_mem st') b = contents (st_mem st) b /\
    moves (st_mem st) (b :: st_pool st) (st_mem st') (b :: u :: st_pool st').
Proof.
  intros Hm Hb. assert (bufs_ok (st_mem st) (st_pool st ++ [b])) as Hb' by (by rewrite (Permutation_app_comm _ [b])).
  destruct (@newBuffer_spec _ out_of_fuel pick size st [b] Hm Hb') as (u & st1 & Hnew & Hlen & Hmv).
  pose proof (newBuffer_modifies _ _ _ _ _ _ Hm Hb' Hnew) as HM. apply bufs_ok_cons in Hb as (Hbok & Hbp & _).
  exists u, st1. split_and!; [done|done|done|by eapply modifies_contents|].
  eapply moves_Permutation; [..|exact Hmv].
  - by rewrite (Permutation_app_comm _ [b]).
  - rewrite (Permutation_app_comm _ [b]). apply perm_swap.
Qed.

(** [compressCellblocks] called with nobody else at work: it returns, in a buffer
    that is no longer in the pool, the bytes that it makes of byte strings, and
    writes only to buffers of the pool and to new ones. *)
Theorem compressCellblocksM_refines pick pick' cbs n st :
  mem_ok (st_mem st) -> bufs_ok (st_mem st) (st_pool st) ->
  Forall (buf_ok (st_mem st)) cbs -> foots cbs ## foots (st_pool st) ->
  exists b st', compressCellblocksM pick pick' cbs n st = Ok (b, st') /\
    compressCellblocks (contents (st_mem st) <$> cbs) n = Ok (contents (st_mem st') b) /\
    moves (st_mem st) (st_pool st) (st_mem st') (b :: st_pool st').
Proof.
  intros Hm Hp Hr Ha. unfold compressCellblocksM.
  destruct (open_stream pick n st Hm Hp) as (b & st1 & m2 & -> & Hput & Hhead & Hmv). cbn [obind]. rewrite Hput. cbn [obind].
  destruct (contents_others _ _ _ cbs Hm (mv_mod _ _ _ _ Hmv) Hr Ha) as [Hcc Hr2].
  pose proof (moves_apart _ _ _ _ _ _ Hm Hmv Hr Ha (reflexivity _)) as Ha2.
  pose proof (mo_ok _ _ _ (mv_mod _ _ _ _ Hmv)) as Hm2.
  destruct (second_buffer pick' (Z.to_nat (Z.min n ChunkLen)) (Store m2 (st_pool st1)) b Hm2 (mv_ok _ _ _ _ Hmv))
    as (u & st3 & -> & Hlu & HM3 & Hcb & Hmv3). cbn [obind st_mem st_pool] in *.
  destruct (contents_others _ _ _ cbs Hm2 HM3 Hr2) as [Hcc3 Hr3]; [rewrite foots_cons in Ha2; set_solver|].
  pose proof (moves_apart _ _ _ _ _ _ Hm2 Hmv3 Hr2 Ha2 (reflexivity _)) as Ha3.
  destruct (compress_loopM_spec (S (total_len cbs)) u cbs b (st_mem st3) (st_pool st3))
    as (b' & m4 & -> & Hmv4 & Hpure);
    [apply HM3|apply Hmv3|done|done|rewrite (total_len_contents (st_mem st3)) by done; lia|].
  cbn [obind fst snd]. eapply (moves_Permutation _ _ _ _ _ (u :: st_pool st3 ++ [b'])) in Hmv4;
    [|reflexivity|rewrite (Permutation_app_comm _ [b']); apply perm_swap].
  destruct (@freeBuffer_spec out_of_fuel u (Store m4 (st_pool st3)) [b']) as (st5 & -> & Hsame & Hmv5);
    [apply Hmv4|apply Hmv4|].
  cbn [obind st_mem st_pool] in *. eexists _, _. split; [done|]. split.
  - unfold compressCellblocks. rewrite Hsame, <- Hpure, Hcc3, Hcc, Hlu, Hcb, Hhead.
    by rewrite (total_len_contents (st_mem st)).
  - eapply moves_trans; [exact Hmv|]. eapply moves_trans; [exact Hmv3|]. eapply moves_trans; [exact Hmv4|].
    eapply moves_Permutation; [reflexivity| |exact Hmv5]. by rewrite (Permutation_app_comm _ [b']).
Qed.

Lemma resizeBufferCapM_keeps {E} b capacity m :
  mem_ok m -> buf_ok m b ->
  exists b' m', @resizeBufferCapM _ E b capacity m = Ok (b', m') /\ grown m b m' b' /\
    contents m' b' = contents m b /\ (capacity <= b_cap b')%nat.
Proof.
  intros Hm Hb. unfold resizeBufferCapM. case_bool_decide as Hc.
  { eexists _, _. split; [done|]. split; [by apply grown_refl|done]. }
  pose proof (append_spec b (make_bytes (capacity - b_len b)) m Hm Hb) as Happ.
  destruct (append b _ m) as [b1 m1]. destruct Happ as [Hg Hcont].
  pose proof (length_contents m1 b1 (gr_ok _ _ _ _ Hg)) as Hl1. pose proof (length_contents m b Hb) as Hl.
  rewrite Hcont, length_app, Hl in Hl1. unfold make_bytes in Hl1. rewrite length_replicate in Hl1.
  pose proof (gr_ok _ _ _ _ Hg) as [Hle _]. destruct Hb as [Hbl Hbc].
  destruct (@buf_to_grown E m1 b1 (b_len b)) as (b2 & -> & Hl2 & Hc2 & _ & Hg2 & Htake); [apply Hg|apply Hg|lia|].
  cbn [obind]. eexists _, _. split; [done|]. split; [by eapply grown_trans|]. split; [|lia].
  rewrite Nat.min_l in Htake by lia. rewrite take_ge in Htake by (rewrite length_contents by apply Hg2; lia).
  rewrite Htake, Hcont. by rewrite take_app_length'.
Qed.

End Turn.
