(* ===== verification/BufferPool.v ===== *)
(** * Goroutines that share the pool of buffers

    Every connection compresses its requests with the one [bufferPool] of the
    package.  A goroutine in [send] goes through the phases of
    [compressCellblocks], writes what it got to its connection and gives its
    buffers back when it returns; the goroutines and the rest of the program
    interleave between any two accesses to the pool and any two turns of the loop.
    The theorems say that nothing panics and that each goroutine writes the bytes
    that [Compressor.compressCellblocks] gives for its own cellblocks: no buffer is
    used by two of them, or used after it was given back, and bytes left in a
    buffer by an earlier request never show. *)

From S2P Require Import Prelude Hrpc Compressor Memory Buffers.

(** ** The phases of a goroutine in [send] *)

Inductive phase :=
| Start (cbs : list buf) (uncompressedLen : Z)              (* calls [compressCellblocks] *)
| Opened (b : buf) (cbs : list buf) (uncompressedLen : Z)   (* the length is in [b] *)
| Filling (u b : buf) (cbs : list buf)                      (* in the loop, with [uncompressedBuffer] *)
| Filled (u b : buf)                                        (* returns: the deferred [freeBuffer(u)] *)
| Compressed (b : buf)                                      (* back in [send] *)
| Written (b : buf)                                         (* returns: the deferred [freeBuffer(b)] *)
| Sent.

(** The buffers a goroutine has taken, and those of its request. *)
Definition taken (p : phase) : list buf :=
  match p with
  | Start _ _ | Sent => []
  | Opened b _ _ | Compressed b | Written b => [b]
  | Filling u b _ | Filled u b => [b; u]
  end.

Definition request (p : phase) : list buf :=
  match p with
  | Start cbs _ | Opened _ cbs _ | Filling _ _ cbs => cbs
  | _ => []
  end.

Section Machine.
Context {G : Growth} {C : Codec} {B : BufCodec}.

(** The next action of a goroutine, with what the pool returns if it is asked,
    and what it writes to the connection. *)
Definition act (pick : option nat) (p : phase) (st : store) : outcome out_of_fuel (phase * option bytes * store) :=
  match p with
  | Start cbs n =>
      let* r := newBuffer pick 4 st in
      let '(b, st) := r in
      let* m := put_uint32 b 0 n (st_mem st) in
      Ok (Opened b cbs n, None, Store m (st_pool st))
  | Opened b cbs n =>
      let* r := newBuffer pick (Z.to_nat (Z.min n ChunkLen)) st in
      Ok (Filling (fst r) b cbs, None, snd r)
  | Filling u b cbs =>
      let* r := compress_turn u cbs b (st_mem st) in
      let '(last, cbs, b, m) := r in
      Ok (if last : bool then Filled u b else Filling u b cbs, None, Store m (st_pool st))
  | Filled u b =>
      let* st := freeBuffer u st in
      Ok (Compressed b, None, st)
  | Compressed b => Ok (Written b, Some (contents (st_mem st) b), st)
  | Written b =>
      let* st := freeBuffer b st in
      Ok (Sent, None, st)
  | Sent => Ok (Sent, None, st)
  end.

(** A goroutine with the cellblocks it was given. *)
Record sender := Sender { s_given : list bytes; s_phase : phase }.

Record state := State { store_of : store; senders : gmap nat sender }.

(** The buffers that are not the rest of the program's. *)
Definition guarded (s : state) (b : buf) : Prop :=
  b ∈ st_pool (store_of s) \/ exists g t, senders s !! g = Some t /\ b ∈ taken (s_phase t).

Inductive step : state -> option (nat * bytes) -> state -> Prop :=
(* a goroutine without a request begins to send one, in buffers of the program *)
| step_begin s g cbs :
    match senders s !! g with Some t => s_phase t = Sent | None => True end ->
    Forall (buf_ok (st_mem (store_of s))) cbs ->
    (forall b, guarded s b -> foots cbs ## foot b) ->
    step s None (State (store_of s)
      (<[g := Sender (contents (st_mem (store_of s)) <$> cbs)
                (Start cbs (len (concat (contents (st_mem (store_of s)) <$> cbs))))]> (senders s)))
(* a goroutine takes its next action *)
| step_act s g t pick p out st :
    senders s !! g = Some t ->
    act pick (s_phase t) (store_of s) = Ok (p, out, st) ->
    step s ((fun o => (g, o)) <$> out) (State st (<[g := Sender (s_given t) p]> (senders s)))
(* the rest of the program allocates, and writes what is its own and not being sent *)
| step_other s m X :
    modifies X (st_mem (store_of s)) m ->
    (forall b, guarded s b -> foot b ## X) ->
    (forall g t, senders s !! g = Some t -> foots (request (s_phase t)) ## X) ->
    step s None (State (Store m (st_pool (store_of s))) (senders s))
(* the garbage collector empties the pool *)
| step_collect s i :
    step s None (State (Store (st_mem (store_of s)) (delete i (st_pool (store_of s)))) (senders s)).

Inductive steps : state -> list (nat * bytes) -> state -> Prop :=
| steps_nil s : steps s [] s
| steps_cons s o s' l s'' : step s o s' -> steps s' l s'' -> steps s (option_list o ++ l) s''.

Definition fresh_state (m : mem) : state := State (Store m []) ∅.

(** ** One goroutine *)

Definition compressed_as (given : list bytes) (out : bytes) : Prop :=
  compressCellblocks given (len (concat given)) = Ok out.

Definition phase_ok (m : mem) (given : list bytes) (p : phase) : Prop :=
  match p with
  | Start cbs n => contents m <$> cbs = given /\ n = len (concat given)
  | Opened b cbs n => contents m <$> cbs = given /\ n = len (concat given) /\ contents m b = PutUint32 n
  | Filling u b cbs => exists fuel, (length (concat (contents m <$> cbs)) < fuel)%nat /\
      compress_loop fuel (b_len u) (contents m <$> cbs) (contents m b) = compressCellblocks given (len (concat given))
  | Filled _ b | Compressed b | Written b => compressed_as given (contents m b)
  | Sent => True
  end.

(** A goroutine and the pool. *)
Record sender_ok (st : store) (t : sender) : Prop := {
  so_bufs : bufs_ok (st_mem st) (taken (s_phase t) ++ st_pool st);
  so_request : Forall (buf_ok (st_mem st)) (request (s_phase t));
  so_apart : foots (request (s_phase t)) ## foots (taken (s_phase t) ++ st_pool st);
  so_phase : phase_ok (st_mem st) (s_given t) (s_phase t);
}.

(** How much a goroutine has still to do, at most. *)
Definition work (p : phase) : nat :=
  match p with
  | Start cbs _ => total_len cbs + 6
  | Opened _ cbs _ => total_len cbs + 5
  | Filling _ _ cbs => total_len cbs + 4
  | Filled _ _ => 3
  | Compressed _ => 2
  | Written _ => 1
  | Sent => 0
  end.

(** What an action did for the goroutine that took it. *)
Record acted (st : store) (t : sender) (p : phase) (out : option bytes) (st' : store) : Prop := {
  ac_moves : moves (st_mem st) (taken (s_phase t) ++ st_pool st) (st_mem st') (taken p ++ st_pool st');
  ac_request : Forall (buf_ok (st_mem st')) (request p);
  ac_keeps : foots (request p) ⊆ foots (request (s_phase t));
  ac_phase : phase_ok (st_mem st') (s_given t) p;
  ac_out o : out = Some o -> compressed_as (s_given t) o;
  ac_work : s_phase t = Sent \/ (work p < work (s_phase t))%nat;
}.

Lemma acted_ok st t p out st' :
  mem_ok (st_mem st) -> sender_ok st t -> acted st t p out st' -> sender_ok st' (Sender (s_given t) p).
Proof.
  intros Hm [Hb Hr Ha Hp] [Hmv Hr' Hk Hp' _ _]. split; [apply Hmv|done| |done].
  by eapply moves_apart.
Qed.

Context {HB : BufCodecSpec C B}.

Lemma act_start pick cbs n given st :
  mem_ok (st_mem st) -> sender_ok st (Sender given (Start cbs n)) ->
  exists p out st', act pick (Start cbs n) st = Ok (p, out, st') /\ acted st (Sender given (Start cbs n)) p out st'.
Proof.
  intros Hm [Hb Hr Ha [Hc Hn]]. cbn [s_phase s_given taken request app] in *.
  destruct (open_stream pick n st Hm Hb) as (b & st1 & m2 & Hnew & Hput & Hhead & Hmv).
  cbn [act]. rewrite Hnew. cbn [obind]. rewrite Hput. cbn [obind].
  destruct (contents_others _ _ _ cbs Hm (mv_mod _ _ _ _ Hmv) Hr Ha) as [Hcc Hr3].
  eexists _, _, _. split; [done|]. split; try done.
  - cbn [phase_ok st_mem s_given]. by rewrite Hcc.
  - right. simpl. lia.
Qed.

Lemma act_opened pick b cbs n given st :
  mem_ok (st_mem st) -> sender_ok st (Sender given (Opened b cbs n)) ->
  exists p out st', act pick (Opened b cbs n) st = Ok (p, out, st') /\
    acted st (Sender given (Opened b cbs n)) p out st'.
Proof.
  intros Hm [Hb Hr Ha (Hc & Hn & Hh)]. cbn [s_phase s_given taken request app] in *.
  destruct (second_buffer pick (Z.to_nat (Z.min n ChunkLen)) st b Hm Hb) as (u & st1 & Hnew & Hlen & HM & Hcb & Hmv).
  cbn [act]. rewrite Hnew. cbn [obind fst snd]. rewrite foots_cons in Ha.
  destruct (contents_others _ _ _ cbs Hm HM Hr) as [Hcc Hr3]; [set_solver|].
  eexists _, _, _. split; [done|]. split; try done.
  - cbn [phase_ok st_mem s_given]. exists (S (length (concat given))). rewrite Hcc, Hc. split; [lia|].
    by rewrite Hcb, Hh, Hlen, Hn.
  - right. simpl. lia.
Qed.

Lemma act_filling pick u b cbs given st :
  mem_ok (st_mem st) -> sender_ok st (Sender given (Filling u b cbs)) ->
  exists p out st', act pick (Filling u b cbs) st = Ok (p, out, st') /\
    acted st (Sender given (Filling u b cbs)) p out st'.
Proof.
  intros Hm [Hb Hr Ha (fuel & Hf & Hp)]. cbn [s_phase s_given taken request app] in *.
  destruct (compress_turn_spec u cbs b (st_mem st) (st_pool st) Hm Hb Hr Ha)
    as (last & cbs' & b' & m' & Hturn & Hmv & _ & Hr' & Hk & Hpure & Hlt).
  cbn [act]. rewrite Hturn. cbn [obind]. destruct fuel as [|fuel]; [lia|]. rewrite Hpure in Hp.
  eexists _, _, _. split; [done|]. destruct last; split; try done.
  - right. simpl. lia.
  - cbn [phase_ok st_mem s_given]. exists fuel. split; [specialize (Hlt eq_refl); lia|done].
  - right. cbn [work s_phase]. rewrite (total_len_contents m'), (total_len_contents (st_mem st)) by done.
    specialize (Hlt eq_refl). lia.
Qed.

Lemma act_free pick p b k p' given st :
  mem_ok (st_mem st) -> sender_ok st (Sender given p) ->
  (p = Filled b k /\ p' = Compressed k) \/ (p = Written b /\ p' = Sent) ->
  exists st', act pick p st = Ok (p', None, st') /\ acted st (Sender given p) p' None st'.
Proof.
  intros Hm [Hb Hr Ha Hp] Hcase. cbn [s_phase s_given] in *.
  destruct (@freeBuffer_spec out_of_fuel b st (taken p')) as (st1 & Hfree & Hsame & Hmv); [done| |].
  { destruct Hcase as [[-> ->]|[-> ->]]; cbn [taken app] in *; [|by rewrite app_nil_r].
    rewrite (Permutation_app_comm _ [k]). cbn [app]. by rewrite (perm_swap k b). }
  exists st1. split; [destruct Hcase as [[-> ->]|[-> ->]]; cbn [act]; by rewrite Hfree|]. split; try done.
  - eapply moves_Permutation; [..|exact Hmv]; [|apply Permutation_app_comm].
    destruct Hcase as [[-> ->]|[-> ->]]; cbn [taken app s_phase]; [|by rewrite app_nil_r].
    rewrite (Permutation_app_comm _ [k]). apply perm_swap.
  - destruct Hcase as [[_ ->]|[_ ->]]; constructor.
  - destruct Hcase as [[_ ->]|[_ ->]]; done.
  - rewrite Hsame. destruct Hcase as [[-> ->]|[-> ->]]; done.
  - right. destruct Hcase as [[-> ->]|[-> ->]]; simpl; lia.
Qed.

(** No action panics, and each keeps its goroutine in order. *)
Lemma act_ok pick t st :
  mem_ok (st_mem st) -> sender_ok st t ->
  exists p out st', act pick (s_phase t) st = Ok (p, out, st') /\ acted st t p out st'.
Proof.
  destruct t as [given p]. intros Hm Ht. cbn [s_phase]. destruct p as [cbs n|b cbs n|u b cbs|u b|b|b|].
  - by apply act_start.
  - by apply act_opened.
  - by apply act_filling.
  - edestruct (act_free pick (Filled u b) u b) as (st' & H1 & H2); [done..|by left|]. eauto.
  - eexists _, _, _. split; [done|]. destruct Ht as [Hb Hr Ha Hp]. split; [|done|done|done|..].
    + by apply moves_refl.
    + intros o [= <-]. done.
    + right. simpl. lia.
  - edestruct (act_free pick (Written b) b b) as (st' & H1 & H2); [done..|by right|]. eauto.
  - eexists _, _, _. split; [done|]. destruct Ht as [Hb Hr Ha Hp]. split; try done; [by apply moves_refl|by left].
Qed.

(** ** All goroutines *)

(** Nothing of a goroutine changes when others write elsewhere. *)
Lemma phase_ok_other X m m' given p :
  mem_ok m -> modifies X m m' -> Forall (buf_ok m) (taken p) -> Forall (buf_ok m) (request p) ->
  foots (taken p ++ request p) ## X -> phase_ok m given p -> phase_ok m' given p.
Proof.
  intros Hm HM Ht Hr HX. rewrite foots_app in HX.
  destruct (contents_others X m m' (taken p) Hm HM Ht) as [Hct _]; [set_solver|].
  destruct (contents_others X m m' (request p) Hm HM Hr) as [Hcr _]; [set_solver|].
  destruct p; cbn [taken request phase_ok] in *; csimpl in Hct;
    try injection Hct as Hct; try done; intros Hph;
    repeat match goal with E : _ = contents m _ |- _ => rewrite E end; by rewrite ?Hcr.
Qed.

Lemma sender_ok_other X m m' pool pool' t :
  mem_ok m -> modifies X m m' -> foots (taken (s_phase t) ++ request (s_phase t)) ## X ->
  bufs_ok m' pool' -> foots pool' ## foots (taken (s_phase t) ++ request (s_phase t)) ->
  sender_ok (Store m pool) t -> sender_ok (Store m' pool') t.
Proof.
  intros Hm HM HX Hpool Hd [Hb Hr Ha Hp]. cbn [st_mem st_pool] in *. rewrite foots_app in Hd.
  apply bufs_ok_app in Hb as (Ht & _ & _). rewrite foots_app in Ha.
  assert (bufs_ok m' (taken (s_phase t))) as Ht'.
  { destruct Ht as [Hf Hs]. split; [|done]. eapply Forall_impl; [done|]. intros b. by eapply modifies_buf_ok. }
  split; cbn [st_mem st_pool].
  - apply bufs_ok_app. split_and!; [done..|set_solver].
  - eapply Forall_impl; [done|]. intros b. by eapply modifies_buf_ok.
  - rewrite foots_app. set_solver.
  - eapply phase_ok_other; [done..|apply Ht|done|done|done].
Qed.

Record state_ok (s : state) : Prop := {
  sk_mem : mem_ok (st_mem (store_of s));
  sk_pool : bufs_ok (st_mem (store_of s)) (st_pool (store_of s));
  sk_sender g t : senders s !! g = Some t -> sender_ok (store_of s) t;
  sk_apart g g' t t' : g <> g' -> senders s !! g = Some t -> senders s !! g' = Some t' ->
    foots (taken (s_phase t) ++ request (s_phase t)) ## foots (taken (s_phase t'));
}.

Lemma fresh_state_ok m : mem_ok m -> state_ok (fresh_state m).
Proof. intros Hm. split; simpl; [done|by split| |]; intros *; by rewrite ?lookup_empty. Qed.

Lemma guarded_foots s l X :
  (forall b, guarded s b -> foot b ## X) -> (forall b, b ∈ l -> guarded s b) -> foots l ## X.
Proof. intros H Hl a (b & Hb & Ha)%elem_of_foots. by apply (H b (Hl b Hb)). Qed.

Lemma sender_in_pool st t : sender_ok st t -> foots (st_pool st) ## foots (taken (s_phase t) ++ request (s_phase t)).
Proof.
  intros [Hb _ Ha _]. apply bufs_ok_app in Hb as (_ & _ & Hd). rewrite foots_app in *. set_solver.
Qed.

Lemma step_other_ok s m X :
  state_ok s -> modifies X (st_mem (store_of s)) m -> (forall b, guarded s b -> foot b ## X) ->
  (forall g t, senders s !! g = Some t -> foots (request (s_phase t)) ## X) ->
  state_ok (State (Store m (st_pool (store_of s))) (senders s)).
Proof.
  intros [Hm Hpool Hs Hd] HM HX Hr. destruct s as [[m0 pool] ss]. cbn [store_of senders st_mem st_pool] in *.
  assert (bufs_ok m pool) as Hpool'.
  { destruct Hpool as [Hf Hsep]. split; [|done]. eapply Forall_impl; [done|]. intros b. by eapply modifies_buf_ok. }
  split; cbn [store_of senders st_mem st_pool]; [apply HM|done| |done].
  intros g t Hg. eapply sender_ok_other; [exact Hm|exact HM| |done|by apply (sender_in_pool (Store m0 pool)), (Hs g)|by apply (Hs g)].
  rewrite foots_app. pose proof (Hr g t Hg).
  assert (foots (taken (s_phase t)) ## X); [|set_solver].
  eapply guarded_foots; [exact HX|]. intros b Hb. right. eauto.
Qed.

Lemma step_act_ok s g t pick p out st :
  state_ok s -> senders s !! g = Some t -> act pick (s_phase t) (store_of s) = Ok (p, out, st) ->
  state_ok (State st (<[g := Sender (s_given t) p]> (senders s))) /\ forall o, out = Some o -> compressed_as (s_given t) o.
Proof.
  intros [Hm Hpool Hs Hd] Hg Hact.
  destruct (act_ok pick t (store_of s) Hm (Hs g t Hg)) as (p' & out' & st' & Hact' & Hac).
  rewrite Hact in Hact'. injection Hact' as <- <- <-. split; [|apply Hac].
  pose proof (acted_ok _ _ _ _ _ Hm (Hs g t Hg) Hac) as Hok. destruct Hac as [Hmv Hr Hk _ _ _].
  pose proof (mv_ok _ _ _ _ Hmv) as (_ & Hpool' & _)%bufs_ok_app.
  assert (forall g' t', g <> g' -> senders s !! g' = Some t' ->
    foots (taken (s_phase t') ++ request (s_phase t')) ## foots (taken (s_phase t) ++ st_pool (store_of s))) as Hfar.
  { intros g' t' Hne Hg'. rewrite (foots_app _ (st_pool _)). pose proof (sender_in_pool _ _ (Hs g' t' Hg')).
    pose proof (Hd g' g t' t (not_eq_sym Hne) Hg' Hg). set_solver. }
  assert (forall g' t', g <> g' -> senders s !! g' = Some t' ->
    foots (taken (s_phase t') ++ request (s_phase t')) ## foots (taken p ++ st_pool st)) as Hfar'.
  { intros g' t' Hne Hg'. destruct (Hs g' t' Hg') as [Hb' Hr' _ _].
    apply bufs_ok_app in Hb' as ([Ht' _] & _ & _). eapply moves_apart; [exact Hm|exact Hmv| |by eapply Hfar|done].
    by apply Forall_app. }
  split; cbn [store_of senders]; [apply Hmv|done|..].
  - intros g' t'. destruct (decide (g = g')) as [<-|Hne]; [rewrite lookup_insert_eq; by intros [= <-]|].
    rewrite lookup_insert_ne by done. intros Hg'. destruct (store_of s) as [m0 pool0] eqn:Est. destruct st as [m1 pool1].
    eapply (sender_ok_other _ m0 m1 pool0); [exact Hm|apply Hmv| |done| |by apply (Hs g')].
    + by eapply Hfar.
    + pose proof (Hfar' g' t' Hne Hg') as Hf. rewrite (foots_app (taken p)) in Hf. cbn [st_pool] in *. set_solver.
  - intros g1 g2 t1 t2 Hne. destruct (decide (g = g1)) as [<-|H1], (decide (g = g2)) as [<-|H2]; try done.
    + rewrite lookup_insert_eq, lookup_insert_ne by done. intros [= <-] Hg2. cbn [s_phase].
      pose proof (Hfar' g2 t2 H2 Hg2) as Hf. pose proof (Hd g g2 t t2 Hne Hg Hg2) as Hf2.
      rewrite !foots_app in *. set_solver.
    + rewrite lookup_insert_ne, lookup_insert_eq by done. intros Hg1 [= <-]. cbn [s_phase].
      pose proof (Hfar' g1 t1 H1 Hg1) as Hf. rewrite !foots_app in *. set_solver.
    + rewrite !lookup_insert_ne by done. by apply Hd.
Qed.

Lemma step_begin_ok s g cbs :
  state_ok s -> match senders s !! g with Some t => s_phase t = Sent | None => True end ->
  Forall (buf_ok (st_mem (store_of s))) cbs -> (forall b, guarded s b -> foots cbs ## foot b) ->
  state_ok (State (store_of s)
    (<[g := Sender (contents (st_mem (store_of s)) <$> cbs)
              (Start cbs (len (concat (contents (st_mem (store_of s)) <$> cbs))))]> (senders s))).
Proof.
  intros [Hm Hpool Hs Hd] Hg Hr Ha.
  assert (forall l, (forall b, b ∈ l -> guarded s b) -> foots cbs ## foots l) as Hfar.
  { intros l Hl. symmetry. eapply guarded_foots; [|exact Hl]. intros b Hb. symmetry. by apply Ha. }
  assert (foots cbs ## foots (st_pool (store_of s))) as Hap by (apply Hfar; intros b Hb; by left).
  split; cbn [store_of senders]; [done|done|..].
  - intros g' t'. destruct (decide (g = g')) as [<-|Hne]; [rewrite lookup_insert_eq; intros [= <-]; by split|].
    rewrite lookup_insert_ne by done. apply Hs.
  - intros g1 g2 t1 t2 Hne. destruct (decide (g = g1)) as [<-|H1], (decide (g = g2)) as [<-|H2]; try done.
    + rewrite lookup_insert_eq, lookup_insert_ne by done. intros [= <-] Hg2. cbn [s_phase taken request app].
      apply Hfar. intros b Hb. right. eauto.
    + rewrite lookup_insert_ne, lookup_insert_eq by done. intros Hg1 [= <-]. cbn [s_phase taken].
      change (foots []) with (∅ : gset nat). set_solver.
    + rewrite !lookup_insert_ne by done. by apply Hd.
Qed.

Lemma step_collect_ok s i :
  state_ok s -> state_ok (State (Store (st_mem (store_of s)) (delete i (st_pool (store_of s)))) (senders s)).
Proof.
  intros [Hm Hpool Hs Hd]. destruct s as [[m pool] ss]. cbn [store_of senders st_mem st_pool] in *.
  destruct (pool !! i) as [b|] eqn:Hi.
  2: { replace (delete i pool) with pool; [done|]. clear - Hi. revert i Hi.
       induction pool as [|b pool IH]; intros [|i]; simpl; [done..|]. intros H. change (b :: pool = b :: delete i pool).
       by rewrite <- IH. }
  pose proof (delete_Permutation pool i b Hi) as Hperm.
  assert (bufs_ok m (delete i pool)) as Hpool' by (rewrite Hperm in Hpool; by apply bufs_ok_cons in Hpool as (_ & _ & ?)).
  split; cbn [store_of senders st_mem st_pool]; [done|done| |done].
  intros g t Hg. eapply (sender_ok_other ∅ m m pool); [done|by apply modifies_refl|set_solver|done| |by apply (Hs g)].
  pose proof (sender_in_pool _ _ (Hs g t Hg)) as Hin. cbn [st_pool] in Hin. rewrite Hperm, foots_cons in Hin. set_solver.
Qed.

Lemma step_keeps_ok s o s' :
  state_ok s -> step s o s' ->
  state_ok s' /\ forall g out, o = Some (g, out) ->
    exists t, senders s !! g = Some t /\ compressed_as (s_given t) out.
Proof.
  intros Hok Hstep. destruct Hstep as [s g cbs Hg Hr Ha|s g t pick p out st Hg Hact|s m X HM HX Hr|s i].
  - split; [by apply step_begin_ok|done].
  - destruct (step_act_ok s g t pick p out st Hok Hg Hact) as [Hok' Hout]. split; [done|].
    intros g' o Ho. destruct out as [o'|]; [|done]. injection Ho as <- <-. exists t. split; [done|by apply Hout].
  - split; [by eapply step_other_ok|done].
  - split; [by apply step_collect_ok|done].
Qed.

Lemma steps_ok s l s' : state_ok s -> steps s l s' -> state_ok s'.
Proof. intros Hok Hs. induction Hs as [|s o s' l s'' H _ IH]; [done|]. apply IH. by eapply step_keeps_ok. Qed.

(** C33. Whatever the goroutines of all connections, the rest of the program and the
    garbage collector do, in any interleaving, and whatever the pool returns: the
    next action of a goroutine that compresses and sends a request does not panic,
    what it writes to its connection is exactly what [compressCellblocks] makes of
    the cellblocks it was given, computed on bytes that nobody shares, and each of
    its actions brings it nearer to the end of [send]. *)
Theorem senders_do_not_interfere m l s g t pick :
  mem_ok m -> steps (fresh_state m) l s -> senders s !! g = Some t ->
  exists p out st, act pick (s_phase t) (store_of s) = Ok (p, out, st) /\
    (forall o, out = Some o -> compressCellblocks (s_given t) (len (concat (s_given t))) = Ok o) /\
    (s_phase t = Sent \/ (work p < work (s_phase t))%nat).
Proof.
  intros Hm Hs Hg. destruct (steps_ok _ _ _ (fresh_state_ok m Hm) Hs) as [Hm' _ Hsend _].
  destruct (act_ok pick t (store_of s) Hm' (Hsend g t Hg)) as (p & out & st & Hact & Hac).
  exists p, out, st. split; [done|]. split; [apply Hac|apply Hac].
Qed.

(** Actions in the order of a list of goroutines, with what the pool returns. *)
Fixpoint play (l : list (nat * option nat)) (s : state) : option (list (nat * bytes) * state) :=
  match l with
  | [] => Some ([], s)
  | (g, pick) :: l =>
      t ← senders s !! g;
      match act pick (s_phase t) (store_of s) with
      | Ok (p, out, st) =>
          r ← play l (State st (<[g := Sender (s_given t) p]> (senders s)));
          Some (option_list ((fun o => (g, o)) <$> out) ++ fst r, snd r)
      | _ => None
      end
  end.

Lemma play_steps l s r : play l s = Some r -> steps s (fst r) (snd r).
Proof.
  revert s r. induction l as [|[g pick] l IH]; intros s r; simpl; [intros [= <-]; constructor|].
  destruct (senders s !! g) as [t|] eqn:Hg; simpl; [|done].
  destruct (act pick (s_phase t) (store_of s)) as [[[p out] st]| |] eqn:Ha; [|done..].
  destruct (play l _) as [r'|] eqn:Hp; simpl; [|done]. intros [= <-]. simpl.
  eapply steps_cons; [by eapply step_act|by apply IH].
Qed.

End Machine.

(** ** Two goroutines *)

(** Compression that stores, in place when there is room. *)
Definition storing : Snappy := {|
  snappyEncode dst src m :=
    let c := contents m src in
    if bool_decide (length c <= b_len dst)%nat
    then (Buf (b_arr dst) (b_off dst) (length c) (length c), write dst 0 c m)
    else alloc c m
|}.

Lemma storing_doc : SnappyDoc storing (fun src => src).
Proof.
  intros dst src m Hm Hdst Hsrc _. simpl. case_bool_decide as Hle; eexists _, _; (split; [done|]).
  - split; [by apply write_within|]. by apply contents_fill.
  - pose proof (alloc_spec (contents m src) m Hm) as Ha. destruct (alloc (contents m src) m) as [b m'] eqn:E.
    injection E as <- <-. destruct Ha as (HM & _ & _ & _ & _ & Harr). split.
    + split; [eapply modifies_weaken; [|done]; set_solver|]. intros j Hlt _. unfold array. simpl.
      rewrite lookup_insert_ne; [done|lia].
    + unfold contents at 1. simpl. cbn [b_arr] in Harr. rewrite Harr. by rewrite take_ge.
Qed.

Definition doubling : Growth := {| more_cap _ n := n |}.

Definition storingCodec : BufCodec := @snappyBufCodec doubling storing.

Lemma storingCodec_spec : BufCodecSpec stored storingCodec.
Proof. apply (@snappyBufCodec_spec doubling storing (fun src => src) (fun src => Ok src)), storing_doc. Qed.

(** The cellblocks of two requests. *)
Definition requests_mem : mem := Mem {[0%nat := bs "cells"; 1%nat := bs "row"]} 2.

Definition two_requests : state :=
  State (Store requests_mem []) {[
    1%nat := Sender [bs "cells"] (Start [Buf 0 0 5 5] 5);
    2%nat := Sender [bs "ro"; bs "w"] (Start [Buf 1 0 2 2; Buf 1 2 1 1] 3) ]}.

(** The first has sent its request when the second takes its buffers, full of old bytes. *)
Definition reused : option (list (nat * bytes) * state) :=
  @play doubling stored storingCodec
    ([(1, None); (1, None); (1, None); (1, None); (1, None); (1, None);
      (2, Some 1); (2, Some 0); (2, None); (2, None)])%nat two_requests.

Lemma requests_mem_ok : mem_ok requests_mem.
Proof.
  intros a [l Ha]. unfold requests_mem in *. simpl in *.
  apply lookup_insert_Some in Ha as [[<- _]|[_ [<- _]%lookup_singleton_Some]]; lia.
Qed.

Lemma two_requests_reached :
  @steps doubling stored storingCodec (fresh_state requests_mem) [] two_requests.
Proof.
  eapply (steps_cons _ None _ []).
  { apply (step_begin _ 2 [Buf 1 0 2 2; Buf 1 2 1 1]); [done| |].
    - repeat constructor; simpl; lia.
    - intros b [Hb|(g & t & Hg & _)]; [by apply elem_of_nil in Hb|done]. }
  eapply (steps_cons _ None _ []).
  { apply (step_begin _ 1 [Buf 0 0 5 5]); [done| |].
    - repeat constructor; simpl; lia.
    - intros b [Hb|(g & t & Hg & Hb)]; [by apply elem_of_nil in Hb|].
      simpl in Hg. apply lookup_singleton_Some in Hg as [_ <-]. by apply elem_of_nil in Hb. }
  apply steps_nil.
Qed.

Lemma steps_app `{G : Growth} `{C : Codec} `{B : BufCodec} s l s' l' s'' :
  @steps G C B s l s' -> @steps G C B s' l' s'' -> @steps G C B s (l ++ l') s''.
Proof. intros H. induction H as [|s o s' l s1 Hs _ IH]; intros H2; [done|]. rewrite <- app_assoc. eapply steps_cons; eauto. Qed.

Lemma senders_do_not_interfere_witness :
  exists l s t, reused = Some (l, s) /\ senders s !! 2%nat = Some t /\
    exists p out st, @act doubling stored storingCodec None (s_phase t) (store_of s) = Ok (p, out, st) /\
      (forall o, out = Some o -> @compressCellblocks stored (s_given t) (len (concat (s_given t))) = Ok o) /\
      (s_phase t = Sent \/ (work p < work (s_phase t))%nat).
Proof.
  destruct reused as [[l s]|] eqn:E; [|exfalso; revert E; vm_compute; discriminate].
  destruct (senders s !! 2%nat) as [t|] eqn:Ht.
  - exists l, s, t. split; [done|]. split; [done|].
    refine (@senders_do_not_interfere doubling stored storingCodec storingCodec_spec requests_mem ([] ++ l) s 2 t None
      requests_mem_ok (steps_app _ _ _ _ _ two_requests_reached (play_steps _ _ _ E)) Ht).
  - exfalso. vm_compute in E. injection E as <- <-. vm_compute in Ht. discriminate.
Defined.
