(* ===== verification/RpcError.v ===== *)
(** * Errors of the region client: region/client.go [exceptionToError]

    The type of an error tells the caller what to do: retry on the same region
    server, look the region up again, or give the connection up.  Other errors
    go to the user.  The text of an error is kept as a string. *)

From S2P Require Import Prelude Pb Hrpc.

Inductive rpc_error :=
| RetryableError (e : error)
| NotServingRegionError (e : error)
| ServerError (e : error)
| PlainError (e : error).

#[global] Instance rpc_error_eq_dec : EqDecision rpc_error.
Proof. solve_decision. Defined.

Definition ErrMissingCallID : rpc_error := ServerError "got a response with a nonsensical call ID".
Definition ErrClientClosed : rpc_error := ServerError "client is closed".

(** The tables: a class of exception and what its stack trace has to contain. *)
Definition javaRegionExceptions : list (string * string) :=
  [("org.apache.hadoop.hbase.NotServingRegionException"%string, ""%string);
   ("org.apache.hadoop.hbase.exceptions.RegionMovedException"%string, ""%string);
   ("java.io.IOException"%string, "Cannot append; log is closed"%string)].

Definition javaRetryableExceptions : list (string * string) :=
  [("org.apache.hadoop.hbase.CallQueueTooBigException"%string, ""%string);
   ("org.apache.hadoop.hbase.exceptions.RegionOpeningException"%string, ""%string);
   ("org.apache.hadoop.hbase.ipc.ServerNotRunningYetException"%string, ""%string);
   ("org.apache.hadoop.hbase.quotas.RpcThrottlingException"%string, ""%string);
   ("org.apache.hadoop.hbase.RetryImmediatelyException"%string, ""%string);
   ("org.apache.hadoop.hbase.RegionTooBusyException"%string, ""%string)].

Definition javaServerExceptions : list (string * string) :=
  [("org.apache.hadoop.hbase.regionserver.RegionServerAbortedException"%string, ""%string);
   ("org.apache.hadoop.hbase.regionserver.RegionServerStoppedException"%string, ""%string)].

(** [strings.Contains] *)
Fixpoint Contains (s sub : string) : bool :=
  String.prefix sub s ||
  match s with
  | EmptyString => false
  | String _ s' => Contains s' sub
  end.

(** [if s, ok := table[class]; ok && strings.Contains(stack, s)] *)
Definition listed (table : list (string * string)) (class stack : string) : bool :=
  existsb (fun e => bool_decide (e.1 = class) && Contains stack e.2) table.

Definition exceptionToError (class stack : string) : rpc_error :=
  let err := ("HBase Java exception " ++ class ++ ":
" ++ stack)%string in
  if listed javaRetryableExceptions class stack then RetryableError err
  else if listed javaRegionExceptions class stack then NotServingRegionError err
  else if listed javaServerExceptions class stack then ServerError err
  else PlainError err.

(** A protobuf string or bytes field as a string. *)
Definition string_of (b : bytes) : string := String.string_of_list_byte b.

(** The exception a response carries for a region or an action. *)
Definition exception_error (e : NameBytesPair) : rpc_error :=
  exceptionToError (string_of (NBP_Name e)) (string_of (NBP_Value e)).
