(* ===== verification/Multi.v ===== *)
(** * Batches: region/multi.go

    A batch groups the calls for one region server by region.  [toProto] gives
    every call that is still wanted the index of its position, plus one;
    [returnResults] hands each result to the call at its index, or the
    exception of a region to all of that region's calls.  A send on a call's
    result channel is an entry of the log [deliveries], under the position of
    the call in the batch. *)

From S2P Require Import Prelude Pb RegionInfo CellBlocks Hrpc Mutate RpcError.

(** ** Messages and results *)

Inductive Message :=
| MGet (r : GetResponse)
| MMutate (r : MutateResponse)
| MScan (r : ScanResponse)
| MMulti (r : MultiResponse)
| MAdmin (r : AdminResponse)
| MOther (name : string).

Record RPCResult := mkRPCResult { Res_Msg : option Message; Res_Error : option rpc_error }.

Definition okResult (m : Message) : RPCResult := mkRPCResult (Some m) None.
Definition errResult (e : rpc_error) : RPCResult := mkRPCResult None (Some e).

Abbreviation deliveries := (list (nat * RPCResult)).

(** ** The batch *)

(** A call whose context expired is a nil entry. *)
Record multi := mkMulti {
  mu_size : Z;
  mu_calls : list (option call);
  mu_regions : list ptr;
}.

Definition newMulti (queueSize : Z) : multi := mkMulti queueSize [] [].

Definition freeMulti (m : multi) : multi := mkMulti 0 [] [].

Definition add (calls : list call) (m : multi) : bool * multi :=
  let cs := mu_calls m ++ (Some <$> calls) in
  (bool_decide (len cs >= mu_size m), mkMulti (mu_size m) cs (mu_regions m)).

Definition mlen (m : multi) : Z := len (mu_calls m).

(** An out-of-range index panics; a nil entry is returned as such. *)
Definition mget {E} (i : Z) (m : multi) : outcome E (option call) :=
  if bool_decide (i = 0) then Panic else index (mu_calls m) (u32 (i - 1)).

Record actions := mkActions { as_pbs : list Action; as_cellblocks : list bytes }.

Section ToProto.
Context {HO : RangeOrder}.
(** [ctxErr ctx]: the context has expired. *)
Variable ctxErr : nat -> bool.

(** The action of a call, with the cellblocks of its region so far. *)
Definition callAction {E : Type} (site : list nat) (isCellblocks : bool) (c : call) (cbs : list bytes)
    (idx : Z) (h : heap) : outcome E (Action * list bytes * Z) :=
  match c with
  | CallGet g =>
      let* r := Get_ToProto site g h in
      Ok (mkAction (Some idx) None (Some (GetRequest_Get r)), cbs, 0)
  | CallMutate m =>
      if isCellblocks && CellBlocksEnabled c then
        let* r := Mutate_SerializeCellBlocks site m cbs h in
        let '(req, cbs, sz) := r in
        Ok (mkAction (Some idx) (Some (MutateRequest_Mutation req)) None, cbs, sz)
      else
        let* req := Mutate_ToProto site m h in
        Ok (mkAction (Some idx) (Some (MutateRequest_Mutation req)) None, cbs, 0)
  | CallCheckAndPut cp =>
      let* req := CheckAndPut_ToProto site cp h in
      Ok (mkAction (Some idx) (Some (MutateRequest_Mutation req)) None, cbs, 0)
  | _ => Panic
  end.

(** The loop that aggregates the calls per region; [i] is the position of the
    first of [calls]. *)
Fixpoint aggregate {E : Type} (site : list nat) (isCellblocks : bool) (i : nat) (calls : list (option call))
    (perReg : gmap ptr actions) (size : Z) (h : heap)
    : outcome E (list (option call) * gmap ptr actions * Z) :=
  match calls with
  | [] => Ok ([], perReg, size)
  | None :: _ => Panic
  | Some c :: cs =>
      if ctxErr (b_ctx (call_base c)) then
        let* r := aggregate site isCellblocks (S i) cs perReg size h in
        let '(cs, perReg, size) := r in
        Ok (None :: cs, perReg, size)
      else
        match b_region (call_base c) with
        | None => Panic
        | Some reg =>
            let as_ := default (mkActions [] []) (perReg !! reg) in
            let* r := callAction (i :: site) isCellblocks c (as_cellblocks as_) (u32 (Z.of_nat i + 1)) h in
            let '(a, cbs, sz) := r in
            let perReg := <[reg := mkActions (as_pbs as_ ++ [a]) cbs]> perReg in
            let* r := aggregate site isCellblocks (S i) cs perReg (u32 (size + sz)) h in
            let '(cs, perReg, size) := r in
            Ok (Some c :: cs, perReg, size)
        end
  end.

(** One RegionAction per region, in the order of the map. *)
Fixpoint region_actions {E : Type} (l : list (ptr * actions)) (h : heap)
    : outcome E (list RegionAction * list bytes) :=
  match l with
  | [] => Ok ([], [])
  | (r, as_) :: l =>
      let* i := deref r h in
      let* rest := region_actions l h in
      Ok (mkRegionAction (mkRegionSpecifier REGION_NAME (r_name i)) (as_pbs as_) :: fst rest,
          as_cellblocks as_ ++ snd rest)
  end.

Definition toProto {E : Type} (site : list nat) (isCellblocks : bool) (cbs : list bytes) (m : multi) (h : heap)
    : outcome E (MultiRequest * list bytes * Z * multi) :=
  let* r := aggregate site isCellblocks 0 (mu_calls m) ∅ 0 h in
  let '(calls, perReg, size) := r in
  let l := range site perReg in
  let* ra := region_actions l h in
  Ok (mkMultiRequest (fst ra), cbs ++ snd ra, size, mkMulti (mu_size m) calls (fst <$> l)).

Definition multi_SerializeCellBlocks {E : Type} (site : list nat) (cbs : list bytes) (m : multi) (h : heap)
    : outcome E (MultiRequest * list bytes * Z * multi) := toProto site true cbs m h.

End ToProto.

(** ** Cellblocks of the response *)

(** [c.NewResponse()] with its result set. *)
Definition newResponse {E : Type} (c : call) (r : option Result) : outcome E Message :=
  match c with
  | CallGet _ => Ok (MGet (mkGetResponse r))
  | CallMutate _ | CallCheckAndPut _ => Ok (MMutate (mkMutateResponse r None))
  | _ => Panic
  end.

Inductive multi_error :=
| MultiError (msg : error)
| MultiCellError (e : cell_error).

(** Set the cells of one result; the message built for the call shares it. *)
Definition deserialize_result (c : option call) (r : Result) (b : bytes)
    : outcome multi_error (Result * Z) :=
  match c with
  | None => Panic
  | Some c =>
      let* _ := newResponse c (Some r) in
      let* x := map_err MultiCellError (Result_DeserializeCellBlocks (Some r) b) in
      match x with
      | (Some r, n) => Ok (r, n)
      | (None, n) => Panic
      end
  end.

Fixpoint deserialize_roes (m : multi) (roes : list ResultOrException) (b : bytes) (nread : Z)
    : outcome multi_error (list ResultOrException * Z) :=
  match roes with
  | [] => Ok ([], nread)
  | roe :: roes =>
      let i := ROE_GetIndex roe in
      if bool_decide (i = 0) then Err (MultiError "no index for result in multi response")
      else
        match ROE_Result roe, ROE_Exception roe with
        | None, None => Err (MultiError "no result or exception for action in multi response")
        | Some _, Some _ => Err (MultiError "got result and exception for action in multi response")
        | None, Some _ =>
            let* rest := deserialize_roes m roes b nread in
            Ok (roe :: fst rest, snd rest)
        | Some r, None =>
            let* c := mget i m in
            let* s := slice_from b nread in
            let* x := deserialize_result c r s in
            let* rest := deserialize_roes m roes b (u32 (nread + snd x)) in
            Ok (mkROE (ROE_Index roe) (Some (fst x)) None :: fst rest, snd rest)
        end
  end.

Fixpoint deserialize_rars (m : multi) (rars : list RegionActionResult) (b : bytes) (nread : Z)
    : outcome multi_error (list RegionActionResult * Z) :=
  match rars with
  | [] => Ok ([], nread)
  | rar :: rars =>
      match RAR_Exception rar with
      | Some _ =>
          if bool_decide (len (RAR_ResultOrException rar) <> 0) then
            Err (MultiError "got exception for region, but still have result(s) returned from it")
          else
            let* rest := deserialize_rars m rars b nread in
            Ok (rar :: fst rest, snd rest)
      | None =>
          let* x := deserialize_roes m (RAR_ResultOrException rar) b nread in
          let* rest := deserialize_rars m rars b (snd x) in
          Ok (mkRAR (fst x) None :: fst rest, snd rest)
      end
  end.

(** The response with the cells filled in, and the bytes read. *)
Definition multi_DeserializeCellBlocks (m : multi) (mr : MultiResponse) (b : bytes)
    : outcome multi_error (MultiResponse * Z) :=
  let* x := deserialize_rars m (MR_RegionActionResult mr) b 0 in
  Ok (mkMultiResponse (fst x), snd x).

(** ** Results to the calls *)

(** The positions and the calls that are not nil, [i] being the first position. *)
Fixpoint live_from (i : nat) (calls : list (option call)) : list (nat * call) :=
  match calls with
  | [] => []
  | None :: cs => live_from (S i) cs
  | Some c :: cs => (i, c) :: live_from (S i) cs
  end.

Definition live (m : multi) : list (nat * call) := live_from 0 (mu_calls m).

Fixpoint dispatch_roes {E : Type} (m : multi) (roes : list ResultOrException) : outcome E deliveries :=
  match roes with
  | [] => Ok []
  | roe :: roes =>
      let i := ROE_GetIndex roe in
      let* c := mget i m in
      match c with
      | None => Panic
      | Some c =>
          let* res :=
            match ROE_Exception roe with
            | Some e => Ok (errResult (exception_error e))
            | None => let* msg := newResponse c (ROE_Result roe) in Ok (okResult msg)
            end in
          let* rest := dispatch_roes m roes in
          Ok ((Z.to_nat (u32 (i - 1)), res) :: rest)
      end
  end.

(** [i] is the position of the first of [rars]. *)
Fixpoint dispatch {E : Type} (m : multi) (i : Z) (rars : list RegionActionResult) : outcome E deliveries :=
  match rars with
  | [] => Ok []
  | rar :: rars =>
      let* ds :=
        match RAR_Exception rar with
        | Some e =>
            let* reg := index (mu_regions m) i in
            Ok ((fun ic => (ic.1, errResult (exception_error e)))
                <$> filter (fun ic => b_region (call_base ic.2) = Some reg) (live m))
        | None => dispatch_roes m (RAR_ResultOrException rar)
        end in
      let* rest := dispatch m (i + 1) rars in
      Ok (ds ++ rest)
  end.

Definition returnResults {E : Type} (m : multi) (msg : option Message) (err : option rpc_error)
    : outcome E deliveries :=
  match err with
  | Some e => Ok ((fun ic => (ic.1, errResult e)) <$> live m)
  | None =>
      match msg with
      | Some (MMulti mr) => dispatch m 0 (MR_RegionActionResult mr)
      | _ => Panic
      end
  end.

(** ** Grouping by region *)

Definition of_region (reg : ptr) (l : list (nat * call)) : list (nat * call) :=
  filter (fun ic => b_region (call_base ic.2) = Some reg) l.

Definition index_of (ic : nat * call) : option Z := Some (Z.of_nat ic.1 + 1).

Lemma live_from_lookup i calls k c :
  (k, c) ∈ live_from i calls <-> (i <= k)%nat /\ calls !! (k - i)%nat = Some (Some c).
Proof.
  revert i. induction calls as [|o calls IH]; intros i; simpl.
  - rewrite elem_of_nil, lookup_nil. split; [done|by intros [_ ?]].
  - assert ((k, c) ∈ live_from (S i) calls <->
      (S i <= k)%nat /\ (o :: calls) !! (k - i)%nat = Some (Some c)) as Hrest.
    { rewrite IH. split; intros [Hle Hl]; (split; [done|]).
      - replace (k - i)%nat with (S (k - S i)) by lia. done.
      - replace (k - i)%nat with (S (k - S i)) in Hl by lia. done. }
    destruct o as [c'|].
    + rewrite elem_of_cons, Hrest. split.
      * intros [[= -> ->]|[? ?]]; [|split; [lia|done]]. by rewrite Nat.sub_diag.
      * intros [Hle Hl]. destruct (decide (k = i)) as [->|?].
        -- rewrite Nat.sub_diag in Hl. injection Hl as ->. by left.
        -- right. split; [lia|done].
    + rewrite Hrest. split; [intros [? ?]; split; [lia|done]|].
      intros [Hle Hl]. split; [|done]. destruct (decide (k = i)) as [->|?]; [|lia].
      by rewrite Nat.sub_diag in Hl.
Qed.

Lemma live_from_lt i calls k c :
  (k, c) ∈ live_from i calls -> (i <= k < i + length calls)%nat.
Proof.
  intros [Hle Hl]%live_from_lookup. apply lookup_lt_Some in Hl. lia.
Qed.

Lemma NoDup_live_from i calls : NoDup (live_from i calls).*1.
Proof.
  revert i. induction calls as [|[c|] calls IH]; intros i; simpl; [constructor| |apply IH].
  constructor; [|apply IH]. intros (ic & Heq & Hin)%list_elem_of_fmap. destruct ic as [k c'].
  simpl in Heq. subst k. apply live_from_lt in Hin. lia.
Qed.

Section Aggregate.
Context {HO : RangeOrder}.
Variable ctxErr : nat -> bool.

Definition expire (o : option call) : option call :=
  match o with
  | Some c => if ctxErr (b_ctx (call_base c)) then None else Some c
  | None => None
  end.

Definition indices (perReg : gmap ptr actions) (reg : ptr) : list (option Z) :=
  Action_Index <$> default [] (as_pbs <$> perReg !! reg).

Lemma callAction_index {E : Type} site cb c cbs idx h a cbs' sz :
  @callAction _ E site cb c cbs idx h = Ok (a, cbs', sz) -> Action_Index a = Some idx.
Proof.
  destruct c; simpl; intros H; try done.
  - ok_inv. by simplify_eq.
  - destruct cb; simpl in H; ok_inv; [destruct r as [[? ?] ?]; ok_inv|]; by simplify_eq.
  - ok_inv. by simplify_eq.
Qed.

Definition batchable (c : call) : Prop :=
  match c with CallGet _ | CallMutate _ | CallCheckAndPut _ => True | _ => False end.

Lemma callAction_batchable {E : Type} site cb c cbs idx h x :
  @callAction _ E site cb c cbs idx h = Ok x -> batchable c.
Proof. by destruct c. Qed.

Lemma aggregate_spec {E : Type} site cb i calls perReg size h calls' perReg' size' :
  @aggregate _ ctxErr E site cb i calls perReg size h = Ok (calls', perReg', size') ->
  (Z.of_nat (i + length calls) < 2 ^ 32) ->
  calls' = expire <$> calls /\
  (forall reg, indices perReg' reg = indices perReg reg ++ (index_of <$> of_region reg (live_from i calls'))) /\
  (forall reg, is_Some (perReg' !! reg) <->
     is_Some (perReg !! reg) \/ of_region reg (live_from i calls') <> []) /\
  (forall ic, ic ∈ live_from i calls' -> is_Some (b_region (call_base ic.2)) /\ batchable ic.2).
Proof.
  revert i perReg size calls' perReg' size'.
  induction calls as [|[c|] calls IH]; intros i perReg size calls' perReg' size' H Hlen; simpl in H; [|..|done].
  { injection H as <- <- <-. split_and!; [done| |intros reg; unfold of_region; simpl; tauto|].
    - intros reg. unfold of_region. simpl. by rewrite app_nil_r.
    - intros ic Hic. by apply elem_of_nil in Hic. }
  simpl in Hlen. csimpl.
  destruct (ctxErr (b_ctx (call_base c))) eqn:Hctx.
  - ok_inv. destruct r as [[cs pr] sz]. ok_inv. simplify_eq.
    apply IH in Hr as (-> & H2 & H3 & H4); [|lia]. simpl. rewrite ?Hctx. done.
  - destruct (b_region (call_base c)) as [reg|] eqn:Hreg; [|done]. ok_inv.
    destruct r as [[a cbs] sz]. ok_inv. destruct r as [[cs pr] sz']. ok_inv. simplify_eq.
    apply callAction_batchable in Hr as Hbat. apply callAction_index in Hr. apply IH in Hr0 as (-> & H2 & H3 & H4); [|lia].
    simpl. rewrite ?Hctx. split; [done|].
    assert (forall r, of_region r ((i, c) :: live_from (S i) (expire <$> calls))
      = (if decide (reg = r) then [(i, c)] else []) ++ of_region r (live_from (S i) (expire <$> calls))) as Hof.
    { intros r. unfold of_region. rewrite filter_cons. simpl. rewrite Hreg.
      destruct (decide (reg = r)) as [->|Hne]; [by rewrite decide_True|]. by rewrite decide_False by congruence. }
    split_and!.
    + intros r. rewrite H2, Hof. unfold indices. destruct (decide (reg = r)) as [->|Hne].
      * rewrite lookup_insert_eq. cbn [fmap option_fmap option_map from_option as_pbs].
        unfold id. rewrite !fmap_app, <- app_assoc. f_equal; [by destruct (perReg !! r)|]. f_equal.
        simpl. rewrite Hr. unfold index_of, u32. simpl. by rewrite Z.mod_small by lia.
      * by rewrite lookup_insert_ne.
    + intros r. rewrite H3, Hof. destruct (decide (reg = r)) as [->|Hne].
      * rewrite lookup_insert_eq. split; [intros _|]; [by right|by left].
      * by rewrite lookup_insert_ne.
    + intros ic [->|Hin]%elem_of_cons; [split; [by exists reg|done]|by apply H4].
Qed.

Lemma region_actions_spec {E : Type} l h ras cbs :
  @region_actions E l h = Ok (ras, cbs) ->
  Forall2 (fun ra rp => RA_Action ra = as_pbs rp.2 /\
    exists i, h_infos h !! rp.1 = Some i /\ RA_Region ra = mkRegionSpecifier REGION_NAME (r_name i)) ras l.
Proof.
  revert ras cbs. induction l as [|[r as_] l IH]; intros ras cbs H; simpl in H.
  { injection H as <- <-. constructor. }
  ok_inv. destruct r1 as [ras' cbs']. simplify_eq. constructor; [|by eapply IH].
  simpl. split; [done|]. unfold deref in Hr. destruct (h_infos h !! r) eqn:Hi; [|done]. simplify_eq. eauto.
Qed.

(** What a request asks of each region: the indices of the calls that are still
    wanted, in the order of the batch. *)
Lemma toProto_spec {E : Type} site cb cbs m h req cbs' size m' :
  @toProto _ ctxErr E site cb cbs m h = Ok (req, cbs', size, m') -> mlen m < 2 ^ 32 ->
  mu_calls m' = expire <$> mu_calls m /\ NoDup (mu_regions m') /\
  (forall ic, ic ∈ live m' -> batchable ic.2 /\
     exists reg, b_region (call_base ic.2) = Some reg /\ reg ∈ mu_regions m') /\
  Forall2 (fun ra reg => Action_Index <$> RA_Action ra = index_of <$> of_region reg (live m') /\
    exists i, h_infos h !! reg = Some i /\ RA_Region ra = mkRegionSpecifier REGION_NAME (r_name i))
    (MQ_RegionAction req) (mu_regions m').
Proof.
  unfold toProto. intros H Hlen. ok_inv. destruct r as [[calls perReg] sz]. ok_inv. simplify_eq.
  apply aggregate_spec in Hr as (-> & H2 & H3 & H4); [|unfold mlen, len in Hlen; lia].
  destruct r as [ras cbs0]. apply region_actions_spec in Hr0. unfold live. simpl. split_and!.
  - done.
  - apply NoDup_range.
  - intros ic Hic. destruct (H4 ic Hic) as [[reg Hreg] Hb]. split; [done|]. exists reg. split; [done|].
    destruct (proj2 (H3 reg)) as [as_ Has].
    { right. intros Hnil. apply (not_elem_of_nil ic). rewrite <- Hnil. by apply list_elem_of_filter. }
    apply list_elem_of_fmap. exists (reg, as_). split; [done|]. by apply elem_of_range.
  - apply Forall2_fmap_r. apply Forall2_same_length_lookup_2; [by eapply Forall2_length|].
    intros k ra [reg as_] Hra Hreg.
    destruct (Forall2_lookup_lr _ _ _ _ _ _ Hr0 Hra Hreg) as [Hact Hi]. simpl in *. split; [|done].
    specialize (H2 reg). unfold indices in H2. apply list_elem_of_lookup_2, elem_of_range in Hreg.
    rewrite Hreg in H2. rewrite lookup_empty in H2. by rewrite Hact.
Qed.

End Aggregate.

(** ** Every call gets one result *)

(** What the call at an index is told. *)
Definition action_result (c : call) (roe : ResultOrException) : RPCResult :=
  match ROE_Exception roe with
  | Some e => errResult (exception_error e)
  | None =>
      okResult (match c with
                | CallGet _ => MGet (mkGetResponse (ROE_Result roe))
                | _ => MMutate (mkMutateResponse (ROE_Result roe) None)
                end)
  end.

Definition region_result (c : call) (k : nat) (rar : RegionActionResult) (res : RPCResult) : Prop :=
  match RAR_Exception rar with
  | Some e => res = errResult (exception_error e)
  | None => exists roe, roe ∈ RAR_ResultOrException rar /\
      ROE_Index roe = Some (Z.of_nat k + 1) /\ res = action_result c roe
  end.

Lemma mget_live {E : Type} m k c :
  mlen m < 2 ^ 32 -> (k, c) ∈ live m -> @mget E (Z.of_nat k + 1) m = Ok (Some c).
Proof.
  intros Hlen Hk. pose proof (live_from_lt _ _ _ _ Hk) as Hlt.
  apply live_from_lookup in Hk as [_ Hk]. rewrite Nat.sub_0_r in Hk.
  unfold mget, mlen, len, u32 in *. rewrite bool_decide_eq_false_2 by lia.
  rewrite Z.mod_small by lia. unfold index. rewrite bool_decide_eq_true_2 by lia.
  replace (Z.to_nat (Z.of_nat k + 1 - 1)) with k by lia. by rewrite Hk.
Qed.

Lemma dispatch_roes_spec {E : Type} m roes :
  mlen m < 2 ^ 32 ->
  Forall (fun roe => exists k c, ROE_Index roe = Some (Z.of_nat k + 1) /\ (k, c) ∈ live m /\ batchable c) roes ->
  exists ds, @dispatch_roes E m roes = Ok ds /\
    (fun d => Some (Z.of_nat d.1 + 1)) <$> ds = ROE_Index <$> roes /\
    forall d, d ∈ ds -> exists c roe, (d.1, c) ∈ live m /\ roe ∈ roes /\
      ROE_Index roe = Some (Z.of_nat d.1 + 1) /\ d.2 = action_result c roe.
Proof.
  intros Hlen. induction 1 as [|roe roes (k & c & Hi & Hk & Hb) _ (ds & Hds & Hidx & Hc)]; simpl.
  { exists []. split_and!; [done..|]. intros d Hd. by apply elem_of_nil in Hd. }
  unfold ROE_GetIndex. rewrite Hi. cbn [from_option]. unfold id. rewrite (mget_live m k c) by done.
  cbn [obind].
  replace (match ROE_Exception roe with Some e => _ | None => _ end)
    with (@Ok E _ (action_result c roe)).
  2: { unfold action_result. destruct (ROE_Exception roe); [done|]. by destruct c. }
  cbn [obind]. rewrite Hds. cbn [obind]. eexists. split; [done|].
  assert (Z.to_nat (u32 (Z.of_nat k + 1 - 1)) = k) as ->.
  { apply live_from_lt in Hk. unfold mlen, len, u32 in *. rewrite Z.mod_small; lia. }
  csimpl. rewrite Hidx. split; [done|]. intros d [->|Hd]%elem_of_cons.
  - exists c, roe. split_and!; [done|by left|done|done].
  - destruct (Hc d Hd) as (c' & roe' & ? & ? & ? & ?). exists c', roe'. split_and!; try done. by right.
Qed.

(** The regions share the calls out. *)
Lemma of_region_partition regs (l : list (nat * call)) :
  NoDup regs -> (forall ic, ic ∈ l -> exists reg, b_region (call_base ic.2) = Some reg /\ reg ∈ regs) ->
  regs ≫= (fun reg => of_region reg l) ≡ₚ l.
Proof.
  revert l. induction regs as [|reg regs IH]; intros l Hnd Hl; csimpl.
  { destruct l as [|ic l]; [done|]. destruct (Hl ic) as (reg & _ & Hreg); [by left|].
    by apply elem_of_nil in Hreg. }
  apply NoDup_cons in Hnd as [Hnot Hnd].
  set (P := fun ic : nat * call => b_region (call_base ic.2) = Some reg).
  transitivity (filter P l ++ filter (fun ic => ~ P ic) l); [|apply filter_app_complement].
  apply Permutation_app_head. etransitivity; [|apply (IH (filter (fun ic => ~ P ic) l) Hnd)].
  - assert (forall r, r ∈ regs -> of_region r (filter (fun ic => ~ P ic) l) = of_region r l) as Heq.
    { intros r Hr. unfold of_region. rewrite list_filter_filter. apply list_filter_iff.
      intros ic. unfold P. split; [tauto|]. intros ->. split; [done|]. intros [= ->]. done. }
    clear -Heq. induction regs as [|r regs IH]; csimpl; [done|].
    rewrite Heq by by left. apply Permutation_app_head, IH. intros r' ?. apply Heq. by right.
  - intros ic [HP Hic]%list_elem_of_filter. destruct (Hl ic Hic) as (r & Hr & Hin).
    exists r. split; [done|]. apply elem_of_cons in Hin as [->|?]; [|done]. by destruct HP.
Qed.

(** A result for the region, or one for each of its actions, in any order. *)
Definition answers (m : multi) (reg : ptr) (rar : RegionActionResult) : Prop :=
  RAR_Exception rar <> None \/
  ROE_Index <$> RAR_ResultOrException rar ≡ₚ (index_of <$> of_region reg (live m)).

Lemma live_fun m k c c' : (k, c) ∈ live m -> (k, c') ∈ live m -> c = c'.
Proof. intros [_ H1]%live_from_lookup [_ H2]%live_from_lookup. congruence. Qed.

Lemma indices_perm (ds : deliveries) (l : list (nat * call)) :
  (fun d => Some (Z.of_nat d.1 + 1)) <$> ds ≡ₚ (index_of <$> l) -> ds.*1 ≡ₚ l.*1.
Proof.
  intros H. apply (fmap_Permutation (fun o : option Z => Z.to_nat (default 0 o - 1))) in H.
  rewrite <- !list_fmap_compose in H.
  rewrite (list_fmap_ext (_ ∘ index_of) fst) in H
    by (intros ? [k c] _; unfold compose, index_of; simpl; lia).
  rewrite (list_fmap_ext _ fst) in H by (intros ? [k c] _; unfold compose; simpl; lia). done.
Qed.

Lemma dispatch_spec {E : Type} m pre regs rars :
  mlen m < 2 ^ 32 -> mu_regions m = pre ++ regs -> (forall ic, ic ∈ live m -> batchable ic.2) ->
  Forall2 (answers m) regs rars ->
  exists ds, @dispatch E m (len pre) rars = Ok ds /\
    ds.*1 ≡ₚ (regs ≫= fun reg => of_region reg (live m)).*1 /\
    forall d, d ∈ ds -> exists c reg rar, (d.1, c) ∈ live m /\ b_region (call_base c) = Some reg /\
      (reg, rar) ∈ zip regs rars /\ region_result c d.1 rar d.2.
Proof.
  intros Hlen Hm Hb Hans. revert pre Hm.
  induction Hans as [|reg rar regs rars Hra _ IH]; intros pre Hm; cbn [dispatch].
  { exists []. split_and!; [done..|]. intros d Hd. by apply elem_of_nil in Hd. }
  destruct (IH (pre ++ [reg])) as (ds & Hds & Hp & Hc); [by rewrite <- app_assoc|].
  rewrite len_app in Hds. change (len [reg]) with 1 in Hds. rewrite Hds.
  assert (exists ds0, match RAR_Exception rar with
      | Some e => let* r := @index E _ (mu_regions m) (len pre) in
          Ok ((fun ic => (ic.1, errResult (exception_error e))) <$>
              filter (fun ic => b_region (call_base ic.2) = Some r) (live m))
      | None => dispatch_roes m (RAR_ResultOrException rar) end = Ok ds0 /\
    ds0.*1 ≡ₚ (of_region reg (live m)).*1 /\
    forall d, d ∈ ds0 -> exists c, (d.1, c) ∈ live m /\ b_region (call_base c) = Some reg /\
      region_result c d.1 rar d.2) as (ds0 & -> & Hp0 & Hc0).
  { unfold answers, region_result in *. destruct (RAR_Exception rar) as [e|].
    - unfold index, len. rewrite bool_decide_eq_true_2 by lia. rewrite Nat2Z.id, Hm, list_lookup_middle by done.
      cbn [obind]. eexists. split; [done|]. rewrite <- list_fmap_compose. split; [done|].
      intros d ([k c] & -> & [Hreg Hin]%list_elem_of_filter)%list_elem_of_fmap. by exists c.
    - destruct Hra as [?|Hra]; [done|].
      destruct (@dispatch_roes_spec E m (RAR_ResultOrException rar) Hlen) as (ds0 & -> & Hidx & Hc0).
      { apply Forall_forall. intros roe Hroe.
        assert (ROE_Index roe ∈ (index_of <$> of_region reg (live m))) as Hin
          by (rewrite <- Hra; by apply list_elem_of_fmap_2).
        apply list_elem_of_fmap in Hin as ([k c] & Hi & [Hreg Hin]%list_elem_of_filter).
        exists k, c. split_and!; [done|done|]. by apply (Hb (k, c)). }
      exists ds0. split; [done|]. rewrite <- Hidx in Hra. split.
      + by apply indices_perm in Hra.
      + intros d Hd. destruct (Hc0 d Hd) as (c & roe & Hin & Hroe & Hi & Hres).
        exists c. split_and!; [done| |eauto].
        assert (Some (Z.of_nat d.1 + 1) ∈ (index_of <$> of_region reg (live m))) as Hin2.
        { rewrite <- Hra. apply list_elem_of_fmap. eauto. }
        apply list_elem_of_fmap in Hin2 as ([k c'] & Hi' & [Hreg Hin']%list_elem_of_filter).
        injection Hi' as Hk. assert (k = d.1) as -> by (simpl in Hk; lia).
        by rewrite (live_fun m d.1 c c'). }
  cbn [obind]. eexists. split; [done|]. csimpl. rewrite !fmap_app, Hp0, Hp. split; [done|].
  intros d [Hd|Hd]%elem_of_app.
  - destruct (Hc0 d Hd) as (c & ? & ? & ?). exists c, reg, rar. split_and!; try done. by left.
  - destruct (Hc d Hd) as (c & reg' & rar' & ? & ? & ? & ?). exists c, reg', rar'. split_and!; try done. by right.
Qed.

(** A region server's answer to what it was asked for a region: an exception for
    the region, or a result or exception for each of the actions, in any order. *)
Definition answers_action (ra : RegionAction) (rar : RegionActionResult) : Prop :=
  RAR_Exception rar <> None \/
  ROE_Index <$> RAR_ResultOrException rar ≡ₚ (Action_Index <$> RA_Action ra).

Section Claims.
Context {HO : RangeOrder}.
Variable ctxErr : nat -> bool.

(** C29. A batch that was sent and answered gives every call whose context had
    not expired exactly one result, and the others none; the result is the
    exception of the call's region, or the result or exception that carries
    the call's index.  Nothing in it panics. *)
Theorem batch_answers_each_call_once {E : Type} site cb cbs m h req cbs' size m' mr :
  @toProto _ ctxErr E site cb cbs m h = Ok (req, cbs', size, m') -> mlen m < 2 ^ 32 ->
  Forall2 answers_action (MQ_RegionAction req) (MR_RegionActionResult mr) ->
  exists ds, @returnResults E m' (Some (MMulti mr)) None = Ok ds /\
    NoDup ds.*1 /\
    (forall k, k ∈ ds.*1 <-> exists c, mu_calls m !! k = Some (Some c) /\ ctxErr (b_ctx (call_base c)) = false) /\
    forall d, d ∈ ds -> exists c reg rar, mu_calls m !! d.1 = Some (Some c) /\
      b_region (call_base c) = Some reg /\
      (reg, rar) ∈ zip (mu_regions m') (MR_RegionActionResult mr) /\ region_result c d.1 rar d.2.
Proof.
  intros Hto Hlen Hans. apply toProto_spec in Hto as (Hcalls & Hnd & Hlive & Hra); [|done].
  assert (mlen m' < 2 ^ 32) as Hlen' by (unfold mlen, len in *; by rewrite Hcalls, length_fmap).
  assert (forall k c, (k, c) ∈ live m' <->
    mu_calls m !! k = Some (Some c) /\ ctxErr (b_ctx (call_base c)) = false) as Hmem.
  { intros k c. unfold live. rewrite live_from_lookup, Nat.sub_0_r, Hcalls, list_lookup_fmap.
    destruct (mu_calls m !! k) as [[c'|]|]; simpl; [|split; [by intros [_ ?]|by intros [? _]]..].
    destruct (ctxErr (b_ctx (call_base c'))) eqn:Hc.
    - split; [by intros [_ ?]|]. intros [[= ->] ?]. congruence.
    - split; [intros [_ [= ->]]; done|]. intros [[= ->] _]. split; [lia|done]. }
  destruct (@dispatch_spec E m' [] (mu_regions m') (MR_RegionActionResult mr)) as (ds & Hds & Hp & Hc);
    [done|done|intros ic Hic; by apply Hlive| |].
  { apply Forall2_same_length_lookup_2.
    { apply Forall2_length in Hra, Hans. congruence. }
    intros k reg rar Hreg Hrar. destruct (lookup_lt_is_Some_2 (MQ_RegionAction req) k) as [ra Hk].
    { apply Forall2_length in Hra. rewrite Hra. by eapply lookup_lt_Some. }
    destruct (Forall2_lookup_lr _ _ _ _ _ _ Hra Hk Hreg) as [Hidx _].
    destruct (Forall2_lookup_lr _ _ _ _ _ _ Hans Hk Hrar) as [?|Hroe]; [by left|right].
    by rewrite Hroe, Hidx. }
  rewrite of_region_partition in Hp; [|done|intros ic Hic; by apply Hlive].
  exists ds. split; [done|]. split_and!.
  - rewrite Hp. apply NoDup_live_from.
  - intros k. rewrite Hp, list_elem_of_fmap. split.
    + intros ([k' c] & -> & Hin). exists c. by apply Hmem.
    + intros (c & Hk). exists (k, c). split; [done|]. by apply Hmem.
  - intros d Hd. destruct (Hc d Hd) as (c & reg & rar & Hin & ? & ? & ?). exists c, reg, rar.
    split_and!; try done. by apply Hmem.
Qed.

End Claims.

(** A batch that fails as a whole gives its error, once, to every call that
    is still in it. *)
Theorem batch_error_reaches_each_call {E : Type} m msg e :
  exists ds, @returnResults E m msg (Some e) = Ok ds /\ NoDup ds.*1 /\
    (forall k, k ∈ ds.*1 <-> exists c, mu_calls m !! k = Some (Some c)) /\
    Forall (fun d => d.2 = errResult e) ds.
Proof.
  eexists. split; [done|]. rewrite <- list_fmap_compose. change (fst ∘ _) with (@fst nat call).
  split_and!.
  - apply NoDup_live_from.
  - intros k. rewrite list_elem_of_fmap. unfold live. split.
    + intros ([k' c] & -> & [_ H]%live_from_lookup). rewrite Nat.sub_0_r in H. eauto.
    + intros (c & Hk). exists (k, c). split; [done|]. apply live_from_lookup. rewrite Nat.sub_0_r. split; [lia|done].
  - apply Forall_fmap, Forall_forall. done.
Qed.

(** Two gets of a region, the second with an expired context. *)
Definition sample_get (ctx : nat) : call :=
  CallGet (mkGet (mkBase ctx (bs "t") (bs "row") [] (Some 0%nat)) newBaseQuery false false).

Lemma batch_answers_each_call_once_witness :
  exists req cbs size m' ds,
    @toProto key_order (fun ctx => bool_decide (ctx = 1%nat)) Empty_set [] true []
      (mkMulti 2 [Some (sample_get 0); Some (sample_get 1)] []) one_region_heap = Ok (req, cbs, size, m') /\
    @returnResults Empty_set m' (Some (MMulti (mkMultiResponse
      [mkRAR [mkROE (Some 1) (Some (mkResult [] None None None None)) None] None]))) None = Ok ds /\
    0%nat ∈ ds.*1.
Proof.
  destruct (@toProto key_order (fun ctx => bool_decide (ctx = 1%nat)) Empty_set [] true []
      (mkMulti 2 [Some (sample_get 0); Some (sample_get 1)] []) one_region_heap)
    as [[[[req cbs] size] m']|e|] eqn:Hto; [|destruct e|vm_compute in Hto; discriminate].
  destruct (@batch_answers_each_call_once key_order (fun ctx => bool_decide (ctx = 1%nat)) Empty_set [] true []
    _ _ req cbs size m' (mkMultiResponse
      [mkRAR [mkROE (Some 1) (Some (mkResult [] None None None None)) None] None]) Hto)
    as (ds & Hds & _ & Hk & _).
  - reflexivity.
  - vm_compute in Hto. injection Hto as <- _ _ _. apply Forall2_cons. split; [right; reflexivity|constructor].
  - exists req, cbs, size, m', ds. split; [reflexivity|]. split; [exact Hds|].
    apply Hk. exists (sample_get 0). split; reflexivity.
Defined.

(** ** Cells of a batch's response *)

(** A response as the server means it, and what it sends in protobuf: the
    results without their cells, which follow as cellblocks. *)
Definition strip_result (r : Result) : Result := set_Cell [] r.
Definition strip_roe (roe : ResultOrException) : ResultOrException :=
  mkROE (ROE_Index roe) (strip_result <$> ROE_Result roe) (ROE_Exception roe).
Definition strip_rar (rar : RegionActionResult) : RegionActionResult :=
  mkRAR (strip_roe <$> RAR_ResultOrException rar) (RAR_Exception rar).

Definition roe_cells (roe : ResultOrException) : list Cell := default [] (Result_Cell <$> ROE_Result roe).
Definition rar_cells (rar : RegionActionResult) : list Cell := RAR_ResultOrException rar ≫= roe_cells.

Definition roe_ok (m : multi) (roe : ResultOrException) : Prop :=
  (exists k c, ROE_Index roe = Some (Z.of_nat k + 1) /\ (k, c) ∈ live m /\ batchable c) /\
  match ROE_Result roe, ROE_Exception roe with
  | Some r, None => AssociatedCellCount r = Some (len (Result_Cell r)) /\ len (Result_Cell r) < 2 ^ 32 /\
      Forall cell_ok (Result_Cell r)
  | None, Some _ => True
  | _, _ => False
  end.

Definition rar_ok (m : multi) (rar : RegionActionResult) : Prop :=
  match RAR_Exception rar with
  | Some _ => RAR_ResultOrException rar = []
  | None => Forall (roe_ok m) (RAR_ResultOrException rar)
  end.

Lemma deserialize_result_strip c r b :
  batchable c -> AssociatedCellCount r = Some (len (Result_Cell r)) -> len (Result_Cell r) < 2 ^ 32 ->
  Forall cell_ok (Result_Cell r) -> len (encode_cells (Result_Cell r)) < 2 ^ 32 ->
  deserialize_result (Some c) (strip_result r) (encode_cells (Result_Cell r) ++ b)
  = Ok (r, len (encode_cells (Result_Cell r))).
Proof.
  intros Hc Hn Hlt Hok Hlen. unfold deserialize_result.
  assert (exists msg, @newResponse multi_error c (Some (strip_result r)) = Ok msg) as [msg ->]
    by (destruct c; try done; eexists; done).
  cbn [obind Result_DeserializeCellBlocks]. unfold GetAssociatedCellCount. cbn [strip_result set_Cell AssociatedCellCount].
  rewrite Hn. cbn [from_option]. unfold id, u32. pose proof (len_nonneg (Result_Cell r)).
  rewrite Z.mod_small by lia. unfold deserializeCellBlocks. unfold len at 1. rewrite Nat2Z.id.
  assert (deserialize_loop (length (Result_Cell r)) (encode_cells (Result_Cell r) ++ b) 0 []
    = Ok (Result_Cell r, len (encode_cells (Result_Cell r)))) as ->
    by (by apply (deserialize_loop_encode (Result_Cell r) [] b [])).
  cbn [map_err obind]. by destruct r.
Qed.

Lemma deserialize_roes_strip m roes p rest :
  mlen m < 2 ^ 32 -> Forall (roe_ok m) roes ->
  len p + len (encode_cells (roes ≫= roe_cells)) < 2 ^ 32 ->
  deserialize_roes m (strip_roe <$> roes) (p ++ encode_cells (roes ≫= roe_cells) ++ rest) (len p)
  = Ok (roes, len p + len (encode_cells (roes ≫= roe_cells))).
Proof.
  intros Hm Hroes. revert p. induction Hroes as [|roe roes [(k & c & Hi & Hk & Hb) Hroe] _ IH]; intros p Hlen.
  { unfold encode_cells, len. simpl. by rewrite Z.add_0_r. }
  pose proof (len_nonneg p). pose proof (len_nonneg (encode_cells (roes ≫= roe_cells))).
  change (strip_roe <$> roe :: roes) with (strip_roe roe :: (strip_roe <$> roes)).
  change ((roe :: roes) ≫= roe_cells) with (roe_cells roe ++ (roes ≫= roe_cells)) in *.
  rewrite encode_cells_app, len_app in *. cbn [deserialize_roes].
  replace (ROE_GetIndex (strip_roe roe)) with (Z.of_nat k + 1)
    by (unfold ROE_GetIndex; simpl; by rewrite Hi).
  rewrite bool_decide_eq_false_2 by lia.
  destruct roe as [idx [r|] [e|]]; simpl in Hi, Hroe; try done;
    cbn [strip_roe ROE_Result ROE_Exception ROE_Index fmap option_fmap option_map].
  - destruct Hroe as (Hn & Hlt & Hok). change (roe_cells (mkROE idx (Some r) None)) with (Result_Cell r) in *.
    pose proof (len_nonneg (encode_cells (Result_Cell r))). rewrite <- app_assoc.
    rewrite (mget_live m k c) by done. cbn [obind]. rewrite slice_suffix by done. cbn [obind].
    rewrite deserialize_result_strip by (done || lia). cbn [obind fst snd].
    unfold u32. rewrite Z.mod_small by lia. rewrite app_assoc, <- len_app, IH by (rewrite len_app; lia).
    cbn [obind fst snd]. by rewrite len_app, Z.add_assoc.
  - change (roe_cells (mkROE idx None (Some e))) with (@nil Cell) in *.
    change (encode_cells []) with (@nil byte) in *. change (len []) with 0 in *. cbn [app].
    rewrite IH by lia. cbn [obind fst snd]. by rewrite Z.add_0_l.
Qed.

Lemma deserialize_rars_strip m rars p rest :
  mlen m < 2 ^ 32 -> Forall (rar_ok m) rars ->
  len p + len (encode_cells (rars ≫= rar_cells)) < 2 ^ 32 ->
  deserialize_rars m (strip_rar <$> rars) (p ++ encode_cells (rars ≫= rar_cells) ++ rest) (len p)
  = Ok (rars, len p + len (encode_cells (rars ≫= rar_cells))).
Proof.
  intros Hm Hrars. revert p. induction Hrars as [|rar rars Hrar _ IH]; intros p Hlen.
  { unfold encode_cells, len. simpl. by rewrite Z.add_0_r. }
  pose proof (len_nonneg p).
  change (strip_rar <$> rar :: rars) with (strip_rar rar :: (strip_rar <$> rars)).
  change ((rar :: rars) ≫= rar_cells) with (rar_cells rar ++ (rars ≫= rar_cells)) in *.
  cbn [deserialize_rars]. rewrite encode_cells_app, len_app in *.
  pose proof (len_nonneg (encode_cells (rars ≫= rar_cells))). unfold rar_ok in Hrar. cbn [strip_rar RAR_Exception].
  destruct rar as [roes [e|]]; cbn [RAR_Exception RAR_ResultOrException] in *.
  - subst roes. cbn [RAR_ResultOrException strip_rar fmap list_fmap].
    change (rar_cells (mkRAR [] (Some e))) with (@nil Cell) in *. change (encode_cells []) with (@nil byte) in *.
    change (len []) with 0 in *. rewrite bool_decide_eq_false_2 by (intros Hf; by apply Hf).
    cbn [app]. rewrite IH by lia. cbn [obind fst snd]. by rewrite Z.add_0_l.
  - cbn [RAR_ResultOrException strip_rar]. change (rar_cells (mkRAR roes None)) with (roes ≫= roe_cells) in *.
    pose proof (len_nonneg (encode_cells (roes ≫= roe_cells))). rewrite <- app_assoc.
    rewrite deserialize_roes_strip by (done || lia). cbn [obind fst snd].
    rewrite app_assoc, <- len_app, IH by (rewrite len_app; lia). cbn [obind fst snd].
    by rewrite len_app, Z.add_assoc.
Qed.

(** The cells of a batch's response, sent as one run of cellblocks after the
    protobuf message, end up in the results they belong to: reading them into
    the stripped response restores it, and all the bytes are used. *)
Theorem multi_cellblocks_roundtrip m mr :
  mlen m < 2 ^ 32 -> Forall (rar_ok m) (MR_RegionActionResult mr) ->
  len (encode_cells (MR_RegionActionResult mr ≫= rar_cells)) < 2 ^ 32 ->
  multi_DeserializeCellBlocks m (mkMultiResponse (strip_rar <$> MR_RegionActionResult mr))
    (encode_cells (MR_RegionActionResult mr ≫= rar_cells))
  = Ok (mr, len (encode_cells (MR_RegionActionResult mr ≫= rar_cells))).
Proof.
  intros Hm Hok Hlen. unfold multi_DeserializeCellBlocks. cbn [MR_RegionActionResult].
  pose proof (deserialize_rars_strip m (MR_RegionActionResult mr) [] []) as H.
  rewrite app_nil_r in H. cbn [app] in H. change (len []) with 0 in H. rewrite H by done.
  cbn [obind fst snd]. by destruct mr.
Qed.

Lemma multi_cellblocks_roundtrip_witness :
  let mr := mkMultiResponse [mkRAR [mkROE (Some 1) (Some (mkResult sample_cells (Some 2) None None None)) None] None] in
  multi_DeserializeCellBlocks (mkMulti 2 [Some (sample_get 0)] [0%nat])
    (mkMultiResponse (strip_rar <$> MR_RegionActionResult mr)) (encode_cells sample_cells)
  = Ok (mr, len (encode_cells sample_cells)).
Proof.
  intros mr. apply (multi_cellblocks_roundtrip (mkMulti 2 [Some (sample_get 0)] [0%nat]) mr).
  - reflexivity.
  - apply Forall_cons. split; [|constructor]. apply Forall_cons. split; [|constructor]. split.
    + exists 0%nat, (sample_get 0). split; [reflexivity|]. split; [left|exact I].
    + split; [reflexivity|]. split; [reflexivity|].
      apply Forall_cons; split; [|apply Forall_cons; split; [|constructor]];
        (split; [eexists; reflexivity|exists x04; reflexivity|]);
        vm_compute; repeat split; discriminate || reflexivity.
  - vm_compute. reflexivity.
Defined.
