(* ===== verification/Wire.v ===== *)
(** * Requests and responses on the wire: region/client.go [send], [receive], [sendHello]

    A request is a 4-byte length, the delimited header, the delimited request
    and the cellblocks; a response has the same shape.  The protobuf runtime is
    third party: [Protobuf] is what the client calls of it, [ProtobufSpec] its
    documented behaviour (a size is the length of the encoding; a
    length-delimited field is consumed as it was appended; encoding and decoding
    return errors and do not panic). *)

From S2P Require Import Prelude Pb RegionInfo CellBlocks Hrpc Mutate RpcError Multi Compressor.

(** ** Messages *)

(** A request as the client hands it to the protobuf runtime. *)
Inductive Request :=
| ReqGet (r : GetRequest)
| ReqScan (r : ScanRequest)
| ReqMutate (r : MutateRequest)
| ReqMulti (r : MultiRequest)
| ReqOther (name : string).

(** The calls that reach [send]. *)
Inductive rpc :=
| RpcCall (c : call)
| RpcMulti (m : multi).

(** pb/RPC.pb.go *)
Record RequestHeader := mkRequestHeader {
  RH_CallId : option Z;
  RH_MethodName : string;
  RH_RequestParam : bool;
  RH_CellBlockMeta : option Z;      (* its Length *)
}.

Record ExceptionResponse := mkExceptionResponse {
  ER_ExceptionClassName : option string;
  ER_StackTrace : option string;
}.

Record ResponseHeader := mkResponseHeader {
  RespH_CallId : option Z;
  RespH_Exception : option ExceptionResponse;
  RespH_CellBlockMeta : option (option Z);
}.

Record ConnectionHeader := mkConnectionHeader {
  CH_EffectiveUser : string;
  CH_ServiceName : string;
  CH_CellBlockCodecClass : string;
  CH_CellBlockCompressorClass : option string;
}.

(** ** The protobuf runtime *)

Class Protobuf := {
  AppendVarint : bytes -> Z -> bytes;
  SizeVarint : Z -> Z;
  ConsumeBytes : bytes -> option (bytes * Z);
  Size_header : RequestHeader -> Z;
  Size_request : Request -> Z;
  MarshalAppend_header : bytes -> RequestHeader -> outcome error bytes;
  MarshalAppend_request : bytes -> Request -> outcome error bytes;
  Marshal_connection : ConnectionHeader -> outcome error bytes;
  Unmarshal_header : bytes -> outcome error ResponseHeader;
  Unmarshal_response : rpc -> bytes -> outcome error Message;
}.

(** ** The request *)

Section Send.
Context {HO : RangeOrder} {PB : Protobuf}.
Variable ctxErr : nat -> bool.
(** [rpc.Name()] and [rpc.ToProto()] of the calls of the other files of hrpc. *)
Variable other_ToProto : string -> option Request.
(** [c.compressor] *)
Variable compressor : option Codec.

Definition rpc_Name (r : rpc) : string :=
  match r with
  | RpcCall (CallGet _) => "Get"
  | RpcCall (CallScan _) => "Scan"
  | RpcCall (CallMutate _) | RpcCall (CallCheckAndPut _) => "Mutate"
  | RpcCall (CallOther _ name) => name
  | RpcMulti _ => "Multi"
  end.

(** [s, ok := rpc.(canSerializeCellBlocks); ok && s.CellBlocksEnabled()] *)
Definition uses_cellblocks (r : rpc) : bool :=
  match r with
  | RpcCall c => CellBlocksEnabled c
  | RpcMulti _ => true
  end.

(** [s.SerializeCellBlocks(nil)]; building a batch updates it. *)
Definition rpc_SerializeCellBlocks (site : list nat) (r : rpc) (h : heap)
    : outcome error (Request * list bytes * Z * rpc) :=
  match r with
  | RpcCall (CallMutate m) =>
      let* x := Mutate_SerializeCellBlocks site m [] h in
      let '(req, cbs, sz) := x in Ok (ReqMutate req, cbs, sz, r)
  | RpcMulti m =>
      let* x := multi_SerializeCellBlocks ctxErr site [] m h in
      let '(req, cbs, sz, m) := x in Ok (ReqMulti req, cbs, sz, RpcMulti m)
  | _ => Panic
  end.

Definition rpc_ToProto (site : list nat) (r : rpc) (h : heap) : outcome error (option Request * rpc) :=
  match r with
  | RpcCall (CallGet g) => let* x := Get_ToProto site g h in Ok (Some (ReqGet x), r)
  | RpcCall (CallScan s) => let* x := Scan_ToProto site s h in Ok (Some (ReqScan x), r)
  | RpcCall (CallMutate m) => let* x := Mutate_ToProto site m h in Ok (Some (ReqMutate x), r)
  | RpcCall (CallCheckAndPut cp) => let* x := CheckAndPut_ToProto site cp h in Ok (Some (ReqMutate x), r)
  | RpcCall (CallOther _ name) => Ok (other_ToProto name, r)
  | RpcMulti m =>
      let* x := toProto ctxErr site false [] m h in
      let '(req, _, _, m) := x in Ok (Some (ReqMulti req), RpcMulti m)
  end.

(** The first half of [send]: the request, its cellblocks and their length. *)
Definition prepare (site : list nat) (r : rpc) (h : heap)
    : outcome error (option Request * option (list bytes) * Z * option Z * rpc) :=
  if uses_cellblocks r then
    let* x := rpc_SerializeCellBlocks site r h in
    let '(req, cbs, sz, r) := x in
    let* y :=
      match compressor with
      | Some C =>
          let* compressed := map_err (fun _ => "out of fuel"%string) (@compressCellblocks C cbs sz) in
          Ok ([compressed], u32 (len compressed))
      | None => Ok (cbs, sz)
      end in
    Ok (Some req, Some (fst y), snd y, Some (snd y), r)
  else
    let* x := rpc_ToProto site r h in
    Ok (fst x, None, 0, None, snd x).

(** The second half: the protobuf part of the frame.  A wrong size panics. *)
Definition frame_head (header : RequestHeader) (request : option Request) (cellblocksLen : Z)
    : outcome error bytes :=
  match request with
  | None => Err "failed to marshal request: proto: Marshal called with nil"%string
  | Some request =>
      let headerSize := Size_header header in
      let requestSize := Size_request request in
      let protobufLen := SizeVarint (u64 headerSize) + headerSize + SizeVarint (u64 requestSize) + requestSize in
      let totalLen := u32 (u32 protobufLen + cellblocksLen) in
      let b := PutUint32 totalLen in
      let b := AppendVarint b (u64 headerSize) in
      let* b := map_err (fun e => ("failed to marshal request header: " ++ e)%string)
                  (MarshalAppend_header b header) in
      let b := AppendVarint b (u64 requestSize) in
      let* b := map_err (fun e => ("failed to marshal request: " ++ e)%string)
                  (MarshalAppend_request b request) in
      if bool_decide (len b <> 4 + protobufLen) then Panic else Ok b
  end.

(** What [send] writes for a call registered under [id]: one buffer, or
    several with the cellblocks. *)
Definition send_buffers (site : list nat) (r : rpc) (id : Z) (h : heap) : outcome error (list bytes * rpc) :=
  let* p := prepare site r h in
  let '(request, cellblocks, cellblocksLen, meta, r') := p in
  let* b := frame_head (mkRequestHeader (Some id) (rpc_Name r) true meta) request cellblocksLen in
  Ok (b :: default [] cellblocks, r').

(** [sendHello] *)
Definition hello_preamble : bytes := bs "HBas" ++ [x00; x50].

Definition sendHello (effectiveUser ctype : string) : outcome error bytes :=
  let connHeader := mkConnectionHeader effectiveUser ctype "org.apache.hadoop.hbase.codec.KeyValueCodec"
    ((fun C => @CellBlockCompressorClass C) <$> compressor) in
  let* data := map_err (fun e => ("failed to marshal connection header: " ++ e)%string)
                 (Marshal_connection connHeader) in
  Ok (hello_preamble ++ PutUint32 (u32 (len data)) ++ data).

(** ** The response *)

(** [io.ReadFull] of [n] bytes from what the connection delivers. *)
Definition ReadFull (stream : bytes) (n : nat) : outcome rpc_error (bytes * bytes) :=
  if bool_decide (n <= length stream)%nat then Ok (take n stream, drop n stream)
  else Err (ServerError "unexpected EOF").

(** The first half of [receive]: the frame, its header and the id of the call. *)
Definition receive_frame (stream : bytes)
    : outcome rpc_error (bytes * ResponseHeader * Z * Z * bytes) :=
  let* x := ReadFull stream 4 in
  let* size := Uint32 (fst x) in
  let* y := ReadFull (snd x) (Z.to_nat size) in
  let b := fst y in
  match ConsumeBytes b with
  | None => Err (ServerError "failed to decode the response header")
  | Some (headerBytes, headerLen) =>
      let* header := map_err (fun e => ServerError ("failed to decode the response header: " ++ e)%string)
                       (Unmarshal_header headerBytes) in
      match RespH_CallId header with
      | None => Err ErrMissingCallID
      | Some callID => Ok (b, header, headerLen, callID, snd y)
      end
  end.

(** The message read so far with its cells, and the bytes read. *)
Definition with_cells {E' A : Type} (wrap : A -> Message) (o : outcome E' (A * Z))
    : outcome rpc_error (Message * Z) :=
  let* x := map_err (fun _ => RetryableError "failed to decode the response") o in
  Ok (wrap (fst x), snd x).

(** [d, ok := rpc.(canDeserializeCellBlocks)] and [d.DeserializeCellBlocks(response, b)];
    a CheckAndPut has the method of its Mutate. *)
Definition rpc_DeserializeCellBlocks (r : rpc) : option (Message -> bytes -> outcome rpc_error (Message * Z)) :=
  match r with
  | RpcCall (CallGet _) =>
      Some (fun m b => match m with MGet g => with_cells MGet (Get_DeserializeCellBlocks g b) | _ => Panic end)
  | RpcCall (CallMutate _) | RpcCall (CallCheckAndPut _) =>
      Some (fun m b => match m with MMutate g => with_cells MMutate (Mutate_DeserializeCellBlocks g b) | _ => Panic end)
  | RpcCall (CallScan _) =>
      Some (fun m b => match m with MScan g => with_cells MScan (Scan_DeserializeCellBlocks g b) | _ => Panic end)
  | RpcMulti mu =>
      Some (fun m b => match m with MMulti g => with_cells MMulti (multi_DeserializeCellBlocks mu g b) | _ => Panic end)
  | RpcCall (CallOther _ _) => None
  end.

(** The cells, after the message: [b[size-cellsLen:]] with [size] a [uint32]. *)
Definition decode_cells (d : Message -> bytes -> outcome rpc_error (Message * Z)) (response : Message)
    (b : bytes) (cellsLen : Z) : outcome rpc_error Message :=
  let* b := slice_from b (u32 (u32 (len b) - cellsLen)) in
  let* b :=
    match compressor with
    | Some C => map_err (fun _ => RetryableError "failed to decompress the response") (@decompressCellblocks C b)
    | None => Ok b
    end in
  let* x := d response b in
  if bool_decide (snd x < len b) then Err (RetryableError "short read") else Ok (fst x).

(** The second half of [receive], for the call that was found: the response or
    the error that its deferred [returnResult] delivers.  (The message delivered
    beside an error is not looked at by any caller and not modelled.) *)
Definition decode_response (r : rpc) (b : bytes) (header : ResponseHeader) (headerLen : Z)
    : outcome rpc_error Message :=
  match RespH_Exception header with
  | Some e =>
      match ER_ExceptionClassName e, ER_StackTrace e with
      | Some class, Some stack => Err (exceptionToError class stack)
      | _, _ => Panic
      end
  | None =>
      let* rest := slice_from b headerLen in
      match ConsumeBytes rest with
      | None => Err (RetryableError "failed to decode the response")
      | Some (responseBytes, _) =>
          let* response := map_err (fun e => RetryableError ("failed to decode the response: " ++ e)%string)
                             (Unmarshal_response r responseBytes) in
          let cellsLen := default 0 (default None (RespH_CellBlockMeta header)) in
          match rpc_DeserializeCellBlocks r with
          | Some d => if bool_decide (cellsLen > 0) then decode_cells d response b cellsLen else Ok response
          | None => Ok response
          end
      end
  end.

Definition rpc_result (o : outcome rpc_error Message) : option RPCResult :=
  match o with
  | Ok m => Some (okResult m)
  | Err e => Some (errResult e)
  | Panic => None
  end.

End Send.

(** ** What the runtime promises *)

Class ProtobufSpec (PB : Protobuf) := {
  varint : Z -> bytes;
  AppendVarint_spec b n : AppendVarint b n = b ++ varint n;
  SizeVarint_spec n : SizeVarint n = len (varint n);
  ConsumeBytes_spec m rest : len m < 2 ^ 64 ->
    ConsumeBytes (varint (len m) ++ m ++ rest) = Some (m, len (varint (len m)) + len m);
  header_bytes : RequestHeader -> outcome error bytes;
  request_bytes : Request -> outcome error bytes;
  MarshalAppend_header_spec b h :
    MarshalAppend_header b h = (let* d := header_bytes h in Ok (b ++ d));
  MarshalAppend_request_spec b r :
    MarshalAppend_request b r = (let* d := request_bytes r in Ok (b ++ d));
  Size_header_spec h d : header_bytes h = Ok d -> Size_header h = len d;
  Size_request_spec r d : request_bytes r = Ok d -> Size_request r = len d;
  marshal_no_panic h r : header_bytes h <> Panic /\ request_bytes r <> Panic;
  unmarshal_no_panic b : Unmarshal_header b <> Panic;
}.

(** A length-delimited field. *)
Definition delimited `{ProtobufSpec} (m : bytes) : bytes := varint (len m) ++ m.

(** ** The length announced for the cellblocks *)

Lemma u32_small z : 0 <= z < 2 ^ 32 -> u32 z = z.
Proof. apply Z.mod_small. Qed.

Lemma u32_add_l a b : u32 (u32 a + b) = u32 (a + b).
Proof. unfold u32. by rewrite Zplus_mod_idemp_l. Qed.

Lemma u32_add_r a b : u32 (a + u32 b) = u32 (a + b).
Proof. unfold u32. by rewrite Zplus_mod_idemp_r. Qed.

Section CellblocksLen.
Context {HO : RangeOrder}.

Lemma valuesToCellblocks_len {E : Type} site m cbs count sz :
  @valuesToCellblocks _ E site m = Ok (cbs, count, sz) -> sz = u32 (len cbs).
Proof.
  unfold valuesToCellblocks. case_bool_decide; intros H0; [by simplify_eq|]. ok_inv.
  case_bool_decide; [done|]. by simplify_eq.
Qed.

Lemma Mutate_cellblocks_len {E : Type} site m cbs h req cbs' sz :
  @Mutate_SerializeCellBlocks _ E site m cbs h = Ok (req, cbs', sz) ->
  sz = u32 (len (concat cbs') - len (concat cbs)).
Proof.
  unfold Mutate_SerializeCellBlocks, Mutate_toProto. intros H. ok_inv.
  destruct r0 as [[[cols count] cbs1] sz1]. ok_inv. destruct r1 as [[cb n] sz0]. ok_inv. simplify_eq.
  apply valuesToCellblocks_len in Hr1. case_bool_decide as Hsz.
  - rewrite concat_app, len_app. simpl. rewrite app_nil_r. rewrite Hr1. f_equal. lia.
  - rewrite Z.sub_diag. pose proof (Z.mod_pos_bound (len cb) (2 ^ 32)). unfold u32 in *. change (0 mod 2 ^ 32) with 0. lia.
Qed.

Lemma callAction_len {E : Type} site isCb c cbs i h a cbs' sz :
  @callAction _ E site isCb c cbs i h = Ok (a, cbs', sz) ->
  sz = u32 (len (concat cbs') - len (concat cbs)).
Proof.
  intros H. destruct c as [g|s|m|cp|b n]; simpl in H; try done.
  - ok_inv. simplify_eq. by rewrite Z.sub_diag.
  - destruct isCb; simpl in H; ok_inv.
    + destruct r as [[req cbs1] sz1]. ok_inv. simplify_eq. by eapply Mutate_cellblocks_len.
    + simplify_eq. by rewrite Z.sub_diag.
  - ok_inv. simplify_eq. by rewrite Z.sub_diag.
Qed.

(** The cellblocks collected for all the regions. *)
Definition region_len (kv : ptr * actions) : Z := len (concat (as_cellblocks kv.2)).
Definition regions_len (m : gmap ptr actions) : Z := sumZ (region_len <$> map_to_list m).

Lemma region_len_cons reg as_ l :
  sumZ (region_len <$> (reg, as_) :: l) = len (concat (as_cellblocks as_)) + sumZ (region_len <$> l).
Proof. done. Qed.

Lemma regions_len_insert m reg as_ :
  regions_len (<[reg := as_]> m)
  = regions_len m - len (concat (as_cellblocks (default (mkActions [] []) (m !! reg)))) + len (concat (as_cellblocks as_)).
Proof.
  unfold regions_len. rewrite <- insert_delete_eq, map_to_list_insert by apply lookup_delete_eq.
  destruct (m !! reg) as [old|] eqn:Hm; cbn [from_option].
  - rewrite <- (insert_delete_id m reg old Hm) at 2. rewrite map_to_list_insert by apply lookup_delete_eq.
    rewrite !region_len_cons. unfold id. lia.
  - rewrite delete_id by done. rewrite region_len_cons. unfold len at 2. simpl. lia.
Qed.

Lemma aggregate_len {E : Type} ctxErr site isCb i calls perReg size h calls' perReg' size' :
  @aggregate _ ctxErr E site isCb i calls perReg size h = Ok (calls', perReg', size') ->
  u32 size = size -> size' = u32 (size + regions_len perReg' - regions_len perReg).
Proof.
  revert i perReg size calls' size'. induction calls as [|[c|] calls IH]; intros i perReg size calls' size' H Hs; simpl in H.
  - simplify_eq. by replace (size' + _ - _) with size' by lia.
  - destruct (ctxErr _).
    { ok_inv. destruct r as [[cs pr] sz]. ok_inv. simplify_eq. eapply IH; [exact Hr|done]. }
    destruct (b_region _) as [reg|]; [|done]. ok_inv. destruct r as [[a cbs] sz]. ok_inv.
    destruct r as [[cs pr] sz']. ok_inv. simplify_eq.
    apply callAction_len in Hr. eapply IH in Hr0; [|unfold u32; by rewrite Zmod_mod].
    rewrite Hr0, regions_len_insert. cbn [as_cellblocks]. rewrite Hr.
    unfold u32. rewrite !Zplus_mod_idemp_r. rewrite <- Z.add_sub_assoc, Zplus_mod_idemp_l. f_equal. lia.
  - done.
Qed.

Lemma region_actions_len {E : Type} l h ra cbs :
  @region_actions E l h = Ok (ra, cbs) -> len (concat cbs) = sumZ (region_len <$> l).
Proof.
  revert ra cbs. induction l as [|[r as_] l IH]; intros ra cbs H; simpl in H; [by simplify_eq|].
  ok_inv. simplify_eq. destruct r1 as [ra1 cbs1]. specialize (IH _ _ Hr0). simpl.
  rewrite concat_app, len_app, IH. unfold sumZ. done.
Qed.

Lemma multi_cellblocks_len {E : Type} ctxErr site m h req cbs sz m' :
  @multi_SerializeCellBlocks _ ctxErr E site [] m h = Ok (req, cbs, sz, m') -> sz = u32 (len (concat cbs)).
Proof.
  unfold multi_SerializeCellBlocks, toProto. intros H. ok_inv. destruct r as [[calls perReg] size]. ok_inv.
  simplify_eq. destruct r as [ra cbs0]. simpl. apply aggregate_len in Hr; [|done].
  rewrite (region_actions_len _ _ _ _ Hr0), range_perm. rewrite Hr. f_equal.
  unfold regions_len. rewrite map_to_list_empty. cbn [fmap list_fmap]. change (sumZ []) with 0. lia.
Qed.

End CellblocksLen.

(** ** Frames *)

Section Frames.
Context {HO : RangeOrder} {PB : Protobuf} {PBS : ProtobufSpec PB}.

Lemma frame_head_spec header req n b :
  frame_head header req n = Ok b -> exists r hb rb,
    req = Some r /\ header_bytes header = Ok hb /\ request_bytes r = Ok rb /\
    b = PutUint32 (u32 (u32 (len (varint (u64 (len hb)) ++ hb ++ varint (u64 (len rb)) ++ rb)) + n)) ++
        varint (u64 (len hb)) ++ hb ++ varint (u64 (len rb)) ++ rb.
Proof.
  unfold frame_head. destruct req as [r|]; [|done]. intros H. ok_inv.
  rewrite MarshalAppend_header_spec in Hr. ok_inv. rewrite MarshalAppend_request_spec in Hr0. ok_inv.
  case_bool_decide; [done|]. ok_inv. exists r, r2, r3.
  rewrite (Size_header_spec _ _ Hr1), (Size_request_spec _ _ Hr2) in *. split_and!; [done..|].
  subst. rewrite !AppendVarint_spec, !SizeVarint_spec, !len_app, !Z.add_assoc, <- !app_assoc. done.
Qed.

(** The size check of [send] never trips. *)
Lemma frame_head_no_panic header req n : frame_head header req n <> Panic.
Proof.
  unfold frame_head. destruct req as [r|]; [|done]. destruct (marshal_no_panic header r) as [Hh Hq].
  rewrite MarshalAppend_header_spec. destruct (header_bytes header) as [hb| |] eqn:Eh; try done. simpl.
  rewrite MarshalAppend_request_spec. destruct (request_bytes r) as [rb| |] eqn:Er; try done. simpl.
  rewrite (Size_header_spec _ _ Eh), (Size_request_spec _ _ Er), !AppendVarint_spec, !SizeVarint_spec.
  rewrite bool_decide_eq_false_2; [done|]. rewrite !len_app. intros Hn. apply Hn.
  change (len (PutUint32 _)) with 4. lia.
Qed.

(** The length announced in the header is that of the cellblocks written. *)
Lemma prepare_len ctxErr other compressor site r h req cbs n meta r' :
  prepare ctxErr other compressor site r h = Ok (req, cbs, n, meta, r') ->
  n = u32 (len (concat (default [] cbs))) /\
  meta = (if uses_cellblocks r then Some n else None) /\ (uses_cellblocks r = false -> cbs = None).
Proof.
  unfold prepare. destruct (uses_cellblocks r) eqn:Hu; intros H; ok_inv; [|by simplify_eq].
  destruct r0 as [[[req0 cbs0] sz] r1]. ok_inv. simplify_eq. split; [|done]. simpl.
  assert (sz = u32 (len (concat cbs0))) as Hsz.
  { destruct r as [[]|m]; simpl in Hr; try done.
    - apply obind_Ok_inv in Hr as ([[a b] c] & Hm & Hr). simplify_eq. apply Mutate_cellblocks_len in Hm.
      by rewrite Z.sub_0_r in Hm.
    - apply obind_Ok_inv in Hr as ([[[a b] c] d] & Hm & Hr). simplify_eq. by eapply multi_cellblocks_len. }
  destruct compressor as [C|]; ok_inv; simplify_eq; simpl; [by rewrite app_nil_r|done].
Qed.

(** C30. What [send] writes for a call is a frame a server can take apart: the
    first four bytes are the length of the rest, the rest is the length-delimited
    header with the id and the name of the call, the length-delimited request
    and the cellblocks, and the header announces exactly the length of the
    cellblocks, also for a batch, whose blocks come from several calls and
    regions, and after compression. *)
Theorem send_frame_layout ctxErr other compressor site r id h bufs r' :
  send_buffers ctxErr other compressor site r id h = Ok (bufs, r') -> len (concat bufs) < 2 ^ 32 ->
  exists hb rb cbs, let header := mkRequestHeader (Some id) (rpc_Name r) true
      (if uses_cellblocks r then Some (len cbs) else None) in
    let body := delimited hb ++ delimited rb ++ cbs in
    header_bytes header = Ok hb /\ (exists req, request_bytes req = Ok rb) /\
    (uses_cellblocks r = false -> cbs = []) /\
    concat bufs = PutUint32 (len body) ++ body /\
    ConsumeBytes body = Some (hb, len (delimited hb)) /\
    ConsumeBytes (drop (length (delimited hb)) body) = Some (rb, len (delimited rb)).
Proof.
  unfold send_buffers. intros H Hlen. ok_inv. destruct r0 as [[[[req cbs] n] meta] r1]. ok_inv. simplify_eq.
  apply prepare_len in Hr as (Hn & Hmeta & Hnone). apply frame_head_spec in Hr0 as (rq & hb & rb & -> & Hhb & Hrb & ->).
  set (c := concat (default [] cbs)) in *. cbn [concat] in Hlen. fold c in Hlen.
  rewrite <- app_assoc, len_app in Hlen. change (len (PutUint32 _)) with 4 in Hlen. rewrite !len_app in Hlen.
  pose proof (len_nonneg c). pose proof (len_nonneg hb). pose proof (len_nonneg rb).
  pose proof (len_nonneg (varint (u64 (len hb)))). pose proof (len_nonneg (varint (u64 (len rb)))).
  rewrite u32_small in Hn by lia. assert (u64 (len hb) = len hb /\ u64 (len rb) = len rb) as [E1 E2]
    by (unfold u64; split; apply Z.mod_small; lia).
  rewrite E1, E2 in *.
  exists hb, rb, c. subst n meta. cbn zeta. split_and!.
  - by destruct (uses_cellblocks r).
  - by exists rq.
  - intros Hu. unfold c. by rewrite (Hnone Hu).
  - cbn [concat]. fold c. unfold delimited. rewrite <- !app_assoc. do 2 f_equal.
    rewrite u32_add_l, u32_small by (rewrite !len_app; lia). rewrite !len_app. lia.
  - unfold delimited at 1 3. rewrite <- app_assoc, ConsumeBytes_spec by lia. by rewrite len_app.
  - rewrite drop_app_length. unfold delimited at 1. rewrite <- app_assoc, ConsumeBytes_spec by lia.
    unfold delimited. by rewrite len_app.
Qed.

Lemma Uint32_Put {E : Type} z : 0 <= z < 2 ^ 32 -> @Uint32 E (PutUint32 z) = Ok z.
Proof.
  intros Hz. unfold Uint32, PutUint32. rewrite <- (app_nil_r (be_encode 4 z)). by rewrite UintN_encode.
Qed.

(** A frame from the server. *)
Definition response_body (hb rb cbs : bytes) : bytes := delimited hb ++ delimited rb ++ cbs.

Lemma ReadFull_app (a b : bytes) n : n = length a -> ReadFull (a ++ b) n = Ok (a, b).
Proof.
  intros ->. unfold ReadFull. rewrite bool_decide_eq_true_2 by (rewrite length_app; lia).
  by rewrite take_app_length, drop_app_length.
Qed.

Lemma receive_frame_spec hb rb cbs rest header id :
  len (response_body hb rb cbs) < 2 ^ 32 -> Unmarshal_header hb = Ok header -> RespH_CallId header = Some id ->
  receive_frame (PutUint32 (len (response_body hb rb cbs)) ++ response_body hb rb cbs ++ rest)
  = Ok (response_body hb rb cbs, header, len (delimited hb), id, rest).
Proof.
  intros Hlen Hh Hid. unfold receive_frame. rewrite ReadFull_app by done. cbn [obind fst snd].
  pose proof (len_nonneg (response_body hb rb cbs)). rewrite Uint32_Put by lia. cbn [obind].
  rewrite ReadFull_app by (unfold len; lia). cbn [obind fst snd].
  assert (len hb < 2 ^ 64).
  { unfold response_body, delimited in Hlen. rewrite !len_app in Hlen. pose proof (len_nonneg rb).
    pose proof (len_nonneg cbs). pose proof (len_nonneg (varint (len hb))). pose proof (len_nonneg (varint (len rb))). lia. }
  unfold response_body, delimited at 1. rewrite <- app_assoc, ConsumeBytes_spec by done.
  rewrite Hh. cbn [obind map_err]. rewrite Hid. unfold delimited. by rewrite len_app.
Qed.
Lemma response_body_room hb rb cbs :
  len (response_body hb rb cbs) < 2 ^ 32 -> len hb < 2 ^ 64 /\ len rb < 2 ^ 64 /\ len cbs < 2 ^ 32.
Proof.
  unfold response_body, delimited. rewrite !len_app. pose proof (len_nonneg rb). pose proof (len_nonneg cbs).
  pose proof (len_nonneg hb). pose proof (len_nonneg (varint (len hb))). pose proof (len_nonneg (varint (len rb))). lia.
Qed.

(** The message, then the cells. *)
Lemma decode_response_spec compressor r hb rb cbs header m0 :
  len (response_body hb rb cbs) < 2 ^ 32 -> RespH_Exception header = None ->
  Unmarshal_response r rb = Ok m0 ->
  decode_response compressor r (response_body hb rb cbs) header (len (delimited hb)) =
  match rpc_DeserializeCellBlocks r with
  | Some d =>
      let cellsLen := default 0 (default None (RespH_CellBlockMeta header)) in
      if bool_decide (cellsLen > 0) then decode_cells compressor d m0 (response_body hb rb cbs) cellsLen else Ok m0
  | None => Ok m0
  end.
Proof.
  intros Hlen Hex Hm. destruct (response_body_room _ _ _ Hlen) as (_ & Hrb & _). unfold decode_response. rewrite Hex.
  unfold response_body at 1. rewrite slice_suffix by done. cbn [obind].
  unfold delimited at 1. rewrite <- app_assoc, ConsumeBytes_spec by done. by rewrite Hm.
Qed.

Lemma decode_cells_spec compressor d m0 hb rb cbs cellsLen :
  len (response_body hb rb cbs) < 2 ^ 32 -> 0 < cellsLen < 2 ^ 32 ->
  decode_cells compressor d m0 (response_body hb rb cbs) cellsLen =
  if bool_decide (cellsLen <= len (response_body hb rb cbs)) then
    let* b := slice_from (response_body hb rb cbs) (len (response_body hb rb cbs) - cellsLen) in
    let* b :=
      match compressor with
      | Some C => map_err (fun _ => RetryableError "failed to decompress the response") (@decompressCellblocks C b)
      | None => Ok b
      end in
    let* x := d m0 b in
    if bool_decide (snd x < len b) then Err (RetryableError "short read") else Ok (fst x)
  else Panic.
Proof.
  intros Hlen Hc. pose proof (len_nonneg (response_body hb rb cbs)) as Hnn. unfold decode_cells.
  rewrite (u32_small (len _)) by lia. case_bool_decide as Hle; [by rewrite u32_small by lia|].
  assert (u32 (len (response_body hb rb cbs) - cellsLen) = len (response_body hb rb cbs) - cellsLen + 2 ^ 32) as ->.
  { unfold u32. rewrite <- (Z_mod_plus_full _ 1), Z.mul_1_l. apply Z.mod_small. lia. }
  unfold slice_from, slice. rewrite (bool_decide_eq_false_2 (0 <= _ <= _)) by lia. done.
Qed.

(** C31. A response frame is decoded as it was sent: the reader consumes the
    frame and nothing of the next one, finds the id of the call, and, when the
    announced cellblocks (decompressed, if the client compresses) deserialize
    entirely into the message of the response, delivers that message with its
    cells; a response without cellblocks is delivered as it is. *)
Theorem receive_decodes_frame compressor r hb rb cbs rest header id m0 :
  len (response_body hb rb cbs) < 2 ^ 32 ->
  Unmarshal_header hb = Ok header -> RespH_CallId header = Some id -> RespH_Exception header = None ->
  Unmarshal_response r rb = Ok m0 ->
  receive_frame (PutUint32 (len (response_body hb rb cbs)) ++ response_body hb rb cbs ++ rest)
    = Ok (response_body hb rb cbs, header, len (delimited hb), id, rest) /\
  (RespH_CellBlockMeta header = None ->
    decode_response compressor r (response_body hb rb cbs) header (len (delimited hb)) = Ok m0) /\
  (forall d plain m, RespH_CellBlockMeta header = Some (Some (len cbs)) -> cbs <> [] ->
    rpc_DeserializeCellBlocks r = Some d ->
    match compressor with Some C => @decompressCellblocks C cbs = Ok plain | None => plain = cbs end ->
    d m0 plain = Ok (m, len plain) ->
    decode_response compressor r (response_body hb rb cbs) header (len (delimited hb)) = Ok m).
Proof.
  intros Hlen Hh Hid Hex Hm. split; [by apply receive_frame_spec|].
  destruct (response_body_room _ _ _ Hlen) as (_ & _ & Hcb). split.
  - intros Hmeta. rewrite (decode_response_spec _ _ _ _ _ _ m0) by done. rewrite Hmeta. by destruct (rpc_DeserializeCellBlocks r).
  - intros d plain m Hmeta Hne Hd Hplain Hcells. rewrite (decode_response_spec _ _ _ _ _ _ m0) by done.
    rewrite Hd, Hmeta. assert (0 < len cbs) by (destruct cbs; [done|]; rewrite len_cons; pose proof (len_nonneg cbs); lia).
    cbn zeta. change (default None (Some (Some (len cbs)))) with (Some (len cbs)).
    change (default 0 (Some (len cbs))) with (len cbs). rewrite bool_decide_eq_true_2 by lia.
    rewrite decode_cells_spec by lia.
    assert (len (response_body hb rb cbs) = len (delimited hb ++ delimited rb) + len cbs) as Hsum
      by (unfold response_body; rewrite app_assoc; apply len_app).
    pose proof (len_nonneg (delimited hb ++ delimited rb)). rewrite bool_decide_eq_true_2 by lia.
    rewrite Hsum, Z.add_simpl_r. unfold response_body. rewrite app_assoc, slice_suffix by done. cbn [obind].
    destruct compressor as [C|]; [rewrite Hplain|subst plain]; cbn [obind map_err]; rewrite Hcells; simpl;
      by rewrite bool_decide_eq_false_2 by lia.
Qed.

(** The length of the cellblocks that a response announces is not checked
    against the length of the response: when it is greater, the reader slices
    out of bounds and the process panics. *)
Theorem receive_bad_cellblock_length_panics compressor r hb rb cbs header m0 d n :
  len (response_body hb rb cbs) < n -> n < 2 ^ 32 ->
  RespH_Exception header = None -> RespH_CellBlockMeta header = Some (Some n) ->
  Unmarshal_response r rb = Ok m0 -> rpc_DeserializeCellBlocks r = Some d ->
  decode_response compressor r (response_body hb rb cbs) header (len (delimited hb)) = Panic.
Proof.
  intros Hn Hn' Hex Hmeta Hm Hd. pose proof (len_nonneg (response_body hb rb cbs)).
  rewrite (decode_response_spec _ _ _ _ _ _ m0) by (done || lia). rewrite Hd, Hmeta. cbn zeta.
  change (default None (Some (Some n))) with (Some n). change (default 0 (Some n)) with n.
  rewrite bool_decide_eq_true_2 by lia. rewrite decode_cells_spec by lia. by rewrite bool_decide_eq_false_2 by lia.
Qed.

(** Reading a frame never panics, and every failure before the call of the
    response is known (a short read, a header that does not decode, a missing
    id) is a ServerError, which closes the client. *)
Theorem receive_frame_errors stream :
  (exists b header n id rest, receive_frame stream = Ok (b, header, n, id, rest) /\
    RespH_CallId header = Some id /\ stream = PutUint32 (len b) ++ b ++ rest) \/
  (exists e, receive_frame stream = Err (ServerError e)).
Proof.
  unfold receive_frame, ReadFull. case_bool_decide as H4; [|right; by eexists]. cbn [obind fst snd].
  assert (length (take 4 stream) = 4%nat) as Hl4 by (rewrite length_take; lia).
  destruct (Uint32 (E := rpc_error) (take 4 stream)) as [size| |] eqn:Hsize.
  2-3: unfold Uint32, UintN in Hsize; rewrite bool_decide_eq_true_2 in Hsize by (unfold len; lia); done.
  pose proof (UintN_Ok_inv _ _ _ Hsize) as (_ & _ & Hrange & Henc). cbn [obind]. rewrite take_ge in Henc by lia.
  case_bool_decide as Hs; [|right; by eexists]. cbn [obind fst snd].
  set (b := take (Z.to_nat size) (drop 4 stream)) in *.
  destruct (ConsumeBytes b) as [[hb n]|]; [|right; by eexists].
  destruct (Unmarshal_header hb) as [header|e|] eqn:Hh; cbn [obind map_err].
  - destruct (RespH_CallId header) as [id|] eqn:Hid; [|right; by eexists]. left.
    exists b, header, n, id, (drop (Z.to_nat size) (drop 4 stream)). split_and!; [done..|].
    assert (len b = size) as -> by (unfold b, len; rewrite length_take; lia).
    unfold PutUint32. rewrite <- Henc. unfold b. by rewrite take_drop, take_drop.
  - right. by eexists.
  - by destruct (unmarshal_no_panic hb).
Qed.

End Frames.

(** ** A runtime

    Lengths take eight bytes; a header or a request is a few fixed bytes, and
    the response is the get of the sample cells. *)

Definition sample_header : ResponseHeader :=
  mkResponseHeader (Some 7) None (Some (Some (len (encode_cells sample_cells)))).

Definition sample_response (cells : list Cell) : Message :=
  MGet (mkGetResponse (Some (mkResult cells (Some 2) None None None))).

Definition fixed_ConsumeBytes (b : bytes) : option (bytes * Z) :=
  match Uint64 (E := error) b with
  | Ok n => if bool_decide (8 + n <= len b) then Some (take (Z.to_nat n) (drop 8 b), 8 + n) else None
  | _ => None
  end.

Definition fixed_runtime : Protobuf := {|
  AppendVarint b n := b ++ PutUint64 n;
  SizeVarint n := 8;
  ConsumeBytes := fixed_ConsumeBytes;
  Size_header _ := 1;
  Size_request _ := 1;
  MarshalAppend_header b _ := Ok (b ++ [x01]);
  MarshalAppend_request b _ := Ok (b ++ [x02]);
  Marshal_connection _ := Ok [x03];
  Unmarshal_header b := if bool_decide (b = [x01]) then Ok sample_header else Err "bad header"%string;
  Unmarshal_response _ b := if bool_decide (b = [x02]) then Ok (sample_response []) else Err "bad response"%string;
|}.

Lemma fixed_runtime_spec : ProtobufSpec fixed_runtime.
Proof.
  refine {| varint := PutUint64 : Z -> bytes; header_bytes := fun _ => Ok [x01] : outcome error bytes;
            request_bytes := fun _ => Ok [x02] : outcome error bytes |}; try done.
  - intros m rest Hm. pose proof (len_nonneg m). pose proof (len_nonneg rest).
    change (@ConsumeBytes fixed_runtime) with fixed_ConsumeBytes. unfold fixed_ConsumeBytes.
    change (len (PutUint64 (len m))) with 8.
    assert (Uint64 (E := error) (PutUint64 (len m) ++ m ++ rest) = Ok (len m)) as ->
      by (by apply (UintN_encode 8)).
    rewrite bool_decide_eq_true_2 by (rewrite !len_app; change (len (PutUint64 (len m))) with 8; lia).
    rewrite (drop_app_length' (PutUint64 (len m))) by done. rewrite take_app_length' by (unfold len; lia). done.
  - intros h d [= <-]. done.
  - intros r d [= <-]. done.
  - intros b. simpl. by case_bool_decide.
Defined.

Definition sent_put : rpc :=
  RpcCall (CallMutate (Mutate_setBase (set_region (Some 0%nat)) (sample_put sample_values))).

Definition sent_bufs : list bytes :=
  match @send_buffers key_order fixed_runtime (fun _ => false) (fun _ => None) None [] sent_put 1 one_region_heap with
  | Ok (bufs, _) => bufs
  | _ => []
  end.

Lemma send_frame_layout_witness :
  @send_buffers key_order fixed_runtime (fun _ => false) (fun _ => None) None [] sent_put 1 one_region_heap
  = Ok (sent_bufs, sent_put) /\ exists body, concat sent_bufs = PutUint32 (len body) ++ body.
Proof.
  assert (@send_buffers key_order fixed_runtime (fun _ => false) (fun _ => None) None [] sent_put 1 one_region_heap
    = Ok (sent_bufs, sent_put)) as Hs by (vm_compute; reflexivity).
  split; [exact Hs|].
  destruct (@send_frame_layout key_order fixed_runtime fixed_runtime_spec _ _ _ _ _ _ _ sent_bufs sent_put Hs)
    as (hb & rb & cbs & _ & _ & _ & Hb & _); [vm_compute; reflexivity|].
  eexists. exact Hb.
Defined.

Lemma receive_decodes_frame_witness :
  @decode_response fixed_runtime None (RpcCall (sample_get 0))
    (@response_body fixed_runtime fixed_runtime_spec [x01] [x02] (encode_cells sample_cells)) sample_header 9
  = Ok (sample_response sample_cells).
Proof.
  assert (len (@response_body fixed_runtime fixed_runtime_spec [x01] [x02] (encode_cells sample_cells)) < 2 ^ 32)
    as Hlen by (vm_compute; reflexivity).
  destruct (@receive_decodes_frame fixed_runtime fixed_runtime_spec None (RpcCall (sample_get 0)) [x01] [x02]
    (encode_cells sample_cells) [] sample_header 7 (sample_response []) Hlen eq_refl eq_refl eq_refl eq_refl)
    as (_ & _ & Hd).
  eapply Hd; [reflexivity|vm_compute; discriminate|reflexivity..|vm_compute; reflexivity].
Defined.

Lemma receive_bad_cellblock_length_panics_witness :
  @decode_response fixed_runtime None (RpcCall (sample_get 0))
    (@response_body fixed_runtime fixed_runtime_spec [x01] [x02] []) (mkResponseHeader (Some 7) None (Some (Some 100))) 9
  = Panic.
Proof.
  apply (@receive_bad_cellblock_length_panics fixed_runtime fixed_runtime_spec None (RpcCall (sample_get 0)) [x01] [x02] []
    (mkResponseHeader (Some 7) None (Some (Some 100))) (sample_response [])
    (fun m b => match m with MGet g => with_cells MGet (Get_DeserializeCellBlocks g b) | _ => Panic end) 100);
    [vm_compute; reflexivity|lia|reflexivity..].
Defined.

Lemma receive_frame_errors_witness : exists e, @receive_frame fixed_runtime [x00; x00] = Err (ServerError e).
Proof.
  destruct (@receive_frame_errors fixed_runtime fixed_runtime_spec [x00; x00]) as [(b & h & n & id & rest & H & _)|H].
  - vm_compute in H. discriminate.
  - exact H.
Defined.
