(* ===== verification/RegionClient.v ===== *)
(** * The region client: region/client.go

    One connection to a region server, shared by the goroutines that send calls
    ([trySend]), the one that reads the responses ([receiveRPCs]) and whoever
    runs [fail].  The model has the state the mutexes protect and a step for
    each atomic piece of code: a label says which goroutine moves and what the
    network or the server did, [do_step] what then happens.  A call is a token;
    a send on its result channel is an entry of [s_log].

    The claims follow each token: it is with its sender, in the map of sent
    calls, taken by [fail], with the reader, or answered. *)

From S2P Require Import Prelude Pb Hrpc RpcError Multi.

Abbreviation token := nat.

(** ** The shared state *)

Record rclient := mkClient {
  c_done : bool;                (* the done channel is closed *)
  c_connClosed : bool;
  c_sent : gmap Z token;
  c_id : Z;
  c_inFlight : Z;
  c_deadline : bool;            (* a read deadline is armed *)
}.

Definition newClient : rclient := mkClient false false ∅ 0 0 false.

(** [ok]: the call of [SetReadDeadline] succeeded. *)
Definition inFlightUp (ok : bool) (c : rclient) : bool * rclient :=
  (ok, mkClient (c_done c) (c_connClosed c) (c_sent c) (c_id c) (u32 (c_inFlight c + 1))
         (if ok then true else c_deadline c)).

Definition inFlightDown (ok : bool) (c : rclient) : bool * rclient :=
  let n := u32 (c_inFlight c - 1) in
  if bool_decide (n = 0) then
    (ok, mkClient (c_done c) (c_connClosed c) (c_sent c) (c_id c) n (if ok then false else c_deadline c))
  else (true, mkClient (c_done c) (c_connClosed c) (c_sent c) (c_id c) n (c_deadline c)).

Definition registerRPC (rpc : token) (c : rclient) : Z * rclient :=
  let currID := u32 (c_id c + 1) in
  (currID, mkClient (c_done c) (c_connClosed c) (<[currID := rpc]> (c_sent c)) currID (c_inFlight c)
             (c_deadline c)).

Definition unregisterRPC (id : Z) (c : rclient) : option token * rclient :=
  (c_sent c !! id,
   mkClient (c_done c) (c_connClosed c) (delete id (c_sent c)) (c_id c) (c_inFlight c) (c_deadline c)).

(** The pieces of [fail] and [failSentRPCs]. *)
Definition closeDone (c : rclient) : rclient :=
  mkClient true (c_connClosed c) (c_sent c) (c_id c) (c_inFlight c) (c_deadline c).

Definition closeConn (c : rclient) : rclient :=
  mkClient (c_done c) true (c_sent c) (c_id c) (c_inFlight c) (c_deadline c).

Definition takeSent (c : rclient) : gmap Z token * rclient :=
  (c_sent c, mkClient (c_done c) (c_connClosed c) ∅ (c_id c) (c_inFlight c) (c_deadline c)).

(** ** The goroutines *)

(** Where a goroutine that runs [trySend] on a call is. *)
Inductive wpc :=
| Ready                            (* about to register the call *)
| Registered (id : Z)              (* about to marshal and write *)
| Written (id : Z)                 (* about to run inFlightUp *)
| Failed (id : Z) (e : rpc_error)  (* send returned the error *)
| Finished (id : Z)                (* trySend has returned and the error, if any, was delivered *)
| Refused.                         (* QueueRPC did not send the call *)

(** Where the goroutine that runs [receiveRPCs] is. *)
Inductive rpc_reader :=
| RReading
| RUnregistered (t : token)        (* about to run inFlightDown *)
| RAnswering (t : token)           (* about to answer, or to find the context expired *)
| RStopped.

(** How far [fail] is; it runs once and others wait for it. *)
Inductive fphase := NotFailed | DoneClosed | ConnClosed | Swapped | Completed.

#[global] Instance fphase_eq_dec : EqDecision fphase.
Proof. solve_decision. Defined.

Record sys := mkSys {
  s_cl : rclient;
  s_threads : gmap token wpc;
  s_fail : fphase;
  s_pending : list token;                      (* taken by failSentRPCs, not yet told *)
  s_reader : rpc_reader;
  s_log : list (token * RPCResult);
  s_dropped : list token;                      (* context expired when the response came *)
  s_lost : list token;                         (* unregistered by receive, which then failed *)
  s_submitted : list token;
}.

Definition init_sys : sys := mkSys newClient ∅ NotFailed [] RReading [] [] [] [].

Inductive label :=
| LSubmit (t : token)                          (* QueueRPC or flush calls trySend *)
| LRefuse (t : token) (expired : bool)         (* the other two cases of QueueRPC *)
| LRegister (t : token)
| LMarshalError (t : token) (e : error)
| LWrite (t : token) (ok : bool)
| LUp (t : token) (ok : bool)                  (* inFlightUp *)
| LUnregister (t : token)                      (* the error path of trySend *)
| LFail                                        (* someone calls fail *)
| LCloseConn
| LSwap
| LTell                                        (* failSentRPCs answers one call *)
| LReadError                                   (* receive fails before it has a call *)
| LReceive (id : Z)
| LDown (ok : bool)                            (* inFlightDown *)
| LExpired
| LDeliver (res : RPCResult)                   (* returnResult by the reader *)
| LReaderDone.                                 (* receiveRPCs sees done closed *)

Definition set_cl (c : rclient) (s : sys) : sys :=
  mkSys c (s_threads s) (s_fail s) (s_pending s) (s_reader s) (s_log s) (s_dropped s) (s_lost s) (s_submitted s).

Definition set_thread (t : token) (p : wpc) (s : sys) : sys :=
  mkSys (s_cl s) (<[t := p]> (s_threads s)) (s_fail s) (s_pending s) (s_reader s) (s_log s) (s_dropped s)
    (s_lost s) (s_submitted s).

Definition set_fail (f : fphase) (pending : list token) (s : sys) : sys :=
  mkSys (s_cl s) (s_threads s) f pending (s_reader s) (s_log s) (s_dropped s) (s_lost s) (s_submitted s).

Definition set_reader (r : rpc_reader) (s : sys) : sys :=
  mkSys (s_cl s) (s_threads s) (s_fail s) (s_pending s) r (s_log s) (s_dropped s) (s_lost s) (s_submitted s).

Definition tell (t : token) (r : RPCResult) (s : sys) : sys :=
  mkSys (s_cl s) (s_threads s) (s_fail s) (s_pending s) (s_reader s) (s_log s ++ [(t, r)]) (s_dropped s)
    (s_lost s) (s_submitted s).

Definition drop_token (t : token) (s : sys) : sys :=
  mkSys (s_cl s) (s_threads s) (s_fail s) (s_pending s) (s_reader s) (s_log s) (s_dropped s ++ [t])
    (s_lost s) (s_submitted s).

Definition lose_token (t : token) (s : sys) : sys :=
  mkSys (s_cl s) (s_threads s) (s_fail s) (s_pending s) (s_reader s) (s_log s) (s_dropped s)
    (s_lost s ++ [t]) (s_submitted s).

Definition submit (t : token) (p : wpc) (s : sys) : sys :=
  mkSys (s_cl s) (<[t := p]> (s_threads s)) (s_fail s) (s_pending s) (s_reader s) (s_log s) (s_dropped s)
    (s_lost s) (s_submitted s ++ [t]).

(** [failOnce]: the first call closes [done]; the others do nothing. *)
Definition start_fail (s : sys) : sys :=
  match s_fail s with
  | NotFailed => set_fail DoneClosed [] (set_cl (closeDone (s_cl s)) s)
  | _ => s
  end.

Definition is_server_error (e : rpc_error) : bool :=
  match e with ServerError _ => true | _ => false end.

Section Step.
Context {HO : RangeOrder}.

(** One atomic step; [None] when the goroutine is not there or has to wait. *)
Definition do_step (l : label) (s : sys) : option sys :=
  match l with
  | LSubmit t =>
      match s_threads s !! t with
      | Some _ => None
      | None => Some (submit t Ready s)
      end
  | LRefuse t expired =>
      match s_threads s !! t with
      | Some _ => None
      | None =>
          let s' := submit t Refused s in
          if expired then Some (drop_token t s')
          else if c_done (s_cl s) then Some (tell t (errResult ErrClientClosed) s')
          else None
      end
  | LRegister t =>
      match s_threads s !! t with
      | Some Ready =>
          let '(id, c) := registerRPC t (s_cl s) in
          Some (set_thread t (Registered id) (set_cl c s))
      | _ => None
      end
  | LMarshalError t e =>
      match s_threads s !! t with
      | Some (Registered id) => Some (set_thread t (Failed id (PlainError e)) s)
      | _ => None
      end
  | LWrite t ok =>
      match s_threads s !! t with
      | Some (Registered id) =>
          (* a closed connection cannot be written to *)
          if ok && c_connClosed (s_cl s) then None
          else Some (set_thread t (if ok then Written id else Failed id (ServerError "write")) s)
      | _ => None
      end
  | LUp t ok =>
      match s_threads s !! t with
      | Some (Written id) =>
          if ok && c_connClosed (s_cl s) then None
          else
            let '(ok, c) := inFlightUp ok (s_cl s) in
            Some (set_thread t (if (ok : bool) then Finished id else Failed id (ServerError "deadline"))
              (set_cl c s))
      | _ => None
      end
  | LUnregister t =>
      match s_threads s !! t with
      | Some (Failed id e) =>
          (* a ServerError first runs fail, or waits for it *)
          if is_server_error e && negb (bool_decide (s_fail s = Completed)) then None
          else
            let '(r, c) := unregisterRPC id (s_cl s) in
            let s := set_thread t (Finished id) (set_cl c s) in
            match r with
            | Some _ => Some (tell t (errResult e) s)
            | None => Some s
            end
      | _ => None
      end
  | LFail => Some (start_fail s)
  | LCloseConn =>
      match s_fail s with
      | DoneClosed => Some (set_fail ConnClosed [] (set_cl (closeConn (s_cl s)) s))
      | _ => None
      end
  | LSwap =>
      match s_fail s with
      | ConnClosed =>
          let '(sent, c) := takeSent (s_cl s) in
          Some (set_fail Swapped (snd <$> range [] sent) (set_cl c s))
      | _ => None
      end
  | LTell =>
      match s_fail s, s_pending s with
      | Swapped, t :: ts => Some (tell t (errResult ErrClientClosed) (set_fail Swapped ts s))
      | Swapped, [] => Some (set_fail Completed [] s)
      | _, _ => None
      end
  | LReadError =>
      match s_reader s with
      | RReading => Some (set_reader RStopped (start_fail s))
      | _ => None
      end
  | LReceive id =>
      match s_reader s with
      | RReading =>
          let '(r, c) := unregisterRPC id (s_cl s) in
          match r with
          | None => Some (set_reader RStopped (start_fail s))  (* unexpected call ID *)
          | Some t => Some (set_reader (RUnregistered t) (set_cl c s))
          end
      | _ => None
      end
  | LDown ok =>
      match s_reader s with
      | RUnregistered t =>
          if ok && c_connClosed (s_cl s) then None
          else
            let '(ok, c) := inFlightDown ok (s_cl s) in
            let s := set_cl c s in
            if (ok : bool) then Some (set_reader (RAnswering t) s)
            else Some (set_reader RStopped (start_fail (lose_token t s)))
      | _ => None
      end
  | LExpired =>
      match s_reader s with
      | RAnswering t => Some (set_reader RReading (drop_token t s))
      | _ => None
      end
  | LDeliver res =>
      match s_reader s with
      | RAnswering t =>
          let s := tell t res s in
          match Res_Error res with
          | Some (ServerError _) => Some (set_reader RStopped (start_fail s))
          | _ => Some (set_reader RReading s)
          end
      | _ => None
      end
  | LReaderDone =>
      match s_reader s with
      | RReading => if c_done (s_cl s) then Some (set_reader RStopped s) else None
      | _ => None
      end
  end.

Fixpoint do_steps (ls : list label) (s : sys) : option sys :=
  match ls with
  | [] => Some s
  | l :: ls => do_step l s ≫= do_steps ls
  end.

End Step.

(** ** Where the tokens are *)

Definition occ (t : token) (l : list token) : nat := length (filter (fun x => x = t) l).

Lemma occ_app t l k : occ t (l ++ k) = (occ t l + occ t k)%nat.
Proof. unfold occ. by rewrite filter_app, length_app. Qed.

Lemma occ_cons t x l : occ t (x :: l) = ((if decide (x = t) then 1 else 0) + occ t l)%nat.
Proof. unfold occ. rewrite filter_cons. by case_decide. Qed.

Lemma occ_nil t : occ t [] = 0%nat.
Proof. done. Qed.

Lemma occ_elem t l : t ∈ l <-> occ t l <> 0%nat.
Proof.
  induction l as [|x l IH]; [rewrite elem_of_nil, occ_nil; done|]. rewrite occ_cons, elem_of_cons, IH.
  case_decide; split; intros; subst; (lia || (left; done) || (right; lia) || intuition congruence || auto).
Qed.

Lemma occ_NoDup l : NoDup l <-> forall t, (occ t l <= 1)%nat.
Proof.
  induction l as [|x l IH]; [split; [intros _ t; rewrite occ_nil; lia|constructor]|].
  rewrite NoDup_cons, IH, occ_elem. split.
  - intros [Hx Hl] t. rewrite occ_cons. specialize (Hl t). case_decide; subst; lia.
  - intros H. split; [specialize (H x)|intros t; specialize (H t)]; rewrite occ_cons in H;
      case_decide; try done; lia.
Qed.

Definition pc_id (p : wpc) : option Z :=
  match p with
  | Ready | Refused => None
  | Registered id | Written id | Failed id _ | Finished id => Some id
  end.

(** With its sender. *)
Definition at_ready (t : token) (th : gmap token wpc) : nat :=
  match th !! t with Some Ready => 1 | _ => 0 end.

(** In the map of sent calls, under the id its sender was given. *)
Definition at_sent (t : token) (sent : gmap Z token) (th : gmap token wpc) : nat :=
  match th !! t ≫= pc_id with
  | Some id => if decide (sent !! id = Some t) then 1 else 0
  | None => 0
  end.

Definition at_reader (t : token) (r : rpc_reader) : nat :=
  match r with
  | RUnregistered x | RAnswering x => if decide (x = t) then 1 else 0
  | RReading | RStopped => 0
  end.

Definition swapped (f : fphase) : Prop := f = Swapped \/ f = Completed.

Definition unsent_pc (p : wpc) : Prop :=
  match p with Registered _ | Failed _ _ => True | _ => False end.

Definition not_ready (kv : token * wpc) : Prop := pc_id kv.2 <> None.

#[global] Instance not_ready_dec kv : Decision (not_ready kv).
Proof. unfold not_ready. apply _. Defined.

(** The map of sent calls and the goroutines agree on the ids. *)
Record core (sent : gmap Z token) (cid : Z) (th : gmap token wpc) (f : fphase) : Prop := {
  core_sent id t : sent !! id = Some t -> exists p,
    th !! t = Some p /\ pc_id p = Some id /\ (swapped f -> unsent_pc p);
  core_id t p id : th !! t = Some p -> pc_id p = Some id -> 0 < id <= cid;
  core_inj t t' p p' id : th !! t = Some p -> th !! t' = Some p' ->
    pc_id p = Some id -> pc_id p' = Some id -> t = t';
  core_size : cid = Z.of_nat (size (filter not_ready th));
}.

Definition core_of (s : sys) : Prop :=
  core (c_sent (s_cl s)) (c_id (s_cl s)) (s_threads s) (s_fail s).

Definition count (t : token) (s : sys) : nat :=
  at_ready t (s_threads s) + at_sent t (c_sent (s_cl s)) (s_threads s) + occ t (s_pending s) +
  at_reader t (s_reader s) + occ t (s_log s).*1 + occ t (s_dropped s) + occ t (s_lost s).

Record inv (s : sys) : Prop := {
  inv_core : core_of s;
  inv_count t : count t s = occ t (s_submitted s);
  inv_threads t : is_Some (s_threads s !! t) <-> t ∈ s_submitted s;
  inv_nodup : NoDup (s_submitted s);
  inv_conn : s_fail s <> NotFailed -> s_fail s <> DoneClosed -> c_connClosed (s_cl s) = true;
  inv_pending : s_fail s <> Swapped -> s_pending s = [];
  inv_done : s_fail s <> NotFailed <-> c_done (s_cl s) = true;
}.

Lemma inv_init : inv init_sys.
Proof.
  split; simpl; try done.
  - intros t. rewrite lookup_empty, elem_of_nil. split; [by intros []|done].
  - constructor.
Qed.

(** *** Moves of a goroutine *)

Lemma thread_insert_dom (th : gmap token wpc) t p p' :
  th !! t = Some p -> forall t0, is_Some (<[t := p']> th !! t0) <-> is_Some (th !! t0).
Proof.
  intros Hp t0. destruct (decide (t = t0)) as [<-|?]; [|by rewrite lookup_insert_ne].
  rewrite lookup_insert_eq, Hp. split; intros _; by eexists.
Qed.

(** It moves on and keeps its id. *)
Lemma move_counts (th : gmap token wpc) t p p' sent t0 :
  th !! t = Some p -> pc_id p <> None -> pc_id p' = pc_id p ->
  at_ready t0 (<[t := p']> th) = at_ready t0 th /\ at_sent t0 sent (<[t := p']> th) = at_sent t0 sent th.
Proof.
  intros Hp Hne Heq. unfold at_ready, at_sent. destruct (decide (t = t0)) as [<-|?];
    [|by rewrite !lookup_insert_ne]. rewrite !lookup_insert_eq, Hp. simpl. rewrite Heq.
  split; [by destruct p', p|done].
Qed.

Lemma move_core sent cid th f t p p' :
  core sent cid th f -> th !! t = Some p -> pc_id p <> None -> pc_id p' = pc_id p ->
  (swapped f -> unsent_pc p' \/ at_sent t sent th = 0%nat) -> core sent cid (<[t := p']> th) f.
Proof.
  intros Hi Hp Hne Heq Hun.
  assert (forall t0 q id, <[t:=p']> th !! t0 = Some q -> pc_id q = Some id ->
    exists q0, th !! t0 = Some q0 /\ pc_id q0 = Some id) as Hback.
  { intros t0 q id. destruct (decide (t = t0)) as [<-|?]; [|rewrite lookup_insert_ne by done; eauto].
    rewrite lookup_insert_eq. intros [= <-]. rewrite Heq. eauto. }
  split.
  - intros id t0 H0. destruct (core_sent _ _ _ _ Hi id t0 H0) as (q & Hq & Hid & Hu).
    destruct (decide (t = t0)) as [<-|?]; [|rewrite lookup_insert_ne by done; eauto].
    exists p'. rewrite lookup_insert_eq, Heq. simplify_eq. split_and!; try done.
    intros Hsw. destruct (Hun Hsw) as [?|H1]; [done|]. unfold at_sent in H1. rewrite Hp in H1. simpl in H1.
    rewrite Hid in H1. by rewrite decide_True in H1.
  - intros t0 q id H0 H1. destruct (Hback _ _ _ H0 H1) as (? & ? & ?). by eapply core_id.
  - intros t1 t2 q1 q2 id H1 H2 E1 E2.
    destruct (Hback _ _ _ H1 E1) as (? & ? & ?), (Hback _ _ _ H2 E2) as (? & ? & ?). by eapply core_inj.
  - rewrite (core_size _ _ _ _ Hi). f_equal. rewrite map_filter_insert_True by (unfold not_ready; simpl; congruence).
    rewrite map_size_insert_Some; [done|]. exists p. apply map_lookup_filter_Some. by split.
Qed.

(** *** Entering and leaving the map of sent calls *)

Lemma delete_core sent cid th f id : core sent cid th f -> core (delete id sent) cid th f.
Proof.
  intros Hi. split; [|apply Hi..]. intros id0 t0 [_ H]%lookup_delete_Some. by apply (core_sent _ _ _ _ Hi).
Qed.

Lemma delete_counts sent cid th f id t t0 :
  core sent cid th f -> sent !! id = Some t ->
  at_sent t0 sent th = (at_sent t0 (delete id sent) th + if decide (t = t0) then 1 else 0)%nat.
Proof.
  intros Hi Hid. destruct (core_sent _ _ _ _ Hi id t Hid) as (p & Hp & Hpid & _). unfold at_sent.
  destruct (th !! t0 ≫= pc_id) as [id0|] eqn:H0.
  - destruct (decide (id = id0)) as [<-|Hne].
    + rewrite lookup_delete_eq, Hid. apply bind_Some in H0 as (p0 & Hp0 & Hpid0).
      assert (t0 = t) as -> by (by eapply (core_inj _ _ _ _ Hi)).
      repeat case_decide; done || congruence.
    + rewrite lookup_delete_ne by done. destruct (decide (t = t0)) as [<-|?]; [|lia].
      rewrite Hp in H0. simpl in H0. congruence.
  - destruct (decide (t = t0)) as [<-|?]; [|done]. rewrite Hp in H0. simpl in H0. congruence.
Qed.

Lemma delete_counts_None sent cid th f id t0 :
  core sent cid th f -> sent !! id = None -> at_sent t0 (delete id sent) th = at_sent t0 sent th.
Proof. intros _ H. by rewrite delete_id. Qed.

Lemma size_not_ready_le (th : gmap token wpc) : (size (filter not_ready th) <= size th)%nat.
Proof. apply map_subseteq_size, map_filter_subseteq. Qed.

(** A call is registered under the next id. *)
Lemma register_core sent cid th f t :
  core sent cid th f -> th !! t = Some Ready -> cid + 1 < 2 ^ 32 ->
  u32 (cid + 1) = cid + 1 /\ sent !! (cid + 1) = None /\
  core (<[cid + 1 := t]> sent) (cid + 1) (<[t := Registered (cid + 1)]> th) f.
Proof.
  intros Hi Ht Hlt. pose proof (core_size _ _ _ _ Hi) as Hsz.
  assert (sent !! (cid + 1) = None) as Hnone.
  { destruct (sent !! (cid + 1)) as [t'|] eqn:H; [|done].
    destruct (core_sent _ _ _ _ Hi _ _ H) as (p & Hp & Hid & _).
    pose proof (core_id _ _ _ _ Hi t' p _ Hp Hid). lia. }
  split; [unfold u32; rewrite Z.mod_small; lia|]. split; [done|].
  assert (forall t0 q, <[t := Registered (cid + 1)]> th !! t0 = Some q -> t0 = t /\ q = Registered (cid + 1) \/ t0 <> t /\ th !! t0 = Some q) as Hback.
  { intros t0 q. destruct (decide (t = t0)) as [<-|?]; [rewrite lookup_insert_eq|rewrite lookup_insert_ne by done].
    - intros [= <-]. by left.
    - right. done. }
  split.
  - intros id t0. destruct (decide (cid + 1 = id)) as [<-|?].
    + rewrite lookup_insert_eq. intros [= <-]. exists (Registered (cid + 1)). rewrite lookup_insert_eq. done.
    + rewrite lookup_insert_ne by done. intros H. destruct (core_sent _ _ _ _ Hi _ _ H) as (p & Hp & Hid & Hu).
      exists p. rewrite lookup_insert_ne; [done|]. intros <-. simplify_eq.
  - intros t0 q id [[-> ->]|[? H]]%Hback; simpl; [intros [= <-]; lia|]. intros Hid.
    pose proof (core_id _ _ _ _ Hi t0 q id H Hid). lia.
  - intros t1 t2 q1 q2 id [[-> ->]|[? H1]]%Hback [[-> ->]|[? H2]]%Hback E1 E2; try done; simpl in *; simplify_eq.
    + pose proof (core_id _ _ _ _ Hi _ _ _ H2 E2). lia.
    + pose proof (core_id _ _ _ _ Hi _ _ _ H1 E1). lia.
    + by eapply (core_inj _ _ _ _ Hi).
  - rewrite map_filter_insert_True by done. rewrite map_size_insert_None; [lia|].
    apply map_lookup_filter_None. right. intros p Hp. simplify_eq. unfold not_ready. simpl. tauto.
Qed.

Lemma register_counts sent cid th f t t0 :
  core sent cid th f -> th !! t = Some Ready -> sent !! (cid + 1) = None ->
  (at_ready t0 (<[t := Registered (cid + 1)%Z]> th) +
   at_sent t0 (<[(cid + 1)%Z := t]> sent) (<[t := Registered (cid + 1)%Z]> th)
   = at_ready t0 th + at_sent t0 sent th)%nat.
Proof.
  intros Hi Ht Hnone. unfold at_ready, at_sent. destruct (decide (t = t0)) as [<-|Hne].
  - rewrite !lookup_insert_eq, Ht. simpl. rewrite lookup_insert_eq. by rewrite decide_True.
  - rewrite !lookup_insert_ne by done. f_equal. destruct (th !! t0 ≫= pc_id) as [id|] eqn:H0; [|done].
    destruct (decide (cid + 1 = id)) as [<-|?]; [|by rewrite lookup_insert_ne].
    rewrite lookup_insert_eq, Hnone. rewrite !decide_False by congruence. done.
Qed.

(** All the calls of the map, as [failSentRPCs] takes them. *)
Lemma swap_counts `{RangeOrder} sent cid th f t :
  core sent cid th f -> occ t (snd <$> range [] sent) = at_sent t sent th.
Proof.
  intros Hi. unfold occ. rewrite range_perm.
  assert (forall l : list (Z * token), NoDup l.*1 -> (forall id, (id, t) ∈ l -> th !! t ≫= pc_id = Some id) ->
    length (filter (fun x => x = t) l.*2)
    = match th !! t ≫= pc_id with Some id => if decide ((id, t) ∈ l) then 1 else 0 | None => 0 end%nat) as Hl.
  { induction l as [|[id x] l IH]; intros Hnd Hid; csimpl.
    { by destruct (th !! t ≫= pc_id). }
    apply NoDup_cons in Hnd as [Hn Hnd]. rewrite filter_cons.
    assert (forall id0, (id0, t) ∈ l -> th !! t ≫= pc_id = Some id0) as Hid' by (intros; apply Hid; by right).
    destruct (decide (x = t)) as [->|Hne]; cbn [length].
    - rewrite IH by done. specialize (Hid id ltac:(by left)). rewrite Hid.
      rewrite (decide_True (P := (id, t) ∈ (id, t) :: l)) by by left.
      rewrite decide_False; [done|]. intros Hin. apply Hn. apply list_elem_of_fmap. by exists (id, t).
    - rewrite IH by done. destruct (th !! t ≫= pc_id) as [id0|]; [|done].
      apply decide_ext. rewrite elem_of_cons. split; [auto|]. intros [?|?]; [congruence|done]. }
  rewrite Hl; [|apply NoDup_fst_map_to_list|].
  - unfold at_sent. destruct (th !! t ≫= pc_id); [|done]. apply decide_ext. apply elem_of_map_to_list.
  - intros id Hid%elem_of_map_to_list. destruct (core_sent _ _ _ _ Hi id t Hid) as (p & -> & Hp & _). done.
Qed.

Lemma threads_length s : inv s -> (size (s_threads s) <= length (s_submitted s))%nat.
Proof.
  intros Hi. rewrite <- length_map_to_list, <- (length_fmap fst).
  apply submseteq_length, NoDup_submseteq; [apply NoDup_fst_map_to_list|].
  intros t ([t' p] & -> & Hin%elem_of_map_to_list)%list_elem_of_fmap. apply (inv_threads s Hi). by exists p.
Qed.

Lemma ready_room s t :
  inv s -> s_threads s !! t = Some Ready -> Z.of_nat (length (s_submitted s)) < 2 ^ 32 ->
  c_id (s_cl s) + 1 < 2 ^ 32.
Proof.
  intros Hi Ht Hlt. pose proof (threads_length s Hi) as Hsz. rewrite (core_size _ _ _ _ (inv_core s Hi)).
  assert (size (filter not_ready (s_threads s)) < size (s_threads s))%nat; [|lia].
  rewrite <- (insert_delete_id (s_threads s) t Ready Ht) at 2.
  rewrite map_size_insert_None by apply lookup_delete_eq. apply Nat.lt_succ_r, map_subseteq_size.
  apply map_subseteq_spec. intros t0 p [H0 Hn]%map_lookup_filter_Some.
  rewrite lookup_delete_ne; [done|]. intros <-. simplify_eq. by apply Hn.
Qed.

(** *** Every step keeps the invariant *)

Lemma submit_core s t p :
  inv s -> s_threads s !! t = None -> pc_id p = None -> core_of (submit t p s).
Proof.
  intros Hi Ht Hp. pose proof (inv_core s Hi) as Hc. unfold core_of. simpl. split.
  - intros id t0 H. destruct (core_sent _ _ _ _ Hc id t0 H) as (q & Hq & ?). exists q.
    rewrite lookup_insert_ne; [done|]. congruence.
  - intros t0 q id. destruct (decide (t = t0)) as [<-|?];
      [rewrite lookup_insert_eq; intros [= <-]; by rewrite Hp|].
    rewrite lookup_insert_ne by done. apply (core_id _ _ _ _ Hc).
  - intros t1 t2 p1 p2 id. destruct (decide (t = t1)) as [<-|?];
      [rewrite lookup_insert_eq; intros [= <-]; by rewrite Hp|].
    rewrite lookup_insert_ne by done. destruct (decide (t = t2)) as [<-|?];
      [rewrite lookup_insert_eq; intros _ [= <-]; by rewrite Hp|].
    rewrite lookup_insert_ne by done. apply (core_inj _ _ _ _ Hc).
  - rewrite (core_size _ _ _ _ Hc). do 2 f_equal.
    rewrite map_filter_insert_False by (unfold not_ready; simpl; tauto). by rewrite delete_id.
Qed.

(** A new call, with its sender ([p] is [Ready]) or refused. *)
Lemma submit_counts s t p t0 :
  inv s -> s_threads s !! t = None -> pc_id p = None ->
  (count t0 (submit t p s) + (if decide (t = t0) then 1 else 0) =
   count t0 s + (if decide (t = t0) then 1 else 0) +
   match p with Ready => if decide (t = t0) then 1 else 0 | _ => 0 end)%nat.
Proof.
  intros Hi Ht Hp. unfold count, at_ready, at_sent. simpl. destruct (decide (t = t0)) as [<-|?].
  - rewrite !lookup_insert_eq, !Ht. simpl. rewrite Hp. destruct p; lia.
  - rewrite !lookup_insert_ne by done. destruct p; lia.
Qed.

Lemma submit_rest s t p :
  inv s -> s_threads s !! t = None ->
  (forall t0 : token, is_Some (s_threads (submit t p s) !! t0) <-> t0 ∈ s_submitted (submit t p s)) /\
  NoDup (s_submitted (submit t p s)).
Proof.
  intros Hi Ht. assert (t ∉ s_submitted s) as Hnew.
  { rewrite <- (inv_threads s Hi), Ht. by intros []. }
  split; simpl.
  - intros t0. rewrite elem_of_app, list_elem_of_singleton, <- (inv_threads s Hi).
    destruct (decide (t = t0)) as [<-|?]; [rewrite lookup_insert_eq|rewrite lookup_insert_ne by done].
    + split; [by right|by eexists].
    + split; [by left|]. intros [?|?]; [done|congruence].
  - apply NoDup_app. split_and!; [apply Hi| |apply NoDup_singleton].
    intros t0 H0 ->%list_elem_of_singleton. done.
Qed.

Lemma inv_submit s t : inv s -> s_threads s !! t = None -> inv (submit t Ready s).
Proof.
  intros Hi Ht. destruct (submit_rest s t Ready Hi Ht). split; try done; try apply Hi.
  - by apply submit_core.
  - intros t0. pose proof (submit_counts s t Ready t0 Hi Ht eq_refl) as H1.
    rewrite (inv_count s Hi t0) in H1. simpl. rewrite occ_app, occ_cons, occ_nil. lia.
Qed.

Lemma inv_refuse s t res :
  inv s -> s_threads s !! t = None ->
  inv (drop_token t (submit t Refused s)) /\ inv (tell t res (submit t Refused s)).
Proof.
  intros Hi Ht. destruct (submit_rest s t Refused Hi Ht).
  split; (split; try done; try apply Hi; [by apply submit_core|]); intros t0;
    pose proof (submit_counts s t Refused t0 Hi Ht eq_refl) as H1;
    rewrite (inv_count s Hi t0) in H1; unfold count in *; simpl in *;
    rewrite ?fmap_app, ?occ_app; simpl; rewrite ?occ_cons, ?occ_nil; lia.
Qed.

Lemma inv_register s t :
  inv s -> s_threads s !! t = Some Ready -> Z.of_nat (length (s_submitted s)) < 2 ^ 32 ->
  inv (set_thread t (Registered (fst (registerRPC t (s_cl s)))) (set_cl (snd (registerRPC t (s_cl s))) s)).
Proof.
  intros Hi Ht Hlt. pose proof (ready_room s t Hi Ht Hlt) as Hroom.
  destruct (register_core _ _ _ _ t (inv_core s Hi) Ht Hroom) as (Hu & Hnone & Hc).
  unfold registerRPC. simpl. rewrite Hu. split; simpl; [done| | |apply Hi..].
  - intros t0. pose proof (inv_count s Hi t0) as H.
    pose proof (register_counts _ _ _ _ t t0 (inv_core s Hi) Ht Hnone) as Hr. unfold count in *. simpl. lia.
  - intros t0. rewrite <- (inv_threads s Hi). by eapply thread_insert_dom.
Qed.

Lemma inv_move s t p p' :
  inv s -> s_threads s !! t = Some p -> pc_id p <> None -> pc_id p' = pc_id p ->
  (swapped (s_fail s) -> unsent_pc p' \/ at_sent t (c_sent (s_cl s)) (s_threads s) = 0%nat) ->
  inv (set_thread t p' s).
Proof.
  intros Hi Hp Hne Heq Hun. split; simpl; [|intros t0| |apply Hi..].
  - eapply move_core; [apply Hi|done..].
  - pose proof (inv_count s Hi t0) as H. unfold count in *. simpl.
    destruct (move_counts (s_threads s) t p p' (c_sent (s_cl s)) t0 Hp Hne Heq) as [-> ->]. done.
  - intros t0. rewrite <- (inv_threads s Hi). by eapply thread_insert_dom.
Qed.

(** The counters of the connection are not part of it. *)
Lemma inv_set_cl s c :
  inv s -> c_sent c = c_sent (s_cl s) -> c_id c = c_id (s_cl s) -> c_done c = c_done (s_cl s) ->
  (c_connClosed (s_cl s) = true -> c_connClosed c = true) -> inv (set_cl c s).
Proof.
  intros Hi Hs Hid Hdn Hconn. split; simpl; rewrite ?Hdn; try apply Hi.
  - unfold core_of. simpl. rewrite Hs, Hid. apply Hi.
  - intros t. unfold count. simpl. rewrite Hs. apply (inv_count s Hi).
  - intros H1 H2. apply Hconn. by apply (inv_conn s Hi).
Qed.

Lemma inv_start_fail s : inv s -> inv (start_fail s).
Proof.
  intros Hi. unfold start_fail. destruct (s_fail s) eqn:Hf; try done.
  assert (s_pending s = []) as Hpend by (apply (inv_pending s Hi); by rewrite Hf).
  split; simpl; try apply Hi; try done.
  - destruct (inv_core s Hi) as [C1 C2 C3 C4]. split; try done. intros id t H.
    destruct (C1 id t H) as (p & ? & ? & ?). exists p. split_and!; try done. by intros [?|?].
  - intros t. pose proof (inv_count s Hi t) as H. unfold count in *. simpl. rewrite Hpend in H. done.
Qed.

(** A call leaves the map: [unregisterRPC] found it. *)
Lemma unregister_counts s id t t0 :
  inv s -> c_sent (s_cl s) !! id = Some t ->
  count t0 s = (count t0 (set_cl (snd (unregisterRPC id (s_cl s))) s) + if decide (t = t0) then 1 else 0)%nat.
Proof.
  intros Hi Hid. unfold count. simpl.
  pose proof (delete_counts _ _ _ _ id t t0 (inv_core s Hi) Hid). lia.
Qed.

Lemma core_unregister s id : core_of s -> core_of (set_cl (snd (unregisterRPC id (s_cl s))) s).
Proof. intros Hc. by apply delete_core. Qed.

Lemma not_swapped s : inv s -> c_connClosed (s_cl s) = false -> ~ swapped (s_fail s).
Proof.
  intros Hi Hc Hs. assert (c_connClosed (s_cl s) = true); [|congruence].
  destruct Hs as [Hs|Hs]; apply (inv_conn s Hi); by rewrite Hs.
Qed.

Lemma inv_unregister s t id e :
  inv s -> s_threads s !! t = Some (Failed id e) ->
  let s1 := set_thread t (Finished id) (set_cl (snd (unregisterRPC id (s_cl s))) s) in
  match c_sent (s_cl s) !! id with
  | Some _ => inv (tell t (errResult e) s1)
  | None => inv s1
  end.
Proof.
  intros Hi Ht s1. destruct (c_sent (s_cl s) !! id) as [t'|] eqn:Hid.
  - destruct (core_sent _ _ _ _ (inv_core s Hi) id t' Hid) as (p & Hp & Hpid & _).
    assert (t' = t) as -> by (by eapply (core_inj _ _ _ _ (inv_core s Hi) t' t _ (Failed id e))).
    assert (at_sent t (delete id (c_sent (s_cl s))) (s_threads s) = 0%nat) as Hz.
    { unfold at_sent. rewrite Ht. simpl. rewrite lookup_delete_eq. done. }
    split; simpl; try apply Hi.
    + apply (move_core _ _ _ _ t (Failed id e)); [|done..|by right].
      apply (core_unregister s id), Hi.
    + intros t0. pose proof (inv_count s Hi t0) as H. rewrite (unregister_counts s id t t0 Hi Hid) in H.
      unfold count in *. simpl in *.
      destruct (move_counts (s_threads s) t (Failed id e) (Finished id) (delete id (c_sent (s_cl s))) t0)
        as [-> ->]; try done.
      rewrite fmap_app, occ_app. simpl. rewrite occ_cons, occ_nil. lia.
    + intros t0. rewrite <- (inv_threads s Hi). by eapply thread_insert_dom.
  - apply (inv_move _ t (Failed id e)); [|done..|].
    + apply inv_set_cl; try done. simpl. by rewrite delete_id.
    + intros _. right. unfold at_sent. simpl. rewrite Ht. simpl. rewrite lookup_delete_eq. done.
Qed.

(** The reader takes the call from the map. *)
Lemma inv_receive s id t :
  inv s -> c_sent (s_cl s) !! id = Some t -> s_reader s = RReading ->
  inv (set_reader (RUnregistered t) (set_cl (snd (unregisterRPC id (s_cl s))) s)).
Proof.
  intros Hi Hid Hrd. split; simpl; try apply Hi.
  - apply (core_unregister s id), Hi.
  - intros t0. rewrite <- (inv_count s Hi t0), (unregister_counts s id t t0 Hi Hid).
    unfold count. simpl. rewrite Hrd. simpl. lia.
Qed.

(** Then the call goes nowhere else before it is answered, dropped or lost. *)
Lemma inv_reader s s' :
  inv s -> s_cl s' = s_cl s -> s_threads s' = s_threads s -> s_fail s' = s_fail s ->
  s_pending s' = s_pending s -> s_submitted s' = s_submitted s ->
  (forall t, at_reader t (s_reader s') + occ t (s_log s').*1 + occ t (s_dropped s') + occ t (s_lost s')
    = at_reader t (s_reader s) + occ t (s_log s).*1 + occ t (s_dropped s) + occ t (s_lost s))%nat -> inv s'.
Proof.
  intros Hi E1 E2 E3 E4 E5 Hc. split; rewrite ?E1, ?E2, ?E3, ?E4, ?E5; try apply Hi.
  - unfold core_of. rewrite E1, E2, E3. apply Hi.
  - intros t. rewrite <- (inv_count s Hi t). specialize (Hc t). unfold count. rewrite E1, E2, E4. lia.
Qed.

(** The phases of [fail]. *)
Ltac fail_done Hi Hf := split; [intros _; apply (inv_done _ Hi); by rewrite Hf|done].

Lemma core_phase s f :
  core_of s -> (swapped f -> swapped (s_fail s)) ->
  core (c_sent (s_cl s)) (c_id (s_cl s)) (s_threads s) f.
Proof.
  intros [C1 C2 C3 C4] Hf. split; try done. intros id t H. destruct (C1 id t H) as (p & ? & ? & ?). eauto 10.
Qed.

Lemma inv_closeConn s :
  inv s -> s_fail s = DoneClosed -> inv (set_fail ConnClosed [] (set_cl (closeConn (s_cl s)) s)).
Proof.
  intros Hi Hf. assert (s_pending s = []) as Hp by (apply (inv_pending s Hi); by rewrite Hf).
  split; simpl; try apply Hi; try done.
  - apply (core_phase s ConnClosed); [apply Hi|]. by intros [?|?].
  - intros t. pose proof (inv_count s Hi t) as H1. unfold count in *. simpl. by rewrite Hp in H1.
  - fail_done Hi Hf.
Qed.

Lemma inv_swap `{RangeOrder} s :
  inv s -> s_fail s = ConnClosed ->
  inv (set_fail Swapped (snd <$> range [] (c_sent (s_cl s))) (set_cl (snd (takeSent (s_cl s))) s)).
Proof.
  intros Hi Hf. assert (s_pending s = []) as Hp by (apply (inv_pending s Hi); by rewrite Hf).
  destruct (inv_core s Hi) as [C1 C2 C3 C4]. split; simpl; try apply Hi; try done.
  - intros t. pose proof (inv_count s Hi t) as H1. unfold count in *. simpl.
    rewrite (swap_counts _ _ _ _ t (inv_core s Hi)). rewrite Hp in H1. unfold at_sent in *.
    rewrite occ_nil in H1. destruct (s_threads s !! t ≫= pc_id); [rewrite lookup_empty; simpl; lia|lia].
  - intros _ _. apply (inv_conn s Hi); by rewrite Hf.
  - fail_done Hi Hf.
Qed.

Lemma inv_complete s : inv s -> s_fail s = Swapped -> s_pending s = [] -> inv (set_fail Completed [] s).
Proof.
  intros Hi Hf Hp. split; simpl; try apply Hi; try done.
  - apply (core_phase s Completed); [apply Hi|]. intros _. by left.
  - intros t. pose proof (inv_count s Hi t) as H1. unfold count in *. simpl. by rewrite Hp in H1.
  - intros _ _. apply (inv_conn s Hi); by rewrite Hf.
  - fail_done Hi Hf.
Qed.

Lemma inv_tell s t ts :
  inv s -> s_fail s = Swapped -> s_pending s = t :: ts ->
  inv (tell t (errResult ErrClientClosed) (set_fail Swapped ts s)).
Proof.
  intros Hi Hf Hp. pose proof (inv_core s Hi) as Hc. split; simpl; try apply Hi; try done.
  - unfold core_of in *. simpl. by rewrite Hf in Hc.
  - intros t0. pose proof (inv_count s Hi t0) as H1. unfold count in *. simpl. rewrite Hp in H1.
    rewrite fmap_app, occ_app. simpl. rewrite !occ_cons, occ_nil in *. lia.
  - intros _ _. apply (inv_conn s Hi); by rewrite Hf.
  - fail_done Hi Hf.
Qed.

Lemma start_fail_same s :
  s_reader (start_fail s) = s_reader s /\ s_log (start_fail s) = s_log s /\
  s_dropped (start_fail s) = s_dropped s /\ s_lost (start_fail s) = s_lost s /\
  s_submitted (start_fail s) = s_submitted s /\ s_threads (start_fail s) = s_threads s.
Proof. unfold start_fail. by destruct (s_fail s). Qed.

Ltac reader_move :=
  match goal with Hr : s_reader ?s = _ |- _ =>
    intros; simpl; rewrite ?Hr, ?fmap_app, ?occ_app; simpl; rewrite ?occ_cons, ?occ_nil; lia end.

Lemma inv_stop s : inv s -> s_reader s = RReading -> inv (set_reader RStopped (start_fail s)).
Proof.
  intros Hi Hr. apply (inv_reader (start_fail s)); try done; [by apply inv_start_fail|].
  destruct (start_fail_same s) as (Hr' & _). rewrite Hr in Hr'. reader_move.
Qed.

Lemma inv_stop_lose s t :
  inv s -> s_reader s = RUnregistered t -> inv (set_reader RStopped (start_fail (lose_token t s))).
Proof.
  intros Hi Hr. assert (inv (set_reader RReading (lose_token t s))) as Hi'.
  { apply (inv_reader s); try done. reader_move. }
  apply inv_stop in Hi'; [|done]. revert Hi'. unfold start_fail. by destruct (s_fail s) eqn:Hf; simpl; rewrite Hf.
Qed.

Lemma inv_stop_tell s t res :
  inv s -> s_reader s = RAnswering t -> inv (set_reader RStopped (start_fail (tell t res s))).
Proof.
  intros Hi Hr. assert (inv (set_reader RReading (tell t res s))) as Hi'.
  { apply (inv_reader s); try done. reader_move. }
  apply inv_stop in Hi'; [|done]. revert Hi'. unfold start_fail. by destruct (s_fail s) eqn:Hf; simpl; rewrite Hf.
Qed.

Lemma inv_step `{RangeOrder} l s s' :
  do_step l s = Some s' -> inv s -> Z.of_nat (length (s_submitted s')) < 2 ^ 32 -> inv s'.
Proof.
  intros Hstep Hi Hlt. destruct l as [t|t expired|t|t e|t ok|t ok|t| | | | | |id|ok| |res|]; cbn [do_step] in Hstep.
  - destruct (s_threads s !! t) eqn:Ht; [done|]. injection Hstep as <-. by apply inv_submit.
  - destruct (s_threads s !! t) eqn:Ht; [done|]. destruct (inv_refuse s t (errResult ErrClientClosed) Hi Ht).
    destruct expired; [|destruct (c_done (s_cl s)); [|done]]; by injection Hstep as <-.
  - destruct (s_threads s !! t) as [[]|] eqn:Ht; try done. injection Hstep as <-. by apply inv_register.
  - destruct (s_threads s !! t) as [[]|] eqn:Ht; try done. injection Hstep as <-.
    eapply inv_move; [done|exact Ht|done..|]. intros _. by left.
  - destruct (s_threads s !! t) as [[]|] eqn:Ht; try done.
    destruct ok; cbn [andb] in Hstep; [destruct (c_connClosed (s_cl s)) eqn:Hconn; [done|]|]; injection Hstep as <-;
      (eapply inv_move; [done|exact Ht|done..|]); [|by left].
    intros Hsw. by destruct (not_swapped s Hi Hconn).
  - destruct (s_threads s !! t) as [[]|] eqn:Ht; try done.
    destruct (ok && c_connClosed (s_cl s)) eqn:Hok; [done|]. simpl in Hstep. injection Hstep as <-.
    eapply inv_move; [apply inv_set_cl; try done|exact Ht|done|by destruct ok|]. simpl.
    destruct ok; [|by left]. simpl in Hok. intros Hsw. by destruct (not_swapped s Hi Hok).
  - destruct (s_threads s !! t) as [[]|] eqn:Ht; try done. destruct (_ && _); [done|]. simpl in Hstep.
    pose proof (inv_unregister s t id e Hi Ht) as Hu. simpl in Hu.
    destruct (c_sent (s_cl s) !! id); by injection Hstep as <-.
  - injection Hstep as <-. by apply inv_start_fail.
  - destruct (s_fail s) eqn:Hf; try done. injection Hstep as <-. by apply inv_closeConn.
  - destruct (s_fail s) eqn:Hf; try done. injection Hstep as <-. by apply inv_swap.
  - destruct (s_fail s) eqn:Hf; try done.
    destruct (s_pending s) as [|t ts] eqn:Hp; injection Hstep as <-; [by apply inv_complete|by apply inv_tell].
  - destruct (s_reader s) eqn:Hr; try done. injection Hstep as <-. by apply inv_stop.
  - destruct (s_reader s) eqn:Hr; try done. cbn [unregisterRPC] in Hstep.
    destruct (c_sent (s_cl s) !! id) as [t|] eqn:Hid; injection Hstep as <-; [by apply inv_receive|by apply inv_stop].
  - destruct (s_reader s) as [|t|t|] eqn:Hr; try done. destruct (ok && _); [done|].
    destruct (inFlightDown ok _) as [ok' c] eqn:Hd.
    assert (inv (set_cl c s)) as Hi'.
    { unfold inFlightDown in Hd. case_bool_decide; injection Hd as _ <-; by apply inv_set_cl. }
    destruct ok'; injection Hstep as <-; [|by apply inv_stop_lose].
    apply (inv_reader (set_cl c s)); try done. simpl. reader_move.
  - destruct (s_reader s) as [|t|t|] eqn:Hr; try done. injection Hstep as <-.
    apply (inv_reader s); try done. reader_move.
  - destruct (s_reader s) as [|t|t|] eqn:Hr; try done.
    assert (inv (set_reader RReading (tell t res s))) as Hi'.
    { apply (inv_reader s); try done. reader_move. }
    destruct (Res_Error res) as [[]|]; injection Hstep as <-; try done. by apply inv_stop_tell.
  - destruct (s_reader s) as [|t|t|] eqn:Hr; try done. destruct (c_done (s_cl s)); [|done]. injection Hstep as <-.
    apply (inv_reader s); try done. reader_move.
Qed.

Lemma submitted_mono `{RangeOrder} l s s' :
  do_step l s = Some s' -> (length (s_submitted s) <= length (s_submitted s'))%nat.
Proof.
  intros Hstep. assert (s_submitted s `prefix_of` s_submitted s') as Hp; [|by apply prefix_length].
  destruct l; cbn [do_step unregisterRPC registerRPC takeSent inFlightUp inFlightDown] in Hstep;
    repeat (case_match; simplify_eq; try done); simplify_eq;
    simpl; rewrite ?(proj1 (proj2 (proj2 (proj2 (proj2 (start_fail_same _)))))); simpl; try done;
    by eexists.
Qed.

Lemma steps_mono `{RangeOrder} ls s s' :
  do_steps ls s = Some s' -> (length (s_submitted s) <= length (s_submitted s'))%nat.
Proof.
  revert s. induction ls as [|l ls IH]; simpl; intros s H1; [by simplify_eq|].
  apply bind_Some in H1 as (s1 & Hs & H1). apply submitted_mono in Hs. specialize (IH s1 H1). lia.
Qed.

Lemma inv_steps `{RangeOrder} ls s s' :
  do_steps ls s = Some s' -> inv s -> Z.of_nat (length (s_submitted s')) < 2 ^ 32 -> inv s'.
Proof.
  revert s. induction ls as [|l ls IH]; simpl; intros s H1 Hi Hlt; [by simplify_eq|].
  apply bind_Some in H1 as (s1 & Hs & H1). apply (IH s1); try done.
  pose proof (steps_mono _ _ _ H1). by eapply inv_step; [done..|lia].
Qed.

Lemma do_steps_app `{RangeOrder} ls ks s : do_steps (ls ++ ks) s = do_steps ls s ≫= do_steps ks.
Proof.
  revert s. induction ls as [|l ls IH]; intros s; simpl; [done|].
  destruct (do_step l s); simpl; [apply IH|done].
Qed.

(** ** A closing client *)

Definition returned (p : wpc) : Prop := match p with Finished _ | Refused => True | _ => False end.

#[global] Instance returned_dec p : Decision (returned p).
Proof. destruct p; apply _. Defined.

(** Nothing is left to do: every sender has returned, [fail] is complete and
    the reader has stopped. *)
Definition drained (s : sys) : Prop :=
  map_Forall (fun _ p => returned p) (s_threads s) /\
  s_fail s = Completed /\ s_reader s = RStopped.

(** The steps of the goroutines on the calls they have; the others start something. *)
Definition internal (l : label) : Prop :=
  match l with LSubmit _ | LRefuse _ _ | LFail => False | _ => True end.

(** What is left to do at most. *)
Definition rank (p : wpc) : nat :=
  match p with Ready => 20 | Registered _ => 4 | Written _ => 3 | Failed _ _ => 2 | Finished _ | Refused => 0 end.

Definition threads_left (th : gmap token wpc) : nat := map_fold (fun _ p n => (rank p + n)%nat) 0%nat th.

Definition fail_left (f : fphase) : nat :=
  match f with NotFailed => 4 | DoneClosed => 3 | ConnClosed => 2 | Swapped => 1 | Completed => 0 end.

Definition reader_left (r : rpc_reader) : nat :=
  match r with RReading => 1 | RUnregistered _ => 4 | RAnswering _ => 3 | RStopped => 0 end.

Definition work_left (s : sys) : nat :=
  (threads_left (s_threads s) + 4 * size (c_sent (s_cl s)) + length (s_pending s) +
   fail_left (s_fail s) + reader_left (s_reader s))%nat.

Lemma threads_left_insert (th : gmap token wpc) t p p' :
  th !! t = Some p -> (threads_left (<[t := p']> th) + rank p = threads_left th + rank p')%nat.
Proof.
  intros Hp. unfold threads_left. rewrite <- (insert_delete_id th t p Hp) at 2.
  rewrite <- insert_delete_eq.
  rewrite !map_fold_insert_L by (apply lookup_delete_eq || (intros; lia)). lia.
Qed.

Lemma start_fail_left s : (work_left (start_fail s) <= work_left s)%nat.
Proof. unfold start_fail, work_left. destruct (s_fail s) eqn:Hf; simpl; rewrite ?Hf; simpl; lia. Qed.

Lemma size_delete_Some (m : gmap Z token) i x :
  m !! i = Some x -> (size (delete i m) + 1 = size m)%nat.
Proof.
  intros Hi. rewrite <- (insert_delete_id m i x Hi) at 2.
  rewrite map_size_insert_None by apply lookup_delete_eq. lia.
Qed.

Lemma size_delete_le (m : gmap Z token) i : (size (delete i m) <= size m)%nat.
Proof. apply map_subseteq_size, delete_subseteq. Qed.

Lemma size_insert_le (m : gmap Z token) i x : (size (<[i := x]> m) <= size m + 1)%nat.
Proof. rewrite map_size_insert. destruct (m !! i); simpl; lia. Qed.

Lemma stop_left s : s_reader s <> RStopped -> (work_left (set_reader RStopped (start_fail s)) < work_left s)%nat.
Proof.
  intros Hr. pose proof (start_fail_left s) as Hl. destruct (start_fail_same s) as (E & _).
  unfold work_left in *. rewrite E in Hl. destruct (s_reader s); simpl in *; done || lia.
Qed.

Lemma internal_step_works `{RangeOrder} l s s' :
  do_step l s = Some s' -> internal l -> (work_left s' < work_left s)%nat.
Proof.
  intros Hstep Hint. destruct l as [t|t expired|t|t e|t ok|t ok|t| | | | | |id|ok| |res|];
    try done; cbn [do_step unregisterRPC registerRPC takeSent inFlightUp] in Hstep.
  1-5: destruct (s_threads s !! t) as [p|] eqn:Ht; [|done]; destruct p; try done.
  - injection Hstep as <-. pose proof (threads_left_insert _ t _ (Registered (u32 (c_id (s_cl s) + 1))) Ht).
    pose proof (size_insert_le (c_sent (s_cl s)) (u32 (c_id (s_cl s) + 1)) t). unfold work_left. simpl in *. lia.
  - injection Hstep as <-. pose proof (threads_left_insert _ t _ (Failed id (PlainError e)) Ht).
    unfold work_left. simpl in *. lia.
  - destruct (ok && _); [done|]. injection Hstep as <-.
    pose proof (threads_left_insert _ t _ (if ok then Written id else Failed id (ServerError "write")) Ht).
    unfold work_left. destruct ok; simpl in *; lia.
  - destruct (ok && _); [done|]. injection Hstep as <-.
    pose proof (threads_left_insert _ t _ (if ok then Finished id else Failed id (ServerError "deadline")) Ht).
    unfold work_left. destruct ok; simpl in *; lia.
  - destruct (_ && _); [done|]. pose proof (threads_left_insert _ t _ (Finished id) Ht).
    pose proof (size_delete_le (c_sent (s_cl s)) id).
    case_match; injection Hstep as <-; unfold work_left; simpl in *; lia.
  - destruct (s_fail s) eqn:Hf; try done. injection Hstep as <-. unfold work_left. rewrite Hf. simpl. lia.
  - destruct (s_fail s) eqn:Hf; try done. injection Hstep as <-. unfold work_left. rewrite Hf. simpl.
    rewrite map_size_empty, length_fmap, length_range. lia.
  - destruct (s_fail s) eqn:Hf; try done. destruct (s_pending s) eqn:Hp; injection Hstep as <-;
      unfold work_left; rewrite Hf, Hp; simpl; lia.
  - destruct (s_reader s) eqn:Hr; try done. injection Hstep as <-. apply stop_left. by rewrite Hr.
  - destruct (s_reader s) eqn:Hr; try done. destruct (c_sent (s_cl s) !! id) as [t|] eqn:Hid; injection Hstep as <-.
    + pose proof (size_delete_Some _ _ _ Hid). unfold work_left. rewrite Hr. simpl. lia.
    + apply stop_left. by rewrite Hr.
  - destruct (s_reader s) as [|t|t|] eqn:Hr; try done. destruct (ok && _); [done|].
    assert (c_sent (snd (inFlightDown ok (s_cl s))) = c_sent (s_cl s)) as Hs
      by (unfold inFlightDown; by case_bool_decide).
    destruct (inFlightDown ok _) as [ok' c]. simpl in Hs. destruct ok'; injection Hstep as <-.
    + unfold work_left. simpl. rewrite Hs, Hr. simpl. lia.
    + eapply Nat.lt_le_trans; [apply stop_left; simpl; by rewrite Hr|]. unfold work_left. simpl. rewrite Hs. lia.
  - destruct (s_reader s) as [|t|t|] eqn:Hr; try done. injection Hstep as <-. unfold work_left. rewrite Hr. simpl. lia.
  - destruct (s_reader s) as [|t|t|] eqn:Hr; try done.
    assert (work_left (set_reader RReading (tell t res s)) < work_left s)%nat as Hlt
      by (unfold work_left; rewrite Hr; simpl; lia).
    destruct (Res_Error res) as [[]|]; injection Hstep as <-; try done.
    eapply Nat.lt_le_trans; [apply stop_left; simpl; by rewrite Hr|]. unfold work_left. simpl. lia.
  - destruct (s_reader s) as [|t|t|] eqn:Hr; try done. destruct (c_done _); [|done]. injection Hstep as <-.
    unfold work_left. rewrite Hr. simpl. lia.
Qed.

(** No goroutine of a closing client waits for ever. *)
Lemma closing_not_stuck `{RangeOrder} s :
  inv s -> s_fail s <> NotFailed -> drained s \/ exists l s', internal l /\ do_step l s = Some s'.
Proof.
  intros Hi Hf. destruct (s_fail s) eqn:Hph; [done|..].
  - right. exists LCloseConn. simpl. rewrite Hph. eauto.
  - right. exists LSwap. simpl. rewrite Hph. eauto.
  - right. exists LTell. simpl. rewrite Hph. destruct (s_pending s); eauto.
  - assert (c_done (s_cl s) = true) as Hdone by (apply (inv_done s Hi); by rewrite Hph).
    destruct (s_reader s) as [|t|t|] eqn:Hr.
    + right. exists LReaderDone. simpl. rewrite Hr, Hdone. eauto.
    + right. exists (LDown false). simpl. rewrite Hr. destruct (inFlightDown _ _) as [[] ?]; eauto.
    + right. exists LExpired. simpl. rewrite Hr. eauto.
    + destruct (decide (map_Forall (fun _ p => rank p = 0%nat) (s_threads s))) as [Hall|Hex].
      { left. split_and!; [|done..]. intros t p Hp. specialize (Hall t p Hp). simpl in Hall. by destruct p. }
      apply map_not_Forall in Hex as (t & p & Ht & Hp); [|apply _]. right. destruct p as [|id|id|id e|id|]; try done.
      * exists (LRegister t). simpl. rewrite Ht. eauto.
      * exists (LWrite t false). simpl. rewrite Ht. eauto.
      * exists (LUp t false). simpl. rewrite Ht. eauto.
      * exists (LUnregister t). simpl. rewrite Ht, Hph. rewrite bool_decide_eq_true_2 by done.
        rewrite andb_false_r. destruct (c_sent (s_cl s) !! id); eauto.
Qed.

(** ** Claims *)

Definition no_deadline_error (l : label) : Prop := l <> LDown false.

Lemma lost_steps `{RangeOrder} ls s s' :
  do_steps ls s = Some s' -> Forall no_deadline_error ls -> s_lost s' = s_lost s.
Proof.
  revert s. induction ls as [|l ls IH]; simpl; intros s H1 Hl; [by simplify_eq|].
  apply Forall_cons in Hl as [Hl Hls]. apply bind_Some in H1 as (s1 & Hs & H1). rewrite (IH _ H1 Hls).
  assert (forall c, fst (inFlightDown true c) = true) as Hdown
    by (intros c; unfold inFlightDown; by case_bool_decide).
  specialize (Hdown (s_cl s)).
  destruct l as [| | | | | | | | | | | | |[]| | |]; cbn [do_step unregisterRPC registerRPC takeSent inFlightUp] in Hs;
    repeat (case_match; simplify_eq; try done); simplify_eq;
    simpl; rewrite ?(proj1 (proj2 (proj2 (proj2 (start_fail_same _))))); simpl; done.
Qed.

Lemma inv_quiet s t :
  inv s -> drained s ->
  occ t ((s_log s).*1 ++ s_dropped s ++ s_lost s) = occ t (s_submitted s) /\ c_sent (s_cl s) = ∅.
Proof.
  intros Hi (Hth & Hf & Hr).
  assert (c_sent (s_cl s) = ∅) as Hsent.
  { apply map_empty. intros id. destruct (c_sent (s_cl s) !! id) as [t0|] eqn:Hid; [|done].
    destruct (core_sent _ _ _ _ (inv_core s Hi) id t0 Hid) as (p & Hp & _ & Hu).
    specialize (Hth t0 p Hp). specialize (Hu ltac:(right; done)). by destruct p. }
  split; [|done]. rewrite <- (inv_count s Hi t). unfold count. rewrite !occ_app, Hr, Hsent.
  rewrite (inv_pending s Hi) by (by rewrite Hf). unfold at_ready, at_sent.
  destruct (s_threads s !! t) as [p|] eqn:Ht; simpl; [specialize (Hth t p Ht)|lia].
  destruct p; simpl in *; done || (rewrite ?lookup_empty; simpl; lia).
Qed.

Section Claims.
Context {HO : RangeOrder}.

(** C26. However the senders, the reader, the server and [fail] interleave on a
    connection (and as long as the 32-bit call ids have not wrapped round), a
    call is answered at most once, only if it was queued, and neither when it
    was dropped for its expired context nor when it was lost. *)
Theorem answered_at_most_once ls s :
  do_steps ls init_sys = Some s -> Z.of_nat (length (s_submitted s)) < 2 ^ 32 ->
  NoDup ((s_log s).*1 ++ s_dropped s ++ s_lost s) /\
  (forall t, t ∈ (s_log s).*1 -> t ∈ s_submitted s).
Proof.
  intros Hrun Hlt. pose proof (inv_steps _ _ _ Hrun inv_init Hlt) as Hi.
  assert (forall t, occ t (s_submitted s) <= 1)%nat as H1 by (apply occ_NoDup, Hi). split.
  - apply occ_NoDup. intros t. specialize (H1 t). rewrite <- (inv_count s Hi t) in H1.
    unfold count in H1. rewrite !occ_app. lia.
  - intros t Ht%occ_elem. apply occ_elem. rewrite <- (inv_count s Hi t). unfold count. lia.
Qed.

(** Once [fail] has begun, the client drains: in every reachable state
    either all the senders have returned, [fail] is complete and the reader has
    stopped, or some goroutine can move; and every move leaves less to do, so
    no schedule goes on for ever. *)
Theorem failed_client_drains ls s :
  do_steps ls init_sys = Some s -> Z.of_nat (length (s_submitted s)) < 2 ^ 32 ->
  s_fail s <> NotFailed ->
  (drained s \/ exists l s', internal l /\ do_step l s = Some s') /\
  (forall l s', internal l -> do_step l s = Some s' -> (work_left s' < work_left s)%nat).
Proof.
  intros Hrun Hlt Hf. pose proof (inv_steps _ _ _ Hrun inv_init Hlt) as Hi. split.
  - by apply closing_not_stuck.
  - intros l s' Hl Hs. by apply (internal_step_works l).
Qed.

(** When a closed client has drained, no call is left in the map of sent
    calls, and every call that was queued has been answered exactly once,
    unless its context had expired or it was lost; and none is lost unless
    [inFlightDown] failed to reset the read deadline. *)
Theorem drained_answers_every_call ls s :
  do_steps ls init_sys = Some s -> Z.of_nat (length (s_submitted s)) < 2 ^ 32 -> drained s ->
  c_sent (s_cl s) = ∅ /\
  s_submitted s ≡ₚ (s_log s).*1 ++ s_dropped s ++ s_lost s /\
  (Forall no_deadline_error ls -> s_lost s = []).
Proof.
  intros Hrun Hlt Hq. pose proof (inv_steps _ _ _ Hrun inv_init Hlt) as Hi.
  assert (forall t, occ t (s_submitted s) <= 1)%nat as H1 by (apply occ_NoDup, Hi).
  split_and!; [by apply (inv_quiet s 0 Hi Hq)| |].
  - apply NoDup_Permutation; [apply Hi|apply occ_NoDup; intros t; by rewrite (proj1 (inv_quiet s t Hi Hq))|].
    intros t. by rewrite !occ_elem, (proj1 (inv_quiet s t Hi Hq)).
  - intros Hl. by rewrite (lost_steps _ _ _ Hrun Hl).
Qed.

End Claims.

(** Three calls: one is answered, the write of another fails, the third is
    refused by the closed client. *)
Definition sample_run : list label :=
  [LSubmit 1%nat; LRegister 1%nat; LWrite 1%nat true; LUp 1%nat true;
   LSubmit 2%nat; LRegister 2%nat;
   LReceive 1; LDown true; LDeliver (okResult (MOther "reply"));
   LWrite 2%nat false; LFail; LRefuse 3%nat false; LCloseConn; LSwap; LTell; LTell; LUnregister 2%nat; LReaderDone].

Definition sample_closing : sys := default init_sys (do_steps (take 11 sample_run) init_sys).
Definition sample_end : sys := default init_sys (do_steps sample_run init_sys).

Lemma answered_at_most_once_witness :
  do_steps sample_run init_sys = Some sample_end /\ (s_log sample_end).*1 = [1; 3; 2]%nat /\
  NoDup ((s_log sample_end).*1 ++ s_dropped sample_end ++ s_lost sample_end).
Proof.
  split; [vm_compute; reflexivity|]. split; [vm_compute; reflexivity|].
  apply (answered_at_most_once sample_run sample_end); vm_compute; reflexivity.
Defined.

Lemma failed_client_drains_witness :
  do_steps (take 11 sample_run) init_sys = Some sample_closing /\ s_fail sample_closing = DoneClosed /\
  forall l s', internal l -> do_step l sample_closing = Some s' -> (work_left s' < work_left sample_closing)%nat.
Proof.
  split; [vm_compute; reflexivity|]. split; [vm_compute; reflexivity|].
  apply (failed_client_drains (take 11 sample_run) sample_closing); [vm_compute; reflexivity..|].
  vm_compute. discriminate.
Defined.

Lemma drained_answers_every_call_witness :
  do_steps sample_run init_sys = Some sample_end /\
  s_submitted sample_end ≡ₚ (s_log sample_end).*1 ++ s_dropped sample_end ++ s_lost sample_end.
Proof.
  split; [vm_compute; reflexivity|].
  apply (drained_answers_every_call sample_run sample_end); [vm_compute; reflexivity..|].
  split_and!; [|vm_compute; reflexivity..].
  apply (bool_decide_unpack _). vm_compute. exact I.
Defined.

(** C34. A call can be lost: the reader takes it from the map of sent calls, a
    concurrent [fail] closes the connection, and [inFlightDown] then fails
    before the answer of the call is arranged for.  The client drains and the
    call, whose context has not expired, is never answered. *)
Theorem receive_can_lose_a_call :
  exists ls s, do_steps ls init_sys = Some s /\ drained s /\
    s_submitted s = [1%nat] /\ s_log s = [] /\ s_dropped s = [] /\ s_lost s = [1%nat].
Proof.
  exists [LSubmit 1%nat; LRegister 1%nat; LWrite 1%nat true; LUp 1%nat true; LReceive 1; LFail; LCloseConn;
    LDown false; LSwap; LTell].
  eexists. split; [vm_compute; reflexivity|]. split; [|done]. split_and!; [|done..].
  apply (bool_decide_unpack _). vm_compute. exact I.
Qed.

(** C35. The counter of calls in flight is raised after the write, so a response
    can be counted before its request: the counter wraps round and comes back
    to zero without resetting the deadline that [inFlightUp] armed.  An idle,
    healthy client is then left with a read deadline, although no call is in
    flight. *)
Theorem idle_client_keeps_deadline :
  exists ls s, do_steps ls init_sys = Some s /\ s_fail s = NotFailed /\ c_sent (s_cl s) = ∅ /\
    (s_log s).*1 = s_submitted s /\ c_inFlight (s_cl s) = 0 /\ c_deadline (s_cl s) = true.
Proof.
  exists [LSubmit 1%nat; LRegister 1%nat; LWrite 1%nat true; LReceive 1; LDown true;
    LDeliver (okResult (MOther "reply")); LUp 1%nat true].
  eexists. split; [vm_compute; reflexivity|]. done.
Qed.
