(* ===== verification/Batching.v ===== *)
(** * The batching goroutine: region/client.go [QueueRPC], [QueueBatch], [processRPCs]

    Callers hand calls to [processRPCs] over an unbuffered channel; it collects
    them in a [multi] and gives that to [trySend] when it is full, when no more
    calls come, or when the flush timer fires.  The goroutine moves beside the
    others of the connection ([RegionClient]); a label says which of the cases
    of its [select] is taken, or what another goroutine does. *)

From S2P Require Import Prelude Pb Hrpc RpcError Multi RegionClient.

(** Where the batching goroutine is. *)
Inductive bpc :=
| Draining                     (* the first loop *)
| Waiting                      (* the select for the next batch *)
| Timed (fired : bool)         (* the second loop, and whether its timer has fired *)
| AboutToFlush
| Flushing (t : token)         (* in trySend *)
| Stopped.                     (* returned *)

Record bsys := mkBsys {
  bs_conn : sys;
  bs_multi : multi;                              (* m *)
  bs_pc : bpc;
  bs_batches : list (token * multi);             (* given to trySend, in order *)
  bs_refused : list (call * RPCResult);          (* answered by QueueBatch *)
  bs_expired : list call;                        (* left alone by QueueBatch *)
  bs_returned : option (multi * deliveries);     (* answered by the deferred function *)
}.

Inductive blabel :=
| BConn (l : label)                  (* a step of another goroutine of the client *)
| BExpired (rpcs : list call)        (* QueueBatch: the context is done *)
| BRefused (rpcs : list call)        (* QueueBatch: the client is done *)
| BReceive (rpcs : list call)        (* QueueBatch hands the calls over *)
| BDefault                           (* no more rpcs queued up *)
| BDone                              (* processRPCs sees done closed *)
| BFire                              (* the timer fires *)
| BTimeout                           (* its tick is received *)
| BFlush (t : token)                 (* flush calls trySend *)
| BReturned.                         (* trySend has returned *)

Definition set_pc (p : bpc) (s : bsys) : bsys :=
  mkBsys (bs_conn s) (bs_multi s) p (bs_batches s) (bs_refused s) (bs_expired s) (bs_returned s).

Definition set_multi (m : multi) (s : bsys) : bsys :=
  mkBsys (bs_conn s) m (bs_pc s) (bs_batches s) (bs_refused s) (bs_expired s) (bs_returned s).

Definition set_conn (c : sys) (s : bsys) : bsys :=
  mkBsys c (bs_multi s) (bs_pc s) (bs_batches s) (bs_refused s) (bs_expired s) (bs_returned s).

Section Batching.
Context {HO : RangeOrder}.
Variable rpcQueueSize flushInterval : Z.

(** [QueueRPC]: whether the call is given to [QueueBatch]. *)
Definition QueueRPC_batches (rpc : call) : bool :=
  match SkipBatch rpc with
  | Some skip => bool_decide (rpcQueueSize > 1) && negb skip
  | None => false
  end.

Definition init_bsys : bsys := mkBsys init_sys (newMulti rpcQueueSize) Draining [] [] [] None.

(** Between the two loops. *)
Definition after_drain (m : multi) : bpc :=
  if bool_decide (mlen m = 0) then Waiting
  else if bool_decide (mlen m >= rpcQueueSize) || bool_decide (flushInterval = 0) then AboutToFlush
  else Timed false.

(** [rpcs := <-c.rpcs] in each of the selects.  In the second loop a full batch
    stops the timer, or takes the tick of one that has fired. *)
Definition receive_rpcs (rpcs : list call) (s : bsys) : option bsys :=
  let '(full, m) := add rpcs (bs_multi s) in
  let s := set_multi m s in
  match bs_pc s with
  | Draining => Some (if full : bool then set_pc (after_drain m) s else s)
  | Waiting => Some (set_pc Draining s)
  | Timed fired => Some (if full : bool then set_pc AboutToFlush s else s)
  | _ => None
  end.

(** The cases of [QueueBatch]: the context is done, the client is done, or the
    batching goroutine takes the calls. *)
Inductive queue_case := QExpired | QDone | QSent.

Definition QueueBatch (q : queue_case) (rpcs : list call) (s : bsys) : option bsys :=
  match q with
  | QExpired =>
      Some (mkBsys (bs_conn s) (bs_multi s) (bs_pc s) (bs_batches s) (bs_refused s) (bs_expired s ++ rpcs) (bs_returned s))
  | QDone =>
      if c_done (s_cl (bs_conn s)) then
        Some (mkBsys (bs_conn s) (bs_multi s) (bs_pc s) (bs_batches s)
          (bs_refused s ++ ((fun c => (c, errResult ErrClientClosed)) <$> rpcs)) (bs_expired s) (bs_returned s))
      else None
  | QSent => receive_rpcs rpcs s
  end.

(** The deferred function of [processRPCs]. *)
Definition stop (s : bsys) : option bsys :=
  match returnResults (E := Empty_set) (bs_multi s) None (Some ErrClientClosed) with
  | Ok ds => Some (mkBsys (bs_conn s) (freeMulti (bs_multi s)) Stopped (bs_batches s) (bs_refused s) (bs_expired s)
                    (Some (bs_multi s, ds)))
  | _ => None
  end.

Definition selecting (p : bpc) : bool :=
  match p with Draining | Waiting | Timed _ => true | _ => false end.

(** The context of a batch never expires: [multi.Context] is the background. *)
Definition batch_context_expires (l : label) (s : bsys) : bool :=
  match l, s_reader (bs_conn s) with
  | LExpired, RAnswering t => bool_decide (t ∈ (bs_batches s).*1)
  | _, _ => false
  end.

Definition bstep (l : blabel) (s : bsys) : option bsys :=
  match l with
  | BConn l =>
      if batch_context_expires l s then None else c ← do_step l (bs_conn s); Some (set_conn c s)
  | BExpired rpcs => QueueBatch QExpired rpcs s
  | BRefused rpcs => QueueBatch QDone rpcs s
  | BReceive rpcs => QueueBatch QSent rpcs s
  | BDefault =>
      match bs_pc s with
      | Draining => if c_done (s_cl (bs_conn s)) then None else Some (set_pc (after_drain (bs_multi s)) s)
      | _ => None
      end
  | BDone => if selecting (bs_pc s) && c_done (s_cl (bs_conn s)) then stop s else None
  | BFire => match bs_pc s with Timed false => Some (set_pc (Timed true) s) | _ => None end
  | BTimeout => match bs_pc s with Timed true => Some (set_pc AboutToFlush s) | _ => None end
  | BFlush t =>
      match bs_pc s with
      | AboutToFlush =>
          c ← do_step (LSubmit t) (bs_conn s);
          Some (mkBsys c (bs_multi s) (Flushing t) (bs_batches s ++ [(t, bs_multi s)]) (bs_refused s) (bs_expired s)
            (bs_returned s))
      | _ => None
      end
  | BReturned =>
      match bs_pc s with
      | Flushing t =>
          match s_threads (bs_conn s) !! t with
          | Some (Finished _) => Some (set_pc Draining (set_multi (newMulti rpcQueueSize) s))
          | _ => None
          end
      | _ => None
      end
  end.

Fixpoint bsteps (ls : list blabel) (s : bsys) : option bsys :=
  match ls with
  | [] => Some s
  | l :: ls => bstep l s ≫= bsteps ls
  end.

(** ** The calls that were handed over *)

Definition received_by (l : blabel) : list call := match l with BReceive rpcs => rpcs | _ => [] end.
Definition received (ls : list blabel) : list call := ls ≫= received_by.

(** The calls that wait in the batching goroutine. *)
Definition current (s : bsys) : list (option call) :=
  match bs_pc s with
  | Flushing _ => []
  | Stopped => default [] ((fun r => mu_calls r.1) <$> bs_returned s)
  | _ => mu_calls (bs_multi s)
  end.

Definition batched (s : bsys) : list (option call) := bs_batches s ≫= (fun b => mu_calls b.2).

(** Calls are neither lost, nor repeated, nor reordered by a step. *)
Lemma bstep_calls l s s' :
  bstep l s = Some s' -> batched s' ++ current s' = batched s ++ current s ++ (Some <$> received_by l).
Proof.
  assert (forall m (q : bsys) , bs_multi q = m ->
    current (set_pc (after_drain m) q) = mu_calls m) as Hd.
  { intros m q <-. unfold current, after_drain. simpl. by repeat case_match. }
  intros H. destruct l; cbn [bstep QueueBatch received_by] in *; rewrite ?app_nil_r.
  - destruct (batch_context_expires l s); [done|]. apply bind_Some in H as (c & _ & H). by simplify_eq.
  - by simplify_eq.
  - destruct (c_done _); by simplify_eq.
  - unfold receive_rpcs, add in H. destruct (bs_pc s) eqn:Hp; simpl in H; rewrite Hp in H; try done; simplify_eq.
    + case_match; simplify_eq; [rewrite Hd by done|]; unfold current, batched; simpl; by rewrite Hp.
    + unfold current, batched. simpl. by rewrite Hp.
    + case_match; simplify_eq; unfold current, batched; simpl; by rewrite ?Hp.
  - destruct (bs_pc s) eqn:Hp; try done. destruct (c_done _); simplify_eq. rewrite Hd by done.
    unfold current, batched. by rewrite Hp.
  - destruct (bs_pc s) eqn:Hp, (c_done _); try done; cbn in H; simplify_eq; unfold current, batched; simpl; by rewrite Hp.
  - destruct (bs_pc s) as [| |[]| | |] eqn:Hp; try done. simplify_eq. unfold current, batched. simpl. by rewrite Hp.
  - destruct (bs_pc s) as [| |[]| | |] eqn:Hp; try done. simplify_eq. unfold current, batched. simpl. by rewrite Hp.
  - destruct (bs_pc s) eqn:Hp; try done. apply bind_Some in H as (c & _ & H). simplify_eq.
    unfold current, batched. simpl. rewrite Hp, bind_app. simpl. by rewrite !app_nil_r.
  - destruct (bs_pc s) eqn:Hp; try done. repeat (case_match; try done). simplify_eq.
    unfold current, batched. simpl. by rewrite Hp.
Qed.

Lemma bsteps_calls ls s s' :
  bsteps ls s = Some s' -> batched s' ++ current s' = batched s ++ current s ++ (Some <$> received ls).
Proof.
  revert s. induction ls as [|l ls IH]; simpl; intros s H; [simplify_eq; by rewrite app_nil_r|].
  apply bind_Some in H as (s1 & H1 & H). rewrite (IH _ H), app_assoc, (bstep_calls _ _ _ H1).
  change (received (l :: ls)) with (received_by l ++ received ls). by rewrite fmap_app, !app_assoc.
Qed.

(** The connection takes one of its own steps, or none. *)
Definition conn_labels (l : blabel) : list label :=
  match l with BConn l => [l] | BFlush t => [LSubmit t] | _ => [] end.

Lemma bstep_conn l s s' : bstep l s = Some s' -> do_steps (conn_labels l) (bs_conn s) = Some (bs_conn s').
Proof.
  intros H. destruct l; cbn [bstep QueueBatch conn_labels do_steps] in *.
  - destruct (batch_context_expires l s); [done|]. apply bind_Some in H as (c & Hc & H). simplify_eq. by rewrite Hc.
  - by simplify_eq.
  - destruct (c_done _); by simplify_eq.
  - unfold receive_rpcs, add in H. destruct (bs_pc s) eqn:Hp; simpl in H; rewrite Hp in H; try done;
      repeat case_match; by simplify_eq.
  - repeat (case_match; try done). by simplify_eq.
  - destruct (_ && _); [|done]. unfold stop in H. cbn in H. by simplify_eq.
  - repeat (case_match; try done). by simplify_eq.
  - repeat (case_match; try done). by simplify_eq.
  - destruct (bs_pc s); try done. apply bind_Some in H as (c & Hc & H). simplify_eq. by rewrite Hc.
  - repeat (case_match; try done). by simplify_eq.
Qed.

Lemma bsteps_conn ls s s' :
  bsteps ls s = Some s' -> do_steps (ls ≫= conn_labels) (bs_conn s) = Some (bs_conn s').
Proof.
  revert s. induction ls as [|l ls IH]; simpl; intros s H; [by simplify_eq|].
  apply bind_Some in H as (s1 & H1 & H). rewrite do_steps_app, (bstep_conn _ _ _ H1). simpl. by apply IH.
Qed.

(** ** The invariant *)

Definition pc_ok (s : bsys) : Prop :=
  match bs_pc s with
  | Timed _ | AboutToFlush => mu_calls (bs_multi s) <> []
  | Flushing t => t ∈ (bs_batches s).*1
  | Stopped => exists m, bs_returned s = Some (m, (fun ic => (ic.1, errResult ErrClientClosed)) <$> live m)
  | _ => True
  end.

(** What holds of a batch that was given to the connection. *)
Definition batch_sent (c : sys) (b : token * multi) : Prop :=
  (exists p, s_threads c !! b.1 = Some p /\ p <> Refused) /\ (b.1 ∉ s_dropped c) /\ mu_calls b.2 <> [].

Record binv (s : bsys) : Prop := {
  bi_batches : Forall (batch_sent (bs_conn s)) (bs_batches s);
  bi_nodup : NoDup (bs_batches s).*1;
  bi_pc : pc_ok s;
}.

#[local] Ltac step_cases H :=
  cbn [do_step unregisterRPC registerRPC takeSent inFlightUp] in H;
  repeat (case_match; simplify_eq; try done); simplify_eq; simpl.

(** A goroutine that runs [trySend] goes on. *)
Lemma step_keeps_sender l s s' t p :
  do_step l s = Some s' -> s_threads s !! t = Some p -> p <> Refused ->
  exists p', s_threads s' !! t = Some p' /\ p' <> Refused.
Proof.
  intros H Hp Hne.
  assert (forall t0 p0 p', s_threads s !! t0 = p0 -> (p0 = None -> t0 <> t) -> p' <> Refused \/ p0 = None ->
    exists q, <[t0 := p']> (s_threads s) !! t = Some q /\ q <> Refused) as Hins.
  { intros t0 p0 p' H0 Hn Hor. destruct (decide (t0 = t)) as [->|?]; [|rewrite lookup_insert_ne by done; by exists p].
    rewrite lookup_insert_eq. exists p'. split; [done|]. destruct Hor as [?| ->]; [done|]. by specialize (Hn eq_refl). }
  destruct l; step_cases H;
    try (rewrite (proj2 (proj2 (proj2 (proj2 (proj2 (start_fail_same _))))))); simpl;
    try (by exists p); eapply Hins; try done; first [by left|by right|congruence|by intros ?].
Qed.

(** Only the call of a new goroutine, or the one of the reader, is dropped. *)
Lemma step_drops l s s' t :
  do_step l s = Some s' -> t ∈ s_dropped s' -> t ∈ s_dropped s \/ s_threads s !! t = None \/
    (l = LExpired /\ s_reader s = RAnswering t).
Proof.
  intros H. destruct l; step_cases H;
    try (rewrite (proj1 (proj2 (proj2 (start_fail_same _))))); simpl; try (by left);
    rewrite elem_of_app, list_elem_of_singleton; intros [?| ->]; auto.
Qed.

Lemma batch_sent_step l s c b :
  do_step l (bs_conn s) = Some c -> batch_context_expires l s = false -> b ∈ bs_batches s ->
  batch_sent (bs_conn s) b -> batch_sent c b.
Proof.
  intros Hs He Hb ((p & Hp & Hne) & Hd & Hm). split_and!; [by eapply step_keeps_sender| |done].
  intros Hin. destruct (step_drops _ _ _ _ Hs Hin) as [?|[?|[-> Hr]]]; [done|congruence|].
  unfold batch_context_expires in He. rewrite Hr in He. apply bool_decide_eq_false in He. apply He.
  apply list_elem_of_fmap. by exists b.
Qed.

Lemma submit_sent s t c b :
  do_step (LSubmit t) s = Some c -> batch_sent s b -> batch_sent c b /\ b.1 <> t.
Proof.
  intros Hs Hb. pose proof Hb as ((p & Hp & Hne) & Hd & Hm). split.
  - split_and!; [by eapply step_keeps_sender| |done]. intros Hin.
    destruct (step_drops _ _ _ _ Hs Hin) as [?|[?|[? _]]]; [done|congruence|done].
  - intros <-. simpl in Hs. by rewrite Hp in Hs.
Qed.

Lemma unknown_not_dropped s t : inv s -> s_threads s !! t = None -> t ∉ s_dropped s.
Proof.
  intros Hi Ht Hin%occ_elem. pose proof (inv_count s Hi t) as Hc. unfold count in Hc.
  assert (occ t (s_submitted s) <> 0%nat) as Hs%occ_elem by lia. apply (inv_threads s Hi) in Hs as [? Hs]. congruence.
Qed.

Lemma binv_init : binv init_bsys.
Proof. split; simpl; [constructor..|done]. Qed.

Lemma binv_pc s s' :
  binv s -> bs_conn s' = bs_conn s -> bs_batches s' = bs_batches s -> pc_ok s' -> binv s'.
Proof. intros [H1 H2 _] E1 E2 H3. split; [by rewrite E1, E2|by rewrite E2|done]. Qed.

Lemma after_drain_ok s : pc_ok (set_pc (after_drain (bs_multi s)) s).
Proof.
  unfold after_drain, pc_ok. simpl. case_bool_decide as Hm; [done|]. unfold mlen, len in Hm.
  destruct (_ || _); intros E; by rewrite E in Hm.
Qed.

Lemma receive_ok rpcs s s' : binv s -> receive_rpcs rpcs s = Some s' -> binv s'.
Proof.
  intros Hb H. pose proof (bi_pc s Hb) as Hp. unfold receive_rpcs, add in H. unfold pc_ok in Hp.
  assert (forall l : list (option call), l <> [] -> l ++ (Some <$> rpcs) <> []) as Happ by (by intros []).
  destruct (bs_pc s) eqn:Hpc; simpl in H; rewrite Hpc in H; try done; repeat case_match; simplify_eq;
    apply (binv_pc s); try done;
    first [apply (after_drain_ok (set_multi _ s)) | unfold pc_ok; simpl; rewrite ?Hpc; by try apply Happ].
Qed.

Lemma binv_step l s s' : inv (bs_conn s) -> binv s -> bstep l s = Some s' -> binv s'.
Proof.
  intros Hi Hb H. pose proof (bi_pc s Hb) as Hp. destruct l; cbn [bstep QueueBatch] in H.
  - destruct (batch_context_expires l s) eqn:He; [done|]. apply bind_Some in H as (c & Hc & H). simplify_eq.
    destruct Hb as [H1 H2 _]. split; [|done..]. apply Forall_forall. intros b Hin.
    eapply batch_sent_step; try done. rewrite Forall_forall in H1. by apply H1.
  - simplify_eq. by apply (binv_pc s).
  - destruct (c_done _); simplify_eq. by apply (binv_pc s).
  - by eapply receive_ok.
  - destruct (bs_pc s); try done. destruct (c_done _); simplify_eq. apply (binv_pc s); try done. apply after_drain_ok.
  - destruct (_ && _); [|done]. cbn in H. simplify_eq. apply (binv_pc s); try done. by exists (bs_multi s).
  - unfold pc_ok in Hp. destruct (bs_pc s) as [| |[]| | |]; simplify_eq. by apply (binv_pc s).
  - unfold pc_ok in Hp. destruct (bs_pc s) as [| |[]| | |]; simplify_eq. by apply (binv_pc s).
  - unfold pc_ok in Hp. destruct (bs_pc s); try done. apply bind_Some in H as (c & Hc & H). simplify_eq.
    destruct Hb as [H1 H2 _]. rewrite Forall_forall in H1. assert (s_threads (bs_conn s) !! t = None) as Hn.
    { simpl in Hc. by destruct (s_threads (bs_conn s) !! t). }
    assert (batch_sent c (t, bs_multi s)) as Ht.
    { simpl in Hc. rewrite Hn in Hc. simplify_eq. split_and!; [|exact (unknown_not_dropped _ _ Hi Hn)|done].
      exists Ready. split; [|done]. simpl. by rewrite lookup_insert_eq. }
    split; simpl.
    + apply Forall_app. split; [|by constructor]. apply Forall_forall. intros b Hin. by apply (submit_sent _ _ _ _ Hc), H1.
    + rewrite fmap_app. apply NoDup_app. split_and!; [done| |by apply NoDup_singleton]. intros t0 Hin ->%list_elem_of_singleton.
      apply list_elem_of_fmap in Hin as (b & E & Hin). by destruct (submit_sent _ _ _ _ Hc (H1 _ Hin)).
    + unfold pc_ok. simpl. rewrite fmap_app, elem_of_app. right. by apply list_elem_of_singleton.
  - destruct (bs_pc s); try done. repeat (case_match; try done). simplify_eq. by apply (binv_pc s).
Qed.

(** The connection of a reachable state is reachable, and the invariant holds. *)
Lemma binv_steps ls s :
  bsteps ls init_bsys = Some s -> Z.of_nat (length (s_submitted (bs_conn s))) < 2 ^ 32 -> inv (bs_conn s) /\ binv s.
Proof.
  assert (forall s0 s', bsteps ls s0 = Some s' -> inv (bs_conn s0) -> binv s0 ->
    Z.of_nat (length (s_submitted (bs_conn s'))) < 2 ^ 32 -> inv (bs_conn s') /\ binv s') as Hgen; last first.
  { intros H Hlt. by eapply Hgen; [done|apply inv_init|apply binv_init|]. }
  induction ls as [|l ls IH]; simpl; intros s0 s' H Hi Hb Hlt; [by simplify_eq|].
  apply bind_Some in H as (s1 & H1 & H). apply (IH s1); try done; [|by eapply binv_step].
  pose proof (steps_mono _ _ _ (bsteps_conn _ _ _ H)). eapply inv_steps; [by apply bstep_conn|done|lia].
Qed.

(** ** Sizes of batches *)

(** The calls come one by one, from [QueueRPC]. *)
Definition from_QueueRPC (l : blabel) : Prop :=
  match l with BReceive rpcs => exists rpc, rpcs = [rpc] /\ QueueRPC_batches rpc = true | _ => True end.

Definition multi_sized (p : bpc) (m : multi) : Prop :=
  match p with
  | Draining | Timed _ => mu_size m = rpcQueueSize /\ mlen m < rpcQueueSize
  | Waiting => mu_size m = rpcQueueSize /\ mlen m = 0
  | AboutToFlush | Flushing _ => mu_size m = rpcQueueSize /\ mlen m <= rpcQueueSize
  | Stopped => True
  end.

Definition sized (s : bsys) : Prop :=
  multi_sized (bs_pc s) (bs_multi s) /\ Forall (fun b => mlen b.2 <= rpcQueueSize) (bs_batches s).

Lemma after_drain_sized m : mu_size m = rpcQueueSize -> mlen m <= rpcQueueSize -> multi_sized (after_drain m) m.
Proof.
  intros Hs Hm. unfold after_drain. case_bool_decide; [done|]. case_bool_decide; simpl; [done|].
  case_bool_decide; simpl; split; done || lia.
Qed.

Lemma receive_sized rpc s s' :
  1 < rpcQueueSize -> sized s -> receive_rpcs [rpc] s = Some s' -> sized s'.
Proof.
  intros Hq [Hm Hb] H. unfold receive_rpcs in H. destruct (add [rpc] (bs_multi s)) as [full m] eqn:Ha.
  assert (mu_size m = mu_size (bs_multi s) /\ mlen m = mlen (bs_multi s) + 1 /\ full = bool_decide (mlen m >= mu_size m))
    as (Es & El & Ef).
  { unfold add in Ha. simplify_eq. unfold mlen, len. simpl. rewrite length_app. split_and!; [done|simpl; lia|done]. }
  destruct (bs_pc s) eqn:Hpc; simpl in H; rewrite Hpc in H; try done; destruct Hm as [Hsz Hm]; simplify_eq;
    try case_bool_decide; simplify_eq; split; simpl; rewrite ?Hpc; try done;
    first [apply after_drain_sized; done || lia | simpl; split; done || lia].
Qed.

Lemma sized_step l s s' :
  1 < rpcQueueSize -> from_QueueRPC l -> sized s -> bstep l s = Some s' -> sized s'.
Proof.
  intros Hq Hl [Hm Hb] H. destruct l; cbn [bstep QueueBatch] in H.
  - destruct (batch_context_expires l s); [done|]. apply bind_Some in H as (c & _ & H). by simplify_eq.
  - by simplify_eq.
  - destruct (c_done _); by simplify_eq.
  - destruct Hl as (rpc & -> & _). by eapply receive_sized.
  - destruct (bs_pc s) eqn:Hpc; try done. destruct (c_done _); simplify_eq. destruct Hm.
    split; [simpl; apply after_drain_sized; done || lia|done].
  - destruct (_ && _) eqn:Hs; [|done]. cbn in H. by simplify_eq.
  - destruct (bs_pc s) as [| |[]| | |] eqn:Hpc; by simplify_eq.
  - destruct (bs_pc s) as [| |[]| | |] eqn:Hpc; simplify_eq. split; [simpl in *; lia|done].
  - destruct (bs_pc s) eqn:Hpc; try done. apply bind_Some in H as (c & Hc & H). simplify_eq. destruct Hm.
    split; [done|]. apply Forall_app. by split; [|constructor].
  - destruct (bs_pc s) eqn:Hpc; try done. repeat (case_match; try done). simplify_eq. split; [|done].
    split; [done|]. unfold mlen, len. simpl. lia.
Qed.

Lemma sized_steps ls s s' :
  1 < rpcQueueSize -> Forall from_QueueRPC ls -> sized s -> bsteps ls s = Some s' -> sized s'.
Proof.
  intros Hq Hls. revert s. induction Hls as [|l ls Hl Hls IH]; simpl; intros s Hs H; [by simplify_eq|].
  apply bind_Some in H as (s1 & H1 & H). apply (IH s1); [|done]. by eapply sized_step.
Qed.

(** ** A closing client *)

Definition bdrained (s : bsys) : Prop := drained (bs_conn s) /\ bs_pc s = Stopped.

Definition binternal (l : blabel) : Prop :=
  match l with
  | BConn l => internal l
  | BExpired _ | BRefused _ | BReceive _ => False
  | _ => True
  end.

Definition bpc_left (p : bpc) : nat :=
  match p with
  | Timed false => 27 | Timed true => 26 | AboutToFlush => 25 | Flushing _ => 2 | Draining | Waiting => 1 | Stopped => 0
  end.

Definition bwork_left (s : bsys) : nat := (work_left (bs_conn s) + bpc_left (bs_pc s))%nat.

Lemma submit_left t s c : do_step (LSubmit t) s = Some c -> work_left c = (work_left s + 20)%nat.
Proof.
  simpl. destruct (s_threads s !! t) eqn:Ht; [done|]. intros [= <-]. unfold work_left, threads_left. simpl.
  rewrite map_fold_insert_L by (done || (intros; lia)). simpl. lia.
Qed.

Lemma bstep_works l s s' :
  inv (bs_conn s) -> s_fail (bs_conn s) <> NotFailed -> binternal l -> bstep l s = Some s' ->
  (bwork_left s' < bwork_left s)%nat.
Proof.
  intros Hi Hf Hl H. assert (c_done (s_cl (bs_conn s)) = true) as Hd by (by apply (inv_done _ Hi)).
  unfold bwork_left. destruct l; cbn [bstep QueueBatch] in H; try done.
  - destruct (batch_context_expires l s); [done|]. apply bind_Some in H as (c & Hc & H). simplify_eq. simpl.
    pose proof (internal_step_works _ _ _ Hc Hl). lia.
  - rewrite Hd in H. by destruct (bs_pc s).
  - destruct (bs_pc s) as [| |[]| | |]; rewrite Hd in H; try done; cbn in H; simplify_eq; simpl; lia.
  - destruct (bs_pc s) as [| |[]| | |]; simplify_eq; simpl; lia.
  - destruct (bs_pc s) as [| |[]| | |]; simplify_eq; simpl; lia.
  - destruct (bs_pc s); try done. apply bind_Some in H as (c & Hc & H). simplify_eq. simpl.
    rewrite (submit_left _ _ _ Hc). lia.
  - destruct (bs_pc s); try done. repeat (case_match; try done). simplify_eq. simpl. lia.
Qed.

(** The connection can move, and not by the expiry of a batch. *)
Lemma conn_moves l s c :
  do_step l (bs_conn s) = Some c -> internal l -> exists l' s', binternal l' /\ bstep l' s = Some s'.
Proof.
  intros Hs Hl. destruct (batch_context_expires l s) eqn:He.
  - unfold batch_context_expires in He. destruct l; try done. destruct (s_reader (bs_conn s)) as [| |t|] eqn:Hr; try done.
    exists (BConn (LDeliver (errResult ErrClientClosed))). cbn [bstep QueueBatch batch_context_expires]. cbn [do_step]. rewrite Hr.
    eexists. split; [done|]. reflexivity.
  - exists (BConn l), (set_conn c s). split; [done|]. cbn [bstep QueueBatch]. by rewrite He, Hs.
Qed.

Lemma bclosing_not_stuck s :
  inv (bs_conn s) -> binv s -> s_fail (bs_conn s) <> NotFailed ->
  bdrained s \/ exists l s', binternal l /\ bstep l s = Some s'.
Proof.
  intros Hi Hb Hf. assert (c_done (s_cl (bs_conn s)) = true) as Hd by (by apply (inv_done _ Hi)).
  destruct (closing_not_stuck _ Hi Hf) as [Hq|(l & c & Hl & Hs)]; [|right; by eapply conn_moves].
  destruct (selecting (bs_pc s)) eqn:Hsel.
  { right. exists BDone. cbn [bstep QueueBatch]. rewrite Hsel, Hd. by eexists. }
  pose proof (bi_pc s Hb) as Hp. unfold pc_ok in Hp. destruct (bs_pc s) eqn:Hpc; try done.
  - right. set (t := fresh (dom (s_threads (bs_conn s)))). exists (BFlush t). cbn [bstep QueueBatch do_step]. rewrite Hpc.
    assert (s_threads (bs_conn s) !! t = None) as -> by (apply not_elem_of_dom, is_fresh). simpl. by eexists.
  - right. exists BReturned. cbn [bstep QueueBatch]. rewrite Hpc. apply list_elem_of_fmap in Hp as ([t' m] & -> & Hin).
    pose proof (bi_batches s Hb) as Hall. rewrite Forall_forall in Hall. destruct (Hall _ Hin) as ((p & Hp & Hne) & _).
    simpl in *. rewrite Hp. destruct Hq as (Hth & _). specialize (Hth _ _ Hp). destruct p; try done. by eexists.
  - by left.
Qed.

(** ** Claims *)

Lemma live_from_all k cs : (live_from k (Some <$> cs)).*1 = seq k (length cs).
Proof. revert k. induction cs as [|c cs IH]; intros k; csimpl; [done|by rewrite IH]. Qed.

(** C14. Every call that [QueueBatch] hands over is in exactly one batch, or waits
    to be put in the next one: in every reachable state the batches given to
    [trySend] and the one being filled, one after the other, are the calls in
    the order they were handed over.  No batch is empty or sent twice, and when
    the calls come from [QueueRPC] no batch has more than [rpcQueueSize]. *)
Theorem batching_keeps_calls ls s :
  bsteps ls init_bsys = Some s -> Z.of_nat (length (s_submitted (bs_conn s))) < 2 ^ 32 ->
  Some <$> received ls = batched s ++ current s /\
  NoDup (bs_batches s).*1 /\ Forall (fun b => mu_calls b.2 <> [] /\ b.1 ∈ s_submitted (bs_conn s)) (bs_batches s) /\
  (1 < rpcQueueSize -> Forall from_QueueRPC ls -> Forall (fun b => mlen b.2 <= rpcQueueSize) (bs_batches s)).
Proof.
  intros H Hlt. destruct (binv_steps _ _ H Hlt) as [Hi [H1 H2 _]]. split_and!; [|done| |].
  - by rewrite (bsteps_calls _ _ _ H).
  - eapply Forall_impl; [exact H1|]. intros b ((p & Hp & _) & _ & Hm). split; [done|]. apply (inv_threads _ Hi). by eexists.
  - intros Hq Hl. eapply sized_steps; [done..| |exact H]. split; [|constructor]. split; [done|]. unfold mlen, len. simpl. lia.
Qed.

(** C27. When a closed client has drained and its batching goroutine has
    returned, every call that was handed over has been answered: the batch
    that holds it was answered exactly once (or lost by the reader, which needs
    an error of [inFlightDown]), or the deferred function has told it that the
    client is closed. *)
Theorem closed_batcher_answers_every_call ls s :
  bsteps ls init_bsys = Some s -> Z.of_nat (length (s_submitted (bs_conn s))) < 2 ^ 32 -> bdrained s ->
  exists m ds, bs_returned s = Some (m, ds) /\ Some <$> received ls = batched s ++ mu_calls m /\
    ds = (fun i => (i, errResult ErrClientClosed)) <$> seq 0 (length (mu_calls m)) /\
    Forall (fun b => occ b.1 ((s_log (bs_conn s)).*1 ++ s_lost (bs_conn s)) = 1%nat) (bs_batches s) /\
    (Forall no_deadline_error (ls ≫= conn_labels) -> s_lost (bs_conn s) = []).
Proof.
  intros H Hlt [Hq Hst]. destruct (binv_steps _ _ H Hlt) as [Hi [H1 H2 H3]].
  pose proof (bsteps_calls _ _ _ H) as Hc. unfold current in Hc. rewrite Hst in Hc. unfold pc_ok in H3. rewrite Hst in H3.
  destruct H3 as (m & Hm). rewrite Hm in Hc. simpl in Hc. eexists m, _. split_and!; [exact Hm|done| | |].
  - symmetry in Hc. simpl in Hc. apply fmap_app_inv in Hc as (l1 & l2 & _ & E & _).
    assert (seq 0 (length (mu_calls m)) = (live m).*1) as -> by (unfold live; by rewrite E, live_from_all, length_fmap).
    by rewrite <- list_fmap_compose.
  - eapply Forall_impl; [exact H1|]. intros b ((p & Hp & _) & Hd & _).
    pose proof (proj1 (inv_quiet _ b.1 Hi Hq)) as Ho. rewrite !occ_app in *.
    assert (occ b.1 (s_dropped (bs_conn s)) = 0%nat) as Hz.
    { destruct (decide (occ b.1 (s_dropped (bs_conn s)) = 0%nat)) as [?|Hn%occ_elem]; done. }
    assert (occ b.1 (s_submitted (bs_conn s)) = 1%nat) as Hone; [|lia].
    pose proof (proj1 (occ_NoDup _) (inv_nodup _ Hi) b.1) as Hle.
    assert (b.1 ∈ s_submitted (bs_conn s)) as Hin%occ_elem by (apply (inv_threads _ Hi); by eexists). lia.
  - intros Hl. by rewrite (lost_steps _ _ _ (bsteps_conn _ _ _ H) Hl).
Qed.

(** C28. Once [fail] has begun, the batching goroutine returns and the connection
    drains: in every reachable state this has happened or some goroutine can
    move without new calls, and every such move leaves less to do. *)
Theorem failed_batcher_drains ls s :
  bsteps ls init_bsys = Some s -> Z.of_nat (length (s_submitted (bs_conn s))) < 2 ^ 32 ->
  s_fail (bs_conn s) <> NotFailed ->
  (bdrained s \/ exists l s', binternal l /\ bstep l s = Some s') /\
  (forall l s', binternal l -> bstep l s = Some s' -> (bwork_left s' < bwork_left s)%nat).
Proof.
  intros H Hlt Hf. destruct (binv_steps _ _ H Hlt) as [Hi Hb]. split; [by apply bclosing_not_stuck|].
  intros l s' Hl Hs. by eapply bstep_works.
Qed.

End Batching.

(** ** A run *)

(** Four calls are handed over, with batches of two: the first batch fills up
    while draining and is answered, the second is flushed by the timer and
    fails with the connection, and the last call, handed over to the closed
    client, is told so by the deferred function.  A fifth is refused. *)
Definition sample_batching : list blabel :=
  [BDefault; BReceive [sample_get 0]; BReceive [sample_get 1]; BFlush 1%nat; BConn (LRegister 1%nat);
   BConn (LWrite 1%nat true); BConn (LUp 1%nat true); BReturned; BReceive [sample_get 2]; BDefault;
   BConn (LReceive 1); BConn (LDown true); BConn (LDeliver (okResult (MMulti (mkMultiResponse []))));
   BFire; BTimeout; BFlush 2%nat; BConn (LRegister 2%nat); BConn (LWrite 2%nat false); BConn LFail;
   BRefused [sample_get 4]; BConn LCloseConn; BConn LSwap; BConn LTell; BConn LTell; BConn (LUnregister 2%nat);
   BReturned; BReceive [sample_get 3]; BDone; BConn LReaderDone].

Definition batching_end : bsys := default (init_bsys 2) (bsteps 2 20 sample_batching (init_bsys 2)).
Definition batching_closing : bsys := default (init_bsys 2) (bsteps 2 20 (take 19 sample_batching) (init_bsys 2)).

Lemma batching_keeps_calls_witness :
  bsteps 2 20 sample_batching (init_bsys 2) = Some batching_end /\
  mu_calls <$> (bs_batches batching_end).*2 = [[Some (sample_get 0); Some (sample_get 1)]; [Some (sample_get 2)]] /\
  Forall (fun b => mlen b.2 <= 2) (bs_batches batching_end).
Proof.
  split; [vm_compute; reflexivity|]. split; [vm_compute; reflexivity|].
  apply (batching_keeps_calls 2 20 sample_batching); [vm_compute; reflexivity..|lia|].
  repeat constructor; simpl; eexists; split; reflexivity.
Defined.

Lemma closed_batcher_answers_every_call_witness :
  exists m ds, bs_returned batching_end = Some (m, ds) /\ ds = [(0%nat, errResult ErrClientClosed)].
Proof.
  destruct (closed_batcher_answers_every_call 2 20 sample_batching batching_end) as (m & ds & Hr & _ & Hds & _).
  - vm_compute. reflexivity.
  - vm_compute. reflexivity.
  - split; [|vm_compute; reflexivity]. split_and!; [|vm_compute; reflexivity..]. apply (bool_decide_unpack _). vm_compute. exact I.
  - exists m, ds. split; [done|]. vm_compute in Hr. simplify_eq. reflexivity.
Defined.

Lemma failed_batcher_drains_witness :
  bs_pc batching_closing = Flushing 2 /\
  exists l s', binternal l /\ bstep 2 20 l batching_closing = Some s' /\ (bwork_left s' < bwork_left batching_closing)%nat.
Proof.
  split; [vm_compute; reflexivity|].
  destruct (failed_batcher_drains 2 20 (take 19 sample_batching) batching_closing) as [[Hd|(l & s' & Hl & Hs)] Hw].
  - vm_compute. reflexivity.
  - vm_compute. reflexivity.
  - vm_compute. discriminate.
  - destruct Hd as [_ Hd]. vm_compute in Hd. discriminate.
  - exists l, s'. split_and!; [done|done|]. by apply (Hw l).
Defined.
