(* ===== verification/ClientRegionCache.v ===== *)
(** * The cache of region clients: caches.go [clientRegionCache]

    Which regions use which connection.  Region clients are objects with an
    immutable address; the cache holds at most one of them per address.  The
    loops over the maps run in an unspecified order. *)

From S2P Require Import Prelude RegionInfo.

Record clients := mkClients {
  cc_regions : gmap cptr (gset ptr);
  cc_addr : gmap cptr string;        (* the region clients created so far *)
  cc_next : cptr;
  cc_closed : gset cptr;             (* Close was called on them *)
}.

Definition no_clients : clients := mkClients ∅ ∅ 0 ∅.

Definition set_regions (m : gmap cptr (gset ptr)) (s : clients) : clients :=
  mkClients m (cc_addr s) (cc_next s) (cc_closed s).

(** [newClient()]: a new object for the address. *)
Definition new_client (addr : string) (s : clients) : cptr * clients :=
  (cc_next s, mkClients (cc_regions s) (<[cc_next s := addr]> (cc_addr s)) (S (cc_next s)) (cc_closed s)).

(** [existingClient.Addr()] *)
Definition Addr (c : cptr) (s : clients) : option string := cc_addr s !! c.

(** The loop of [put]: the first client with the address. *)
Fixpoint find_client (l : list (cptr * gset ptr)) (addr : string) (s : clients) : option (cptr * gset ptr) :=
  match l with
  | [] => None
  | (c, regions) :: l => if bool_decide (Addr c s = Some addr) then Some (c, regions) else find_client l addr s
  end.

Section Ops.
Context {HO : RangeOrder}.

Definition cput (site : list nat) (addr : string) (r : ptr) (s : clients) : cptr * clients :=
  match find_client (range site (cc_regions s)) addr s with
  | Some (c, regions) => (c, set_regions (<[c := {[r]} ∪ regions]> (cc_regions s)) s)
  | None =>
      let '(c, s) := new_client addr s in
      (c, set_regions (<[c := {[r]}]> (cc_regions s)) s)
  end.

Definition cdel {E : Type} (r : ptr) (s : clients) (h : heap) : outcome E (clients * heap) :=
  let* c := Client r h in
  match c with
  | None => Ok (s, h)
  | Some c =>
      let* h := SetClient r None h in
      match cc_regions s !! c with
      | None => Ok (s, h)                (* delete on a nil map *)
      | Some regions => Ok (set_regions (<[c := regions ∖ {[r]}]> (cc_regions s)) s, h)
      end
  end.

(** The regions that used the client. *)
Definition cclientDown (c : cptr) (s : clients) : gset ptr * clients :=
  (default ∅ (cc_regions s !! c), set_regions (delete c (cc_regions s)) s).

End Ops.

(** The loop over a set of regions. *)
Lemma range_set `{RangeOrder} site (X : gset ptr) : fst <$> range site (gset_to_gmap tt X) ≡ₚ elements X.
Proof.
  apply NoDup_Permutation; [apply NoDup_range|apply NoDup_elements|]. intros x.
  rewrite elem_of_elements, list_elem_of_fmap. split.
  - intros ([y u] & -> & Hin%elem_of_range). by apply lookup_gset_to_gmap_Some in Hin as [? _].
  - intros Hx. exists (x, tt). split; [done|]. by apply elem_of_range, lookup_gset_to_gmap_Some.
Qed.

(** ** One client per address *)

Record clients_ok (s : clients) : Prop := {
  co_known c : is_Some (cc_regions s !! c) -> is_Some (cc_addr s !! c);
  co_fresh c : is_Some (cc_addr s !! c) -> (c < cc_next s)%nat;
  co_inj c c' a : is_Some (cc_regions s !! c) -> is_Some (cc_regions s !! c') ->
    cc_addr s !! c = Some a -> cc_addr s !! c' = Some a -> c = c';
}.

Lemma no_clients_ok : clients_ok no_clients.
Proof. split; simpl; intros *; rewrite ?lookup_empty; by intros []. Qed.

Lemma find_client_Some l addr s c regions :
  find_client l addr s = Some (c, regions) -> (c, regions) ∈ l /\ Addr c s = Some addr.
Proof.
  induction l as [|[c' rs] l IH]; simpl; [done|]. case_bool_decide; [intros [= -> ->]; split; [by left|done]|].
  intros Hf. destruct (IH Hf). split; [by right|done].
Qed.

Lemma find_client_None l addr s c regions :
  find_client l addr s = None -> (c, regions) ∈ l -> Addr c s <> Some addr.
Proof.
  induction l as [|[c' rs] l IH]; simpl; [intros _ H; by apply elem_of_nil in H|].
  case_bool_decide; [done|]. intros Hf [[= -> ->]|Hin]%elem_of_cons; auto.
Qed.

(** Changing the regions of the clients that are there. *)
Lemma set_regions_ok m s :
  clients_ok s -> (forall c, is_Some (m !! c) -> is_Some (cc_regions s !! c)) -> clients_ok (set_regions m s).
Proof.
  intros [Hk Hf Hi] Hm. split; simpl; [|done|].
  - intros c Hc. by apply Hk, Hm.
  - intros c c' a Hc Hc'. apply Hi; by apply Hm.
Qed.

Section Specs.
Context {HO : RangeOrder}.

(** [put] whatever the order of the iteration. *)
Lemma cput_spec site addr r s :
  clients_ok s ->
  (exists c regions, cc_regions s !! c = Some regions /\ Addr c s = Some addr /\
    cput site addr r s = (c, set_regions (<[c := {[r]} ∪ regions]> (cc_regions s)) s)) \/
  ((forall c, is_Some (cc_regions s !! c) -> Addr c s <> Some addr) /\
   cput site addr r s = (cc_next s, mkClients (<[cc_next s := {[r]}]> (cc_regions s))
     (<[cc_next s := addr]> (cc_addr s)) (S (cc_next s)) (cc_closed s))).
Proof.
  intros Hok. unfold cput. destruct (find_client _ _ _) as [[c regions]|] eqn:Hf.
  - left. apply find_client_Some in Hf as [Hin Ha]. apply elem_of_range in Hin. by exists c, regions.
  - right. split; [|done]. intros c [regions Hc]. eapply find_client_None; [done|]. by apply elem_of_range.
Qed.

Lemma cput_ok site addr r s : clients_ok s -> clients_ok (snd (cput site addr r s)).
Proof.
  intros Hok. destruct (cput_spec site addr r s Hok) as [(c & regions & Hc & Ha & ->)|[Hnone ->]]; simpl.
  - apply set_regions_ok; [done|]. intros c'. destruct (decide (c = c')) as [<-|?]; [|by rewrite lookup_insert_ne].
    intros _. by eexists.
  - destruct Hok as [Hk Hf Hi].
    assert (forall c, is_Some (cc_regions s !! c) -> c <> cc_next s) as Hlt.
    { intros c Hc ->. apply Hk, Hf in Hc. lia. }
    split; simpl.
    + intros c. destruct (decide (cc_next s = c)) as [<-|?]; [rewrite !lookup_insert_eq; by eexists|].
      rewrite !lookup_insert_ne by done. apply Hk.
    + intros c. destruct (decide (cc_next s = c)) as [<-|?]; [lia|]. rewrite lookup_insert_ne by done.
      intros Hc%Hf. lia.
    + intros c c' a. destruct (decide (cc_next s = c)) as [<-|?], (decide (cc_next s = c')) as [<-|?]; try done;
        rewrite ?lookup_insert_eq, ?lookup_insert_ne by done; intros H1 H2 H3 H4.
      * simplify_eq. by destruct (Hnone c' H2).
      * simplify_eq. by destruct (Hnone c H1).
      * by eapply Hi.
Qed.

Lemma cdel_ok {E : Type} r s h s' h' : clients_ok s -> @cdel E r s h = Ok (s', h') -> clients_ok s'.
Proof.
  intros Hok H. unfold cdel in H. ok_inv. destruct r0 as [c|]; [|by simplify_eq]. ok_inv.
  destruct (cc_regions s !! c) as [regions|] eqn:Hc; [|by simplify_eq]. ok_inv. simplify_eq.
  apply set_regions_ok; [done|]. intros c'. destruct (decide (c = c')) as [<-|?]; [|by rewrite lookup_insert_ne].
  intros _. by eexists.
Qed.

Lemma cclientDown_ok c s : clients_ok s -> clients_ok (snd (cclientDown c s)).
Proof.
  intros Hok. apply set_regions_ok; [done|]. intros c' [x Hx]. apply lookup_delete_Some in Hx as [_ Hx]. by exists x.
Qed.

End Specs.

(** ** Histories *)

Inductive cc_op :=
| OpPut (addr : string) (r : ptr)
| OpDel (r : ptr)
| OpDown (c : cptr)
| OpSetClient (r : ptr) (c : option cptr).   (* establishRegion, clientDown of rpc.go *)

Section Run.
Context {HO : RangeOrder}.

Definition cc_step {E : Type} (site : list nat) (o : cc_op) (s : clients * heap) : outcome E (clients * heap) :=
  match o with
  | OpPut addr r => Ok (snd (cput site addr r (fst s)), snd s)
  | OpDel r => cdel r (fst s) (snd s)
  | OpDown c => Ok (snd (cclientDown c (fst s)), snd s)
  | OpSetClient r c => let* h := SetClient r c (snd s) in Ok (fst s, h)
  end.

Fixpoint cc_run {E : Type} (site : list nat) (ops : list cc_op) (s : clients * heap) : outcome E (clients * heap) :=
  match ops with
  | [] => Ok s
  | o :: ops => let* s := cc_step (length ops :: site) o s in cc_run site ops s
  end.

Lemma cc_run_ok {E : Type} site ops s s' :
  @cc_run E site ops s = Ok s' -> clients_ok (fst s) -> clients_ok (fst s').
Proof.
  revert s. induction ops as [|o ops IH]; simpl; intros s H Hok; [by simplify_eq|]. ok_inv.
  apply (IH r H). destruct o; simpl in Hr; ok_inv; subst; simpl.
  - by apply cput_ok.
  - destruct r. by eapply cdel_ok.
  - by apply cclientDown_ok.
  - done.
Qed.

(** After any history of the cache, whatever the iteration orders, there is
    at most one region client per address, and [put] returns the one there is,
    or a new one: it has the address, it is the only one in the cache that has,
    the region is now among its regions beside those it had, and the regions of
    the other clients are as before. *)
Theorem put_one_client_per_address {E : Type} site ops h s h' addr r c s' :
  @cc_run E site ops (no_clients, h) = Ok (s, h') -> cput site addr r s = (c, s') ->
  Addr c s' = Some addr /\
  (forall c', is_Some (cc_regions s' !! c') -> Addr c' s' = Some addr -> c' = c) /\
  cc_regions s' !! c = Some ({[r]} ∪ default ∅ (cc_regions s !! c)) /\
  (forall c', c' <> c -> cc_regions s' !! c' = cc_regions s !! c' /\ Addr c' s' = Addr c' s).
Proof.
  intros Hrun Hput. pose proof (cc_run_ok _ _ _ _ Hrun no_clients_ok) as Hok. simpl in Hok.
  pose proof (cput_ok site addr r s Hok) as Hok'. rewrite Hput in Hok'. simpl in Hok'.
  destruct (cput_spec site addr r s Hok) as [(c0 & regions & Hc & Ha & Heq)|[Hnone Heq]];
    rewrite Hput in Heq; injection Heq as -> ->.
  - split; [done|]. split.
    { intros c' Hc' Ha'. apply (co_inj _ Hok' c' c0 addr); try done. simpl. rewrite lookup_insert_eq. by eexists. }
    simpl. rewrite lookup_insert_eq, Hc. split; [done|]. intros c' Hne. by rewrite lookup_insert_ne.
  - unfold Addr in *. simpl in *. rewrite !lookup_insert_eq. split; [done|]. split.
    { intros c' Hc' Ha'. apply (co_inj _ Hok' c' (cc_next s) addr); try done; simpl; rewrite lookup_insert_eq; by eexists. }
    assert (cc_regions s !! cc_next s = None) as ->.
    { destruct (cc_regions s !! cc_next s) eqn:Hx; [|done].
      assert (cc_next s < cc_next s)%nat; [|lia]. apply (co_fresh _ Hok), (co_known _ Hok). by eexists. }
    simpl. rewrite (right_id_L ∅ (∪)). split; [done|]. intros c' Hne. by rewrite !lookup_insert_ne.
Qed.

End Run.

(** Two regions of one server, one of another. *)
Definition sample_ops : list cc_op := [OpPut "a:1" 0%nat; OpPut "b:1" 1%nat; OpSetClient 0%nat (Some 0%nat); OpDown 1%nat].

Lemma put_one_client_per_address_witness :
  exists s h', @cc_run key_order string [] sample_ops (no_clients, one_region) = Ok (s, h') /\
    Addr 0%nat (snd (cput [] "a:1" 2%nat s)) = Some "a:1"%string /\ fst (cput [] "a:1" 2%nat s) = 0%nat.
Proof.
  destruct (@cc_run key_order string [] sample_ops (no_clients, one_region)) as [[s h']| |] eqn:Hrun;
    [|vm_compute in Hrun; discriminate..].
  exists s, h'. split; [reflexivity|].
  assert (cput [] "a:1" 2%nat s = (0%nat, snd (cput [] "a:1" 2%nat s))) as Hput
    by (vm_compute in Hrun; injection Hrun as <- _; vm_compute; reflexivity).
  split; [|by rewrite Hput].
  destruct (put_one_client_per_address _ _ _ _ _ _ _ _ _ Hrun Hput) as [Ha _]. exact Ha.
Defined.
