(* ===== verification/World.v ===== *)
(** * The state of the client and its schedules: client.go, rpc.go

    The goroutines of a client share the regions, the two caches, the [done]
    channel and [closeOnce].  A function of rpc.go is modelled as a run of one
    goroutine against a schedule: before each access to the shared state an [event] lets the other
    goroutines change it, and where the function waits (for a region to become
    available, for the answer of a server, for a lookup, for a timer) the event
    says what it got.  A schedule that does not fit leaves the goroutine [Blocked], one
    that ends leaves it [Waiting]; theorems quantify over all schedules.

    Three fields are ghost state: [w_owned] are the regions that this goroutine
    has marked unavailable and has not yet marked available or handed to a
    goroutine it started; [w_private] are those it has allocated and not yet
    shared; [w_frame] is the same of the other goroutines, with what the state was
    at the last turn.  No definition reads them but to update them. *)

From S2P Require Import Prelude RegionName Pb RegionInfo RegionTree KeyRegionCache Hrpc RpcError Multi ClientRegionCache.

(** ** The shared state *)

Inductive ClientType := RegionClientType | MasterClientType.

#[global] Instance ClientType_eq_dec : EqDecision ClientType.
Proof. solve_decision. Defined.

(** The state of a [sync.Once]: its function has not been called, is running, or
    has returned. *)
Inductive once := OnceNew | OnceRunning | OnceDone.

#[global] Instance once_eq_dec : EqDecision once.
Proof. solve_decision. Defined.

(** Ghost: what the other goroutines own and have not shared, and what the shared
    state was when the goroutine got its turn. *)
Record frame := mkFrame {
  f_owned : gset ptr;
  f_private : gset ptr;
  f_heap : heap;
  f_done : bool;
  f_once : once;
  f_closed : gset cptr;
  f_spawned : list (ptr * string);
  f_mine : gset ptr;                      (* what the goroutine itself had not shared *)
}.

(** The frame of a goroutine that is alone and starts at the heap [h]. *)
Definition alone (h : heap) : frame := mkFrame ∅ ∅ h false OnceNew ∅ [] ∅.

Record world `{RegionTree ptr} := mkWorld {
  w_heap : heap;
  w_regions : tree;
  w_clients : clients;
  w_made : bool;                          (* the done channel and the tree and maps of the caches are not nil *)
  w_done : bool;                          (* the done channel is closed *)
  w_once : once;                          (* closeOnce *)
  w_spawned : list (ptr * string);        (* goroutines started: establishRegion with its address *)
  w_owned : gset ptr;                     (* ghost: the regions this goroutine has to make available *)
  w_private : gset ptr;                   (* ghost: the regions only this goroutine refers to *)
  w_frame : frame;                        (* ghost: the same of the other goroutines *)
}.

(** The errors of rpc.go; [CtxErr] is [ctx.Err()]. *)
Inductive cerr :=
| TableNotFound
| ErrCannotFindRegion
| ErrClientClosed
| CtxErr
| CallErr (e : rpc_error)
| LookupErr (e : error)
| MetaParseErr (e : parse_error)
| MetaWrongTable
| MetaWrongRegion.

(** ** Schedules *)

(** Which case of a [select] on the context, [done] and a channel was taken. *)
Inductive wake := WokenByCtx | WokenByDone | WokenByChan.

(** What the scan of the meta table returned. *)
Inductive scan_answer := ScanRow (cells : list Cell) | ScanEOF | ScanError (e : cerr).

Inductive dial_answer := DialOk | DialCanceled | DialFailed.

Inductive answer :=
| AnsGo                                  (* access to the shared state *)
| AnsWake (w : wake)
| AnsSleep (canceled : bool)
| AnsScan (r : scan_answer)
| AnsZk (r : string + error)
| AnsResult (r : option RPCResult)       (* [None]: the context was done first *)
| AnsDial (d : dial_answer)
| AnsResultOf (c : nat) (r : option RPCResult).   (* of the call [c] of a batch *)

Section Monad.
Context {T : RegionTree ptr}.

(** Why a run has not returned: the schedule does not fit, the fuel was not
    enough, or the schedule has ended and the goroutine, which left the state
    [w] behind, waits for its next turn. *)
Inductive halt := Blocked | NoFuel | Waiting (w : world).

Record event := mkEvent { ev_env : world -> world; ev_ans : answer }.

Definition M (A : Type) : Type := list event -> world -> outcome halt (A * list event * world).

#[global] Instance M_ret : MRet M := fun A a evs w => Ok (a, evs, w).
#[global] Instance M_bind : MBind M := fun A B f m evs w =>
  match m evs w with
  | Ok (a, evs, w) => f a evs w
  | Err e => Err e
  | Panic => Panic
  end.

Lemma bind_ok {A B : Type} (m : M A) (f : A -> M B) a evs evs' w w' :
  m evs w = Ok (a, evs', w') -> (m ≫= f) evs w = f a evs' w'.
Proof. intros H. unfold mbind, M_bind. by rewrite H. Qed.

Lemma bind_Ok_inv {A B : Type} (m : M A) (f : A -> M B) b evs evs' w w' :
  (m ≫= f) evs w = Ok (b, evs', w') ->
  exists a evs1 w1, m evs w = Ok (a, evs1, w1) /\ f a evs1 w1 = Ok (b, evs', w').
Proof. unfold mbind, M_bind. destruct (m evs w) as [[[a evs1] w1]| |]; [|done..]. eauto. Qed.

(** Let the others run, then look at the event. *)
Definition await {A : Type} (f : answer -> world -> outcome halt (A * world)) : M A := fun evs w =>
  match evs with
  | [] => Err (Waiting w)
  | e :: evs =>
      match f (ev_ans e) (ev_env e w) with
      | Ok (a, w) => Ok (a, evs, w)
      | Err e => Err e
      | Panic => Panic
      end
  end.

(** One access to the shared state. *)
Definition atomic {A : Type} (f : world -> outcome halt (A * world)) : M A :=
  await (fun a w => match a with AnsGo => f w | _ => Err Blocked end).

(** Operations on the shared state crash or succeed, they do not return errors. *)
Definition no_err {A : Type} (o : outcome Empty_set A) : outcome halt A :=
  match o with
  | Ok a => Ok a
  | Err e => match e with end
  | Panic => Panic
  end.

Definition fatal {A : Type} : M A := fun _ _ => Panic.
Definition no_fuel {A : Type} : M A := fun _ _ => Err NoFuel.

(** *** Updates *)

Definition set_heap (h : heap) (w : world) : world :=
  mkWorld _ h (w_regions w) (w_clients w) (w_made w) (w_done w) (w_once w) (w_spawned w) (w_owned w) (w_private w) (w_frame w).
Definition set_caches (t : tree) (h : heap) (w : world) : world :=
  mkWorld _ h t (w_clients w) (w_made w) (w_done w) (w_once w) (w_spawned w) (w_owned w) (w_private w) (w_frame w).
Definition set_clients (c : clients) (h : heap) (w : world) : world :=
  mkWorld _ h (w_regions w) c (w_made w) (w_done w) (w_once w) (w_spawned w) (w_owned w) (w_private w) (w_frame w).
Definition set_ghost (o p : gset ptr) (w : world) : world :=
  mkWorld _ (w_heap w) (w_regions w) (w_clients w) (w_made w) (w_done w) (w_once w) (w_spawned w) o p (w_frame w).

(** [go c.establishRegion(reg, addr)]: the new goroutine is to make the region available. *)
Definition spawn (reg : ptr) (addr : string) : M unit := fun evs w =>
  Ok (tt, evs, mkWorld _ (w_heap w) (w_regions w) (w_clients w) (w_made w) (w_done w) (w_once w) (w_spawned w ++ [(reg, addr)])
    (w_owned w ∖ {[reg]}) (w_private w) (w_frame w)).

(** Drop the only reference to a region: nobody will refer to it again. *)
Definition discard (reg : ptr) : M unit := fun evs w =>
  Ok (tt, evs, set_ghost (w_owned w ∖ {[reg]}) (w_private w) w).

Definition on_heap {A : Type} (f : heap -> outcome Empty_set (A * heap)) : M A :=
  atomic (fun w => let* r := no_err (f (w_heap w)) in Ok (fst r, set_heap (snd r) w)).

Definition read_heap {A : Type} (f : heap -> outcome Empty_set A) : M A :=
  atomic (fun w => let* a := no_err (f (w_heap w)) in Ok (a, w)).

Definition markUnavailable (p : ptr) : M bool :=
  atomic (fun w =>
    let* r := no_err (MarkUnavailable p (w_heap w)) in
    Ok (fst r, set_ghost (if fst r then {[p]} ∪ w_owned w else w_owned w) (w_private w) (set_heap (snd r) w))).
Definition markAvailable (p : ptr) : M unit :=
  atomic (fun w =>
    let* h := no_err (MarkAvailable p (w_heap w)) in
    Ok (tt, set_ghost (w_owned w ∖ {[p]}) (w_private w) (set_heap h w))).
Definition setClient (p : ptr) (c : option cptr) : M unit :=
  on_heap (fun h => let* h := SetClient p c h in Ok (tt, h)).

(** The tree and the map of clients are nil in an admin client: the methods of the
    tree crash, and of the operations of the map the assignment of [put]. *)
Definition regions_put (p : ptr) : M (list ptr * bool) :=
  atomic (fun w =>
    if w_made w then
      let* r := no_err (put p (w_regions w) (w_heap w)) in
      let '(os, replaced, t, h) := r in
      Ok ((os, replaced),
        set_ghost (w_owned w) (if replaced then w_private w ∖ {[p]} else w_private w) (set_caches t h w))
    else Panic).
Definition regions_del (p : ptr) : M unit :=
  atomic (fun w =>
    if w_made w then
      let* r := no_err (del p (w_regions w) (w_heap w)) in
      let '(_, t, h) := r in Ok (tt, set_caches t h w)
    else Panic).
Definition clients_del (p : ptr) : M unit :=
  atomic (fun w => let* r := no_err (cdel p (w_clients w) (w_heap w)) in Ok (tt, set_clients (fst r) (snd r) w)).
Definition clients_put `{RangeOrder} (addr : string) (p : ptr) : M cptr :=
  atomic (fun w =>
    if w_made w then let '(c, s) := cput [] addr p (w_clients w) in Ok (c, set_clients s (w_heap w) w) else Panic).
Definition clients_down (c : cptr) : M (gset ptr) :=
  atomic (fun w => let '(rs, s) := cclientDown c (w_clients w) in Ok (rs, set_clients s (w_heap w) w)).

(** *** Contexts *)

(** The context of an RPC is cancelled from outside, that of a region by
    [MarkDead], the background context never. *)
Inductive context := CtxRpc | CtxRegion (p : ptr) | CtxBackground.

Definition ctx_may_be_done (ctx : context) (w : world) : bool :=
  match ctx with
  | CtxRpc => true
  | CtxBackground => false
  | CtxRegion p => match h_infos (w_heap w) !! p with Some i => r_dead i | None => false end
  end.

(** [select] on [ctx.Done()], [c.done] and the availability channel [ch]. *)
Definition wait_available (ctx : context) (ch : chan) : M (option cerr) :=
  await (fun a w =>
    match a with
    | AnsWake WokenByCtx => if ctx_may_be_done ctx w then Ok (Some CtxErr, w) else Err Blocked
    | AnsWake WokenByDone => if w_done w then Ok (Some ErrClientClosed, w) else Err Blocked
    | AnsWake WokenByChan => if bool_decide (ch ∈ h_closed (w_heap w)) then Ok (None, w) else Err Blocked
    | _ => Err Blocked
    end).

(** ** sleepAndIncreaseBackoff *)

Definition Millisecond : Z := 1000000.
Definition Second : Z := 1000 * Millisecond.
Definition backoffStart : Z := 16 * Millisecond.

Definition increase (backoff : Z) : Z :=
  if bool_decide (backoff < 5 * Second) then backoff * 2
  else if bool_decide (backoff < 30 * Second) then backoff + 5 * Second
  else backoff.

Definition sleepAndIncreaseBackoff (ctx : context) (backoff : Z) : M (Z + cerr) :=
  if bool_decide (backoff = 0) then mret (inl backoffStart)
  else await (fun a w =>
    match a with
    | AnsSleep canceled =>
        if canceled then (if ctx_may_be_done ctx w then Ok (inr CtxErr, w) else Err Blocked)
        else Ok (inl (increase backoff), w)
    | _ => Err Blocked
    end).

End Monad.

(** The waits of a call that is retried over and over: 16 ms doubled up to
    8.192 s, then 5 s more each time, and 33.192 s from then on. *)
Definition waits (n : nat) : Z := Nat.iter n increase backoffStart.

Lemma waits_S n : waits (S n) = increase (waits n).
Proof. done. Qed.

Lemma waits_cap n : (14 <= n)%nat -> waits n = 33192 * Millisecond.
Proof.
  intros Hn. replace n with ((n - 14) + 14)%nat by lia. induction (n - 14)%nat as [|k IH]; [reflexivity|].
  change (S k + 14)%nat with (S (k + 14)). rewrite waits_S, IH. reflexivity.
Qed.

(** C40. The waits between retries never decrease, start at 16 ms and are bounded
    by 33.192 s, a bound that the fifteenth wait reaches and keeps. *)
Theorem backoff_bounded n :
  backoffStart <= waits n <= waits (S n) /\ waits (S n) <= 33192 * Millisecond /\
  ((14 <= n)%nat -> waits n = 33192 * Millisecond).
Proof.
  split_and!; [| | |apply waits_cap].
  - destruct (le_lt_dec 14 n) as [Hn|Hn]; [rewrite waits_cap by done; by vm_compute|].
    do 14 (destruct n as [|n]; [by vm_compute|]). lia.
  - destruct (le_lt_dec 14 n) as [Hn|Hn]; [rewrite !waits_cap by lia; lia|].
    do 14 (destruct n as [|n]; [by vm_compute|]). lia.
  - destruct (le_lt_dec 14 n) as [Hn|Hn]; [rewrite waits_cap by lia; lia|].
    do 14 (destruct n as [|n]; [by vm_compute|]). lia.
Qed.
