(* ===== verification/Dial.v ===== *)
(** * Opening and closing a connection: region/new.go [Dial], region/client.go [fail], [Close]

    [Dial] connects, says hello and starts the goroutines of the client; what
    the network does is a record of results.  The state is the one of
    [RegionClient] before its goroutines run: whether [done] is closed, whether
    there is a connection and whether it is closed.  Other goroutines may call
    [Close] between any two of its steps; they read the field [conn] as [Dial] has
    left it, although no lock orders the two. *)

From S2P Require Import Prelude Pb Hrpc RpcError Multi Compressor Wire RegionClient World.

Definition ctype_name (t : ClientType) : string :=
  match t with RegionClientType => "ClientService" | MasterClientType => "MasterService" end.

Inductive goroutine := ProcessRPCs | ReceiveRPCs.

Record dialing := mkDialing {
  d_cl : rclient;
  d_conn : bool;                      (* conn is not nil *)
  d_dialOnce : bool;
  d_failing : bool;                   (* a goroutine is inside the function of failOnce, done is closed *)
  d_started : list goroutine;
  d_told : list (token * RPCResult);  (* answers of failSentRPCs *)
}.

Definition new_dialing : dialing := mkDialing newClient false false false [] [].

Section Dial.
Context {HO : RangeOrder} {PB : Protobuf}.
Variable compressor : option Codec.
Variable effectiveUser : string.
Variable ctype : ClientType.

(** *** [fail]

    The function of [failOnce] in two steps, as other goroutines run between
    them: [done] is closed by the first call, and only there; then comes the look
    at the connection. *)
Definition fail_enter (d : dialing) : dialing :=
  if c_done (d_cl d) then d
  else mkDialing (closeDone (d_cl d)) (d_conn d) (d_dialOnce d) true (d_started d) (d_told d).

Definition fail_finish (d : dialing) : dialing :=
  if d_failing d then
    let c := if d_conn d then closeConn (d_cl d) else d_cl d in
    let '(sent, c) := takeSent c in
    mkDialing c (d_conn d) (d_dialOnce d) false (d_started d)
      (d_told d ++ ((fun t => (t, errResult RpcError.ErrClientClosed)) <$> (range [] sent).*2))
  else d.

(** A call returns when the function has: its own, or that of the call that runs it. *)
Definition fail (d : dialing) : dialing := fail_finish (fail_enter d).

Definition Close (d : dialing) : dialing := fail d.

(** What other goroutines do that call [Close], any number of them. *)
Inductive fail_step := Enter | Finish.

#[local] Instance fail_step_eq_dec : EqDecision fail_step.
Proof. solve_decision. Defined.

Definition do_fail (d : dialing) (x : fail_step) : dialing :=
  match x with Enter => fail_enter d | Finish => fail_finish d end.

Definition others (l : list fail_step) (d : dialing) : dialing := foldl do_fail d l.

(** *** [Dial] *)

(** What the network and the context do during [Dial], and the others: before it
    and during [DialContext], when [conn] is still nil; when it is set; before the hello; when
    that is written; before the goroutines are started; and before the last look
    at [done]. *)
Record dial_io := mkDialIO {
  io_connect : bool;                  (* DialContext succeeds *)
  io_deadline : option bool;          (* the context has a deadline: whether it can be set *)
  io_write : bool;                    (* the hello is written *)
  io_reset : bool;                    (* the deadline is reset *)
  io_connecting : list fail_step;
  io_connected : list fail_step;
  io_hello : list fail_step;
  io_written : list fail_step;
  io_starting : list fail_step;
  io_returning : list fail_step;
}.

Definition set_connected (d : dialing) : dialing :=
  mkDialing (d_cl d) true (d_dialOnce d) (d_failing d) (d_started d) (d_told d).
Definition start (gs : list goroutine) (d : dialing) : dialing :=
  mkDialing (d_cl d) (d_conn d) (d_dialOnce d) (d_failing d) (d_started d ++ gs) (d_told d).
Definition set_dialed (d : dialing) : dialing :=
  mkDialing (d_cl d) (d_conn d) true (d_failing d) (d_started d) (d_told d).

(** The function given to [dialOnce.Do]; also the bytes it writes. *)
Definition dial_body (io : dial_io) (d : dialing) : outcome Empty_set (dialing * list bytes) :=
  let d := others (io_connecting io) d in
  if negb (io_connect io) then Ok (fail d, [])
  else
    let d := others (io_connected io) (set_connected d) in
    match io_deadline io with
    | Some false => Ok (fail d, [])
    | _ =>
        let d := others (io_hello io) d in
        match sendHello compressor effectiveUser (ctype_name ctype) with
        | Ok hello =>
            if negb (io_write io) then Ok (fail d, [])
            else
              let d := others (io_written io) d in
              if negb (io_reset io) then Ok (fail d, [hello])
              else
                let d := others (io_starting io) d in
                Ok (start ((if bool_decide (ctype = RegionClientType) then [ProcessRPCs] else []) ++ [ReceiveRPCs]) d, [hello])
        | Err _ => Ok (fail d, [])
        | Panic => Panic
        end
    end.

Definition Dial (io : dial_io) (d : dialing) : outcome Empty_set (option rpc_error * dialing * list bytes) :=
  let* x := if d_dialOnce d then Ok (d, []) else dial_body io (set_dialed d) in
  let d := others (io_returning io) (fst x) in
  Ok (if c_done (d_cl d) then Some RpcError.ErrClientClosed else None, d, snd x).

Definition succeeds (io : dial_io) : bool :=
  io_connect io && negb (bool_decide (io_deadline io = Some false)) &&
  match sendHello compressor effectiveUser (ctype_name ctype) with Ok _ => true | _ => false end &&
  io_write io && io_reset io.

Definition goroutines : list goroutine :=
  (if bool_decide (ctype = RegionClientType) then [ProcessRPCs] else []) ++ [ReceiveRPCs].

(** Somebody else calls [Close] before [Dial] looks at [done]. *)
Definition closer (io : dial_io) : bool :=
  bool_decide (Enter ∈ io_connecting io ++ io_connected io ++ io_hello io ++ io_written io ++ io_starting io ++ io_returning io).

(** The function of [failOnce] has come to its end before there was a connection. *)
Definition closed_early (io : dial_io) (d : dialing) : bool :=
  let d := others (io_connecting io) d in c_done (d_cl d) && negb (d_failing d).

(** *** How far the closing is *)

Inductive phase := Open | Closing | Closed.

(** [seen]: the function of [failOnce] has found a connection, or will. *)
Record at_phase (p : phase) (seen : bool) (st : list goroutine) (d : dialing) : Prop := {
  ap_done : c_done (d_cl d) = match p with Open => false | _ => true end;
  ap_failing : d_failing d = match p with Closing => true | _ => false end;
  ap_conn : c_connClosed (d_cl d) = match p with Closed => seen | _ => false end;
  ap_started : d_started d = st;
  ap_seen : p <> Closed -> seen = d_conn d;
}.

Definition step_phase (p : phase) (x : fail_step) : phase :=
  match p, x with Open, Enter => Closing | Closing, Finish => Closed | p, _ => p end.

Definition phases (l : list fail_step) (p : phase) : phase := foldl step_phase p l.

Lemma do_fail_kept x d : d_conn (do_fail d x) = d_conn d /\ d_dialOnce (do_fail d x) = d_dialOnce d.
Proof. destruct x; simpl; unfold fail_enter, fail_finish; [by destruct (c_done (d_cl d))|by destruct (d_failing d)]. Qed.

Lemma others_kept l d : d_conn (others l d) = d_conn d /\ d_dialOnce (others l d) = d_dialOnce d.
Proof.
  revert d. induction l as [|x l IH]; intros d; [done|]. cbn [others foldl]. fold (others l (do_fail d x)).
  destruct (IH (do_fail d x)) as [-> ->]. apply do_fail_kept.
Qed.

Lemma do_fail_phase x p seen st d : at_phase p seen st d -> at_phase (step_phase p x) seen st (do_fail d x).
Proof.
  intros [H1 H2 H3 H4 H5]. destruct x; simpl; unfold fail_enter, fail_finish; rewrite ?H1, ?H2; destruct p; simpl; try (by split).
  - split; try done. intros _. by apply H5.
  - pose proof (H5 ltac:(done)) as ->. by destruct (d_conn d); split.
Qed.

Lemma others_phase l p seen st d : at_phase p seen st d -> at_phase (phases l p) seen st (others l d).
Proof.
  revert p d. induction l as [|x l IH]; intros p d Hp; [done|]. cbn [others phases foldl]. by apply IH, do_fail_phase.
Qed.

Lemma fail_phase p seen st d : at_phase p seen st d -> at_phase Closed seen st (fail d).
Proof. intros Hp. pose proof (others_phase [Enter; Finish] p seen st d Hp) as H. by destruct p. Qed.

Lemma set_connected_phase p st d :
  at_phase p false st d -> at_phase p (match p with Closed => false | _ => true end) st (set_connected d).
Proof. intros [H1 H2 H3 H4 H5]. split; try done; by destruct p. Qed.

Lemma start_phase p seen st gs d : at_phase p seen st d -> at_phase p seen (st ++ gs) (start gs d).
Proof. intros [H1 H2 H3 H4 H5]. split; try done. simpl. by rewrite H4. Qed.

Lemma phases_app l k p : phases (l ++ k) p = phases k (phases l p).
Proof. unfold phases. apply foldl_app. Qed.

Lemma phases_not_open l p : p <> Open -> phases l p <> Open.
Proof. revert p. induction l as [|x l IH]; intros p Hp; [done|]. apply IH. by destruct p, x. Qed.

Lemma phases_open l : phases l Open = Open <-> Enter ∉ l.
Proof.
  induction l as [|[] l IH]; [split; [intros _; apply not_elem_of_nil|done]|..]; cbn [phases foldl step_phase]; rewrite not_elem_of_cons.
  - split; [|by intros []]. intros H. by destruct (phases_not_open l Closing).
  - fold (phases l Open). rewrite IH. split; [done|by intros [_ ?]].
Qed.

Lemma phases_finish l p : p <> Open -> phases (l ++ [Finish]) p = Closed.
Proof. intros Hp. rewrite phases_app. apply (phases_not_open l) in Hp. by destruct (phases l p). Qed.

(** Where the steps of the others lead while [Dial] works. *)
Definition meanwhile (io : dial_io) : list fail_step :=
  io_connecting io ++ io_connected io ++ io_hello io ++ io_written io ++ io_starting io.

Definition seen (io : dial_io) (d : dialing) : bool := io_connect io && negb (closed_early io d).

(** A [Dial] under way, with a connection. *)
Definition going (p : phase) (sn : bool) (st : list goroutine) (once : bool) (d : dialing) : Prop :=
  at_phase p sn st d /\ d_conn d = true /\ d_dialOnce d = once.

Lemma going_others l p sn st once d : going p sn st once d -> going (phases l p) sn st once (others l d).
Proof. intros (Hp & Hc & Ho). destruct (others_kept l d) as [Hc' Ho']. split; [by apply others_phase|]. split; congruence. Qed.

Lemma going_fail p sn st once d : going p sn st once d -> going Closed sn (st ++ []) once (fail d).
Proof. intros Hg. pose proof (going_others [Enter; Finish] _ _ _ _ _ Hg) as H. rewrite app_nil_r. by destruct p. Qed.

Lemma dial_body_phase io d :
  sendHello compressor effectiveUser (ctype_name ctype) <> Panic -> at_phase Open false (d_started d) d -> d_conn d = false ->
  exists d' written, dial_body io d = Ok (d', written) /\
    at_phase (if succeeds io then phases (meanwhile io) Open else Closed) (seen io d)
      (d_started d ++ (if succeeds io then goroutines else [])) d' /\
    d_conn d' = io_connect io /\ d_dialOnce d' = d_dialOnce d /\
    (succeeds io = true -> exists hello, sendHello compressor effectiveUser (ctype_name ctype) = Ok hello /\ written = [hello]).
Proof.
  intros Hh Hp Hn. pose proof (others_phase (io_connecting io) _ _ _ _ Hp) as H0.
  destruct (others_kept (io_connecting io) d) as [Hc0 Ho0].
  unfold dial_body, succeeds, seen, closed_early, meanwhile. rewrite (ap_done _ _ _ _ H0), (ap_failing _ _ _ _ H0), !phases_app.
  set (d0 := others (io_connecting io) d) in *. set (p0 := phases (io_connecting io) Open) in *. clearbody p0 d0.
  destruct (io_connect io); cbn [negb andb].
  2: { eexists _, _. split; [reflexivity|]. rewrite app_nil_r. split; [by eapply fail_phase|].
       destruct (others_kept [Enter; Finish] d0) as [Hc Ho]. change (others [Enter; Finish] d0) with (fail d0) in Hc, Ho.
       split_and!; [congruence..|done]. }
  assert (negb ((match p0 with Open => false | _ => true end) && negb match p0 with Closing => true | _ => false end)
    = match p0 with Closed => false | _ => true end) as -> by (by destruct p0).
  set (sn := match p0 with Closed => false | _ => true end).
  assert (going p0 sn (d_started d) (d_dialOnce d) (set_connected d0)) as Hg by (split; [by apply set_connected_phase|by split]).
  clearbody sn. generalize dependent (set_connected d0). intros d1 Hg. apply (going_others (io_connected io)) in Hg.
  destruct (bool_decide (io_deadline io = Some false)) eqn:Hdl; cbn [negb andb].
  { apply bool_decide_eq_true in Hdl as ->. eexists _, _. split; [reflexivity|]. by apply going_fail in Hg as (? & ? & ?). }
  assert (forall A (x y : A), match io_deadline io with Some false => x | _ => y end = y) as Hmatch.
  { intros A x y. apply bool_decide_eq_false in Hdl. by destruct (io_deadline io) as [[]|]. }
  rewrite Hmatch. apply (going_others (io_hello io)) in Hg.
  destruct (sendHello compressor effectiveUser (ctype_name ctype)) as [hello|e|]; [|by apply going_fail in Hg as (? & ? & ?); eexists _, _|done].
  destruct (io_write io); cbn [negb andb]; [|by apply going_fail in Hg as (? & ? & ?); eexists _, _].
  apply (going_others (io_written io)) in Hg. destruct (io_reset io); cbn [negb]; [|by apply going_fail in Hg as (? & ? & ?); eexists _, _].
  apply (going_others (io_starting io)) in Hg as (Hg & ? & ?). eexists _, _. split; [reflexivity|].
  split; [by apply start_phase|]. split_and!; [done..|]. intros _. by exists hello.
Qed.

(** C38. The first [Dial] of a client that is not closed, with any number of calls
    of [Close] or [fail] by other goroutines between any two of its steps, during
    [DialContext] and before [Dial] included.  It returns no error exactly when the network lets it
    connect and say hello and nobody has called [Close] when it looks at [done];
    else it returns that the client is closed, and [done] is.  If the network lets
    it, it has said hello and started the reader, and the batching goroutine for a
    region server, also when the client is closed.  Once the call of [Close] or
    [fail] that won [failOnce] has come to its end, the connection is closed,
    unless that was before there was one: then it stays open for good.  Later calls
    of [Dial] only look at [done].  (The protobuf runtime is taken not to panic on
    the hello.) *)
Theorem Dial_outcome io d :
  sendHello compressor effectiveUser (ctype_name ctype) <> Panic ->
  d_dialOnce d = false -> c_done (d_cl d) = false -> c_connClosed (d_cl d) = false -> d_conn d = false -> d_failing d = false ->
  exists err d' written, Dial io d = Ok (err, d', written) /\
  err = (if succeeds io && negb (closer io) then None else Some RpcError.ErrClientClosed) /\
  d_conn d' = io_connect io /\ d_started d' = d_started d ++ (if succeeds io then goroutines else []) /\
  c_done (d_cl d') = negb (bool_decide (err = None)) /\
  (succeeds io = true -> exists hello, sendHello compressor effectiveUser (ctype_name ctype) = Ok hello /\ written = [hello]) /\
  (err = None -> c_connClosed (d_cl d') = false) /\
  (err <> None -> forall l, c_connClosed (d_cl (others (l ++ [Finish]) d')) = io_connect io && negb (closed_early io d)) /\
  (forall io', Dial io' d' =
     Ok (if bool_decide (err = None /\ Enter ∉ io_returning io') then None else Some RpcError.ErrClientClosed,
         others (io_returning io') d', [])).
Proof.
  intros Hh Ho Hd Hc Hn Hf. unfold Dial at 1. rewrite Ho.
  destruct (dial_body_phase io (set_dialed d)) as (d1 & written & -> & Hp & Hconn & Honce & Hhello); [done|by split|done|].
  cbn [obind fst snd]. apply (others_phase (io_returning io)) in Hp. destruct (others_kept (io_returning io) d1) as [Hc1 Ho1].
  set (d' := others (io_returning io) d1) in *.
  assert (seen io (set_dialed d) = io_connect io && negb (closed_early io d)) as Hseen.
  { unfold seen, closed_early. do 2 f_equal.
    pose proof (others_phase (io_connecting io) Open false (d_started d) d ltac:(by split)) as H1.
    pose proof (others_phase (io_connecting io) Open false (d_started d) (set_dialed d) ltac:(by split)) as H2.
    by rewrite (ap_done _ _ _ _ H1), (ap_failing _ _ _ _ H1), (ap_done _ _ _ _ H2), (ap_failing _ _ _ _ H2). }
  rewrite Hseen in Hp. set (p := phases (io_returning io) _) in Hp.
  assert (p = Open <-> succeeds io && negb (closer io) = true) as Hopen.
  { unfold p, closer. rewrite andb_true_iff, negb_true_iff, bool_decide_eq_false. destruct (succeeds io).
    - rewrite <- phases_app, phases_open. unfold meanwhile. rewrite <- !app_assoc. tauto.
    - split; [|by intros []]. intros H. by destruct (phases_not_open (io_returning io) Closed). }
  clearbody p. eexists _, d', written. split; [reflexivity|].
  assert ((if c_done (d_cl d') then Some RpcError.ErrClientClosed else None) =
    if succeeds io && negb (closer io) then None else Some RpcError.ErrClientClosed) as ->.
  { rewrite (ap_done _ _ _ _ Hp). destruct (succeeds io && negb (closer io)); [by rewrite (proj2 Hopen eq_refl)|].
    destruct p; [discriminate (proj1 Hopen eq_refl)|done..]. }
  split; [done|]. split; [congruence|]. split; [by rewrite (ap_started _ _ _ _ Hp)|].
  assert (forall io', Dial io' d' = Ok (if c_done (d_cl (others (io_returning io') d')) then Some RpcError.ErrClientClosed else None,
    others (io_returning io') d', [])) as Hlater.
  { intros io'. unfold Dial. by rewrite Ho1, Honce. }
  destruct (succeeds io && negb (closer io)).
  - rewrite (proj2 Hopen eq_refl) in Hp. split_and!; [by rewrite (ap_done _ _ _ _ Hp)|done|intros _; by rewrite (ap_conn _ _ _ _ Hp)|done|].
    intros io'. rewrite Hlater. do 3 f_equal. rewrite (ap_done _ _ _ _ (others_phase (io_returning io') _ _ _ _ Hp)).
    case_bool_decide as Hb.
    + by rewrite (proj2 (phases_open _) (proj2 Hb)).
    + destruct (phases (io_returning io') Open) eqn:Hph; [|done..]. apply phases_open in Hph. by destruct Hb.
  - assert (p <> Open) as Hne by (intros H; by apply Hopen in H). split_and!; [|done|done|..].
    + rewrite (ap_done _ _ _ _ Hp). by destruct p.
    + intros _ l. rewrite (ap_conn _ _ _ _ (others_phase (l ++ [Finish]) _ _ _ _ Hp)). by rewrite phases_finish.
    + intros io'. rewrite Hlater, bool_decide_eq_false_2 by (by intros [? _]). do 3 f_equal.
      rewrite (ap_done _ _ _ _ (others_phase (io_returning io') _ _ _ _ Hp)).
      apply (phases_not_open (io_returning io')) in Hne. by destruct (phases (io_returning io') p).
Qed.

End Dial.

(** ** A client *)

Definition good_io : dial_io := mkDialIO true (Some true) true true [] [] [] [] [] [].

(** [Close] comes and goes while [DialContext] has not returned. *)
Definition early_io : dial_io := mkDialIO true (Some true) true true [Enter; Finish] [] [] [] [] [].

Lemma Dial_outcome_witness :
  (exists d' written, @Dial key_order fixed_runtime None "root" RegionClientType good_io new_dialing = Ok (None, d', written) /\
     d_started d' = [ProcessRPCs; ReceiveRPCs]) /\
  (exists d' written, @Dial key_order fixed_runtime None "root" RegionClientType early_io new_dialing
     = Ok (Some RpcError.ErrClientClosed, d', written) /\
     d_conn d' = true /\ forall l, c_connClosed (d_cl (others (l ++ [Finish]) d')) = false).
Proof.
  split.
  - destruct (@Dial_outcome key_order fixed_runtime None "root" RegionClientType good_io new_dialing)
      as (err & d' & w & Hd & -> & _ & Hs & _); [vm_compute; discriminate|reflexivity..|]. exists d', w. split; [exact Hd|].
    rewrite Hs. reflexivity.
  - destruct (@Dial_outcome key_order fixed_runtime None "root" RegionClientType early_io new_dialing)
      as (err & d' & w & Hd & -> & Hc & _ & _ & _ & _ & Hl & _); [vm_compute; discriminate|reflexivity..|].
    exists d', w. split; [exact Hd|]. split; [exact Hc|]. apply Hl. discriminate.
Defined.
