(* ===== verification/Rpc.v ===== *)
(** * Finding regions and sending calls: rpc.go

    [SendRPC] with what it calls: the region cache, the lookup in the meta
    table, waiting for a region, the reaction to the errors of a region server.
    Every function is a run against a schedule (World.v).  [QueueRPC] and the
    region server are behind the answers [AnsResult], which RegionClient.v is
    about; the scan of the meta table is behind [AnsScan], which Scanner.v is
    about; zookeeper is behind [AnsZk]. *)

From S2P Require Import Prelude RegionName Pb RegionInfo RegionTree KeyRegionCache Hrpc RpcError Multi ClientRegionCache World.

Definition metaTableName : bytes := bs "hbase:meta".
Definition infoFamily : gmap bytes (list bytes) := {[ bs "info" := [] ]}.
Definition maxFindRegionTries : nat := 10.

Section Rpc.
Context {T : RegionTree ptr} {HO : RangeOrder}.
Variable clientType : ClientType.
(** Nil in a client of the other type. *)
Variable adminRegionInfo metaRegionInfo : option ptr.
Variable unmarshal_RegionInfo : bytes -> option RegionInfo.

(** ** Lookup *)

Definition getRegionFromCache (table key : bytes) : M (option ptr) :=
  if bool_decide (clientType = MasterClientType) then mret adminRegionInfo
  else if bool_decide (table = metaTableName) then mret metaRegionInfo
  else
    atomic (fun w =>
      if w_made w then let* r := no_err (cachedRegion table key (w_regions w) (w_heap w)) in Ok (r, w) else Panic).

(** The scan that [metaLookup] sends. *)
Definition metaScan (table key : bytes) : outcome error Scan :=
  let* metaKey := createRegionSearchKey table key in
  NewScanRange 0 metaTableName metaKey table
    [OptFamilies infoFamily; OptReversed; OptCloseScanner; OptNumberOfRows 1].

(** What it makes of the row: the region and the address, or why not. *)
Definition metaRow (table key : bytes) (cells : list Cell) (h : heap)
    : outcome Empty_set ((ptr * string + cerr) * heap) :=
  match ParseRegionInfo unmarshal_RegionInfo cells h with
  | Panic => Panic
  | Err e => Ok (inr (MetaParseErr e), h)
  | Ok (reg, addr, h) =>
      let* i := deref reg h in
      if negb (bytes_eqb table (fullyQualifiedTable i)) then Ok (inr MetaWrongTable, h)
      else if bool_decide (len (r_stopKey i) <> 0) && bool_decide (bytes_compare key (r_stopKey i) <> Lt)
      then Ok (inr MetaWrongRegion, h)
      else Ok (inl (reg, string_of addr), h)
  end.

Definition metaLookup (table key : bytes) : M (ptr * string + cerr) :=
  match metaScan table key with
  | Panic => fatal
  | Err e => mret (inr (LookupErr e))
  | Ok rpc =>
      await (fun a w =>
        match a with
        | AnsScan ScanEOF => Ok (inr TableNotFound, w)
        | AnsScan (ScanError e) => Ok (inr e, w)
        | AnsScan (ScanRow cells) =>
            let* r := no_err (metaRow table key cells (w_heap w)) in
            Ok (fst r, set_ghost (w_owned w)
              (match fst r with inl (reg, _) => {[reg]} ∪ w_private w | inr _ => w_private w end)
              (set_heap (snd r) w))
        | _ => Err Blocked
        end)
  end.

Definition zkLookup : M (string + cerr) :=
  await (fun a w =>
    match a with
    | AnsZk (inl addr) => Ok (inl addr, w)
    | AnsZk (inr e) => Ok (inr (LookupErr e), w)
    | _ => Err Blocked
    end).

(** The region that zookeeper has the address of; a nil one would crash the caller. *)
Definition located (reg : option ptr) : M (ptr * string + cerr) :=
  r ← zkLookup;
  match r with
  | inl addr => match reg with Some p => mret (inl (p, addr)) | None => fatal end
  | inr e => mret (inr e)
  end.

(** One iteration of [lookupRegion], before the backoff. *)
Definition lookup_once (table key : bytes) : M (ptr * string + cerr) :=
  if bool_decide (clientType = MasterClientType) then
    located adminRegionInfo
  else if bool_decide (table = metaTableName) then
    located metaRegionInfo
  else metaLookup table key.

(** Errors that are not retried; zookeeper does not return them. *)
Definition lookup_final (e : cerr) : bool :=
  match e with TableNotFound | ErrClientClosed => true | _ => false end.

Fixpoint lookup_loop (fuel : nat) (ctx : context) (table key : bytes) (backoff : Z) : M (ptr * string + cerr) :=
  match fuel with
  | O => no_fuel
  | S fuel' =>
      r ← lookup_once table key;
      match r with
      | inl ra => mret (inl ra)
      | inr e =>
          if lookup_final e then mret (inr e)
          else
            b ← sleepAndIncreaseBackoff ctx backoff;
            match b with
            | inl backoff => lookup_loop fuel' ctx table key backoff
            | inr e => mret (inr e)
            end
      end
  end.

(** Each iteration uses an event, so there are at most as many. *)
Definition lookupRegion (ctx : context) (table key : bytes) : M (ptr * string + cerr) := fun evs w =>
  lookup_loop (S (length evs)) ctx table key backoffStart evs w.

Fixpoint clients_del_all (l : list ptr) : M unit :=
  match l with
  | [] => mret tt
  | r :: l => _ ← clients_del r; clients_del_all l
  end.

(** The part of [findRegion] after the lookup; [None]: the same or a younger
    region is in the cache, look there again. *)
Definition share_region (reg : ptr) (addr : string) : M (option ptr) :=
  _ ← markUnavailable reg;
  if bool_decide (Some reg <> metaRegionInfo) && bool_decide (Some reg <> adminRegionInfo) then
    x ← regions_put reg;
    if negb (snd x) then _ ← discard reg; mret None
    else
      _ ← clients_del_all (fst x);
      _ ← spawn reg addr;
      mret (Some reg)
  else
    _ ← spawn reg addr;
    mret (Some reg).

Definition findRegion (ctx : context) (table key : bytes) : M (option ptr + cerr) :=
  r ← lookupRegion ctx table key;
  match r with
  | inr e => mret (inr e)
  | inl (reg, addr) => o ← share_region reg addr; mret (inl o)
  end.

Fixpoint find_tries (n : nat) (ctx : context) (table key : bytes) : M (ptr + cerr) :=
  match n with
  | O => mret (inr ErrCannotFindRegion)
  | S n =>
      o ← getRegionFromCache table key;
      match o with
      | Some reg => mret (inl reg)
      | None =>
          r ← findRegion ctx table key;
          match r with
          | inl (Some reg) => mret (inl reg)
          | inr e => mret (inr e)
          | inl None => find_tries n ctx table key
          end
      end
  end.

Definition getRegionForRpc (ctx : context) (table key : bytes) : M (ptr + cerr) :=
  find_tries maxFindRegionTries ctx table key.

(** ** The region and its client *)

Definition wait_if (ctx : context) (ch : option chan) : M (option cerr) :=
  match ch with
  | None => mret None
  | Some ch => wait_available ctx ch
  end.

(** [go c.reestablishRegion(reg)] by the first to mark it. *)
Definition mark_and_reestablish (reg : ptr) : M bool :=
  first ← markUnavailable reg;
  if (first : bool) then _ ← spawn reg ""; mret true else mret false.

(** One iteration: [inl None] is [continue]. *)
Definition region_and_client_once (ctx : context) (table key : bytes) : M (option (ptr * cptr) + cerr) :=
  r ← getRegionForRpc ctx table key;
  match r with
  | inr e => mret (inr e)
  | inl reg =>
      ch ← read_heap (AvailabilityChan reg);
      e ← wait_if ctx ch;
      match e with
      | Some e => mret (inr e)
      | None =>
          client ← read_heap (Client reg);
          match client with
          | Some c => mret (inl (Some (reg, c)))
          | None =>
              _ ← mark_and_reestablish reg;
              ch ← read_heap (AvailabilityChan reg);
              e ← wait_if ctx ch;
              match e with
              | Some e => mret (inr e)
              | None =>
                  dead ← read_heap (ContextErr reg);
                  if (dead : bool) then mret (inl None)
                  else
                    client ← read_heap (Client reg);
                    mret (inl ((fun c => (reg, c)) <$> client))
              end
          end
      end
  end.

Fixpoint region_and_client_loop (fuel : nat) (ctx : context) (table key : bytes) : M (ptr * cptr + cerr) :=
  match fuel with
  | O => no_fuel
  | S fuel' =>
      r ← region_and_client_once ctx table key;
      match r with
      | inr e => mret (inr e)
      | inl (Some rc) => mret (inl rc)
      | inl None => region_and_client_loop fuel' ctx table key
      end
  end.

(** The region is the one given to [rpc.SetRegion]. *)
Definition getRegionAndClientForRPC (ctx : context) (table key : bytes) : M (ptr * cptr + cerr) := fun evs w =>
  region_and_client_loop (S (length evs)) ctx table key evs w.

(** ** Errors of a region server *)

Fixpoint down_regions (l : list ptr) (reg : ptr) : M unit :=
  match l with
  | [] => mret tt
  | downreg :: l =>
      if bool_decide (downreg = reg) then down_regions l reg
      else
        first ← markUnavailable downreg;
        if (first : bool) then
          _ ← setClient downreg None;
          _ ← spawn downreg "";
          down_regions l reg
        else down_regions l reg
  end.

Definition clientDown (client : cptr) (reg : ptr) : M unit :=
  downregions ← clients_down client;
  first ← markUnavailable reg;
  _ ← (if (first : bool) then _ ← setClient reg None; spawn reg "" else mret tt);
  down_regions (fst <$> range [client] (gset_to_gmap tt downregions)) reg.

Definition handleResultError (err : rpc_error) (reg : ptr) (rc : cptr) : M unit :=
  match err with
  | NotServingRegionError _ => _ ← mark_and_reestablish reg; mret tt
  | ServerError _ =>
      if bool_decide (Some reg = adminRegionInfo) then _ ← mark_and_reestablish reg; mret tt
      else clientDown rc reg
  | _ => mret tt
  end.

(** ** Sending *)

Definition sendBlocking (ctx : context) : M (RPCResult + cerr) :=
  await (fun a w =>
    match a with
    | AnsResult (Some r) => Ok (inl r, w)
    | AnsResult None => if ctx_may_be_done ctx w then Ok (inr CtxErr, w) else Err Blocked
    | _ => Err Blocked
    end).

Definition sendRPCToRegionClient (reg : ptr) (rc : cptr) : M (option Message * option cerr) :=
  r ← sendBlocking CtxRpc;
  match r with
  | inr e => mret (None, Some e)
  | inl res =>
      match Res_Error res with
      | Some e => _ ← handleResultError e reg rc; mret (Res_Msg res, Some (CallErr e))
      | None => mret (Res_Msg res, None)
      end
  end.

Fixpoint send_loop (fuel : nat) (table key : bytes) (backoff : Z) : M (option Message * option cerr) :=
  match fuel with
  | O => no_fuel
  | S fuel' =>
      rc ← getRegionAndClientForRPC CtxRpc table key;
      match rc with
      | inr e => mret (None, Some e)
      | inl (reg, client) =>
          r ← sendRPCToRegionClient reg client;
          match snd r with
          | Some (CallErr (RetryableError _)) =>
              b ← sleepAndIncreaseBackoff CtxRpc backoff;
              match b with
              | inl backoff => send_loop fuel' table key backoff
              | inr e => mret (fst r, Some e)
              end
          | Some (CallErr (ServerError _)) | Some (CallErr (NotServingRegionError _)) =>
              send_loop fuel' table key backoff
          | _ => mret r
          end
      end
  end.

Definition SendRPC (table key : bytes) : M (option Message * option cerr) := fun evs w =>
  send_loop (S (length evs)) table key backoffStart evs w.

End Rpc.
