(* ===== verification/Establish.v ===== *)
(** * Establishing regions: rpc.go [establishRegion], [reestablishRegion]

    The goroutine that owns an unavailable region: it looks the region up,
    replaces it if it was split or merged, gets a region client, dials, probes
    the region and makes it available. *)

From S2P Require Import Prelude RegionName Pb RegionInfo RegionTree KeyRegionCache Hrpc RpcError Multi ClientRegionCache World Rpc.

(** [probeKey]: the start key and 17 zero bytes. *)
Definition probeKey (reg : info) : bytes := r_startKey reg ++ make_bytes 17.

(** The probe of [isRegionEstablished]. *)
Definition probe_get (reg : info) : outcome error Get :=
  let* g := NewGet 0 (fullyQualifiedTable reg) (probeKey reg) [OptSkipBatch] in
  Ok (ExistsOnly g).

(** Which of its errors say that the region is not there. *)
Definition probe_verdict (r : RPCResult) : option rpc_error :=
  match Res_Error r with
  | Some (PlainError _) | None => None
  | Some e => Some e
  end.

Section Establish.
Context {T : RegionTree ptr} {HO : RangeOrder}.
Variable clientType : ClientType.
Variable adminRegionInfo metaRegionInfo : option ptr.
Variable unmarshal_RegionInfo : bytes -> option RegionInfo.

Abbreviation lookupRegion := (lookupRegion clientType adminRegionInfo metaRegionInfo unmarshal_RegionInfo).

(** [isRegionEstablished]; the background context of the probe is never done. *)
Definition isRegionEstablished (reg : ptr) : M (option rpc_error) :=
  i ← read_heap (deref reg);
  match probe_get i with
  | Ok _ =>
      r ← sendBlocking CtxBackground;
      match r with
      | inl res => mret (probe_verdict res)
      | inr _ => fatal
      end
  | _ => fatal
  end.

(** The client for the address: one of its own for the admin region. *)
Definition client_for (reg : ptr) (addr : string) : M cptr :=
  if bool_decide (Some reg = adminRegionInfo) then
    atomic (fun w => let '(c, s) := new_client addr (w_clients w) in Ok (c, set_clients s (w_heap w) w))
  else clients_put addr reg.

Definition dial : M dial_answer :=
  await (fun a w => match a with AnsDial d => Ok (d, w) | _ => Err Blocked end).

(** What the lookup of an establisher leads to. *)
Inductive found :=
| Return                                   (* the goroutine is done *)
| ReturnClosed                             (* the client was closed *)
| Continue (reg : ptr) (addr : string).

(** The part of the loop for an empty address. *)
Definition relookup (originalReg : ptr) : M found :=
  i ← read_heap (deref originalReg);
  r ← lookupRegion (CtxRegion originalReg) (fullyQualifiedTable i) (r_startKey i);
  match r with
  | inr TableNotFound =>
      _ ← regions_del originalReg;
      _ ← clients_del originalReg;
      _ ← markAvailable originalReg;
      mret Return
  | _ =>
      dead ← read_heap (ContextErr originalReg);
      if (dead : bool) then _ ← markAvailable originalReg; mret Return
      else
        match r with
        | inr ErrClientClosed => mret ReturnClosed
        | inr _ => fatal                     (* log.Fatal: unknown error *)
        | inl (reg, addr) =>
            j ← read_heap (deref reg);
            if negb (bytes_eqb (r_name j) (r_name i)) then
              _ ← markUnavailable reg;
              x ← regions_put reg;
              if negb (snd x) then
                _ ← markAvailable reg;
                _ ← markAvailable originalReg;
                mret Return
              else
                _ ← clients_del_all (fst x);
                _ ← markAvailable originalReg;
                mret (Continue reg addr)
            else mret (Continue originalReg addr)
        end
  end.

(** The part of the loop after the address is known: [true] when done. *)
Definition connect (reg : ptr) (addr : string) : M bool :=
  client ← client_for reg addr;
  d ← dial;
  match d with
  | DialOk =>
      if bool_decide (Some reg = adminRegionInfo) then
        _ ← setClient reg (Some client);
        _ ← markAvailable reg;
        mret true
      else
        e ← isRegionEstablished reg;
        match e with
        | None =>
            _ ← setClient reg (Some client);
            _ ← markAvailable reg;
            mret true
        | Some (ServerError _) => _ ← clientDown client reg; mret false
        | Some _ => mret false
        end
  | DialCanceled => _ ← markAvailable reg; mret true
  | DialFailed => _ ← clientDown client reg; mret false
  end.

(** The result says whether the goroutine ended because the client was closed. *)
Fixpoint establish_loop (fuel : nat) (reg : ptr) (addr : string) (backoff : Z) : M bool :=
  match fuel with
  | O => no_fuel
  | S fuel' =>
      b ← sleepAndIncreaseBackoff (CtxRegion reg) backoff;
      match b with
      | inr _ => _ ← markAvailable reg; mret false
      | inl backoff =>
          f ← (if bool_decide (addr = ""%string) then relookup reg else mret (Continue reg addr));
          match f with
          | Return => mret false
          | ReturnClosed => mret true
          | Continue reg addr =>
              ok ← connect reg addr;
              if (ok : bool) then mret false else establish_loop fuel' reg "" backoff
          end
      end
  end.

Definition establishRegion (reg : ptr) (addr : string) : M bool := fun evs w =>
  establish_loop (S (length evs)) reg addr 0 evs w.

Definition reestablishRegion (reg : ptr) : M bool :=
  closed ← atomic (fun w => Ok (w_done w, w));
  if (closed : bool) then mret true else establishRegion reg "".

End Establish.
