(* ===== verification/Fuel.v ===== *)
(** * Schedules are used up: the fuel of the loops of rpc.go

    Every iteration of a loop of rpc.go uses up an event of the schedule, so the
    loops, which get one more step of fuel than there are events, never run out:
    a run that does not return is blocked on the schedule.  What is left of a
    schedule is a suffix of it. *)

From S2P Require Import Prelude RegionName Pb RegionInfo RegionTree KeyRegionCache Hrpc RpcError Multi ClientRegionCache World Rpc Establish.

Create HintDb uses.

Section Fuel.
Context {T : RegionTree ptr} {HO : RangeOrder}.

(** With fewer than [n] events: no fuel error, and [c a] events used for the result [a]. *)
Definition uses {A : Type} (n : nat) (m : M A) (c : A -> nat) : Prop :=
  forall evs w, (length evs < n)%nat ->
  match m evs w with
  | Ok (a, evs', _) => evs' `suffix_of` evs /\ (length evs' + c a <= length evs)%nat
  | Err NoFuel => False
  | _ => True
  end.

Lemma uses_ret {A : Type} n (a : A) c : c a = 0%nat -> uses n (mret a) c.
Proof. intros Hc evs w _. simpl. split; [done|lia]. Qed.

Lemma uses_bind {A B : Type} n (m : M A) (f : A -> M B) c d :
  uses n m c -> (forall a, uses (n - c a) (f a) (fun b => d b - c a)%nat) -> uses n (m ≫= f) d.
Proof.
  intros Hm Hf evs w Hn. specialize (Hm evs w Hn). unfold mbind, M_bind.
  destruct (m evs w) as [[[a evs'] w']|[]|]; [|done..].
  destruct Hm as [Hs Hm]. specialize (Hf a evs' w' ltac:(lia)).
  destruct (f a evs' w') as [[[b evs''] w'']|[]|]; try done. destruct Hf as [Hs' Hf]. split; [by etrans|lia].
Qed.

Lemma uses_le {A : Type} n n' (m : M A) c d :
  uses n m c -> (n' <= n)%nat -> (forall a, (d a <= c a)%nat) -> uses n' m d.
Proof.
  intros Hm Hn Hd evs w Hl. specialize (Hm evs w ltac:(lia)). destruct (m evs w) as [[[a evs'] w']|[]|]; try done.
  specialize (Hd a). destruct Hm. split; [done|lia].
Qed.

Lemma uses_suffix {A : Type} (m : M A) c a evs evs' w w' :
  uses (S (length evs)) m c -> m evs w = Ok (a, evs', w') -> evs' `suffix_of` evs.
Proof. intros Hm H. specialize (Hm evs w ltac:(lia)). rewrite H in Hm. apply Hm. Qed.

Lemma uses_await {A : Type} n (f : answer -> world -> outcome halt (A * world)) c :
  (forall a w, f a w <> Err NoFuel) -> (forall a, (c a <= 1)%nat) -> uses n (await f) c.
Proof.
  intros Hf Hc evs w _. unfold await. destruct evs as [|e evs]; [done|].
  specialize (Hf (ev_ans e) (ev_env e w)). destruct (f _ _) as [[a w']|[]|]; try done. simpl. specialize (Hc a).
  split; [by apply suffix_cons_r|lia].
Qed.

Lemma uses_atomic {A : Type} n (f : world -> outcome halt (A * world)) c :
  (forall w, f w <> Err NoFuel) -> (forall a, (c a <= 1)%nat) -> uses n (atomic f) c.
Proof. intros Hf Hc. apply uses_await; [|done]. intros a w. destruct a; done || apply Hf. Qed.

Lemma no_err_fuel {A B : Type} (o : outcome Empty_set A) (k : A -> outcome halt B) :
  (forall a, k a <> Err NoFuel) -> obind (no_err o) k <> Err NoFuel.
Proof. intros Hk. destruct o as [a|[]|]; simpl; [apply Hk|done]. Qed.

Ltac uses_access :=
  apply uses_atomic; [intros ?; repeat first [apply no_err_fuel; intros ? | case_match]; done|done].

Lemma uses_read {A : Type} n (f : heap -> outcome Empty_set A) : uses n (read_heap f) (fun _ => 1%nat).
Proof. unfold read_heap. uses_access. Qed.
Lemma uses_markUnavailable n p : uses n (markUnavailable p) (fun _ => 1%nat).
Proof. unfold markUnavailable. uses_access. Qed.
Lemma uses_markAvailable n p : uses n (markAvailable p) (fun _ => 1%nat).
Proof. unfold markAvailable. uses_access. Qed.
Lemma uses_setClient n p c : uses n (setClient p c) (fun _ => 1%nat).
Proof. unfold setClient, on_heap. uses_access. Qed.
Lemma uses_regions_put n p : uses n (regions_put p) (fun _ => 1%nat).
Proof. unfold regions_put. uses_access. Qed.
Lemma uses_regions_del n p : uses n (regions_del p) (fun _ => 1%nat).
Proof. unfold regions_del. uses_access. Qed.
Lemma uses_clients_del n p : uses n (clients_del p) (fun _ => 1%nat).
Proof. unfold clients_del. uses_access. Qed.
Lemma uses_clients_put n addr p : uses n (clients_put addr p) (fun _ => 1%nat).
Proof. unfold clients_put. uses_access. Qed.
Lemma uses_clients_down n c : uses n (clients_down c) (fun _ => 1%nat).
Proof. unfold clients_down. uses_access. Qed.
Lemma uses_spawn n p addr : uses n (spawn p addr) (fun _ => 0%nat).
Proof. intros evs w _. simpl. split; [done|lia]. Qed.
Lemma uses_discard n p : uses n (discard p) (fun _ => 0%nat).
Proof. intros evs w _. simpl. split; [done|lia]. Qed.
Lemma uses_wait n ctx ch : uses n (wait_available ctx ch) (fun _ => 1%nat).
Proof. apply uses_await; [|done]. intros a w. repeat case_match; done. Qed.
Lemma uses_sendBlocking n ctx : uses n (sendBlocking ctx) (fun _ => 1%nat).
Proof. apply uses_await; [|done]. intros a w. repeat case_match; done. Qed.
Lemma uses_dial n : uses n dial (fun _ => 1%nat).
Proof. apply uses_await; [|done]. intros a w. repeat case_match; done. Qed.
Lemma uses_zkLookup n : uses n zkLookup (fun _ => 1%nat).
Proof. apply uses_await; [|done]. intros a w. repeat case_match; done. Qed.
Lemma uses_sleep n ctx b : b <> 0 -> uses n (sleepAndIncreaseBackoff ctx b) (fun _ => 1%nat).
Proof.
  intros Hb. unfold sleepAndIncreaseBackoff. rewrite bool_decide_eq_false_2 by done.
  apply uses_await; [|done]. intros a w. repeat case_match; done.
Qed.
Lemma uses_sleep0 n ctx b : uses n (sleepAndIncreaseBackoff ctx b) (fun _ => 0%nat).
Proof.
  destruct (decide (b = 0)) as [->|Hb]; [by apply uses_ret|]. eapply uses_le; [by apply uses_sleep|done|intros; cbv beta; lia].
Qed.

#[local] Hint Resolve uses_read uses_markUnavailable uses_markAvailable uses_setClient uses_regions_put uses_regions_del
  uses_clients_del uses_clients_put uses_clients_down uses_spawn uses_discard uses_wait uses_sendBlocking uses_dial
  uses_zkLookup uses_sleep0 : uses.

(** Walk through the binds; what a step uses is forgotten. *)
Lemma uses_bind0 {A B : Type} n (m : M A) (f : A -> M B) c :
  uses n m c -> (forall a, uses n (f a) (fun _ => 0%nat)) -> uses n (m ≫= f) (fun _ => 0%nat).
Proof. intros Hm Hf. eapply uses_bind; [exact Hm|]. intros a. eapply uses_le; [apply Hf|lia|done]. Qed.

Ltac uses_walk :=
  repeat first
    [ progress intros
    | progress cbv beta
    | done
    | (apply uses_ret; reflexivity)
    | match goal with |- uses ?n _ _ =>
        eapply (uses_le n n); [solve [eauto with uses]|reflexivity|intros; simpl; lia] end
    | (eapply uses_bind0; [solve [eauto with uses]|])
    | case_match ].

Section Walk.
Variable clientType : ClientType.
Variable adminRegionInfo metaRegionInfo : option ptr.
Variable unmarshal_RegionInfo : bytes -> option RegionInfo.

Lemma uses_located n reg : uses n (located reg) (fun _ => 0%nat).
Proof. unfold located. uses_walk. Qed.

Lemma uses_metaLookup n table key : uses n (metaLookup unmarshal_RegionInfo table key) (fun _ => 0%nat).
Proof.
  unfold metaLookup. destruct (metaScan table key); [|by apply uses_ret|done].
  apply uses_await; [|intros; cbv beta; lia]. intros a' w. destruct a'; try done. destruct r; try done.
  apply no_err_fuel. done.
Qed.

#[local] Hint Resolve uses_located uses_metaLookup : uses.

Lemma uses_lookup_once n table key :
  uses n (lookup_once clientType adminRegionInfo metaRegionInfo unmarshal_RegionInfo table key) (fun _ => 0%nat).
Proof. unfold lookup_once. uses_walk. Qed.

Lemma increase_positive b : 0 < b -> 0 < increase b.
Proof. unfold increase, Second, Millisecond. intros. repeat case_bool_decide; lia. Qed.

(** A sleep that is not the first one uses an event and keeps the backoff positive. *)
Lemma uses_sleep_bind {A : Type} n ctx b (f : Z + cerr -> M A) :
  0 < b -> (forall b', 0 < b' -> uses (n - 1) (f (inl b')) (fun _ => 0%nat)) ->
  (forall e, uses n (f (inr e)) (fun _ => 0%nat)) ->
  uses n (sleepAndIncreaseBackoff ctx b ≫= f) (fun _ => 0%nat).
Proof.
  intros Hb Hf He evs w Hl. pose proof (uses_sleep n ctx b ltac:(lia) evs w Hl) as Hs. unfold mbind, M_bind.
  destruct (sleepAndIncreaseBackoff ctx b evs w) as [[[[b'|e] evs'] w']|[]|] eqn:E; [destruct Hs as [Hsuf Hs]|destruct Hs as [Hsuf Hs]|done..].
  - assert (b' = increase b) as ->.
    { unfold sleepAndIncreaseBackoff, await in E. rewrite bool_decide_eq_false_2 in E by lia.
      repeat case_match; simplify_eq. done. }
    specialize (Hf (increase b) (increase_positive b Hb) evs' w' ltac:(lia)).
    destruct (f _ _ _) as [[[a evs''] w'']|[]|]; try done. destruct Hf. split; [by etrans|lia].
  - specialize (He e evs' w' ltac:(lia)). destruct (f _ _ _) as [[[a evs''] w'']|[]|]; try done.
    destruct He. split; [by etrans|lia].
Qed.

Lemma uses_lookup_loop fuel ctx table key b :
  0 < b -> uses fuel (lookup_loop clientType adminRegionInfo metaRegionInfo unmarshal_RegionInfo fuel ctx table key b)
    (fun _ => 0%nat).
Proof.
  revert b. induction fuel as [|fuel IH]; intros b Hb; [intros evs w ?; lia|]. cbn [lookup_loop].
  eapply uses_bind0; [apply uses_lookup_once|]. intros [ra|e]; [by apply uses_ret|].
  destruct (lookup_final e); [by apply uses_ret|]. apply uses_sleep_bind; [done| |intros; by apply uses_ret].
  intros b' Hb'. replace (S fuel - 1)%nat with fuel by lia. by apply IH.
Qed.

Lemma uses_lookupRegion n ctx table key :
  uses n (lookupRegion clientType adminRegionInfo metaRegionInfo unmarshal_RegionInfo ctx table key) (fun _ => 0%nat).
Proof. intros evs w _. by apply uses_lookup_loop; [|lia]. Qed.

Lemma uses_clients_del_all n l : uses n (clients_del_all l) (fun _ => 0%nat).
Proof. induction l; simpl; uses_walk. Qed.

#[local] Hint Resolve uses_lookupRegion uses_clients_del_all : uses.

Lemma uses_share_region n reg addr :
  uses n (share_region adminRegionInfo metaRegionInfo reg addr) (fun _ => 0%nat).
Proof. unfold share_region. uses_walk. Qed.

#[local] Hint Resolve uses_share_region : uses.

Lemma uses_getRegionFromCache n table key :
  uses n (getRegionFromCache clientType adminRegionInfo metaRegionInfo table key) (fun _ => 0%nat).
Proof.
  unfold getRegionFromCache. repeat case_bool_decide; try by apply uses_ret.
  apply uses_atomic; [|intros; cbv beta; lia]. intros w. case_match; [by apply no_err_fuel|done].
Qed.

Lemma uses_findRegion n ctx table key :
  uses n (findRegion clientType adminRegionInfo metaRegionInfo unmarshal_RegionInfo ctx table key) (fun _ => 0%nat).
Proof. unfold findRegion. uses_walk. Qed.

Lemma uses_find_tries n k ctx table key :
  uses n (find_tries clientType adminRegionInfo metaRegionInfo unmarshal_RegionInfo k ctx table key) (fun _ => 0%nat).
Proof.
  induction k as [|k IH]; [by apply uses_ret|]. cbn [find_tries].
  eapply uses_bind0; [apply uses_getRegionFromCache|]. intros []; [by apply uses_ret|].
  eapply uses_bind0; [apply uses_findRegion|].
  intros [[]|]; try by apply uses_ret. done.
Qed.

Lemma uses_mark_and_reestablish n reg : uses n (mark_and_reestablish reg) (fun _ => 0%nat).
Proof. unfold mark_and_reestablish. uses_walk. Qed.

Lemma uses_wait_if n ctx ch : uses n (wait_if ctx ch) (fun _ => 0%nat).
Proof. unfold wait_if. uses_walk. Qed.

#[local] Hint Resolve uses_find_tries uses_mark_and_reestablish uses_wait_if : uses.

(** [continue] uses events. *)
Lemma uses_region_and_client_once n ctx table key :
  uses n (region_and_client_once clientType adminRegionInfo metaRegionInfo unmarshal_RegionInfo ctx table key)
    (fun r => match r with inl _ => 1%nat | inr _ => 0%nat end).
Proof.
  unfold region_and_client_once. eapply uses_bind; [apply uses_find_tries|]. intros [reg|e]; [|by apply uses_ret].
  eapply uses_bind; [apply uses_read|]. intros ch.
  eapply uses_le with (c := fun _ => 0%nat); [|reflexivity|intros []; cbv beta; lia]. uses_walk.
Qed.

Lemma uses_region_and_client_loop fuel ctx table key :
  uses fuel (region_and_client_loop clientType adminRegionInfo metaRegionInfo unmarshal_RegionInfo fuel ctx table key)
    (fun _ => 0%nat).
Proof.
  induction fuel as [|fuel IH]; [intros evs w ?; lia|]. cbn [region_and_client_loop].
  eapply uses_bind; [apply uses_region_and_client_once|]. intros [[rc|]|e]; try by apply uses_ret.
  cbv beta iota. replace (S fuel - 1)%nat with fuel by lia. done.
Qed.

Lemma uses_getRegionAndClientForRPC n ctx table key :
  uses n (getRegionAndClientForRPC clientType adminRegionInfo metaRegionInfo unmarshal_RegionInfo ctx table key)
    (fun _ => 0%nat).
Proof. intros evs w _. by apply (uses_region_and_client_loop (S (length evs))); lia. Qed.

Lemma uses_down_regions n l reg : uses n (down_regions l reg) (fun _ => 0%nat).
Proof. induction l; simpl; uses_walk. Qed.

#[local] Hint Resolve uses_down_regions : uses.

Lemma uses_clientDown n c reg : uses n (clientDown c reg) (fun _ => 0%nat).
Proof.
  unfold clientDown. eapply uses_bind0; [apply uses_clients_down|]. intros rs.
  eapply uses_bind0; [apply uses_markUnavailable|]. intros first.
  eapply uses_bind0 with (c := fun _ => 0%nat); [destruct first; uses_walk|]. intros. apply uses_down_regions.
Qed.

#[local] Hint Resolve uses_clientDown : uses.

Lemma uses_handleResultError n e reg rc : uses n (handleResultError adminRegionInfo e reg rc) (fun _ => 0%nat).
Proof. unfold handleResultError. uses_walk. Qed.

#[local] Hint Resolve uses_handleResultError : uses.

Lemma uses_sendRPCToRegionClient n reg rc : uses n (sendRPCToRegionClient adminRegionInfo reg rc) (fun _ => 1%nat).
Proof.
  unfold sendRPCToRegionClient. eapply uses_bind; [apply uses_sendBlocking|]. intros r. simpl. uses_walk.
Qed.

Lemma uses_send_loop fuel table key b :
  0 < b -> uses fuel (send_loop clientType adminRegionInfo metaRegionInfo unmarshal_RegionInfo fuel table key b)
    (fun _ => 0%nat).
Proof.
  revert b. induction fuel as [|fuel IH]; intros b Hb; [intros evs w ?; lia|]. cbn [send_loop].
  eapply uses_bind0; [apply uses_getRegionAndClientForRPC|].
  intros [[reg c]|e]; [|by apply uses_ret]. eapply uses_bind; [apply uses_sendRPCToRegionClient|]. intros [msg err].
  cbn [fst snd Nat.sub]. rewrite Nat.sub_0_r. destruct err as [[| | | |[]| | | |]|]; try (by apply uses_ret); try (by apply IH).
  apply uses_sleep_bind; [done| |intros; by apply uses_ret]. intros b' Hb'.
  eapply uses_le; [by apply IH|lia|done].
Qed.

Lemma uses_isRegionEstablished n reg : uses n (isRegionEstablished reg) (fun _ => 0%nat).
Proof. unfold isRegionEstablished. uses_walk. Qed.

#[local] Hint Resolve uses_isRegionEstablished : uses.

Lemma uses_relookup n reg :
  uses n (relookup clientType adminRegionInfo metaRegionInfo unmarshal_RegionInfo reg) (fun _ => 0%nat).
Proof. unfold relookup. uses_walk. Qed.

Lemma uses_connect n reg addr : uses n (connect adminRegionInfo reg addr) (fun _ => 1%nat).
Proof.
  unfold connect. eapply uses_bind with (c := fun _ => 1%nat).
  { unfold client_for. case_bool_decide; [|apply uses_clients_put]. apply uses_atomic; done. }
  intros c. simpl. uses_walk.
Qed.

Lemma uses_establish_loop fuel reg addr b :
  uses fuel (establish_loop clientType adminRegionInfo metaRegionInfo unmarshal_RegionInfo fuel reg addr b) (fun _ => 0%nat).
Proof.
  revert reg addr b. induction fuel as [|fuel IH]; intros reg addr b; [intros evs w ?; lia|]. cbn [establish_loop].
  eapply uses_bind0; [apply uses_sleep0|]. intros [b'|e]; [|uses_walk].
  eapply uses_bind0 with (c := fun _ => 0%nat); [case_bool_decide; [apply uses_relookup|by apply uses_ret]|].
  intros [| |reg' addr']; try by apply uses_ret. eapply uses_bind; [apply uses_connect|]. intros []; [by apply uses_ret|].
  cbn [Nat.sub]. rewrite Nat.sub_0_r. apply IH.
Qed.

End Walk.

End Fuel.

#[export] Hint Resolve uses_read uses_markUnavailable uses_markAvailable uses_setClient uses_regions_put uses_regions_del
  uses_clients_del uses_clients_put uses_clients_down uses_spawn uses_discard uses_wait uses_sendBlocking uses_dial
  uses_zkLookup uses_sleep0 uses_handleResultError uses_getRegionAndClientForRPC : uses.
