(* ===== verification/Discipline.v ===== *)
(** * The discipline of the client's goroutines

    What the goroutines of rpc.go rely on from each other and guarantee: the
    shared state is well formed, regions are never deallocated or renamed, a
    dead region stays dead, a region that a goroutine has not shared is its own,
    and a region that a goroutine has marked unavailable is made available by
    that goroutine, or by the one it starts, and gets a client from it only.
    [done] stays closed, and so do connections.  Every region that
    is unavailable has such a goroutine, until the client is closed.  The accesses
    to the shared state follow the discipline; Safety shows that the functions
    of rpc.go do, and Pool that it makes all goroutines together safe. *)

From S2P Require Import Prelude RegionName Pb RegionInfo RegionTree KeyRegionCache Hrpc RpcError Multi ClientRegionCache World Rpc Establish.

(** ** Regions *)

Definition alloc (h : heap) (p : ptr) : Prop := is_Some (h_infos h !! p).

Definition unav (h : heap) (p : ptr) : Prop :=
  exists i c, h_infos h !! p = Some i /\ r_available i = Some c.

Definition dead_kept (h h' : heap) : Prop :=
  forall p i i', h_infos h !! p = Some i -> h_infos h' !! p = Some i' -> r_dead i = true -> r_dead i' = true.

Lemma unav_iff h p i : h_infos h !! p = Some i -> unav h p <-> r_available i <> None.
Proof.
  intros Hi. split; [by intros (j & c & ? & ?); simplify_eq; congruence|].
  intros Ha. destruct (r_available i) as [c|] eqn:E; [by exists i, c|done].
Qed.

Lemma fq_static i i' : static i' = static i -> fullyQualifiedTable i' = fullyQualifiedTable i.
Proof. destruct i, i'. unfold static, fullyQualifiedTable. simpl. intros [=]. by subst. Qed.

Lemma alloc_ext h h' p : heap_ext h h' -> alloc h p -> alloc h' p.
Proof. intros He [i Hi]. destruct (heap_ext_lookup _ _ _ _ He Hi) as (i' & ? & _). by exists i'. Qed.

Lemma unav_alloc h p : unav h p -> alloc h p.
Proof. intros (i & c & Hi & _). by exists i. Qed.

Lemma dead_kept_refl h : dead_kept h h.
Proof. intros p i i' ? ?. by simplify_eq. Qed.

Lemma dead_kept_trans h h1 h2 : heap_ext h h1 -> dead_kept h h1 -> dead_kept h1 h2 -> dead_kept h h2.
Proof.
  intros He H1 H2 p i i' Hi Hi' Hd. destruct (heap_ext_lookup _ _ _ _ He Hi) as (j & Hj & _).
  eapply H2; [exact Hj|exact Hi'|by eapply H1].
Qed.

(** No region gets a client that had none. *)
Definition clientless_kept (h h' : heap) : Prop :=
  forall p i i', h_infos h !! p = Some i -> h_infos h' !! p = Some i' -> r_client i = None -> r_client i' = None.

Lemma clientless_kept_refl h : clientless_kept h h.
Proof. intros p i i' ? ?. by simplify_eq. Qed.

Lemma clientless_kept_trans h h1 h2 :
  heap_ext h h1 -> clientless_kept h h1 -> clientless_kept h1 h2 -> clientless_kept h h2.
Proof.
  intros He H1 H2 p i i' Hi Hi' Hc. destruct (heap_ext_lookup _ _ _ _ He Hi) as (j & Hj & _).
  eapply H2; [exact Hj|exact Hi'|by eapply H1].
Qed.

Definition ordinary (h : heap) (p : ptr) : Prop :=
  exists i, h_infos h !! p = Some i /\ region_ok i /\ fullyQualifiedTable i <> metaTableName.

Lemma ordinary_ext h h' p : heap_ext h h' -> ordinary h p -> ordinary h' p.
Proof.
  intros He (i & Hi & Hok & Ht). destruct (heap_ext_lookup _ _ _ _ He Hi) as (i' & Hi' & Hs). exists i'.
  split_and!; [done| |by rewrite (fq_static _ _ Hs)]. by eapply region_ok_static.
Qed.

(** A change of regions that keeps their identity, of [S] only. *)
Record touches (S : ptr -> Prop) (h h' : heap) : Prop := {
  t_ok : heap_ok h -> heap_ok h';
  t_ext : heap_ext h h';
  t_dead : dead_kept h h';
  t_client : clientless_kept h h';
  t_only p : ~ S p -> h_infos h' !! p = h_infos h !! p;
}.

Lemma touches_refl S h : touches S h h.
Proof. split; [done|reflexivity|apply dead_kept_refl|apply clientless_kept_refl|done]. Qed.

Lemma touches_trans S h h1 h2 : touches S h h1 -> touches S h1 h2 -> touches S h h2.
Proof.
  intros [H1 H2 H3 H4 H5] [K1 K2 K3 K4 K5].
  split; [auto|by etrans|by eapply dead_kept_trans|by eapply clientless_kept_trans|].
  intros p Hp. rewrite K5, H5 by done. done.
Qed.

Lemma touches_insert (S : ptr -> Prop) h p i i' n m cl :
  S p -> h_infos h !! p = Some i -> static i' = static i -> (r_dead i = true -> r_dead i' = true) ->
  (r_client i = None -> r_client i' = None) ->
  (heap_ok h -> heap_ok (Heap (<[p := i']> (h_infos h)) n m cl)) ->
  touches S h (Heap (<[p := i']> (h_infos h)) n m cl).
Proof.
  intros Hp Hi Hs Hd Hc Hok. split; [done|..].
  - apply (set_info_ext p i i' h Hi Hs).
  - intros q j j' Hj Hj'. simpl in Hj'. apply lookup_insert_Some in Hj' as [[<- <-]|[_ ?]]; simplify_eq; done.
  - intros q j j' Hj Hj'. simpl in Hj'. apply lookup_insert_Some in Hj' as [[<- <-]|[_ ?]]; simplify_eq; done.
  - intros q Hq. simpl. rewrite lookup_insert_ne; [done|]. by intros ->.
Qed.

Lemma touches_set_info (S : ptr -> Prop) h p i i' :
  S p -> h_infos h !! p = Some i -> static i' = static i -> r_available i' = r_available i ->
  (r_dead i = true -> r_dead i' = true) -> (r_client i = None -> r_client i' = None) -> touches S h (set_info p i' h).
Proof. intros Hp Hi Hs Ha Hd Hc. apply (touches_insert S h p i i'); try done. intros Hok. by eapply set_info_ok. Qed.

(** The availability is left alone. *)
Definition same_avail (h h' : heap) : Prop := forall p, unav h' p <-> unav h p.

Lemma same_avail_set_info h p i i' :
  h_infos h !! p = Some i -> r_available i' = r_available i -> same_avail h (set_info p i' h).
Proof.
  intros Hp Ha q. unfold unav. simpl. destruct (decide (p = q)) as [<-|Hne].
  - rewrite lookup_insert_eq, Hp. split; intros (j & c & [= <-] & ?); eexists _, c; (split; [done|]); congruence.
  - by rewrite lookup_insert_ne.
Qed.

Lemma MarkUnavailable_touches h p i :
  h_infos h !! p = Some i -> exists h',
    @MarkUnavailable Empty_set p h = Ok (bool_decide (r_available i = None), h') /\
    touches (fun q => q = p) h h' /\ forall q, unav h' q <-> q = p \/ unav h q.
Proof.
  intros Hi. rewrite (MarkUnavailable_spec _ _ _ Hi). destruct (r_available i) as [c|] eqn:Ha.
  - exists h. split_and!; [done|apply touches_refl|]. intros q. split; [by right|]. intros [->|?]; [|done].
    apply (unav_iff _ _ _ Hi). congruence.
  - eexists. split; [done|]. split.
    + apply (touches_insert _ _ _ i); try done. intros Hok.
      eapply (MarkUnavailable_ok (E := Empty_set) p h true); [done|]. rewrite (MarkUnavailable_spec _ _ _ Hi). by rewrite Ha.
    + intros q. unfold unav. simpl. destruct (decide (p = q)) as [<-|Hne].
      * rewrite lookup_insert_eq. split; [by left|]. intros _. by eexists _, _.
      * rewrite lookup_insert_ne by done. split; [by right|]. by intros [?|?].
Qed.

Lemma MarkAvailable_touches h p :
  heap_ok h -> unav h p -> exists h',
    @MarkAvailable Empty_set p h = Ok h' /\ touches (fun q => q = p) h h' /\
    forall q, unav h' q <-> q <> p /\ unav h q.
Proof.
  intros Hok (i & c & Hi & Ha). pose proof (MarkAvailable_spec (E := Empty_set) _ _ _ _ Hok Hi Ha) as Hm.
  eexists. split; [exact Hm|]. split.
  - apply (touches_insert _ _ _ i); try done. intros _. by eapply MarkAvailable_ok.
  - intros q. unfold unav. simpl. destruct (decide (p = q)) as [<-|Hne].
    + rewrite lookup_insert_eq. split; [by intros (j & d & [= <-] & ?)|]. by intros [? _].
    + rewrite lookup_insert_ne by done. split; [by intros ?|]. by intros [_ ?].
Qed.

Lemma SetClient_touches h p :
  alloc h p -> exists h', @SetClient Empty_set p None h = Ok h' /\ touches (fun q => q = p) h h' /\ same_avail h h'.
Proof.
  intros [i Hi]. unfold SetClient. rewrite (deref_lookup _ _ _ Hi). simpl. eexists. split; [done|].
  split; [by eapply touches_set_info|by eapply same_avail_set_info].
Qed.

(** ** The invariant *)

Section Discipline.
Context {T : RegionTree ptr} {HT : RegionTreeSpec ptr T} {HO : RangeOrder}.
Variable clientType : ClientType.
Variable adminRegionInfo metaRegionInfo : option ptr.
Variable unmarshal_RegionInfo : bytes -> option RegionInfo.

(** The fixed regions: the admin region in an admin client, else the meta region. *)
Definition fixed_region (h : heap) : Prop :=
  match clientType with
  | MasterClientType => metaRegionInfo = None /\ exists p, adminRegionInfo = Some p /\ alloc h p
  | RegionClientType => adminRegionInfo = None /\
      exists p i, metaRegionInfo = Some p /\ h_infos h !! p = Some i /\ fullyQualifiedTable i = metaTableName
  end.

Definition is_fixed (p : ptr) : Prop := Some p = adminRegionInfo \/ Some p = metaRegionInfo.

(** The region of an establisher: a fixed one or, with [R] saying so, an ordinary one. *)
Definition mine (reg : ptr) (R : list ptr) : Prop :=
  (clientType = MasterClientType /\ Some reg = adminRegionInfo /\ R = []) \/
  (clientType = RegionClientType /\ Some reg = metaRegionInfo /\ R = []) \/
  (clientType = RegionClientType /\ Some reg <> metaRegionInfo /\ R = [reg]).

Definition establishable (h : heap) (p : ptr) : Prop := exists R, mine p R /\ Forall (ordinary h) R.

Lemma establishable_ext h h' p : heap_ext h h' -> establishable h p -> establishable h' p.
Proof. intros He (R & Hm & HR). exists R. split; [done|]. eapply Forall_impl; eauto using ordinary_ext. Qed.

(** A region that all goroutines may refer to. *)
Record good (w : world) (p : ptr) : Prop := {
  good_alloc : alloc (w_heap w) p;
  good_shared : p ∉ w_private w;
  good_known : p ∉ f_private (w_frame w);
  good_establishable : establishable (w_heap w) p;
}.

(** The goroutines started in this turn. *)
Definition spawned_now (w : world) : list ptr := (drop (length (f_spawned (w_frame w))) (w_spawned w)).*1.

(** Somebody is to make the region available, nobody will or need ever use it,
    or the client is closed. *)
Definition covered (w : world) (p : ptr) : Prop :=
  w_done w = true \/ p ∈ w_owned w \/ p ∈ f_owned (w_frame w) \/ p ∈ spawned_now w \/
  p ∈ w_private w \/ p ∈ f_private (w_frame w).

Record world_ok (w : world) : Prop := {
  wo_heap : heap_ok (w_heap w);
  wo_items : items_ok (w_heap w) (items (w_regions w));
  wo_fixed : fixed_region (w_heap w);
  wo_items_good kv : kv ∈ items (w_regions w) -> good w kv.2;
  wo_fixed_good p : is_fixed p -> good w p;
  wo_clients c rs r : cc_regions (w_clients w) !! c = Some rs -> r ∈ rs -> good w r;
  wo_owned p : p ∈ w_owned w -> unav (w_heap w) p /\ (p ∉ f_private (w_frame w));
  wo_cover p : unav (w_heap w) p -> covered w p;
  wo_made : clientType = RegionClientType -> w_made w = true;
  wo_close : w_done w = true <-> w_once w <> OnceNew;
  (* with respect to the others *)
  wo_others p : p ∈ f_owned (w_frame w) -> unav (w_heap w) p /\ (p ∉ w_owned w) /\ (p ∉ spawned_now w);
  wo_foreign p : p ∈ f_private (w_frame w) ->
    alloc (w_heap w) p /\ h_infos (w_heap w) !! p = h_infos (f_heap (w_frame w)) !! p;
  wo_private p : p ∈ w_private w -> alloc (w_heap w) p /\ (p ∉ f_private (w_frame w)) /\
    (p ∈ f_mine (w_frame w) \/ h_infos (f_heap (w_frame w)) !! p = None);
  (* since the turn began *)
  wo_ext : heap_ext (f_heap (w_frame w)) (w_heap w);
  wo_dead : dead_kept (f_heap (w_frame w)) (w_heap w);
  wo_done : f_done (w_frame w) = true -> w_done w = true;
  wo_once_done : f_once (w_frame w) = OnceDone -> w_once w = OnceDone;
  wo_closed : f_closed (w_frame w) ⊆ cc_closed (w_clients w);
  wo_client p i i' : p ∈ f_owned (w_frame w) -> h_infos (f_heap (w_frame w)) !! p = Some i ->
    h_infos (w_heap w) !! p = Some i' -> r_client i = None -> r_client i' = None;
  wo_prefix : f_spawned (w_frame w) `prefix_of` w_spawned w;
  wo_once : NoDup (spawned_now w);
  wo_spawned p : p ∈ spawned_now w -> unav (w_heap w) p /\ (p ∉ w_owned w) /\ good w p;
}.

(** What the others may do between two steps of a goroutine. *)
Record rely (w w' : world) : Prop := {
  rely_ok : world_ok w -> world_ok w';
  rely_ext : heap_ext (w_heap w) (w_heap w');
  rely_dead : dead_kept (w_heap w) (w_heap w');
  rely_owned : w_owned w' = w_owned w;
  rely_private : w_private w' = w_private w;
  rely_done : w_done w = true -> w_done w' = true;
  rely_once : w_once w = OnceDone -> w_once w' = OnceDone;
  rely_closed : cc_closed (w_clients w) ⊆ cc_closed (w_clients w');
  rely_client p i i' : p ∈ w_owned w -> h_infos (w_heap w) !! p = Some i -> h_infos (w_heap w') !! p = Some i' ->
    r_client i = None -> r_client i' = None;
  rely_private_kept p : p ∈ w_private w -> h_infos (w_heap w') !! p = h_infos (w_heap w) !! p;
  rely_known p : alloc (w_heap w) p -> p ∉ f_private (w_frame w) -> p ∉ f_private (w_frame w');
}.

(** The rows of the meta table describe regions as HBase names them, and none
    has a truncated value; the scan of a client that is not closed does not
    return [ErrClientClosed]. *)
Definition row_ok (cells : list Cell) : Prop :=
  Forall (fun c => ~ short_magic c /\ forall i, describes unmarshal_RegionInfo c i -> region_ok i) cells.

Definition answer_ok (a : answer) (w : world) : Prop :=
  match a with
  | AnsScan (ScanRow cells) => row_ok cells
  | AnsScan (ScanError ErrClientClosed) => w_done w = true
  | _ => True
  end.

Definition event_ok (e : event) : Prop := forall w, rely w (ev_env e w) /\ answer_ok (ev_ans e) (ev_env e w).

(** What a run does to the state, whatever happens meanwhile. *)
Definition grows (w w' : world) : Prop :=
  heap_ext (w_heap w) (w_heap w') /\ (w_done w = true -> w_done w' = true) /\
  cc_closed (w_clients w) ⊆ cc_closed (w_clients w').

Lemma grows_refl w : grows w w.
Proof. by split_and!. Qed.
Lemma grows_trans w w1 w2 : grows w w1 -> grows w1 w2 -> grows w w2.
Proof. intros (? & ? & ?) (? & ? & ?). split_and!; [by etrans|auto|by etrans]. Qed.
Lemma rely_grows w w' : rely w w' -> grows w w'.
Proof. intros Hr. split_and!; apply Hr. Qed.

(** A run from a good state does not panic and leaves good states, where it
    waits and where it returns; then [Q] holds. *)
Definition safe {A : Type} (P : world -> Prop) (m : M A) (Q : A -> world -> Prop) : Prop :=
  forall evs w, Forall event_ok evs -> world_ok w -> P w ->
  match m evs w with
  | Ok (a, evs', w') => Forall event_ok evs' /\ world_ok w' /\ grows w w' /\ Q a w'
  | Err (Waiting w') => world_ok w'
  | Err _ => True
  | Panic => False
  end.

Definition stable (P : world -> Prop) : Prop := forall w w', rely w w' -> world_ok w -> P w -> P w'.

(** A step of a goroutine that starts no other. *)
Record own_step (w w' : world) : Prop := {
  os_frame : w_frame w' = w_frame w;
  os_spawned : w_spawned w' = w_spawned w;
  os_made : w_made w' = w_made w;
  os_done : w_done w = true -> w_done w' = true;
  os_once : w_once w = OnceDone -> w_once w' = OnceDone;
  os_close : (w_done w = true <-> w_once w <> OnceNew) -> (w_done w' = true <-> w_once w' <> OnceNew);
  os_closed : cc_closed (w_clients w) ⊆ cc_closed (w_clients w');
  os_client p i i' : p ∉ w_owned w -> h_infos (w_heap w) !! p = Some i -> h_infos (w_heap w') !! p = Some i' ->
    r_client i = None -> r_client i' = None;
  os_heap : heap_ok (w_heap w');
  os_ext : heap_ext (w_heap w) (w_heap w');
  os_dead : dead_kept (w_heap w) (w_heap w');
  os_foreign p : p ∈ f_private (w_frame w) -> h_infos (w_heap w') !! p = h_infos (w_heap w) !! p;
  os_items : items_ok (w_heap w') (items (w_regions w'));
  os_items_good kv : kv ∈ items (w_regions w') -> kv ∈ items (w_regions w) \/ good w' kv.2;
  os_clients c rs r : cc_regions (w_clients w') !! c = Some rs -> r ∈ rs -> good w r;
  os_private p : p ∈ w_private w' -> p ∈ w_private w \/ h_infos (w_heap w) !! p = None /\ alloc (w_heap w') p;
  os_unav p : unav (w_heap w) p -> (p ∈ w_owned w -> p ∈ w_owned w') -> unav (w_heap w') p;
  os_owned p : p ∈ w_owned w' ->
    p ∈ w_owned w \/ unav (w_heap w') p /\ ~ unav (w_heap w) p /\ (p ∉ f_private (w_frame w));
  os_cover p : unav (w_heap w') p -> w_done w' = true \/ p ∈ w_owned w' \/ p ∈ w_private w' \/
    unav (w_heap w) p /\ (p ∉ w_owned w) /\ (p ∉ w_private w);
}.

Lemma own_step_good w w' p : own_step w w' -> good w p -> good w' p.
Proof.
  intros Hs [Ha Hp Hk He]. split; [by eapply alloc_ext, Ha; apply Hs| | |by eapply establishable_ext, He; apply Hs].
  - intros [?|[Hnew _]]%(os_private _ _ Hs); [done|]. destruct Ha as [i Hi]. congruence.
  - by rewrite (os_frame _ _ Hs).
Qed.

Lemma fixed_ext h h' : heap_ext h h' -> fixed_region h -> fixed_region h'.
Proof.
  intros He. unfold fixed_region. destruct clientType.
  - intros (? & p & i & ? & Hi & Ht). split; [done|]. destruct (heap_ext_lookup _ _ _ _ He Hi) as (i' & Hi' & Hs).
    exists p, i'. split_and!; [done..|]. by rewrite (fq_static _ _ Hs).
  - intros (? & p & ? & Ha). split; [done|]. exists p. split; [done|]. by eapply alloc_ext.
Qed.

Lemma spawned_now_eq w w' : w_frame w' = w_frame w -> w_spawned w' = w_spawned w -> spawned_now w' = spawned_now w.
Proof. unfold spawned_now. by intros -> ->. Qed.

(** An own step keeps what the others own. *)
Lemma own_step_kept w w' p :
  own_step w w' -> unav (w_heap w) p -> p ∉ w_owned w -> unav (w_heap w') p /\ p ∉ w_owned w'.
Proof. intros Hs Hp Ho. split; [by apply (os_unav _ _ Hs)|]. by intros [?|(_ & ? & _)]%(os_owned _ _ Hs). Qed.

Lemma own_step_ok w w' : world_ok w -> own_step w w' -> world_ok w'.
Proof.
  intros Hw Hs. pose proof (os_frame _ _ Hs) as Hf. pose proof (os_spawned _ _ Hs) as Hsp.
  pose proof (spawned_now_eq _ _ Hf Hsp) as Hnow. pose proof (own_step_good w w') as Hg.
  split; rewrite ?Hf, ?Hsp, ?Hnow; try (by apply Hs).
  - eapply fixed_ext; [apply Hs|apply Hw].
  - intros kv Hkv. destruct (os_items_good _ _ Hs kv Hkv); [|done]. apply Hg; [done|]. by apply Hw.
  - intros p Hp. apply Hg; [done|]. by apply Hw.
  - intros c rs r Hc Hr. apply Hg; [done|]. by eapply (os_clients _ _ Hs).
  - intros p Hp. destruct (os_owned _ _ Hs p Hp) as [Ho|(? & _ & ?)]; [|done]. destruct (wo_owned w Hw p Ho).
    split; [by apply (os_unav _ _ Hs)|done].
  - intros p Hp. unfold covered. rewrite Hf, Hnow. destruct (os_cover _ _ Hs p Hp) as [?|[?|[?|(Hu & Ho & Hpr)]]]; [tauto..|].
    destruct (wo_cover w Hw p Hu) as [?%(os_done _ _ Hs)|?]; tauto.
  - rewrite (os_made _ _ Hs). apply Hw.
  - apply (os_close _ _ Hs), Hw.
  - intros p Hp. destruct (wo_others w Hw p Hp) as (Hu & Ho & Hn). by destruct (own_step_kept _ _ _ Hs Hu Ho).
  - intros p Hp. destruct (wo_foreign w Hw p Hp) as [Ha He]. split; [by eapply alloc_ext, Ha; apply Hs|].
    by rewrite (os_foreign _ _ Hs).
  - intros p Hp. destruct (os_private _ _ Hs p Hp) as [Ho|[Hn Ha]].
    + destruct (wo_private w Hw p Ho) as (Ha & ? & ?). split_and!; try done. by eapply alloc_ext, Ha; apply Hs.
    + split_and!; [done| |].
      * intros [[i Hi] _]%(wo_foreign w Hw). congruence.
      * right. destruct (h_infos (f_heap (w_frame w)) !! p) eqn:E; [|done].
        destruct (heap_ext_lookup _ _ _ _ (wo_ext w Hw) E) as (? & ? & _). congruence.
  - etrans; [apply Hw|apply Hs].
  - eapply dead_kept_trans; [apply Hw..|apply Hs].
  - intros Hd. by apply (os_done _ _ Hs), (wo_done w Hw).
  - intros Ho. by apply (os_once _ _ Hs), (wo_once_done w Hw).
  - etrans; [apply Hw|apply Hs].
  - intros p i i' Hp Hi Hi' Hc. destruct (heap_ext_lookup _ _ _ _ (wo_ext w Hw) Hi) as (j & Hj & _).
    destruct (wo_others w Hw p Hp) as (_ & Hno & _).
    exact (os_client _ _ Hs p j i' Hno Hj Hi' (wo_client w Hw p i j Hp Hi Hj Hc)).
  - apply Hw.
  - apply Hw.
  - intros p Hp. destruct (wo_spawned w Hw p Hp) as (Hu & Ho & Hgp). destruct (own_step_kept _ _ _ Hs Hu Ho).
    split_and!; [done..|]. by apply Hg.
Qed.

Lemma own_step_grows w w' : own_step w w' -> grows w w'.
Proof. intros Hs. split_and!; apply Hs. Qed.

(** *** Rules *)

Lemma safe_ret {A : Type} (P : world -> Prop) (a : A) (Q : A -> world -> Prop) :
  (forall w, world_ok w -> P w -> Q a w) -> safe P (mret a) Q.
Proof. intros H evs w Hevs Hw HP. simpl. split_and!; auto using grows_refl. Qed.

Lemma safe_bind {A B : Type} (P : world -> Prop) (m : M A) (f : A -> M B) R Q :
  safe P m R -> (forall a, safe (R a) (f a) Q) -> safe P (m ≫= f) Q.
Proof.
  intros Hm Hf evs w Hevs Hw HP. specialize (Hm evs w Hevs Hw HP). unfold mbind, M_bind.
  destruct (m evs w) as [[[a evs'] w']| |]; [|done..]. destruct Hm as (Hevs' & Hw' & Hg & HR).
  specialize (Hf a evs' w' Hevs' Hw' HR). destruct (f a evs' w') as [[[b evs''] w'']| |]; [|done..].
  destruct Hf as (? & ? & Hg' & ?). split_and!; try done. by eapply grows_trans.
Qed.

Lemma safe_weaken {A : Type} (P P' : world -> Prop) (m : M A) (Q Q' : A -> world -> Prop) :
  safe P m Q -> (forall w, world_ok w -> P' w -> P w) -> (forall a w, world_ok w -> Q a w -> Q' a w) -> safe P' m Q'.
Proof.
  intros Hm HP HQ evs w Hevs Hw Hp. specialize (Hm evs w Hevs Hw (HP w Hw Hp)).
  destruct (m evs w) as [[[a evs'] w']| |]; [|done..]. destruct Hm as (? & ? & ? & ?). auto.
Qed.

Lemma safe_pre {A : Type} (P P' : world -> Prop) (m : M A) (Q : A -> world -> Prop) :
  safe P m Q -> (forall w, world_ok w -> P' w -> P w) -> safe P' m Q.
Proof. intros Hm HP. by eapply safe_weaken. Qed.

(** A fact that holds of the state may be used to choose the proof. *)
Lemma safe_pure {A : Type} (F : Prop) (P : world -> Prop) (m : M A) Q :
  (forall w, world_ok w -> P w -> F) -> (F -> safe P m Q) -> safe P m Q.
Proof. intros HF Hm evs w Hevs Hw HP. by apply Hm; [eapply HF|..]. Qed.

Lemma safe_exists {A X : Type} (P : X -> world -> Prop) (m : M A) Q :
  (forall x, safe (P x) m Q) -> safe (fun w => exists x, P x w) m Q.
Proof. intros H evs w Hevs Hw [x Hx]. by apply (H x). Qed.

Lemma safe_await {A : Type} (P : world -> Prop) (f : answer -> world -> outcome halt (A * world)) Q :
  stable P ->
  (forall a w, answer_ok a w -> world_ok w -> P w ->
    match f a w with Ok (x, w') => own_step w w' /\ Q x w' | Err e => forall v, e <> Waiting v | Panic => False end) ->
  safe P (await f) Q.
Proof.
  intros HP Hf evs w Hevs Hw Hp. unfold await. destruct evs as [|e evs]; [done|].
  apply Forall_cons in Hevs as [He Hevs]. destruct (He w) as [Hr Ha].
  specialize (Hf (ev_ans e) (ev_env e w) Ha (rely_ok _ _ Hr Hw) (HP _ _ Hr Hw Hp)).
  destruct (f _ _) as [[x w']|[| |v]|]; [|done|done|by destruct (Hf v)|done]. destruct Hf as (Hs & ?).
  split_and!; [done|eapply own_step_ok; [by apply Hr|done]| |done].
  eapply grows_trans; [by apply rely_grows|by apply own_step_grows].
Qed.

Lemma safe_atomic {A : Type} (P : world -> Prop) (f : world -> outcome halt (A * world)) Q :
  stable P ->
  (forall w, world_ok w -> P w ->
    match f w with Ok (x, w') => own_step w w' /\ Q x w' | Err e => forall v, e <> Waiting v | Panic => False end) ->
  safe P (atomic f) Q.
Proof. intros HP Hf. apply safe_await; [done|]. intros a w _ Hw Hp. destruct a; try done. by apply Hf. Qed.

(** *** Own steps *)

(** Regions that are not others' change; what becomes available was owned, what
    becomes unavailable is owned then. *)
Lemma own_step_touch w (S : ptr -> Prop) h cs (O : gset ptr) :
  world_ok w -> touches S (w_heap w) h -> (forall p, S p -> p ∉ f_private (w_frame w)) ->
  (forall c rs r, cc_regions cs !! c = Some rs -> r ∈ rs -> good w r) -> cc_closed (w_clients w) ⊆ cc_closed cs ->
  (forall p, unav (w_heap w) p -> (p ∈ w_owned w -> p ∈ O) -> unav h p) ->
  (forall p, p ∈ O -> p ∈ w_owned w \/ S p /\ unav h p /\ ~ unav (w_heap w) p) ->
  (forall p, unav h p -> p ∈ O \/ unav (w_heap w) p /\ (p ∉ w_owned w)) ->
  own_step w (mkWorld _ h (w_regions w) cs (w_made w) (w_done w) (w_once w) (w_spawned w) O (w_private w) (w_frame w)).
Proof.
  intros Hw Ht HS Hc Hcl Hu Ho Hcov. split; simpl; try done.
  - intros p i i' _. apply (t_client _ _ _ Ht).
  - apply Ht, Hw.
  - apply Ht.
  - apply Ht.
  - intros p Hp. apply (t_only _ _ _ Ht). intros ?%HS. done.
  - eapply items_ok_ext; [apply Ht|apply Hw].
  - by left.
  - by left.
  - intros p Hp. destruct (Ho p Hp) as [?|(?%HS & ? & ?)]; auto.
  - intros p Hp. destruct (decide (p ∈ w_private w)); [tauto|]. destruct (Hcov p Hp) as [?|[? ?]]; tauto.
Qed.

(** The availability stays as it is. *)
Lemma own_step_same w (S : ptr -> Prop) h cs :
  world_ok w -> touches S (w_heap w) h -> (forall p, S p -> p ∉ f_private (w_frame w)) -> same_avail (w_heap w) h ->
  (forall c rs r, cc_regions cs !! c = Some rs -> r ∈ rs -> good w r) -> cc_closed (w_clients w) ⊆ cc_closed cs ->
  own_step w (set_clients cs h w).
Proof.
  intros Hw Ht HS Ha Hc Hcl. apply (own_step_touch w S); try done.
  - intros p Hp _. by apply Ha.
  - by left.
  - intros p Hp%Ha. destruct (decide (p ∈ w_owned w)); auto.
Qed.

Lemma own_step_clients w cs :
  world_ok w -> (forall c rs r, cc_regions cs !! c = Some rs -> r ∈ rs -> good w r) ->
  cc_closed (w_clients w) ⊆ cc_closed cs -> own_step w (set_clients cs (w_heap w) w).
Proof.
  intros Hw Hc Hcl. apply (own_step_same w (fun _ => False)); [done|apply touches_refl|done|by intros p|done|done].
Qed.

Lemma own_step_refl w : world_ok w -> own_step w w.
Proof.
  intros Hw. destruct w as [h t cs m d oc sp O Pr f].
  apply (own_step_clients (mkWorld _ h t cs m d oc sp O Pr f)); [done|apply Hw|done].
Qed.

(** *** Stable facts *)

Lemma good_stable p : stable (fun w => good w p).
Proof.
  intros w w' Hr _ [Ha Hp Hk He]. split.
  - by eapply alloc_ext, Ha; apply Hr.
  - by rewrite (rely_private _ _ Hr).
  - by apply (rely_known _ _ Hr).
  - by eapply establishable_ext, He; apply Hr.
Qed.

(** The facts carried through a proof: what is owned, which regions
    may be used, which are well formed. *)
Record holds (O : gset ptr) (K R : list ptr) (w : world) : Prop := {
  h_owned : w_owned w = O;
  h_good : Forall (good w) K;
  h_ordinary : Forall (ordinary (w_heap w)) R;
}.

Lemma holds_good O K R w p : holds O K R w -> p ∈ K -> good w p.
Proof. intros H Hp. by apply (proj1 (Forall_forall _ _) (h_good _ _ _ _ H)). Qed.

Lemma holds_step O O' K R w w' : own_step w w' -> w_owned w' = O' -> holds O K R w -> holds O' K R w'.
Proof.
  intros Hs Ho [_ Ha Hr]. split; [done| |].
  - eapply Forall_impl; [exact Ha|]. intros p. by apply own_step_good.
  - eapply Forall_impl; [exact Hr|]. intros p. apply ordinary_ext, Hs.
Qed.

Lemma holds_same O K R w w' : own_step w w' -> w_owned w' = w_owned w -> holds O K R w -> holds O K R w'.
Proof. intros Hs Ho H. eapply holds_step; [done| |exact H]. rewrite Ho. apply H. Qed.

Lemma holds_stable O K R : stable (holds O K R).
Proof.
  intros w w' Hr Hw [Ho Ha HR]. split; [by rewrite (rely_owned _ _ Hr)| |].
  - eapply Forall_impl; [exact Ha|]. intros p. by apply good_stable.
  - eapply Forall_impl; [exact HR|]. intros p. apply ordinary_ext, Hr.
Qed.

Lemma holds_cons O K R p w : good w p -> holds O K R w -> holds O (p :: K) R w.
Proof. intros Hp [H1 H2 H3]. split; try done. by constructor. Qed.

Lemma holds_sub O K K' R R' w :
  (forall p, p ∈ K' -> p ∈ K) -> (forall p, p ∈ R' -> p ∈ R) -> holds O K R w -> holds O K' R' w.
Proof.
  intros HK HR [H1 H2 H3]. split; [done|..]; apply Forall_forall; intros p Hp.
  - by apply (proj1 (Forall_forall _ _) H2), HK.
  - by apply (proj1 (Forall_forall _ _) H3), HR.
Qed.

Lemma holds_owned_eq O O' K R w : O = O' -> holds O K R w -> holds O' K R w.
Proof. by intros ->. Qed.

Lemma owned_back (O : gset ptr) (p : ptr) : p ∉ O -> ({[p]} ∪ O) ∖ {[p]} = O.
Proof. intros H. apply set_eq. intros x. rewrite elem_of_difference, elem_of_union, elem_of_singleton. split; [tauto|]. intros Hx. split; [by right|]. by intros ->. Qed.

Lemma stable_and P Q : stable P -> stable Q -> stable (fun w => P w /\ Q w).
Proof. intros HP HQ w w' Hr Hw [? ?]. split; [by eapply HP|by eapply HQ]. Qed.

(** A region that only this goroutine refers to. *)
Definition fresh (p : ptr) (i : info) (w : world) : Prop := p ∈ w_private w /\ h_infos (w_heap w) !! p = Some i.

Lemma fresh_stable p i : stable (fresh p i).
Proof.
  intros w w' Hr _ [Hp Hi]. split; [by rewrite (rely_private _ _ Hr)|]. by rewrite (rely_private_kept _ _ Hr).
Qed.

Definition private (p : ptr) (w : world) : Prop := p ∈ w_private w.

Lemma private_stable p : stable (private p).
Proof. intros w w' Hr _. unfold private. by rewrite (rely_private _ _ Hr). Qed.

(** *** The accesses *)

Lemma mark_step w p i :
  world_ok w -> h_infos (w_heap w) !! p = Some i -> p ∉ f_private (w_frame w) -> exists h',
    let b := bool_decide (r_available i = None) in
    let w' := set_ghost (if b then {[p]} ∪ w_owned w else w_owned w) (w_private w) (set_heap h' w) in
    MarkUnavailable p (w_heap w) = Ok (E := Empty_set) (b, h') /\ own_step w w' /\
    (b = true -> p ∉ w_owned w).
Proof.
  intros Hw Hi Hp. destruct (MarkUnavailable_touches _ _ _ Hi) as (h' & HM & Ht & Hu). exists h'.
  pose proof (unav_iff _ _ _ Hi) as Hav. cbv zeta. split; [done|]. split; [apply (own_step_touch w (fun q => q = p))|]; try done.
  - by intros q ->.
  - apply Hw.
  - intros q Hq _. apply Hu. by right.
  - intros q Hq. case_bool_decide as Ha; [|by left]. apply elem_of_union in Hq as [->%elem_of_singleton|Hq]; [|by left].
    right. split; [done|]. rewrite Hu, Hav. tauto.
  - intros q [->|Hq]%Hu; case_bool_decide as Ha.
    + left. set_solver.
    + apply Hav in Ha. destruct (decide (p ∈ w_owned w)); auto.
    + destruct (decide (q ∈ w_owned w)); [left; set_solver|auto].
    + destruct (decide (q ∈ w_owned w)); auto.
  - intros Ha%bool_decide_eq_true Ho. apply (wo_owned w Hw) in Ho as [?%Hav _]. done.
Qed.

Lemma safe_markUnavailable O K R p :
  p ∈ K -> safe (holds O K R) (markUnavailable p)
    (fun b w => holds (if b then {[p]} ∪ O else O) K R w /\ (b = true -> (p ∉ O))).
Proof.
  intros HpK. apply safe_atomic; [apply holds_stable|]. intros w Hw H.
  destruct (holds_good _ _ _ _ _ H HpK) as [[i Hi] _ Hk _].
  destruct (mark_step w p i Hw Hi Hk) as (h' & -> & Hs & Hno). cbn [obind no_err fst snd].
  split; [exact Hs|]. split; [|by rewrite <- (h_owned _ _ _ _ H)].
  eapply holds_step; [exact Hs| |exact H]. simpl. by rewrite (h_owned _ _ _ _ H).
Qed.

Lemma safe_markUnavailable_fresh O K R p i :
  r_available i = None ->
  safe (fun w => holds O K R w /\ fresh p i w) (markUnavailable p) (fun _ w => holds ({[p]} ∪ O) K R w /\ private p w).
Proof.
  intros Hav. apply safe_atomic; [apply stable_and; [apply holds_stable|apply fresh_stable]|].
  intros w Hw [H [Hp Hi]]. destruct (wo_private w Hw p Hp) as (_ & Hk & _).
  destruct (mark_step w p i Hw Hi Hk) as (h' & -> & Hs & _). rewrite bool_decide_eq_true_2 in Hs |- * by done.
  cbn [obind no_err fst snd]. split; [exact Hs|]. split; [|done].
  eapply holds_step; [exact Hs| |exact H]. simpl. by rewrite (h_owned _ _ _ _ H).
Qed.

Lemma safe_markAvailable O K R p :
  p ∈ O -> safe (holds O K R) (markAvailable p) (fun _ => holds (O ∖ {[p]}) K R).
Proof.
  intros HpO. apply safe_atomic; [apply holds_stable|]. intros w Hw H.
  assert (p ∈ w_owned w) as Hown by (by rewrite (h_owned _ _ _ _ H)).
  destruct (wo_owned w Hw p Hown) as [Hun Hk].
  destruct (MarkAvailable_touches _ _ (wo_heap w Hw) Hun) as (h' & -> & Ht & Hu). cbn [obind no_err].
  match goal with |- own_step w ?w' /\ _ => assert (own_step w w') as Hs end.
  { apply (own_step_touch w (fun q => q = p)); try done.
    - by intros q ->.
    - apply Hw.
    - intros q Hq Hno. apply Hu. split; [|done]. intros ->. specialize (Hno Hown). set_solver.
    - intros q Hq. left. set_solver.
    - intros q [Hne Hq]%Hu. destruct (decide (q ∈ w_owned w)); [left; set_solver|auto]. }
  split; [exact Hs|]. eapply holds_step; [exact Hs| |exact H]. simpl. by rewrite (h_owned _ _ _ _ H).
Qed.

Lemma safe_read {A : Type} P (f : heap -> outcome Empty_set A) (Q : A -> world -> Prop) :
  stable P -> (forall w, world_ok w -> P w -> exists a, f (w_heap w) = Ok a /\ Q a w) -> safe P (read_heap f) Q.
Proof.
  intros HP Hf. apply safe_atomic; [done|]. intros w Hw Hp. destruct (Hf w Hw Hp) as (a & -> & HQ). simpl.
  split; [by apply own_step_refl|done].
Qed.

Lemma safe_read_field {A : Type} O K R p (f : info -> A) :
  p ∈ K -> safe (holds O K R) (read_heap (fun h => let* i := deref p h in Ok (f i))) (fun _ => holds O K R).
Proof.
  intros Hp. apply safe_read; [apply holds_stable|]. intros w Hw H.
  destruct (good_alloc _ _ (holds_good _ _ _ _ _ H Hp)) as [i Hi]. rewrite (deref_lookup _ _ _ Hi). eauto.
Qed.

(** Only the goroutine that owns a region gives it a client. *)
Lemma set_client_step w p c i :
  world_ok w -> h_infos (w_heap w) !! p = Some i -> p ∉ f_private (w_frame w) -> c = None \/ p ∈ w_owned w ->
  own_step w (set_heap (set_info p (set_client c i) (w_heap w)) w).
Proof.
  intros Hw Hi Hk Hc.
  assert (same_avail (w_heap w) (set_info p (set_client c i) (w_heap w))) as Hav by (by eapply same_avail_set_info).
  assert (heap_ext (w_heap w) (set_info p (set_client c i) (w_heap w))) as Hext' by (by apply (set_info_ext p i)).
  split; simpl; try done; try (by left).
  - intros q j j' Hno Hj Hj'. simpl in Hj'. apply lookup_insert_Some in Hj' as [[<- <-]|[_ ?]]; simplify_eq; [|done].
    by destruct Hc as [->|?].
  - eapply set_info_ok; [apply Hw|done..].
  - intros q j j' Hj Hj'. simpl in Hj'. apply lookup_insert_Some in Hj' as [[<- <-]|[_ ?]]; by simplify_eq.
  - intros q Hq. apply lookup_insert_ne. by intros ->.
  - eapply items_ok_ext; [exact Hext'|apply Hw].
  - apply Hw.
  - intros q Hq _. by apply Hav.
  - intros q Hq%Hav. destruct (decide (q ∈ w_owned w)); [tauto|]. destruct (decide (q ∈ w_private w)); tauto.
Qed.

Lemma safe_setClient O K R p c :
  p ∈ K -> c = None \/ p ∈ O -> safe (holds O K R) (setClient p c) (fun _ => holds O K R).
Proof.
  intros HpK Hc. apply safe_atomic; [apply holds_stable|]. intros w Hw H.
  destruct (holds_good _ _ _ _ _ H HpK) as [[i Hi] _ Hk _]. unfold SetClient. rewrite (deref_lookup _ _ _ Hi).
  cbn [obind no_err fst snd].
  assert (own_step w (set_heap (set_info p (set_client c i) (w_heap w)) w)) as Hs
    by (apply set_client_step; [done..|by rewrite (h_owned _ _ _ _ H)]).
  split; [exact Hs|]. by eapply holds_same.
Qed.

(** What a put does to the regions: the overlaps die. *)
Lemma put_post_touches p reg l h r l' h' :
  (heap_ok h -> heap_ok h') -> heap_ext h h' -> put_post p reg l h r l' h' ->
  touches (fun q => q ∈ fst r) h h' /\ same_avail h h' /\
  forall kv, kv ∈ l' -> kv ∈ l \/ kv.2 = p /\ snd r = true.
Proof.
  intros Hok Hext. unfold put_post. destruct (assoc_lookup _ _).
  { intros (_ & -> & ->). split_and!; [apply touches_refl|by intros q|by left]. }
  intros [-> H]. destruct (existsb _ _).
  { destruct H as (_ & -> & ->). split_and!; [apply touches_refl|by intros q|by left]. }
  destruct H as (Hr & Hl & Hq).
  assert (forall q i, h_infos h !! q = Some i -> exists i', h_infos h' !! q = Some i' /\
    i' = if decide (q ∈ (overlap_entries h reg l).*2) then set_dead i else i) as Hq'.
  { intros q i Hi. destruct (heap_ext_lookup _ _ _ _ Hext Hi) as (i' & Hi' & _). exists i'. split; [done|].
    destruct (Hq q i' Hi') as (j0 & Hj0 & ->). by simplify_eq. }
  split_and!.
  - split; [done|done|..].
    + intros q i i' Hi Hi' Hd. destruct (Hq' q i Hi) as (j & Hj & ->). simplify_eq. by case_decide.
    + intros q i i' Hi Hi' Hc. destruct (Hq' q i Hi) as (j & Hj & ->). simplify_eq. by case_decide.
    + intros q Hno. destruct (h_infos h !! q) as [i|] eqn:Hi.
      * destruct (Hq' q i Hi) as (j & Hj & ->). by rewrite decide_False in Hj.
      * destruct (h_infos h' !! q) as [j|] eqn:Hj; [|done]. destruct (Hq q j Hj) as (? & ? & _). congruence.
  - intros q. split; intros (i & c & Hi & Hc).
    + destruct (Hq q i Hi) as (j & Hj & ->). exists j, c. split; [done|]. by case_decide.
    + destruct (Hq' q i Hi) as (j & Hj & ->). eexists _, c. split; [done|]. by case_decide.
  - intros kv [->|[? _]]%Hl; [by right|by left].
Qed.

Lemma put_post_overlaps p reg l h r l' h' q :
  put_post p reg l h r l' h' -> q ∈ fst r -> exists kv, kv ∈ l /\ kv.2 = q.
Proof.
  unfold put_post. destruct (assoc_lookup _ _) as [v|] eqn:Hv.
  - intros (-> & _) ->%list_elem_of_singleton. apply assoc_lookup_Some in Hv. by eexists.
  - intros [-> _] (kv & -> & [_ Hin]%list_elem_of_filter)%list_elem_of_fmap. by exists kv.
Qed.

Lemma put_step w p i :
  world_ok w -> h_infos (w_heap w) !! p = Some i -> region_ok i -> ordinary (w_heap w) p -> mine p [p] ->
  p ∈ w_private w -> p ∈ w_owned w -> exists os b t h,
    put p (w_regions w) (w_heap w) = Ok (E := Empty_set) (os, b, t, h) /\
    (forall q, q ∈ os -> good w q) /\
    let w' := set_ghost (w_owned w) (if b then w_private w ∖ {[p]} else w_private w) (set_caches t h w) in
    own_step w w' /\ (b = true -> good w' p).
Proof.
  intros Hw Hi Hreg Hord Hm Hpr Hown.
  destruct (@put_spec _ _ Empty_set p i (w_regions w) (w_heap w) (wo_items w Hw) Hi Hreg)
    as (os & b & t & h & Hput & Hitems & Hext & Hok & Hpost). exists os, b, t, h. split; [done|].
  assert (forall q, q ∈ os -> good w q) as Hos.
  { intros q Hq. destruct (put_post_overlaps _ _ _ _ _ _ _ _ Hpost Hq) as (kv & Hin & <-). by apply (wo_items_good w Hw). }
  split; [done|]. cbv zeta. destruct (put_post_touches _ _ _ _ _ _ _ Hok Hext Hpost) as (Ht & Hu & Hnew). cbn [fst snd] in Ht, Hnew.
  match goal with |- own_step w ?w' /\ _ => assert (b = true -> good w' p) as Hg; [|split; [|done]] end.
  { intros ->. destruct (wo_private w Hw p Hpr) as (Ha & Hk & _).
    split; simpl; [by eapply alloc_ext|set_solver|done|]. exists [p]. split; [done|]. constructor; [by eapply ordinary_ext|done]. }
  split; simpl; try done; try (by left).
  - intros q j j' _. apply (t_client _ _ _ Ht).
  - by apply Hok, Hw.
  - apply Ht.
  - intros q Hq. apply (t_only _ _ _ Ht). intros [_ _ ? _]%Hos. done.
  - intros kv Hkv. destruct (Hnew kv Hkv) as [?|[-> Hb]]; [by left|]. right. by apply Hg.
  - apply Hw.
  - intros q Hq. left. destruct b; set_solver.
  - intros q Hq _. by apply Hu.
  - intros q Hq%Hu. destruct (decide (q ∈ w_owned w)) as [?|Hno]; [auto|]. assert (q <> p) by (by intros ->).
    destruct (decide (q ∈ w_private w)); [|auto 7]. right; right; left. destruct b; set_solver.
Qed.

Lemma safe_regions_put O K R p :
  p ∈ R -> p ∈ O -> mine p [p] ->
  safe (fun w => holds O K R w /\ private p w) (regions_put p)
    (fun x w => holds O (fst x ++ if (snd x : bool) then p :: K else K) R w /\ (snd x = false -> private p w)).
Proof.
  intros HpR HpO Hm. apply safe_atomic; [apply stable_and; [apply holds_stable|apply private_stable]|]. intros w Hw [H Hpr].
  rewrite (wo_made w Hw) by (destruct Hm as [(_ & _ & ?)|[(_ & _ & ?)|(? & _)]]; done).
  pose proof (proj1 (Forall_forall _ _) (h_ordinary _ _ _ _ H) p HpR) as Hord. pose proof Hord as (i & Hi & Hreg & _).
  destruct (put_step w p i Hw Hi Hreg Hord Hm Hpr) as (os & b & t & h & -> & Hos & Hs & Hg); [by rewrite (h_owned _ _ _ _ H)|].
  cbn [obind no_err]. split; [exact Hs|]. cbn [fst snd]. split; [|by intros ->].
  destruct (holds_same _ _ _ _ _ Hs eq_refl H) as [H1 H2 H3]. split; [done| |done]. apply Forall_app. split.
  - apply Forall_forall. intros q Hq. by eapply own_step_good, Hos.
  - destruct b; [|done]. constructor; [by apply Hg|done].
Qed.

Lemma safe_regions_del O K R p :
  clientType = RegionClientType -> p ∈ R -> p ∈ K -> safe (holds O K R) (regions_del p) (fun _ => holds O K R).
Proof.
  intros Hct HpR HpK. apply safe_atomic; [apply holds_stable|]. intros w Hw H. rewrite (wo_made w Hw Hct).
  pose proof (proj1 (Forall_forall _ _) (h_ordinary _ _ _ _ H) p HpR) as (i & Hi & Hreg & _).
  destruct (@del_spec _ _ Empty_set p i (w_regions w) (w_heap w) (wo_items w Hw) Hi Hreg) as (t' & -> & Ht' & Hitems).
  cbn [obind no_err]. pose proof (good_known _ _ (holds_good _ _ _ _ _ H HpK)) as Hk.
  assert (own_step w (set_caches t' (set_info p (set_dead i) (w_heap w)) w)) as Hs; [|split; [exact Hs|by eapply holds_same]].
  assert (touches (fun q => q = p) (w_heap w) (set_info p (set_dead i) (w_heap w))) as Ht by (by eapply touches_set_info).
  destruct (own_step_same w _ _ (w_clients w) Hw Ht) as [];
    [by intros q ->|by eapply same_avail_set_info|apply Hw|done|].
  split; try done. intros kv Hkv. left. simpl in Hkv. rewrite Ht' in Hkv. by apply list_elem_of_filter in Hkv as [_ ?].
Qed.

Lemma safe_clients_del O K R p :
  p ∈ K -> safe (holds O K R) (clients_del p) (fun _ => holds O K R).
Proof.
  intros HpK. apply safe_atomic; [apply holds_stable|]. intros w Hw H.
  destruct (holds_good _ _ _ _ _ H HpK) as [Hp _ Hk _]. pose proof Hp as [i Hi].
  assert (exists cs h', cdel p (w_clients w) (w_heap w) = Ok (E := Empty_set) (cs, h') /\ own_step w (set_clients cs h' w))
    as (cs & h' & -> & Hs); [|split; [exact Hs|by eapply holds_same]].
  unfold cdel, Client. rewrite (deref_lookup _ _ _ Hi). cbn [obind]. destruct (r_client i) as [c|]; cbn [obind].
  2: { eexists _, _. split; [done|]. apply own_step_clients; [done|apply Hw|done]. }
  destruct (SetClient_touches (w_heap w) p Hp) as (h' & -> & Ht & Hu). cbn [obind].
  destruct (cc_regions (w_clients w) !! c) as [rs|] eqn:Hc; cbn [obind]; eexists _, _; (split; [done|]);
    apply (own_step_same w (fun q => q = p)); try done; try (by intros q ->); [|apply Hw].
  simpl. intros c0 rs0 r0 Hc0 Hr0. apply lookup_insert_Some in Hc0 as [[<- <-]|[_ Hc0]]; [|by eapply (wo_clients w Hw)].
  eapply (wo_clients w Hw); [exact Hc|]. by apply elem_of_difference in Hr0 as [? _].
Qed.

Lemma safe_clients_del_all O K R l :
  (forall p, p ∈ l -> p ∈ K) -> safe (holds O K R) (clients_del_all l) (fun _ => holds O K R).
Proof.
  induction l as [|p l IH]; intros Hl; simpl; [by apply safe_ret|].
  eapply safe_bind; [apply safe_clients_del, Hl; by left|]. intros []. apply IH. intros q Hq. apply Hl. by right.
Qed.

Lemma safe_clients_put O K R addr p :
  Some p <> adminRegionInfo -> p ∈ K -> safe (holds O K R) (clients_put addr p) (fun _ => holds O K R).
Proof.
  intros Hadm HpK. apply safe_atomic; [apply holds_stable|]. intros w Hw H.
  rewrite (wo_made w Hw); [|destruct (holds_good _ _ _ _ _ H HpK) as [_ _ _ (? & [(_ & ? & _)|[(? & _)|(? & _)]] & _)]; done].
  pose proof (holds_good _ _ _ _ _ H HpK) as Hp. unfold cput.
  destruct (find_client _ _ _) as [[c rs]|] eqn:Hf; cbn [new_client];
    match goal with |- own_step w ?w' /\ _ => assert (own_step w w') as Hs; [|split; [exact Hs|by eapply holds_same]] end;
    apply own_step_clients; try done; simpl; intros c0 rs0 r0 Hc0 Hr0;
    apply lookup_insert_Some in Hc0 as [[<- <-]|[_ Hc0]]; try (by eapply (wo_clients w Hw)).
  - apply find_client_Some in Hf as [Hin%elem_of_range _].
    apply elem_of_union in Hr0 as [->%elem_of_singleton|Hr0]; [done|]. by eapply (wo_clients w Hw).
  - by apply elem_of_singleton in Hr0 as ->.
Qed.

Lemma safe_new_client O K R addr :
  safe (holds O K R)
    (atomic (fun w => let '(c, s) := new_client addr (w_clients w) in Ok (c, set_clients s (w_heap w) w)))
    (fun _ => holds O K R).
Proof.
  apply safe_atomic; [apply holds_stable|]. intros w Hw H. cbn [new_client].
  match goal with |- own_step w ?w' /\ _ => assert (own_step w w') as Hs; [|split; [exact Hs|by eapply holds_same]] end.
  apply own_step_clients; [done|apply (wo_clients w Hw)|done].
Qed.

Lemma safe_clients_down O K R c :
  safe (holds O K R) (clients_down c) (fun rs => holds O (elements rs ++ K) R).
Proof.
  apply safe_atomic; [apply holds_stable|]. intros w Hw H. cbn [cclientDown].
  match goal with |- own_step w ?w' /\ _ => assert (own_step w w') as Hs end.
  { apply own_step_clients; [done| |done]. simpl. intros c0 rs r [_ Hc]%lookup_delete_Some Hr. by eapply (wo_clients w Hw). }
  split; [exact Hs|]. destruct (holds_same _ _ _ _ _ Hs eq_refl H) as [H1 H2 H3]. split; [done| |done].
  apply Forall_app. split; [|done]. apply Forall_forall. intros r Hr%elem_of_elements.
  destruct (cc_regions (w_clients w) !! c) as [rs|] eqn:Hc; simpl in Hr; [|by apply elem_of_empty in Hr].
  eapply own_step_good; [exact Hs|]. by eapply (wo_clients w Hw).
Qed.

(** A goroutine gives up a region, to one that it starts or because nobody refers to it. *)
Lemma world_ok_release w p l (O : gset ptr) :
  world_ok w -> O = w_owned w ∖ {[p]} ->
  (l = [] /\ p ∈ w_private w \/ p ∈ w_owned w /\ good w p /\ exists a, l = [(p, a)]) ->
  world_ok (mkWorld _ (w_heap w) (w_regions w) (w_clients w) (w_made w) (w_done w) (w_once w) (w_spawned w ++ l) O (w_private w) (w_frame w)).
Proof.
  intros Hw -> Hp. set (w' := mkWorld _ _ _ _ _ _ _ _ _ _ _).
  assert (spawned_now w' = spawned_now w ++ l.*1) as Hnow.
  { unfold spawned_now. simpl. rewrite drop_app_le by (apply prefix_length, Hw). by rewrite fmap_app. }
  assert (forall q, q ∈ l.*1 -> q = p /\ p ∈ w_owned w /\ good w p) as Hin.
  { intros q Hq. destruct Hp as [[-> _]|(? & ? & a & ->)]; simpl in Hq; [by apply elem_of_nil in Hq|].
    by apply list_elem_of_singleton in Hq as ->. }
  assert (forall q, q ∈ w_owned w ∖ {[p]} -> q ∈ w_owned w) as Hsub by (intros q; set_solver).
  split; rewrite ?Hnow; try (by apply Hw).
  - intros kv Hkv. by destruct (wo_items_good w Hw kv Hkv).
  - intros q Hq. by destruct (wo_fixed_good w Hw q Hq).
  - intros c rs r Hc Hr. by destruct (wo_clients w Hw c rs r Hc Hr).
  - intros q Hq. by apply (wo_owned w Hw), Hsub.
  - intros q Hq. unfold covered. rewrite Hnow, elem_of_app. simpl. pose proof (wo_cover w Hw q Hq) as Hc. unfold covered in Hc.
    rewrite elem_of_difference, not_elem_of_singleton. destruct (decide (q = p)) as [->|Hne]; [|tauto].
    destruct Hp as [[-> ?]|(? & ? & a & ->)]; [tauto|]. assert (p ∈ [(p, a)].*1) by by left. tauto.
  - intros q Hq. destruct (wo_others w Hw q Hq) as (Hu & Ho & Hn). split_and!; [done|by intros ?%Hsub|].
    intros [?|(-> & ? & _)%Hin]%elem_of_app; done.
  - by apply prefix_app_r, Hw.
  - apply NoDup_app. split_and!; [apply Hw| |].
    + intros q Hq (-> & ? & _)%Hin. by destruct (wo_spawned w Hw p Hq) as (_ & ? & _).
    + destruct Hp as [[-> _]|(_ & _ & a & ->)]; [constructor|apply NoDup_singleton].
  - intros q [Hq|(-> & Ho & Hg)%Hin]%elem_of_app.
    + destruct (wo_spawned w Hw q Hq) as (? & ? & []). split_and!; [done|by intros ?%Hsub|done].
    + split_and!; [by apply Hw|set_solver|by destruct Hg].
Qed.

Lemma holds_release O K R w w' p :
  w_heap w' = w_heap w -> w_private w' = w_private w -> w_frame w' = w_frame w -> w_owned w' = w_owned w ∖ {[p]} ->
  holds O K R w -> holds (O ∖ {[p]}) K R w'.
Proof.
  intros Hh Hp Hf Ho [H1 H2 H3]. split; [by rewrite Ho, H1| |by rewrite Hh].
  eapply Forall_impl; [exact H2|]. intros q []. split; by rewrite ?Hh, ?Hp, ?Hf.
Qed.

Lemma safe_spawn O K R p addr : p ∈ O -> p ∈ K -> safe (holds O K R) (spawn p addr) (fun _ => holds (O ∖ {[p]}) K R).
Proof.
  intros HpO HpK evs w Hevs Hw H. simpl. split; [done|]. split; [|split; [done|apply (holds_release _ _ _ w); done]].
  apply (world_ok_release w p [(p, addr)]); [done|done|]. right. split_and!; [by rewrite (h_owned _ _ _ _ H)|by eapply holds_good|by eexists].
Qed.

Lemma safe_discard O K R p :
  safe (fun w => holds O K R w /\ private p w) (discard p) (fun _ => holds (O ∖ {[p]}) K R).
Proof.
  intros evs w Hevs Hw [H Hp]. simpl. split; [done|]. split; [|split; [done|apply (holds_release _ _ _ w); done]].
  pose proof (world_ok_release w p [] _ Hw eq_refl) as Hr. rewrite app_nil_r in Hr. apply Hr. by left.
Qed.

(** *** Waits *)

(** The client is closed if the error says so. *)
Definition closed_if (e : option cerr) (w : world) : Prop := e = Some ErrClientClosed -> w_done w = true.

Lemma closed_if_stable e : stable (closed_if e).
Proof. intros w w' Hr _ He ?. by apply (rely_done _ _ Hr), He. Qed.

Lemma safe_wait O K R ctx ch : safe (holds O K R) (wait_available ctx ch) (fun e w => holds O K R w /\ closed_if e w).
Proof.
  apply safe_await; [apply holds_stable|]. intros a w _ Hw H. pose proof (own_step_refl w Hw).
  destruct a as [|[]| | | | | |]; try done;
    [destruct (ctx_may_be_done ctx w)|destruct (w_done w) eqn:Hd|case_bool_decide]; try done; (split; [done|]; split; [done|]); by intros ?.
Qed.

Lemma safe_wait_if O K R ctx ch : safe (holds O K R) (wait_if ctx ch) (fun e w => holds O K R w /\ closed_if e w).
Proof. destruct ch; [apply safe_wait|by apply safe_ret]. Qed.

(** The sleep of an establisher ends early only when the region is dead. *)
Definition dead_in (p : ptr) (w : world) : Prop := exists i, h_infos (w_heap w) !! p = Some i /\ r_dead i = true.

Lemma dead_stable p : stable (dead_in p).
Proof.
  intros w w' Hr _ (i & Hi & Hd). destruct (heap_ext_lookup _ _ _ _ (rely_ext _ _ Hr) Hi) as (i' & Hi' & _).
  exists i'. split; [done|]. by eapply (rely_dead _ _ Hr).
Qed.

Lemma safe_sleep O K R ctx b :
  safe (holds O K R) (sleepAndIncreaseBackoff ctx b)
    (fun r w => holds O K R w /\
      match r with inr e => e = CtxErr /\ match ctx with CtxRegion p => dead_in p w | _ => True end | inl _ => True end).
Proof.
  unfold sleepAndIncreaseBackoff. case_bool_decide; [by apply safe_ret|].
  apply safe_await; [apply holds_stable|]. intros a w _ Hw H1. pose proof (own_step_refl w Hw). destruct a as [| |[]| | | | |]; try done.
  destruct ctx as [|p|]; simpl; try done. destruct (h_infos (w_heap w) !! p) as [i|] eqn:Hi; [|done].
  destruct (r_dead i) eqn:Hd; [|done]. split_and!; try done. by exists i.
Qed.

Lemma safe_sendBlocking O K R ctx :
  safe (holds O K R) (sendBlocking ctx)
    (fun r w => holds O K R w /\ match r with inr e => e = CtxErr /\ ctx <> CtxBackground | inl _ => True end).
Proof.
  apply safe_await; [apply holds_stable|]. intros a w _ Hw H. pose proof (own_step_refl w Hw). destruct a as [| | | | |[r|]| |]; try done.
  destruct ctx as [|p|]; simpl; try done. by destruct (h_infos (w_heap w) !! p) as [[? ? ? ? ? ? [] ? ?]|].
Qed.

Lemma safe_dial O K R : safe (holds O K R) dial (fun _ => holds O K R).
Proof. apply safe_await; [apply holds_stable|]. intros a w _ Hw H. pose proof (own_step_refl w Hw). by destruct a. Qed.

Lemma safe_zkLookup O K R :
  safe (holds O K R) zkLookup
    (fun r w => holds O K R w /\ match r with inr e => lookup_final e = false | inl _ => True end).
Proof. apply safe_await; [apply holds_stable|]. intros a w _ Hw H. pose proof (own_step_refl w Hw). by destruct a as [| | | |[]| | |]. Qed.

(** A fact that growing states keep. *)
Lemma safe_frame {A : Type} (F P : world -> Prop) (m : M A) Q :
  (forall w w', grows w w' -> F w -> F w') -> safe P m Q ->
  safe (fun w => P w /\ F w) m (fun a w => Q a w /\ F w).
Proof.
  intros HF Hm evs w Hevs Hw [HP Hf]. specialize (Hm evs w Hevs Hw HP).
  destruct (m evs w) as [[[a evs'] w']| |]; [|done..]. destruct Hm as (? & ? & He & ?). split_and!; try done.
  by eapply HF.
Qed.

(** ** A goroutine that is alone *)

Lemma fixed_establishable h p : fixed_region h -> is_fixed p -> alloc h p /\ establishable h p.
Proof.
  unfold fixed_region, is_fixed, establishable, mine. destruct clientType.
  - intros (Ha & q & i & Hq & Hi & _) [?|Hp]; [congruence|]. assert (q = p) as -> by congruence. split; [by exists i|].
    exists []. split; [by right; left|constructor].
  - intros (Hm & q & Hq & Hi) [Hp|?]; [|congruence]. assert (q = p) as -> by congruence. split; [done|].
    exists []. split; [by left|constructor].
Qed.

Lemma world_ok_alone h t mk (O : gset ptr) :
  heap_ok h -> items_ok h (items t) -> fixed_region h -> (forall kv, kv ∈ items t -> establishable h kv.2) ->
  (forall p, p ∈ O <-> unav h p) -> (clientType = RegionClientType -> mk = true) ->
  world_ok (mkWorld _ h t no_clients mk false OnceNew [] O ∅ (alone h)).
Proof.
  intros Hh Ht Hf He Ho Hmk. split; simpl; try done; try (by intros p ?%elem_of_empty); try (by intros p ?%elem_of_nil).
  - intros kv Hkv. destruct (items_entry _ _ _ Ht Hkv) as (i & Hi & _). split; simpl; [by exists i|set_solver|set_solver|by apply He].
  - intros p Hp. destruct (fixed_establishable h p Hf Hp). split; simpl; [done|set_solver|set_solver|done].
  - intros p Hp%Ho. split; [done|set_solver].
  - intros p Hp%Ho. right. by left.
  - apply dead_kept_refl.
  - apply NoDup_nil_2.
Qed.

End Discipline.

#[global] Arguments good_alloc {T clientType adminRegionInfo metaRegionInfo} w p _.
#[global] Arguments wo_heap {T HT clientType adminRegionInfo metaRegionInfo} w _.
#[global] Arguments wo_items {T HT clientType adminRegionInfo metaRegionInfo} w _.
#[global] Arguments wo_fixed {T HT clientType adminRegionInfo metaRegionInfo} w _.
#[global] Arguments wo_items_good {T HT clientType adminRegionInfo metaRegionInfo} w _.
#[global] Arguments wo_fixed_good {T HT clientType adminRegionInfo metaRegionInfo} w _.
#[global] Arguments wo_clients {T HT clientType adminRegionInfo metaRegionInfo} w _.
#[global] Arguments wo_owned {T HT clientType adminRegionInfo metaRegionInfo} w _.
#[global] Arguments wo_cover {T HT clientType adminRegionInfo metaRegionInfo} w _.
#[global] Arguments wo_others {T HT clientType adminRegionInfo metaRegionInfo} w _.
#[global] Arguments wo_foreign {T HT clientType adminRegionInfo metaRegionInfo} w _.
#[global] Arguments wo_private {T HT clientType adminRegionInfo metaRegionInfo} w _.
#[global] Arguments wo_ext {T HT clientType adminRegionInfo metaRegionInfo} w _.
#[global] Arguments wo_dead {T HT clientType adminRegionInfo metaRegionInfo} w _.
#[global] Arguments wo_done {T HT clientType adminRegionInfo metaRegionInfo} w _.
#[global] Arguments wo_made {T HT clientType adminRegionInfo metaRegionInfo} w _.
#[global] Arguments wo_close {T HT clientType adminRegionInfo metaRegionInfo} w _.
#[global] Arguments wo_once_done {T HT clientType adminRegionInfo metaRegionInfo} w _.
#[global] Arguments wo_closed {T HT clientType adminRegionInfo metaRegionInfo} w _.
#[global] Arguments wo_client {T HT clientType adminRegionInfo metaRegionInfo} w _.
#[global] Arguments wo_spawned {T HT clientType adminRegionInfo metaRegionInfo} w _.
#[global] Arguments h_owned {T clientType adminRegionInfo metaRegionInfo} O K R w _.
#[global] Arguments h_ordinary {T clientType adminRegionInfo metaRegionInfo} O K R w _.
#[global] Arguments holds_good {T clientType adminRegionInfo metaRegionInfo} O K R w p _ _.
#[global] Arguments safe_read_field {T HT clientType adminRegionInfo metaRegionInfo unmarshal_RegionInfo A} O K R p f _.
