(* ===== verification/Safety.v ===== *)
(** * Safety of the functions of rpc.go

    Under the discipline (Discipline.v) no run of [SendRPC] and of the goroutines
    that establish regions panics, and none leaves a region behind that nobody
    will make available. *)

From S2P Require Import Prelude RegionName Pb RegionInfo RegionTree KeyRegionCache Hrpc RpcError Multi ClientRegionCache World Rpc Establish Fuel Discipline.

Section Safety.
Context {T : RegionTree ptr} {HT : RegionTreeSpec ptr T} {HO : RangeOrder}.
Variable clientType : ClientType.
Variable adminRegionInfo metaRegionInfo : option ptr.
Variable unmarshal_RegionInfo : bytes -> option RegionInfo.

Abbreviation fixed_region := (fixed_region clientType adminRegionInfo metaRegionInfo).
Abbreviation mine := (mine clientType adminRegionInfo metaRegionInfo).
Abbreviation good := (good clientType adminRegionInfo metaRegionInfo).
Abbreviation world_ok := (world_ok clientType adminRegionInfo metaRegionInfo).
Abbreviation own_step := (own_step clientType adminRegionInfo metaRegionInfo).
Abbreviation stable := (stable clientType adminRegionInfo metaRegionInfo).
Abbreviation holds := (holds clientType adminRegionInfo metaRegionInfo).
Abbreviation row_ok := (row_ok unmarshal_RegionInfo).
Abbreviation event_ok := (event_ok clientType adminRegionInfo metaRegionInfo unmarshal_RegionInfo).
Abbreviation safe := (safe clientType adminRegionInfo metaRegionInfo unmarshal_RegionInfo).

(** *** Lookup *)

Abbreviation metaRow := (metaRow unmarshal_RegionInfo).
Abbreviation metaLookup := (metaLookup unmarshal_RegionInfo).
Abbreviation lookup_once := (lookup_once clientType adminRegionInfo metaRegionInfo unmarshal_RegionInfo).
Abbreviation lookup_loop := (lookup_loop clientType adminRegionInfo metaRegionInfo unmarshal_RegionInfo).
Abbreviation lookupRegion := (lookupRegion clientType adminRegionInfo metaRegionInfo unmarshal_RegionInfo).

Definition table_fits (table key : bytes) : Prop :=
  (comma ∉ table) /\ len table + len key + 3 <= MaxInt16.

Lemma metaScan_ok table key : table_fits table key -> exists s, metaScan table key = Ok s.
Proof.
  intros [_ Hlen]. unfold metaScan. rewrite createRegionSearchKey_fits by done. cbn [obind no_err].
  unfold NewScanRange, baseScan, applyOptions. simpl. eauto.
Qed.

Lemma metaRow_spec table key cells h :
  heap_ok h -> row_ok cells ->
  match metaRow table key cells h with
  | Ok (r, h') => heap_ok h' /\ (forall p i, h_infos h !! p = Some i -> h_infos h' !! p = Some i) /\
      (forall p i c, h_infos h' !! p = Some i -> r_available i = Some c -> h_infos h !! p = Some i) /\
      match r with
      | inl (reg, addr) => exists i, h_infos h' !! reg = Some i /\ h_infos h !! reg = None /\ region_ok i /\
          r_available i = None /\ fullyQualifiedTable i = table /\ (r_stopKey i = [] \/ key <b r_stopKey i) /\
          exists c, c ∈ cells /\ describes unmarshal_RegionInfo c i
      | inr e => lookup_final e = false
      end
  | Err _ => True
  | Panic => False
  end.
Proof.
  intros Hok Hrow. unfold metaRow, ParseRegionInfo.
  destruct (parse_cells unmarshal_RegionInfo cells None [] h) as [[[reg addr] h']|e|] eqn:Hp; simpl.
  - pose proof (fun p i c => parse_cells_available unmarshal_RegionInfo cells None [] h _ h' p i c Hp) as Hav.
    apply parse_cells_Ok in Hp as (Hok' & Hsub & Hreg & _); [|done].
    destruct reg as [p|]; [|by split_and!]. case_bool_decide; [by split_and!|].
    destruct Hreg as [?|(c & q & i & Hin & _ & [= <-] & Hd & Hi & Hnew)]; [done|].
    rewrite (deref_lookup _ _ _ Hi). cbn [obind no_err].
    destruct (proj1 (Forall_forall _ _) Hrow c Hin) as [_ Hri]. specialize (Hri i Hd).
    unfold bytes_eqb. case_bool_decide as Ht; simpl; [|by split_and!].
    case_bool_decide as Hs; simpl.
    + case_bool_decide as Hk; [by split_and!|]. split_and!; try done. exists i.
      split_and!; try done; [by destruct Hd as (? & ? & ? & ? & ? & ->)| |by exists c]. right. unfold bytes_lt.
      destruct (bytes_compare key (r_stopKey i)); [destruct Hk; done|done|destruct Hk; done].
    + split_and!; try done. exists i. split_and!; try done;
        [by destruct Hd as (? & ? & ? & ? & ? & ->)| |by exists c].
      left. apply len_zero_iff. destruct (decide (len (r_stopKey i) = 0)); [done|by destruct Hs].
  - by split_and!.
  - apply parse_cells_Panic in Hp as (c & Hin & _ & Hshort).
    by destruct (proj1 (Forall_forall _ _) Hrow c Hin) as [Hn _].
Qed.

(** What a lookup returns: a fixed region, or a new one of the table. *)
Definition looked_up (O : gset ptr) (K R : list ptr) (table : bytes) (reg : ptr) (w : world) : Prop :=
  (clientType = MasterClientType /\ Some reg = adminRegionInfo /\ holds O (reg :: K) R w) \/
  (clientType = RegionClientType /\ table = metaTableName /\ Some reg = metaRegionInfo /\ holds O (reg :: K) R w) \/
  (clientType = RegionClientType /\ table <> metaTableName /\ (reg ∉ O) /\ Some reg <> metaRegionInfo /\ exists i,
    holds O K (reg :: R) w /\ fresh reg i w /\ r_available i = None /\ fullyQualifiedTable i = table).

Definition lookup_post O K R table (r : ptr * string + cerr) (w : world) : Prop :=
  match r with
  | inl (reg, _) => looked_up O K R table reg w
  | inr e => holds O K R w /\ closed_if (Some e) w /\
      (lookup_final e = true -> clientType = RegionClientType /\ table <> metaTableName)
  end.

(** A new region is the goroutine's own. *)
Lemma metaRow_step w h (p : option ptr) :
  world_ok w -> heap_ok h -> (forall q i, h_infos (w_heap w) !! q = Some i -> h_infos h !! q = Some i) ->
  (forall q i c, h_infos h !! q = Some i -> r_available i = Some c -> h_infos (w_heap w) !! q = Some i) ->
  (forall q, p = Some q -> h_infos (w_heap w) !! q = None /\ alloc h q) ->
  own_step w (set_ghost (w_owned w) (match p with Some q => {[q]} ∪ w_private w | None => w_private w end) (set_heap h w)).
Proof.
  intros Hw Hok Hsub Hav Hp.
  assert (heap_ext (w_heap w) h) as Hext.
  { apply map_subseteq_spec. intros q i. rewrite !lookup_fmap. destruct (h_infos (w_heap w) !! q) eqn:Hq; [|done].
    by rewrite (Hsub _ _ Hq). }
  split; simpl; try done; try (by left).
  - intros q i i' _ Hi Hi'. apply Hsub in Hi. congruence.
  - intros q i i' Hi Hi'. apply Hsub in Hi. congruence.
  - intros q Hq. destruct (wo_foreign w Hw q Hq) as [[i Hi] _]. rewrite Hi. by apply Hsub.
  - eapply items_ok_ext; [exact Hext|apply Hw].
  - apply Hw.
  - intros q Hq. destruct p as [p|]; [|by left]. apply elem_of_union in Hq as [->%elem_of_singleton|?]; [|by left].
    right. by apply Hp.
  - intros q (i & c & Hi & Hc) _. exists i, c. split; [by apply Hsub|done].
  - intros q (i & c & Hi & Hc). assert (unav (w_heap w) q) by (exists i, c; split; [by eapply Hav|done]).
    destruct (decide (q ∈ w_owned w)); [tauto|]. destruct (decide (q ∈ w_private w)); [|tauto].
    right; right; left. destruct p; set_solver.
Qed.

Lemma safe_metaLookup O K R table key :
  clientType = RegionClientType -> table <> metaTableName -> table_fits table key ->
  safe (holds O K R) (metaLookup table key) (lookup_post O K R table).
Proof.
  intros Hct Ht Hfit. unfold Rpc.metaLookup. destruct (metaScan_ok table key Hfit) as [s ->].
  apply safe_await; [apply holds_stable|]. intros a w Ha Hw H. pose proof (own_step_refl _ _ _ w Hw).
  destruct a as [| | |[cells| |e]| | | |]; try done.
  2: { split; [done|]. split; [done|]. split; [by intros [= ->]|done]. }
  simpl in Ha. pose proof (metaRow_spec table key cells (w_heap w) (wo_heap w Hw) Ha) as Hrow.
  destruct (metaRow table key cells (w_heap w)) as [[r h']| |]; [|done..]. cbn [obind no_err fst snd].
  destruct Hrow as (Hok & Hsub & Hav & Hr). destruct r as [[reg addr]|e].
  - destruct Hr as (i & Hi & Hnew & Hreg & Hi0 & Htab & _).
    assert (forall q, Some reg = Some q -> h_infos (w_heap w) !! q = None /\ alloc h' q) as Hq
      by (intros q [= <-]; split; [done|by exists i]).
    pose proof (metaRow_step w h' (Some reg) Hw Hok Hsub Hav Hq) as Hs.
    split; [exact Hs|]. right; right. split_and!; try done.
    + intros Hin. rewrite <- (h_owned _ _ _ _ H) in Hin. apply (wo_owned w Hw) in Hin as ((j & c & Hj & _) & _). congruence.
    + intros Heq. destruct (good_alloc _ _ (wo_fixed_good w Hw reg (or_intror Heq))) as [j Hj]. congruence.
    + exists i. split_and!; try done; [|split; [simpl; set_solver|done]].
      destruct (holds_same _ _ _ _ _ _ _ _ Hs eq_refl H) as [H1 H2 H3]. split; try done. constructor; [|done].
      exists i. split_and!; [done..|]. by rewrite Htab.
  - pose proof (metaRow_step w h' None Hw Hok Hsub Hav ltac:(done)) as Hs.
    split; [exact Hs|]. split; [by eapply holds_same|]. split; [|done]. intros [= ->]. done.
Qed.

Lemma safe_located O K R p :
  is_fixed adminRegionInfo metaRegionInfo p ->
  safe (holds O K R) (located (Some p))
    (fun r w => match r with
                | inl (q, _) => q = p /\ holds O (p :: K) R w
                | inr e => holds O K R w /\ lookup_final e = false
                end).
Proof.
  intros Hp. eapply safe_bind; [apply safe_zkLookup|]. intros [addr|e]; apply safe_ret; intros w Hw [H He]; [|done].
  split; [done|]. apply holds_cons; [|done]. by apply (wo_fixed_good w Hw).
Qed.

Lemma safe_located_post O K R o p table :
  o = Some p -> is_fixed adminRegionInfo metaRegionInfo p ->
  (forall w, holds O (p :: K) R w -> looked_up O K R table p w) ->
  safe (holds O K R) (located o) (lookup_post O K R table).
Proof.
  intros -> Hp Hl. eapply safe_weaken; [by apply (safe_located O K R p)|done|].
  intros [[q addr]|e] w _; cbn [lookup_post]; [intros [-> H]; by apply Hl|]. intros [H He]. split_and!; [done| |congruence].
  intros [= ->]. done.
Qed.

(** Which regions are fixed. *)
Lemma safe_fixed {A : Type} P (m : M A) Q :
  (metaRegionInfo = None -> clientType = MasterClientType -> forall p, adminRegionInfo = Some p -> safe P m Q) ->
  (adminRegionInfo = None -> clientType = RegionClientType -> forall p, metaRegionInfo = Some p -> safe P m Q) -> safe P m Q.
Proof.
  intros H1 H2 evs w Hevs Hw HP. pose proof (wo_fixed w Hw) as Hf. unfold Discipline.fixed_region in Hf.
  destruct clientType.
  - destruct Hf as (? & p & i & ? & _). by eapply H2.
  - destruct Hf as (? & p & ? & _). by eapply H1.
Qed.

Lemma safe_lookup_once O K R table key :
  (clientType = RegionClientType -> table <> metaTableName -> table_fits table key) ->
  safe (holds O K R) (lookup_once table key) (lookup_post O K R table).
Proof.
  intros Hfit. unfold Rpc.lookup_once. apply safe_fixed; intros Hno Hct p Hp.
  - rewrite bool_decide_eq_true_2 by done. apply (safe_located_post O K R _ p); [done|by left|]. by left.
  - rewrite bool_decide_eq_false_2 by congruence. case_bool_decide as Ht; [|by apply safe_metaLookup; auto].
    apply (safe_located_post O K R _ p); [done|by right|]. by right; left.
Qed.

(** A lookup that fails: the error is final, or the context was done. *)
Definition lookup_failed (ctx : context) (table : bytes) (e : cerr) (w : world) : Prop :=
  (lookup_final e = true /\ clientType = RegionClientType /\ table <> metaTableName) \/
  lookup_final e = false /\ match ctx with CtxRegion p => dead_in p w | _ => True end.

Definition lookup_loop_post O K R ctx table (r : ptr * string + cerr) (w : world) : Prop :=
  match r with
  | inl (reg, _) => looked_up O K R table reg w
  | inr e => holds O K R w /\ closed_if (Some e) w /\ lookup_failed ctx table e w
  end.

Lemma safe_lookup_loop fuel O K R ctx table key b :
  (clientType = RegionClientType -> table <> metaTableName -> table_fits table key) ->
  safe (holds O K R) (lookup_loop fuel ctx table key b) (lookup_loop_post O K R ctx table).
Proof.
  intros Hfit. revert b. induction fuel as [|fuel IH]; intros b; [by intros evs w|]. cbn [Rpc.lookup_loop].
  eapply safe_bind; [by apply safe_lookup_once|]. intros [[reg addr]|e].
  - by apply safe_ret.
  - cbn [lookup_post]. destruct (lookup_final e) eqn:He;
      [apply safe_ret; intros w _ (H & Hc & Hf); split_and!; [done..|]; left; by destruct (Hf He)|].
    apply safe_pre with (P := holds O K R); [|by intros w _ [? _]].
    eapply safe_bind; [apply safe_sleep|]. intros [b'|e']; cbv beta.
    + eapply safe_weaken; [apply IH|by intros w _ [? _]|done].
    + apply safe_ret. intros w _ (H & -> & Hd). split; [done|]. split; [by intros [=]|]. by right.
Qed.

Lemma safe_lookupRegion O K R ctx table key :
  (clientType = RegionClientType -> table <> metaTableName -> table_fits table key) ->
  safe (holds O K R) (lookupRegion ctx table key) (lookup_loop_post O K R ctx table).
Proof. intros Hfit evs w. by apply safe_lookup_loop. Qed.

(** *** Finding a region *)

Abbreviation getRegionFromCache := (getRegionFromCache clientType adminRegionInfo metaRegionInfo).
Abbreviation findRegion := (findRegion clientType adminRegionInfo metaRegionInfo unmarshal_RegionInfo).
Abbreviation find_tries := (find_tries clientType adminRegionInfo metaRegionInfo unmarshal_RegionInfo).

Lemma safe_getRegionFromCache O K R table key :
  (clientType = RegionClientType -> table <> metaTableName -> table_fits table key) ->
  safe (holds O K R) (getRegionFromCache table key)
    (fun o w => match o with
                | Some p => holds O (p :: K) R w
                | None => holds O K R w /\ clientType = RegionClientType /\ table <> metaTableName
                end).
Proof.
  intros Hfit. unfold Rpc.getRegionFromCache. apply safe_fixed; intros _ Hct p Hp.
  { rewrite bool_decide_eq_true_2 by done. apply safe_ret. intros w Hw H. destruct adminRegionInfo; [|done]. simplify_eq.
    apply holds_cons; [|done]. apply (wo_fixed_good w Hw). by left. }
  rewrite bool_decide_eq_false_2 by congruence. case_bool_decide as Ht.
  { apply safe_ret. intros w Hw H. destruct metaRegionInfo; [|done]. simplify_eq.
    apply holds_cons; [|done]. apply (wo_fixed_good w Hw). by right. }
  apply safe_atomic; [apply holds_stable|]. intros w Hw H. rewrite (wo_made w Hw Hct). destruct (Hfit Hct Ht) as [Hc Hlen].
  destruct (@cachedRegion_spec _ _ Empty_set (w_heap w) (w_regions w) table key (wo_items w Hw) Hc Hlen) as (o & -> & Ho).
  cbn [obind no_err]. split; [by apply own_step_refl|]. destruct o as [q|]; [|done]. apply holds_cons; [|done].
  destruct (proj1 (Ho q) eq_refl) as (kv & Hin & <- & _). by apply (wo_items_good w Hw).
Qed.

Lemma mine_ordinary p : clientType = RegionClientType -> Some p <> metaRegionInfo -> mine p [p].
Proof. intros Hc Hm. by right; right. Qed.

Lemma safe_share_region O K R reg addr i :
  clientType = RegionClientType -> adminRegionInfo = None -> reg ∉ O -> Some reg <> metaRegionInfo -> r_available i = None ->
  safe (fun w => holds O K (reg :: R) w /\ fresh reg i w)
    (share_region adminRegionInfo metaRegionInfo reg addr)
    (fun o w => match o with Some p => holds O (p :: K) R w | None => holds O K R w end).
Proof.
  intros Hct Hadm Hno Hmeta Hav. unfold share_region.
  eapply safe_bind; [by apply safe_markUnavailable_fresh|]. intros ?. cbv beta.
  rewrite (bool_decide_eq_true_2 (Some reg <> metaRegionInfo)), (bool_decide_eq_true_2 (Some reg <> adminRegionInfo))
    by (done || by rewrite Hadm). cbn [andb].
  eapply safe_bind; [apply safe_regions_put; [by left|set_solver|by apply mine_ordinary]|]. intros [os replaced]. cbn [fst snd].
  destruct replaced; cbn [negb].
  - apply safe_pre with (P := holds ({[reg]} ∪ O) (os ++ reg :: K) (reg :: R)); [|by intros w _ [? _]].
    eapply safe_bind; [apply safe_clients_del_all; intros q Hq; apply elem_of_app; by left|]. intros [].
    eapply safe_bind; [apply safe_spawn; [set_solver|apply elem_of_app; right; by left]|]. intros []. apply safe_ret.
    intros w' _ H'. rewrite owned_back in H' by done.
    eapply holds_sub; [| |exact H']; intros q Hq; [apply elem_of_app; by right|by right].
  - apply safe_pre with (P := fun w => holds ({[reg]} ∪ O) (os ++ K) (reg :: R) w /\ private reg w);
      [|by intros w _ [? Hp]; split; [|apply Hp]].
    eapply safe_bind; [apply safe_discard|]. intros []. apply safe_ret. intros w' _ H'. rewrite owned_back in H' by done.
    eapply holds_sub; [| |exact H']; intros q Hq; [apply elem_of_app; by right|by right].
Qed.

Lemma safe_share_found O K R table reg addr :
  clientType = RegionClientType -> table <> metaTableName ->
  safe (looked_up O K R table reg) (share_region adminRegionInfo metaRegionInfo reg addr)
    (fun o w => match o with Some p => holds O (p :: K) R w | None => holds O K R w end).
Proof.
  intros Hct Ht. apply safe_fixed; [congruence|]. intros Hadm _ _ _.
  apply safe_pure with (F := (reg ∉ O) /\ Some reg <> metaRegionInfo).
  { intros w _ [(? & _)|[(_ & ? & _)|(_ & _ & ? & ? & _)]]; [congruence|done|done]. }
  intros [Hno Hmeta].
  apply safe_pre with (P := fun w => exists i, r_available i = None /\ holds O K (reg :: R) w /\ fresh reg i w).
  - apply safe_exists. intros i. apply safe_pure with (F := r_available i = None); [by intros w _ [? _]|]. intros Hav.
    apply safe_pre with (P := fun w => holds O K (reg :: R) w /\ fresh reg i w); [|by intros w _ [_ ?]].
    by apply safe_share_region with (i := i).
  - intros w _ [(? & _)|[(_ & ? & _)|(_ & _ & _ & _ & i & H & Hf & Hav & _)]]; [congruence|done|]. by exists i.
Qed.

Lemma safe_findRegion O K R ctx table key :
  clientType = RegionClientType -> table <> metaTableName -> table_fits table key ->
  safe (holds O K R) (findRegion ctx table key)
    (fun r w => match r with
                | inl (Some p) => holds O (p :: K) R w
                | inl None => holds O K R w
                | inr e => holds O K R w /\ closed_if (Some e) w
                end).
Proof.
  intros Hct Ht Hfit. eapply safe_bind; [by apply safe_lookupRegion|]. intros [[reg addr]|e].
  - eapply safe_bind; [by apply safe_share_found|]. intros [p|]; by apply safe_ret.
  - apply safe_ret. by intros w _ (? & ? & _).
Qed.

Lemma safe_find_tries n O K R ctx table key :
  (clientType = RegionClientType -> table <> metaTableName -> table_fits table key) ->
  safe (holds O K R) (find_tries n ctx table key)
    (fun r w => match r with inl p => holds O (p :: K) R w | inr e => holds O K R w /\ closed_if (Some e) w end).
Proof.
  intros Hfit. induction n as [|n IH]; [apply safe_ret; intros w _ H; split; [done|by intros [=]]|]. cbn [Rpc.find_tries].
  eapply safe_bind; [by apply safe_getRegionFromCache|]. intros [p|]; cbv beta; [by apply safe_ret|].
  apply safe_pure with (F := clientType = RegionClientType /\ table <> metaTableName); [by intros w _ [_ ?]|]. intros [Hct Ht].
  apply safe_pre with (P := holds O K R); [|by intros w _ [? _]].
  eapply safe_bind; [by apply safe_findRegion; auto|]. intros [[p|]|e]; cbv beta; [by apply safe_ret|apply IH|by apply safe_ret].
Qed.

(** *** Sending *)

Abbreviation getRegionForRpc := (getRegionForRpc clientType adminRegionInfo metaRegionInfo unmarshal_RegionInfo).
Abbreviation region_and_client_once :=
  (region_and_client_once clientType adminRegionInfo metaRegionInfo unmarshal_RegionInfo).
Abbreviation region_and_client_loop :=
  (region_and_client_loop clientType adminRegionInfo metaRegionInfo unmarshal_RegionInfo).
Abbreviation send_loop := (send_loop clientType adminRegionInfo metaRegionInfo unmarshal_RegionInfo).
Abbreviation SendRPC := (SendRPC clientType adminRegionInfo metaRegionInfo unmarshal_RegionInfo).

(** The first to mark a region hands it to the goroutine it starts. *)
Lemma safe_first_marks {A : Type} O K R p (m m' : M A) Q :
  p ∈ K -> (p ∉ O -> safe (holds ({[p]} ∪ O) K R) m Q) -> safe (holds O K R) m' Q ->
  safe (holds O K R) (first ← markUnavailable p; if (first : bool) then m else m') Q.
Proof.
  intros Hp Hm Hm'. eapply safe_bind; [by apply safe_markUnavailable|]. intros []; cbv beta.
  - apply safe_pure with (F := p ∉ O); [intros w _ [_ Hno]; by apply Hno|]. intros Hno.
    apply safe_pre with (P := holds ({[p]} ∪ O) K R); [by apply Hm|by intros w _ [? _]].
  - by apply safe_pre with (P := holds O K R); [|intros w _ [? _]].
Qed.

Lemma safe_spawn_back O K R p addr :
  p ∈ K -> p ∉ O -> safe (holds ({[p]} ∪ O) K R) (spawn p addr) (fun _ => holds O K R).
Proof.
  intros Hp Hno. eapply safe_weaken with (P := holds ({[p]} ∪ O) K R); [apply safe_spawn; [set_solver|done]|done|].
  intros ? w _. by rewrite owned_back.
Qed.

Lemma safe_mark_and_reestablish O K R p :
  p ∈ K -> safe (holds O K R) (mark_and_reestablish p) (fun _ => holds O K R).
Proof.
  intros Hp. apply safe_first_marks; [done| |by apply safe_ret]. intros Hno.
  eapply safe_bind; [by apply safe_spawn_back|]. intros []. by apply safe_ret.
Qed.

Lemma safe_region_and_client_once O K R ctx table key :
  (clientType = RegionClientType -> table <> metaTableName -> table_fits table key) ->
  safe (holds O K R) (region_and_client_once ctx table key)
    (fun r w => match r with
                | inl (Some (p, _)) => holds O (p :: K) R w
                | inl None => holds O K R w
                | inr e => holds O K R w /\ closed_if (Some e) w
                end).
Proof.
  intros Hfit. eapply safe_bind; [by apply safe_find_tries|]. intros [reg|e]; cbv beta; [|by apply safe_ret].
  assert (reg ∈ reg :: K) as Hreg by by left.
  assert (forall w, holds O (reg :: K) R w -> holds O K R w) as Hdrop
    by (intros w; apply holds_sub; [by right|done]).
  assert (forall e w, holds O (reg :: K) R w /\ closed_if e w -> holds O K R w /\ closed_if e w) as Hdrop'
    by (intros e w [? ?]; auto).
  eapply safe_bind; [by apply (safe_read_field O (reg :: K) R reg r_available)|]. intros ch.
  eapply safe_bind; [apply safe_wait_if|]. intros [e|]; [by apply safe_ret; auto|].
  apply safe_pre with (P := holds O (reg :: K) R); [|by intros w _ [? _]].
  eapply safe_bind; [by apply (safe_read_field O (reg :: K) R reg r_client)|]. intros [c|]; [by apply safe_ret|].
  eapply safe_bind; [by apply safe_mark_and_reestablish|]. intros ?.
  eapply safe_bind; [by apply (safe_read_field O (reg :: K) R reg r_available)|]. intros ch'.
  eapply safe_bind; [apply safe_wait_if|]. intros [e|]; [by apply safe_ret; auto|].
  apply safe_pre with (P := holds O (reg :: K) R); [|by intros w _ [? _]].
  eapply safe_bind; [by apply (safe_read_field O (reg :: K) R reg r_dead)|]. intros []; [by apply safe_ret; auto|].
  eapply safe_bind; [by apply (safe_read_field O (reg :: K) R reg r_client)|]. intros [c|]; apply safe_ret; [done|].
  intros w _. apply Hdrop.
Qed.

Lemma safe_region_and_client_loop fuel O K R ctx table key :
  (clientType = RegionClientType -> table <> metaTableName -> table_fits table key) ->
  safe (holds O K R) (region_and_client_loop fuel ctx table key)
    (fun r w => match r with inl (p, _) => holds O (p :: K) R w | inr e => holds O K R w /\ closed_if (Some e) w end).
Proof.
  intros Hfit. induction fuel as [|fuel IH]; [by intros evs w|]. cbn [Rpc.region_and_client_loop].
  eapply safe_bind; [by apply safe_region_and_client_once|]. intros [[[p c]|]|e]; cbv beta; [by apply safe_ret|apply IH|by apply safe_ret].
Qed.

Lemma safe_down_regions O K R l reg :
  (forall p, p ∈ l -> p ∈ K) -> safe (holds O K R) (down_regions l reg) (fun _ => holds O K R).
Proof.
  induction l as [|p l IH]; intros Hl; simpl; [by apply safe_ret|].
  assert (safe (holds O K R) (down_regions l reg) (fun _ => holds O K R)) as Hrest
    by (apply IH; intros q Hq; apply Hl; by right).
  assert (p ∈ K) as Hp by (apply Hl; by left).
  case_bool_decide; [done|]. apply safe_first_marks; [done| |done]. intros Hno.
  eapply safe_bind; [apply safe_setClient; [done|by left]|]. intros []. eapply safe_bind; [by apply safe_spawn_back|]. by intros [].
Qed.

Lemma safe_clientDown O K R c reg :
  reg ∈ K -> safe (holds O K R) (clientDown c reg) (fun _ => holds O K R).
Proof.
  intros Hreg. eapply safe_bind; [apply safe_clients_down|]. intros rs. cbv beta.
  assert (reg ∈ elements rs ++ K) as Hreg' by (apply elem_of_app; by right).
  eapply safe_weaken with (P := holds O (elements rs ++ K) R) (Q := fun _ => holds O (elements rs ++ K) R); [|done|].
  2: { intros ? w _. apply holds_sub; [|done]. intros q Hq. apply elem_of_app. by right. }
  assert (safe (holds O (elements rs ++ K) R) (down_regions (fst <$> range [c] (gset_to_gmap tt rs)) reg)
    (fun _ => holds O (elements rs ++ K) R)) as Hrest.
  { apply safe_down_regions. intros p Hp. apply elem_of_app. left. apply elem_of_elements.
    rewrite range_perm in Hp. apply list_elem_of_fmap in Hp as ([q []] & -> & Hin%elem_of_map_to_list).
    by apply lookup_gset_to_gmap_Some in Hin as [? _]. }
  eapply safe_bind; [by apply safe_markUnavailable|]. intros first. cbv beta.
  eapply safe_bind with (R := fun _ => holds O (elements rs ++ K) R); [|by intros []].
  destruct first; [|apply safe_ret; by intros w _ [? _]].
  apply safe_pure with (F := reg ∉ O); [intros w _ [_ Hno]; by apply Hno|]. intros Hno.
  apply safe_pre with (P := holds ({[reg]} ∪ O) (elements rs ++ K) R); [|by intros w _ [? _]].
  eapply safe_bind; [apply safe_setClient; [done|by left]|]. intros []. by apply safe_spawn_back.
Qed.

Lemma safe_handleResultError O K R e reg rc :
  reg ∈ K -> safe (holds O K R) (handleResultError adminRegionInfo e reg rc) (fun _ => holds O K R).
Proof.
  intros Hreg. destruct e; simpl; try by apply safe_ret.
  - eapply safe_bind; [by apply safe_mark_and_reestablish|]. intros ?. by apply safe_ret.
  - case_bool_decide; [|by apply safe_clientDown].
    eapply safe_bind; [by apply safe_mark_and_reestablish|]. intros ?. by apply safe_ret.
Qed.

Lemma safe_sendRPCToRegionClient O K R reg rc :
  reg ∈ K -> safe (holds O K R) (sendRPCToRegionClient adminRegionInfo reg rc)
    (fun r w => holds O K R w /\ closed_if (snd r) w).
Proof.
  intros Hreg. eapply safe_bind; [apply safe_sendBlocking|]. intros [res|e]; cbv beta.
  - apply safe_pre with (P := holds O K R); [|by intros w _ [? _]].
    destruct (Res_Error res) as [e|]; [|by apply safe_ret].
    eapply safe_bind; [by apply safe_handleResultError|]. intros ?. by apply safe_ret.
  - apply safe_ret. intros w _ (? & -> & _). split; [done|by intros [=]].
Qed.

Lemma safe_send_loop fuel O K R table key b :
  (clientType = RegionClientType -> table <> metaTableName -> table_fits table key) ->
  safe (holds O K R) (send_loop fuel table key b) (fun r w => holds O K R w /\ closed_if (snd r) w).
Proof.
  intros Hfit. revert b. induction fuel as [|fuel IH]; intros b; [by intros evs w|]. cbn [Rpc.send_loop].
  eapply safe_bind; [intros evs w; by apply safe_region_and_client_loop|].
  intros [[reg c]|e]; cbv beta; [|by apply safe_ret].
  assert (forall w, holds O (reg :: K) R w -> holds O K R w) as Hdrop
    by (intros w; apply holds_sub; [by right|done]).
  eapply safe_bind; [apply safe_sendRPCToRegionClient; by left|]. intros [msg err]. cbn [fst snd].
  assert (forall P b, (forall w, P w -> holds O (reg :: K) R w) ->
    safe P (send_loop fuel table key b) (fun r w => holds O K R w /\ closed_if (snd r) w)) as Hagain
    by (intros P b' HP; eapply safe_pre; [apply IH|auto]).
  assert (forall w, holds O (reg :: K) R w /\ closed_if err w -> holds O K R w /\ closed_if err w) as Hret
    by (intros w [? ?]; auto).
  destruct err as [[| | | |[]| | | |]|]; try (by apply safe_ret; auto); try (by apply Hagain; intros w [? _]).
  apply safe_pre with (P := holds O (reg :: K) R); [|by intros w _ [? _]].
  eapply safe_bind; [apply safe_sleep|]. intros [b'|e']; cbv beta.
  - by apply Hagain; intros w [? _].
  - apply safe_ret. intros w _ (? & -> & _). split; [auto|by intros [=]].
Qed.

(** *** Establishing *)

Abbreviation relookup := (relookup clientType adminRegionInfo metaRegionInfo unmarshal_RegionInfo).
Abbreviation connect := (connect adminRegionInfo).
Abbreviation establish_loop := (establish_loop clientType adminRegionInfo metaRegionInfo unmarshal_RegionInfo).
Abbreviation establishRegion := (establishRegion clientType adminRegionInfo metaRegionInfo unmarshal_RegionInfo).

(** The region keeps its immutable attributes. *)
Definition has_static (p : ptr) (i : info) (w : world) : Prop :=
  exists i', h_infos (w_heap w) !! p = Some i' /\ static i' = static i.

Lemma has_static_grows p i w w' : grows w w' -> has_static p i w -> has_static p i w'.
Proof.
  intros [He _] (i' & Hi' & Hs). destruct (heap_ext_lookup _ _ _ _ He Hi') as (j & Hj & Hs'). exists j.
  split; [done|]. congruence.
Qed.

Lemma has_static_stable p i : stable (has_static p i).
Proof. intros w w' Hr _. eapply has_static_grows, rely_grows, Hr. Qed.

Lemma mine_fits reg R O K i w :
  mine reg R -> world_ok w -> holds O K R w -> h_infos (w_heap w) !! reg = Some i ->
  (clientType = RegionClientType -> fullyQualifiedTable i <> metaTableName ->
     table_fits (fullyQualifiedTable i) (r_startKey i) /\ R = [reg]) /\
  (clientType = RegionClientType -> R = [reg] -> fullyQualifiedTable i <> metaTableName).
Proof.
  intros Hm Hw H Hi. destruct Hm as [(Hc & _)|[(Hc & Hp & ->)|(Hc & Hp & ->)]].
  - split; congruence.
  - pose proof (wo_fixed w Hw) as Hf. unfold Discipline.fixed_region in Hf. rewrite Hc, <- Hp in Hf.
    destruct Hf as (_ & q & j & [= <-] & Hj & Ht). simplify_eq. done.
  - pose proof (h_ordinary _ _ _ _ H) as Ho. apply Forall_singleton in Ho as (j & Hj & Hok & Ht). simplify_eq.
    split; [|done]. intros _ _. split; [|done]. split; [by apply region_comma|apply Hok].
Qed.

Lemma probe_get_ok i : exists g, probe_get i = Ok g.
Proof. unfold probe_get, NewGet, baseGet, applyOptions. simpl. eauto. Qed.

Lemma safe_deref O K R p :
  p ∈ K -> safe (holds O K R) (read_heap (deref p)) (fun i w => holds O K R w /\ h_infos (w_heap w) !! p = Some i).
Proof.
  intros Hp. apply safe_read; [apply holds_stable|]. intros w Hw H.
  destruct (good_alloc _ _ (holds_good _ _ _ _ _ H Hp)) as [i Hi]. exists i. by rewrite (deref_lookup _ _ _ Hi).
Qed.

Lemma safe_isRegionEstablished O K R reg :
  reg ∈ K -> safe (holds O K R) (isRegionEstablished reg) (fun _ => holds O K R).
Proof.
  intros Hreg. eapply safe_bind; [by apply safe_deref|]. intros i. cbv beta. destruct (probe_get_ok i) as [g ->].
  apply safe_pre with (P := holds O K R); [|by intros w _ [? _]].
  eapply safe_bind; [apply safe_sendBlocking|]. intros [res|e]; cbv beta.
  - apply safe_ret. by intros w _ [? _].
  - by intros evs w _ _ (_ & _ & []).
Qed.

Lemma safe_client_for O K R reg addr :
  reg ∈ K -> safe (holds O K R) (client_for adminRegionInfo reg addr) (fun _ => holds O K R).
Proof.
  intros Hreg. unfold client_for. case_bool_decide; [apply safe_new_client|by apply safe_clients_put].
Qed.

Lemma safe_release O K R p : p ∉ O -> safe (holds ({[p]} ∪ O) K R) (markAvailable p) (fun _ => holds O K R).
Proof.
  intros Hno. eapply safe_weaken with (P := holds ({[p]} ∪ O) K R); [apply safe_markAvailable; set_solver|done|].
  intros ? w _. by rewrite owned_back.
Qed.

Lemma safe_connect O K R reg addr :
  reg ∉ O -> reg ∈ K ->
  safe (holds ({[reg]} ∪ O) K R) (connect reg addr)
    (fun ok w => if ok then holds O K R w else holds ({[reg]} ∪ O) K R w).
Proof.
  intros Hno HK. eapply safe_bind; [by apply safe_client_for|]. intros c.
  eapply safe_bind; [apply safe_dial|].
  assert (safe (holds ({[reg]} ∪ O) K R) (_ ← markAvailable reg; mret true)
    (fun ok w => if ok then holds O K R w else holds ({[reg]} ∪ O) K R w)) as Hrel.
  { eapply safe_bind; [by apply safe_release|]. intros []. by apply safe_ret. }
  assert (safe (holds ({[reg]} ∪ O) K R) (_ ← setClient reg (Some c); _ ← markAvailable reg; mret true)
    (fun ok w => if ok then holds O K R w else holds ({[reg]} ∪ O) K R w)) as Hdone.
  { eapply safe_bind; [apply safe_setClient; [done|right; set_solver]|]. by intros []. }
  assert (safe (holds ({[reg]} ∪ O) K R) (_ ← clientDown c reg; mret false)
    (fun ok w => if ok then holds O K R w else holds ({[reg]} ∪ O) K R w)) as Hdown.
  { eapply safe_bind; [by apply safe_clientDown|]. intros []. by apply safe_ret. }
  intros []; [|done|done]. case_bool_decide; [done|].
  eapply safe_bind; [by apply safe_isRegionEstablished|]. intros [[]|]; cbv beta; try done; by apply safe_ret.
Qed.

Definition found_post (O : gset ptr) (f : found) (w : world) : Prop :=
  match f with
  | Return => holds O [] [] w
  | ReturnClosed => w_done w = true
  | Continue reg _ => exists R, mine reg R /\ (reg ∉ O) /\ holds ({[reg]} ∪ O) [reg] R w
  end.

(** The region is gone or dead: let those who wait for it look again. *)
Lemma safe_give_up O K R reg :
  reg ∉ O -> safe (holds ({[reg]} ∪ O) K R) (_ ← markAvailable reg; mret Return) (found_post O).
Proof.
  intros Hno. eapply safe_bind; [by apply safe_release|]. intros []. apply safe_ret. intros w _ H.
  eapply holds_sub; [| |exact H]; intros q Hq; by apply elem_of_nil in Hq.
Qed.

(** A new region takes the place of the old one. *)
Lemma safe_replace O R reg reg' addr j :
  reg ∉ O -> reg' ∉ {[reg]} ∪ O -> clientType = RegionClientType -> Some reg' <> metaRegionInfo -> r_available j = None ->
  safe (fun w => holds ({[reg]} ∪ O) [reg] (reg' :: R) w /\ fresh reg' j w)
    (_ ← markUnavailable reg';
     x ← regions_put reg';
     if negb (snd x) then _ ← markAvailable reg'; _ ← markAvailable reg; mret Return
     else _ ← clients_del_all (fst x); _ ← markAvailable reg; mret (Continue reg' addr)) (found_post O).
Proof.
  intros Hno Hno' Hct Hmeta Hav.
  eapply safe_bind; [by apply safe_markUnavailable_fresh|]. intros ?. cbv beta.
  eapply safe_bind; [apply safe_regions_put; [by left|set_solver|by apply mine_ordinary]|]. intros [os replaced]. cbn [fst snd].
  destruct replaced; cbn [negb].
  - apply safe_pre with (P := holds ({[reg']} ∪ ({[reg]} ∪ O)) (os ++ [reg'; reg]) (reg' :: R)); [|by intros w _ [? _]].
    eapply safe_bind; [apply safe_clients_del_all; intros q Hq; apply elem_of_app; by left|]. intros [].
    eapply safe_bind; [apply safe_markAvailable; set_solver|]. intros []. apply safe_ret. intros w _ H.
    exists [reg']. split; [by apply mine_ordinary|]. split; [set_solver|].
    eapply holds_sub; [| |eapply holds_owned_eq; [|exact H]].
    + intros q ->%list_elem_of_singleton. apply elem_of_app. right. by left.
    + intros q ->%list_elem_of_singleton. by left.
    + set_solver.
  - apply safe_pre with (P := holds ({[reg']} ∪ ({[reg]} ∪ O)) (os ++ [reg]) (reg' :: R)); [|by intros w _ [? _]].
    eapply safe_bind; [by apply safe_release|]. intros []. by apply safe_give_up.
Qed.

(** The lookup failed for good, or the region died: [log.Fatal] is not reached. *)
Lemma safe_lookup_failed O R reg e :
  reg ∉ O -> e <> TableNotFound ->
  safe (fun w => holds ({[reg]} ∪ O) [reg] R w /\ closed_if (Some e) w /\ (e = ErrClientClosed \/ dead_in reg w))
    (dead ← read_heap (ContextErr reg);
     if (dead : bool) then _ ← markAvailable reg; mret Return
     else match e with ErrClientClosed => mret ReturnClosed | _ => fatal end) (found_post O).
Proof.
  intros Hno Hne.
  eapply safe_bind with (R := fun dead w => holds ({[reg]} ∪ O) [reg] R w /\
    (dead = false -> e = ErrClientClosed /\ w_done w = true)).
  { apply safe_read.
    { repeat apply stable_and; [apply holds_stable|apply closed_if_stable|].
      intros w w' Hr Hw [?|?]; [by left|right; by eapply dead_stable]. }
    intros w Hw (H & Hc & He). destruct (good_alloc _ _ (holds_good _ _ _ _ reg H ltac:(by left))) as [i Hi].
    exists (r_dead i). unfold ContextErr. rewrite (deref_lookup _ _ _ Hi). split_and!; [done..|]. intros Hd.
    destruct He as [->|(j & Hj & Hd')]; [|simplify_eq; congruence]. split; [done|by apply Hc]. }
  intros []; cbv beta.
  - apply safe_pre with (P := holds ({[reg]} ∪ O) [reg] R); [by apply safe_give_up|by intros w _ [? _]].
  - apply safe_pure with (F := e = ErrClientClosed); [intros w _ [_ H]; by apply H|]. intros ->.
    apply safe_ret. intros w _ [_ H]. by apply H.
Qed.

Lemma looked_up_stable O K R table reg : stable (looked_up O K R table reg).
Proof.
  intros w w' Hr Hw [(? & ? & H)|[(? & ? & ? & H)|(? & ? & ? & ? & i & H & Hf & ?)]].
  - left. split_and!; try done. by eapply holds_stable.
  - right; left. split_and!; try done. by eapply holds_stable.
  - right; right. split_and!; try done. exists i. split_and!; [by eapply holds_stable|by eapply fresh_stable|tauto..].
Qed.

Lemma looked_up_holds O K R table reg w : looked_up O K R table reg w -> holds O K R w /\ alloc (w_heap w) reg.
Proof.
  assert (holds O (reg :: K) R w -> holds O K R w /\ alloc (w_heap w) reg) as Hh.
  { intros H. split; [by eapply holds_sub; [| |exact H]; [by right|]|]. apply (holds_good _ _ _ _ reg H). by left. }
  intros [(_ & _ & H)|[(_ & _ & _ & H)|(_ & _ & _ & _ & i & H & [_ Hi] & _)]]; [by apply Hh..|].
  split; [by eapply holds_sub; [| |exact H]; [|by right]|by exists i].
Qed.

(** A fixed region is looked up as itself. *)
Lemma looked_up_fixed O R reg reg' i w :
  mine reg R -> looked_up ({[reg]} ∪ O) [reg] R (fullyQualifiedTable i) reg' w ->
  (clientType = RegionClientType -> R = [reg] -> fullyQualifiedTable i <> metaTableName) ->
  reg' = reg \/ clientType = RegionClientType /\ (reg' ∉ {[reg]} ∪ O) /\ Some reg' <> metaRegionInfo /\
    exists j, holds ({[reg]} ∪ O) [reg] (reg' :: R) w /\ fresh reg' j w /\ r_available j = None.
Proof.
  intros Hm [(Hc & Hp & _)|[(Hc & Ht & Hp & _)|(Hc & Ht & Hno & Hp & j & H & Hf & Hav & _)]] Hmeta.
  - destruct Hm as [(_ & Hp' & _)|[(? & _)|(? & _)]]; [|congruence..]. left. congruence.
  - destruct Hm as [(? & _)|[(_ & Hp' & _)|(_ & _ & HR)]]; [congruence|left; congruence|by destruct (Hmeta Hc HR)].
  - right. split_and!; try done. by exists j.
Qed.

Lemma safe_lookup_found O R reg reg' addr i :
  mine reg R -> reg ∉ O ->
  (clientType = RegionClientType -> R = [reg] -> fullyQualifiedTable i <> metaTableName) ->
  safe (fun w => looked_up ({[reg]} ∪ O) [reg] R (fullyQualifiedTable i) reg' w /\ has_static reg i w)
    (dead ← read_heap (ContextErr reg);
     if (dead : bool) then _ ← markAvailable reg; mret Return
     else
       j ← read_heap (deref reg');
       if negb (bytes_eqb (r_name j) (r_name i)) then
         _ ← markUnavailable reg';
         x ← regions_put reg';
         if negb (snd x) then _ ← markAvailable reg'; _ ← markAvailable reg; mret Return
         else _ ← clients_del_all (fst x); _ ← markAvailable reg; mret (Continue reg' addr)
       else mret (Continue reg addr)) (found_post O).
Proof.
  intros Hm Hno Hmeta.
  set (P := fun w => looked_up ({[reg]} ∪ O) [reg] R (fullyQualifiedTable i) reg' w /\ has_static reg i w).
  assert (stable P) as HPs by (apply stable_and; [apply looked_up_stable|apply has_static_stable]).
  eapply safe_bind with (R := fun _ => P).
  { apply safe_read; [done|]. intros w Hw [H Hs]. destruct (looked_up_holds _ _ _ _ _ _ H) as [H' _].
    destruct (good_alloc _ _ (holds_good _ _ _ _ reg H' ltac:(by left))) as [k Hk].
    exists (r_dead k). unfold ContextErr. by rewrite (deref_lookup _ _ _ Hk). }
  intros []; cbv beta.
  { eapply safe_pre; [by apply (safe_give_up O [reg] R)|]. intros w _ [H _]. by apply looked_up_holds in H as [? _]. }
  eapply safe_bind with (R := fun j w => P w /\ (reg' = reg -> r_name j = r_name i)).
  { apply safe_read; [done|]. intros w Hw [H Hs]. destruct (looked_up_holds _ _ _ _ _ _ H) as [_ [k Hk]].
    exists k. rewrite (deref_lookup _ _ _ Hk). split_and!; try done. intros ->.
    destruct Hs as (k' & Hk' & Hst). assert (k' = k) as -> by congruence.
    destruct k, i. unfold static in Hst. simpl in *. congruence. }
  intros j. cbv beta. unfold bytes_eqb. case_bool_decide as Hname; cbn [negb].
  - apply safe_ret. intros w _ [[H _] _]. exists R. split_and!; try done. by apply looked_up_holds in H as [? _].
  - intros evs w Hevs Hw [[H Hs] Hn].
    destruct (looked_up_fixed O R reg reg' i w Hm H Hmeta) as [->|(Hct & Hno' & Hmt & k & Hh & Hf & Hav)];
      [by destruct (Hname (Hn eq_refl))|].
    by apply (safe_replace O R reg reg' addr k Hno Hno' Hct Hmt Hav evs w Hevs Hw).
Qed.

Lemma safe_relookup O R reg :
  mine reg R -> reg ∉ O -> safe (holds ({[reg]} ∪ O) [reg] R) (relookup reg) (found_post O).
Proof.
  intros Hm Hno. eapply safe_bind; [apply safe_deref; by left|]. intros i. cbv beta.
  apply safe_pure with (F := (clientType = RegionClientType -> fullyQualifiedTable i <> metaTableName ->
     table_fits (fullyQualifiedTable i) (r_startKey i) /\ R = [reg]) /\
    (clientType = RegionClientType -> R = [reg] -> fullyQualifiedTable i <> metaTableName)).
  { intros w Hw [H Hi]. by apply (mine_fits reg R _ _ i w Hm Hw H Hi). }
  intros [Hfit Hmeta]. apply safe_pre with (P := fun w => holds ({[reg]} ∪ O) [reg] R w /\ has_static reg i w);
    [|by intros w _ [? ?]; split; [|exists i]].
  eapply safe_bind; [apply (safe_frame _ _ _ _ (has_static reg i)); [intros; by eapply has_static_grows|]|].
  { apply safe_lookupRegion. intros H1 H2. by apply Hfit. }
  intros [[reg' addr]|e]; cbv beta; cbn [lookup_loop_post]; [by apply safe_lookup_found|].
  assert (e = TableNotFound \/ e <> TableNotFound) as [->|Hne] by (destruct e; auto).
  - apply safe_pure with (F := R = [reg] /\ clientType = RegionClientType).
    { intros w _ [(_ & _ & [(_ & Hct & Ht)|[? _]]) _]; [|done]. by destruct (Hfit Hct Ht). }
    intros [-> Hct]. apply safe_pre with (P := holds ({[reg]} ∪ O) [reg] [reg]); [|by intros w _ [[? _] _]].
    eapply safe_bind; [apply safe_regions_del; [done|by left..]|]. intros [].
    eapply safe_bind; [apply safe_clients_del; by left|]. intros []. by apply safe_give_up.
  - eapply safe_pre with (P := fun w => holds ({[reg]} ∪ O) [reg] R w /\ closed_if (Some e) w /\
      (e = ErrClientClosed \/ dead_in reg w)).
    + destruct e; try done; by apply safe_lookup_failed.
    + intros w _ [(H & Hc & [(He & _)|(_ & Hd)]) _]; (split_and!; [done..|]); [|by right]. destruct e; try done. by left.
Qed.

Lemma safe_establish_loop fuel O R reg addr b :
  mine reg R -> reg ∉ O ->
  safe (holds ({[reg]} ∪ O) [reg] R) (establish_loop fuel reg addr b)
    (fun closed w => if closed then w_done w = true else w_owned w = O).
Proof.
  revert R reg addr b. induction fuel as [|fuel IH]; intros R reg addr b Hm Hno; [by intros evs w|]. cbn [Establish.establish_loop].
  eapply safe_bind; [apply safe_sleep|]. intros [b'|e]; cbv beta.
  2: { apply safe_pre with (P := holds ({[reg]} ∪ O) [reg] R); [|by intros w _ [? _]].
       eapply safe_bind; [by apply safe_release|]. intros []. apply safe_ret. intros w _ H. apply H. }
  eapply safe_bind with (R := found_post O).
  { apply safe_pre with (P := holds ({[reg]} ∪ O) [reg] R); [|by intros w _ [? _]].
    case_bool_decide; [by apply safe_relookup|]. apply safe_ret. intros w _ H0. by exists R. }
  intros [| |reg' addr']; cbn [found_post].
  - apply safe_ret. intros w _ H. apply H.
  - by apply safe_ret.
  - apply safe_exists. intros R'. apply safe_pure with (F := mine reg' R' /\ (reg' ∉ O)); [by intros w _ (? & ? & _)|].
    intros [Hm' Hno']. apply safe_pre with (P := holds ({[reg']} ∪ O) [reg'] R'); [|by intros w _ (_ & _ & ?)].
    eapply safe_bind; [apply safe_connect; [done|by left]|]. intros []; cbv beta; [apply safe_ret; intros w _ H; apply H|].
    by apply IH.
Qed.

(** *** The claims *)

(** The errors that [SendRPC] hands to its caller. *)
Definition not_retried (e : option cerr) : Prop :=
  match e with
  | Some (CallErr (RetryableError _)) | Some (CallErr (ServerError _)) | Some (CallErr (NotServingRegionError _)) => False
  | _ => True
  end.

(** What a run can return, whatever the schedule. *)
Definition yields {A : Type} (m : M A) (Q : A -> Prop) : Prop :=
  forall evs w a evs' w', m evs w = Ok (a, evs', w') -> Q a.

Lemma yields_ret {A : Type} (a : A) (Q : A -> Prop) : Q a -> yields (mret a) Q.
Proof. intros H evs w a' evs' w' [= <- _ _]. done. Qed.

Lemma yields_bind {A B : Type} (m : M A) (f : A -> M B) P Q :
  yields m P -> (forall a, P a -> yields (f a) Q) -> yields (m ≫= f) Q.
Proof.
  intros Hm Hf evs w b evs'' w''. unfold mbind, M_bind. destruct (m evs w) as [[[a evs'] w']| |] eqn:E; [|done..].
  apply Hf. by eapply Hm.
Qed.

Lemma yields_any {A : Type} (m : M A) : yields m (fun _ => True).
Proof. done. Qed.

Definition lookup_error (e : cerr) : Prop := e = CtxErr \/ lookup_final e = true \/ e = ErrCannotFindRegion.

Definition err_only {A : Type} (r : A + cerr) : Prop := match r with inr e => lookup_error e | inl _ => True end.

Lemma yields_sleep ctx b : yields (sleepAndIncreaseBackoff ctx b) err_only.
Proof.
  intros evs w a evs' w'. unfold sleepAndIncreaseBackoff. case_bool_decide; [by intros [= <- _ _]|].
  unfold await. destruct evs as [|e evs]; [done|]. repeat case_match; intros; simplify_eq; simpl; unfold lookup_error; auto.
Qed.

Lemma yields_lookup_loop fuel ctx table key b : yields (lookup_loop fuel ctx table key b) err_only.
Proof.
  revert b. induction fuel as [|fuel IH]; intros b; [done|]. cbn [Rpc.lookup_loop].
  eapply yields_bind; [apply yields_any|]. intros [ra|e] _; [by apply yields_ret|].
  destruct (lookup_final e) eqn:He; [apply yields_ret; right; by left|].
  eapply yields_bind; [apply yields_sleep|]. intros [b'|e'] He'; [apply IH|by apply yields_ret].
Qed.

Lemma yields_wait_if ctx ch : yields (wait_if ctx ch) (fun e => match e with Some e => lookup_error e | None => True end).
Proof.
  unfold wait_if. destruct ch as [ch|]; [|by apply yields_ret]. intros evs w a evs' w'. unfold wait_available, await.
  destruct evs as [|e evs]; [done|]. unfold lookup_error. repeat case_match; intros; simplify_eq; auto.
Qed.

Lemma yields_find_tries n ctx table key : yields (find_tries n ctx table key) err_only.
Proof.
  induction n as [|n IH]; [apply yields_ret; by right; right|]. cbn [Rpc.find_tries].
  eapply yields_bind; [apply yields_any|]. intros [p|] _; [by apply yields_ret|].
  eapply yields_bind with (P := err_only).
  { eapply yields_bind; [intros evs w; apply yields_lookup_loop|]. intros [[reg addr]|e] He; [|by apply yields_ret].
    eapply yields_bind; [apply yields_any|]. intros o _. by apply yields_ret. }
  intros [[p|]|e] He; [by apply yields_ret|apply IH|by apply yields_ret].
Qed.

Lemma yields_region_and_client_loop fuel ctx table key : yields (region_and_client_loop fuel ctx table key) err_only.
Proof.
  induction fuel as [|fuel IH]; [done|]. cbn [Rpc.region_and_client_loop]. eapply yields_bind with (P := err_only).
  2: { intros [[rc|]|e] He; [by apply yields_ret|apply IH|by apply yields_ret]. }
  eapply yields_bind; [apply yields_find_tries|]. intros [reg|e] He; [|by apply yields_ret].
  eapply yields_bind; [apply yields_any|]. intros ch _.
  eapply yields_bind; [apply yields_wait_if|]. intros [e|] He'; [by apply yields_ret|].
  eapply yields_bind; [apply yields_any|]. intros [c|] _; [by apply yields_ret|].
  eapply yields_bind; [apply yields_any|]. intros _ _. eapply yields_bind; [apply yields_any|]. intros ch' _.
  eapply yields_bind; [apply yields_wait_if|]. intros [e|] He''; [by apply yields_ret|].
  eapply yields_bind; [apply yields_any|]. intros [] _; [by apply yields_ret|].
  eapply yields_bind; [apply yields_any|]. intros c _. by apply yields_ret.
Qed.

Lemma lookup_error_not_retried e : lookup_error e -> not_retried (Some e).
Proof. intros [->|[?| ->]]; [done| |done]. by destruct e. Qed.

Lemma yields_send_loop fuel table key b : yields (send_loop fuel table key b) (fun r => not_retried (snd r)).
Proof.
  revert b. induction fuel as [|fuel IH]; intros b; [done|]. cbn [Rpc.send_loop].
  eapply yields_bind; [intros evs w; apply yields_region_and_client_loop|].
  intros [[reg c]|e] He; [|apply yields_ret; by apply lookup_error_not_retried].
  eapply yields_bind; [apply yields_any|]. intros [msg err] _. cbn [fst snd].
  destruct err as [[| | | |[]| | | |]|]; try (by apply yields_ret); try (by apply IH).
  eapply yields_bind; [apply yields_sleep|]. intros [b'|e'] He'; [apply IH|]. apply yields_ret. by apply lookup_error_not_retried.
Qed.

(** C10. However the other goroutines and the servers behave (within the
    discipline), [SendRPC] does not panic; it stops short of returning only when
    the schedule stops; every region that it marks unavailable is handed to a
    goroutine that will establish it; and the error it returns is never one
    that it should have retried, and says that the client is closed only when it
    is. *)
Theorem SendRPC_disciplined table key evs w :
  (clientType = RegionClientType -> table <> metaTableName -> table_fits table key) ->
  Forall event_ok evs -> world_ok w -> w_owned w = ∅ ->
  match SendRPC table key evs w with
  | Ok (r, _, w') => world_ok w' /\ w_owned w' = ∅ /\ not_retried (snd r) /\
      (snd r = Some ErrClientClosed -> w_done w' = true)
  | Err (Waiting w') => world_ok w'
  | Err e => e = Blocked
  | Panic => False
  end.
Proof.
  intros Hfit Hevs Hw Ho.
  pose proof (safe_send_loop (S (length evs)) ∅ [] [] table key backoffStart Hfit evs w Hevs Hw) as Hs.
  pose proof (uses_send_loop clientType adminRegionInfo metaRegionInfo unmarshal_RegionInfo (S (length evs)) table key
    backoffStart ltac:(done) evs w ltac:(lia)) as Hu.
  unfold Rpc.SendRPC. destruct (send_loop _ _ _ _ evs w) as [[[r evs'] w']|[]|] eqn:E; try done.
  - destruct Hs as (_ & Hw' & _ & H' & Hc); [by split|]. split_and!; [done|apply H'| |done]. by eapply yields_send_loop.
  - apply Hs. by split.
  - apply Hs. by split.
Qed.

(** C11. The goroutine that establishes a region (an ordinary one of a client, or
    its fixed one) does not panic (it closes no channel twice and reaches no
    [log.Fatal]) and stops short of returning only when the schedule stops.
    When it returns it has made available the region it was started for, and
    every region it took over on the way, or has handed it to another goroutine;
    or it says that the client is closed, and the client is. *)
Theorem establishRegion_disciplined reg addr R O evs w :
  mine reg R -> reg ∉ O -> Forall event_ok evs -> world_ok w -> holds ({[reg]} ∪ O) [reg] R w ->
  match establishRegion reg addr evs w with
  | Ok (closed, _, w') => world_ok w' /\ (if closed then w_done w' = true else w_owned w' = O)
  | Err (Waiting w') => world_ok w'
  | Err e => e = Blocked
  | Panic => False
  end.
Proof.
  intros Hm Hno Hevs Hw H.
  pose proof (safe_establish_loop (S (length evs)) O R reg addr 0 Hm Hno evs w Hevs Hw H) as Hs.
  pose proof (uses_establish_loop clientType adminRegionInfo metaRegionInfo unmarshal_RegionInfo (S (length evs)) reg addr 0
    evs w ltac:(lia)) as Hu.
  unfold Establish.establishRegion. destruct (establish_loop _ _ _ _ evs w) as [[[r evs'] w']|[]|]; try done.
  destruct Hs as (_ & Hw' & _ & H'). done.
Qed.

(** What [metaLookup] makes of a row of the meta table (of regions as HBase
    names them): a newly allocated, available region of the table, with a stop
    key above the row that was looked up or none; or an error that is retried.
    It does not panic. *)
Theorem metaRow_checked table key cells h :
  heap_ok h -> row_ok cells ->
  match metaRow table key cells h with
  | Ok (inl (reg, _), h') => exists i, h_infos h !! reg = None /\ h_infos h' !! reg = Some i /\ r_available i = None /\
      fullyQualifiedTable i = table /\ (r_stopKey i = [] \/ key <b r_stopKey i)
  | Ok (inr e, h') => lookup_final e = false
  | Err _ => True
  | Panic => False
  end.
Proof.
  intros Hok Hrow. pose proof (metaRow_spec table key cells h Hok Hrow) as H.
  destruct (metaRow table key cells h) as [[[[reg addr]|e] h']| |]; try done; [|tauto].
  destruct H as (_ & _ & _ & i & ? & ? & _ & ? & ? & ? & _). by exists i.
Qed.

End Safety.

