(* ===== verification/Retries.v ===== *)
(** * Sending and establishing on concrete schedules: rpc.go

    A call on a cached region is retried until it is answered, whatever the
    number of retryable errors; and the theorems of Safety are applied to a
    client with one table. *)

From S2P Require Import Prelude RegionName Pb RegionInfo RegionTree KeyRegionCache Hrpc RpcError Multi ClientRegionCache World Rpc Establish Fuel Discipline Safety.

(** ** Retries *)

(** An event without interference. *)
Definition quiet {T : RegionTree ptr} (a : answer) : event := mkEvent (fun w => w) a.

(** What a schedule holds for one attempt on a cached, available region: three
    accesses, the answer, and the sleep after a retryable error. *)
Definition attempt {T : RegionTree ptr} (r : RPCResult) : list event :=
  [quiet AnsGo; quiet AnsGo; quiet AnsGo; quiet (AnsResult (Some r))].

Definition failed_attempt {T : RegionTree ptr} (e : error) : list event :=
  attempt (errResult (RetryableError e)) ++ [quiet (AnsSleep false)].

Lemma length_failed_attempts {T : RegionTree ptr} es : (length es <= length (es ≫= failed_attempt))%nat.
Proof. induction es as [|e es IH]; csimpl; rewrite ?length_app; simpl in *; lia. Qed.

Section Retries.
Context {T : RegionTree ptr} {HO : RangeOrder}.
Variable metaRegionInfo : option ptr.
Variable unmarshal_RegionInfo : bytes -> option RegionInfo.
Variable table key : bytes.
Variable w : world.
Variable reg : ptr.
Variable i : info.
Variable c : cptr.
Hypothesis Htable : table <> metaTableName.
Hypothesis Hmade : w_made w = true.
Hypothesis Hcached : @cachedRegion T Empty_set table key (w_regions w) (w_heap w) = Ok (Some reg).
Hypothesis Hreg : h_infos (w_heap w) !! reg = Some i.
Hypothesis Havail : r_available i = None.
Hypothesis Hclient : r_client i = Some c.

Lemma attempt_region evs :
  getRegionAndClientForRPC RegionClientType None metaRegionInfo unmarshal_RegionInfo CtxRpc table key
    (quiet AnsGo :: quiet AnsGo :: quiet AnsGo :: evs) w = Ok (inl (reg, c), evs, w).
Proof.
  unfold getRegionAndClientForRPC. cbn [length region_and_client_loop].
  unfold region_and_client_once, getRegionForRpc, maxFindRegionTries. cbn [find_tries].
  unfold mbind, M_bind, getRegionFromCache. rewrite bool_decide_eq_false_2 by done.
  rewrite bool_decide_eq_false_2 by done. unfold atomic, await. cbn [ev_ans ev_env quiet]. rewrite Hmade, Hcached.
  cbn [no_err obind mret M_ret]. unfold read_heap, atomic, await, AvailabilityChan. cbn [ev_ans ev_env quiet].
  rewrite (deref_lookup _ _ _ Hreg). cbn [no_err obind]. rewrite Havail. cbn [wait_if mret M_ret]. unfold Client.
  rewrite (deref_lookup _ _ _ Hreg). cbn [no_err obind]. rewrite Hclient. done.
Qed.

(** The error is one that [handleResultError] leaves to the caller. *)
Lemma attempt_send res evs :
  (forall e, Res_Error res = Some e -> exists m, e = PlainError m \/ e = RetryableError m) ->
  sendRPCToRegionClient None reg c (quiet (AnsResult (Some res)) :: evs) w
  = Ok ((Res_Msg res, CallErr <$> Res_Error res), evs, w).
Proof.
  intros Hr. unfold sendRPCToRegionClient. erewrite bind_ok by reflexivity.
  cbv beta iota. destruct (Res_Error res) as [e|] eqn:He; [|done]. by destruct (Hr e eq_refl) as [m [-> | ->]].
Qed.

Lemma send_loop_retries es fuel b r evs :
  (length es < fuel)%nat -> 0 < b ->
  (forall e, Res_Error r = Some e -> exists m, e = PlainError m) ->
  send_loop RegionClientType None metaRegionInfo unmarshal_RegionInfo fuel table key b
    ((es ≫= failed_attempt) ++ attempt r ++ evs) w
  = Ok ((Res_Msg r, CallErr <$> Res_Error r), evs, w).
Proof.
  revert fuel b. induction es as [|e es IH]; intros fuel b Hfuel Hpos Hr;
    (destruct fuel as [|fuel]; [simpl in Hfuel; lia|]); cbn [send_loop].
  - erewrite bind_ok by apply attempt_region. cbv beta iota.
    erewrite bind_ok by (apply attempt_send; intros e He; destruct (Hr e He) as [m ->]; eauto).
    cbn [snd]. destruct (Res_Error r) as [e|] eqn:He; [|done]. by destruct (Hr e eq_refl) as [m ->].
  - erewrite bind_ok by apply attempt_region. cbv beta iota.
    erewrite bind_ok by (apply attempt_send; intros ? [= <-]; eauto). cbn [snd errResult Res_Error fmap option_fmap option_map].
    erewrite bind_ok; [|unfold sleepAndIncreaseBackoff; rewrite bool_decide_eq_false_2 by lia; reflexivity].
    apply IH; [simpl in Hfuel; lia|by apply increase_positive|done].
Qed.

(** C36. On a region that is cached, available and has a connection throughout, a
    call that gets any number of retryable errors ([RetryableError]) is sent again
    after each, with a wait in between, and when it then gets a message, or an
    error that is none of the three kinds that [SendRPC] acts on ([RetryableError],
    [ServerError] and [NotServingRegionError]), [SendRPC] returns just that. *)
Theorem SendRPC_retries_until_answered es r evs :
  (forall e, Res_Error r = Some e -> exists m, e = PlainError m) ->
  SendRPC RegionClientType None metaRegionInfo unmarshal_RegionInfo table key
    ((es ≫= failed_attempt) ++ attempt r ++ evs) w
  = Ok ((Res_Msg r, CallErr <$> Res_Error r), evs, w).
Proof.
  intros Hr. unfold SendRPC. apply send_loop_retries; [|done|done].
  rewrite length_app. pose proof (length_failed_attempts es). lia.
Qed.

End Retries.

(** ** A client with one table

    The meta region, and a region of a table with a client. *)

Definition sample_meta : info := Info 0 (Some (bs "hbase")) (bs "meta") (bs "hbase:meta,,1") [] [] false None None.
Definition sample_table : info := Info 1 None (bs "t") (bs "t,,1.") [] [] false (Some 7%nat) None.

Definition sample_heap : heap := Heap (<[0%nat := sample_meta]> (<[1%nat := sample_table]> ∅)) 2 0 ∅.

Definition sample_world : @world list_tree :=
  mkWorld list_tree sample_heap [(r_name sample_table, 1%nat)] no_clients true false OnceNew [] ∅ ∅ (alone sample_heap).

Lemma sample_table_ok : region_ok sample_table.
Proof. sample_region_tac. Qed.

Lemma sample_lookup p i :
  h_infos sample_heap !! p = Some i -> (p = 0%nat /\ i = sample_meta) \/ (p = 1%nat /\ i = sample_table).
Proof.
  simpl. intros [[<- <-]|[_ [[<- <-]|[_ H]]%lookup_insert_Some]]%lookup_insert_Some; [by left|by right|].
  by rewrite lookup_empty in H.
Qed.

Lemma sample_heap_ok : heap_ok sample_heap.
Proof.
  split.
  - intros p i [[-> _]|[-> _]]%sample_lookup; simpl; lia.
  - intros p i c [[_ ->]|[_ ->]]%sample_lookup; done.
  - intros c Hc. simpl in Hc. set_solver.
  - intros p q i j c [[_ ->]|[_ ->]]%sample_lookup; done.
Qed.

Lemma sample_establishable h i :
  h_infos h !! 1%nat = Some i -> static i = static sample_table -> establishable RegionClientType None (Some 0%nat) h 1%nat.
Proof.
  intros Hi Hs. exists [1%nat]. split; [by right; right|]. constructor; [|constructor]. exists i. split_and!; [done| |].
  - by apply (region_ok_static sample_table); [|apply sample_table_ok].
  - rewrite (fq_static _ _ Hs). vm_compute. discriminate.
Qed.

Lemma sample_world_ok : @world_ok list_tree list_tree_spec RegionClientType None (Some 0%nat) sample_world.
Proof.
  apply world_ok_alone.
  - apply sample_heap_ok.
  - split.
    + repeat constructor.
    + repeat constructor. exists sample_table. split_and!; [done|apply sample_table_ok|done].
    + intros a b i j Ha Hb Hne. apply list_elem_of_singleton in Ha, Hb. by subst.
  - split; [done|]. exists 0%nat, sample_meta. done.
  - intros kv ->%list_elem_of_singleton. by apply (sample_establishable _ sample_table).
  - intros p. split; [set_solver|]. intros (i & c & [[_ ->]|[_ ->]]%sample_lookup & Hc); done.
  - done.
Qed.

Lemma quiet_ok ct a m u x :
  (forall w, answer_ok u x w) -> @event_ok list_tree list_tree_spec ct a m u (quiet x).
Proof. intros Hx w. split; [|apply Hx]. split; try done; [apply dead_kept_refl|].
  intros p i i' _ Hi Hi'. simpl in Hi'. congruence. Qed.

(** The region server throttles once, then answers. *)
Definition sample_sends : list (@event list_tree) :=
  failed_attempt "throttled" ++ attempt (okResult (MOther "reply")).

Lemma sample_sends_ok : Forall (@event_ok list_tree list_tree_spec RegionClientType None (Some 0%nat) (fun _ => None)) sample_sends.
Proof. repeat (constructor; [by apply quiet_ok|]). constructor. Qed.

Lemma sample_sends_returns :
  match SendRPC RegionClientType None (Some 0%nat) (fun _ => None) (bs "t") (bs "row") sample_sends sample_world with
  | Ok ((Some (MOther "reply"), None), _, _) => true
  | _ => false
  end = true.
Proof. vm_compute. reflexivity. Qed.

Lemma SendRPC_disciplined_witness :
  exists r evs w', SendRPC RegionClientType None (Some 0%nat) (fun _ => None) (bs "t") (bs "row") sample_sends sample_world
      = Ok (r, evs, w') /\ w_owned w' = ∅.
Proof.
  pose proof (@SendRPC_disciplined list_tree list_tree_spec key_order RegionClientType None (Some 0%nat) (fun _ => None)
    (bs "t") (bs "row") sample_sends sample_world) as H.
  pose proof sample_sends_returns as Hret.
  destruct (SendRPC RegionClientType None (Some 0%nat) (fun _ => None) (bs "t") (bs "row") sample_sends sample_world)
    as [[[r evs] w']| |]; [|discriminate Hret..].
  exists r, evs, w'. split; [reflexivity|]. apply H.
  - intros _ _. split; [decide_tac|vm_compute; discriminate].
  - apply sample_sends_ok.
  - apply sample_world_ok.
  - reflexivity.
Defined.

Lemma SendRPC_retries_until_answered_witness :
  SendRPC RegionClientType None (Some 0%nat) (fun _ => None) (bs "t") (bs "row") sample_sends sample_world
  = Ok ((Some (MOther "reply"), None), [], sample_world).
Proof.
  apply (@SendRPC_retries_until_answered list_tree key_order (Some 0%nat) (fun _ => None) (bs "t") (bs "row") sample_world
    1%nat sample_table 7%nat ltac:(vm_compute; discriminate) eq_refl eq_refl eq_refl eq_refl eq_refl ["throttled"%string]
    (okResult (MOther "reply")) []).
  intros e He. discriminate.
Defined.

(** The region was marked unavailable and its establisher dials and probes. *)
Definition marked_heap : heap :=
  Heap (<[0%nat := sample_meta]> (<[1%nat := set_available (Some 0%nat) sample_table]> ∅)) 2 1 ∅.

Definition sample_marked : @world list_tree :=
  mkWorld list_tree marked_heap [(r_name sample_table, 1%nat)] no_clients true false OnceNew [] {[1%nat]} ∅ (alone marked_heap).

Definition sample_dial : list (@event list_tree) :=
  [quiet AnsGo; quiet (AnsDial DialOk); quiet AnsGo; quiet (AnsResult (Some (okResult (MOther "exists"))));
   quiet AnsGo; quiet AnsGo].

Lemma sample_marked_lookup p i :
  h_infos (w_heap sample_marked) !! p = Some i ->
  (p = 0%nat /\ i = sample_meta) \/ (p = 1%nat /\ i = set_available (Some 0%nat) sample_table).
Proof.
  simpl. intros [[<- <-]|[_ [[<- <-]|[_ H]]%lookup_insert_Some]]%lookup_insert_Some; [by left|by right|].
  by rewrite lookup_empty in H.
Qed.

Lemma sample_marked_ok : @world_ok list_tree list_tree_spec RegionClientType None (Some 0%nat) sample_marked.
Proof.
  apply world_ok_alone.
  - split.
    + intros p i [[-> _]|[-> _]]%sample_marked_lookup; simpl; lia.
    + intros p i c [[_ ->]|[_ ->]]%sample_marked_lookup; [done|]. intros [= <-]. simpl. split; [lia|set_solver].
    + intros c Hc. simpl in Hc. set_solver.
    + intros p q i j c [[-> ->]|[-> ->]]%sample_marked_lookup [[-> ->]|[-> ->]]%sample_marked_lookup; done.
  - split.
    + repeat constructor.
    + repeat constructor. exists (set_available (Some 0%nat) sample_table). split_and!; [done| |done].
      by apply (region_ok_static sample_table); [|apply sample_table_ok].
    + intros a b i j Ha Hb Hne. apply list_elem_of_singleton in Ha, Hb. by subst.
  - split; [done|]. exists 0%nat, sample_meta. done.
  - intros kv ->%list_elem_of_singleton. by apply (sample_establishable _ (set_available (Some 0%nat) sample_table)).
  - intros p. rewrite elem_of_singleton. split; [intros ->; by eexists _, _|].
    intros (i & c & [[_ ->]|[-> ->]]%sample_marked_lookup & Hc); done.
  - done.
Qed.

Lemma sample_dial_returns :
  match establishRegion RegionClientType None (Some 0%nat) (fun _ => None) 1%nat "rs:16020" sample_dial sample_marked with
  | Ok (closed, _, _) => negb closed
  | _ => false
  end = true.
Proof. vm_compute. reflexivity. Qed.

Lemma establishRegion_disciplined_witness :
  exists evs w', establishRegion RegionClientType None (Some 0%nat) (fun _ => None) 1%nat "rs:16020" sample_dial sample_marked
      = Ok (false, evs, w') /\ w_owned w' = ∅.
Proof.
  pose proof (@establishRegion_disciplined list_tree list_tree_spec key_order RegionClientType None (Some 0%nat)
    (fun _ => None) 1%nat "rs:16020" [1%nat] ∅ sample_dial sample_marked) as H.
  pose proof sample_dial_returns as Hret.
  destruct (establishRegion RegionClientType None (Some 0%nat) (fun _ => None) 1%nat "rs:16020" sample_dial sample_marked)
    as [[[[] evs] w']| |]; [discriminate Hret| |discriminate Hret..].
  exists evs, w'. split; [reflexivity|]. apply H; [| | | |split].
  - right; right. done.
  - set_solver.
  - repeat (constructor; [by apply quiet_ok|]). constructor.
  - apply sample_marked_ok.
  - simpl. set_solver.
  - constructor; [|constructor]. split; simpl; [by eexists|set_solver|set_solver|].
    by apply (sample_establishable _ (set_available (Some 0%nat) sample_table)).
  - destruct (sample_establishable (w_heap sample_marked) (set_available (Some 0%nat) sample_table) eq_refl eq_refl)
      as (R & [(? & _)|[(_ & ? & _)|(_ & _ & ->)]] & HR); [done|done|exact HR].
Defined.

Lemma sample_row_ok : row_ok (fun _ => Some sample_region) sample_row.
Proof.
  repeat (apply Forall_cons; split); [| |apply Forall_nil; exact I]; split.
  - intros [H _]. vm_compute in H. discriminate H.
  - intros i0 (tail & r & _ & [= <-] & _ & ->). sample_region_tac.
  - intros [_ H]. discriminate H.
  - intros i0 (tail & r & H & _). discriminate H.
Qed.

Lemma metaRow_checked_witness :
  exists h' i, metaRow (fun _ => Some sample_region) (bs "t") (bs "row") sample_row empty_heap
      = Ok (inl (0%nat, "host:1"%string), h') /\ h_infos h' !! 0%nat = Some i /\ fullyQualifiedTable i = bs "t".
Proof.
  pose proof (@metaRow_checked (fun _ => Some sample_region) (bs "t") (bs "row") sample_row empty_heap empty_heap_ok
    sample_row_ok) as H.
  assert (metaRow (fun _ => Some sample_region) (bs "t") (bs "row") sample_row empty_heap
    = Ok (inl (0%nat, "host:1"%string),
          snd (NewInfo 7 None (bs "t") (bs "t,,7.") [] [] empty_heap))) as Hrun by (vm_compute; reflexivity).
  rewrite Hrun in H. destruct H as (reg & _ & Hi & _ & Ht & _). by eexists _, reg.
Defined.
