(* ===== verification/Routing.v ===== *)
(** * Calls go to the regions that serve them: rpc.go

    [getRegionAndClientForRPC] picks the region that a call is sent to, from the
    cache or by a lookup in the meta table, while other goroutines move, drop and
    establish regions.  The region it picks is one of the call's table whose range
    has the call's row, and the connection it returns is the region's.

    [finds] is a triple for what a run returns, if it returns; that runs do not
    panic and where they wait is the subject of Safety, whose triples its rules
    use. *)

From S2P Require Import Prelude RegionName Pb RegionInfo RegionTree KeyRegionCache Hrpc RpcError Multi ClientRegionCache World Rpc Establish Fuel Discipline Safety Retries.

Section Routing.
Context {T : RegionTree ptr} {HT : RegionTreeSpec ptr T} {HO : RangeOrder}.
Variable metaRegionInfo : option ptr.
Variable unmarshal_RegionInfo : bytes -> option RegionInfo.
Variable table key : bytes.

Abbreviation world_ok := (world_ok RegionClientType None metaRegionInfo).
Abbreviation event_ok := (event_ok RegionClientType None metaRegionInfo unmarshal_RegionInfo).
Abbreviation safe := (safe RegionClientType None metaRegionInfo unmarshal_RegionInfo).
Abbreviation holds := (holds RegionClientType None metaRegionInfo).

(** The meta table as HBase answers a scan that is reversed from the search key of
    the row and returns one row: the regions of the table in it do not start after
    the row. *)
Definition meta_answers (e : event) : Prop :=
  match ev_ans e with
  | AnsScan (ScanRow cells) => Forall (fun c => forall i, describes unmarshal_RegionInfo c i ->
      fullyQualifiedTable i = table -> r_startKey i <=b key) cells
  | _ => True
  end.

(** The region serves the row; its client is [o]. *)
Definition routed (p : ptr) (w : world) : Prop :=
  exists i, h_infos (w_heap w) !! p = Some i /\ fullyQualifiedTable i = table /\ in_range i key.

Definition served (p : ptr) (o : option cptr) (w : world) : Prop :=
  exists i, h_infos (w_heap w) !! p = Some i /\ fullyQualifiedTable i = table /\ in_range i key /\ r_client i = o.

Lemma served_routed p o w : served p o w -> routed p w.
Proof. intros (i & ? & ? & ? & _). by exists i. Qed.

(** *** Triples *)

Definition finds {A : Type} (P : world -> Prop) (m : M A) (Q : A -> world -> Prop) : Prop :=
  forall evs w a evs' w', Forall event_ok evs -> Forall meta_answers evs -> world_ok w -> P w ->
  m evs w = Ok (a, evs', w') -> Q a w'.

(** Facts that no step of any goroutine undoes. *)
Definition kept (F : world -> Prop) : Prop := forall w w', heap_ext (w_heap w) (w_heap w') -> F w -> F w'.

Lemma routed_kept p : kept (routed p).
Proof.
  intros w w' He (i & Hi & Ht & Hr). destruct (heap_ext_lookup _ _ _ _ He Hi) as (i' & Hi' & Hs). exists i'.
  split; [done|]. rewrite (fq_static _ _ Hs). split; [done|]. unfold in_range in *. by injection Hs as _ _ _ _ -> ->.
Qed.

Lemma finds_ret {A : Type} (P : world -> Prop) (a : A) (Q : A -> world -> Prop) :
  (forall w, P w -> Q a w) -> finds P (mret a) Q.
Proof. intros H evs w a' evs' w' _ _ _ HP Hr. injection Hr as <- _ <-. auto. Qed.

Lemma finds_weaken {A : Type} (P P' : world -> Prop) (m : M A) (Q Q' : A -> world -> Prop) :
  finds P m Q -> (forall w, P' w -> P w) -> (forall a w, Q a w -> Q' a w) -> finds P' m Q'.
Proof. intros Hm HP HQ evs w a evs' w' He Hm' Hw Hp H. eapply HQ, Hm; eauto. Qed.

Lemma finds_bind {A B : Type} (P : world -> Prop) (m : M A) (f : A -> M B) c R S Q :
  safe P m R -> (forall n, uses n m c) -> finds P m S ->
  (forall a, finds (fun w => R a w /\ S a w) (f a) Q) -> finds P (m ≫= f) Q.
Proof.
  intros Hs Hu Hm Hf evs w b evs' w' Hev Hme Hw HP (a & evs1 & w1 & H1 & H2)%bind_Ok_inv.
  pose proof (uses_suffix _ _ _ _ _ _ _ (Hu _) H1) as [l ->]. pose proof (Hs _ w Hev Hw HP) as Hs1. rewrite H1 in Hs1.
  destruct Hs1 as (Hev1 & Hw1 & _ & HR). eapply Hf; [exact Hev1| |exact Hw1| |exact H2].
  - by apply Forall_app in Hme as [_ ?].
  - split; [done|]. exact (Hm _ _ _ _ _ Hev Hme Hw HP H1).
Qed.

(** A step that the fact outlives. *)
Lemma finds_step {A B : Type} (P F : world -> Prop) (m : M A) (f : A -> M B) c R Q :
  kept F -> safe P m R -> (forall n, uses n m c) ->
  (forall a, finds (fun w => R a w /\ F w) (f a) Q) -> finds (fun w => P w /\ F w) (m ≫= f) Q.
Proof.
  intros HF Hs Hu Hf. eapply (finds_bind _ m f c R (fun _ => F)); [|done| |done].
  - eapply safe_pre; [exact Hs|]. by intros w _ [? _].
  - intros evs w a evs' w' Hev _ Hw [HP Hw0] H. pose proof (Hs _ w Hev Hw HP) as Hs1. rewrite H in Hs1.
    destruct Hs1 as (_ & _ & [He _] & _). by eapply HF.
Qed.

(** *** The lookup *)

Hypothesis Htable : table <> metaTableName.
Hypothesis Hfits : table_fits table key.

Abbreviation lookup_once := (lookup_once RegionClientType None metaRegionInfo unmarshal_RegionInfo table key).
Abbreviation found r := (fun w => match r with inl (p, _) => routed p w | inr _ => True end).

Lemma metaRow_routed cells h reg addr h' :
  heap_ok h -> row_ok unmarshal_RegionInfo cells ->
  Forall (fun c => forall i, describes unmarshal_RegionInfo c i -> fullyQualifiedTable i = table -> r_startKey i <=b key) cells ->
  metaRow unmarshal_RegionInfo table key cells h = Ok (inl (reg, addr), h') ->
  exists i, h_infos h' !! reg = Some i /\ fullyQualifiedTable i = table /\ in_range i key.
Proof.
  intros Hok Hrow Hstart H. pose proof (metaRow_spec unmarshal_RegionInfo table key cells h Hok Hrow) as Hs. rewrite H in Hs.
  destruct Hs as (_ & _ & _ & i & Hi & _ & _ & _ & Ht & Hstop & c & Hin & Hd). exists i. split_and!; [done..|].
  split; [|done]. by apply (proj1 (Forall_forall _ _) Hstart c Hin).
Qed.

Lemma finds_lookup_once P : finds P lookup_once (fun r => found r).
Proof.
  unfold Rpc.lookup_once. rewrite !bool_decide_eq_false_2 by done. unfold metaLookup.
  destruct (metaScan_ok table key Hfits) as [s ->]. intros evs w r evs' w' Hev Hme Hw _. unfold await.
  destruct evs as [|e evs]; [done|]. apply Forall_cons in Hev as [He _]. apply Forall_cons in Hme as [Hme _].
  destruct (He w) as [Hr Ha]. unfold meta_answers in Hme.
  destruct (ev_ans e) as [| | |[cells| |e0]| | | |]; try done; try by intros [= <- _ _].
  pose proof (wo_heap _ (rely_ok _ _ _ _ _ Hr Hw)) as Hok.
  pose proof (fun reg addr h' => metaRow_routed cells (w_heap (ev_env e w)) reg addr h' Hok Ha Hme) as Hrow.
  destruct (metaRow _ _ _ _ _) as [[[[reg addr]|e0] h']|[]|]; [|by intros [= <- _ _]|done].
  intros [= <- _ <-]. by eapply Hrow.
Qed.

Lemma finds_lookup_loop fuel O K R ctx b :
  0 < b ->
  finds (holds O K R) (lookup_loop RegionClientType None metaRegionInfo unmarshal_RegionInfo fuel ctx table key b)
    (fun r => found r).
Proof.
  revert b. induction fuel as [|fuel IH]; intros b Hb; [by intros ???????|]. cbn [lookup_loop].
  eapply finds_bind; [by apply safe_lookup_once|intros; apply uses_lookup_once|apply finds_lookup_once|].
  intros [[reg addr]|e]; [apply finds_ret; by intros w [_ ?]|]. destruct (lookup_final e); [by apply finds_ret|].
  eapply finds_weaken with (P := holds O K R) (Q := fun r => found r); [|by intros w [[? _] _]|done].
  eapply finds_bind with (S := fun r _ => match r with inl b' => 0 < b' | inr _ => True end);
    [apply safe_sleep|intros; apply uses_sleep0| |].
  - intros evs w r evs' w' _ _ _ _. unfold sleepAndIncreaseBackoff. rewrite bool_decide_eq_false_2 by lia.
    unfold await. destruct evs as [|ev evs]; [done|]. pose proof (increase_positive b Hb).
    repeat case_match; intros ?; by simplify_eq.
  - intros [b'|e']; cbv beta; [|by apply finds_ret]. intros evs w r evs' w' Hev Hme Hw [[H _] Hb'] Hrun.
    by eapply (IH b' Hb').
Qed.

Lemma finds_lookupRegion O K R ctx :
  finds (holds O K R) (lookupRegion RegionClientType None metaRegionInfo unmarshal_RegionInfo ctx table key)
    (fun r => found r).
Proof. intros evs w. by apply finds_lookup_loop. Qed.

(** *** The region *)

Lemma finds_keep {A : Type} (P F : world -> Prop) (m : M A) R :
  kept F -> safe P m R -> finds (fun w => P w /\ F w) m (fun _ => F).
Proof.
  intros HF Hs evs w a evs' w' Hev _ Hw [HP Hw0] H. pose proof (Hs _ w Hev Hw HP) as Hs1. rewrite H in Hs1.
  destruct Hs1 as (_ & _ & [He _] & _). by eapply HF.
Qed.

Abbreviation shared o := (fun w => match o with Some p => routed p w | None => True end).

Lemma yields_share_region reg addr :
  yields (share_region None metaRegionInfo reg addr) (fun o => o = None \/ o = Some reg).
Proof.
  unfold share_region. eapply yields_bind; [apply yields_any|]. intros b _.
  assert (yields (_ ← spawn reg addr; mret (Some reg)) (fun o => o = None \/ o = Some reg)) as Hsp.
  { eapply yields_bind; [apply yields_any|]. intros ? _. apply yields_ret. by right. }
  destruct (_ && _); [|done]. eapply yields_bind; [apply yields_any|]. intros [os []] _; simpl.
  - by eapply yields_bind; [apply yields_any|].
  - eapply yields_bind; [apply yields_any|]. intros ? _. apply yields_ret. by left.
Qed.

Lemma finds_share O K R reg addr :
  finds (fun w => looked_up RegionClientType None metaRegionInfo O K R table reg w /\ routed reg w)
    (share_region None metaRegionInfo reg addr) (fun o => shared o).
Proof.
  intros evs w o evs' w' Hev Hme Hw HP H.
  pose proof (finds_keep _ _ _ _ (routed_kept reg) (safe_share_found RegionClientType None metaRegionInfo unmarshal_RegionInfo
    O K R table reg addr eq_refl Htable) evs w o evs' w' Hev Hme Hw HP H) as Hr.
  destruct (yields_share_region _ _ _ _ _ _ _ H) as [-> | ->]; done.
Qed.

Lemma finds_findRegion O K R ctx :
  finds (holds O K R) (findRegion RegionClientType None metaRegionInfo unmarshal_RegionInfo ctx table key)
    (fun r w => match r with inl o => shared o w | inr _ => True end).
Proof.
  eapply finds_bind; [by apply safe_lookupRegion|intros; apply uses_lookupRegion|apply finds_lookupRegion|].
  intros [[reg addr]|e]; [|by apply finds_ret]. intros evs w r evs' w' Hev Hme Hw HP (o & evs1 & w1 & H1 & H2)%bind_Ok_inv.
  injection H2 as <- _ <-. by eapply finds_share.
Qed.

Lemma finds_getRegionFromCache O K R :
  finds (holds O K R) (getRegionFromCache RegionClientType None metaRegionInfo table key) (fun o => shared o).
Proof.
  unfold getRegionFromCache. rewrite !bool_decide_eq_false_2 by done. intros evs w o evs' w' Hev _ Hw _.
  unfold atomic, await. destruct evs as [|e evs]; [done|]. apply Forall_cons in Hev as [He _]. destruct (He w) as [Hr _].
  destruct (ev_ans e); try done. destruct Hfits as [Hc Hlen]. pose proof (rely_ok _ _ _ _ _ Hr Hw) as Hw1.
  rewrite (wo_made _ Hw1) by done.
  destruct (@cachedRegion_spec _ _ Empty_set (w_heap (ev_env e w)) (w_regions (ev_env e w)) table key (wo_items _ Hw1) Hc Hlen)
    as (o' & -> & Ho). cbn [obind no_err]. intros [= <- _ <-]. destruct o' as [p|]; [|done].
  destruct (proj1 (Ho p) eq_refl) as (kv & _ & <- & i & ? & ? & ?). by exists i.
Qed.

Lemma finds_find_tries n O K R ctx :
  finds (holds O K R) (find_tries RegionClientType None metaRegionInfo unmarshal_RegionInfo n ctx table key)
    (fun r w => match r with inl p => routed p w | inr _ => True end).
Proof.
  induction n as [|n IH]; [by apply finds_ret|]. cbn [find_tries].
  eapply finds_bind; [by apply safe_getRegionFromCache|intros; apply uses_getRegionFromCache|apply finds_getRegionFromCache|].
  intros [p|]; cbv beta iota; [apply finds_ret; by intros w [_ ?]|].
  eapply finds_weaken with (P := holds O K R) (Q := fun r w => match r with inl p => routed p w | inr _ => True end);
    [|by intros w [[? _] _]|done].
  eapply finds_bind; [by apply safe_findRegion|intros; apply uses_findRegion|apply finds_findRegion|].
  intros [[p|]|e]; cbv beta iota; [apply finds_ret; by intros w [_ ?]| |by apply finds_ret].
  eapply finds_weaken; [apply IH|by intros w [? _]|done].
Qed.

(** *** The region and its connection *)

Lemma finds_client O K R p :
  p ∈ K -> finds (fun w => holds O K R w /\ routed p w) (read_heap (Client p)) (served p).
Proof.
  intros _ evs w o evs' w' Hev _ Hw [_ Hp]. unfold read_heap, atomic, await. destruct evs as [|e evs]; [done|].
  apply Forall_cons in Hev as [He _]. destruct (He w) as [Hr _]. destruct (ev_ans e); try done.
  apply (routed_kept p _ _ (rely_ext _ _ _ _ _ Hr)) in Hp as (i & Hi & Ht & Hin). unfold Client.
  rewrite (deref_lookup _ _ _ Hi). cbn [obind no_err]. intros [= <- _ <-]. by exists i.
Qed.

Definition chosen (r : option (ptr * cptr) + cerr) (w : world) : Prop :=
  match r with inl (Some (p, c)) => served p (Some c) w | _ => True end.

Lemma finds_region_and_client_once O K R ctx :
  finds (holds O K R) (region_and_client_once RegionClientType None metaRegionInfo unmarshal_RegionInfo ctx table key) chosen.
Proof.
  eapply finds_bind; [by apply safe_find_tries|intros; apply uses_find_tries|apply finds_find_tries|].
  intros [reg|e]; cbv beta iota; [|by apply finds_ret].
  assert (reg ∈ reg :: K) as Hreg by by left. set (H := holds O (reg :: K) R) in *. pose proof (routed_kept reg) as Hk.
  eapply finds_step; [done|by apply (safe_read_field O (reg :: K) R reg r_available)|intros; apply uses_read|]. intros ch.
  eapply finds_step; [done|apply safe_wait_if|intros; apply uses_wait_if|]. intros [e|]; [by apply finds_ret|].
  eapply finds_weaken with (P := fun w => H w /\ routed reg w) (Q := chosen); [|by intros w [[? _] ?]|done].
  eapply finds_bind; [|intros; apply uses_read|by apply (finds_client O (reg :: K) R)|].
  { eapply safe_pre; [by apply (safe_read_field O (reg :: K) R reg r_client)|by intros w _ [? _]]. }
  intros [c|]; [apply finds_ret; by intros w [_ ?]|].
  eapply finds_weaken with (P := fun w => H w /\ routed reg w) (Q := chosen); [|intros w [? ?%served_routed]; done|done].
  eapply finds_step; [done|by apply (safe_mark_and_reestablish _ _ _ _ O (reg :: K) R reg)|intros; apply uses_mark_and_reestablish|].
  intros first. cbv beta. eapply finds_step; [done|by apply (safe_read_field O (reg :: K) R reg r_available)|intros; apply uses_read|].
  intros ch'. eapply finds_step; [done|apply safe_wait_if|intros; apply uses_wait_if|]. intros [e|]; [by apply finds_ret|].
  eapply finds_weaken with (P := fun w => H w /\ routed reg w) (Q := chosen); [|by intros w [[? _] ?]|done].
  eapply finds_step; [done|by apply (safe_read_field O (reg :: K) R reg r_dead)|intros; apply uses_read|].
  intros []; [by apply finds_ret|]. eapply finds_bind; [|intros; apply uses_read|by apply (finds_client O (reg :: K) R)|].
  { eapply safe_pre; [by apply (safe_read_field O (reg :: K) R reg r_client)|by intros w _ [? _]]. }
  intros [c|]; apply finds_ret; [by intros w [_ ?]|done].
Qed.

Lemma finds_region_and_client_loop fuel O K R ctx :
  finds (holds O K R) (region_and_client_loop RegionClientType None metaRegionInfo unmarshal_RegionInfo fuel ctx table key)
    (fun r w => match r with inl (p, c) => served p (Some c) w | inr _ => True end).
Proof.
  induction fuel as [|fuel IH]; [by intros ???????|]. cbn [region_and_client_loop].
  eapply finds_bind; [by apply safe_region_and_client_once|intros; apply uses_region_and_client_once|
    apply finds_region_and_client_once|].
  intros [[[p c]|]|e]; cbv beta iota; [apply finds_ret; by intros w [_ ?]| |by apply finds_ret].
  eapply finds_weaken; [apply IH|by intros w [? _]|done].
Qed.

(** C6. The region and the connection that a call of a user's table is given, on
    every schedule of the other goroutines and for every answer of the meta table
    as HBase answers: the region is one of the call's table, the call's row is in
    its range, and at that moment the connection is the region's, whether it was
    cached or looked up, established before or waited for.  Otherwise the call
    fails with the error of its context, of a table that does not exist, of a
    client that is closed, or because no try found a region.  It does not panic,
    and stops only where it waits. *)
Theorem calls_go_to_their_region ctx evs w :
  Forall event_ok evs -> Forall meta_answers evs -> world_ok w -> w_owned w = ∅ ->
  match getRegionAndClientForRPC RegionClientType None metaRegionInfo unmarshal_RegionInfo ctx table key evs w with
  | Ok (inl (p, c), _, w') => world_ok w' /\ exists i, h_infos (w_heap w') !! p = Some i /\
      fullyQualifiedTable i = table /\ in_range i key /\ r_client i = Some c
  | Ok (inr e, _, w') => world_ok w' /\ lookup_error e /\ (e = ErrClientClosed -> w_done w' = true)
  | Err (Waiting w') => world_ok w'
  | Err e => e = Blocked
  | Panic => False
  end.
Proof.
  intros Hev Hme Hw Ho. set (fuel := S (length evs)).
  assert (holds ∅ [] [] w) as Hh by by split.
  pose proof (safe_region_and_client_loop RegionClientType None metaRegionInfo unmarshal_RegionInfo fuel ∅ [] [] ctx table key
    (fun _ _ => Hfits) evs w Hev Hw Hh) as Hs.
  pose proof (uses_region_and_client_loop RegionClientType None metaRegionInfo unmarshal_RegionInfo fuel ctx table key
    evs w ltac:(unfold fuel; lia)) as Hu.
  pose proof (finds_region_and_client_loop fuel ∅ [] [] ctx evs w) as Hf.
  pose proof (yields_region_and_client_loop RegionClientType None metaRegionInfo unmarshal_RegionInfo fuel ctx table key evs w) as Hy.
  unfold getRegionAndClientForRPC. fold fuel.
  destruct (region_and_client_loop _ _ _ _ fuel _ _ _ evs w) as [[[[[p c]|e] evs'] w']|[]|]; try done.
  - destruct Hs as (_ & Hw' & _). split; [done|]. exact (Hf _ _ _ Hev Hme Hw Hh eq_refl).
  - destruct Hs as (_ & Hw' & _ & _ & Hc). split_and!; [done|exact (Hy _ _ _ eq_refl)|intros ->; by apply Hc].
Qed.

End Routing.

(** ** A cached region *)

Lemma calls_go_to_their_region_witness :
  exists evs w', getRegionAndClientForRPC RegionClientType None (Some 0%nat) (fun _ => None) CtxRpc (bs "t") (bs "row")
      [quiet AnsGo; quiet AnsGo; quiet AnsGo] sample_world = Ok (inl (1%nat, 7%nat), evs, w') /\
    exists i, h_infos (w_heap w') !! 1%nat = Some i /\ fullyQualifiedTable i = bs "t" /\ in_range i (bs "row").
Proof.
  pose proof (@calls_go_to_their_region list_tree list_tree_spec (Some 0%nat) (fun _ => None) (bs "t") (bs "row")
    ltac:(vm_compute; discriminate) ltac:(split; [decide_tac|vm_compute; discriminate]) CtxRpc
    [quiet AnsGo; quiet AnsGo; quiet AnsGo] sample_world) as H.
  assert (getRegionAndClientForRPC RegionClientType None (Some 0%nat) (fun _ => None) CtxRpc (bs "t") (bs "row")
    [quiet AnsGo; quiet AnsGo; quiet AnsGo] sample_world = Ok (inl (1%nat, 7%nat), [], sample_world)) as Hrun
    by (vm_compute; reflexivity).
  exists [], sample_world. split; [exact Hrun|]. rewrite Hrun in H.
  destruct H as [_ (i & Hi & Ht & Hin & _)].
  - repeat (constructor; [by apply quiet_ok|]). constructor.
  - repeat (constructor; [exact I|]). constructor.
  - apply sample_world_ok.
  - reflexivity.
  - exists i. split_and!; assumption.
Defined.
