(* ===== verification/Batch.v ===== *)
(** * Batches across region servers: rpc.go [SendBatch]

    [SendBatch] with what it calls: the checks of the batch, the search for the
    region client of every call, the groups that are queued, and the wait for
    the results.  Calls are objects, here [cid]; what they are asked for is
    [call_of].  The result channel of a call is read by the events
    [AnsResultOf].  [QueueBatch] belongs to the region client: the model
    returns, beside the results, what was queued. *)

From S2P Require Import Prelude RegionName Pb RegionInfo RegionTree KeyRegionCache Hrpc RpcError Multi ClientRegionCache World Rpc.

Abbreviation cid := nat (only parsing).

Record bcall := mkBCall {
  b_table : bytes;
  b_key : bytes;
  b_batchable : bool;                    (* is Batchable and not SkipBatch *)
}.

(** The errors of the slice of results. *)
Inductive berr :=
| DuplicateCall (j : nat)
| NotExecutedError
| MultipleTables (table table' : bytes)
| NonBatchable
| BErr (e : cerr).

Record bresult := mkBResult { br_Msg : option Message; br_Error : option berr }.

Definition with_error (e : berr) (r : bresult) : bresult := mkBResult (br_Msg r) (Some e).
Definition of_result (r : RPCResult) : bresult := mkBResult (Res_Msg r) (BErr ∘ CallErr <$> Res_Error r).

(** The checks of the loop over the batch; the first occurrence of a call has
    its index in the map. *)
Section Check.
Variable call_of : cid -> bcall.
Variable table : bytes.

Definition call_error (c : cid) : option berr :=
  if negb (bytes_eqb (b_table (call_of c)) table) then Some (MultipleTables table (b_table (call_of c)))
  else if negb (b_batchable (call_of c)) then Some NonBatchable
  else None.

Fixpoint check_loop (i : nat) (batch : list cid) (rpcToRes : gmap cid nat) : list bresult * gmap cid nat * bool :=
  match batch with
  | [] => ([], rpcToRes, true)
  | c :: batch =>
      match rpcToRes !! c with
      | Some j =>
          let '(res, rpcToRes, _) := check_loop (S i) batch rpcToRes in
          (mkBResult None (Some (DuplicateCall j)) :: res, rpcToRes, false)
      | None =>
          let '(res, rpcToRes, allOK) := check_loop (S i) batch (<[c := i]> rpcToRes) in
          match call_error c with
          | Some e => (mkBResult None (Some e) :: res, rpcToRes, false)
          | None => (mkBResult None (Some NotExecutedError) :: res, rpcToRes, allOK)
          end
      end
  end.

End Check.

(** ** Finding the clients *)

(** Calls with their region client, and the region of each call ([SetRegion]). *)
Record groups := mkGroups { g_rpcs : gmap cptr (list cid); g_region : gmap cid ptr }.

Definition no_groups : groups := mkGroups ∅ ∅.

Definition add_call (c : cid) (reg : ptr) (rc : cptr) (g : groups) : groups :=
  mkGroups (<[rc := default [] (g_rpcs g !! rc) ++ [c]]> (g_rpcs g)) (<[c := reg]> (g_region g)).

Section Batch.
Context {T : RegionTree ptr} {HO : RangeOrder}.
Variable clientType : ClientType.
Variable adminRegionInfo metaRegionInfo : option ptr.
Variable unmarshal_RegionInfo : bytes -> option RegionInfo.
Variable call_of : cid -> bcall.

Fixpoint findClients (i : nat) (batch : list cid) (res : list bresult) (g : groups) (ok : bool)
    : M (list bresult * groups * bool) :=
  match batch with
  | [] => mret (res, g, ok)
  | c :: batch =>
      r ← getRegionAndClientForRPC clientType adminRegionInfo metaRegionInfo unmarshal_RegionInfo CtxRpc
            (b_table (call_of c)) (b_key (call_of c));
      match r with
      | inr e => findClients (S i) batch (alter (with_error (BErr e)) i res) g false
      | inl (reg, rc) => findClients (S i) batch res (add_call c reg rc g) ok
      end
  end.

(** ** Waiting for the results *)

Section Wait.
Variable rc : cptr.
Variable rpcToRes : gmap cid nat.
Variable region_of : gmap cid ptr.

Definition res_index (c : cid) : nat := default 0%nat (rpcToRes !! c).

(** [select] on the result channel of the call and the context. *)
Definition await_call (c : cid) : M (option RPCResult) :=
  await (fun a w =>
    match a with
    | AnsResultOf c' r => if bool_decide (c' = c) then Ok (r, w) else Err Blocked
    | _ => Err Blocked
    end).

(** [handleResultError(res.Error, rpc.Region(), rc)]; a call without a region would crash it. *)
Definition handle_call (c : cid) (res : RPCResult) : M unit :=
  match Res_Error res with
  | None => mret tt
  | Some e =>
      match region_of !! c with
      | Some reg => handleResultError adminRegionInfo e reg rc
      | None => fatal
      end
  end.

(** The second loop: what is there is taken, the rest gets the error of the context. *)
Fixpoint wait_canceled (rpcs : list cid) (results : list bresult) : M (list bresult) :=
  match rpcs with
  | [] => mret results
  | c :: rpcs =>
      r ← await_call c;
      match r with
      | Some res =>
          _ ← handle_call c res;
          wait_canceled rpcs (<[res_index c := of_result res]> results)
      | None => wait_canceled rpcs (alter (with_error (BErr CtxErr)) (res_index c) results)
      end
  end.

Fixpoint wait_loop (rpcs : list cid) (results : list bresult) (ok : bool) : M (list bresult * bool) :=
  match rpcs with
  | [] => mret (results, ok)
  | c :: rest =>
      r ← await_call c;
      match r with
      | Some res =>
          _ ← handle_call c res;
          wait_loop rest (<[res_index c := of_result res]> results)
            (match Res_Error res with Some _ => false | None => ok end)
      | None =>
          results ← wait_canceled rpcs results;
          mret (results, false)
      end
  end.

Definition waitForCompletion (rpcs : list cid) (results : list bresult) : M (list bresult * bool) :=
  wait_loop rpcs results true.

End Wait.

(** The wait for the groups in the order they were queued. *)
Fixpoint wait_groups (cAndRs : list (cptr * list cid)) (rpcToRes : gmap cid nat) (region_of : gmap cid ptr)
    (res : list bresult) (allOK : bool) : M (list bresult * bool) :=
  match cAndRs with
  | [] => mret (res, allOK)
  | (rc, rpcs) :: cAndRs =>
      r ← waitForCompletion rc rpcToRes region_of rpcs res;
      wait_groups cAndRs rpcToRes region_of (fst r) (if (snd r : bool) then allOK else false)
  end.

(** The results, [allOK], and the groups in the order of [QueueBatch]. *)
Definition SendBatch (batch : list cid) : M (list bresult * bool * list (cptr * list cid)) :=
  match batch with
  | [] => mret ([], true, [])
  | c :: _ =>
      let '(res, rpcToRes, allOK) := check_loop call_of (b_table (call_of c)) 0 batch ∅ in
      if negb allOK then mret (res, false, [])
      else
        x ← findClients 0 batch res no_groups true;
        let '(res, g, ok) := x in
        if negb ok then mret (res, false, [])
        else
          let cAndRs := range [] (g_rpcs g) in
          r ← wait_groups cAndRs rpcToRes (g_region g) res true;
          mret (r, cAndRs)
  end.

End Batch.
