(* ===== verification/BatchProps.v ===== *)
(** * What SendBatch guarantees

    The checks of the batch, the groups that are queued, and how results get to
    their slots: whatever the schedule, a call's slot holds what was read from
    the call's own channel. *)

From S2P Require Import Prelude RegionName Pb RegionInfo RegionTree KeyRegionCache Hrpc RpcError Multi ClientRegionCache World Rpc Establish Fuel Safety Batch.

(** ** The checks *)

Section Checks.
Variable call_of : cid -> bcall.
Variable table : bytes.

(** The error of the call at [i]: it occurs before, or is not acceptable. *)
Definition check_error (batch : list cid) (i : nat) (c : cid) (e : berr) : Prop :=
  (exists j, (j < i)%nat /\ batch !! j = Some c /\ (c ∉ take j batch) /\ e = DuplicateCall j) \/
  ((c ∉ take i batch) /\ e = default NotExecutedError (call_error call_of table c)).

Definition indexes (m : gmap cid nat) (l : list cid) : Prop :=
  forall c j, m !! c = Some j <-> l !! j = Some c /\ c ∉ take j l.

Lemma indexes_None m l c : indexes m l -> m !! c = None -> c ∉ l.
Proof.
  intros Hm Hc Hin. destruct (list_find_elem_of (eq c) l c Hin eq_refl) as [[j x] Hj].
  apply list_find_Some in Hj as (Hj & <- & Hbefore).
  enough (m !! c = Some j) by congruence. apply Hm. split; [done|]. intros [k Hk]%list_elem_of_lookup.
  apply lookup_take_Some in Hk as [Hk Hlt]. by apply (Hbefore k c).
Qed.

Lemma indexes_snoc m l c : indexes m l -> c ∉ l -> indexes (<[c := length l]> m) (l ++ [c]).
Proof.
  intros Hm Hc d j. split.
  - intros [[<- <-]|[Hne [Hj Hd]%Hm]]%lookup_insert_Some.
    + rewrite list_lookup_middle by done. split; [done|]. by rewrite take_app_length.
    + pose proof (lookup_lt_Some _ _ _ Hj). rewrite lookup_app_l, take_app_le by lia. done.
  - intros [Hj Hd]. apply lookup_snoc_Some in Hj as [[Hlt Hj]|[-> ->]].
    + rewrite take_app_le in Hd by lia. rewrite lookup_insert_ne; [by apply Hm|]. intros <-. apply Hc. by eapply list_elem_of_lookup_2.
    + by rewrite lookup_insert_eq.
Qed.

Lemma indexes_dup m l c : indexes m l -> c ∈ l -> indexes m (l ++ [c]).
Proof.
  intros Hm Hc d j. rewrite (Hm d j). split; intros [Hj Hd].
  - pose proof (lookup_lt_Some _ _ _ Hj). rewrite lookup_app_l, take_app_le by lia. done.
  - apply lookup_snoc_Some in Hj as [[Hlt Hj]|[-> ->]].
    + rewrite take_app_le in Hd by lia. done.
    + by rewrite take_app_length in Hd.
Qed.

(** What the checks of a batch whose first calls were [l] give. *)
Lemma check_loop_spec batch l m i res m' ok :
  check_loop call_of table i batch m = (res, m', ok) -> indexes m l -> i = length l ->
  indexes m' (l ++ batch) /\ length res = length batch /\
  (ok = true -> NoDup l -> NoDup (l ++ batch) /\ Forall (fun c => call_error call_of table c = None) batch) /\
  (forall k c, batch !! k = Some c -> exists e, res !! k = Some (mkBResult None (Some e)) /\ check_error (l ++ batch) (i + k) c e) /\
  (ok = false -> exists k e, res !! k = Some (mkBResult None (Some e)) /\ e <> NotExecutedError).
Proof.
  revert l m i res m' ok. induction batch as [|c batch IH]; intros l m i res m' ok H Hm ->; simpl in H.
  { simplify_eq. rewrite app_nil_r. done. }
  assert (forall ok' r1, check_loop call_of table (S (length l)) batch (match m !! c with Some _ => m | None => <[c := length l]> m end)
    = (r1, m', ok') -> indexes m' (l ++ c :: batch) /\ length r1 = length batch /\
    (ok' = true -> NoDup (l ++ [c]) -> NoDup (l ++ c :: batch) /\ Forall (fun c => call_error call_of table c = None) batch) /\
    (forall k d, batch !! k = Some d -> exists e, r1 !! k = Some (mkBResult None (Some e)) /\
       check_error (l ++ c :: batch) (length l + S k) d e) /\
    (ok' = false -> exists k e, r1 !! k = Some (mkBResult None (Some e)) /\ e <> NotExecutedError)) as Hrest.
  { intros ok' r1 Hr. destruct (IH (l ++ [c]) _ _ _ _ _ Hr) as (? & ? & ? & Hk & ?).
    - destruct (m !! c) as [j|] eqn:Hc; [|by apply indexes_snoc; [|by eapply indexes_None]].
      apply indexes_dup; [done|]. apply Hm in Hc as [Hc _]. by eapply list_elem_of_lookup_2.
    - rewrite length_app. simpl. lia.
    - rewrite <- app_assoc in *. split_and!; try done. intros k d Hd. destruct (Hk k d Hd) as (e & ? & He).
      exists e. split; [done|]. by replace (length l + S k)%nat with (S (length l) + k)%nat by lia. }
  assert (take (length l) (l ++ c :: batch) = l) as Htake by apply take_app_length.
  destruct (m !! c) as [j|] eqn:Hc.
  - destruct (check_loop _ _ _ _ _) as [[r1 m1] ok1]. simplify_eq.
    destruct (Hrest ok1 r1 eq_refl) as (? & ? & _ & Hk & _). split_and!; [done|simpl; lia|done| |].
    + intros [|k] d Hd; [|by apply Hk]. simpl in Hd. simplify_eq. eexists. split; [done|]. left. exists j.
      rewrite Nat.add_0_r. apply Hm in Hc as [Hj Hb]. pose proof (lookup_lt_Some _ _ _ Hj).
      rewrite lookup_app_l, take_app_le by lia. done.
    + intros _. by exists 0%nat, (DuplicateCall j).
  - pose proof (indexes_None _ _ _ Hm Hc) as Hnew. destruct (check_loop _ _ _ _ _) as [[r1 m1] ok1].
    assert (m1 = m') as -> by (by destruct (call_error call_of table c); simplify_eq).
    destruct (Hrest ok1 r1 eq_refl) as (? & ? & Hok & Hk & Hno).
    assert (forall e, e = default NotExecutedError (call_error call_of table c) -> check_error (l ++ c :: batch) (length l + 0) c e) as Hhere.
    { intros e ->. right. rewrite Nat.add_0_r, Htake. done. }
    destruct (call_error call_of table c) as [e|] eqn:He; simplify_eq; (split_and!; [done|simpl; lia| | |]).
    + done.
    + intros [|k] d Hd; [|by apply Hk]. simpl in Hd. simplify_eq. eexists. split; [done|]. by apply Hhere.
    + intros _. exists 0%nat, e. split; [done|]. unfold call_error in He. by repeat case_match; simplify_eq.
    + intros -> Hl. destruct Hok as [? ?]; [done| |by split; [|constructor]].
      apply NoDup_app. split_and!; [done| |apply NoDup_singleton]. by intros d Hd ->%list_elem_of_singleton.
    + intros [|k] d Hd; [|by apply Hk]. simpl in Hd. simplify_eq. eexists. split; [done|]. by apply Hhere.
    + intros ->. destruct Hno as (k & e & ? & ?); [done|]. by exists (S k), e.
Qed.

End Checks.

(** ** The groups *)

(** The calls of [l], each once, in groups that keep their order. *)
Record grouped (g : groups) (l : list cid) : Prop := {
  gr_perm : concat (map_to_list (g_rpcs g)).*2 ≡ₚ l;
  gr_order rc rpcs : g_rpcs g !! rc = Some rpcs -> rpcs `sublist_of` l;
  gr_region c : c ∈ l -> is_Some (g_region g !! c);
}.

Lemma no_groups_grouped : grouped no_groups [].
Proof.
  split; simpl.
  - by rewrite map_to_list_empty.
  - intros rc rpcs H. by rewrite lookup_empty in H.
  - intros c H. by apply elem_of_nil in H.
Qed.

Lemma concat_snoc_at (m : gmap cptr (list cid)) rc c :
  concat (map_to_list (<[rc := default [] (m !! rc) ++ [c]]> m)).*2 ≡ₚ concat (map_to_list m).*2 ++ [c].
Proof.
  destruct (m !! rc) as [rpcs|] eqn:Hrc; simpl.
  - rewrite <- insert_delete_eq, map_to_list_insert by apply lookup_delete_eq.
    rewrite <- (insert_id m rc rpcs Hrc) at 2. rewrite <- insert_delete_eq, map_to_list_insert by apply lookup_delete_eq.
    simpl. rewrite <- !app_assoc. f_equiv. apply Permutation_app_comm.
  - rewrite map_to_list_insert by done. simpl. apply Permutation_cons_append.
Qed.

Lemma add_call_grouped g l c reg rc : grouped g l -> grouped (add_call c reg rc g) (l ++ [c]).
Proof.
  intros [Hp Ho Hr]. split; simpl.
  - by rewrite concat_snoc_at, Hp.
  - intros rc' rpcs [[<- <-]|[_ H]]%lookup_insert_Some; [|by apply sublist_inserts_r, (Ho rc')].
    apply sublist_app; [|done]. destruct (g_rpcs g !! rc) as [rpcs|] eqn:E; simpl; [by apply (Ho rc)|apply sublist_nil_l].
  - intros d. destruct (decide (d = c)) as [->|Hne]; [rewrite lookup_insert_eq; eauto|].
    rewrite lookup_insert_ne by done. rewrite elem_of_app, list_elem_of_singleton. intros [?| ->]; [auto|done].
Qed.

(** The slot of a call that is not queued: its own error, or none was found for it. *)
Definition unqueued (r : bresult) : Prop :=
  exists e, r = mkBResult None (Some e) /\ (e = NotExecutedError \/ exists e', e = BErr e').

Definition lookup_failed_in (res : list bresult) : Prop := exists r e, r ∈ res /\ br_Error r = Some (BErr e).

Lemma alter_error_unqueued e i res :
  Forall unqueued res -> (i < length res)%nat ->
  Forall unqueued (alter (with_error (BErr e)) i res) /\
  lookup_failed_in (alter (with_error (BErr e)) i res).
Proof.
  intros Hres Hi. destruct (lookup_lt_is_Some_2 res i Hi) as [r Hr]. split.
  - apply Forall_lookup. intros j s Hs. destruct (decide (i = j)) as [<-|Hne].
    + rewrite list_lookup_alter_eq, Hr in Hs. injection Hs as <-. destruct (Forall_lookup_1 _ _ _ _ Hres Hr) as (e0 & -> & _).
      exists (BErr e). eauto.
    + rewrite list_lookup_alter_ne in Hs by done. by eapply Forall_lookup_1.
  - exists (with_error (BErr e) r), e. split; [|done].
    apply list_elem_of_lookup. exists i. by rewrite list_lookup_alter_eq, Hr.
Qed.

Section Find.
Context {T : RegionTree ptr} {HO : RangeOrder}.
Variable clientType : ClientType.
Variable adminRegionInfo metaRegionInfo : option ptr.
Variable unmarshal_RegionInfo : bytes -> option RegionInfo.
Variable call_of : cid -> bcall.

Abbreviation findClients := (findClients clientType adminRegionInfo metaRegionInfo unmarshal_RegionInfo call_of).

Lemma findClients_spec batch : forall i res g ok l evs w res' g' ok' evs' w',
  findClients i batch res g ok evs w = Ok ((res', g', ok'), evs', w') ->
  grouped g l -> Forall unqueued res -> (i + length batch <= length res)%nat ->
  (ok = false -> lookup_failed_in res) ->
  evs' `suffix_of` evs /\ length res' = length res /\
  if ok' then ok = true /\ res' = res /\ grouped g' (l ++ batch)
  else Forall unqueued res' /\ lookup_failed_in res'.
Proof.
  induction batch as [|c batch IH]; intros i res g ok l evs w res' g' ok' evs' w' H Hg Hres Hlen Hok; cbn [Batch.findClients] in H.
  { injection H as -> -> -> -> ->. split_and!; [done..|]. rewrite app_nil_r. destruct ok'; auto. }
  apply bind_Ok_inv in H as (r & evs1 & w1 & Hget & H). apply uses_suffix with (c := fun _ => 0%nat) in Hget; [|auto with uses].
  simpl in Hlen. destruct r as [[reg rc]|e].
  - apply (IH _ _ _ _ (l ++ [c])) in H as (Hs & Hl & H); [|by apply add_call_grouped|done|lia|done].
    split_and!; [by etrans|done|]. by rewrite <- app_assoc in H.
  - assert (i < length res)%nat as Hi by lia. destruct (alter_error_unqueued e i res Hres Hi) as [Hu He].
    assert (ok' = false) as ->.
    { destruct ok'; [|done]. apply (IH _ _ _ _ l) in H as (_ & _ & ? & _); [done|done|done|rewrite length_alter; lia|done]. }
    apply (IH _ _ _ _ l) in H as (Hs & Hl & H); [|done|done|rewrite length_alter; lia|done].
    rewrite length_alter in Hl. split_and!; [by etrans|done|apply H..].
Qed.

End Find.

(** ** The results *)

(** What was read from the channel of a call; [None]: the context was done. *)
Abbreviation reading := (cid * option RPCResult)%type.

Definition read_from {T : RegionTree ptr} (evs : list event) (x : reading) : Prop :=
  exists e, e ∈ evs /\ ev_ans e = AnsResultOf x.1 x.2.

Definition canceled {T : RegionTree ptr} (evs : list event) : Prop := exists c, read_from evs (c, None).

Definition failed (x : reading) : Prop := exists a, x.2 = Some a /\ Res_Error a <> None.
Definition succeeded (x : reading) : Prop := exists a, x.2 = Some a /\ Res_Error a = None.

Definition record_one (m : gmap cid nat) (x : reading) (results : list bresult) : list bresult :=
  match x.2 with
  | Some a => <[res_index m x.1 := of_result a]> results
  | None => alter (with_error (BErr CtxErr)) (res_index m x.1) results
  end.

Fixpoint record_all (m : gmap cid nat) (l : list reading) (results : list bresult) : list bresult :=
  match l with
  | [] => results
  | x :: l => record_all m l (record_one m x results)
  end.

Lemma record_all_app m l l' results : record_all m (l ++ l') results = record_all m l' (record_all m l results).
Proof. revert results. induction l; intros; simpl; auto. Qed.

Lemma length_record_one m x results : length (record_one m x results) = length results.
Proof. unfold record_one. destruct x.2; [apply length_insert|apply length_alter]. Qed.

Lemma length_record_all m l results : length (record_all m l results) = length results.
Proof. revert results. induction l; intros; simpl; [done|]. by rewrite IHl, length_record_one. Qed.

(** Slots of other calls are not touched. *)
Lemma record_one_ne m x results i : res_index m x.1 <> i -> record_one m x results !! i = results !! i.
Proof.
  intros Hi. unfold record_one. destruct x.2; [by rewrite list_lookup_insert_ne|by rewrite list_lookup_alter_ne].
Qed.

Lemma record_all_ne m l results i :
  Forall (fun x : reading => res_index m x.1 <> i) l -> record_all m l results !! i = results !! i.
Proof.
  intros Hl. revert results. induction Hl as [|x l Hx Hl IH]; intros; simpl; [done|]. by rewrite IH, record_one_ne.
Qed.

Definition slot (x : reading) : bresult :=
  match x.2 with Some a => of_result a | None => mkBResult None (Some (BErr CtxErr)) end.

Lemma record_all_slot m (l : list reading) results x :
  NoDup l.*1 -> (forall c d, c ∈ l.*1 -> d ∈ l.*1 -> res_index m c = res_index m d -> c = d) ->
  x ∈ l -> (exists r, results !! res_index m x.1 = Some r /\ br_Msg r = None) ->
  record_all m l results !! res_index m x.1 = Some (slot x).
Proof.
  revert results. induction l as [|y l IH]; intros results Hnd Hinj Hx (r & Hr & Hm); [by apply elem_of_nil in Hx|].
  rewrite fmap_cons in Hnd. apply NoDup_cons in Hnd as [Hy Hnd]. simpl.
  assert (forall z, z ∈ l -> res_index m z.1 <> res_index m y.1) as Hz.
  { intros z Hz Heq. apply Hy. apply Hinj in Heq as <-; [by apply list_elem_of_fmap_2| |by left].
    right. by apply list_elem_of_fmap_2. }
  apply elem_of_cons in Hx as [<-|Hx].
  - rewrite record_all_ne by (by apply Forall_forall). unfold record_one, slot. destruct x.2 as [a|].
    + apply list_lookup_insert_eq. by eapply lookup_lt_Some.
    + rewrite list_lookup_alter_eq, Hr. simpl. unfold with_error. by rewrite Hm.
  - apply IH; [done| |done|].
    + intros c d Hc Hd. apply Hinj; by right.
    + exists r. rewrite record_one_ne; [done|]. intros Heq. by apply (Hz x Hx).
Qed.

Section Waits.
Context {T : RegionTree ptr} {HO : RangeOrder}.
Variable adminRegionInfo : option ptr.
Variable rpcToRes : gmap cid nat.
Variable region_of : gmap cid ptr.

Lemma uses_await_call n c : uses n (await_call c) (fun _ => 1%nat).
Proof. apply uses_await; [|done]. intros a w. repeat case_match; done. Qed.

Lemma uses_handle_call n rc c a : uses n (handle_call adminRegionInfo rc region_of c a) (fun _ => 0%nat).
Proof.
  unfold handle_call. destruct (Res_Error a); [|by apply uses_ret]. destruct (region_of !! c); [|done]. auto with uses.
Qed.

#[local] Hint Resolve uses_await_call uses_handle_call : uses.

Lemma await_call_inv c evs w r evs' w' :
  await_call c evs w = Ok (r, evs', w') -> read_from evs (c, r) /\ evs' `suffix_of` evs.
Proof.
  unfold await_call, await. destruct evs as [|e evs]; [done|]. destruct (ev_ans e) eqn:He; try done.
  case_bool_decide; [|done]. intros [= -> -> _]. subst. split; [|by apply suffix_cons_r]. exists e. split; [by left|done].
Qed.

Lemma read_from_suffix evs evs' x : evs' `suffix_of` evs -> read_from evs' x -> read_from evs x.
Proof.
  intros Hs (e & He & Hx). exists e. split; [|done]. destruct Hs as [l ->]. apply elem_of_app. by right.
Qed.

Lemma canceled_suffix evs evs' : evs' `suffix_of` evs -> canceled evs' -> canceled evs.
Proof. intros Hs [c Hc]. exists c. by eapply read_from_suffix. Qed.

(** The slots are filled from the channels of the calls. *)
Definition waited (evs : list event) (rpcs : list cid) (results results' : list bresult) (l : list reading) : Prop :=
  l.*1 = rpcs /\ results' = record_all rpcToRes l results /\ Forall (read_from evs) l.

Lemma waited_cons evs evs' x rpcs results results' l :
  read_from evs x -> evs' `suffix_of` evs -> waited evs' rpcs (record_one rpcToRes x results) results' l ->
  waited evs (x.1 :: rpcs) results results' (x :: l).
Proof.
  intros Hx Hs (Hl & -> & Hr). split_and!; [by rewrite fmap_cons, Hl|done|]. constructor; [done|].
  eapply Forall_impl; [exact Hr|]. intros y. by apply read_from_suffix.
Qed.

Lemma wait_canceled_spec rc rpcs : forall results evs w results' evs' w',
  wait_canceled adminRegionInfo rc rpcToRes region_of rpcs results evs w = Ok (results', evs', w') ->
  evs' `suffix_of` evs /\ exists l, waited evs rpcs results results' l.
Proof.
  induction rpcs as [|c rpcs IH]; intros results evs w results' evs' w' H; cbn [wait_canceled] in H.
  { injection H as -> -> ->. split; [done|]. exists []. by split_and!. }
  apply bind_Ok_inv in H as (r & evs1 & w1 & [Hr Hs]%await_call_inv & H). destruct r as [a|].
  - apply bind_Ok_inv in H as ([] & evs2 & w2 & Hh & H).
    apply uses_suffix with (c := fun _ => 0%nat) in Hh; [|apply uses_handle_call].
    assert (evs2 `suffix_of` evs) as Hs2 by (by etrans).
    apply IH in H as (Hs' & l & Hl). split; [by etrans|]. exists ((c, Some a) :: l).
    eapply (waited_cons evs evs2 (c, Some a)); done.
  - apply IH in H as (Hs' & l & Hl). split; [by etrans|]. exists ((c, None) :: l). by eapply (waited_cons evs evs1 (c, None)).
Qed.

(** Whether a group went well; a context that is done counts as a failure. *)
Definition verdict (evs : list event) (ok ok' : bool) (l : list reading) : Prop :=
  if ok' then ok = true /\ Forall succeeded l
  else ok = false \/ (exists x, x ∈ l /\ failed x) \/ canceled evs.

Lemma wait_loop_spec rc rpcs : forall results ok evs w results' ok' evs' w',
  wait_loop adminRegionInfo rc rpcToRes region_of rpcs results ok evs w = Ok ((results', ok'), evs', w') ->
  evs' `suffix_of` evs /\ exists l, waited evs rpcs results results' l /\ verdict evs ok ok' l.
Proof.
  induction rpcs as [|c rpcs IH]; intros results ok evs w results' ok' evs' w' H; cbn [wait_loop] in H.
  { injection H as -> -> -> ->. split; [done|]. exists []. split; [by split_and!|]. destruct ok'; [done|by left]. }
  apply bind_Ok_inv in H as (r & evs1 & w1 & [Hr Hs]%await_call_inv & H). destruct r as [a|].
  - apply bind_Ok_inv in H as ([] & evs2 & w2 & Hh & H).
    apply uses_suffix with (c := fun _ => 0%nat) in Hh; [|apply uses_handle_call].
    assert (evs2 `suffix_of` evs) as Hs2 by (by etrans).
    apply IH in H as (Hs' & l & Hl & Hv). split; [by etrans|]. exists ((c, Some a) :: l).
    split; [eapply (waited_cons evs evs2 (c, Some a)); done|].
    unfold verdict in *. destruct ok'.
    + destruct Hv as [Hok Hl']. destruct (Res_Error a) as [e|] eqn:He; [done|]. split; [done|]. constructor; [|done]. by exists a.
    + destruct Hv as [Hok|[(x & Hx & Hf)|Hc]].
      * destruct (Res_Error a) as [e|] eqn:He; [|by left]. right; left. exists (c, Some a). split; [by left|]. exists a. by rewrite He.
      * right; left. exists x. split; [by right|done].
      * right; right. by eapply canceled_suffix.
  - apply bind_Ok_inv in H as (results1 & evs2 & w2 & Hc & H). injection H as -> <- -> ->.
    apply (wait_canceled_spec rc (c :: rpcs)) in Hc as (Hs' & l & Hl). split; [by etrans|]. exists l. split.
    + destruct Hl as (? & ? & Hl). split_and!; [done..|]. eapply Forall_impl; [exact Hl|]. intros y. by apply read_from_suffix.
    + right; right. by exists c.
Qed.

Lemma wait_groups_spec gs : forall results ok evs w results' ok' evs' w',
  wait_groups adminRegionInfo gs rpcToRes region_of results ok evs w = Ok ((results', ok'), evs', w') ->
  evs' `suffix_of` evs /\ exists l, waited evs (concat gs.*2) results results' l /\ verdict evs ok ok' l.
Proof.
  induction gs as [|[rc rpcs] gs IH]; intros results ok evs w results' ok' evs' w' H; cbn [wait_groups] in H.
  { injection H as -> -> -> ->. split; [done|]. exists []. split; [by split_and!|]. destruct ok'; [done|by left]. }
  apply bind_Ok_inv in H as ([r1 ok1] & evs1 & w1 & H1 & H). apply wait_loop_spec in H1 as (Hs & l1 & (Hl1 & -> & Hr1) & Hv1).
  apply IH in H as (Hs' & l2 & (Hl2 & -> & Hr2) & Hv2). split; [by etrans|]. exists (l1 ++ l2). split.
  - split_and!; [by rewrite fmap_app, Hl1, Hl2|by rewrite record_all_app|]. apply Forall_app. split; [done|].
    eapply Forall_impl; [exact Hr2|]. intros y. by apply read_from_suffix.
  - unfold verdict in *. cbn [snd] in Hv2. destruct ok'.
    + destruct Hv2 as [Hok2 Hl2']. destruct ok1; [|done]. split; [done|]. apply Forall_app. split; [apply Hv1|done].
    + destruct ok1; [destruct Hv2 as [?|[(x & Hx & Hf)|Hc]]|destruct Hv1 as [?|[(x & Hx & Hf)|Hc]]]; try done.
      all: first [by left | by right; right | by right; right; eapply canceled_suffix | right; left; exists x; rewrite elem_of_app; tauto].
Qed.

End Waits.

(** ** SendBatch *)

Section Claims.
Context {T : RegionTree ptr} {HO : RangeOrder}.
Variable clientType : ClientType.
Variable adminRegionInfo metaRegionInfo : option ptr.
Variable unmarshal_RegionInfo : bytes -> option RegionInfo.
Variable call_of : cid -> bcall.

Abbreviation SendBatch := (SendBatch clientType adminRegionInfo metaRegionInfo unmarshal_RegionInfo call_of).

Definition batch_table (batch : list cid) : bytes := match batch with c :: _ => b_table (call_of c) | [] => [] end.

(** No call twice, all of one table and batchable. *)
Definition acceptable (batch : list cid) : Prop :=
  NoDup batch /\ Forall (fun c => call_error call_of (batch_table batch) c = None) batch.

(** The checks accept what is acceptable, and then all slots say that nothing was executed. *)
Lemma check_accepts batch res m ok :
  check_loop call_of (batch_table batch) 0 batch ∅ = (res, m, ok) ->
  indexes m batch /\ length res = length batch /\ (ok = true <-> acceptable batch) /\
  (forall i c, batch !! i = Some c -> exists e, res !! i = Some (mkBResult None (Some e)) /\ check_error call_of (batch_table batch) batch i c e) /\
  (acceptable batch -> Forall (fun r => r = mkBResult None (Some NotExecutedError)) res).
Proof.
  intros H. destruct (check_loop_spec call_of (batch_table batch) batch [] ∅ 0 res m ok H) as (Hm & Hl & Hok & Hk & Hno); [|done|].
  { intros c j. rewrite lookup_empty. split; [done|]. by intros [? _]. }
  assert (acceptable batch -> forall i e, res !! i = Some (mkBResult None (Some e)) -> e = NotExecutedError) as Hacc.
  { intros [Hnd Hall] i e Hi. destruct (lookup_lt_is_Some_2 batch i) as [c Hc]; [rewrite <- Hl; by eapply lookup_lt_Some|].
    destruct (Hk i c Hc) as (e' & He' & [(j & Hlt & Hj & _)|[_ ->]]).
    - pose proof (NoDup_lookup _ _ _ _ Hnd Hc Hj). simpl in *. lia.
    - rewrite He' in Hi. injection Hi as <-. by rewrite (Forall_lookup_1 _ _ _ _ Hall Hc). }
  split_and!; [done|done| |done|].
  - split; [intros ->; by apply Hok; [|constructor]|]. intros Ha. destruct ok; [done|].
    destruct (Hno eq_refl) as (k & e & Hr & He). by specialize (Hacc Ha k e Hr).
  - intros Ha. apply Forall_lookup. intros i r Hr.
    destruct (lookup_lt_is_Some_2 batch i) as [c Hc]; [rewrite <- Hl; by eapply lookup_lt_Some|].
    destruct (Hk i c Hc) as (e & He & _). rewrite He in Hr. injection Hr as <-. by rewrite (Hacc Ha i e He).
Qed.

(** A batch with a call that occurs twice, is not batchable or is for another
    table than the first is not sent at all: [SendBatch] returns at once, with
    the index of the first occurrence for a repeated call, with what is wrong
    for a call that is not acceptable, and with [NotExecutedError] for all
    others. *)
Theorem SendBatch_rejects batch evs w :
  batch <> [] -> (acceptable batch -> False) ->
  exists res, SendBatch batch evs w = Ok ((res, false, []), evs, w) /\ length res = length batch /\
  forall i c, batch !! i = Some c ->
    exists e, res !! i = Some (mkBResult None (Some e)) /\ check_error call_of (batch_table batch) batch i c e.
Proof.
  intros Hne Hna. destruct batch as [|c0 rest]; [done|]. unfold Batch.SendBatch.
  destruct (check_loop call_of _ 0 (c0 :: rest) ∅) as [[res m] ok] eqn:Hc.
  destruct (check_accepts (c0 :: rest) res m ok Hc) as (_ & Hl & Hok & Hk & _).
  destruct ok; [by destruct Hna; apply Hok|]. by exists res.
Qed.

(** What a batch that passes the checks goes through. *)
Lemma SendBatch_steps batch evs w res allOK queued evs' w' :
  acceptable batch -> batch <> [] -> SendBatch batch evs w = Ok ((res, allOK, queued), evs', w') ->
  exists m res1 g ok evs1 w1, indexes m batch /\ length res1 = length batch /\ evs1 `suffix_of` evs /\
    if (ok : bool) then
      grouped g batch /\ Forall (fun r => r = mkBResult None (Some NotExecutedError)) res1 /\ queued = range [] (g_rpcs g) /\
      wait_groups adminRegionInfo queued m (g_region g) res1 true evs1 w1 = Ok ((res, allOK), evs', w')
    else Forall unqueued res1 /\ lookup_failed_in res1 /\ res = res1 /\ allOK = false /\ queued = [].
Proof.
  intros Ha Hne H. destruct batch as [|c0 rest]; [done|]. unfold Batch.SendBatch in H.
  destruct (check_loop call_of _ 0 (c0 :: rest) ∅) as [[res0 m] ok0] eqn:Hc.
  destruct (check_accepts (c0 :: rest) res0 m ok0 Hc) as (Hm & Hl & Hok & _ & Hnot).
  rewrite (proj2 Hok Ha) in H. cbn [negb] in H. apply bind_Ok_inv in H as ([[res1 g] ok] & evs1 & w1 & Hf & H).
  apply (findClients_spec _ _ _ _ _ _ _ _ _ _ []) in Hf as (Hs & Hl1 & Hf); [|apply no_groups_grouped| |simpl in *; lia|done].
  2:{ eapply Forall_impl; [by apply Hnot|]. intros r ->. exists NotExecutedError. auto. }
  exists m, res1, g, ok, evs1, w1. split_and!; [done|lia|done|]. destruct ok; cbn [negb] in H.
  - destruct Hf as (_ & -> & Hg). apply bind_Ok_inv in H as ([res2 ok2] & evs2 & w2 & Hw & H).
    injection H as <- <- <- <- <-. split_and!; [done|by apply Hnot|done|done].
  - destruct Hf as [? ?]. by injection H as -> <- <- -> ->.
Qed.

(** C13. A batch is sent as a whole or not at all.  If the region client of a call
    cannot be found, no call is queued and every slot has [NotExecutedError] or
    the error of the search.  Otherwise every call is queued exactly once, in
    one group per region client, and every group keeps the order of the batch. *)
Theorem SendBatch_all_or_nothing batch evs w res allOK queued evs' w' :
  acceptable batch -> batch <> [] -> SendBatch batch evs w = Ok ((res, allOK, queued), evs', w') ->
  length res = length batch /\
  ((queued = [] /\ allOK = false /\ Forall unqueued res /\ lookup_failed_in res) \/
   (concat queued.*2 ≡ₚ batch /\ NoDup queued.*1 /\ forall rc rpcs, (rc, rpcs) ∈ queued -> rpcs `sublist_of` batch)).
Proof.
  intros Ha Hne H. destruct (SendBatch_steps _ _ _ _ _ _ _ _ Ha Hne H) as (m & res1 & g & ok & evs1 & w1 & Hm & Hl & Hs & Hok).
  destruct ok.
  - destruct Hok as (Hg & _ & -> & Hw). apply wait_groups_spec in Hw as (_ & l & (_ & -> & _) & _).
    split; [by rewrite length_record_all|]. right. split_and!.
    + rewrite <- (gr_perm _ _ Hg). by rewrite range_perm.
    + rewrite range_perm. apply NoDup_fst_map_to_list.
    + intros rc rpcs Hin%elem_of_range. by apply (gr_order _ _ Hg rc).
  - destruct Hok as (Hu & Hf & -> & -> & ->). split; [done|]. by left.
Qed.

(** C12. Of a batch that was sent, the i-th result is what was read from the channel
    of the i-th call, or the error of the context, whatever the order of the
    answers and the grouping.  [allOK] says that all calls succeeded; when it is
    false, a call failed or the context was seen done. *)
Theorem SendBatch_routes_results batch evs w res allOK queued evs' w' :
  acceptable batch -> queued <> [] -> SendBatch batch evs w = Ok ((res, allOK, queued), evs', w') ->
  (forall i c, batch !! i = Some c -> exists x, x.1 = c /\ read_from evs x /\ res !! i = Some (slot x)) /\
  if allOK then Forall (fun r => br_Error r = None) res
  else (exists r, r ∈ res /\ br_Error r <> None) \/ canceled evs.
Proof.
  intros Ha Hq H. assert (batch <> []) as Hne by (intros ->; by injection H as <- <- <-).
  destruct (SendBatch_steps _ _ _ _ _ _ _ _ Ha Hne H) as (m & res1 & g & ok & evs1 & w1 & Hm & Hl & Hs & Hok).
  destruct ok; [|by destruct Hok as (_ & _ & _ & _ & ->)]. destruct Hok as (Hg & Hnot & Hqe & Hw).
  apply wait_groups_spec in Hw as (_ & l & (Hl1 & -> & Hread) & Hv).
  assert (l.*1 ≡ₚ batch) as Hperm by (rewrite Hl1, Hqe, range_perm; apply Hg).
  assert (forall c i, batch !! i = Some c -> res_index m c = i) as Hidx.
  { intros c i Hi. unfold res_index. assert (m !! c = Some i) as ->; [|done]. apply Hm. split; [done|].
    intros [k [Hk Hlt]%lookup_take_Some]%list_elem_of_lookup. pose proof (NoDup_lookup _ _ _ _ (proj1 Ha) Hi Hk). lia. }
  assert (forall x, x ∈ l -> record_all m l res1 !! res_index m x.1 = Some (slot x)) as Hslot.
  { intros x Hx. assert (x.1 ∈ batch) as Hb by (rewrite <- Hperm; by apply list_elem_of_fmap_2).
    apply record_all_slot; [rewrite Hperm; apply Ha| |done|].
    - intros c d Hc Hd Hcd. rewrite Hperm in Hc, Hd. apply list_elem_of_lookup in Hc as [i Hi], Hd as [j Hj].
      rewrite (Hidx _ _ Hi), (Hidx _ _ Hj) in Hcd. congruence.
    - apply list_elem_of_lookup in Hb as [i Hi]. rewrite (Hidx _ _ Hi).
      destruct (lookup_lt_is_Some_2 res1 i) as [r Hr]; [rewrite Hl; by eapply lookup_lt_Some|].
      exists r. split; [done|]. by rewrite (Forall_lookup_1 _ _ _ _ Hnot Hr). }
  assert (forall i c, batch !! i = Some c -> exists x, x.1 = c /\ x ∈ l /\ record_all m l res1 !! i = Some (slot x)) as Hres.
  { intros i c Hi. assert (c ∈ l.*1) as Hc by (rewrite Hperm; by eapply list_elem_of_lookup_2).
    apply list_elem_of_fmap in Hc as (x & -> & Hx). exists x. split_and!; [done|done|]. rewrite <- (Hidx _ _ Hi). by apply Hslot. }
  split.
  - intros i c Hi. destruct (Hres i c Hi) as (x & ? & Hx & ?). exists x. split_and!; [done| |done].
    eapply read_from_suffix; [done|]. by eapply (proj1 (Forall_forall _ _) Hread).
  - destruct allOK; simpl in Hv.
    + apply Forall_lookup. intros i r Hr. destruct (lookup_lt_is_Some_2 batch i) as [c Hc].
      { rewrite <- Hl. rewrite <- (length_record_all m l). by eapply lookup_lt_Some. }
      destruct (Hres i c Hc) as (x & _ & Hx & Hs'). destruct (proj1 (Forall_forall _ _) (proj2 Hv) x Hx) as (a & Ha' & He).
      rewrite Hs' in Hr. injection Hr as <-. unfold slot. rewrite Ha'. simpl. by rewrite He.
    + destruct Hv as [?|[(x & Hx & a & Ha' & He)|Hc]]; [done|left|right; by eapply canceled_suffix].
      exists (slot x). split; [by eapply list_elem_of_lookup_2, Hslot|]. unfold slot. rewrite Ha'. simpl.
      by destruct (Res_Error a).
Qed.

End Claims.
