(* ===== verification/BatchSafety.v ===== *)
(** * Safety of SendBatch

    [SendBatch] within the discipline of Safety: no panic, no region left
    behind.  And its results on concrete schedules. *)

From S2P Require Import Prelude RegionName Pb RegionInfo RegionTree KeyRegionCache Hrpc RpcError Multi ClientRegionCache World Rpc Establish Fuel Discipline Safety Retries Batch BatchProps.

Section BatchFuel.
Context {T : RegionTree ptr} {HO : RangeOrder}.
Variable clientType : ClientType.
Variable adminRegionInfo metaRegionInfo : option ptr.
Variable unmarshal_RegionInfo : bytes -> option RegionInfo.
Variable call_of : cid -> bcall.

Lemma uses_findClients n i batch res g ok :
  uses n (findClients clientType adminRegionInfo metaRegionInfo unmarshal_RegionInfo call_of i batch res g ok) (fun _ => 0%nat).
Proof.
  revert i res g ok. induction batch as [|c batch IH]; intros i res g ok; [by apply uses_ret|]. cbn [findClients].
  eapply uses_bind0; [apply uses_getRegionAndClientForRPC|]. intros [[reg rc]|e]; apply IH.
Qed.

Lemma uses_wait_canceled n rc m r rpcs results :
  uses n (wait_canceled adminRegionInfo rc m r rpcs results) (fun _ => 0%nat).
Proof.
  revert results. induction rpcs as [|c rpcs IH]; intros results; [by apply uses_ret|]. cbn [wait_canceled].
  eapply uses_bind0; [apply uses_await_call|]. intros [a|]; [|apply IH]. eapply uses_bind0; [apply uses_handle_call|].
  intros _. apply IH.
Qed.

Lemma uses_wait_loop n rc m r rpcs results ok :
  uses n (wait_loop adminRegionInfo rc m r rpcs results ok) (fun _ => 0%nat).
Proof.
  revert results ok. induction rpcs as [|c rpcs IH]; intros results ok; [by apply uses_ret|]. cbn [wait_loop].
  eapply uses_bind0; [apply uses_await_call|]. intros [a|].
  - eapply uses_bind0; [apply uses_handle_call|]. intros _. apply IH.
  - eapply uses_bind0; [apply uses_wait_canceled|]. intros results'. by apply uses_ret.
Qed.

Lemma uses_wait_groups n gs m r results ok :
  uses n (wait_groups adminRegionInfo gs m r results ok) (fun _ => 0%nat).
Proof.
  revert results ok. induction gs as [|[rc rpcs] gs IH]; intros results ok; [by apply uses_ret|]. cbn [wait_groups].
  eapply uses_bind0; [apply uses_wait_loop|]. intros x. apply IH.
Qed.

Lemma uses_SendBatch n batch :
  uses n (SendBatch clientType adminRegionInfo metaRegionInfo unmarshal_RegionInfo call_of batch) (fun _ => 0%nat).
Proof.
  destruct batch as [|c batch]; [by apply uses_ret|]. unfold SendBatch.
  destruct (check_loop _ _ _ _ _) as [[res m] ok]. destruct ok; cbn [negb]; [|by apply uses_ret].
  eapply uses_bind0; [apply uses_findClients|]. intros [[res' g] ok]. destruct ok; cbn [negb]; [|by apply uses_ret].
  eapply uses_bind0; [apply uses_wait_groups|]. intros x. by apply uses_ret.
Qed.

End BatchFuel.

Section BatchDiscipline.
Context {T : RegionTree ptr} {HT : RegionTreeSpec ptr T} {HO : RangeOrder}.
Variable clientType : ClientType.
Variable adminRegionInfo metaRegionInfo : option ptr.
Variable unmarshal_RegionInfo : bytes -> option RegionInfo.
Variable call_of : cid -> bcall.

Abbreviation safe := (safe clientType adminRegionInfo metaRegionInfo unmarshal_RegionInfo).
Abbreviation event_ok := (event_ok clientType adminRegionInfo metaRegionInfo unmarshal_RegionInfo).
Abbreviation world_ok := (world_ok clientType adminRegionInfo metaRegionInfo).
Abbreviation holds := (holds clientType adminRegionInfo metaRegionInfo).

(** The region of every call in a group is one of [K]. *)
Definition regions_known (g : groups) (K : list ptr) : Prop :=
  forall rc rpcs c, g_rpcs g !! rc = Some rpcs -> c ∈ rpcs -> exists reg, g_region g !! c = Some reg /\ reg ∈ K.

Lemma add_call_known g K c reg rc : regions_known g K -> regions_known (add_call c reg rc g) (reg :: K).
Proof.
  intros Hk rc' rpcs d Hrc Hd. simpl in *. destruct (decide (d = c)) as [->|Hne].
  { exists reg. rewrite lookup_insert_eq. split; [done|by left]. }
  rewrite lookup_insert_ne by done.
  assert (exists reg', g_region g !! d = Some reg' /\ reg' ∈ K) as (reg' & ? & ?); [|exists reg'; split; [done|by right]].
  apply lookup_insert_Some in Hrc as [[<- <-]|[_ Hrc]]; [|by eapply Hk].
  apply elem_of_app in Hd as [Hd|Hd%list_elem_of_singleton]; [|done].
  destruct (g_rpcs g !! rc) as [rpcs|] eqn:E; simpl in Hd; [by eapply Hk|by apply elem_of_nil in Hd].
Qed.

Definition fits (c : cid) : Prop :=
  clientType = RegionClientType -> b_table (call_of c) <> metaTableName -> table_fits (b_table (call_of c)) (b_key (call_of c)).

Lemma safe_findClients O R batch : forall i res g ok K,
  Forall fits batch -> regions_known g K ->
  safe (holds O K R) (findClients clientType adminRegionInfo metaRegionInfo unmarshal_RegionInfo call_of i batch res g ok)
    (fun x w => exists K', holds O K' R w /\ regions_known x.1.2 K').
Proof.
  induction batch as [|c batch IH]; intros i res g ok K Hfit Hk.
  { apply safe_ret. intros w _ Hh. by exists K. }
  apply Forall_cons in Hfit as [Hc Hfit]. cbn [findClients].
  eapply safe_bind; [intros evs w; by apply safe_region_and_client_loop|].
  intros [[reg rc]|e]; cbv beta; [apply IH; [done|by apply add_call_known]|].
  apply safe_pre with (P := holds O K R); [by apply IH|by intros w _ [? _]].
Qed.

Lemma safe_await_call O K R c : safe (holds O K R) (await_call c) (fun _ => holds O K R).
Proof.
  apply safe_await; [apply holds_stable|]. intros a w _ Hw H. destruct a; try done.
  case_bool_decide; [|done]. split; [by apply own_step_refl|done].
Qed.

Lemma safe_handle_call O K R rc m c a :
  (exists reg, m !! c = Some reg /\ reg ∈ K) ->
  safe (holds O K R) (handle_call adminRegionInfo rc m c a) (fun _ => holds O K R).
Proof.
  intros (reg & Hreg & Hin). unfold handle_call. destruct (Res_Error a); [|by apply safe_ret]. rewrite Hreg.
  by apply safe_handleResultError.
Qed.

Section Wait.
Variables (O : gset ptr) (K R : list ptr) (m : gmap cid nat) (region_of : gmap cid ptr).

Definition known (rpcs : list cid) : Prop := Forall (fun c => exists reg, region_of !! c = Some reg /\ reg ∈ K) rpcs.

Lemma safe_wait_canceled rc rpcs results :
  known rpcs -> safe (holds O K R) (wait_canceled adminRegionInfo rc m region_of rpcs results) (fun _ => holds O K R).
Proof.
  intros Hk. revert results. unfold known in Hk. induction Hk as [|c rpcs Hc Hk IH]; intros results; [by apply safe_ret|]. cbn [wait_canceled].
  eapply safe_bind; [apply safe_await_call|]. intros [a|]; cbv beta; [|apply IH].
  eapply safe_bind; [by apply safe_handle_call|]. intros ?. apply IH.
Qed.

Lemma safe_wait_loop rc rpcs results ok :
  known rpcs -> safe (holds O K R) (wait_loop adminRegionInfo rc m region_of rpcs results ok) (fun _ => holds O K R).
Proof.
  intros Hk. revert results ok. unfold known in Hk. induction Hk as [|c rpcs Hc Hk IH]; intros results ok; [by apply safe_ret|]. cbn [wait_loop].
  eapply safe_bind; [apply safe_await_call|]. intros [a|]; cbv beta.
  - eapply safe_bind; [by apply safe_handle_call|]. intros ?. apply IH.
  - eapply safe_bind; [apply safe_wait_canceled; by constructor|]. intros ?. by apply safe_ret.
Qed.

Lemma safe_wait_groups gs results ok :
  Forall (fun g => known g.2) gs -> safe (holds O K R) (wait_groups adminRegionInfo gs m region_of results ok) (fun _ => holds O K R).
Proof.
  intros Hk. revert results ok. induction Hk as [|[rc rpcs] gs Hc Hk IH]; intros results ok; [by apply safe_ret|].
  cbn [wait_groups]. eapply safe_bind; [by apply safe_wait_loop|]. intros x. apply IH.
Qed.

End Wait.

Lemma safe_SendBatch O R batch :
  Forall fits batch ->
  safe (holds O [] R) (SendBatch clientType adminRegionInfo metaRegionInfo unmarshal_RegionInfo call_of batch)
    (fun _ w => w_owned w = O).
Proof.
  intros Hfit. assert (forall w, world_ok w -> holds O [] R w -> w_owned w = O) as Hown by (by intros w _ []).
  destruct batch as [|c batch]; [by apply safe_ret|]. unfold SendBatch.
  destruct (check_loop _ _ _ _ _) as [[res m] ok]. destruct ok; cbn [negb]; [|by apply safe_ret].
  eapply safe_bind; [apply safe_findClients; [done|]|].
  { intros rc rpcs d H. simpl in H. by rewrite lookup_empty in H. }
  intros [[res' g] ok]. apply safe_exists. intros K. cbn [fst snd].
  assert (forall w, world_ok w -> holds O K R w /\ regions_known g K -> w_owned w = O) as HownK by (by intros w _ [[] _]).
  destruct ok; cbn [negb]; [|by apply safe_ret].
  apply safe_pure with (F := regions_known g K); [by intros w _ [_ ?]|]. intros Hk.
  apply safe_pre with (P := holds O K R); [|by intros w _ [? _]].
  eapply safe_bind; [apply safe_wait_groups with (K := K)|].
  - apply Forall_forall. intros [rc rpcs] Hin%elem_of_range. apply Forall_forall. intros d Hd. by eapply Hk.
  - intros x. apply safe_ret. by intros w _ [].
Qed.

(** However the other goroutines and the servers behave (within the
    discipline), [SendBatch] does not panic and stops short of returning only
    when the schedule stops, and every region that it marks unavailable is
    handed to a goroutine that will establish it. *)
Theorem SendBatch_disciplined batch evs w :
  Forall fits batch -> Forall event_ok evs -> world_ok w -> w_owned w = ∅ ->
  match SendBatch clientType adminRegionInfo metaRegionInfo unmarshal_RegionInfo call_of batch evs w with
  | Ok (_, _, w') => world_ok w' /\ w_owned w' = ∅
  | Err (Waiting w') => world_ok w'
  | Err e => e = Blocked
  | Panic => False
  end.
Proof.
  intros Hfit Hevs Hw Ho. pose proof (safe_SendBatch ∅ [] batch Hfit evs w Hevs Hw) as Hs.
  pose proof (uses_SendBatch clientType adminRegionInfo metaRegionInfo unmarshal_RegionInfo call_of (S (length evs)) batch
    evs w ltac:(lia)) as Hu.
  destruct (SendBatch _ _ _ _ _ _ evs w) as [[[r evs'] w']|[]|]; try done.
  - destruct Hs as (_ & Hw' & _ & H'); [by split|done].
  - apply Hs. by split.
  - apply Hs. by split.
Qed.

End BatchDiscipline.

(** ** A cancelled batch *)

Section Canceled.
Context {T : RegionTree ptr} {HO : RangeOrder}.
Variable metaRegionInfo : option ptr.
Variable unmarshal_RegionInfo : bytes -> option RegionInfo.
Variable call_of : cid -> bcall.
Variable w : world.
Variables (reg : ptr) (i : info) (rc : cptr) (c : cid).

Lemma range_singleton {A : Type} site (k : cptr) (a : A) : range site {[k := a]} = [(k, a)].
Proof. apply Permutation_singleton_r. by rewrite range_perm, map_to_list_singleton. Qed.

(** [allOK] can be false although every call succeeded: when the context is
    seen done before the result and the result is then there, the result is
    returned without an error and [allOK] is false. *)
Theorem SendBatch_allOK_false_without_failure msg :
  b_batchable (call_of c) = true -> b_table (call_of c) <> metaTableName -> w_made w = true ->
  @cachedRegion T Empty_set (b_table (call_of c)) (b_key (call_of c)) (w_regions w) (w_heap w) = Ok (Some reg) ->
  h_infos (w_heap w) !! reg = Some i -> r_available i = None -> r_client i = Some rc ->
  SendBatch RegionClientType None metaRegionInfo unmarshal_RegionInfo call_of [c]
    [quiet AnsGo; quiet AnsGo; quiet AnsGo; quiet (AnsResultOf c None); quiet (AnsResultOf c (Some (okResult msg)))] w
  = Ok (([mkBResult (Some msg) None], false, [(rc, [c])]), [], w).
Proof.
  intros Hb Ht Hmk Hc Hi Ha Hr. unfold SendBatch. cbn [check_loop]. rewrite lookup_empty. unfold call_error.
  unfold bytes_eqb. rewrite bool_decide_eq_true_2, Hb by done. cbn [negb]. erewrite bind_ok; [|cbn [findClients]; erewrite bind_ok
    by (by apply (attempt_region metaRegionInfo unmarshal_RegionInfo _ _ w reg i rc)); reflexivity].
  cbv beta iota. cbn [negb]. unfold add_call, no_groups. cbn [g_rpcs g_region]. rewrite lookup_empty. cbn [default app].
  rewrite insert_empty, range_singleton. cbn [wait_groups].
  unfold waitForCompletion. cbn [wait_loop wait_canceled]. unfold await_call, mbind, M_bind, await. cbn [ev_ans ev_env quiet].
  rewrite bool_decide_eq_true_2 by done. cbn [ev_ans ev_env quiet]. rewrite bool_decide_eq_true_2 by done.
  unfold res_index. rewrite lookup_insert_eq. reflexivity.
Qed.

End Canceled.

(** ** A batch of two calls *)

Definition sample_calls (c : cid) : bcall :=
  match c with
  | 0%nat => mkBCall (bs "t") (bs "row") true
  | 1%nat => mkBCall (bs "t") (bs "row2") true
  | _ => mkBCall (bs "u") [] true
  end.

Definition sample_batch : list (@event list_tree) :=
  [quiet AnsGo; quiet AnsGo; quiet AnsGo; quiet AnsGo; quiet AnsGo; quiet AnsGo;
   quiet (AnsResultOf 0 (Some (okResult (MOther "first")))); quiet (AnsResultOf 1 (Some (errResult (PlainError "second"))))].

Lemma sample_batch_acceptable : acceptable sample_calls [0; 1]%nat.
Proof. split; [apply (bool_decide_unpack _); vm_compute; exact I|]. repeat constructor. Qed.

Definition batch_slots (o : outcome (@halt list_tree) (list bresult * bool * list (cptr * list cid) * list (@event list_tree) * @world list_tree))
    : option (list bresult * bool * list (cptr * list cid)) :=
  match o with Ok (r, _, _) => Some r | _ => None end.

Lemma sample_batch_run :
  batch_slots (SendBatch RegionClientType None (Some 0%nat) (fun _ => None) sample_calls [0; 1]%nat sample_batch sample_world)
  = Some ([mkBResult (Some (MOther "first")) None; mkBResult None (Some (BErr (CallErr (PlainError "second"))))], false,
          [(7%nat, [0; 1]%nat)]).
Proof. vm_compute. reflexivity. Qed.

Lemma SendBatch_allOK_false_without_failure_witness :
  SendBatch RegionClientType None (Some 0%nat) (fun _ => None) sample_calls [0%nat]
    [quiet AnsGo; quiet AnsGo; quiet AnsGo; quiet (AnsResultOf 0 None); quiet (AnsResultOf 0 (Some (okResult (MOther "late"))))]
    sample_world
  = Ok (([mkBResult (Some (MOther "late")) None], false, [(7%nat, [0%nat])]), [], sample_world).
Proof.
  apply (SendBatch_allOK_false_without_failure (Some 0%nat) (fun _ => None) sample_calls sample_world 1 sample_table 7 0);
    try reflexivity. vm_compute. discriminate.
Defined.

Lemma SendBatch_rejects_witness :
  exists res, SendBatch RegionClientType None (Some 0%nat) (fun _ => None) sample_calls [0; 2; 0]%nat [] sample_world
      = Ok ((res, false, []), [], sample_world) /\ length res = 3%nat.
Proof.
  destruct (SendBatch_rejects RegionClientType None (Some 0%nat) (fun _ => None) sample_calls [0; 2; 0]%nat [] sample_world)
    as (res & Hres & Hlen & _).
  - discriminate.
  - intros [Hnd _]. apply NoDup_cons in Hnd as [Hnd _]. apply Hnd. right; left.
  - exists res. split; [exact Hres|exact Hlen].
Defined.

Lemma SendBatch_all_or_nothing_witness :
  exists res queued evs' w',
    SendBatch RegionClientType None (Some 0%nat) (fun _ => None) sample_calls [0; 1]%nat sample_batch sample_world
    = Ok ((res, false, queued), evs', w') /\ concat queued.*2 ≡ₚ [0; 1]%nat.
Proof.
  pose proof sample_batch_run as Hrun.
  destruct (SendBatch RegionClientType None (Some 0%nat) (fun _ => None) sample_calls [0; 1]%nat sample_batch sample_world)
    as [[[[[res ok] queued] evs'] w']| |] eqn:E; [|discriminate Hrun..].
  simpl in Hrun. injection Hrun as -> -> ->.
  destruct (SendBatch_all_or_nothing RegionClientType None (Some 0%nat) (fun _ => None) sample_calls _ _ _ _ _ _ _ _
    sample_batch_acceptable ltac:(discriminate) E) as [_ [[Hq _]|[Hq _]]]; [discriminate Hq|].
  by eexists _, _, evs', w'.
Defined.

Lemma SendBatch_routes_results_witness :
  exists x, x.1 = 1%nat /\ read_from sample_batch x /\
    mkBResult None (Some (BErr (CallErr (PlainError "second")))) = slot x.
Proof.
  pose proof sample_batch_run as Hrun.
  destruct (SendBatch RegionClientType None (Some 0%nat) (fun _ => None) sample_calls [0; 1]%nat sample_batch sample_world)
    as [[[[[res ok] queued] evs'] w']| |] eqn:E; [|discriminate Hrun..].
  simpl in Hrun. injection Hrun as -> -> ->.
  destruct (SendBatch_routes_results RegionClientType None (Some 0%nat) (fun _ => None) sample_calls _ _ _ _ _
    [(7%nat, [0; 1]%nat)] _ _ sample_batch_acceptable ltac:(discriminate) E) as [Hres _].
  destruct (Hres 1%nat 1%nat eq_refl) as (x & Hx & Hr & Hs). exists x. split_and!; [done|done|]. by injection Hs.
Defined.

Lemma SendBatch_disciplined_witness :
  exists r evs' w', SendBatch RegionClientType None (Some 0%nat) (fun _ => None) sample_calls [0; 1]%nat sample_batch sample_world
    = Ok (r, evs', w') /\ w_owned w' = ∅.
Proof.
  pose proof (@SendBatch_disciplined list_tree list_tree_spec key_order RegionClientType None (Some 0%nat) (fun _ => None)
    sample_calls [0; 1]%nat sample_batch sample_world) as H.
  pose proof sample_batch_run as Hrun.
  destruct (SendBatch RegionClientType None (Some 0%nat) (fun _ => None) sample_calls [0; 1]%nat sample_batch sample_world)
    as [[[r evs'] w']| |]; [|discriminate Hrun..].
  exists r, evs', w'. split; [reflexivity|]. apply H.
  - repeat (apply Forall_cons; split; [intros _ _; split; [decide_tac|vm_compute; discriminate]|]). by apply Forall_nil.
  - repeat (constructor; [by apply quiet_ok|]). constructor.
  - apply sample_world_ok.
  - reflexivity.
Defined.
