(* ===== verification/FilterPb.v ===== *)
(** * The messages of filters and comparators: pb/Filter.pb.go, pb/Comparator.pb.go

    The Go types of package filter are these messages under another name.  A
    pointer or a slice that can be nil is an option; a float32 is carried as its
    bits.  The protobuf runtime is third party: [Marshaling] is what the package
    calls of it and its inverse, [MarshalingSpec] its documented behaviour: a
    message can be encoded exactly when its required fields are set, and is
    decoded as it was. *)

From S2P Require Import Prelude Pb.

#[local] Open Scope string_scope.

Record BytesBytesPair := mkBytesBytesPair { BBP_First : option bytes; BBP_Second : option bytes }.
Record ByteArrayComparable := mkByteArrayComparable { BAC_Value : option bytes }.
Record BinaryComparator := mkBinaryComparator { BinaryComparator_Comparable : option ByteArrayComparable; }.
Record LongComparator := mkLongComparator { LC_Comparable : option ByteArrayComparable; }.
Record BinaryPrefixComparator := mkBinaryPrefixComparator { BPC_Comparable : option ByteArrayComparable; }.
Record BitComparator := mkBitComparator {
  BitComparator_Comparable : option ByteArrayComparable;
  BitComparator_BitwiseOp : option Z;
}.
Record NullComparator := mkNullComparator { }.
Record RegexStringComparator := mkRegexStringComparator {
  RSC_Pattern : option string;
  RSC_PatternFlags : option Z;
  RSC_Charset : option string;
  RSC_Engine : option string;
}.
Record SubstringComparator := mkSubstringComparator { SC_Substr : option string; }.

Record ColumnCountGetFilter := mkColumnCountGetFilter { CCGF_Limit : option Z; }.
Record ColumnPaginationFilter := mkColumnPaginationFilter {
  ColumnPaginationFilter_Limit : option Z;
  ColumnPaginationFilter_Offset : option Z;
  ColumnPaginationFilter_ColumnOffset : option bytes;
}.
Record ColumnPrefixFilter := mkColumnPrefixFilter { ColumnPrefixFilter_Prefix : option bytes; }.
Record ColumnRangeFilter := mkColumnRangeFilter {
  CRF_MinColumn : option bytes;
  CRF_MinColumnInclusive : option bool;
  CRF_MaxColumn : option bytes;
  CRF_MaxColumnInclusive : option bool;
}.
Record CompareFilter := mkCompareFilter { CF_CompareOp : option Z; CF_Comparator : option Comparator; }.
Record DependentColumnFilter := mkDependentColumnFilter {
  DCF_CompareFilter : option CompareFilter;
  DCF_ColumnFamily : option bytes;
  DCF_ColumnQualifier : option bytes;
  DCF_DropDependentColumn : option bool;
}.
Record FamilyFilter := mkFamilyFilter { FF_CompareFilter : option CompareFilter; }.
Record FilterList := mkFilterList { FL_Operator : option Z; FL_Filters : list Filter; }.
Record FilterWrapper := mkFilterWrapper { FW_Filter : option Filter; }.
Record FirstKeyOnlyFilter := mkFirstKeyOnlyFilter { }.
Record FirstKeyValueMatchingQualifiersFilter := mkFirstKeyValueMatchingQualifiersFilter {
  FKVMQF_Qualifiers : list bytes;
}.
Record FuzzyRowFilter := mkFuzzyRowFilter { FRF_FuzzyKeysData : list BytesBytesPair; }.
Record InclusiveStopFilter := mkInclusiveStopFilter { ISF_StopRowKey : option bytes; }.
Record KeyOnlyFilter := mkKeyOnlyFilter { KOF_LenAsVal : option bool; }.
Record MultipleColumnPrefixFilter := mkMultipleColumnPrefixFilter { MCPF_SortedPrefixes : list bytes; }.
Record PageFilter := mkPageFilter { PageFilter_PageSize : option Z; }.
Record PrefixFilter := mkPrefixFilter { PrefixFilter_Prefix : option bytes; }.
Record QualifierFilter := mkQualifierFilter { QF_CompareFilter : option CompareFilter; }.
Record RandomRowFilter := mkRandomRowFilter { RRF_Chance : option Z; }.
Record RowFilter := mkRowFilter { RF_CompareFilter : option CompareFilter; }.
Record SingleColumnValueFilter := mkSingleColumnValueFilter {
  SCVF_ColumnFamily : option bytes;
  SCVF_ColumnQualifier : option bytes;
  SCVF_CompareOp : option Z;
  SCVF_Comparator : option Comparator;
  SCVF_FilterIfMissing : option bool;
  SCVF_LatestVersionOnly : option bool;
}.
Record SingleColumnValueExcludeFilter := mkSingleColumnValueExcludeFilter {
  SCVEF_SingleColumnValueFilter : option SingleColumnValueFilter;
}.
Record SkipFilter := mkSkipFilter { SF_Filter : option Filter; }.
Record TimestampsFilter := mkTimestampsFilter { TF_Timestamps : list Z; TF_CanHint : option bool; }.
Record ValueFilter := mkValueFilter { VF_CompareFilter : option CompareFilter; }.
Record WhileMatchFilter := mkWhileMatchFilter { WMF_Filter : option Filter; }.
Record FilterAllFilter := mkFilterAllFilter { }.
Record RowRange := mkRowRange {
  RR_StartRow : option bytes;
  RR_StartRowInclusive : option bool;
  RR_StopRow : option bytes;
  RR_StopRowInclusive : option bool;
}.
Record MultiRowRangeFilter := mkMultiRowRangeFilter { MRRF_RowRangeList : list RowRange; }.

(** A message to encode. *)
Inductive message :=
| M_ColumnCountGetFilter (m : ColumnCountGetFilter)
| M_ColumnPaginationFilter (m : ColumnPaginationFilter)
| M_ColumnPrefixFilter (m : ColumnPrefixFilter)
| M_ColumnRangeFilter (m : ColumnRangeFilter)
| M_CompareFilter (m : CompareFilter)
| M_DependentColumnFilter (m : DependentColumnFilter)
| M_FamilyFilter (m : FamilyFilter)
| M_FilterList (m : FilterList)
| M_FilterWrapper (m : FilterWrapper)
| M_FirstKeyOnlyFilter (m : FirstKeyOnlyFilter)
| M_FirstKeyValueMatchingQualifiersFilter (m : FirstKeyValueMatchingQualifiersFilter)
| M_FuzzyRowFilter (m : FuzzyRowFilter)
| M_InclusiveStopFilter (m : InclusiveStopFilter)
| M_KeyOnlyFilter (m : KeyOnlyFilter)
| M_MultipleColumnPrefixFilter (m : MultipleColumnPrefixFilter)
| M_PageFilter (m : PageFilter)
| M_PrefixFilter (m : PrefixFilter)
| M_QualifierFilter (m : QualifierFilter)
| M_RandomRowFilter (m : RandomRowFilter)
| M_RowFilter (m : RowFilter)
| M_SingleColumnValueFilter (m : SingleColumnValueFilter)
| M_SingleColumnValueExcludeFilter (m : SingleColumnValueExcludeFilter)
| M_SkipFilter (m : SkipFilter)
| M_TimestampsFilter (m : TimestampsFilter)
| M_ValueFilter (m : ValueFilter)
| M_WhileMatchFilter (m : WhileMatchFilter)
| M_FilterAllFilter (m : FilterAllFilter)
| M_RowRange (m : RowRange)
| M_MultiRowRangeFilter (m : MultiRowRangeFilter)
| M_BinaryComparator (m : BinaryComparator)
| M_LongComparator (m : LongComparator)
| M_BinaryPrefixComparator (m : BinaryPrefixComparator)
| M_BitComparator (m : BitComparator)
| M_NullComparator (m : NullComparator)
| M_RegexStringComparator (m : RegexStringComparator)
| M_SubstringComparator (m : SubstringComparator).

Definition message_name (m : message) : string :=
  match m with
  | M_ColumnCountGetFilter _ => "ColumnCountGetFilter"
  | M_ColumnPaginationFilter _ => "ColumnPaginationFilter"
  | M_ColumnPrefixFilter _ => "ColumnPrefixFilter"
  | M_ColumnRangeFilter _ => "ColumnRangeFilter"
  | M_CompareFilter _ => "CompareFilter"
  | M_DependentColumnFilter _ => "DependentColumnFilter"
  | M_FamilyFilter _ => "FamilyFilter"
  | M_FilterList _ => "FilterList"
  | M_FilterWrapper _ => "FilterWrapper"
  | M_FirstKeyOnlyFilter _ => "FirstKeyOnlyFilter"
  | M_FirstKeyValueMatchingQualifiersFilter _ => "FirstKeyValueMatchingQualifiersFilter"
  | M_FuzzyRowFilter _ => "FuzzyRowFilter"
  | M_InclusiveStopFilter _ => "InclusiveStopFilter"
  | M_KeyOnlyFilter _ => "KeyOnlyFilter"
  | M_MultipleColumnPrefixFilter _ => "MultipleColumnPrefixFilter"
  | M_PageFilter _ => "PageFilter"
  | M_PrefixFilter _ => "PrefixFilter"
  | M_QualifierFilter _ => "QualifierFilter"
  | M_RandomRowFilter _ => "RandomRowFilter"
  | M_RowFilter _ => "RowFilter"
  | M_SingleColumnValueFilter _ => "SingleColumnValueFilter"
  | M_SingleColumnValueExcludeFilter _ => "SingleColumnValueExcludeFilter"
  | M_SkipFilter _ => "SkipFilter"
  | M_TimestampsFilter _ => "TimestampsFilter"
  | M_ValueFilter _ => "ValueFilter"
  | M_WhileMatchFilter _ => "WhileMatchFilter"
  | M_FilterAllFilter _ => "FilterAllFilter"
  | M_RowRange _ => "RowRange"
  | M_MultiRowRangeFilter _ => "MultiRowRangeFilter"
  | M_BinaryComparator _ => "BinaryComparator"
  | M_LongComparator _ => "LongComparator"
  | M_BinaryPrefixComparator _ => "BinaryPrefixComparator"
  | M_BitComparator _ => "BitComparator"
  | M_NullComparator _ => "NullComparator"
  | M_RegexStringComparator _ => "RegexStringComparator"
  | M_SubstringComparator _ => "SubstringComparator"
  end.

Definition isSome {A : Type} (o : option A) : bool := match o with Some _ => true | None => false end.
Definition compare_init (o : option CompareFilter) : bool :=
  match o with Some f => isSome (CF_CompareOp f) | None => false end.
Definition pair_init (p : BytesBytesPair) : bool := isSome (BBP_First p) && isSome (BBP_Second p).
Definition value_init (o : option SingleColumnValueFilter) : bool :=
  match o with Some f => isSome (SCVF_CompareOp f) && isSome (SCVF_Comparator f) | None => false end.

(** The required fields are set. *)
Definition initialized (m : message) : bool :=
  match m with
  | M_ColumnCountGetFilter m => isSome (CCGF_Limit m)
  | M_ColumnPaginationFilter m => isSome (ColumnPaginationFilter_Limit m)
  | M_ColumnPrefixFilter m => isSome (ColumnPrefixFilter_Prefix m)
  | M_ColumnRangeFilter _ => true
  | M_CompareFilter m => isSome (CF_CompareOp m)
  | M_DependentColumnFilter m => compare_init (DCF_CompareFilter m)
  | M_FamilyFilter m => compare_init (FF_CompareFilter m)
  | M_FilterList m => isSome (FL_Operator m)
  | M_FilterWrapper m => isSome (FW_Filter m)
  | M_FirstKeyOnlyFilter _ => true
  | M_FirstKeyValueMatchingQualifiersFilter _ => true
  | M_FuzzyRowFilter m => forallb pair_init (FRF_FuzzyKeysData m)
  | M_InclusiveStopFilter _ => true
  | M_KeyOnlyFilter m => isSome (KOF_LenAsVal m)
  | M_MultipleColumnPrefixFilter _ => true
  | M_PageFilter m => isSome (PageFilter_PageSize m)
  | M_PrefixFilter _ => true
  | M_QualifierFilter m => compare_init (QF_CompareFilter m)
  | M_RandomRowFilter m => isSome (RRF_Chance m)
  | M_RowFilter m => compare_init (RF_CompareFilter m)
  | M_SingleColumnValueFilter m => isSome (SCVF_CompareOp m) && isSome (SCVF_Comparator m)
  | M_SingleColumnValueExcludeFilter m => value_init (SCVEF_SingleColumnValueFilter m)
  | M_SkipFilter m => isSome (SF_Filter m)
  | M_TimestampsFilter _ => true
  | M_ValueFilter m => compare_init (VF_CompareFilter m)
  | M_WhileMatchFilter m => isSome (WMF_Filter m)
  | M_FilterAllFilter _ => true
  | M_RowRange _ => true
  | M_MultiRowRangeFilter _ => true
  | M_BinaryComparator m => isSome (BinaryComparator_Comparable m)
  | M_LongComparator m => isSome (LC_Comparable m)
  | M_BinaryPrefixComparator m => isSome (BPC_Comparable m)
  | M_BitComparator m => isSome (BitComparator_Comparable m) && isSome (BitComparator_BitwiseOp m)
  | M_NullComparator _ => true
  | M_RegexStringComparator m => isSome (RSC_Pattern m) && isSome (RSC_PatternFlags m) && isSome (RSC_Charset m)
  | M_SubstringComparator m => isSome (SC_Substr m)
  end.

Class Marshaling := {
  Marshal : message -> option bytes;
  Unmarshal : string -> bytes -> option message;
}.

Class MarshalingSpec (P : Marshaling) : Prop := {
  Marshal_initialized m : is_Some (Marshal m) <-> initialized m = true;
  Unmarshal_Marshal m b : Marshal m = Some b -> Unmarshal (message_name m) b = Some m;
}.
