(* ===== verification/Filters.v ===== *)
(** * Filters and comparators: filter/filter.go, filter/comparator.go

    The constructors of package filter, and [ConstructPBFilter] and
    [ConstructPBComparator] of every type.  A constructor that nests a filter
    or a comparator encodes it at once and panics when that fails. *)

From S2P Require Import Prelude Pb FilterPb Hrpc.

#[local] Open Scope string_scope.

Definition filterPath : string := "org.apache.hadoop.hbase.filter.".
Definition comparatorPath : string := "org.apache.hadoop.hbase.filter.".

(** int32 enumerations *)
Definition ListOperator_isValid (o : Z) : bool := bool_decide (1 <= o) && bool_decide (o <= 2).
Definition CompareType_isValid (c : Z) : bool := bool_decide (0 <= c) && bool_decide (c <= 6).
Definition BitwiseOp_isValid (o : Z) : bool := bool_decide (1 <= o) && bool_decide (o <= 3).

Definition MustPassAll : Z := 1.
Definition MustPassOne : Z := 2.

(** The filters and the comparators that the package offers. *)
Inductive filter :=
| F_ColumnCountGetFilter (f : ColumnCountGetFilter)
| F_ColumnPaginationFilter (f : ColumnPaginationFilter)
| F_ColumnPrefixFilter (f : ColumnPrefixFilter)
| F_ColumnRangeFilter (f : ColumnRangeFilter)
| F_CompareFilter (f : CompareFilter)
| F_DependentColumnFilter (f : DependentColumnFilter)
| F_FamilyFilter (f : FamilyFilter)
| F_List (f : FilterList)
| F_Wrapper (f : FilterWrapper)
| F_FirstKeyOnlyFilter (f : FirstKeyOnlyFilter)
| F_FirstKeyValueMatchingQualifiersFilter (f : FirstKeyValueMatchingQualifiersFilter)
| F_FuzzyRowFilter (f : FuzzyRowFilter)
| F_InclusiveStopFilter (f : InclusiveStopFilter)
| F_KeyOnlyFilter (f : KeyOnlyFilter)
| F_MultipleColumnPrefixFilter (f : MultipleColumnPrefixFilter)
| F_PageFilter (f : PageFilter)
| F_PrefixFilter (f : PrefixFilter)
| F_QualifierFilter (f : QualifierFilter)
| F_RandomRowFilter (f : RandomRowFilter)
| F_RowFilter (f : RowFilter)
| F_SingleColumnValueFilter (f : SingleColumnValueFilter)
| F_SingleColumnValueExcludeFilter (f : SingleColumnValueExcludeFilter)
| F_SkipFilter (f : SkipFilter)
| F_TimestampsFilter (f : TimestampsFilter)
| F_ValueFilter (f : ValueFilter)
| F_WhileMatchFilter (f : WhileMatchFilter)
| F_AllFilter (f : FilterAllFilter)
| F_RowRange (f : RowRange)
| F_MultiRowRangeFilter (f : MultiRowRangeFilter).

Inductive comparator :=
| C_BinaryComparator (c : BinaryComparator)
| C_LongComparator (c : LongComparator)
| C_BinaryPrefixComparator (c : BinaryPrefixComparator)
| C_BitComparator (c : BitComparator)
| C_NullComparator (c : NullComparator)
| C_RegexStringComparator (c : RegexStringComparator)
| C_SubstringComparator (c : SubstringComparator).

Section Marshal.
Context {P : Marshaling}.

(** [proto.Marshal] and the message with the name of the Java class. *)
Definition named_comparator (name : string) (m : message) : outcome error Comparator :=
  match Marshal m with
  | Some b => Ok (mkComparator (bs (comparatorPath ++ name)) b)
  | None => Err "proto: required field not set"
  end.

Definition named_filter (name : string) (m : message) : outcome error Filter :=
  match Marshal m with
  | Some b => Ok (mkFilter (bs (filterPath ++ name)) b)
  | None => Err "proto: required field not set"
  end.

(** [pb.MustMarshal] *)
Definition must_filter (name : string) (m : message) : outcome error Filter :=
  match Marshal m with
  | Some b => Ok (mkFilter (bs (filterPath ++ name)) b)
  | None => Panic
  end.

(** [if err != nil { panic(err) }] *)
Definition or_panic {A : Type} (o : outcome error A) : outcome error A :=
  match o with Ok a => Ok a | Err _ => Panic | Panic => Panic end.

(** ** Comparators *)

Definition NewByteArrayComparable (value : option bytes) : ByteArrayComparable := mkByteArrayComparable value.

Definition NewBinaryComparator (comparable : option ByteArrayComparable) : BinaryComparator := mkBinaryComparator comparable.
Definition BinaryComparator_ConstructPBComparator (c : BinaryComparator) : outcome error Comparator :=
  named_comparator "BinaryComparator" (M_BinaryComparator c).

Definition NewLongComparator (comparable : option ByteArrayComparable) : LongComparator := mkLongComparator comparable.
Definition LongComparator_ConstructPBComparator (c : LongComparator) : outcome error Comparator :=
  named_comparator "LongComparator" (M_LongComparator c).

Definition NewBinaryPrefixComparator (comparable : option ByteArrayComparable) : BinaryPrefixComparator := mkBinaryPrefixComparator comparable.
Definition BinaryPrefixComparator_ConstructPBComparator (c : BinaryPrefixComparator) : outcome error Comparator :=
  named_comparator "BinaryPrefixComparator" (M_BinaryPrefixComparator c).

Definition NewBitComparator (bitwiseOp : Z) (comparable : option ByteArrayComparable) : BitComparator :=
  mkBitComparator comparable (Some bitwiseOp).
Definition BitComparator_ConstructPBComparator (c : BitComparator) : outcome error Comparator :=
  match BitComparator_BitwiseOp c with
  | None => Panic
  | Some op =>
      if negb (BitwiseOp_isValid op) then Err "Invalid bitwise operator specified"
      else named_comparator "BitComparator" (M_BitComparator c)
  end.

Definition NewNullComparator : NullComparator := mkNullComparator.
Definition NullComparator_ConstructPBComparator (c : NullComparator) : outcome error Comparator :=
  named_comparator "NullComparator" (M_NullComparator mkNullComparator).

Definition NewRegexStringComparator (pattern : string) (patternFlags : Z) (charset engine : string) : RegexStringComparator :=
  mkRegexStringComparator (Some pattern) (Some patternFlags) (Some charset) (Some engine).
Definition RegexStringComparator_ConstructPBComparator (c : RegexStringComparator) : outcome error Comparator :=
  named_comparator "RegexStringComparator" (M_RegexStringComparator c).

Definition NewSubstringComparator (substr : string) : SubstringComparator := mkSubstringComparator (Some substr).
Definition SubstringComparator_ConstructPBComparator (c : SubstringComparator) : outcome error Comparator :=
  named_comparator "SubstringComparator" (M_SubstringComparator c).

(** The interface [Comparator]. *)
Definition ConstructPBComparator (c : comparator) : outcome error Comparator :=
  match c with
  | C_BinaryComparator c => BinaryComparator_ConstructPBComparator c
  | C_LongComparator c => LongComparator_ConstructPBComparator c
  | C_BinaryPrefixComparator c => BinaryPrefixComparator_ConstructPBComparator c
  | C_BitComparator c => BitComparator_ConstructPBComparator c
  | C_NullComparator c => NullComparator_ConstructPBComparator c
  | C_RegexStringComparator c => RegexStringComparator_ConstructPBComparator c
  | C_SubstringComparator c => SubstringComparator_ConstructPBComparator c
  end.

(** ** Filters *)

Definition NewBytesBytesPair (first second : option bytes) : BytesBytesPair := mkBytesBytesPair first second.

Definition NewColumnCountGetFilter (limit : Z) : ColumnCountGetFilter := mkColumnCountGetFilter (Some limit).
Definition ColumnCountGetFilter_ConstructPBFilter (f : ColumnCountGetFilter) : outcome error Filter :=
  named_filter "ColumnCountGetFilter" (M_ColumnCountGetFilter f).

Definition NewColumnPaginationFilter (limit offset : Z) (columnOffset : option bytes) : ColumnPaginationFilter :=
  mkColumnPaginationFilter (Some limit) (Some offset) columnOffset.
Definition ColumnPaginationFilter_ConstructPBFilter (f : ColumnPaginationFilter) : outcome error Filter :=
  named_filter "ColumnPaginationFilter" (M_ColumnPaginationFilter f).

Definition NewColumnPrefixFilter (prefix : option bytes) : ColumnPrefixFilter := mkColumnPrefixFilter prefix.
Definition ColumnPrefixFilter_ConstructPBFilter (f : ColumnPrefixFilter) : outcome error Filter :=
  named_filter "ColumnPrefixFilter" (M_ColumnPrefixFilter f).

Definition NewColumnRangeFilter (minColumn maxColumn : option bytes) (minColumnInclusive maxColumnInclusive : bool) : ColumnRangeFilter :=
  mkColumnRangeFilter minColumn (Some minColumnInclusive) maxColumn (Some maxColumnInclusive).
Definition ColumnRangeFilter_ConstructPBFilter (f : ColumnRangeFilter) : outcome error Filter :=
  named_filter "ColumnRangeFilter" (M_ColumnRangeFilter f).

Definition NewCompareFilter (compareOp : Z) (comparatorObj : comparator) : outcome error CompareFilter :=
  let* obj := or_panic (ConstructPBComparator comparatorObj) in
  Ok (mkCompareFilter (Some compareOp) (Some obj)).
Definition CompareFilter_ConstructPBFilter (f : CompareFilter) : outcome error Filter :=
  named_filter "CompareFilter" (M_CompareFilter f).

Definition NewDependentColumnFilter (compareFilter : option CompareFilter) (columnFamily columnQualifier : option bytes)
    (dropDependentColumn : bool) : DependentColumnFilter :=
  mkDependentColumnFilter compareFilter columnFamily columnQualifier (Some dropDependentColumn).
Definition DependentColumnFilter_ConstructPBFilter (f : DependentColumnFilter) : outcome error Filter :=
  named_filter "DependentColumnFilter" (M_DependentColumnFilter f).

Definition NewFamilyFilter (compareFilter : option CompareFilter) : FamilyFilter := mkFamilyFilter compareFilter.
Definition FamilyFilter_ConstructPBFilter (f : FamilyFilter) : outcome error Filter :=
  named_filter "FamilyFilter" (M_FamilyFilter f).

Definition List_ConstructPBFilter (f : FilterList) : outcome error Filter :=
  match FL_Operator f with
  | None => Panic
  | Some op =>
      if negb (ListOperator_isValid op) then Err "invalid operator specified"
      else named_filter "FilterList" (M_FilterList f)
  end.

Definition Wrapper_ConstructPBFilter (f : FilterWrapper) : outcome error Filter :=
  named_filter "FilterWrapper" (M_FilterWrapper f).

Definition NewFirstKeyOnlyFilter : FirstKeyOnlyFilter := mkFirstKeyOnlyFilter.
Definition FirstKeyOnlyFilter_ConstructPBFilter (f : FirstKeyOnlyFilter) : outcome error Filter :=
  must_filter "FirstKeyOnlyFilter" (M_FirstKeyOnlyFilter mkFirstKeyOnlyFilter).

Definition NewFirstKeyValueMatchingQualifiersFilter (qualifiers : list bytes) : FirstKeyValueMatchingQualifiersFilter :=
  mkFirstKeyValueMatchingQualifiersFilter qualifiers.
Definition FirstKeyValueMatchingQualifiersFilter_ConstructPBFilter (f : FirstKeyValueMatchingQualifiersFilter) : outcome error Filter :=
  named_filter "FirstKeyValueMatchingQualifiersFilter" (M_FirstKeyValueMatchingQualifiersFilter f).

Definition NewFuzzyRowFilter (pairs : list BytesBytesPair) : FuzzyRowFilter := mkFuzzyRowFilter pairs.
Definition FuzzyRowFilter_ConstructPBFilter (f : FuzzyRowFilter) : outcome error Filter :=
  named_filter "FuzzyRowFilter" (M_FuzzyRowFilter f).

Definition NewInclusiveStopFilter (stopRowKey : option bytes) : InclusiveStopFilter :=
  mkInclusiveStopFilter stopRowKey.
Definition InclusiveStopFilter_ConstructPBFilter (f : InclusiveStopFilter) : outcome error Filter :=
  named_filter "InclusiveStopFilter" (M_InclusiveStopFilter f).

Definition NewKeyOnlyFilter (lenAsVal : bool) : KeyOnlyFilter := mkKeyOnlyFilter (Some lenAsVal).
Definition KeyOnlyFilter_ConstructPBFilter (f : KeyOnlyFilter) : outcome error Filter :=
  named_filter "KeyOnlyFilter" (M_KeyOnlyFilter f).

Definition NewMultipleColumnPrefixFilter (sortedPrefixes : list bytes) : MultipleColumnPrefixFilter :=
  mkMultipleColumnPrefixFilter sortedPrefixes.
Definition MultipleColumnPrefixFilter_ConstructPBFilter (f : MultipleColumnPrefixFilter) : outcome error Filter :=
  named_filter "MultipleColumnPrefixFilter" (M_MultipleColumnPrefixFilter f).

Definition NewPageFilter (pageSize : Z) : PageFilter := mkPageFilter (Some pageSize).
Definition PageFilter_ConstructPBFilter (f : PageFilter) : outcome error Filter :=
  named_filter "PageFilter" (M_PageFilter f).

Definition NewPrefixFilter (prefix : option bytes) : PrefixFilter := mkPrefixFilter prefix.
Definition PrefixFilter_ConstructPBFilter (f : PrefixFilter) : outcome error Filter :=
  named_filter "PrefixFilter" (M_PrefixFilter f).

Definition NewQualifierFilter (compareFilter : option CompareFilter) : QualifierFilter :=
  mkQualifierFilter compareFilter.
Definition QualifierFilter_ConstructPBFilter (f : QualifierFilter) : outcome error Filter :=
  named_filter "QualifierFilter" (M_QualifierFilter f).

Definition NewRandomRowFilter (chance : Z) : RandomRowFilter := mkRandomRowFilter (Some chance).
Definition RandomRowFilter_ConstructPBFilter (f : RandomRowFilter) : outcome error Filter :=
  named_filter "RandomRowFilter" (M_RandomRowFilter f).

Definition NewRowFilter (compareFilter : option CompareFilter) : RowFilter := mkRowFilter compareFilter.
Definition RowFilter_ConstructPBFilter (f : RowFilter) : outcome error Filter :=
  named_filter "RowFilter" (M_RowFilter f).

Definition NewSingleColumnValueFilter (columnFamily columnQualifier : option bytes) (compareOp : Z)
    (comparatorObj : comparator) (filterIfMissing latestVersionOnly : bool) : outcome error SingleColumnValueFilter :=
  let* obj := or_panic (ConstructPBComparator comparatorObj) in
  Ok (mkSingleColumnValueFilter columnFamily columnQualifier (Some compareOp) (Some obj)
        (Some filterIfMissing) (Some latestVersionOnly)).
Definition SingleColumnValueFilter_ConstructPB (f : SingleColumnValueFilter) : outcome error SingleColumnValueFilter :=
  match SCVF_CompareOp f with
  | None => Panic
  | Some op => if negb (CompareType_isValid op) then Err "invalid compare operation specified" else Ok f
  end.
Definition SingleColumnValueFilter_ConstructPBFilter (f : SingleColumnValueFilter) : outcome error Filter :=
  named_filter "SingleColumnValueFilter" (M_SingleColumnValueFilter f).

Definition NewSingleColumnValueExcludeFilter (filter : option SingleColumnValueFilter) : SingleColumnValueExcludeFilter :=
  mkSingleColumnValueExcludeFilter filter.
Definition SingleColumnValueExcludeFilter_ConstructPBFilter (f : SingleColumnValueExcludeFilter) : outcome error Filter :=
  named_filter "SingleColumnValueExcludeFilter" (M_SingleColumnValueExcludeFilter f).

Definition SkipFilter_ConstructPBFilter (f : SkipFilter) : outcome error Filter :=
  named_filter "SkipFilter" (M_SkipFilter f).

Definition NewTimestampsFilter (timestamps : list Z) : TimestampsFilter := mkTimestampsFilter timestamps None.
Definition TimestampsFilter_ConstructPBFilter (f : TimestampsFilter) : outcome error Filter :=
  named_filter "TimestampsFilter" (M_TimestampsFilter f).

Definition NewValueFilter (compareFilter : option CompareFilter) : ValueFilter := mkValueFilter compareFilter.
Definition ValueFilter_ConstructPBFilter (f : ValueFilter) : outcome error Filter :=
  named_filter "ValueFilter" (M_ValueFilter f).

Definition WhileMatchFilter_ConstructPBFilter (f : WhileMatchFilter) : outcome error Filter :=
  named_filter "WhileMatchFilter" (M_WhileMatchFilter f).

Definition NewAllFilter : FilterAllFilter := mkFilterAllFilter.
Definition AllFilter_ConstructPBFilter (f : FilterAllFilter) : outcome error Filter :=
  must_filter "FilterAllFilter" (M_FilterAllFilter mkFilterAllFilter).

Definition NewRowRange (startRow stopRow : option bytes) (startRowInclusive stopRowInclusive : bool) : RowRange :=
  mkRowRange startRow (Some startRowInclusive) stopRow (Some stopRowInclusive).
Definition RowRange_ConstructPBFilter (f : RowRange) : outcome error Filter :=
  named_filter "RowRange" (M_RowRange f).

Definition NewMultiRowRangeFilter (rowRangeList : list RowRange) : MultiRowRangeFilter :=
  mkMultiRowRangeFilter rowRangeList.
Definition MultiRowRangeFilter_ConstructPBFilter (f : MultiRowRangeFilter) : outcome error Filter :=
  named_filter "MultiRowRangeFilter" (M_MultiRowRangeFilter f).

(** The interface [Filter]. *)
Definition ConstructPBFilter (f : filter) : outcome error Filter :=
  match f with
  | F_ColumnCountGetFilter f => ColumnCountGetFilter_ConstructPBFilter f
  | F_ColumnPaginationFilter f => ColumnPaginationFilter_ConstructPBFilter f
  | F_ColumnPrefixFilter f => ColumnPrefixFilter_ConstructPBFilter f
  | F_ColumnRangeFilter f => ColumnRangeFilter_ConstructPBFilter f
  | F_CompareFilter f => CompareFilter_ConstructPBFilter f
  | F_DependentColumnFilter f => DependentColumnFilter_ConstructPBFilter f
  | F_FamilyFilter f => FamilyFilter_ConstructPBFilter f
  | F_List f => List_ConstructPBFilter f
  | F_Wrapper f => Wrapper_ConstructPBFilter f
  | F_FirstKeyOnlyFilter f => FirstKeyOnlyFilter_ConstructPBFilter f
  | F_FirstKeyValueMatchingQualifiersFilter f => FirstKeyValueMatchingQualifiersFilter_ConstructPBFilter f
  | F_FuzzyRowFilter f => FuzzyRowFilter_ConstructPBFilter f
  | F_InclusiveStopFilter f => InclusiveStopFilter_ConstructPBFilter f
  | F_KeyOnlyFilter f => KeyOnlyFilter_ConstructPBFilter f
  | F_MultipleColumnPrefixFilter f => MultipleColumnPrefixFilter_ConstructPBFilter f
  | F_PageFilter f => PageFilter_ConstructPBFilter f
  | F_PrefixFilter f => PrefixFilter_ConstructPBFilter f
  | F_QualifierFilter f => QualifierFilter_ConstructPBFilter f
  | F_RandomRowFilter f => RandomRowFilter_ConstructPBFilter f
  | F_RowFilter f => RowFilter_ConstructPBFilter f
  | F_SingleColumnValueFilter f => SingleColumnValueFilter_ConstructPBFilter f
  | F_SingleColumnValueExcludeFilter f => SingleColumnValueExcludeFilter_ConstructPBFilter f
  | F_SkipFilter f => SkipFilter_ConstructPBFilter f
  | F_TimestampsFilter f => TimestampsFilter_ConstructPBFilter f
  | F_ValueFilter f => ValueFilter_ConstructPBFilter f
  | F_WhileMatchFilter f => WhileMatchFilter_ConstructPBFilter f
  | F_AllFilter f => AllFilter_ConstructPBFilter f
  | F_RowRange f => RowRange_ConstructPBFilter f
  | F_MultiRowRangeFilter f => MultiRowRangeFilter_ConstructPBFilter f
  end.

(** *** Filters made of filters *)

Fixpoint AddFilters (f : FilterList) (filters : list filter) : outcome error FilterList :=
  match filters with
  | [] => Ok f
  | x :: filters =>
      let* fpb := or_panic (ConstructPBFilter x) in
      AddFilters (mkFilterList (FL_Operator f) (FL_Filters f ++ [fpb])%list) filters
  end.

Definition NewList (operator : Z) (filters : list filter) : outcome error FilterList :=
  AddFilters (mkFilterList (Some operator) []) filters.

Definition NewWrapper (wrappedFilter : filter) : outcome error FilterWrapper :=
  let* f := or_panic (ConstructPBFilter wrappedFilter) in Ok (mkFilterWrapper (Some f)).

Definition NewSkipFilter (skippingFilter : filter) : outcome error SkipFilter :=
  let* f := or_panic (ConstructPBFilter skippingFilter) in Ok (mkSkipFilter (Some f)).

Definition NewWhileMatchFilter (matchingFilter : filter) : outcome error WhileMatchFilter :=
  let* f := or_panic (ConstructPBFilter matchingFilter) in Ok (mkWhileMatchFilter (Some f)).

End Marshal.
