(* ===== verification/FilterProps.v ===== *)
(** * What filters become on the wire

    The reader of a request finds the class of a filter by its name and decodes
    the message of that class.  A filter that can be encoded is read back as it
    was, also when filters are nested to any depth; what cannot be encoded is
    characterised. *)

From S2P Require Import Prelude Pb FilterPb Hrpc Filters.

#[local] Open Scope string_scope.

(** The conversion of a filter to its message, which has the same fields. *)
Definition filter_message (f : filter) : message :=
  match f with
  | F_ColumnCountGetFilter f => M_ColumnCountGetFilter f
  | F_ColumnPaginationFilter f => M_ColumnPaginationFilter f
  | F_ColumnPrefixFilter f => M_ColumnPrefixFilter f
  | F_ColumnRangeFilter f => M_ColumnRangeFilter f
  | F_CompareFilter f => M_CompareFilter f
  | F_DependentColumnFilter f => M_DependentColumnFilter f
  | F_FamilyFilter f => M_FamilyFilter f
  | F_List f => M_FilterList f
  | F_Wrapper f => M_FilterWrapper f
  | F_FirstKeyOnlyFilter f => M_FirstKeyOnlyFilter f
  | F_FirstKeyValueMatchingQualifiersFilter f => M_FirstKeyValueMatchingQualifiersFilter f
  | F_FuzzyRowFilter f => M_FuzzyRowFilter f
  | F_InclusiveStopFilter f => M_InclusiveStopFilter f
  | F_KeyOnlyFilter f => M_KeyOnlyFilter f
  | F_MultipleColumnPrefixFilter f => M_MultipleColumnPrefixFilter f
  | F_PageFilter f => M_PageFilter f
  | F_PrefixFilter f => M_PrefixFilter f
  | F_QualifierFilter f => M_QualifierFilter f
  | F_RandomRowFilter f => M_RandomRowFilter f
  | F_RowFilter f => M_RowFilter f
  | F_SingleColumnValueFilter f => M_SingleColumnValueFilter f
  | F_SingleColumnValueExcludeFilter f => M_SingleColumnValueExcludeFilter f
  | F_SkipFilter f => M_SkipFilter f
  | F_TimestampsFilter f => M_TimestampsFilter f
  | F_ValueFilter f => M_ValueFilter f
  | F_WhileMatchFilter f => M_WhileMatchFilter f
  | F_AllFilter f => M_FilterAllFilter f
  | F_RowRange f => M_RowRange f
  | F_MultiRowRangeFilter f => M_MultiRowRangeFilter f
  end.

Definition filter_of (m : message) : option filter :=
  match m with
  | M_ColumnCountGetFilter f => Some (F_ColumnCountGetFilter f)
  | M_ColumnPaginationFilter f => Some (F_ColumnPaginationFilter f)
  | M_ColumnPrefixFilter f => Some (F_ColumnPrefixFilter f)
  | M_ColumnRangeFilter f => Some (F_ColumnRangeFilter f)
  | M_CompareFilter f => Some (F_CompareFilter f)
  | M_DependentColumnFilter f => Some (F_DependentColumnFilter f)
  | M_FamilyFilter f => Some (F_FamilyFilter f)
  | M_FilterList f => Some (F_List f)
  | M_FilterWrapper f => Some (F_Wrapper f)
  | M_FirstKeyOnlyFilter f => Some (F_FirstKeyOnlyFilter f)
  | M_FirstKeyValueMatchingQualifiersFilter f => Some (F_FirstKeyValueMatchingQualifiersFilter f)
  | M_FuzzyRowFilter f => Some (F_FuzzyRowFilter f)
  | M_InclusiveStopFilter f => Some (F_InclusiveStopFilter f)
  | M_KeyOnlyFilter f => Some (F_KeyOnlyFilter f)
  | M_MultipleColumnPrefixFilter f => Some (F_MultipleColumnPrefixFilter f)
  | M_PageFilter f => Some (F_PageFilter f)
  | M_PrefixFilter f => Some (F_PrefixFilter f)
  | M_QualifierFilter f => Some (F_QualifierFilter f)
  | M_RandomRowFilter f => Some (F_RandomRowFilter f)
  | M_RowFilter f => Some (F_RowFilter f)
  | M_SingleColumnValueFilter f => Some (F_SingleColumnValueFilter f)
  | M_SingleColumnValueExcludeFilter f => Some (F_SingleColumnValueExcludeFilter f)
  | M_SkipFilter f => Some (F_SkipFilter f)
  | M_TimestampsFilter f => Some (F_TimestampsFilter f)
  | M_ValueFilter f => Some (F_ValueFilter f)
  | M_WhileMatchFilter f => Some (F_WhileMatchFilter f)
  | M_FilterAllFilter f => Some (F_AllFilter f)
  | M_RowRange f => Some (F_RowRange f)
  | M_MultiRowRangeFilter f => Some (F_MultiRowRangeFilter f)
  | _ => None
  end.

Definition comparator_message (c : comparator) : message :=
  match c with
  | C_BinaryComparator c => M_BinaryComparator c
  | C_LongComparator c => M_LongComparator c
  | C_BinaryPrefixComparator c => M_BinaryPrefixComparator c
  | C_BitComparator c => M_BitComparator c
  | C_NullComparator c => M_NullComparator c
  | C_RegexStringComparator c => M_RegexStringComparator c
  | C_SubstringComparator c => M_SubstringComparator c
  end.

Definition comparator_of (m : message) : option comparator :=
  match m with
  | M_BinaryComparator c => Some (C_BinaryComparator c)
  | M_LongComparator c => Some (C_LongComparator c)
  | M_BinaryPrefixComparator c => Some (C_BinaryPrefixComparator c)
  | M_BitComparator c => Some (C_BitComparator c)
  | M_NullComparator c => Some (C_NullComparator c)
  | M_RegexStringComparator c => Some (C_RegexStringComparator c)
  | M_SubstringComparator c => Some (C_SubstringComparator c)
  | _ => None
  end.

Fixpoint strip (prefix b : bytes) : option bytes :=
  match prefix, b with
  | [], _ => Some b
  | x :: prefix, y :: b => if bool_decide (x = y) then strip prefix b else None
  | _ :: _, [] => None
  end.

Lemma strip_app prefix b : strip prefix (prefix ++ b)%list = Some b.
Proof. induction prefix as [|x prefix IH]; simpl; [done|]. by rewrite bool_decide_eq_true_2. Qed.

(** The operators that are checked. *)
Definition filter_operator_ok (f : filter) : bool :=
  match f with
  | F_List f => match FL_Operator f with Some op => ListOperator_isValid op | None => false end
  | _ => true
  end.

Definition comparator_operator_ok (c : comparator) : bool :=
  match c with
  | C_BitComparator c => match BitComparator_BitwiseOp c with Some op => BitwiseOp_isValid op | None => false end
  | _ => true
  end.

Definition encodable (f : filter) : bool := filter_operator_ok f && initialized (filter_message f).
Definition encodable_comparator (c : comparator) : bool := comparator_operator_ok c && initialized (comparator_message c).

Lemma bs_app s t : bs (s ++ t) = (bs s ++ bs t)%list.
Proof.
  induction s as [|c s IH]; [done|]. change (bs (String c s ++ t)) with (Ascii.byte_of_ascii c :: bs (s ++ t)). by rewrite IH.
Qed.

(** ** Nested filters

    A tree of filters, as a user composes it. *)

Inductive ftree :=
| TLeaf (f : filter)
| TList (operator : Z) (ts : list ftree)
| TWrapper (t : ftree)
| TSkip (t : ftree)
| TWhileMatch (t : ftree).

Section ftree_ind.
Variable Q : ftree -> Prop.
Hypothesis Hleaf : forall f, Q (TLeaf f).
Hypothesis Hlist : forall op ts, Forall Q ts -> Q (TList op ts).
Hypothesis Hwrap : forall t, Q t -> Q (TWrapper t).
Hypothesis Hskip : forall t, Q t -> Q (TSkip t).
Hypothesis Hwhile : forall t, Q t -> Q (TWhileMatch t).

Fixpoint ftree_nested_ind (t : ftree) : Q t :=
  match t with
  | TLeaf f => Hleaf f
  | TList op ts => Hlist op ts ((fix go ts : Forall Q ts :=
      match ts with [] => List.Forall_nil Q | t :: ts => List.Forall_cons Q t ts (ftree_nested_ind t) (go ts) end) ts)
  | TWrapper t => Hwrap t (ftree_nested_ind t)
  | TSkip t => Hskip t (ftree_nested_ind t)
  | TWhileMatch t => Hwhile t (ftree_nested_ind t)
  end.
End ftree_ind.

Definition is_leaf (f : filter) : bool :=
  match f with F_List _ | F_Wrapper _ | F_SkipFilter _ | F_WhileMatchFilter _ => false | _ => true end.

Fixpoint tree_leaves (t : ftree) : bool :=
  match t with
  | TLeaf f => is_leaf f
  | TList _ ts => forallb tree_leaves ts
  | TWrapper t | TSkip t | TWhileMatch t => tree_leaves t
  end.

(** Leaves can be encoded and lists have a valid operator. *)
Fixpoint tree_ok (t : ftree) : bool :=
  match t with
  | TLeaf f => encodable f
  | TList op ts => ListOperator_isValid op && forallb tree_ok ts
  | TWrapper t | TSkip t | TWhileMatch t => tree_ok t
  end.

Fixpoint depth (t : ftree) : nat :=
  match t with
  | TLeaf _ => 1
  | TList _ ts => S (foldr (fun t n => Nat.max (depth t) n) 0%nat ts)
  | TWrapper t | TSkip t | TWhileMatch t => S (depth t)
  end.

Section Props.
Context {P : Marshaling} {HP : MarshalingSpec P}.

(** What the reader of a message does. *)
Definition decode_filter (p : Filter) : option filter :=
  n ← strip (bs filterPath) (Filter_Name p);
  m ← Unmarshal (String.string_of_list_byte n) (SerializedFilter p);
  filter_of m.

Definition decode_comparator (p : Comparator) : option comparator :=
  n ← strip (bs comparatorPath) (Comparator_Name p);
  m ← Unmarshal (String.string_of_list_byte n) (SerializedComparator p);
  comparator_of m.

Lemma named_filter_ok m :
  initialized m = true -> exists p, named_filter (message_name m) m = Ok p /\ must_filter (message_name m) m = Ok p /\
  decode_filter p = filter_of m.
Proof.
  intros [b Hb]%Marshal_initialized. unfold named_filter, must_filter. rewrite Hb. eexists. split_and!; [done..|].
  unfold decode_filter. cbn [Filter_Name SerializedFilter]. rewrite bs_app, strip_app. csimpl. unfold bs.
  rewrite String.string_of_list_byte_of_string, (Unmarshal_Marshal _ _ Hb). done.
Qed.

Lemma named_filter_err n m : initialized m = false -> exists e, named_filter n m = Err e.
Proof.
  intros Hi. unfold named_filter. destruct (Marshal m) eqn:E; [|eauto].
  assert (initialized m = true) by (apply Marshal_initialized; eauto). congruence.
Qed.

Lemma named_comparator_ok m :
  initialized m = true -> exists p, named_comparator (message_name m) m = Ok p /\ decode_comparator p = comparator_of m.
Proof.
  intros [b Hb]%Marshal_initialized. unfold named_comparator. rewrite Hb. eexists. split; [done|].
  unfold decode_comparator. cbn [Comparator_Name SerializedComparator]. rewrite bs_app, strip_app. csimpl. unfold bs.
  rewrite String.string_of_list_byte_of_string, (Unmarshal_Marshal _ _ Hb). done.
Qed.

Lemma named_comparator_err n m : initialized m = false -> exists e, named_comparator n m = Err e.
Proof.
  intros Hi. unfold named_comparator. destruct (Marshal m) eqn:E; [|eauto].
  assert (initialized m = true) by (apply Marshal_initialized; eauto). congruence.
Qed.

(** A filter that is not encodable gives an error, or a crash for a list without an operator. *)
Lemma ConstructPBFilter_encodable f :
  if encodable f then exists p, ConstructPBFilter f = Ok p /\ decode_filter p = Some f
  else (exists e, ConstructPBFilter f = Err e) \/ (exists l, f = F_List l /\ FL_Operator l = None /\ ConstructPBFilter f = Panic).
Proof.
  unfold encodable. destruct (filter_operator_ok f) eqn:Hop; cbn [andb].
  - destruct (initialized (filter_message f)) eqn:Hi.
    + destruct (named_filter_ok _ Hi) as (p & Hn & Hm & Hd). exists p.
      split; [|by destruct f].
      destruct f as [| | | | | | |l| |[]| | | | | | | | | | | | | | | | |[]| |]; try exact Hn; try exact Hm.
      simpl in Hop |- *. unfold List_ConstructPBFilter. destruct (FL_Operator l); [|done]. by rewrite Hop.
    + left. destruct f as [| | | | | | |l| |[]| | | | | | | | | | | | | | | | |[]| |]; try (by apply named_filter_err); try done.
      simpl in Hop |- *. unfold List_ConstructPBFilter. destruct (FL_Operator l); [|done]. rewrite Hop. by apply named_filter_err.
  - destruct f as [| | | | | | |l| | | | | | | | | | | | | | | | | | | | |]; try done. simpl in Hop |- *. unfold List_ConstructPBFilter.
    destruct (FL_Operator l) as [op|] eqn:Hl; [|right; by exists l]. left. rewrite Hop. by eexists.
Qed.

(** The same for comparators: a bit comparator without an operator crashes. *)
Lemma ConstructPBComparator_encodable c :
  if encodable_comparator c then exists p, ConstructPBComparator c = Ok p /\ decode_comparator p = Some c
  else (exists e, ConstructPBComparator c = Err e) \/
       (exists b, c = C_BitComparator b /\ BitComparator_BitwiseOp b = None /\ ConstructPBComparator c = Panic).
Proof.
  unfold encodable_comparator. destruct (comparator_operator_ok c) eqn:Hop; cbn [andb].
  - destruct (initialized (comparator_message c)) eqn:Hi.
    + destruct (named_comparator_ok _ Hi) as (p & Hn & Hd). exists p. split; [|by destruct c].
      destruct c as [| | |b|[]| |]; try exact Hn.
      simpl in Hop |- *. unfold BitComparator_ConstructPBComparator. destruct (BitComparator_BitwiseOp b); [|done]. by rewrite Hop.
    + left. destruct c as [| | |b|[]| |]; try (by apply named_comparator_err); try done.
      simpl in Hop |- *. unfold BitComparator_ConstructPBComparator. destruct (BitComparator_BitwiseOp b); [|done].
      rewrite Hop. by apply named_comparator_err.
  - destruct c as [| | |b| | |]; try done. simpl in Hop |- *. unfold BitComparator_ConstructPBComparator.
    destruct (BitComparator_BitwiseOp b) as [op|] eqn:Hl; [|right; by exists b]. left. rewrite Hop. by eexists.
Qed.

(** The filter that a user gets by composing the constructors. *)
Fixpoint build (t : ftree) : outcome error filter :=
  match t with
  | TLeaf f => Ok f
  | TList op ts =>
      let* fs := (fix go ts := match ts with
                               | [] => Ok []
                               | t :: ts => let* f := build t in let* fs := go ts in Ok (f :: fs)
                               end) ts in
      let* l := NewList op fs in Ok (F_List l)
  | TWrapper t => let* f := build t in let* x := NewWrapper f in Ok (F_Wrapper x)
  | TSkip t => let* f := build t in let* x := NewSkipFilter f in Ok (F_SkipFilter x)
  | TWhileMatch t => let* f := build t in let* x := NewWhileMatchFilter f in Ok (F_WhileMatchFilter x)
  end.

Fixpoint build_all (ts : list ftree) : outcome error (list filter) :=
  match ts with
  | [] => Ok []
  | t :: ts => let* f := build t in let* fs := build_all ts in Ok (f :: fs)
  end.

Lemma build_list op ts : build (TList op ts) = let* fs := build_all ts in let* l := NewList op fs in Ok (F_List l).
Proof. done. Qed.

(** Build and encode. *)
Definition construct (t : ftree) : outcome error Filter := let* f := build t in ConstructPBFilter f.

(** Decode, filters in filters included. *)
Fixpoint decode_tree (n : nat) (p : Filter) : option ftree :=
  match n with
  | O => None
  | S n =>
      f ← decode_filter p;
      match f with
      | F_List l => op ← FL_Operator l; ts ← mapM (decode_tree n) (FL_Filters l); Some (TList op ts)
      | F_Wrapper x => q ← FW_Filter x; t ← decode_tree n q; Some (TWrapper t)
      | F_SkipFilter x => q ← SF_Filter x; t ← decode_tree n q; Some (TSkip t)
      | F_WhileMatchFilter x => q ← WMF_Filter x; t ← decode_tree n q; Some (TWhileMatch t)
      | f => Some (TLeaf f)
      end
  end.

(** The filters of a list are encoded in order. *)
Lemma AddFilters_spec fs l l' :
  AddFilters l fs = Ok l' <-> exists ps, Forall2 (fun f p => ConstructPBFilter f = Ok p) fs ps /\
    l' = mkFilterList (FL_Operator l) (FL_Filters l ++ ps)%list.
Proof.
  revert l. induction fs as [|f fs IH]; intros l; simpl.
  - split; [intros [= <-]|intros (ps & ->%Forall2_nil_inv_l & ->)]; [exists []; split; [done|]|];
      rewrite app_nil_r; by destruct l.
  - destruct (ConstructPBFilter f) as [p| |] eqn:Hf; simpl.
    + rewrite IH. cbn [FL_Operator FL_Filters]. split.
      * intros (ps & Hps & ->). exists (p :: ps). rewrite <- app_assoc. by split; [constructor|].
      * intros (ps & Hps & ->). apply Forall2_cons_inv_l in Hps as (p' & ps' & Hp & Hps & ->).
        exists ps'. rewrite <- app_assoc. simpl. split; [done|]. congruence.
    + split; [done|]. intros (ps & (p & ps' & Hp & _)%Forall2_cons_inv_l & _). congruence.
    + split; [done|]. intros (ps & (p & ps' & Hp & _)%Forall2_cons_inv_l & _). congruence.
Qed.

Lemma build_all_Ok ts fs : build_all ts = Ok fs <-> Forall2 (fun t f => build t = Ok f) ts fs.
Proof.
  revert fs. induction ts as [|t ts IH]; intros fs; simpl.
  - split; [intros [= <-]; constructor|by intros ->%Forall2_nil_inv_l].
  - split.
    + intros H. destruct (build t) as [f| |] eqn:Ht; [|done..]. destruct (build_all ts) as [fs'| |] eqn:Hts; [|done..].
      injection H as <-. constructor; [done|]. by apply IH.
    + intros (f & fs' & Hf & Hfs & ->)%Forall2_cons_inv_l. rewrite Hf. simpl. by rewrite (proj2 (IH fs') Hfs).
Qed.

Definition reads_back (t : ftree) : Prop :=
  exists f p, build t = Ok f /\ ConstructPBFilter f = Ok p /\ forall n, (depth t <= n)%nat -> decode_tree n p = Some t.

Lemma list_reads_back op ts : ListOperator_isValid op = true -> Forall reads_back ts -> reads_back (TList op ts).
Proof.
  intros Hop Hts.
  assert (exists fs ps, build_all ts = Ok fs /\ Forall2 (fun f p => ConstructPBFilter f = Ok p) fs ps /\
    Forall2 (fun t p => forall n, (depth t <= n)%nat -> decode_tree n p = Some t) ts ps) as (fs & ps & Hb & Hps & Hd).
  { induction Hts as [|t ts (f & p & Hf & Hp & Hn) _ (fs & ps & Hb & Hps & Hd)]; [by exists [], []|].
    exists (f :: fs), (p :: ps). simpl. rewrite Hf. simpl. rewrite Hb. by split_and!; [|constructor|constructor]. }
  set (l := mkFilterList (Some op) ps).
  assert (NewList op fs = Ok l) as Hl by (apply AddFilters_spec; by exists ps).
  pose proof (ConstructPBFilter_encodable (F_List l)) as He.
  rewrite (eq_refl : encodable (F_List l) = ListOperator_isValid op && true), Hop in He.
  destruct He as (p & Hp & Hdec). exists (F_List l), p. split_and!; [rewrite build_list, Hb; simpl; by rewrite Hl|exact Hp|].
  intros n Hn. destruct n as [|n]; [simpl in Hn; lia|]. cbn [decode_tree]. rewrite Hdec. csimpl.
  match goal with |- ?m ≫= _ = _ => assert (m = Some ts) as -> end; [|done]. apply mapM_Some_2. simpl in Hn. clear -Hd Hn.
  induction Hd as [|t p ts ps Ht Hd IH]; [constructor|]. simpl in Hn. constructor; [apply Ht; lia|]. apply IH. lia.
Qed.

(** One filter in another: the three wrapping filters. *)
Lemma wrapped_reads_back t t' (wrap : Filter -> filter) :
  reads_back t -> (forall p, encodable (wrap p) = true) ->
  (forall f p, build t = Ok f -> ConstructPBFilter f = Ok p -> build t' = Ok (wrap p)) ->
  depth t' = S (depth t) ->
  (forall n p q, decode_filter p = Some (wrap q) -> decode_tree n q = Some t -> decode_tree (S n) p = Some t') ->
  reads_back t'.
Proof.
  intros (f & p & Hf & Hp & Hn) He Hb Hdep Hdec. pose proof (ConstructPBFilter_encodable (wrap p)) as Hc. rewrite He in Hc.
  destruct Hc as (p' & Hp' & Hd). exists (wrap p), p'. split_and!; [by eapply Hb|done|].
  intros n Hl. destruct n as [|n]; [lia|]. apply (Hdec n p' p Hd). apply Hn. lia.
Qed.

Lemma tree_reads_back t : tree_leaves t = true -> tree_ok t = true -> reads_back t.
Proof.
  induction t as [f|op ts IH|t IH|t IH|t IH] using ftree_nested_ind; simpl; intros Hleaf Hok.
  - pose proof (ConstructPBFilter_encodable f) as Hc. rewrite Hok in Hc. destruct Hc as (p & Hp & Hd). exists f, p.
    split_and!; [done..|]. intros n Hn. destruct n as [|n]; [simpl in Hn; lia|]. cbn [decode_tree]. rewrite Hd. csimpl.
    by destruct f.
  - apply andb_true_iff in Hok as [Hop Hok]. apply list_reads_back; [done|]. apply Forall_forall. intros t Ht.
    apply list_elem_of_In in Ht. rewrite forallb_forall in Hleaf, Hok. rewrite Forall_forall in IH.
    apply IH; [by apply list_elem_of_In|by apply Hleaf|by apply Hok].
  - apply (wrapped_reads_back t _ (fun p => F_Wrapper (mkFilterWrapper (Some p)))); [by apply IH|done| |done|].
    + intros f p Hf Hp. simpl. rewrite Hf. simpl. unfold NewWrapper. by rewrite Hp.
    + intros n p q Hd Hq. cbn [decode_tree]. rewrite Hd. csimpl. by rewrite Hq.
  - apply (wrapped_reads_back t _ (fun p => F_SkipFilter (mkSkipFilter (Some p)))); [by apply IH|done| |done|].
    + intros f p Hf Hp. simpl. rewrite Hf. simpl. unfold NewSkipFilter. by rewrite Hp.
    + intros n p q Hd Hq. cbn [decode_tree]. rewrite Hd. csimpl. by rewrite Hq.
  - apply (wrapped_reads_back t _ (fun p => F_WhileMatchFilter (mkWhileMatchFilter (Some p)))); [by apply IH|done| |done|].
    + intros f p Hf Hp. simpl. rewrite Hf. simpl. unfold NewWhileMatchFilter. by rewrite Hp.
    + intros n p q Hd Hq. cbn [decode_tree]. rewrite Hd. csimpl. by rewrite Hq.
Qed.

Lemma ConstructPBFilter_Ok f p : ConstructPBFilter f = Ok p -> encodable f = true.
Proof.
  intros H. pose proof (ConstructPBFilter_encodable f) as He. destruct (encodable f); [done|].
  destruct He as [[e ?]|(l & _ & _ & ?)]; congruence.
Qed.

Lemma construct_Ok_tree_ok t p : construct t = Ok p -> tree_ok t = true.
Proof.
  revert p. induction t as [f|op ts IH|t IH|t IH|t IH] using ftree_nested_ind; unfold construct; intros p H.
  - by apply ConstructPBFilter_Ok in H.
  - rewrite build_list in H. destruct (build_all ts) as [fs| |] eqn:Hb; [|done..]. simpl in H.
    destruct (NewList op fs) as [l| |] eqn:Hl; [|done..]. simpl in H.
    apply AddFilters_spec in Hl as (ps & Hps & ->). simpl. apply andb_true_iff. split.
    + apply (ConstructPBFilter_Ok (F_List _)) in H. unfold encodable in H. simpl in H. by destruct (ListOperator_isValid op).
    + apply build_all_Ok in Hb. clear H. revert ps Hps. induction Hb as [|t f ts fs Hf Hb IHb]; intros ps Hps; [done|].
      apply Forall2_cons_inv_l in Hps as (p' & ps' & Hp & Hps & _). apply Forall_cons in IH as [Ht IH]. simpl.
      rewrite (Ht p'); [by eapply IHb|]. unfold construct. by rewrite Hf.
  - simpl in H. destruct (build t) as [f| |] eqn:Hf; [|done..]. simpl in H. unfold NewWrapper in H.
    destruct (ConstructPBFilter f) as [q| |] eqn:Hq; [|done..]. apply (IH q). unfold construct. by rewrite Hf.
  - simpl in H. destruct (build t) as [f| |] eqn:Hf; [|done..]. simpl in H. unfold NewSkipFilter in H.
    destruct (ConstructPBFilter f) as [q| |] eqn:Hq; [|done..]. apply (IH q). unfold construct. by rewrite Hf.
  - simpl in H. destruct (build t) as [f| |] eqn:Hf; [|done..]. simpl in H. unfold NewWhileMatchFilter in H.
    destruct (ConstructPBFilter f) as [q| |] eqn:Hq; [|done..]. apply (IH q). unfold construct. by rewrite Hf.
Qed.

(** C19. A filter composed of filters to any depth is encoded exactly when its
    leaves have their required fields and its lists a valid operator, and what
    is sent is decoded, class by class, to the filter that was composed.  What
    cannot be encoded is not sent in part: composing or encoding it fails. *)
Theorem filter_tree_roundtrip t :
  tree_leaves t = true ->
  if tree_ok t
  then exists p, construct t = Ok p /\ forall n, (depth t <= n)%nat -> decode_tree n p = Some t
  else forall p, construct t <> Ok p.
Proof.
  intros Hl. destruct (tree_ok t) eqn:Hok.
  - destruct (tree_reads_back t Hl Hok) as (f & p & Hf & Hp & Hn). exists p. split; [|done]. unfold construct. by rewrite Hf.
  - intros p Hp. apply construct_Ok_tree_ok in Hp. congruence.
Qed.

(** A comparator is encoded exactly when its required fields are set and its
    operator is valid, and the filters made with it carry the encoding, from
    which the comparator is decoded as it was; else the constructor of the
    filter panics. *)
Theorem compare_filters_carry_comparator family qualifier op c missing latest :
  if encodable_comparator c
  then exists p, decode_comparator p = Some c /\
    NewCompareFilter op c = Ok (mkCompareFilter (Some op) (Some p)) /\
    NewSingleColumnValueFilter family qualifier op c missing latest =
      Ok (mkSingleColumnValueFilter family qualifier (Some op) (Some p) (Some missing) (Some latest))
  else NewCompareFilter op c = Panic /\ NewSingleColumnValueFilter family qualifier op c missing latest = Panic.
Proof.
  unfold NewCompareFilter, NewSingleColumnValueFilter. pose proof (ConstructPBComparator_encodable c) as H.
  destruct (encodable_comparator c).
  - destruct H as (p & -> & Hd). by exists p.
  - by destruct H as [[e ->]|(b & -> & _ & ->)].
Qed.

(** The compare operation of a [SingleColumnValueFilter] is checked by
    [ConstructPB] and not by [ConstructPBFilter], which is what requests use:
    a filter with an operation that does not exist is encoded. *)
Theorem invalid_compare_operation_encoded family qualifier op c missing latest :
  encodable_comparator c = true -> CompareType_isValid op = false ->
  exists f p, NewSingleColumnValueFilter family qualifier op c missing latest = Ok f /\
    SingleColumnValueFilter_ConstructPB f = Err "invalid compare operation specified" /\
    ConstructPBFilter (F_SingleColumnValueFilter f) = Ok p.
Proof.
  intros Hc Hop. pose proof (ConstructPBComparator_encodable c) as H. rewrite Hc in H. destruct H as (pc & Hpc & _).
  eexists. pose proof (ConstructPBFilter_encodable (F_SingleColumnValueFilter
    (mkSingleColumnValueFilter family qualifier (Some op) (Some pc) (Some missing) (Some latest)))) as (p & Hp & _).
  exists p. split_and!; [unfold NewSingleColumnValueFilter; by rewrite Hpc| |exact Hp].
  unfold SingleColumnValueFilter_ConstructPB. simpl. by rewrite Hop.
Qed.

End Props.
