(* ===== verification/FilterSample.v ===== *)
(** * A concrete encoding of filter messages

    The hypotheses on the protobuf runtime can be met: an encoding of every
    message whose required fields are set, with its inverse. *)

From S2P Require Import Prelude Pb FilterPb Hrpc Filters FilterProps.

#[local] Open Scope string_scope.

Ltac countable_record := let r := fresh in intros r; by destruct r.

#[global] Instance Filter_eq_dec : EqDecision Filter.
Proof. solve_decision. Defined.
#[global] Instance Filter_countable : Countable Filter :=
  inj_countable' (fun r => (Filter_Name r, SerializedFilter r)) (fun '(x0, x1) => mkFilter x0 x1) ltac:(countable_record).
#[global] Instance Comparator_eq_dec : EqDecision Comparator.
Proof. solve_decision. Defined.
#[global] Instance Comparator_countable : Countable Comparator :=
  inj_countable' (fun r => (Comparator_Name r, SerializedComparator r)) (fun '(x0, x1) => mkComparator x0 x1) ltac:(countable_record).
#[global] Instance BytesBytesPair_eq_dec : EqDecision BytesBytesPair.
Proof. solve_decision. Defined.
#[global] Instance BytesBytesPair_countable : Countable BytesBytesPair :=
  inj_countable' (fun r => (BBP_First r, BBP_Second r))
    (fun '(x0, x1) => mkBytesBytesPair x0 x1) ltac:(countable_record).
#[global] Instance ByteArrayComparable_eq_dec : EqDecision ByteArrayComparable.
Proof. solve_decision. Defined.
#[global] Instance ByteArrayComparable_countable : Countable ByteArrayComparable :=
  inj_countable' (fun r => BAC_Value r)
    (fun x0 => mkByteArrayComparable x0) ltac:(countable_record).
#[global] Instance BinaryComparator_eq_dec : EqDecision BinaryComparator.
Proof. solve_decision. Defined.
#[global] Instance BinaryComparator_countable : Countable BinaryComparator :=
  inj_countable' (fun r => BinaryComparator_Comparable r)
    (fun x0 => mkBinaryComparator x0) ltac:(countable_record).
#[global] Instance LongComparator_eq_dec : EqDecision LongComparator.
Proof. solve_decision. Defined.
#[global] Instance LongComparator_countable : Countable LongComparator :=
  inj_countable' (fun r => LC_Comparable r)
    (fun x0 => mkLongComparator x0) ltac:(countable_record).
#[global] Instance BinaryPrefixComparator_eq_dec : EqDecision BinaryPrefixComparator.
Proof. solve_decision. Defined.
#[global] Instance BinaryPrefixComparator_countable : Countable BinaryPrefixComparator :=
  inj_countable' (fun r => BPC_Comparable r)
    (fun x0 => mkBinaryPrefixComparator x0) ltac:(countable_record).
#[global] Instance BitComparator_eq_dec : EqDecision BitComparator.
Proof. solve_decision. Defined.
#[global] Instance BitComparator_countable : Countable BitComparator :=
  inj_countable' (fun r => (BitComparator_Comparable r, BitComparator_BitwiseOp r))
    (fun '(x0, x1) => mkBitComparator x0 x1) ltac:(countable_record).
#[global] Instance NullComparator_eq_dec : EqDecision NullComparator.
Proof. solve_decision. Defined.
#[global] Instance NullComparator_countable : Countable NullComparator := inj_countable' (fun _ => tt) (fun _ => mkNullComparator) ltac:(countable_record).
#[global] Instance RegexStringComparator_eq_dec : EqDecision RegexStringComparator.
Proof. solve_decision. Defined.
#[global] Instance RegexStringComparator_countable : Countable RegexStringComparator :=
  inj_countable' (fun r => (RSC_Pattern r, RSC_PatternFlags r, RSC_Charset r, RSC_Engine r))
    (fun '(x0, x1, x2, x3) => mkRegexStringComparator x0 x1 x2 x3) ltac:(countable_record).
#[global] Instance SubstringComparator_eq_dec : EqDecision SubstringComparator.
Proof. solve_decision. Defined.
#[global] Instance SubstringComparator_countable : Countable SubstringComparator :=
  inj_countable' (fun r => SC_Substr r)
    (fun x0 => mkSubstringComparator x0) ltac:(countable_record).
#[global] Instance ColumnCountGetFilter_eq_dec : EqDecision ColumnCountGetFilter.
Proof. solve_decision. Defined.
#[global] Instance ColumnCountGetFilter_countable : Countable ColumnCountGetFilter :=
  inj_countable' (fun r => CCGF_Limit r)
    (fun x0 => mkColumnCountGetFilter x0) ltac:(countable_record).
#[global] Instance ColumnPaginationFilter_eq_dec : EqDecision ColumnPaginationFilter.
Proof. solve_decision. Defined.
#[global] Instance ColumnPaginationFilter_countable : Countable ColumnPaginationFilter :=
  inj_countable' (fun r => (ColumnPaginationFilter_Limit r, ColumnPaginationFilter_Offset r, ColumnPaginationFilter_ColumnOffset r))
    (fun '(x0, x1, x2) => mkColumnPaginationFilter x0 x1 x2) ltac:(countable_record).
#[global] Instance ColumnPrefixFilter_eq_dec : EqDecision ColumnPrefixFilter.
Proof. solve_decision. Defined.
#[global] Instance ColumnPrefixFilter_countable : Countable ColumnPrefixFilter :=
  inj_countable' (fun r => ColumnPrefixFilter_Prefix r)
    (fun x0 => mkColumnPrefixFilter x0) ltac:(countable_record).
#[global] Instance ColumnRangeFilter_eq_dec : EqDecision ColumnRangeFilter.
Proof. solve_decision. Defined.
#[global] Instance ColumnRangeFilter_countable : Countable ColumnRangeFilter :=
  inj_countable' (fun r => (CRF_MinColumn r, CRF_MinColumnInclusive r, CRF_MaxColumn r, CRF_MaxColumnInclusive r))
    (fun '(x0, x1, x2, x3) => mkColumnRangeFilter x0 x1 x2 x3) ltac:(countable_record).
#[global] Instance CompareFilter_eq_dec : EqDecision CompareFilter.
Proof. solve_decision. Defined.
#[global] Instance CompareFilter_countable : Countable CompareFilter :=
  inj_countable' (fun r => (CF_CompareOp r, CF_Comparator r))
    (fun '(x0, x1) => mkCompareFilter x0 x1) ltac:(countable_record).
#[global] Instance DependentColumnFilter_eq_dec : EqDecision DependentColumnFilter.
Proof. solve_decision. Defined.
#[global] Instance DependentColumnFilter_countable : Countable DependentColumnFilter :=
  inj_countable' (fun r => (DCF_CompareFilter r, DCF_ColumnFamily r, DCF_ColumnQualifier r, DCF_DropDependentColumn r))
    (fun '(x0, x1, x2, x3) => mkDependentColumnFilter x0 x1 x2 x3) ltac:(countable_record).
#[global] Instance FamilyFilter_eq_dec : EqDecision FamilyFilter.
Proof. solve_decision. Defined.
#[global] Instance FamilyFilter_countable : Countable FamilyFilter :=
  inj_countable' (fun r => FF_CompareFilter r)
    (fun x0 => mkFamilyFilter x0) ltac:(countable_record).
#[global] Instance FilterList_eq_dec : EqDecision FilterList.
Proof. solve_decision. Defined.
#[global] Instance FilterList_countable : Countable FilterList :=
  inj_countable' (fun r => (FL_Operator r, FL_Filters r))
    (fun '(x0, x1) => mkFilterList x0 x1) ltac:(countable_record).
#[global] Instance FilterWrapper_eq_dec : EqDecision FilterWrapper.
Proof. solve_decision. Defined.
#[global] Instance FilterWrapper_countable : Countable FilterWrapper :=
  inj_countable' (fun r => FW_Filter r)
    (fun x0 => mkFilterWrapper x0) ltac:(countable_record).
#[global] Instance FirstKeyOnlyFilter_eq_dec : EqDecision FirstKeyOnlyFilter.
Proof. solve_decision. Defined.
#[global] Instance FirstKeyOnlyFilter_countable : Countable FirstKeyOnlyFilter := inj_countable' (fun _ => tt) (fun _ => mkFirstKeyOnlyFilter) ltac:(countable_record).
#[global] Instance FirstKeyValueMatchingQualifiersFilter_eq_dec : EqDecision FirstKeyValueMatchingQualifiersFilter.
Proof. solve_decision. Defined.
#[global] Instance FirstKeyValueMatchingQualifiersFilter_countable : Countable FirstKeyValueMatchingQualifiersFilter :=
  inj_countable' (fun r => FKVMQF_Qualifiers r)
    (fun x0 => mkFirstKeyValueMatchingQualifiersFilter x0) ltac:(countable_record).
#[global] Instance FuzzyRowFilter_eq_dec : EqDecision FuzzyRowFilter.
Proof. solve_decision. Defined.
#[global] Instance FuzzyRowFilter_countable : Countable FuzzyRowFilter :=
  inj_countable' (fun r => FRF_FuzzyKeysData r)
    (fun x0 => mkFuzzyRowFilter x0) ltac:(countable_record).
#[global] Instance InclusiveStopFilter_eq_dec : EqDecision InclusiveStopFilter.
Proof. solve_decision. Defined.
#[global] Instance InclusiveStopFilter_countable : Countable InclusiveStopFilter :=
  inj_countable' (fun r => ISF_StopRowKey r)
    (fun x0 => mkInclusiveStopFilter x0) ltac:(countable_record).
#[global] Instance KeyOnlyFilter_eq_dec : EqDecision KeyOnlyFilter.
Proof. solve_decision. Defined.
#[global] Instance KeyOnlyFilter_countable : Countable KeyOnlyFilter :=
  inj_countable' (fun r => KOF_LenAsVal r)
    (fun x0 => mkKeyOnlyFilter x0) ltac:(countable_record).
#[global] Instance MultipleColumnPrefixFilter_eq_dec : EqDecision MultipleColumnPrefixFilter.
Proof. solve_decision. Defined.
#[global] Instance MultipleColumnPrefixFilter_countable : Countable MultipleColumnPrefixFilter :=
  inj_countable' (fun r => MCPF_SortedPrefixes r)
    (fun x0 => mkMultipleColumnPrefixFilter x0) ltac:(countable_record).
#[global] Instance PageFilter_eq_dec : EqDecision PageFilter.
Proof. solve_decision. Defined.
#[global] Instance PageFilter_countable : Countable PageFilter :=
  inj_countable' (fun r => PageFilter_PageSize r)
    (fun x0 => mkPageFilter x0) ltac:(countable_record).
#[global] Instance PrefixFilter_eq_dec : EqDecision PrefixFilter.
Proof. solve_decision. Defined.
#[global] Instance PrefixFilter_countable : Countable PrefixFilter :=
  inj_countable' (fun r => PrefixFilter_Prefix r)
    (fun x0 => mkPrefixFilter x0) ltac:(countable_record).
#[global] Instance QualifierFilter_eq_dec : EqDecision QualifierFilter.
Proof. solve_decision. Defined.
#[global] Instance QualifierFilter_countable : Countable QualifierFilter :=
  inj_countable' (fun r => QF_CompareFilter r)
    (fun x0 => mkQualifierFilter x0) ltac:(countable_record).
#[global] Instance RandomRowFilter_eq_dec : EqDecision RandomRowFilter.
Proof. solve_decision. Defined.
#[global] Instance RandomRowFilter_countable : Countable RandomRowFilter :=
  inj_countable' (fun r => RRF_Chance r)
    (fun x0 => mkRandomRowFilter x0) ltac:(countable_record).
#[global] Instance RowFilter_eq_dec : EqDecision RowFilter.
Proof. solve_decision. Defined.
#[global] Instance RowFilter_countable : Countable RowFilter :=
  inj_countable' (fun r => RF_CompareFilter r)
    (fun x0 => mkRowFilter x0) ltac:(countable_record).
#[global] Instance SingleColumnValueFilter_eq_dec : EqDecision SingleColumnValueFilter.
Proof. solve_decision. Defined.
#[global] Instance SingleColumnValueFilter_countable : Countable SingleColumnValueFilter :=
  inj_countable' (fun r => (SCVF_ColumnFamily r, SCVF_ColumnQualifier r, SCVF_CompareOp r, SCVF_Comparator r, SCVF_FilterIfMissing r, SCVF_LatestVersionOnly r))
    (fun '(x0, x1, x2, x3, x4, x5) => mkSingleColumnValueFilter x0 x1 x2 x3 x4 x5) ltac:(countable_record).
#[global] Instance SingleColumnValueExcludeFilter_eq_dec : EqDecision SingleColumnValueExcludeFilter.
Proof. solve_decision. Defined.
#[global] Instance SingleColumnValueExcludeFilter_countable : Countable SingleColumnValueExcludeFilter :=
  inj_countable' (fun r => SCVEF_SingleColumnValueFilter r)
    (fun x0 => mkSingleColumnValueExcludeFilter x0) ltac:(countable_record).
#[global] Instance SkipFilter_eq_dec : EqDecision SkipFilter.
Proof. solve_decision. Defined.
#[global] Instance SkipFilter_countable : Countable SkipFilter :=
  inj_countable' (fun r => SF_Filter r)
    (fun x0 => mkSkipFilter x0) ltac:(countable_record).
#[global] Instance TimestampsFilter_eq_dec : EqDecision TimestampsFilter.
Proof. solve_decision. Defined.
#[global] Instance TimestampsFilter_countable : Countable TimestampsFilter :=
  inj_countable' (fun r => (TF_Timestamps r, TF_CanHint r))
    (fun '(x0, x1) => mkTimestampsFilter x0 x1) ltac:(countable_record).
#[global] Instance ValueFilter_eq_dec : EqDecision ValueFilter.
Proof. solve_decision. Defined.
#[global] Instance ValueFilter_countable : Countable ValueFilter :=
  inj_countable' (fun r => VF_CompareFilter r)
    (fun x0 => mkValueFilter x0) ltac:(countable_record).
#[global] Instance WhileMatchFilter_eq_dec : EqDecision WhileMatchFilter.
Proof. solve_decision. Defined.
#[global] Instance WhileMatchFilter_countable : Countable WhileMatchFilter :=
  inj_countable' (fun r => WMF_Filter r)
    (fun x0 => mkWhileMatchFilter x0) ltac:(countable_record).
#[global] Instance FilterAllFilter_eq_dec : EqDecision FilterAllFilter.
Proof. solve_decision. Defined.
#[global] Instance FilterAllFilter_countable : Countable FilterAllFilter := inj_countable' (fun _ => tt) (fun _ => mkFilterAllFilter) ltac:(countable_record).
#[global] Instance RowRange_eq_dec : EqDecision RowRange.
Proof. solve_decision. Defined.
#[global] Instance RowRange_countable : Countable RowRange :=
  inj_countable' (fun r => (RR_StartRow r, RR_StartRowInclusive r, RR_StopRow r, RR_StopRowInclusive r))
    (fun '(x0, x1, x2, x3) => mkRowRange x0 x1 x2 x3) ltac:(countable_record).
#[global] Instance MultiRowRangeFilter_eq_dec : EqDecision MultiRowRangeFilter.
Proof. solve_decision. Defined.
#[global] Instance MultiRowRangeFilter_countable : Countable MultiRowRangeFilter :=
  inj_countable' (fun r => MRRF_RowRangeList r)
    (fun x0 => mkMultiRowRangeFilter x0) ltac:(countable_record).

#[global] Instance message_eq_dec : EqDecision message.
Proof. solve_decision. Defined.

(** The kind of a message and the code of its fields. *)
Definition message_code (m : message) : nat * positive :=
  match m with
  | M_ColumnCountGetFilter m => (0%nat, encode m)
  | M_ColumnPaginationFilter m => (1%nat, encode m)
  | M_ColumnPrefixFilter m => (2%nat, encode m)
  | M_ColumnRangeFilter m => (3%nat, encode m)
  | M_CompareFilter m => (4%nat, encode m)
  | M_DependentColumnFilter m => (5%nat, encode m)
  | M_FamilyFilter m => (6%nat, encode m)
  | M_FilterList m => (7%nat, encode m)
  | M_FilterWrapper m => (8%nat, encode m)
  | M_FirstKeyOnlyFilter m => (9%nat, encode m)
  | M_FirstKeyValueMatchingQualifiersFilter m => (10%nat, encode m)
  | M_FuzzyRowFilter m => (11%nat, encode m)
  | M_InclusiveStopFilter m => (12%nat, encode m)
  | M_KeyOnlyFilter m => (13%nat, encode m)
  | M_MultipleColumnPrefixFilter m => (14%nat, encode m)
  | M_PageFilter m => (15%nat, encode m)
  | M_PrefixFilter m => (16%nat, encode m)
  | M_QualifierFilter m => (17%nat, encode m)
  | M_RandomRowFilter m => (18%nat, encode m)
  | M_RowFilter m => (19%nat, encode m)
  | M_SingleColumnValueFilter m => (20%nat, encode m)
  | M_SingleColumnValueExcludeFilter m => (21%nat, encode m)
  | M_SkipFilter m => (22%nat, encode m)
  | M_TimestampsFilter m => (23%nat, encode m)
  | M_ValueFilter m => (24%nat, encode m)
  | M_WhileMatchFilter m => (25%nat, encode m)
  | M_FilterAllFilter m => (26%nat, encode m)
  | M_RowRange m => (27%nat, encode m)
  | M_MultiRowRangeFilter m => (28%nat, encode m)
  | M_BinaryComparator m => (29%nat, encode m)
  | M_LongComparator m => (30%nat, encode m)
  | M_BinaryPrefixComparator m => (31%nat, encode m)
  | M_BitComparator m => (32%nat, encode m)
  | M_NullComparator m => (33%nat, encode m)
  | M_RegexStringComparator m => (34%nat, encode m)
  | M_SubstringComparator m => (35%nat, encode m)
  end.

Definition message_of_code (c : nat * positive) : option message :=
  match c with
  | (0%nat, p) => M_ColumnCountGetFilter <$> decode p
  | (1%nat, p) => M_ColumnPaginationFilter <$> decode p
  | (2%nat, p) => M_ColumnPrefixFilter <$> decode p
  | (3%nat, p) => M_ColumnRangeFilter <$> decode p
  | (4%nat, p) => M_CompareFilter <$> decode p
  | (5%nat, p) => M_DependentColumnFilter <$> decode p
  | (6%nat, p) => M_FamilyFilter <$> decode p
  | (7%nat, p) => M_FilterList <$> decode p
  | (8%nat, p) => M_FilterWrapper <$> decode p
  | (9%nat, p) => M_FirstKeyOnlyFilter <$> decode p
  | (10%nat, p) => M_FirstKeyValueMatchingQualifiersFilter <$> decode p
  | (11%nat, p) => M_FuzzyRowFilter <$> decode p
  | (12%nat, p) => M_InclusiveStopFilter <$> decode p
  | (13%nat, p) => M_KeyOnlyFilter <$> decode p
  | (14%nat, p) => M_MultipleColumnPrefixFilter <$> decode p
  | (15%nat, p) => M_PageFilter <$> decode p
  | (16%nat, p) => M_PrefixFilter <$> decode p
  | (17%nat, p) => M_QualifierFilter <$> decode p
  | (18%nat, p) => M_RandomRowFilter <$> decode p
  | (19%nat, p) => M_RowFilter <$> decode p
  | (20%nat, p) => M_SingleColumnValueFilter <$> decode p
  | (21%nat, p) => M_SingleColumnValueExcludeFilter <$> decode p
  | (22%nat, p) => M_SkipFilter <$> decode p
  | (23%nat, p) => M_TimestampsFilter <$> decode p
  | (24%nat, p) => M_ValueFilter <$> decode p
  | (25%nat, p) => M_WhileMatchFilter <$> decode p
  | (26%nat, p) => M_FilterAllFilter <$> decode p
  | (27%nat, p) => M_RowRange <$> decode p
  | (28%nat, p) => M_MultiRowRangeFilter <$> decode p
  | (29%nat, p) => M_BinaryComparator <$> decode p
  | (30%nat, p) => M_LongComparator <$> decode p
  | (31%nat, p) => M_BinaryPrefixComparator <$> decode p
  | (32%nat, p) => M_BitComparator <$> decode p
  | (33%nat, p) => M_NullComparator <$> decode p
  | (34%nat, p) => M_RegexStringComparator <$> decode p
  | (35%nat, p) => M_SubstringComparator <$> decode p
  | _ => None
  end.

Lemma message_of_code_spec m : message_of_code (message_code m) = Some m.
Proof. destruct m; cbn [message_code message_of_code]; by rewrite decode_encode. Qed.

#[global] Instance message_countable : Countable message := inj_countable message_code message_of_code message_of_code_spec.

(** A message is as many zero bytes as its number says. *)
#[global] Instance unary_marshaling : Marshaling := {|
  Marshal m := if initialized m then Some (replicate (Pos.to_nat (encode m)) x00) else None;
  Unmarshal _ b := decode (Pos.of_nat (length b));
|}.

#[global] Instance unary_marshaling_spec : MarshalingSpec unary_marshaling.
Proof.
  split; simpl.
  - intros m. destruct (initialized m); split; done || (intros; by eexists).
  - intros m b H. destruct (initialized m); [|done]. injection H as <-.
    by rewrite length_replicate, Pos2Nat.id, decode_encode.
Qed.

(** Rows of a prefix, the first key only, and of those a page. *)
Definition sample_tree : ftree :=
  TList MustPassAll
    [TSkip (TList MustPassOne [TLeaf (F_PrefixFilter (NewPrefixFilter (Some (bs "user"))));
                               TLeaf (F_FirstKeyOnlyFilter NewFirstKeyOnlyFilter)]);
     TWhileMatch (TLeaf (F_PageFilter (NewPageFilter 10)))].

Lemma filter_tree_roundtrip_witness :
  exists p, construct sample_tree = Ok p /\ forall n, (4 <= n)%nat -> decode_tree n p = Some sample_tree.
Proof. exact (filter_tree_roundtrip sample_tree eq_refl). Defined.

Lemma invalid_compare_operation_encoded_witness :
  exists f p, NewSingleColumnValueFilter (Some (bs "cf")) (Some (bs "q")) 7 (C_NullComparator NewNullComparator) true true = Ok f /\
    SingleColumnValueFilter_ConstructPB f = Err "invalid compare operation specified" /\
    ConstructPBFilter (F_SingleColumnValueFilter f) = Ok p.
Proof. exact (invalid_compare_operation_encoded _ _ 7 (C_NullComparator NewNullComparator) true true eq_refl eq_refl). Defined.
