(* ===== verification/Client.v ===== *)
(** * The client: client.go, the constructor of admin_client.go

    [newClient] and [newAdminClient] with the options, [Close], and the calls of
    the user: [Get], [Put], [Delete], [Append], [Increment] and [CheckAndPut],
    which are [SendRPC] and a reading of its answer.  The zookeeper client is
    not part of the state. *)

From S2P Require Import Prelude RegionName Pb RegionInfo RegionTree KeyRegionCache Hrpc Mutate Scanner RpcError Multi ClientRegionCache World Rpc FilterPb Filters.

(** ** Options *)

Definition defaultRPCQueueSize : Z := 100.
Definition defaultFlushInterval : Z := 20 * Millisecond.
Definition defaultZkRoot : string := "/hbase".
Definition defaultZkTimeout : Z := 30 * Second.
Definition defaultEffectiveUser : string := "root".
Definition DefaultLookupTimeout : Z := 30 * Second.
Definition DefaultReadTimeout : Z := 30 * Second.

(** The fields of [client] that the options set. *)
Record config := mkConfig {
  cf_rpcQueueSize : Z;
  cf_zkRoot : string;
  cf_zkTimeout : Z;
  cf_flushInterval : Z;
  cf_effectiveUser : string;
  cf_regionLookupTimeout : Z;
  cf_regionReadTimeout : Z;
  cf_compressionCodec : option string;
}.

Definition default_config : config :=
  mkConfig defaultRPCQueueSize defaultZkRoot defaultZkTimeout defaultFlushInterval defaultEffectiveUser
    DefaultLookupTimeout DefaultReadTimeout None.

(** [compression.New]: the codec by name. *)
Definition compression_New {E : Type} (codec : string) : outcome E string :=
  if bool_decide (codec = "snappy"%string) then Ok codec else Panic.

Definition Option : Type := config -> outcome Empty_set config.

Definition RpcQueueSize (size : Z) : Option := fun c =>
  Ok (mkConfig size (cf_zkRoot c) (cf_zkTimeout c) (cf_flushInterval c) (cf_effectiveUser c) (cf_regionLookupTimeout c)
    (cf_regionReadTimeout c) (cf_compressionCodec c)).
Definition ZookeeperRoot (root : string) : Option := fun c =>
  Ok (mkConfig (cf_rpcQueueSize c) root (cf_zkTimeout c) (cf_flushInterval c) (cf_effectiveUser c) (cf_regionLookupTimeout c)
    (cf_regionReadTimeout c) (cf_compressionCodec c)).
Definition ZookeeperTimeout (to : Z) : Option := fun c =>
  Ok (mkConfig (cf_rpcQueueSize c) (cf_zkRoot c) to (cf_flushInterval c) (cf_effectiveUser c) (cf_regionLookupTimeout c)
    (cf_regionReadTimeout c) (cf_compressionCodec c)).
Definition RegionLookupTimeout (to : Z) : Option := fun c =>
  Ok (mkConfig (cf_rpcQueueSize c) (cf_zkRoot c) (cf_zkTimeout c) (cf_flushInterval c) (cf_effectiveUser c) to
    (cf_regionReadTimeout c) (cf_compressionCodec c)).
Definition RegionReadTimeout (to : Z) : Option := fun c =>
  Ok (mkConfig (cf_rpcQueueSize c) (cf_zkRoot c) (cf_zkTimeout c) (cf_flushInterval c) (cf_effectiveUser c)
    (cf_regionLookupTimeout c) to (cf_compressionCodec c)).
Definition EffectiveUser (user : string) : Option := fun c =>
  Ok (mkConfig (cf_rpcQueueSize c) (cf_zkRoot c) (cf_zkTimeout c) (cf_flushInterval c) user (cf_regionLookupTimeout c)
    (cf_regionReadTimeout c) (cf_compressionCodec c)).
Definition FlushInterval (interval : Z) : Option := fun c =>
  Ok (mkConfig (cf_rpcQueueSize c) (cf_zkRoot c) (cf_zkTimeout c) interval (cf_effectiveUser c) (cf_regionLookupTimeout c)
    (cf_regionReadTimeout c) (cf_compressionCodec c)).
Definition CompressionCodec (codec : string) : Option := fun c =>
  let* codec := compression_New codec in
  Ok (mkConfig (cf_rpcQueueSize c) (cf_zkRoot c) (cf_zkTimeout c) (cf_flushInterval c) (cf_effectiveUser c)
    (cf_regionLookupTimeout c) (cf_regionReadTimeout c) (Some codec)).

Fixpoint apply_options (options : list Option) (c : config) : outcome Empty_set config :=
  match options with
  | [] => Ok c
  | option :: options => let* c := option c in apply_options options c
  end.

(** ** Construction *)

(** A client: its type, its fixed regions and its shared state. *)
Record client {T : RegionTree ptr} := mkClient {
  c_type : ClientType;
  c_config : config;
  c_metaRegionInfo : option ptr;
  c_adminRegionInfo : option ptr;
  c_world : world;
}.

Section Client.
Context {T : RegionTree ptr} {HO : RangeOrder}.

Definition initial_world (h : heap) (made : bool) : world :=
  mkWorld _ h TreeNew no_clients made false OnceNew [] ∅ ∅ (alone h).

Definition newClient (options : list Option) : outcome Empty_set client :=
  let '(meta, h) := NewInfo 0 (Some (bs "hbase")) (bs "meta") (bs "hbase:meta,,1") [] [] empty_heap in
  let* c := apply_options options default_config in
  Ok (mkClient _ RegionClientType c (Some meta) None (initial_world h true)).

(** The tree and the maps of the caches and the [done] channel are left nil:
    [w_made] is false, and where they are used is a crash. *)
Definition newAdminClient (options : list Option) : outcome Empty_set client :=
  let '(admin, h) := NewInfo 0 None [] [] [] [] empty_heap in
  let* c := apply_options options default_config in
  Ok (mkClient _ MasterClientType c None (Some admin) (initial_world h false)).

(** ** Close *)

Definition set_closing (done : bool) (o : once) (w : world) : world :=
  mkWorld _ (w_heap w) (w_regions w) (w_clients w) (w_made w) done o (w_spawned w) (w_owned w) (w_private w) (w_frame w).

(** [closeOnce.Do]: [true] if it runs its function, which starts with
    [close(c.done)].  Closing a nil or a closed channel crashes.  Calls that come
    while the function runs wait until it has returned.  Winning the once and
    closing [done] is one step: what comes between them could be seen only by
    another [Close], which waits. *)
Definition close_begin : M bool :=
  atomic (fun w =>
    match w_once w with
    | OnceNew => if negb (w_made w) || w_done w then Panic else Ok (true, set_closing true OnceRunning w)
    | OnceRunning => Err Blocked
    | OnceDone => Ok (false, w)
    end).

(** The function has returned. *)
Definition close_end : M unit := atomic (fun w => Ok (tt, set_closing (w_done w) OnceDone w)).

(** [Close] of a region client. *)
Definition client_Close (c : cptr) : M unit :=
  atomic (fun w =>
    let s := w_clients w in
    Ok (tt, set_clients (mkClients (cc_regions s) (cc_addr s) (cc_next s) ({[c]} ∪ cc_closed s)) (w_heap w) w)).

(** The connection to the master. *)
Definition close_admin (clientType : ClientType) (adminRegionInfo : option ptr) : M unit :=
  if bool_decide (clientType = MasterClientType) then
    match adminRegionInfo with
    | None => fatal
    | Some p =>
        ac ← read_heap (Client p);
        match ac with
        | Some c => client_Close c
        | None => mret tt
        end
    end
  else mret tt.

(** *** [closeAll] of caches.go

    The regions have locks of their own, so other goroutines come in between.
    [rcc.m], which is held all the time, keeps them from the map; the steps do
    not rely on it.  The results say which regions [MarkUnavailable] changed; the
    code does not look at it. *)
Fixpoint close_regions (l : list ptr) : M (list (ptr * bool)) :=
  match l with
  | [] => mret []
  | r :: l =>
      first ← markUnavailable r;
      _ ← setClient r None;
      rest ← close_regions l;
      mret ((r, first) :: rest)
  end.

Fixpoint close_clients (l : list (cptr * gset ptr)) : M (list (cptr * list (ptr * bool))) :=
  match l with
  | [] => mret []
  | (c, regions) :: l =>
      marked ← close_regions (fst <$> range [c] (gset_to_gmap tt regions));
      _ ← client_Close c;
      rest ← close_clients l;
      mret ((c, marked) :: rest)
  end.

(** What the loop goes through. *)
Definition closeAll_range : M (list (cptr * gset ptr)) := atomic (fun w => Ok (range [] (cc_regions (w_clients w)), w)).

Definition closeAll : M (list (cptr * list (ptr * bool))) := l ← closeAll_range; close_clients l.

(** [None] if another call runs or ran the function. *)
Definition Close (clientType : ClientType) (adminRegionInfo : option ptr) : M (option (list (cptr * list (ptr * bool)))) :=
  first ← close_begin;
  if (first : bool) then
    _ ← close_admin clientType adminRegionInfo;
    marked ← closeAll;
    _ ← close_end;
    mret (Some marked)
  else mret None.

(** ** The calls of the user *)

Inductive user_error :=
| UErr (e : cerr)
| UOption (e : error)
| NotA (response : string)
| IncrementCells (n : Z)
| NoProcessed.

Section Calls.
Variable clientType : ClientType.
Variable adminRegionInfo metaRegionInfo : option ptr.
Variable unmarshal_RegionInfo : bytes -> option RegionInfo.

Abbreviation SendRPC := (SendRPC clientType adminRegionInfo metaRegionInfo unmarshal_RegionInfo).

Definition Get (g : Hrpc.Get) : M (LocalResult + user_error) :=
  r ← SendRPC (b_table (g_base g)) (b_key (g_base g));
  match r with
  | (_, Some e) => mret (inr (UErr e))
  | (Some (MGet m), None) => mret (inl (ToLocalResult (GetResponse_Result m)))
  | (_, None) => mret (inr (NotA "GetResponse"))
  end.

Definition mutate (m : Hrpc.Mutate) : M (LocalResult + user_error) :=
  r ← SendRPC (b_table (m_base m)) (b_key (m_base m));
  match r with
  | (_, Some e) => mret (inr (UErr e))
  | (Some (MMutate r), None) => mret (inl (ToLocalResult (MutateResponse_Result r)))
  | (_, None) => mret (inr (NotA "MutateResponse"))
  end.

Definition Put (p : Hrpc.Mutate) : M (LocalResult + user_error) := mutate p.
Definition Delete (d : Hrpc.Mutate) : M (LocalResult + user_error) := mutate d.
Definition Append (a : Hrpc.Mutate) : M (LocalResult + user_error) := mutate a.

(** A computation without effects, which may crash. *)
Definition pure {A : Type} (o : outcome Empty_set A) : M A := fun evs w => let* a := no_err o in Ok (a, evs, w).

(** What [Increment] makes of the result. *)
Definition increment_value (r : LocalResult) : outcome Empty_set (Z + user_error) :=
  match Cells r with
  | [cell] => let* val := Uint64 (Value cell) in Ok (inl (i64 val))
  | cells => Ok (inr (IncrementCells (len cells)))
  end.

Definition Increment (i : Hrpc.Mutate) : M (Z + user_error) :=
  r ← mutate i;
  match r with
  | inr e => mret (inr e)
  | inl res => pure (increment_value res)
  end.

(** The comparator of a [CheckAndPut]. *)
Definition expected `{Marshaling} (expectedValue : option bytes) : outcome error Comparator :=
  ConstructPBComparator (C_BinaryComparator (NewBinaryComparator (Some (NewByteArrayComparable expectedValue)))).

Definition CheckAndPut `{Marshaling} (p : Hrpc.Mutate) (family qualifier : bytes) (expectedValue : option bytes)
    : M (bool + user_error) :=
  match NewCheckAndPut p family qualifier (expected expectedValue) with
  | Panic => fatal
  | Err e => mret (inr (UOption e))
  | Ok cas =>
      r ← SendRPC (b_table (m_base (cp_mutate cas))) (b_key (m_base (cp_mutate cas)));
      match r with
      | (_, Some e) => mret (inr (UErr e))
      | (Some (MMutate r), None) =>
          match MutateResponse_Processed r with
          | None => mret (inr NoProcessed)
          | Some _ => mret (inl (GetProcessed r))
          end
      | (_, None) => mret (inr (NotA "MutateResponse"))
      end
  end.

End Calls.

End Client.
