(* ===== verification/Closing.v ===== *)
(** * Closing a client among its goroutines: client.go [Close], caches.go [closeAll]

    [Close] under the discipline of the goroutines (Discipline.v): it closes [done]
    once, and the regions that it marks unavailable stay so and without a client,
    whatever the goroutines do that establish regions meanwhile. *)

From S2P Require Import Prelude RegionName Pb RegionInfo RegionTree KeyRegionCache ClientRegionCache World Rpc Establish Fuel Discipline Client.

Section Uses.
Context {T : RegionTree ptr} {HO : RangeOrder}.

Lemma bind_assoc {A B C : Type} (m : M A) (f : A -> M B) (g : B -> M C) evs w :
  ((m ≫= f) ≫= g) evs w = (m ≫= fun a => f a ≫= g) evs w.
Proof. unfold mbind, M_bind. by destruct (m evs w) as [[[a evs1] w1]| |]. Qed.

Lemma uses_close_begin n : uses n close_begin (fun _ => 0%nat).
Proof. apply uses_atomic; [|intros; cbv beta; lia]. intros w. repeat case_match; done. Qed.

Lemma uses_client_Close n c : uses n (client_Close c) (fun _ => 0%nat).
Proof. apply uses_atomic; [done|intros; cbv beta; lia]. Qed.

Lemma uses_close_regions n l : uses n (close_regions l) (fun _ => 0%nat).
Proof.
  induction l as [|r l IH]; [by apply uses_ret|]. cbn [close_regions].
  eapply uses_bind0; [apply uses_markUnavailable|]. intros first. eapply uses_bind0; [apply uses_setClient|]. intros _.
  eapply uses_bind0; [exact IH|]. intros rest. by apply uses_ret.
Qed.

Lemma uses_close_clients n l : uses n (close_clients l) (fun _ => 0%nat).
Proof.
  induction l as [|[c rs] l IH]; [by apply uses_ret|]. cbn [close_clients].
  eapply uses_bind0; [apply uses_close_regions|]. intros marked. eapply uses_bind0; [apply uses_client_Close|]. intros _.
  eapply uses_bind0; [exact IH|]. intros rest. by apply uses_ret.
Qed.

Lemma uses_closeAll_range n : uses n closeAll_range (fun _ => 0%nat).
Proof. apply uses_atomic; [done|intros; cbv beta; lia]. Qed.

Lemma uses_Close n admin : uses n (Close RegionClientType admin) (fun _ => 0%nat).
Proof.
  unfold Close. eapply uses_bind0; [apply uses_close_begin|]. intros []; [|by apply uses_ret].
  eapply uses_bind0 with (c := fun _ => 0%nat); [by apply uses_ret|]. intros _.
  eapply uses_bind0 with (c := fun _ => 0%nat);
    [eapply uses_bind0; [apply uses_closeAll_range|intros l; apply uses_close_clients]|]. intros marked.
  eapply uses_bind0 with (c := fun _ => 0%nat); [|intros; by apply uses_ret].
  apply uses_atomic; [done|intros; cbv beta; lia].
Qed.

Lemma set_closing_step {HT : RegionTreeSpec ptr T} ct adm meta w d o :
  world_ok ct adm meta w -> (w_done w = true -> d = true) -> (w_once w = OnceDone -> o = OnceDone) -> (d = true <-> o <> OnceNew) ->
  own_step ct adm meta w (set_closing d o w).
Proof.
  intros Hw Hd Ho Hdo. destruct (own_step_refl ct adm meta w Hw). split; simpl; try done; auto.
  intros p Hp. destruct (os_cover p Hp) as [?|?]; auto.
Qed.

End Uses.

Section Closing.
Context {T : RegionTree ptr} {HT : RegionTreeSpec ptr T} {HO : RangeOrder}.
Variable metaRegionInfo : option ptr.
Variable unmarshal_RegionInfo : bytes -> option RegionInfo.

Abbreviation world_ok := (world_ok RegionClientType None metaRegionInfo).
Abbreviation own_step := (own_step RegionClientType None metaRegionInfo).
Abbreviation good := (good RegionClientType None metaRegionInfo).
Abbreviation stable := (stable RegionClientType None metaRegionInfo).
Abbreviation safe := (safe RegionClientType None metaRegionInfo unmarshal_RegionInfo).

(** Without a client. *)
Definition clientless (h : heap) (r : ptr) : Prop := exists i, h_infos h !! r = Some i /\ r_client i = None.

(** Marked unavailable by this goroutine, which does not give it back. *)
Definition shut_by (w : world) (r : ptr) : Prop := r ∈ w_owned w /\ clientless (w_heap w) r.

Lemma touches_clientless S h h' r : touches S h h' -> clientless h r -> clientless h' r.
Proof.
  intros Ht (i & Hi & Hc). destruct (heap_ext_lookup _ _ _ _ (t_ext _ _ _ Ht) Hi) as (i' & Hi' & _). exists i'.
  split; [done|]. by apply (t_client _ _ _ Ht r i i').
Qed.

(** While [closeAll] runs: the regions [K] it goes through, and [S] it has shut. *)
Record closing (K S : list ptr) (w : world) : Prop := {
  cl_done : w_done w = true;
  cl_good : Forall (good w) K;
  cl_shut : Forall (shut_by w) S;
}.

Lemma closing_stable K S : stable (closing K S).
Proof.
  intros w w' Hr Hw [Hd Hg Hs]. split.
  - by apply (rely_done _ _ _ _ _ Hr).
  - eapply Forall_impl; [exact Hg|]. intros r Hgr. by eapply (good_stable _ _ _ r w w' Hr).
  - eapply Forall_impl; [exact Hs|]. intros r [Ho (i & Hi & Hc)]. split; [by rewrite (rely_owned _ _ _ _ _ Hr)|].
    destruct (heap_ext_lookup _ _ _ _ (rely_ext _ _ _ _ _ Hr) Hi) as (i' & Hi' & _). exists i'. split; [done|].
    by apply (rely_client _ _ _ _ _ Hr r i i').
Qed.

Lemma closing_step K S w w' :
  own_step w w' -> (forall r, shut_by w r -> shut_by w' r) -> closing K S w -> closing K S w'.
Proof.
  intros Hs Hshut [Hd Hg HS]. split; [by apply (os_done _ _ _ _ _ Hs)| |].
  - eapply Forall_impl; [exact Hg|]. intros r. by apply own_step_good.
  - eapply Forall_impl; [exact HS|]. exact Hshut.
Qed.

Lemma closing_sub K K' S w : (forall r, r ∈ K' -> r ∈ K) -> closing K S w -> closing K' S w.
Proof.
  intros HK [Hd Hg HS]. split; [done| |done]. apply Forall_forall. intros r Hr.
  by apply (proj1 (Forall_forall _ _) Hg), HK.
Qed.

Lemma safe_close_mark K S r :
  r ∈ K -> safe (closing K S) (markUnavailable r) (fun b w => closing K S w /\ (b = true -> r ∈ w_owned w)).
Proof.
  intros Hr. apply safe_atomic; [apply closing_stable|]. intros w Hw Hc.
  destruct (proj1 (Forall_forall _ _) (cl_good _ _ _ Hc) r Hr) as [[i Hi] _ Hk _].
  destruct (mark_step _ _ _ w r i Hw Hi Hk) as (h' & HM & Hs & _). rewrite HM. cbn [obind no_err fst snd].
  split; [exact Hs|]. split; [|intros ->; simpl; set_solver].
  destruct (MarkUnavailable_touches _ _ _ Hi) as (h1 & HM' & Ht & _). assert (h1 = h') as -> by congruence.
  apply (closing_step _ _ _ _ Hs); [|done]. intros q [Ho Hq]. split; [|by eapply touches_clientless].
  simpl. case_bool_decide; set_solver.
Qed.

Lemma safe_close_set K S r (b : bool) :
  r ∈ K -> safe (fun w => closing K S w /\ (b = true -> r ∈ w_owned w)) (setClient r None)
    (fun _ => closing K (if b then r :: S else S)).
Proof.
  intros Hr. apply safe_atomic.
  { apply stable_and; [apply closing_stable|]. intros w w' Hre _ H Hb. rewrite (rely_owned _ _ _ _ _ Hre). auto. }
  intros w Hw [Hc Hb]. destruct (proj1 (Forall_forall _ _) (cl_good _ _ _ Hc) r Hr) as [[i Hi] _ Hk _].
  unfold SetClient. rewrite (deref_lookup _ _ _ Hi). cbn [obind no_err fst snd].
  pose proof (set_client_step _ _ _ w r None i Hw Hi Hk (or_introl eq_refl)) as Hs. split; [exact Hs|].
  assert (touches (fun q => q = r) (w_heap w) (set_info r (set_client None i) (w_heap w))) as Ht by (by eapply touches_set_info).
  assert (closing K S (set_heap (set_info r (set_client None i) (w_heap w)) w)) as Hc'.
  { apply (closing_step _ _ _ _ Hs); [|done]. intros q [Ho Hq]. split; [done|]. by eapply touches_clientless. }
  destruct b; [|done]. destruct Hc' as [H1 H2 H3]. split; [done..|]. constructor; [|done]. split; [by apply Hb|].
  exists (set_client None i). split; [apply lookup_insert_eq|done].
Qed.

(** The regions that [MarkUnavailable] changed. *)
Definition changed (marked : list (ptr * bool)) : list ptr := omap (fun x => if (x.2 : bool) then Some x.1 else None) marked.

Lemma safe_close_regions K S l :
  (forall r, r ∈ l -> r ∈ K) ->
  safe (closing K S) (close_regions l) (fun marked w => marked.*1 = l /\ closing K (changed marked ++ S) w).
Proof.
  revert S. induction l as [|r l IH]; intros S Hl; cbn [close_regions]; [by apply safe_ret|].
  assert (r ∈ K) as Hr by (apply Hl; by left).
  eapply safe_bind; [by apply safe_close_mark|]. intros first. cbv beta.
  eapply safe_bind; [by apply safe_close_set|]. intros []. cbv beta.
  eapply safe_bind; [apply IH; intros q Hq; apply Hl; by right|]. intros rest. cbv beta.
  apply safe_ret. intros w _ [<- [H1 H2 H3]]. split; [done|]. split; [done..|].
  destruct first; [|done]. change (changed ((r, true) :: rest)) with (r :: changed rest). simpl.
  by rewrite (Permutation_middle (changed rest) S r).
Qed.

Lemma safe_client_Close K S c :
  safe (closing K S) (client_Close c) (fun _ w => closing K S w /\ c ∈ cc_closed (w_clients w)).
Proof.
  apply safe_atomic; [apply closing_stable|]. intros w Hw Hc. cbv beta iota zeta.
  match goal with |- own_step _ ?w' /\ _ => assert (own_step w w') as Hs end.
  { apply own_step_clients; [done|apply (wo_clients w Hw)|]. simpl. set_solver. }
  split; [exact Hs|]. split; [|simpl; set_solver]. by apply (closing_step _ _ _ _ Hs).
Qed.

(** What became of the clients that the loop goes through. *)
Definition closed_all (l : list (cptr * gset ptr)) (marked : list (cptr * list (ptr * bool))) (w : world) : Prop :=
  Forall2 (fun x y => x.1 = y.1 /\ y.2.*1 ≡ₚ elements x.2 /\ x.1 ∈ cc_closed (w_clients w)) l marked.

Lemma closed_all_grows l marked w w' : grows w w' -> closed_all l marked w -> closed_all l marked w'.
Proof. intros (_ & _ & Hc) H. eapply Forall2_impl; [exact H|]. intros x y (? & ? & ?). split_and!; auto. Qed.

Lemma safe_close_clients K S l :
  (forall c rs r, (c, rs) ∈ l -> r ∈ rs -> r ∈ K) ->
  safe (closing K S) (close_clients l)
    (fun marked w => closing K ((marked ≫= fun y => changed y.2) ++ S) w /\ closed_all l marked w).
Proof.
  revert S. induction l as [|[c rs] l IH]; intros S Hl; cbn [close_clients]; [apply safe_ret; intros w _ H; by split; [|constructor]|].
  eapply safe_bind; [apply safe_close_regions|].
  { intros r Hr. rewrite range_set in Hr. apply elem_of_elements in Hr. apply (Hl c rs); [by left|done]. }
  intros marked. cbv beta. apply safe_pure with (F := marked.*1 = fst <$> range [c] (gset_to_gmap tt rs)); [by intros w _ [? _]|].
  intros Hm. eapply safe_pre with (P := closing K (changed marked ++ S)); [|by intros w _ [_ ?]].
  eapply safe_bind; [apply safe_client_Close|]. intros []. cbv beta.
  eapply safe_bind; [apply (safe_frame _ _ _ _ (fun w => c ∈ cc_closed (w_clients w)))|].
  { intros w w' (_ & _ & Hc). apply Hc. }
  { apply IH. intros c' rs' r Hin. apply (Hl c' rs'). by right. }
  intros rest. cbv beta. apply safe_ret. intros w _ [[[H1 H2 H3] Hrest] Hc]. split.
  - split; [done..|]. csimpl. rewrite <- app_assoc, (Permutation_app_swap_app (changed marked)). done.
  - constructor; [|done]. split_and!; [done| |done]. simpl. rewrite Hm. apply range_set.
Qed.

Lemma safe_close_begin :
  safe (fun _ => True) close_begin (fun first w => w_done w = true /\ (first = false -> w_once w = OnceDone)).
Proof.
  apply safe_atomic; [done|]. intros w Hw _. pose proof (wo_close w Hw) as Hc. rewrite (wo_made w Hw) by done. cbn [negb orb].
  destruct (w_once w) eqn:Ho.
  - destruct (w_done w); [by destruct (proj1 Hc eq_refl)|]. split; [|done]. by apply set_closing_step; rewrite ?Ho.
  - done.
  - split; [by apply own_step_refl|]. split; [by apply Hc|done].
Qed.

Lemma safe_closeAll_range :
  safe (fun w => w_done w = true) closeAll_range
    (fun l w => (forall c rs, (c, rs) ∈ l <-> cc_regions (w_clients w) !! c = Some rs) /\
       closing (l ≫= fun x => elements x.2) [] w).
Proof.
  apply safe_atomic; [intros w w' Hr _; apply (rely_done _ _ _ _ _ Hr)|]. intros w Hw Hd.
  split; [by apply own_step_refl|]. split; [intros c rs; apply elem_of_range|]. split; [done| |constructor].
  apply Forall_forall. intros r ([c rs] & Hr%elem_of_elements & Hin%elem_of_range)%list_elem_of_bind.
  by apply (wo_clients w Hw c rs).
Qed.

Lemma elem_of_all_regions (l : list (cptr * gset ptr)) c rs r :
  (c, rs) ∈ l -> r ∈ rs -> r ∈ l ≫= fun x => elements x.2.
Proof.
  intros Hin Hr. apply list_elem_of_bind. exists (c, rs). split; [by apply elem_of_elements|done].
Qed.

Lemma safe_close_end K S :
  safe (closing K S) close_end (fun _ w => closing K S w /\ w_once w = OnceDone).
Proof.
  apply safe_atomic; [apply closing_stable|]. intros w Hw Hc. pose proof (cl_done _ _ _ Hc) as Hd.
  assert (own_step w (set_closing (w_done w) OnceDone w)) as Hs by (apply set_closing_step; [done..|by rewrite Hd]).
  split; [exact Hs|]. split; [|done]. by apply (closing_step _ _ _ _ Hs).
Qed.

(** The rest of [Close], when [closeAll] goes through [l]. *)
Definition close_rest (l : list (cptr * gset ptr)) : M (option (list (cptr * list (ptr * bool)))) :=
  marked ← close_clients l; _ ← close_end; mret (Some marked).

Lemma safe_close_rest l :
  safe (closing (l ≫= fun x => elements x.2) []) (close_rest l)
    (fun res w => w_done w = true /\ w_once w = OnceDone /\ exists marked, res = Some marked /\ closed_all l marked w /\
       Forall (shut_by w) (marked ≫= fun y => changed y.2)).
Proof.
  eapply safe_bind; [apply safe_close_clients; intros c rs r; apply elem_of_all_regions|]. intros marked. cbv beta.
  eapply safe_bind; [apply (safe_frame _ _ _ _ (closed_all l marked)), safe_close_end; apply closed_all_grows|].
  intros []. cbv beta. apply safe_ret. intros w _ [[[Hd _ Hs] Ho] Hl]. rewrite app_nil_r in Hs.
  split_and!; [done..|]. by exists marked.
Qed.

Lemma safe_Close :
  safe (fun _ => True) (Close RegionClientType None) (fun _ w => w_done w = true /\ w_once w = OnceDone).
Proof.
  eapply safe_bind; [apply safe_close_begin|]. intros []; cbv beta.
  - eapply safe_bind with (R := fun _ w => w_done w = true); [by apply safe_ret; intros w _ [Hd _]|]. intros _.
    unfold closeAll. intros evs w Hevs Hw Hd. rewrite bind_assoc. revert evs w Hevs Hw Hd.
    eapply safe_bind; [apply safe_closeAll_range|]. intros l. cbv beta.
    eapply safe_weaken; [apply safe_close_rest|by intros w _ [_ ?]|]. intros res w _ (? & ? & _). done.
  - apply safe_ret. intros w Hw [Hd Ho]. auto.
Qed.

End Closing.
