(* ===== verification/ClientProps.v ===== *)
(** * What the calls of the user return

    A client starts in a good state; [Close]; and the composition of the calls
    with [SendRPC] on a cached region. *)

From S2P Require Import Prelude RegionName Pb RegionInfo RegionTree KeyRegionCache Hrpc Mutate Scanner RpcError Multi ClientRegionCache World Rpc Establish Fuel Discipline Safety Retries FilterPb Filters FilterProps FilterSample Client Closing.

Section Start.
Context {T : RegionTree ptr} {HT : RegionTreeSpec ptr T} {HO : RangeOrder}.

(** A heap with one fixed region. *)
Lemma initial_world_ok ct a m p i made :
  fixed_region ct a m (Heap {[p := i]} (S p) 0 ∅) -> r_available i = None -> (ct = RegionClientType -> made = true) ->
  world_ok ct a m (initial_world (Heap {[p := i]} (S p) 0 ∅) made).
Proof.
  intros Hf Ha Hmk. apply world_ok_alone; [| |done|..|done].
  - split; simpl.
    + intros q j [<- <-]%lookup_singleton_Some. lia.
    + intros q j c [<- <-]%lookup_singleton_Some. by rewrite Ha.
    + intros c Hc. set_solver.
    + intros q q' j j' c [<- <-]%lookup_singleton_Some [<- <-]%lookup_singleton_Some. done.
  - rewrite items_new. split; [constructor|constructor|]. intros a' b i' j Ha'. by apply elem_of_nil in Ha'.
  - rewrite items_new. by intros kv ?%elem_of_nil.
  - intros q. split; [set_solver|]. intros (j & c & Hj & Hc). simpl in Hj. apply lookup_singleton_Some in Hj as [<- <-]. congruence.
Qed.

(** What a new client has. *)
Lemma new_client_world options c :
  newClient options = Ok c \/ newAdminClient options = Ok c ->
  world_ok (c_type c) (c_adminRegionInfo c) (c_metaRegionInfo c) (c_world c) /\
  exists h made, c_world c = initial_world h made.
Proof.
  unfold newClient, newAdminClient. cbn [NewInfo fst snd]. intros [H|H];
    (destruct (apply_options options default_config) as [cf|[]|] eqn:Ho; [|done]); injection H as <-; simpl.
  - split; [|by eexists _, _]. apply (initial_world_ok RegionClientType None (Some 0%nat) 0%nat); [|done..].
    split; [done|]. eexists 0%nat, _. split_and!; [done|apply lookup_singleton_eq|done].
  - split; [|by eexists _, _]. apply (initial_world_ok MasterClientType (Some 0%nat) None 0%nat); [|done..].
    split; [done|]. exists 0%nat. split; [done|]. eexists. apply lookup_singleton_eq.
Qed.

(** *** Options *)

Inductive opt :=
| ORpcQueueSize (size : Z)
| OZookeeperRoot (root : string)
| OZookeeperTimeout (to : Z)
| ORegionLookupTimeout (to : Z)
| ORegionReadTimeout (to : Z)
| OEffectiveUser (user : string)
| OFlushInterval (interval : Z)
| OCompressionCodec (codec : string).

Definition option_of (o : opt) : Option :=
  match o with
  | ORpcQueueSize n => RpcQueueSize n
  | OZookeeperRoot r => ZookeeperRoot r
  | OZookeeperTimeout to => ZookeeperTimeout to
  | ORegionLookupTimeout to => RegionLookupTimeout to
  | ORegionReadTimeout to => RegionReadTimeout to
  | OEffectiveUser u => EffectiveUser u
  | OFlushInterval i => FlushInterval i
  | OCompressionCodec s => CompressionCodec s
  end.

(** The value that the last option of a kind gives, or the default. *)
Definition chosen {A : Type} (kind : opt -> option A) (os : list opt) (def : A) : A := default def (last (omap kind os)).

(** What the options ask for, field by field, with the documented defaults in nanoseconds. *)
Record configured (os : list opt) (cf : config) : Prop := {
  co_queue : cf_rpcQueueSize cf = chosen (fun o => match o with ORpcQueueSize n => Some n | _ => None end) os 100;
  co_zkRoot : cf_zkRoot cf = chosen (fun o => match o with OZookeeperRoot r => Some r | _ => None end) os "/hbase"%string;
  co_zkTimeout : cf_zkTimeout cf = chosen (fun o => match o with OZookeeperTimeout to => Some to | _ => None end) os 30000000000;
  co_flush : cf_flushInterval cf = chosen (fun o => match o with OFlushInterval i => Some i | _ => None end) os 20000000;
  co_user : cf_effectiveUser cf = chosen (fun o => match o with OEffectiveUser u => Some u | _ => None end) os "root"%string;
  co_lookup : cf_regionLookupTimeout cf =
    chosen (fun o => match o with ORegionLookupTimeout to => Some to | _ => None end) os 30000000000;
  co_read : cf_regionReadTimeout cf =
    chosen (fun o => match o with ORegionReadTimeout to => Some to | _ => None end) os 30000000000;
  co_codec : cf_compressionCodec cf =
    chosen (fun o => match o with OCompressionCodec s => Some (Some s) | _ => None end) os None;
}.

Definition codecs_known (os : list opt) : Prop := forall s, OCompressionCodec s ∈ os -> s = "snappy"%string.

Lemma chosen_snoc {A : Type} (kind : opt -> option A) os o def :
  chosen kind (os ++ [o]) def = default (chosen kind os def) (kind o).
Proof. unfold chosen. rewrite omap_app. simpl. destruct (kind o); [by rewrite last_snoc|by rewrite app_nil_r]. Qed.

Lemma apply_options_app l k c :
  apply_options (l ++ k) c = let* c := apply_options l c in apply_options k c.
Proof.
  revert c. induction l as [|o l IH]; intros c; [done|]. simpl. destruct (o c) as [c'|[]|]; [apply IH|done].
Qed.

Lemma options_configure os :
  codecs_known os -> exists cf, apply_options (option_of <$> os) default_config = Ok cf /\ configured os cf.
Proof.
  induction os as [|o os IH] using rev_ind; intros Hk; [by eexists|].
  destruct IH as (cf & Hcf & []); [intros s Hs; apply Hk, elem_of_app; by left|].
  rewrite fmap_app, apply_options_app, Hcf. cbn [obind fmap list_fmap apply_options].
  assert (exists cf', option_of o cf = Ok cf' /\ configured (os ++ [o]) cf') as (cf' & -> & ?); [|by eexists].
  destruct o; cbn [option_of];
    try (eexists; split; [reflexivity|]; split; rewrite chosen_snoc; cbn [default cf_rpcQueueSize cf_zkRoot cf_zkTimeout
      cf_flushInterval cf_effectiveUser cf_regionLookupTimeout cf_regionReadTimeout cf_compressionCodec]; done).
  unfold CompressionCodec, compression_New. rewrite bool_decide_eq_true_2 by (apply Hk, elem_of_app; right; by left).
  eexists. split; [reflexivity|]. split; rewrite chosen_snoc; done.
Qed.

Lemma codecs_known_dec os : codecs_known os \/ ~ codecs_known os.
Proof.
  induction os as [|o os [IH|IH]]; [left; by intros s ?%elem_of_nil| |right; intros Hk; apply IH; intros s Hs; apply Hk; by right].
  assert (forall b : Prop, b \/ ~ b -> (b <-> codecs_known (o :: os)) -> codecs_known (o :: os) \/ ~ codecs_known (o :: os)) as Hiff
    by (intros b; tauto).
  apply (Hiff (forall s, o = OCompressionCodec s -> s = "snappy"%string)).
  - destruct o; try (left; done). destruct (decide (codec = "snappy"%string)) as [->|Hne]; [left; by intros s [= <-]|].
    right. intros Hk. by apply Hne, Hk.
  - split; [intros Ho s [?|?]%elem_of_cons; auto|]. intros Hk s ->. apply Hk. by left.
Qed.

Lemma options_crash os : ~ codecs_known os -> apply_options (option_of <$> os) default_config = Panic.
Proof.
  induction os as [|o os IH] using rev_ind; intros Hk; [destruct Hk; by intros s ?%elem_of_nil|].
  rewrite fmap_app, apply_options_app. destruct (codecs_known_dec os) as [Hos|Hos]; [|by rewrite IH].
  destruct (options_configure os Hos) as (cf & -> & _). cbn [obind fmap list_fmap apply_options].
  assert (forall s, OCompressionCodec s ∈ os ++ [o] -> OCompressionCodec s ∈ os \/ OCompressionCodec s = o) as Hin
    by (intros s [?|?%list_elem_of_singleton]%elem_of_app; auto).
  destruct o; try (destruct Hk; intros s [?|?]%Hin; [by apply Hos|done]).
  simpl. unfold CompressionCodec, compression_New. rewrite bool_decide_eq_false_2; [done|]. intros ->.
  destruct Hk. intros s [?|[= ->]]%Hin; [by apply Hos|done].
Qed.

(** C17. [newClient] and [newAdminClient] set every field of the configuration to
    the value of the last option given for it, or to its documented default, and
    crash exactly when a codec other than snappy is asked for.  The client they
    make has its one fixed region, is not closed, and is in a state that satisfies
    the invariant of all goroutines. *)
Theorem new_clients_ok os :
  (~ codecs_known os -> newClient (option_of <$> os) = Panic /\ newAdminClient (option_of <$> os) = Panic) /\
  (codecs_known os -> exists c ac, newClient (option_of <$> os) = Ok c /\ newAdminClient (option_of <$> os) = Ok ac /\
     configured os (c_config c) /\ configured os (c_config ac) /\
     c_type c = RegionClientType /\ c_type ac = MasterClientType /\
     (exists p i, c_metaRegionInfo c = Some p /\ h_infos (w_heap (c_world c)) !! p = Some i /\
        fullyQualifiedTable i = metaTableName /\ r_available i = None /\ r_client i = None) /\
     (exists p i, c_adminRegionInfo ac = Some p /\ h_infos (w_heap (c_world ac)) !! p = Some i /\
        r_available i = None /\ r_client i = None) /\
     forall c', c' = c \/ c' = ac ->
       world_ok (c_type c') (c_adminRegionInfo c') (c_metaRegionInfo c') (c_world c') /\
       w_owned (c_world c') = ∅ /\ w_done (c_world c') = false /\ w_once (c_world c') = OnceNew).
Proof.
  split; intros Hk.
  - unfold newClient, newAdminClient. by rewrite (options_crash os Hk).
  - destruct (options_configure os Hk) as (cf & Hcf & Hconf). unfold newClient, newAdminClient. rewrite Hcf.
    eexists _, _. split; [reflexivity|]. split; [reflexivity|]. split_and!; [done..| | |].
    + eexists 0%nat, _. split; [done|]. split; [apply lookup_singleton_eq|done].
    + eexists 0%nat, _. split; [done|]. split; [apply lookup_singleton_eq|done].
    + intros c' Hc'. destruct (new_client_world (option_of <$> os) c') as (Hw & h & made & Hh).
      { unfold newClient, newAdminClient. rewrite Hcf. destruct Hc' as [-> | ->]; [by left|by right]. }
      split; [done|]. by rewrite Hh.
Qed.

(** ** Close *)

Section Close.
Variable metaRegionInfo : option ptr.
Variable unmarshal_RegionInfo : bytes -> option RegionInfo.

Abbreviation world_ok := (world_ok RegionClientType None metaRegionInfo).
Abbreviation event_ok := (event_ok RegionClientType None metaRegionInfo unmarshal_RegionInfo).
Abbreviation Close := (Close RegionClientType None).

(** [Close] up to where [closeAll] has the connections it goes through. *)
Definition to_closeAll : M (list (cptr * gset ptr)) :=
  _ ← close_begin; _ ← close_admin RegionClientType None; closeAll_range.

Lemma to_closeAll_parts evs w :
  to_closeAll evs w = match close_begin evs w with
                      | Ok (_, evs1, w1) => closeAll_range evs1 w1
                      | Err e => Err e
                      | Panic => Panic
                      end.
Proof. unfold to_closeAll, mbind, M_bind. by destruct (close_begin evs w) as [[[first evs1] w1]| |]. Qed.

Lemma Close_parts evs w :
  Close evs w = match close_begin evs w with
                | Ok (true, evs1, w1) =>
                    match closeAll_range evs1 w1 with
                    | Ok (l, evs2, w2) => close_rest l evs2 w2
                    | Err e => Err e
                    | Panic => Panic
                    end
                | Ok (false, evs1, w1) => Ok (None, evs1, w1)
                | Err e => Err e
                | Panic => Panic
                end.
Proof.
  unfold Client.Close, closeAll, close_rest, mbind, M_bind. destruct (close_begin evs w) as [[[[] evs1] w1]| |]; try done.
  simpl. by destruct (closeAll_range evs1 w1) as [[[l evs2] w2]| |].
Qed.

(** What [Close] leaves behind when it has gone through the connections [l]. *)
Definition closed_down (l : list (cptr * gset ptr)) (marked : list (cptr * list (ptr * bool))) (w : world) : Prop :=
  closed_all l marked w /\
  forall c m r, (c, m) ∈ marked -> (r, true) ∈ m -> r ∈ w_owned w /\ unav (w_heap w) r /\ clientless (w_heap w) r.

Lemma closed_down_intro l marked w :
  world_ok w -> closed_all l marked w -> Forall (shut_by w) (marked ≫= fun y => changed y.2) -> closed_down l marked w.
Proof.
  intros Hw Hl Hs. split; [done|]. intros c m r Hm Hr.
  destruct (proj1 (Forall_forall _ _) Hs r) as [Ho Hc]; [|split_and!; [done|by apply (wo_owned w Hw)|done]].
  apply list_elem_of_bind. exists (c, m). split; [|done]. apply list_elem_of_omap. by exists (r, true).
Qed.

(** A call of [Close] after one that has returned. *)
Lemma Close_again e r w :
  event_ok e -> ev_ans e = AnsGo -> w_once w = OnceDone -> Close (e :: r) w = Ok (None, r, ev_env e w).
Proof.
  intros He Ha Ho. destruct (He w) as [Hr _]. unfold Client.Close, close_begin, atomic, await, mbind, M_bind. rewrite Ha.
  by rewrite (rely_once _ _ _ _ _ Hr Ho).
Qed.


End Close.

(** C37. The first [Close] of an admin client panics: [newAdminClient] does not
    make the [done] channel that [Close] closes, so the code of [Close] for the
    master's connection is never reached. *)
Theorem admin_Close_panics options c evs w :
  newAdminClient options = Ok c ->
  w_made w = w_made (c_world c) -> w_once w = w_once (c_world c) ->
  Forall (fun e => forall v, w_made (ev_env e v) = w_made v /\ w_once (ev_env e v) = w_once v) evs ->
  Close (c_type c) (c_adminRegionInfo c) evs w =
    match evs with
    | [] => Err (Waiting w)
    | e :: _ => match ev_ans e with AnsGo => Panic | _ => Err Blocked end
    end.
Proof.
  unfold newAdminClient. cbn [NewInfo fst snd]. intros H.
  destruct (apply_options options default_config) as [cf|[]|]; [|done]. injection H as <-. simpl. intros Hm Ho Hevs.
  destruct evs as [|e evs]; [done|]. apply Forall_cons in Hevs as [He _]. destruct (He w) as [Hm' Ho'].
  unfold Close, close_begin, atomic, await, mbind, M_bind. destruct (ev_ans e); try done. by rewrite Ho', Ho, Hm', Hm.
Qed.

End Start.

(** ** The calls on a cached region *)

Section Calls.
Context {T : RegionTree ptr} {HO : RangeOrder}.
Variable metaRegionInfo : option ptr.
Variable unmarshal_RegionInfo : bytes -> option RegionInfo.
Variable w : world.
Variable reg : ptr.
Variable i : info.
Variable c : cptr.

(** The region of the row is cached, available and has a client. *)
Definition ready (table key : bytes) : Prop :=
  table <> metaTableName /\ w_made w = true /\ @cachedRegion T Empty_set table key (w_regions w) (w_heap w) = Ok (Some reg) /\
  h_infos (w_heap w) !! reg = Some i /\ r_available i = None /\ r_client i = Some c.

Lemma ready_SendRPC table key es r evs :
  ready table key -> (forall e, Res_Error r = Some e -> exists m, e = PlainError m) ->
  SendRPC RegionClientType None metaRegionInfo unmarshal_RegionInfo table key ((es ≫= failed_attempt) ++ attempt r ++ evs) w
  = Ok ((Res_Msg r, CallErr <$> Res_Error r), evs, w).
Proof.
  intros (Ht & Hmk & Hc & Hi & Ha & Hr) He. unfold SendRPC. apply (send_loop_retries metaRegionInfo unmarshal_RegionInfo table key w reg i c);
    [done..| |done|done]. rewrite length_app. pose proof (length_failed_attempts es). lia.
Qed.

(** What a response makes of a get. *)
Definition get_answer (m : option Message) (e : option rpc_error) : LocalResult + user_error :=
  match e, m with
  | Some e, _ => inr (UErr (CallErr e))
  | None, Some (MGet r) => inl (ToLocalResult (GetResponse_Result r))
  | None, _ => inr (NotA "GetResponse")
  end.

Abbreviation Get := (Client.Get RegionClientType None metaRegionInfo unmarshal_RegionInfo).
Abbreviation mutate := (Client.mutate RegionClientType None metaRegionInfo unmarshal_RegionInfo).
Abbreviation Increment := (Client.Increment RegionClientType None metaRegionInfo unmarshal_RegionInfo).
Abbreviation CheckAndPut := (Client.CheckAndPut RegionClientType None metaRegionInfo unmarshal_RegionInfo).

(** A get on a ready region returns the row that the server answers with,
    after any number of retryable errors: the cells of the response in their
    order, or the error of the call, or an error for a response of another
    kind. *)
Theorem Get_returns_row g es r evs :
  ready (b_table (g_base g)) (b_key (g_base g)) -> (forall e, Res_Error r = Some e -> exists m, e = PlainError m) ->
  Get g ((es ≫= failed_attempt) ++ attempt r ++ evs) w = Ok (get_answer (Res_Msg r) (Res_Error r), evs, w).
Proof.
  intros Hr He. unfold Client.Get. erewrite bind_ok by (by apply ready_SendRPC).
  by destruct (Res_Msg r) as [[]|], (Res_Error r).
Qed.

Lemma ready_mutate m es resp evs :
  ready (b_table (m_base m)) (b_key (m_base m)) ->
  mutate m ((es ≫= failed_attempt) ++ attempt (okResult (MMutate resp)) ++ evs) w
  = Ok (inl (ToLocalResult (MutateResponse_Result resp)), evs, w).
Proof. intros Hr. unfold Client.mutate. by erewrite bind_ok by (by apply ready_SendRPC). Qed.

(** An increment on a ready region returns the counter: when the server
    answers with one cell that holds a signed 64-bit number in big-endian order,
    that number, negative ones included; with any other number of cells, an
    error that says so. *)
Theorem Increment_returns_counter m es resp evs :
  ready (b_table (m_base m)) (b_key (m_base m)) ->
  match Cells (ToLocalResult (MutateResponse_Result resp)) with
  | [cell] => forall v, - 2 ^ 63 <= v < 2 ^ 63 -> Value cell = PutUint64 (u64 v) ->
      Increment m ((es ≫= failed_attempt) ++ attempt (okResult (MMutate resp)) ++ evs) w = Ok (inl v, evs, w)
  | cells =>
      Increment m ((es ≫= failed_attempt) ++ attempt (okResult (MMutate resp)) ++ evs) w
      = Ok (inr (IncrementCells (len cells)), evs, w)
  end.
Proof.
  intros Hr. assert (forall o, increment_value (ToLocalResult (MutateResponse_Result resp)) = Ok o ->
    Increment m ((es ≫= failed_attempt) ++ attempt (okResult (MMutate resp)) ++ evs) w = Ok (o, evs, w)) as Hinc.
  { intros o Ho. unfold Client.Increment. erewrite bind_ok by (by apply ready_mutate). cbv beta iota. unfold pure. by rewrite Ho. }
  destruct (Cells (ToLocalResult (MutateResponse_Result resp))) as [|cell [|cell2 cells]] eqn:Hc.
  - apply Hinc. unfold increment_value. by rewrite Hc.
  - intros v Hv Hval. apply Hinc. unfold increment_value. rewrite Hc, Hval. unfold PutUint64, Uint64.
    pose proof (UintN_encode (E := Empty_set) 8 (u64 v) []) as Hu. rewrite app_nil_r in Hu.
    rewrite Hu by (unfold u64; apply Z.mod_pos_bound; lia). simpl. by rewrite i64_u64.
  - apply Hinc. unfold increment_value. by rewrite Hc.
Qed.

(** An increment whose answer has one cell with fewer than eight bytes makes
    the client panic instead of returning an error. *)
Theorem Increment_short_value_panics m es resp cell evs :
  ready (b_table (m_base m)) (b_key (m_base m)) ->
  Cells (ToLocalResult (MutateResponse_Result resp)) = [cell] -> len (Value cell) < 8 ->
  Increment m ((es ≫= failed_attempt) ++ attempt (okResult (MMutate resp)) ++ evs) w = Panic.
Proof.
  intros Hr Hc Hl. unfold Client.Increment. erewrite bind_ok by (by apply ready_mutate). cbv beta iota.
  unfold pure, increment_value. rewrite Hc. unfold Uint64, UintN. rewrite bool_decide_eq_false_2 by lia. done.
Qed.

Section Cas.
Context {P : Marshaling} {HP : MarshalingSpec P}.

(** [CheckAndPut] takes only puts and sends nothing otherwise; on a ready
    region it returns whether the server has put the value, and an error when
    the response does not say.  The condition that is sent decodes to the
    expected value. *)
Theorem CheckAndPut_outcome p family qualifier value es resp evs :
  ready (b_table (m_base p)) (b_key (m_base p)) ->
  (m_mutationType p <> PUT -> CheckAndPut p family qualifier value evs w
     = Ok (inr (UOption "'CheckAndPut' only takes 'Put' request"), evs, w)) /\
  (m_mutationType p = PUT ->
     (exists cas, NewCheckAndPut p family qualifier (expected value) = Ok cas /\
        decode_comparator (cp_comparator cas) = Some (C_BinaryComparator (mkBinaryComparator (Some (mkByteArrayComparable value))))) /\
     CheckAndPut p family qualifier value ((es ≫= failed_attempt) ++ attempt (okResult (MMutate resp)) ++ evs) w
     = Ok (match MutateResponse_Processed resp with Some b => inl b | None => inr NoProcessed end, evs, w)).
Proof.
  intros Hr. unfold Client.CheckAndPut, NewCheckAndPut. split; intros Hp.
  - by rewrite bool_decide_eq_true_2.
  - rewrite bool_decide_eq_false_2 by auto. unfold expected.
    pose proof (ConstructPBComparator_encodable (C_BinaryComparator (NewBinaryComparator (Some (NewByteArrayComparable value))))) as H.
    destruct H as (cmp & -> & Hd). cbn [obind]. split; [eexists; split; [reflexivity|exact Hd]|].
    cbv beta iota. cbn [cp_mutate m_base]. erewrite bind_ok by (by apply ready_SendRPC). cbv beta iota. cbn [Res_Msg Res_Error okResult fmap option_fmap option_map].
    unfold GetProcessed. by destruct (MutateResponse_Processed resp).
Qed.

End Cas.

End Calls.

(** ** On the client with one table *)

Definition sample_base : base := mkBase 0 (bs "t") (bs "row") [] None.
Definition sample_get : Hrpc.Get := mkGet sample_base newBaseQuery false false.
Definition sample_mutate (t : MutationType) : Hrpc.Mutate := mkMutate sample_base t ∅ [] 0 0 false false.

Definition counter (v : bytes) : MutateResponse :=
  mkMutateResponse (Some (mkResult [mkCell (bs "row") (bs "cf") (bs "n") None None v] None None None None)) None.

Lemma sample_ready : ready sample_world 1 sample_table 7 (bs "t") (bs "row").
Proof. split_and!; try reflexivity. vm_compute. discriminate. Qed.

Lemma new_clients_ok_witness :
  exists c, @newClient list_tree (option_of <$> [ORpcQueueSize 1; OCompressionCodec "snappy"; ORpcQueueSize 2]) = Ok c /\
    cf_rpcQueueSize (c_config c) = 2 /\ cf_compressionCodec (c_config c) = Some "snappy"%string /\
    world_ok (c_type c) (c_adminRegionInfo c) (c_metaRegionInfo c) (c_world c).
Proof.
  destruct (@new_clients_ok list_tree list_tree_spec [ORpcQueueSize 1; OCompressionCodec "snappy"; ORpcQueueSize 2]) as [_ H].
  destruct H as (c & ac & Hc & _ & Hconf & _ & _ & _ & _ & _ & Hw).
  - intros s [H|[[= <-]|[H|H]%elem_of_cons]%elem_of_cons]%elem_of_cons; [discriminate H|reflexivity|discriminate H|].
    by apply elem_of_nil in H.
  - exists c. split; [exact Hc|]. split; [apply (co_queue _ _ Hconf)|]. split; [apply (co_codec _ _ Hconf)|].
    apply Hw. left. reflexivity.
Defined.

(** A client with one connection, to the server of the region. *)
Definition sample_connected : @world list_tree :=
  set_clients (mkClients {[7%nat := {[1%nat]}]} {[7%nat := "host:1"%string]} 8 ∅) (w_heap sample_world) sample_world.

Lemma sample_connected_ok : world_ok RegionClientType None (Some 0%nat) sample_connected.
Proof.
  eapply own_step_ok; [apply sample_world_ok|]. apply own_step_clients; [apply sample_world_ok| |done].
  simpl. intros c rs r [<- <-]%lookup_singleton_Some ->%elem_of_singleton.
  apply (wo_items_good _ sample_world_ok (r_name sample_table, 1%nat)). by left.
Qed.

Lemma sample_close_returns :
  match Close RegionClientType None (replicate 6 (quiet AnsGo)) sample_connected with
  | Ok (Some marked, [], _) => bool_decide (marked = [(7%nat, [(1%nat, true)])])
  | _ => false
  end = true.
Proof. vm_compute. reflexivity. Qed.


Lemma admin_Close_panics_witness :
  exists c, @newAdminClient list_tree [] = Ok c /\
    Close (c_type c) (c_adminRegionInfo c) [quiet AnsGo] (c_world c) = Panic.
Proof.
  eexists. split; [reflexivity|].
  erewrite (admin_Close_panics []); [reflexivity|reflexivity|reflexivity|reflexivity|].
  constructor; [|constructor]. intros v. split; reflexivity.
Defined.

Lemma Get_returns_row_witness :
  Client.Get RegionClientType None (Some 0%nat) (fun _ => None) sample_get
    ((["busy"%string] ≫= failed_attempt) ++ attempt (okResult (MGet (mkGetResponse None))) ++ []) sample_world
  = Ok (inl (mkLocalResult [] false false None), [], sample_world).
Proof. apply (Get_returns_row (Some 0%nat) (fun _ => None) sample_world 1 sample_table 7); [apply sample_ready|done]. Defined.

Lemma Increment_returns_counter_witness :
  Client.Increment RegionClientType None (Some 0%nat) (fun _ => None) (sample_mutate INCREMENT)
    ((["busy"%string] ≫= failed_attempt) ++ attempt (okResult (MMutate (counter (PutUint64 (u64 (-5)))))) ++ []) sample_world
  = Ok (inl (-5), [], sample_world).
Proof.
  apply (Increment_returns_counter (Some 0%nat) (fun _ => None) sample_world 1 sample_table 7 (sample_mutate INCREMENT)
    ["busy"%string] (counter (PutUint64 (u64 (-5)))) []); [apply sample_ready|lia|reflexivity].
Defined.

Lemma Increment_short_value_panics_witness :
  Client.Increment RegionClientType None (Some 0%nat) (fun _ => None) (sample_mutate INCREMENT)
    (([] ≫= failed_attempt) ++ attempt (okResult (MMutate (counter (bs "12")))) ++ []) sample_world = Panic.
Proof.
  apply (Increment_short_value_panics (Some 0%nat) (fun _ => None) sample_world 1 sample_table 7 (sample_mutate INCREMENT)
    [] (counter (bs "12")) (mkCell (bs "row") (bs "cf") (bs "n") None None (bs "12")) []);
    [apply sample_ready|reflexivity|reflexivity].
Defined.

Lemma CheckAndPut_outcome_witness :
  Client.CheckAndPut RegionClientType None (Some 0%nat) (fun _ => None) (sample_mutate PUT) (bs "cf") (bs "q") (Some (bs "v"))
    (([] ≫= failed_attempt) ++ attempt (okResult (MMutate (mkMutateResponse None (Some true)))) ++ []) sample_world
  = Ok (inl true, [], sample_world).
Proof.
  apply (CheckAndPut_outcome (Some 0%nat) (fun _ => None) sample_world 1 sample_table 7 (sample_mutate PUT) (bs "cf") (bs "q")
    (Some (bs "v")) [] (mkMutateResponse None (Some true)) []); [apply sample_ready|reflexivity].
Defined.
