(* ===== verification/AdminCalls.v ===== *)
(** * The calls to the master: hrpc/create.go, delete.go, enable.go, disable.go,
      create_namespace.go, procedure.go, snapshot.go, list.go, balancer.go,
      move.go, status.go

    Per call its fields, constructor, [Name], [ToProto] and the type of message
    that [NewResponse] makes.  Contexts and result channels belong to the
    region client.  Maps are iterated in an unspecified order. *)

From S2P Require Import Prelude RegionName Pb Hrpc.

(** ** The requests: pb/Master.pb.go *)

Record BytesPair := mkBytesPair { BP_First : bytes; BP_Second : bytes }.
Record ColumnFamilySchema := mkColumnFamilySchema { CFS_Name : bytes; CFS_Attributes : list BytesPair }.
Record TableSchema := mkTableSchema {
  TS_TableName : TableName;
  TS_Attributes : list BytesPair;
  TS_ColumnFamilies : list ColumnFamilySchema;
}.
Record ServerName := mkServerName { SN_HostName : bytes; SN_Port : Z; SN_StartCode : Z }.

Inductive AdminRequest :=
| CreateTableRequest (schema : TableSchema) (splitKeys : list bytes)
| DeleteTableRequest (t : TableName)
| EnableTableRequest (t : TableName)
| DisableTableRequest (t : TableName)
| CreateNamespaceRequest (name : bytes)
| GetProcedureResultRequest (procId : Z)
| SnapshotRequest (s : SnapshotDescription)
| GetCompletedSnapshotsRequest
| GetTableNamesRequest (regex : string) (includeSysTables : bool) (namespace : string)
| SetBalancerRunningRequest (on : bool)
| MoveRegionRequest (region : RegionSpecifier) (dest : option ServerName)
| GetClusterStatusRequest.

(** The type of a response. *)
Inductive response_type :=
| TCreateTable | TDeleteTable | TEnableTable | TDisableTable | TCreateNamespace | TGetProcedureResult | TSnapshot
| TIsSnapshotDone | TDeleteSnapshot | TGetCompletedSnapshots | TRestoreSnapshot | TIsRestoreSnapshotDone
| TGetTableNames | TSetBalancerRunning | TMoveRegion | TGetClusterStatus.

Definition type_of (r : AdminResponse) : response_type :=
  match r with
  | CreateTableResponse _ => TCreateTable
  | DeleteTableResponse _ => TDeleteTable
  | EnableTableResponse _ => TEnableTable
  | DisableTableResponse _ => TDisableTable
  | CreateNamespaceResponse => TCreateNamespace
  | GetProcedureResultResponse _ _ => TGetProcedureResult
  | SnapshotResponse => TSnapshot
  | IsSnapshotDoneResponse _ => TIsSnapshotDone
  | DeleteSnapshotResponse => TDeleteSnapshot
  | GetCompletedSnapshotsResponse _ => TGetCompletedSnapshots
  | RestoreSnapshotResponse => TRestoreSnapshot
  | IsRestoreSnapshotDoneResponse _ => TIsRestoreSnapshotDone
  | GetTableNamesResponse _ => TGetTableNames
  | SetBalancerRunningResponse _ => TSetBalancerRunning
  | MoveRegionResponse => TMoveRegion
  | GetClusterStatusResponse _ => TGetClusterStatus
  end.

(** ** Tables *)

Abbreviation attributes := (gmap bytes bytes).

Record CreateTable := mkCreateTable {
  ct_table : bytes;
  ct_attributes : attributes;
  ct_families : gmap bytes attributes;
  ct_splitKeys : list bytes;
}.

Definition defaultFamiliesAttributes : attributes :=
  list_to_map [
    (bs "BLOOMFILTER", bs "ROW");
    (bs "VERSIONS", bs "3");
    (bs "IN_MEMORY", bs "false");
    (bs "KEEP_DELETED_CELLS", bs "false");
    (bs "DATA_BLOCK_ENCODING", bs "FAST_DIFF");
    (bs "TTL", bs "2147483647");
    (bs "COMPRESSION", bs "NONE");
    (bs "MIN_VERSIONS", bs "0");
    (bs "BLOCKCACHE", bs "true");
    (bs "BLOCKSIZE", bs "65536");
    (bs "REPLICATION_SCOPE", bs "0")].

Definition SplitKeys (sk : list bytes) (ct : CreateTable) : CreateTable :=
  mkCreateTable (ct_table ct) (ct_attributes ct) (ct_families ct) sk.
Definition TableAttributes (attrs : attributes) (ct : CreateTable) : CreateTable :=
  mkCreateTable (ct_table ct) attrs (ct_families ct) (ct_splitKeys ct).

(** The attributes of a family: for each default, the given value or the default. *)
Definition family_attributes (attrs : attributes) : attributes :=
  map_imap (fun k dv => Some (default dv (attrs !! k))) defaultFamiliesAttributes.

Definition NewCreateTable (table : bytes) (families : gmap bytes attributes) (options : list (CreateTable -> CreateTable))
    : CreateTable :=
  let ct := foldl (fun ct option => option ct) (mkCreateTable table ∅ ∅ []) options in
  mkCreateTable (ct_table ct) (ct_attributes ct) (family_attributes <$> families) (ct_splitKeys ct).

Definition CreateTable_Name : string := "CreateTable".
Definition CreateTable_NewResponse : response_type := TCreateTable.

Definition pairs `{RangeOrder} (site : list nat) (attrs : attributes) : list BytesPair :=
  (fun kv => mkBytesPair kv.1 kv.2) <$> range site attrs.

Definition CreateTable_ToProto `{RangeOrder} (ct : CreateTable) : AdminRequest :=
  let '(namespace, table) := parseTableName (ct_table ct) in
  CreateTableRequest
    (mkTableSchema (mkTableName namespace table) (pairs [0%nat] (ct_attributes ct))
      (imap (fun i fam => mkColumnFamilySchema fam.1 (pairs [1%nat; i] fam.2)) (range [1%nat] (ct_families ct))))
    (ct_splitKeys ct).

(** The other table calls do not split the name. *)
Record DeleteTable := mkDeleteTable { dt_table : bytes }.
Definition NewDeleteTable (table : bytes) : DeleteTable := mkDeleteTable table.
Definition DeleteTable_Name : string := "DeleteTable".
Definition DeleteTable_ToProto (dt : DeleteTable) : AdminRequest :=
  DeleteTableRequest (mkTableName (bs "default") (dt_table dt)).
Definition DeleteTable_NewResponse : response_type := TDeleteTable.

Record EnableTable := mkEnableTable { et_table : bytes }.
Definition NewEnableTable (table : bytes) : EnableTable := mkEnableTable table.
Definition EnableTable_Name : string := "EnableTable".
Definition EnableTable_ToProto (et : EnableTable) : AdminRequest :=
  EnableTableRequest (mkTableName (bs "default") (et_table et)).
Definition EnableTable_NewResponse : response_type := TEnableTable.

Record DisableTable := mkDisableTable { dit_table : bytes }.
Definition NewDisableTable (table : bytes) : DisableTable := mkDisableTable table.
Definition DisableTable_Name : string := "DisableTable".
Definition DisableTable_ToProto (dt : DisableTable) : AdminRequest :=
  DisableTableRequest (mkTableName (bs "default") (dit_table dt)).
Definition DisableTable_NewResponse : response_type := TDisableTable.

(** The options of [NewCreateNamespace] are not applied. *)
Record CreateNamespace := mkCreateNamespace { cn_name : bytes }.
Definition NewCreateNamespace (namespace : bytes) (options : list (CreateNamespace -> CreateNamespace)) : CreateNamespace :=
  mkCreateNamespace namespace.
Definition CreateNamespace_Name : string := "CreateNamespace".
Definition CreateNamespace_ToProto (cn : CreateNamespace) : AdminRequest := CreateNamespaceRequest (cn_name cn).
Definition CreateNamespace_NewResponse : response_type := TCreateNamespace.

Record GetProcedureState := mkGetProcedureState { ps_procID : Z }.
Definition NewGetProcedureState (procID : Z) : GetProcedureState := mkGetProcedureState procID.
Definition GetProcedureState_Name : string := "getProcedureResult".
Definition GetProcedureState_ToProto (ps : GetProcedureState) : AdminRequest := GetProcedureResultRequest (ps_procID ps).
Definition GetProcedureState_NewResponse : response_type := TGetProcedureResult.

Definition ClusterStatus_Name : string := "GetClusterStatus".
Definition ClusterStatus_ToProto : AdminRequest := GetClusterStatusRequest.
Definition ClusterStatus_NewResponse : response_type := TGetClusterStatus.

Record SetBalancer := mkSetBalancer { sb_on : bool }.
Definition NewSetBalancer (enabled : bool) : SetBalancer := mkSetBalancer enabled.
Definition SetBalancer_Name : string := "SetBalancerRunning".
Definition SetBalancer_ToProto (sb : SetBalancer) : AdminRequest := SetBalancerRunningRequest (sb_on sb).
Definition SetBalancer_NewResponse : response_type := TSetBalancerRunning.

(** ** Snapshots *)

Record snap := mkSnap {
  s_name : string;
  s_table : string;
  s_snapshotType : option Z;
  s_version : Z;
  s_owner : string;
}.

Definition snap_ToProto (s : snap) : SnapshotDescription :=
  mkSnapshotDescription (Some (s_name s)) (Some (s_table s)) (s_snapshotType s) (Some (s_version s)) (Some (s_owner s)).

Definition snap_Version (v : Z) (s : snap) : snap := mkSnap (s_name s) (s_table s) (s_snapshotType s) v (s_owner s).
Definition snap_Owner (o : string) (s : snap) : snap := mkSnap (s_name s) (s_table s) (s_snapshotType s) (s_version s) o.
Definition snap_Type (t : Z) (s : snap) : snap := mkSnap (s_name s) (s_table s) (Some t) (s_version s) (s_owner s).

Record ListTableNames := mkListTableNames { tn_regex : string; tn_includeSysTables : bool; tn_namespace : string }.
Record MoveRegion := mkMoveRegion { mr_region : RegionSpecifier; mr_dest : option ServerName }.

(** The calls that take options. *)
Inductive optioned :=
| OSnapshot (s : snap)
| OListTableNames (l : ListTableNames)
| OMoveRegion (m : MoveRegion).

Definition option_fn : Type := optioned -> outcome error optioned.

Definition SnapshotVersion (v : Z) : option_fn := fun g =>
  match g with
  | OSnapshot s => Ok (OSnapshot (snap_Version v s))
  | _ => Err "'SnapshotVersion' option can only be used with Snapshot queries"%string
  end.
Definition SnapshotOwner (o : string) : option_fn := fun g =>
  match g with
  | OSnapshot s => Ok (OSnapshot (snap_Owner o s))
  | _ => Err "'SnapshotOwner' option can only be used with Snapshot queries"%string
  end.
Definition SnapshotSkipFlush : option_fn := fun g =>
  match g with
  | OSnapshot s => Ok (OSnapshot (snap_Type SnapshotDescription_SKIPFLUSH s))
  | _ => Err "'SnapshotSkipFlush' option can only be used with Snapshot queries"%string
  end.

Fixpoint apply_all (options : list option_fn) (c : optioned) : outcome error optioned :=
  match options with
  | [] => Ok c
  | option :: options => let* c := option c in apply_all options c
  end.

Definition NewSnapshot (name table : string) (opts : list option_fn) : outcome error optioned :=
  apply_all opts (OSnapshot (mkSnap name table None 0 "")).

Definition Snapshot_Name : string := "Snapshot".
Definition Snapshot_ToProto (s : snap) : AdminRequest := SnapshotRequest (snap_ToProto s).
Definition Snapshot_NewResponse : response_type := TSnapshot.

(** These three embed the snapshot: they are sent with its [ToProto]. *)
Definition SnapshotDone_Name : string := "IsSnapshotDone".
Definition SnapshotDone_NewResponse : response_type := TIsSnapshotDone.
Definition DeleteSnapshot_Name : string := "DeleteSnapshot".
Definition DeleteSnapshot_NewResponse : response_type := TDeleteSnapshot.
Definition RestoreSnapshot_Name : string := "RestoreSnapshot".
Definition RestoreSnapshot_NewResponse : response_type := TRestoreSnapshot.
Definition RestoreSnapshotDone_Name : string := "IsRestoreSnapshotDone".
Definition RestoreSnapshotDone_NewResponse : response_type := TIsRestoreSnapshotDone.

Definition ListSnapshots_Name : string := "GetCompletedSnapshots".
Definition ListSnapshots_ToProto : AdminRequest := GetCompletedSnapshotsRequest.
Definition ListSnapshots_NewResponse : response_type := TGetCompletedSnapshots.

(** ** Listing tables *)

Definition ListRegex (regex : string) : option_fn := fun c =>
  match c with
  | OListTableNames l => Ok (OListTableNames (mkListTableNames regex (tn_includeSysTables l) (tn_namespace l)))
  | _ => Err "ListRegex option can only be used with ListTableNames"%string
  end.
Definition ListNamespace (ns : string) : option_fn := fun c =>
  match c with
  | OListTableNames l => Ok (OListTableNames (mkListTableNames (tn_regex l) (tn_includeSysTables l) ns))
  | _ => Err "ListNamespace option can only be used with ListTableNames"%string
  end.
Definition ListSysTables (b : bool) : option_fn := fun c =>
  match c with
  | OListTableNames l => Ok (OListTableNames (mkListTableNames (tn_regex l) b (tn_namespace l)))
  | _ => Err "ListSysTables option can only be used with ListTableNames"%string
  end.

Definition NewListTableNames (opts : list option_fn) : outcome error optioned :=
  apply_all opts (OListTableNames (mkListTableNames ".*" false "")).

Definition ListTableNames_Name : string := "GetTableNames".
Definition ListTableNames_ToProto (l : ListTableNames) : AdminRequest :=
  GetTableNamesRequest (tn_regex l) (tn_includeSysTables l) (tn_namespace l).
Definition ListTableNames_NewResponse : response_type := TGetTableNames.

(** ** Moving a region *)

(** [strings.Cut] at the first comma. *)
Fixpoint cut (s : bytes) : option (bytes * bytes) :=
  match s with
  | [] => None
  | b :: s => if bool_decide (b = comma) then Some ([], s) else (fun ab => (b :: ab.1, ab.2)) <$> cut s
  end.

(** [strings.SplitN(s, ",", 3)] when it has three parts. *)
Definition SplitN3 (s : bytes) : option (bytes * bytes * bytes) :=
  match cut s with
  | None => None
  | Some (a, s) => match cut s with None => None | Some (b, c) => Some (a, b, c) end
  end.

Definition digit (b : byte) : option Z :=
  if bool_decide (48 <= Z_of_byte b <= 57) then Some (Z_of_byte b - 48) else None.

Fixpoint parse_digits (s : bytes) (acc : Z) : option Z :=
  match s with
  | [] => Some acc
  | b :: s => match digit b with Some d => parse_digits s (acc * 10 + d) | None => None end
  end.

(** [strconv.ParseUint(s, 10, bitSize)] *)
Definition ParseUint (s : bytes) (bitSize : Z) : option Z :=
  match s with
  | [] => None
  | _ =>
      match parse_digits s 0 with
      | Some n => if bool_decide (n < 2 ^ bitSize) then Some n else None
      | None => None
      end
  end.

Definition WithDestinationRegionServer (serverName : bytes) : option_fn := fun c =>
  match c with
  | OMoveRegion mr =>
      match SplitN3 serverName with
      | None => Err "invalid server name, needs to be of format <host>,<port>,<startcode>"%string
      | Some (host, port, startcode) =>
          match ParseUint port 32 with
          | None => Err "failed to parse port"%string
          | Some port =>
              match ParseUint startcode 64 with
              | None => Err "failed to parse startcode"%string
              | Some startCode => Ok (OMoveRegion (mkMoveRegion (mr_region mr) (Some (mkServerName host port startCode))))
              end
          end
      end
  | _ => Err "WithDestinationRegionServer option can only be used with MoveRegion"%string
  end.

Definition NewMoveRegion (regionName : bytes) (opts : list option_fn) : outcome error optioned :=
  apply_all opts (OMoveRegion (mkMoveRegion (mkRegionSpecifier ENCODED_REGION_NAME regionName) None)).

Definition MoveRegion_Name : string := "MoveRegion".
Definition MoveRegion_ToProto (m : MoveRegion) : AdminRequest := MoveRegionRequest (mr_region m) (mr_dest m).
Definition MoveRegion_NewResponse : response_type := TMoveRegion.
