(* ===== verification/AdminClient.v ===== *)
(** * The administrative client: admin_client.go

    Every method sends a call with [SendRPC] to the master and reads its answer;
    table operations then poll the procedure that the master has started, and
    [CreateSnapshot] polls the snapshot.  The methods return, beside their
    result, the calls they sent, in order. *)

From S2P Require Import Prelude RegionName Pb RegionInfo RegionTree KeyRegionCache Hrpc RpcError Multi ClientRegionCache World Rpc AdminCalls.

(** A call as it is sent: its name, its request and the message for its response. *)
Record acall := mkACall { a_name : string; a_request : AdminRequest; a_response : response_type }.

Inductive aerr :=
| AErr (e : cerr)
| ANotA (response : string)
| ProcedureNotFound
| EmptyException
| ProcedureException (className message : string).

(** ** The answers, as the methods read them *)

Abbreviation reading A := (option Message -> A + aerr).

Definition CreateTable_reply : reading Z := fun m =>
  match m with
  | Some (MAdmin (CreateTableResponse procId)) => inl (default 0 procId)
  | _ => inr (ANotA "CreateTableResponse")
  end.
Definition DeleteTable_reply : reading Z := fun m =>
  match m with
  | Some (MAdmin (DeleteTableResponse procId)) => inl (default 0 procId)
  | _ => inr (ANotA "DeleteTableResponse")
  end.
Definition EnableTable_reply : reading Z := fun m =>
  match m with
  | Some (MAdmin (EnableTableResponse procId)) => inl (default 0 procId)
  | _ => inr (ANotA "EnableTableResponse")
  end.
Definition DisableTable_reply : reading Z := fun m =>
  match m with
  | Some (MAdmin (DisableTableResponse procId)) => inl (default 0 procId)
  | _ => inr (ANotA "DisableTableResponse")
  end.
Definition CreateNamespace_reply : reading unit := fun m =>
  match m with
  | Some (MAdmin CreateNamespaceResponse) => inl tt
  | _ => inr (ANotA "CreateTableResponse")          (* sic *)
  end.
Definition ClusterStatus_reply : reading (option string) := fun m =>
  match m with
  | Some (MAdmin (GetClusterStatusResponse status)) => inl status
  | _ => inr (ANotA "ClusterStatusResponse")
  end.
Definition CreateSnapshot_reply : reading unit := fun m =>
  match m with
  | Some (MAdmin SnapshotResponse) => inl tt
  | _ => inr (ANotA "SnapshotResponse")
  end.
Definition SnapshotDone_reply : reading bool := fun m =>
  match m with
  | Some (MAdmin (IsSnapshotDoneResponse done)) => inl (default false done)
  | _ => inr (ANotA "IsSnapshotDoneResponse")
  end.
Definition DeleteSnapshot_reply : reading unit := fun m =>
  match m with
  | Some (MAdmin DeleteSnapshotResponse) => inl tt
  | _ => inr (ANotA "DeleteSnapshotResponse")
  end.
Definition ListSnapshots_reply : reading (list SnapshotDescription) := fun m =>
  match m with
  | Some (MAdmin (GetCompletedSnapshotsResponse l)) => inl l
  | _ => inr (ANotA "GetCompletedSnapshotsResponse")
  end.
Definition RestoreSnapshot_reply : reading unit := fun m =>
  match m with
  | Some (MAdmin RestoreSnapshotResponse) => inl tt
  | _ => inr (ANotA "RestoreSnapshotResponse")
  end.
Definition ListTableNames_reply : reading (list TableName) := fun m =>
  match m with
  | Some (MAdmin (GetTableNamesResponse l)) => inl l
  | _ => inr (ANotA "GetTableNamesResponse")
  end.
Definition SetBalancer_reply : reading bool := fun m =>
  match m with
  | Some (MAdmin (SetBalancerRunningResponse prev)) => inl (default false prev)
  | _ => inr (ANotA "SetBalancerRunningResponse")
  end.
Definition MoveRegion_reply : reading unit := fun m =>
  match m with
  | Some (MAdmin MoveRegionResponse) => inl tt
  | _ => inr (ANotA "MoveRegionResponse")
  end.

(** What the state of a procedure means; [None]: poll again.  The type assertion
    is not checked: another message crashes. *)
Definition procedure_verdict (m : option Message) : outcome Empty_set (option (option aerr)) :=
  match m with
  | Some (MAdmin (GetProcedureResultResponse state exception)) =>
      let state := default GetProcedureResultResponse_NOT_FOUND state in
      if bool_decide (state = GetProcedureResultResponse_NOT_FOUND) then Ok (Some (Some ProcedureNotFound))
      else if bool_decide (state = GetProcedureResultResponse_FINISHED) then
        Ok (Some match exception with
                 | None => None
                 | Some None => Some EmptyException
                 | Some (Some ge) => Some (ProcedureException (default ""%string (GE_ClassName ge)) (default ""%string (GE_Message ge)))
                 end)
      else Ok None
  | _ => Panic
  end.

Section Admin.
Context {T : RegionTree ptr} {HO : RangeOrder}.
Variable admin : ptr.
Variable unmarshal_RegionInfo : bytes -> option RegionInfo.

(** The table and the key of a call do not matter for the master. *)
Definition send (log : list acall) (c : acall) : M (option Message * option cerr * list acall) :=
  r ← SendRPC MasterClientType (Some admin) None unmarshal_RegionInfo [] [];
  mret (r, log ++ [c]).

(** Send a call and read the answer. *)
Definition ask {A : Type} (log : list acall) (c : acall) (reply : reading A) : M ((A + aerr) * list acall) :=
  r ← send log c;
  mret (match fst r with
        | (_, Some e) => inr (AErr e)
        | (m, None) => reply m
        end, snd r).

(** ** Procedures *)

Definition procedure_call (procID : Z) : acall :=
  mkACall GetProcedureState_Name (GetProcedureState_ToProto (NewGetProcedureState procID)) GetProcedureState_NewResponse.

Fixpoint procedure_loop (fuel : nat) (procID backoff : Z) (log : list acall) : M (option aerr * list acall) :=
  match fuel with
  | O => no_fuel
  | S fuel' =>
      r ← send log (procedure_call procID);
      let log := snd r in
      match fst r with
      | (_, Some e) => mret (Some (AErr e), log)
      | (m, None) =>
          match procedure_verdict m with
          | Panic => fatal
          | Err e => match e with end
          | Ok (Some verdict) => mret (verdict, log)
          | Ok None =>
              b ← sleepAndIncreaseBackoff CtxRpc backoff;
              match b with
              | inl backoff => procedure_loop fuel' procID backoff log
              | inr e => mret (Some (AErr e), log)
              end
          end
      end
  end.

Definition checkProcedureWithBackoff (procID : Z) (log : list acall) : M (option aerr * list acall) := fun evs w =>
  procedure_loop (S (length evs)) procID backoffStart log evs w.

(** Start a procedure and wait for it. *)
Definition run_procedure (c : acall) (reply : reading Z) : M (option aerr * list acall) :=
  r ← ask [] c reply;
  match fst r with
  | inr e => mret (Some e, snd r)
  | inl procID => checkProcedureWithBackoff procID (snd r)
  end.

Definition CreateTable (t : AdminCalls.CreateTable) : M (option aerr * list acall) :=
  run_procedure (mkACall CreateTable_Name (CreateTable_ToProto t) CreateTable_NewResponse) CreateTable_reply.
Definition DeleteTable (t : AdminCalls.DeleteTable) : M (option aerr * list acall) :=
  run_procedure (mkACall DeleteTable_Name (DeleteTable_ToProto t) DeleteTable_NewResponse) DeleteTable_reply.
Definition EnableTable (t : AdminCalls.EnableTable) : M (option aerr * list acall) :=
  run_procedure (mkACall EnableTable_Name (EnableTable_ToProto t) EnableTable_NewResponse) EnableTable_reply.
Definition DisableTable (t : AdminCalls.DisableTable) : M (option aerr * list acall) :=
  run_procedure (mkACall DisableTable_Name (DisableTable_ToProto t) DisableTable_NewResponse) DisableTable_reply.

(** ** Single calls *)

Definition CreateNamespace (t : AdminCalls.CreateNamespace) : M ((unit + aerr) * list acall) :=
  ask [] (mkACall CreateNamespace_Name (CreateNamespace_ToProto t) CreateNamespace_NewResponse) CreateNamespace_reply.
Definition ClusterStatus : M ((option string + aerr) * list acall) :=
  ask [] (mkACall ClusterStatus_Name ClusterStatus_ToProto ClusterStatus_NewResponse) ClusterStatus_reply.
Definition DeleteSnapshot (t : snap) : M ((unit + aerr) * list acall) :=
  ask [] (mkACall DeleteSnapshot_Name (Snapshot_ToProto t) DeleteSnapshot_NewResponse) DeleteSnapshot_reply.
Definition ListSnapshots : M ((list SnapshotDescription + aerr) * list acall) :=
  ask [] (mkACall ListSnapshots_Name ListSnapshots_ToProto ListSnapshots_NewResponse) ListSnapshots_reply.
Definition RestoreSnapshot (t : snap) : M ((unit + aerr) * list acall) :=
  ask [] (mkACall RestoreSnapshot_Name (Snapshot_ToProto t) RestoreSnapshot_NewResponse) RestoreSnapshot_reply.
Definition ListTableNames (t : AdminCalls.ListTableNames) : M ((list TableName + aerr) * list acall) :=
  ask [] (mkACall ListTableNames_Name (ListTableNames_ToProto t) ListTableNames_NewResponse) ListTableNames_reply.
Definition SetBalancer (sb : AdminCalls.SetBalancer) : M ((bool + aerr) * list acall) :=
  ask [] (mkACall SetBalancer_Name (SetBalancer_ToProto sb) SetBalancer_NewResponse) SetBalancer_reply.
Definition MoveRegion (mr : AdminCalls.MoveRegion) : M ((unit + aerr) * list acall) :=
  ask [] (mkACall MoveRegion_Name (MoveRegion_ToProto mr) MoveRegion_NewResponse) MoveRegion_reply.

(** ** Snapshots *)

(** [select] on the ticker and the context: [false] when the context is done. *)
Definition tick : M bool :=
  await (fun a w => match a with AnsSleep canceled => Ok (negb canceled, w) | _ => Err Blocked end).

Definition done_call (t : snap) : acall := mkACall SnapshotDone_Name (Snapshot_ToProto t) SnapshotDone_NewResponse.

Fixpoint snapshot_loop (fuel : nat) (t : snap) (log : list acall) : M (option aerr * list acall) :=
  match fuel with
  | O => no_fuel
  | S fuel' =>
      go ← tick;
      if negb go then mret (Some (AErr CtxErr), log)
      else
        r ← ask log (done_call t) SnapshotDone_reply;
        match fst r with
        | inr e => mret (Some e, snd r)
        | inl true => mret (None, snd r)
        | inl false => snapshot_loop fuel' t (snd r)
        end
  end.

Definition wait_snapshot (t : snap) (log : list acall) : M (option aerr * list acall) := fun evs w =>
  snapshot_loop (S (length evs)) t log evs w.

Definition CreateSnapshot (t : snap) : M (option aerr * list acall) :=
  r ← ask [] (mkACall Snapshot_Name (Snapshot_ToProto t) Snapshot_NewResponse) CreateSnapshot_reply;
  match fst r with
  | inr e => mret (Some e, snd r)
  | inl _ => wait_snapshot t (snd r)
  end.

End Admin.
