(* ===== verification/AdminProps.v ===== *)
(** * What the administrative client guarantees

    Requests and responses fit together; a table operation returns when its
    procedure has finished; which table and which attributes a request names. *)

From S2P Require Import Prelude RegionName Pb RegionInfo RegionTree KeyRegionCache Hrpc RpcError Multi ClientRegionCache World Rpc Establish Fuel Safety Retries AdminCalls AdminClient.

(** ** Types *)

(** A reader accepts every message of the type that [NewResponse] makes. *)
Definition accepts {A : Type} (reply : reading A) (t : response_type) : Prop :=
  forall r, type_of r = t <-> exists a, reply (Some (MAdmin r)) = inl a.

(** The message that a method expects is the one that the call it sends makes
    for its response, for every method of the admin client: no method returns
    the error for an unexpected message, and the unchecked type assertion of
    [checkProcedureWithBackoff] does not crash. *)
Theorem admin_responses_typed :
  accepts CreateTable_reply CreateTable_NewResponse /\ accepts DeleteTable_reply DeleteTable_NewResponse /\
  accepts EnableTable_reply EnableTable_NewResponse /\ accepts DisableTable_reply DisableTable_NewResponse /\
  accepts CreateNamespace_reply CreateNamespace_NewResponse /\ accepts ClusterStatus_reply ClusterStatus_NewResponse /\
  accepts CreateSnapshot_reply Snapshot_NewResponse /\ accepts SnapshotDone_reply SnapshotDone_NewResponse /\
  accepts DeleteSnapshot_reply DeleteSnapshot_NewResponse /\ accepts ListSnapshots_reply ListSnapshots_NewResponse /\
  accepts RestoreSnapshot_reply RestoreSnapshot_NewResponse /\ accepts ListTableNames_reply ListTableNames_NewResponse /\
  accepts SetBalancer_reply SetBalancer_NewResponse /\ accepts MoveRegion_reply MoveRegion_NewResponse /\
  forall r, type_of r = GetProcedureState_NewResponse <-> procedure_verdict (Some (MAdmin r)) <> Panic.
Proof.
  split_and!; intros r; destruct r; (split; [intros [=]|intros H]); try done; try (by eexists); try (by destruct H).
  simpl. by repeat case_bool_decide.
Qed.

(** ** Tables and attributes *)

Definition table_of (q : AdminRequest) : option TableName :=
  match q with
  | CreateTableRequest s _ => Some (TS_TableName s)
  | DeleteTableRequest t | EnableTableRequest t | DisableTableRequest t => Some t
  | _ => None
  end.

Lemma indexColon_None table : indexColon table = None <-> colon_byte ∉ table.
Proof.
  induction table as [|b table IH]; simpl; [split; [intros _; apply not_elem_of_nil|done]|].
  rewrite not_elem_of_cons. case_bool_decide as Hb; [split; [done|]; intros [? _]; congruence|].
  destruct (indexColon table); simpl; split; try done.
  - intros [_ H]. by apply IH in H.
  - intros _. split; [congruence|by apply IH].
Qed.

Lemma indexColon_lt table i : indexColon table = Some i -> (i < length table)%nat.
Proof.
  revert i. induction table as [|b table IH]; simpl; intros i; [done|].
  case_bool_decide; [intros [= <-]; lia|]. destruct (indexColon table) as [j|]; [|done]. intros [= <-].
  specialize (IH j eq_refl). lia.
Qed.

(** A table is created in the namespace of its name, and deleted, enabled and
    disabled in the default namespace under its whole name: the three calls name
    the table that was created exactly when the name has no namespace. *)
Theorem admin_table_names_agree `{RangeOrder} table families options :
  Forall (fun f => forall ct, ct_table (f ct) = ct_table ct) options ->
  let created := table_of (CreateTable_ToProto (NewCreateTable table families options)) in
  table_of (DeleteTable_ToProto (NewDeleteTable table)) = table_of (EnableTable_ToProto (NewEnableTable table)) /\
  table_of (DisableTable_ToProto (NewDisableTable table)) = table_of (EnableTable_ToProto (NewEnableTable table)) /\
  (table_of (DeleteTable_ToProto (NewDeleteTable table)) = created <-> colon_byte ∉ table).
Proof.
  intros Hopt. assert (ct_table (NewCreateTable table families options) = table) as Ht.
  { unfold NewCreateTable. simpl. change table with (ct_table (mkCreateTable table ∅ ∅ [])) at 2.
    generalize (mkCreateTable table ∅ ∅ []). induction Hopt as [|f fs Hf _ IH]; intros ct; simpl; [done|]. by rewrite IH. }
  simpl. split_and!; [done..|]. unfold CreateTable_ToProto. rewrite Ht. unfold parseTableName.
  rewrite <- indexColon_None. destruct (indexColon table) as [i|] eqn:Hi; simpl; [|done].
  split; [|done]. intros [= Hns Hq]. apply (f_equal length) in Hq. rewrite length_drop in Hq.
  pose proof (indexColon_lt _ _ Hi). lia.
Qed.

(** A family of a created table has exactly the eleven attributes that have a
    default, each with the value given for it or its default; a value given for
    any other attribute is not sent. *)
Theorem NewCreateTable_attributes table families options family attrs k :
  families !! family = Some attrs ->
  exists sent, ct_families (NewCreateTable table families options) !! family = Some sent /\
    sent !! k = match defaultFamiliesAttributes !! k with
                | Some dv => Some (default dv (attrs !! k))
                | None => None
                end.
Proof.
  intros Hf. unfold NewCreateTable. simpl. rewrite lookup_fmap, Hf. simpl. eexists. split; [done|].
  unfold family_attributes. rewrite map_lookup_imap. by destruct (defaultFamiliesAttributes !! k).
Qed.

(** ** The destination of a region *)

Lemma parse_digits_spec s acc :
  parse_digits s acc = if bool_decide (Forall (fun b => 48 <= Z_of_byte b <= 57) s)
    then Some (foldl (fun n b => n * 10 + (Z_of_byte b - 48)) acc s) else None.
Proof.
  revert acc. induction s as [|b s IH]; intros acc; cbn [parse_digits foldl].
  { by rewrite bool_decide_eq_true_2 by constructor. }
  unfold digit. destruct (decide (48 <= Z_of_byte b <= 57)) as [Hb|Hb].
  - rewrite (bool_decide_eq_true_2 (48 <= Z_of_byte b <= 57)), IH by done.
    rewrite (bool_decide_ext (Forall _ (b :: s)) (Forall (fun b => 48 <= Z_of_byte b <= 57) s)); [done|].
    rewrite Forall_cons. tauto.
  - rewrite (bool_decide_eq_false_2 (48 <= Z_of_byte b <= 57)) by done. rewrite bool_decide_eq_false_2; [done|]. by rewrite Forall_cons; intros [? _].
Qed.

Lemma ParseUint_spec s bitSize n :
  ParseUint s bitSize = Some n <-> numeral s /\ n = numeral_value s /\ n < 2 ^ bitSize.
Proof.
  unfold ParseUint, numeral. destruct s as [|b s]; [split; [done|]; by intros [[? _] _]|]. rewrite parse_digits_spec.
  case_bool_decide as Hd; [|split; [done|]; by intros [[_ ?] _]]. fold (numeral_value (b :: s)). case_bool_decide as Hn.
  - split; [intros [= <-]; done|]. by intros (_ & -> & _).
  - split; [done|]. by intros (_ & -> & ?).
Qed.

Lemma cut_app a s : comma ∉ a -> cut (a ++ comma :: s) = Some (a, s).
Proof.
  induction a as [|b a IH]; cbn [app cut]; intros Ha; [by rewrite bool_decide_eq_true_2|].
  apply not_elem_of_cons in Ha as [? ?]. rewrite bool_decide_eq_false_2 by congruence. by rewrite IH.
Qed.

Lemma cut_Some s a r : cut s = Some (a, r) -> (comma ∉ a) /\ s = a ++ comma :: r.
Proof.
  revert a. induction s as [|b s IH]; simpl; intros a; [done|]. case_bool_decide as Hb.
  - intros [= <- <-]. split; [apply not_elem_of_nil|by rewrite Hb].
  - destruct (cut s) as [[a' r']|]; [|done]. intros [= <- <-]. destruct (IH a' eq_refl) as [? ->].
    split; [|done]. apply not_elem_of_cons. split; [congruence|done].
Qed.

(** [WithDestinationRegionServer] accepts exactly the names
    host,port,startcode with a host without a comma, a 32-bit port and a 64-bit
    start code in decimal, and sets the destination to these three. *)
Theorem destination_server_parsed serverName mr mr' :
  WithDestinationRegionServer serverName (OMoveRegion mr) = Ok (OMoveRegion mr') <->
  exists host port code, serverName = host ++ comma :: port ++ comma :: code /\ (comma ∉ host) /\
    numeral port /\ numeral_value port < 2 ^ 32 /\ numeral code /\ numeral_value code < 2 ^ 64 /\
    mr' = mkMoveRegion (mr_region mr) (Some (mkServerName host (numeral_value port) (numeral_value code))).
Proof.
  simpl. split.
  - unfold SplitN3. destruct (cut serverName) as [[host rest]|] eqn:H1; [|done]. apply cut_Some in H1 as [Hh ->].
    destruct (cut rest) as [[port code]|] eqn:H2; [|done]. apply cut_Some in H2 as [_ ->].
    destruct (ParseUint port 32) as [p|] eqn:Hp; [|done]. destruct (ParseUint code 64) as [c|] eqn:Hc; [|done].
    apply ParseUint_spec in Hp as (? & -> & ?), Hc as (? & -> & ?). intros [= <-]. exists host, port, code. by split_and!.
  - intros (host & port & code & -> & Hh & Hp & Hpl & Hc & Hcl & ->). unfold SplitN3. rewrite cut_app by done.
    rewrite cut_app.
    + assert (ParseUint port 32 = Some (numeral_value port)) as -> by (by apply ParseUint_spec).
      assert (ParseUint code 64 = Some (numeral_value code)) as -> by (by apply ParseUint_spec). done.
    + intros Hin. destruct Hp as [_ Hp]. rewrite Forall_forall in Hp. specialize (Hp _ Hin). vm_compute in Hp. destruct Hp as [Hp _]. by apply Hp.
Qed.

(** ** Procedures *)

Section Polling.
Context {T : RegionTree ptr} {HO : RangeOrder}.
Variable admin : ptr.
Variable unmarshal_RegionInfo : bytes -> option RegionInfo.

Lemma uses_send n log q : uses n (send admin unmarshal_RegionInfo log q) (fun _ => 0%nat).
Proof.
  unfold send. eapply uses_bind0 with (c := fun _ => 0%nat); [|intros; by apply uses_ret].
  intros evs w _. unfold SendRPC. apply (uses_send_loop _ _ _ _ (S (length evs))); [done|lia].
Qed.

Lemma uses_ask {A : Type} n log q (reply : reading A) : uses n (ask admin unmarshal_RegionInfo log q reply) (fun _ => 0%nat).
Proof. unfold ask. eapply uses_bind0; [apply uses_send|]. intros. by apply uses_ret. Qed.

Lemma uses_procedure_loop fuel p b log :
  0 < b -> uses fuel (procedure_loop admin unmarshal_RegionInfo fuel p b log) (fun _ => 0%nat).
Proof.
  revert b log. induction fuel as [|fuel IH]; intros b log Hb; [intros evs w ?; lia|]. cbn [procedure_loop].
  eapply uses_bind0; [apply uses_send|]. intros [[m [e|]] log']; cbn [fst snd]; [by apply uses_ret|].
  destruct (procedure_verdict m) as [[v|]|[]|]; [by apply uses_ret| |done].
  apply uses_sleep_bind; [done| |intros; by apply uses_ret]. intros b' Hb'. eapply uses_le; [by apply IH|lia|done].
Qed.

Lemma uses_snapshot_loop fuel t log : uses fuel (snapshot_loop admin unmarshal_RegionInfo fuel t log) (fun _ => 0%nat).
Proof.
  revert log. induction fuel as [|fuel IH]; intros log; [intros evs w ?; lia|]. cbn [snapshot_loop].
  eapply uses_bind with (c := fun _ => 1%nat).
  { unfold tick. apply uses_await; [|done]. intros a w. by destruct a. }
  intros []; simpl; [|by apply uses_ret]. rewrite Nat.sub_0_r. eapply uses_bind0; [apply uses_ask|].
  intros [[[]|] log']; cbn [fst snd]; try (by apply uses_ret). apply IH.
Qed.

(** The loops that poll the master end with the schedule: no run of a method
    stops for lack of fuel. *)
Lemma polling_ends n ct t :
  uses n (CreateTable admin unmarshal_RegionInfo ct) (fun _ => 0%nat) /\
  uses n (CreateSnapshot admin unmarshal_RegionInfo t) (fun _ => 0%nat).
Proof.
  split.
  - unfold CreateTable, run_procedure. eapply uses_bind0; [apply uses_ask|]. intros [[p|e] log]; cbn [fst snd]; [|by apply uses_ret].
    intros evs w _. unfold checkProcedureWithBackoff. by apply (uses_procedure_loop (S (length evs))); [|lia].
  - unfold CreateSnapshot. eapply uses_bind0; [apply uses_ask|]. intros [[p|e] log]; cbn [fst snd]; [|by apply uses_ret].
    intros evs w _. unfold wait_snapshot. apply (uses_snapshot_loop (S (length evs))); lia.
Qed.

End Polling.

Section Procedures.
Context {T : RegionTree ptr} {HO : RangeOrder}.
Variable admin : ptr.
Variable unmarshal_RegionInfo : bytes -> option RegionInfo.
Variable w : world.
Variable i : info.
Variable c : cptr.

(** The connection to the master is up. *)
Hypothesis Hreg : h_infos (w_heap w) !! admin = Some i.
Hypothesis Havail : r_available i = None.
Hypothesis Hclient : r_client i = Some c.

(** What a schedule holds for a call that the master answers. *)
Definition answered (r : AdminResponse) : list event :=
  [quiet AnsGo; quiet AnsGo; quiet (AnsResult (Some (okResult (MAdmin r))))].

Lemma admin_region ctx table key evs :
  getRegionAndClientForRPC MasterClientType (Some admin) None unmarshal_RegionInfo ctx table key
    (quiet AnsGo :: quiet AnsGo :: evs) w = Ok (inl (admin, c), evs, w).
Proof.
  unfold getRegionAndClientForRPC. cbn [length region_and_client_loop].
  unfold region_and_client_once, getRegionForRpc, maxFindRegionTries. cbn [find_tries].
  unfold mbind, M_bind, getRegionFromCache. rewrite bool_decide_eq_true_2 by done.
  cbn [mret M_ret]. unfold read_heap, atomic, await, AvailabilityChan. cbn [ev_ans ev_env quiet].
  rewrite (deref_lookup _ _ _ Hreg). cbn [no_err obind]. rewrite Havail. cbn [wait_if mret M_ret]. unfold Client.
  rewrite (deref_lookup _ _ _ Hreg). cbn [no_err obind]. rewrite Hclient. done.
Qed.

Lemma admin_send log q r evs :
  send admin unmarshal_RegionInfo log q (answered r ++ evs) w = Ok ((Some (MAdmin r), None, log ++ [q]), evs, w).
Proof.
  unfold send. erewrite bind_ok; [reflexivity|]. unfold SendRPC. cbn [answered app length send_loop].
  erewrite bind_ok by apply admin_region. cbv beta iota. erewrite bind_ok by reflexivity. done.
Qed.

Lemma admin_ask {A : Type} log q (reply : reading A) r evs :
  ask admin unmarshal_RegionInfo log q reply (answered r ++ evs) w = Ok ((reply (Some (MAdmin r)), log ++ [q]), evs, w).
Proof. unfold ask. by erewrite bind_ok by apply admin_send. Qed.

(** Polls of a procedure that is still running, with the sleeps between them. *)
Definition polls (sts : list Z) : list event :=
  sts ≫= (fun st => answered (GetProcedureResultResponse (Some st) None) ++ [quiet (AnsSleep false)]).

Definition pending (st : Z) : Prop :=
  st <> GetProcedureResultResponse_NOT_FOUND /\ st <> GetProcedureResultResponse_FINISHED.

Lemma length_polls sts : (length sts <= length (polls sts))%nat.
Proof. unfold polls. induction sts as [|st sts IH]; csimpl; rewrite ?length_app; simpl in *; lia. Qed.

Lemma procedure_loop_polls sts fuel p b log r v evs :
  Forall pending sts -> (length sts < fuel)%nat -> 0 < b -> procedure_verdict (Some (MAdmin r)) = Ok (Some v) ->
  procedure_loop admin unmarshal_RegionInfo fuel p b log (polls sts ++ answered r ++ evs) w
  = Ok ((v, log ++ replicate (S (length sts)) (procedure_call p)), evs, w).
Proof.
  intros Hsts. revert fuel b log. induction Hsts as [|st sts [Hn Hf] Hsts IH]; intros fuel b log Hfuel Hb Hv;
    (destruct fuel as [|fuel]; [simpl in Hfuel; lia|]); cbn [procedure_loop].
  - unfold polls. csimpl. erewrite bind_ok by apply admin_send. cbn [fst snd]. by rewrite Hv.
  - erewrite bind_ok by apply (admin_send log (procedure_call p) (GetProcedureResultResponse (Some st) None)). cbn [fst snd procedure_verdict default].
    rewrite (bool_decide_eq_false_2 (st = GetProcedureResultResponse_NOT_FOUND)) by done.
    rewrite (bool_decide_eq_false_2 (st = GetProcedureResultResponse_FINISHED)) by done.
    erewrite bind_ok; [|unfold sleepAndIncreaseBackoff; rewrite bool_decide_eq_false_2 by lia; reflexivity].
    cbv beta iota. rewrite IH; [|simpl in Hfuel; lia|by apply increase_positive|done].
    rewrite <- app_assoc. done.
Qed.

(** The result of a finished procedure. *)
Definition finished (exception : option (option GenericException)) : option aerr :=
  match exception with
  | None => None
  | Some None => Some EmptyException
  | Some (Some ge) => Some (ProcedureException (default ""%string (GE_ClassName ge)) (default ""%string (GE_Message ge)))
  end.

Lemma run_procedure_waits q reply resp p sts exception evs :
  reply (Some (MAdmin resp)) = inl p -> Forall pending sts ->
  run_procedure admin unmarshal_RegionInfo q reply
    (answered resp ++ polls sts ++ answered (GetProcedureResultResponse (Some GetProcedureResultResponse_FINISHED) exception) ++ evs) w
  = Ok ((finished exception, q :: replicate (S (length sts)) (procedure_call p)), evs, w).
Proof.
  intros Hr Hsts. unfold run_procedure. erewrite bind_ok by apply admin_ask. cbn [fst snd]. rewrite Hr.
  unfold checkProcedureWithBackoff. rewrite procedure_loop_polls with (v := finished exception); try done.
  rewrite length_app. pose proof (length_polls sts). lia.
Qed.

(** C20. Creating, deleting, enabling and disabling a table send the call, then
    poll the procedure that the master has answered with until it has finished,
    however long that takes, and return whether it failed. *)
Theorem table_operations_wait ct dt et dit p sts exception evs :
  Forall pending sts ->
  let script resp := answered resp ++ polls sts ++
    answered (GetProcedureResultResponse (Some GetProcedureResultResponse_FINISHED) exception) ++ evs in
  let polled := replicate (S (length sts)) (procedure_call p) in
  CreateTable admin unmarshal_RegionInfo ct (script (CreateTableResponse (Some p))) w
  = Ok ((finished exception, mkACall "CreateTable" (CreateTable_ToProto ct) TCreateTable :: polled), evs, w) /\
  DeleteTable admin unmarshal_RegionInfo dt (script (DeleteTableResponse (Some p))) w
  = Ok ((finished exception, mkACall "DeleteTable" (DeleteTable_ToProto dt) TDeleteTable :: polled), evs, w) /\
  EnableTable admin unmarshal_RegionInfo et (script (EnableTableResponse (Some p))) w
  = Ok ((finished exception, mkACall "EnableTable" (EnableTable_ToProto et) TEnableTable :: polled), evs, w) /\
  DisableTable admin unmarshal_RegionInfo dit (script (DisableTableResponse (Some p))) w
  = Ok ((finished exception, mkACall "DisableTable" (DisableTable_ToProto dit) TDisableTable :: polled), evs, w).
Proof. intros Hsts. split_and!; by apply run_procedure_waits. Qed.

(** ** Snapshots *)

(** A tick and the answer whether the snapshot is done. *)
Definition checked (d : option bool) : list event := quiet (AnsSleep false) :: answered (IsSnapshotDoneResponse d).

Lemma snapshot_loop_polls n fuel t log evs :
  (n < fuel)%nat ->
  snapshot_loop admin unmarshal_RegionInfo fuel t log ((replicate n (Some false) ≫= checked) ++ checked (Some true) ++ evs) w
  = Ok ((None, log ++ replicate (S n) (done_call t)), evs, w).
Proof.
  revert fuel log. induction n as [|n IH]; intros fuel log Hfuel; (destruct fuel as [|fuel]; [lia|]); cbn [snapshot_loop];
    (erewrite bind_ok by reflexivity); cbn [negb].
  - by erewrite bind_ok by apply (admin_ask log (done_call t) SnapshotDone_reply (IsSnapshotDoneResponse (Some true))).
  - erewrite bind_ok by apply (admin_ask log (done_call t) SnapshotDone_reply (IsSnapshotDoneResponse (Some false))).
    cbn [fst snd SnapshotDone_reply default].
    etrans; [apply (IH fuel (log ++ [done_call t])); lia|]. by rewrite <- app_assoc.
Qed.

(** [CreateSnapshot] asks for the snapshot, then at every tick whether it is
    done, until the answer is yes. *)
Theorem CreateSnapshot_waits t n evs :
  CreateSnapshot admin unmarshal_RegionInfo t
    (answered SnapshotResponse ++ (replicate n (Some false) ≫= checked) ++ checked (Some true) ++ evs) w
  = Ok ((None, mkACall "Snapshot" (Snapshot_ToProto t) TSnapshot :: replicate (S n) (done_call t)), evs, w).
Proof.
  unfold CreateSnapshot. erewrite bind_ok by apply admin_ask. cbn [fst snd CreateSnapshot_reply]. unfold wait_snapshot.
  rewrite snapshot_loop_polls; [done|]. rewrite length_app.
  assert (n <= length (replicate n (Some false) ≫= checked))%nat; [|lia].
  clear. induction n as [|n IH]; csimpl; rewrite ?length_app; simpl in *; lia.
Qed.

End Procedures.

(** ** On a client of the master *)

Definition sample_admin : info := Info 0 None [] [] [] [] false (Some 7%nat) None.
Definition admin_world : @world list_tree :=
  mkWorld list_tree (Heap {[0%nat := sample_admin]} 1 0 ∅) [] no_clients false false OnceNew [] ∅ ∅ (alone (Heap {[0%nat := sample_admin]} 1 0 ∅)).

Definition sample_created : AdminCalls.CreateTable := NewCreateTable (bs "ns:t") {[bs "cf" := {[bs "VERSIONS" := bs "1"]}]} [SplitKeys [bs "m"]].

Lemma admin_table_names_agree_witness :
  table_of (DeleteTable_ToProto (NewDeleteTable (bs "t")))
  = table_of (CreateTable_ToProto (NewCreateTable (bs "t") ∅ [SplitKeys [bs "m"]])).
Proof.
  apply (admin_table_names_agree (bs "t") ∅ [SplitKeys [bs "m"]]); [by repeat constructor|].
  apply (bool_decide_unpack _). vm_compute. exact I.
Defined.

Lemma NewCreateTable_attributes_witness :
  exists sent, ct_families sample_created !! bs "cf" = Some sent /\ sent !! bs "MOB_THRESHOLD" = None.
Proof.
  apply (NewCreateTable_attributes (bs "ns:t") {[bs "cf" := {[bs "VERSIONS" := bs "1"]}]} [SplitKeys [bs "m"]] (bs "cf")
    {[bs "VERSIONS" := bs "1"]} (bs "MOB_THRESHOLD")). reflexivity.
Defined.

Lemma table_operations_wait_witness :
  CreateTable 0 (fun _ => None) sample_created
    (answered (CreateTableResponse (Some 4)) ++ polls [1; 1] ++
     answered (GetProcedureResultResponse (Some GetProcedureResultResponse_FINISHED) None) ++ []) admin_world
  = Ok ((None, mkACall "CreateTable" (CreateTable_ToProto sample_created) TCreateTable :: replicate 3 (procedure_call 4)),
        [], admin_world).
Proof.
  assert (Forall pending [1; 1]) as Hp by (repeat constructor; discriminate).
  exact (proj1 (table_operations_wait 0 (fun _ => None) admin_world sample_admin 7 eq_refl eq_refl eq_refl sample_created
    (NewDeleteTable []) (NewEnableTable []) (NewDisableTable []) 4 [1; 1] None [] Hp)).
Defined.

Lemma CreateSnapshot_waits_witness :
  CreateSnapshot 0 (fun _ => None) (mkSnap "s" "t" None 0 "")
    (answered SnapshotResponse ++ (replicate 2 (Some false) ≫= checked) ++ checked (Some true) ++ []) admin_world
  = Ok ((None, mkACall "Snapshot" (Snapshot_ToProto (mkSnap "s" "t" None 0 "")) TSnapshot ::
          replicate 3 (done_call (mkSnap "s" "t" None 0 ""))), [], admin_world).
Proof. apply (CreateSnapshot_waits 0 (fun _ => None) admin_world sample_admin 7 eq_refl eq_refl eq_refl). Defined.
