(* ===== verification/Zk.v ===== *)
(** * Zookeeper: zk/client.go

    [LocateResource] reads the znode of the master or of the meta table and
    takes the address of the server from it.  The connection to zookeeper and
    the decoding of the two protobuf messages are third party: the answer of
    zookeeper and the two decoders are parameters. *)

From S2P Require Import Prelude Client.

(** ** Paths *)

Definition slash : byte := x2f.
Definition colon : byte := x3a.

(** [strings.Split] at one character. *)
Fixpoint Split (sep : byte) (s : bytes) : list bytes :=
  match s with
  | [] => [[]]
  | b :: s =>
      if bool_decide (b = sep) then [] :: Split sep s
      else match Split sep s with
           | x :: xs => (b :: x) :: xs
           | [] => [[b]]
           end
  end.

Fixpoint joined (sep : byte) (l : list bytes) : bytes :=
  match l with
  | [] => []
  | [x] => x
  | x :: l => x ++ sep :: joined sep l
  end.

Lemma joined_Split sep s : joined sep (Split sep s) = s.
Proof.
  induction s as [|b s IH]; [done|]. cbn [Split].
  assert (Split sep s <> []) as Hne by (destruct s; simpl; repeat case_match; done).
  case_bool_decide as Hb.
  - destruct (Split sep s) as [|x xs] eqn:E; [done|]. cbn [joined app] in *. by rewrite IH, Hb.
  - destruct (Split sep s) as [|x xs] eqn:E; [done|]. destruct xs; cbn [joined app] in *; by rewrite <- IH.
Qed.

(** [path.Clean]: the components, last first. *)
Definition clean_step (rooted : bool) (out : list bytes) (c : bytes) : list bytes :=
  if bool_decide (c = []) || bool_decide (c = bs ".") then out
  else if bool_decide (c = bs "..") then
    match out with
    | top :: rest => if bool_decide (top = bs "..") then c :: out else rest
    | [] => if rooted : bool then [] else [c]
    end
  else c :: out.

Definition Clean (path : bytes) : bytes :=
  let rooted := bool_decide (head path = Some slash) in
  let out := rev (foldl (clean_step rooted) [] (Split slash path)) in
  if rooted then slash :: joined slash out
  else match out with [] => bs "." | _ => joined slash out end.

(** [path.Join] of two elements. *)
Definition Join (a b : bytes) : bytes :=
  match a, b with
  | [], [] => []
  | [], _ => Clean b
  | _, [] => Clean a
  | _, _ => Clean (a ++ slash :: b)
  end.

(** ** Resources *)

Abbreviation ResourceName := bytes.
Definition Prepend (prefix : bytes) (r : ResourceName) : ResourceName := Join prefix r.
Definition Meta : ResourceName := bs "/meta-region-server".
Definition Master : ResourceName := bs "/master".

Definition NewClient (zkquorum : bytes) : list bytes := Split x2c zkquorum.

(** ** Locating a server *)

(** pb.ServerName *)
Record ServerName := mkServerName { SN_HostName : option bytes; SN_Port : option Z }.

Inductive zk_answer :=
| ConnectError (e : bytes)
| GetError (e : bytes)
| Data (buf : bytes).

Inductive zk_error :=
| ErrConnect (e : bytes)
| ErrRead (e : bytes)
| FirstByte (b : byte)
| MetadataLength (n : Z)
| Magic (n : Z)
| Decoding (e : bytes).

(** [net.JoinHostPort] *)
Definition JoinHostPort (host port : bytes) : bytes :=
  if bool_decide (colon ∈ host) then bs "[" ++ host ++ bs "]:" ++ port else host ++ bs ":" ++ port.

Definition pbufMagic : Z := 1346524486.

(** A pointer that is dereferenced. *)
Definition non_nil {E A : Type} (o : option A) : outcome E A := match o with Some a => Ok a | None => Panic end.

Section Locate.
Variable unmarshal_MetaRegionServer unmarshal_Master : bytes -> option ServerName + bytes.

Definition decoded (r : option ServerName + bytes) : outcome zk_error (option ServerName) :=
  match r with inl s => Ok s | inr e => Err (Decoding e) end.

(** The contents of a znode; an empty one ends the process with [log.Fatalf]. *)
Definition parse_znode (resource : ResourceName) (buf : bytes) : outcome zk_error bytes :=
  match buf with
  | [] => Panic
  | b :: _ =>
      if bool_decide (b <> xff) then Err (FirstByte b)
      else
        let* rest := slice_from buf 1 in
        let* metadataLen := Uint32 rest in
        if bool_decide (metadataLen < 1) || bool_decide (metadataLen > 65000) then Err (MetadataLength metadataLen)
        else
          let* buf := slice_from buf (1 + 4 + metadataLen) in
          let* magic := Uint32 buf in
          if bool_decide (magic <> pbufMagic) then Err (Magic magic)
          else
            let* buf := slice_from buf 4 in
            let* server := decoded (if bool_decide (resource = Meta) then unmarshal_MetaRegionServer buf
                                    else unmarshal_Master buf) in
            let* server := non_nil server in
            let* host := non_nil (SN_HostName server) in
            let* port := non_nil (SN_Port server) in
            Ok (JoinHostPort host (Sprint port))
  end.

Definition LocateResource (resource : ResourceName) (a : zk_answer) : outcome zk_error bytes :=
  match a with
  | ConnectError e => Err (ErrConnect e)
  | GetError e => Err (ErrRead e)
  | Data buf => parse_znode resource buf
  end.

(** ** Properties *)

(** A znode as the servers write it. *)
Definition znode (metadata body : bytes) : bytes := xff :: PutUint32 (len metadata) ++ metadata ++ bs "PBUF" ++ body.

Lemma Uint32_split {E} l z : @Uint32 E l = Ok z -> exists s, l = PutUint32 z ++ s /\ 0 <= z < 2 ^ 32.
Proof.
  intros (Hl & _ & Hz & Ht)%UintN_Ok_inv. exists (drop 4 l). unfold PutUint32. rewrite <- Ht, take_drop. split; [done|].
  simpl in Hz. lia.
Qed.

(** Cutting a known prefix and some more. *)
Lemma slice_from_more {E} (p s m : bytes) k :
  0 <= k -> @slice_from E _ (p ++ s) (len p + k) = Ok m -> exists q, s = q ++ m /\ len q = k.
Proof.
  intros Hk (Hlo & -> & Hl)%slice_from_Ok_inv. exists (take (Z.to_nat k) s).
  rewrite len_app in Hlo. unfold len in *. rewrite Z2Nat.inj_add, Nat2Z.id by lia. rewrite drop_app_add, take_drop.
  split; [done|]. rewrite length_take. lia.
Qed.

Lemma PBUF_magic : PutUint32 pbufMagic = bs "PBUF".
Proof. reflexivity. Qed.

(** C39. A znode is accepted exactly when it is the byte 0xFF, the length of its
    metadata, between 1 and 65000, the metadata, the magic PBUF and a message
    that decodes to a server; the address is then the host, in brackets if it
    has a colon, and the port in decimal. *)
Theorem located_exactly resource buf addr :
  LocateResource resource (Data buf) = Ok addr <->
  exists metadata body host port,
    buf = znode metadata body /\ 1 <= len metadata <= 65000 /\
    (if bool_decide (resource = Meta) then unmarshal_MetaRegionServer body else unmarshal_Master body)
      = inl (Some (mkServerName (Some host) (Some port))) /\
    addr = JoinHostPort host (Sprint port).
Proof.
  split.
  - intros H. destruct buf as [|b buf]; [done|]. cbn [LocateResource parse_znode] in H.
    case_bool_decide as Hb; [done|]. assert (b = xff) as -> by (by destruct (decide (b = xff))). ok_inv.
    apply (slice_from_more [xff] buf r 0) in Hr as (q & -> & Hq); [|lia].
    destruct q; [|unfold len in Hq; simpl in Hq; lia]. cbn [app] in *.
    apply Uint32_split in Hr0 as (s & -> & Hn). destruct (_ || _) eqn:Ho; [done|]. apply orb_false_iff in Ho as [H1 H2].
    apply bool_decide_eq_false in H1, H2. apply obind_Ok_inv in H as (buf & Hb1 & H).
    apply (slice_from_more (xff :: PutUint32 r0)) in Hb1 as (metadata & -> & Hm); [|lia].
    apply obind_Ok_inv in H as (magic & Hmg & H). apply Uint32_split in Hmg as (s & -> & _).
    case_bool_decide as Hmg; [done|]. assert (magic = pbufMagic) as -> by (by destruct (decide (magic = pbufMagic))).
    apply obind_Ok_inv in H as (body & Hb1 & H).
    apply (slice_from_more (PutUint32 pbufMagic) s body 0) in Hb1 as (q & -> & Hq'); [|lia].
    destruct q; [|unfold len in Hq'; simpl in Hq'; lia]. cbn [app] in *.
    destruct (if bool_decide (resource = Meta) then _ else _) as [[[[host|] [port|]]|]|e] eqn:Hu; try done.
    simpl in H. simplify_eq. exists metadata, body, host, port. unfold znode. rewrite <- PBUF_magic. by split_and!; [|lia..| |].
  - intros (metadata & body & host & port & -> & Hm & Hu & ->). unfold znode. cbn [LocateResource parse_znode].
    rewrite bool_decide_eq_false_2 by (by intros []).
    change (xff :: ?l) with ([xff] ++ l) at 1. rewrite (slice_suffix [xff]) by done. cbn [obind]. unfold Uint32 at 1, PutUint32 at 1.
    rewrite UintN_encode by (simpl; lia). cbn [obind].
    rewrite !bool_decide_eq_false_2 by lia. cbn [orb].
    assert (forall b, xff :: PutUint32 (len metadata) ++ metadata ++ b = (xff :: PutUint32 (len metadata) ++ metadata) ++ b) as ->.
    { intros b. cbn [app]. by rewrite app_assoc. }
    rewrite slice_suffix by (rewrite len_cons, len_app; unfold PutUint32; rewrite len_be_encode; lia). cbn [obind].
    rewrite <- PBUF_magic. unfold Uint32, PutUint32 at 1. rewrite UintN_encode by done. cbn [obind].
    rewrite bool_decide_eq_false_2 by (by intros []). rewrite slice_suffix by done. cbn [obind]. rewrite Hu. done.
Qed.

(** A znode that is cut off makes the lookup panic instead of returning an
    error: a non-empty beginning of a good znode that does not reach beyond its
    magic. *)
Theorem cut_znode_panics resource metadata body n :
  1 <= len metadata <= 65000 -> (1 <= n < 9 + Z.to_nat (len metadata))%nat ->
  LocateResource resource (Data (take n (znode metadata body))) = Panic.
Proof.
  intros Hm Hn. unfold znode. destruct n as [|n]; [lia|]. cbn [take LocateResource parse_znode].
  rewrite bool_decide_eq_false_2 by (by intros []).
  change (xff :: ?l) with ([xff] ++ l) at 1. rewrite (slice_suffix [xff]) by done. cbn [obind].
  assert (len (PutUint32 (len metadata)) = 4 /\ length (PutUint32 (len metadata)) = 4%nat) as [Hl Hl']
    by (unfold PutUint32; by rewrite len_be_encode, length_be_encode).
  destruct (decide (n < 4)%nat) as [Hs|Hs].
  { unfold Uint32 at 1, UintN. rewrite bool_decide_eq_false_2; [done|]. unfold len. rewrite length_take, length_app. lia. }
  replace n with (length (PutUint32 (len metadata)) + (n - 4))%nat by lia. rewrite take_app_add. set (s := take _ _).
  assert (len s = Z.min (Z.of_nat (n - 4)) (len metadata + 4 + len body)) as Hlen.
  { unfold s, len. rewrite length_take, !length_app. simpl. unfold len in *. lia. }
  unfold Uint32 at 1, PutUint32 at 1. rewrite UintN_encode by (simpl; lia). cbn [obind].
  rewrite !bool_decide_eq_false_2 by lia. cbn [orb].
  destruct (slice_from _ (1 + 4 + len metadata)) as [r| |] eqn:Hr; [|by unfold slice_from, slice in Hr; case_match|done].
  apply slice_from_Ok_inv in Hr as (Hlo & _ & Hr). rewrite len_cons, len_app in *. cbn [obind].
  unfold Uint32, UintN. rewrite bool_decide_eq_false_2; [done|]. unfold len in *. lia.
Qed.

End Locate.

(** ** Where the resources are *)

Lemma Split_app sep a b : Split sep (a ++ sep :: b) = Split sep a ++ Split sep b.
Proof.
  induction a as [|c a IH]; cbn [app Split]; [by rewrite bool_decide_eq_true_2|]. rewrite IH.
  case_bool_decide; [done|]. destruct (Split sep a) as [|x xs] eqn:E; [|done].
  destruct a as [|d a]; cbn [Split] in E; [done|]. by repeat case_match.
Qed.

Lemma Split_plain sep c : sep ∉ c -> Split sep c = [c].
Proof.
  induction c as [|b c IH]; [done|]. intros [Hb Hc]%not_elem_of_cons. cbn [Split].
  rewrite bool_decide_eq_false_2 by congruence. by rewrite IH.
Qed.

Definition plain (c : bytes) : Prop := (slash ∉ c) /\ c <> [] /\ c <> bs "." /\ c <> bs "..".

Lemma Split_joined cs : cs <> [] -> Forall plain cs -> Split slash (joined slash cs) = cs.
Proof.
  intros Hne Hcs. induction Hcs as [|c cs [Hc _] Hcs IH]; [done|]. destruct cs as [|d cs]; [by apply Split_plain|].
  change (joined slash (c :: d :: cs)) with (c ++ slash :: joined slash (d :: cs)). rewrite Split_app, Split_plain by done. by rewrite IH.
Qed.

Lemma clean_plain rooted cs out : Forall plain cs -> foldl (clean_step rooted) out cs = rev cs ++ out.
Proof.
  intros Hcs. revert out. induction Hcs as [|c cs (_ & H1 & H2 & H3) Hcs IH]; intros out; cbn [foldl rev]; [done|].
  rewrite IH, <- app_assoc. unfold clean_step at 1. by rewrite !bool_decide_eq_false_2.
Qed.

Lemma joined_snoc cs d : cs <> [] -> joined slash (cs ++ [d]) = joined slash cs ++ slash :: d.
Proof.
  intros Hne. induction cs as [|c cs IH]; [done|]. destruct cs as [|e cs]; [done|].
  change (joined slash ((c :: e :: cs) ++ [d])) with (c ++ slash :: joined slash ((e :: cs) ++ [d])).
  rewrite IH by done. change (joined slash (c :: e :: cs)) with (c ++ slash :: joined slash (e :: cs)). by rewrite <- app_assoc.
Qed.

(** A path of plain components is put before a resource as it is. *)
Lemma Prepend_plain cs name :
  cs <> [] -> Forall plain cs -> plain name ->
  Prepend (slash :: joined slash cs) (slash :: name) = (slash :: joined slash cs) ++ slash :: name.
Proof.
  intros Hne Hcs Hn. unfold Prepend, Join, Clean. cbn [head app]. rewrite (bool_decide_eq_true_2 (Some slash = Some slash)) by done.
  change (slash :: joined slash cs ++ slash :: slash :: name) with (([] ++ slash :: joined slash cs) ++ slash :: ([] ++ slash :: name)).
  rewrite !Split_app, Split_joined, (Split_plain _ name) by (done || apply Hn).
  rewrite !foldl_app. change (Split slash []) with [@nil byte]. cbn [foldl].
  change (clean_step true [] []) with (@nil bytes). rewrite (clean_plain _ cs) by done.
  change (clean_step true (rev cs ++ []) []) with (rev cs ++ []).
  change (clean_step true (rev cs ++ []) name) with (foldl (clean_step true) (rev cs ++ []) [name]).
  rewrite (clean_plain _ [name]) by (by constructor). rewrite app_nil_r. cbn [rev app].
  by rewrite rev_involutive, joined_snoc.
Qed.

(** The location of the meta table is decoded with the message of the
    master: the client asks for the znode under its root, and [LocateResource]
    compares the whole path with the name of the meta resource.  The decoder
    for the meta table is never used. *)
Theorem meta_decoded_as_master cs unmarshal_MetaRegionServer unmarshal_Master a :
  cs <> [] -> Forall plain cs ->
  LocateResource unmarshal_MetaRegionServer unmarshal_Master (Prepend (slash :: joined slash cs) Meta) a
  = LocateResource (fun _ => inl None) unmarshal_Master (Prepend (slash :: joined slash cs) Meta) a.
Proof.
  intros Hne Hcs.
  assert (Prepend (slash :: joined slash cs) Meta <> Meta) as Hmeta.
  { unfold Meta. change (bs "/meta-region-server") with (slash :: bs "meta-region-server"). rewrite Prepend_plain; [|done..|].
    - intros E. apply (f_equal length) in E. rewrite length_app in E. simpl in E. lia.
    - split_and!; [|done..]. apply (bool_decide_unpack _). vm_compute. exact I. }
  destruct a as [| |buf]; [done..|]. cbn [LocateResource]. unfold parse_znode. by rewrite (bool_decide_eq_false_2 _ Hmeta).
Qed.

Lemma meta_decoded_as_master_witness :
  LocateResource (fun _ => inr []) (fun _ => inl (Some (mkServerName (Some (bs "h")) (Some 16020)))) (Prepend (bs defaultZkRoot) Meta)
    (Data (znode (bs "x") [])) = Ok (bs "h:16020").
Proof.
  change (bs defaultZkRoot) with (slash :: joined slash [bs "hbase"]). rewrite meta_decoded_as_master; [|done|].
  - vm_compute. reflexivity.
  - constructor; [|constructor]. split_and!; [|done..]. apply (bool_decide_unpack _). vm_compute. exact I.
Defined.

Lemma cut_znode_panics_witness :
  LocateResource (fun _ => inl None) (fun _ => inl None) Master (Data [xff; x00; x00; x00; x01; x78; x50]) = Panic.
Proof. apply (cut_znode_panics (fun _ => inl None) (fun _ => inl None) Master (bs "x") [] 7); [done|simpl; lia]. Defined.
