(* ===== verification/Turns.v ===== *)
(** * The turns of a goroutine

    A run against a schedule goes turn by turn: more events at the end of a
    schedule do not change what the run has done before, a run that waits goes on
    from the state it left, and no definition changes what is known of the other
    goroutines.  A loop that gets its fuel from the length of the schedule is
    not an exception, as more fuel than needed changes nothing. *)

From S2P Require Import Prelude RegionName Pb RegionInfo RegionTree KeyRegionCache Hrpc RpcError Multi ClientRegionCache World Rpc Establish Fuel Batch Client.

Create HintDb turns.

Section Turns.
Context {T : RegionTree ptr} {HO : RangeOrder}.

(** The events answer the same, and find the same state after [v]. *)
Definition same_turn (v : world) (e e' : event) : Prop := ev_ans e = ev_ans e' /\ ev_env e v = ev_env e' v.

(** A run that returns does so with a longer schedule too, and one that waits
    resumes, when the next event comes, from the state that the event makes of
    the one left behind. *)
Definition turns {A : Type} (m : M A) : Prop := forall evs w,
  match m evs w with
  | Ok (a, evs', w') =>
      (forall r, m (evs ++ r) w = Ok (a, evs' ++ r, w')) /\ (evs = [] -> evs' = [] /\ w_frame w' = w_frame w)
  | Err (Waiting v) =>
      (evs = [] -> w_frame v = w_frame w) /\
      (forall e e' r, same_turn v e e' -> m (evs ++ e :: r) w = m (evs ++ e' :: r) w) /\
      forall e, match m (evs ++ [e]) w with
                | Ok (_, evs', w') => evs' = [] /\ w_frame w' = w_frame (ev_env e v)
                | Err (Waiting w') => w_frame w' = w_frame (ev_env e v)
                | _ => True
                end
  | Err Blocked => evs <> []
  | _ => True
  end.

Lemma turns_ret {A : Type} (a : A) : turns (mret a).
Proof. intros evs w. simpl. by split. Qed.

Lemma turns_bind {A B : Type} (m : M A) (f : A -> M B) : turns m -> (forall a, turns (f a)) -> turns (m ≫= f).
Proof.
  intros Hm Hf evs w. specialize (Hm evs w). unfold mbind, M_bind.
  destruct (m evs w) as [[[a evs1] w1]|[| |v]|] eqn:E; [|done|done| |done].
  - destruct Hm as [Hext Hnil]. specialize (Hf a evs1 w1). destruct (f a evs1 w1) as [[[b evs2] w2]|[| |v]|] eqn:E2; [| |done| |done].
    + destruct Hf as [Hext2 Hnil2]. split; [intros r; by rewrite Hext, Hext2|]. intros Hevs. destruct (Hnil Hevs) as [Hevs1 Hw1].
      destruct (Hnil2 Hevs1) as [? ?]. split; [done|congruence].
    + by intros [? _]%Hnil.
    + destruct Hf as (Hnil2 & Hsame & Hnext). split; [|split; [|intros e; rewrite Hext; apply Hnext]].
      2: { intros e e' r He. rewrite !Hext. by apply Hsame. }
      intros Hevs. destruct (Hnil Hevs) as [Hevs1 Hw1]. rewrite (Hnil2 Hevs1). done.
  - destruct Hm as (Hnil & Hsame & Hnext). split; [done|]. split; [intros e e' r He; by rewrite (Hsame e e' r He)|].
    intros e. specialize (Hnext e).
    destruct (m (evs ++ [e]) w) as [[[a evs1] w1]|[]|]; [|done..]. destruct Hnext as [-> Hw1].
    specialize (Hf a [] w1). destruct (f a [] w1) as [[[b evs2] w2]|[]|]; [|done|done| |done]; destruct Hf as [H1 H2].
    + destruct (H2 eq_refl) as [? ?]. split; [done|congruence].
    + by rewrite H1.
Qed.

(** A step that does not wait and keeps what is known of the others. *)
Definition keeps {A : Type} (w : world) (o : outcome halt (A * world)) : Prop :=
  match o with Ok (_, w') => w_frame w' = w_frame w | Err (Waiting _) => False | _ => True end.

Lemma keeps_no_err {A B : Type} w (o : outcome Empty_set A) (k : A -> outcome halt (B * world)) :
  (forall a, keeps w (k a)) -> keeps w (obind (no_err o) k).
Proof. intros Hk. destruct o as [a|[]|]; simpl; [apply Hk|done]. Qed.

Lemma turns_await {A : Type} (f : answer -> world -> outcome halt (A * world)) :
  (forall a w, keeps w (f a w)) -> turns (await f).
Proof.
  intros Hf evs w. destruct evs as [|e evs]; cbn [await app].
  - split_and!; [done|by intros e e' r [-> ->]|].
    intros e. specialize (Hf (ev_ans e) (ev_env e w)). unfold keeps in Hf. by destruct (f _ _) as [[]|[]|].
  - specialize (Hf (ev_ans e) (ev_env e w)). unfold keeps in Hf. by destruct (f _ _) as [[a w']|[]|].
Qed.

Lemma turns_atomic {A : Type} (f : world -> outcome halt (A * world)) :
  (forall w, keeps w (f w)) -> turns (atomic f).
Proof. intros Hf. apply turns_await. intros a w. destruct a; done || apply Hf. Qed.

Lemma turns_fatal {A : Type} : turns (fatal (A := A)).
Proof. done. Qed.
Lemma turns_no_fuel {A : Type} : turns (no_fuel (A := A)).
Proof. done. Qed.

(** *** Fuel *)

(** [m'] does what [m] does, where [m] has enough fuel. *)
Definition refines {A : Type} (m m' : M A) : Prop := forall evs w, m evs w <> Err NoFuel -> m' evs w = m evs w.

Lemma refines_bind {A B : Type} (m : M A) (f f' : A -> M B) :
  (forall a, refines (f a) (f' a)) -> refines (m ≫= f) (m ≫= f').
Proof.
  intros Hf evs w. unfold mbind, M_bind. destruct (m evs w) as [[[a evs1] w1]| |]; [|done..]. apply Hf.
Qed.

(** A loop with as much fuel as it can use. *)
Lemma turns_fuel {A : Type} (loop : nat -> M A) :
  (forall n, turns (loop n)) -> (forall n, refines (loop n) (loop (S n))) -> (forall n, uses n (loop n) (fun _ => 0%nat)) ->
  turns (fun evs w => loop (S (length evs)) evs w).
Proof.
  intros Ht Hr Hu.
  assert (forall n k evs w, (length evs < n)%nat -> loop (n + k)%nat evs w = loop n evs w) as Hmore.
  { intros n k evs w Hn. induction k as [|k IH]; [by rewrite Nat.add_0_r|].
    replace (n + S k)%nat with (S (n + k)) by lia. rewrite (Hr (n + k)%nat evs w), IH; [done|].
    intros H. specialize (Hu (n + k)%nat evs w ltac:(lia)). by rewrite H in Hu. }
  assert (forall evs r w, loop (S (length (evs ++ r))) evs w = loop (S (length evs)) evs w) as Hlen.
  { intros evs r w. rewrite length_app. apply (Hmore (S (length evs)) (length r)). lia. }
  intros evs w. destruct (loop (S (length evs)) evs w) as [[[a evs'] w']|[| |v]|] eqn:E; [| |done| |done].
  - split.
    + intros r. pose proof (Ht (S (length (evs ++ r))) evs w) as H. rewrite Hlen, E in H. apply H.
    + intros Hevs. pose proof (Ht (S (length evs)) evs w) as H. rewrite E in H. by apply H.
  - pose proof (Ht (S (length evs)) evs w) as H. by rewrite E in H.
  - split_and!.
    + intros Hevs. pose proof (Ht (S (length evs)) evs w) as H. rewrite E in H. by apply H.
    + intros e e' r He. pose proof (Ht (S (length (evs ++ e :: r))) evs w) as H. rewrite Hlen, E in H.
      replace (length (evs ++ e' :: r)) with (length (evs ++ e :: r)) by (rewrite !length_app; done). by apply H.
    + intros e. pose proof (Ht (S (length (evs ++ [e]))) evs w) as H. rewrite Hlen, E in H. apply H.
Qed.

(** *** The accesses *)

Ltac turns_access :=
  first [apply turns_atomic|apply turns_await]; intros;
  repeat first [apply keeps_no_err; intros|case_match]; done.

Lemma turns_read {A : Type} (f : heap -> outcome Empty_set A) : turns (read_heap f).
Proof. turns_access. Qed.
Lemma turns_markUnavailable p : turns (markUnavailable p).
Proof. turns_access. Qed.
Lemma turns_markAvailable p : turns (markAvailable p).
Proof. turns_access. Qed.
Lemma turns_setClient p c : turns (setClient p c).
Proof. turns_access. Qed.
Lemma turns_regions_put p : turns (regions_put p).
Proof. turns_access. Qed.
Lemma turns_regions_del p : turns (regions_del p).
Proof. turns_access. Qed.
Lemma turns_clients_del p : turns (clients_del p).
Proof. turns_access. Qed.
Lemma turns_clients_put addr p : turns (clients_put addr p).
Proof. turns_access. Qed.
Lemma turns_clients_down c : turns (clients_down c).
Proof. turns_access. Qed.
Lemma turns_wait ctx ch : turns (wait_available ctx ch).
Proof. turns_access. Qed.
Lemma turns_sendBlocking ctx : turns (sendBlocking ctx).
Proof. turns_access. Qed.
Lemma turns_dial : turns dial.
Proof. turns_access. Qed.
Lemma turns_zkLookup : turns zkLookup.
Proof. turns_access. Qed.
Lemma turns_await_call c : turns (await_call c).
Proof. turns_access. Qed.
Lemma turns_sleep ctx b : turns (sleepAndIncreaseBackoff ctx b).
Proof. unfold sleepAndIncreaseBackoff. case_bool_decide; [apply turns_ret|turns_access]. Qed.
Lemma turns_spawn p addr : turns (spawn p addr).
Proof. intros evs w. simpl. by split. Qed.
Lemma turns_discard p : turns (discard p).
Proof. intros evs w. simpl. by split. Qed.

#[local] Hint Resolve turns_ret turns_fatal turns_no_fuel turns_read turns_markUnavailable turns_markAvailable turns_setClient
  turns_regions_put turns_regions_del turns_clients_del turns_clients_put turns_clients_down turns_wait turns_sendBlocking
  turns_dial turns_zkLookup turns_await_call turns_sleep turns_spawn turns_discard : turns.

Ltac turns_walk :=
  repeat first
    [ progress intros
    | progress cbv beta
    | solve [eauto with turns]
    | apply turns_bind
    | case_match ].

(** *** The functions of rpc.go *)

Section Walk.
Variable clientType : ClientType.
Variable adminRegionInfo metaRegionInfo : option ptr.
Variable unmarshal_RegionInfo : bytes -> option RegionInfo.

Lemma turns_metaLookup table key : turns (metaLookup unmarshal_RegionInfo table key).
Proof. unfold metaLookup. destruct (metaScan table key); [turns_access|apply turns_ret|done]. Qed.

#[local] Hint Resolve turns_metaLookup : turns.

Lemma turns_lookup_loop fuel ctx table key b :
  turns (lookup_loop clientType adminRegionInfo metaRegionInfo unmarshal_RegionInfo fuel ctx table key b).
Proof.
  revert b. induction fuel as [|fuel IH]; intros b; cbn [lookup_loop]; [done|]. unfold lookup_once, located. turns_walk.
Qed.

Lemma refines_lookup_loop fuel ctx table key b :
  refines (lookup_loop clientType adminRegionInfo metaRegionInfo unmarshal_RegionInfo fuel ctx table key b)
    (lookup_loop clientType adminRegionInfo metaRegionInfo unmarshal_RegionInfo (S fuel) ctx table key b).
Proof.
  revert b. induction fuel as [|fuel IH]; intros b; [by intros evs w []|].
  cbn [lookup_loop] in IH |- *. apply refines_bind. intros [ra|e]; [done|]. destruct (lookup_final e); [done|].
  apply refines_bind. intros [b'|e']; [apply IH|done].
Qed.

Lemma turns_lookupRegion ctx table key :
  turns (lookupRegion clientType adminRegionInfo metaRegionInfo unmarshal_RegionInfo ctx table key).
Proof.
  apply (turns_fuel (fun n => lookup_loop clientType adminRegionInfo metaRegionInfo unmarshal_RegionInfo n ctx table key backoffStart));
    intros n; [apply turns_lookup_loop|apply refines_lookup_loop|by apply uses_lookup_loop].
Qed.

Lemma turns_clients_del_all l : turns (clients_del_all l).
Proof. induction l; simpl; turns_walk. Qed.

#[local] Hint Resolve turns_lookupRegion turns_clients_del_all : turns.

Lemma turns_find_tries k ctx table key :
  turns (find_tries clientType adminRegionInfo metaRegionInfo unmarshal_RegionInfo k ctx table key).
Proof.
  induction k as [|k IH]; [apply turns_ret|]. cbn [find_tries].
  apply turns_bind; [unfold getRegionFromCache; repeat case_bool_decide; [apply turns_ret..|turns_access]|].
  unfold findRegion, share_region. turns_walk.
Qed.

Lemma turns_mark_and_reestablish reg : turns (mark_and_reestablish reg).
Proof. unfold mark_and_reestablish. turns_walk. Qed.

#[local] Hint Resolve turns_find_tries turns_mark_and_reestablish : turns.

Lemma turns_region_and_client_once ctx table key :
  turns (region_and_client_once clientType adminRegionInfo metaRegionInfo unmarshal_RegionInfo ctx table key).
Proof. unfold region_and_client_once, getRegionForRpc, wait_if. turns_walk. Qed.

#[local] Hint Resolve turns_region_and_client_once : turns.

Lemma refines_region_and_client_loop n ctx table key :
  refines (region_and_client_loop clientType adminRegionInfo metaRegionInfo unmarshal_RegionInfo n ctx table key)
    (region_and_client_loop clientType adminRegionInfo metaRegionInfo unmarshal_RegionInfo (S n) ctx table key).
Proof.
  induction n as [|n IH]; [by intros evs w []|]. cbn [region_and_client_loop] in IH |- *.
  apply refines_bind. intros [[rc|]|e]; [done|apply IH|done].
Qed.

Lemma turns_getRegionAndClientForRPC ctx table key :
  turns (getRegionAndClientForRPC clientType adminRegionInfo metaRegionInfo unmarshal_RegionInfo ctx table key).
Proof.
  apply (turns_fuel (fun n => region_and_client_loop clientType adminRegionInfo metaRegionInfo unmarshal_RegionInfo n ctx table key));
    intros n; [|apply refines_region_and_client_loop|apply uses_region_and_client_loop].
  induction n as [|n IH]; cbn [region_and_client_loop]; [done|turns_walk].
Qed.

Lemma turns_clientDown c reg : turns (clientDown c reg).
Proof.
  unfold clientDown. assert (forall l, turns (down_regions l reg)) by (induction l; simpl; turns_walk). turns_walk.
Qed.

#[local] Hint Resolve turns_clientDown turns_getRegionAndClientForRPC : turns.

Lemma turns_handleResultError e reg rc : turns (handleResultError adminRegionInfo e reg rc).
Proof. unfold handleResultError. turns_walk. Qed.

#[local] Hint Resolve turns_handleResultError : turns.

Lemma refines_send_loop n table key b :
  refines (send_loop clientType adminRegionInfo metaRegionInfo unmarshal_RegionInfo n table key b)
    (send_loop clientType adminRegionInfo metaRegionInfo unmarshal_RegionInfo (S n) table key b).
Proof.
  revert b. induction n as [|n IH]; intros b; [by intros evs w []|]. cbn [send_loop] in IH |- *.
  apply refines_bind. intros [[reg c]|e]; [|done].
  apply refines_bind. intros [msg [[| | | |[]| | | |]|]]; try done; [|apply IH..].
  apply refines_bind. intros [b0|e0]; [apply IH|done].
Qed.

Lemma turns_SendRPC table key :
  turns (SendRPC clientType adminRegionInfo metaRegionInfo unmarshal_RegionInfo table key).
Proof.
  apply (turns_fuel (fun n => send_loop clientType adminRegionInfo metaRegionInfo unmarshal_RegionInfo n table key backoffStart));
    intros n; [|apply refines_send_loop|by apply uses_send_loop]. generalize backoffStart.
  induction n as [|n IH]; intros b; cbn [send_loop]; [done|]. unfold sendRPCToRegionClient. turns_walk.
Qed.

Lemma turns_relookup reg : turns (relookup clientType adminRegionInfo metaRegionInfo unmarshal_RegionInfo reg).
Proof. unfold relookup. turns_walk. Qed.

Lemma turns_client_for reg addr : turns (client_for adminRegionInfo reg addr).
Proof. unfold client_for. case_bool_decide; [turns_access|apply turns_clients_put]. Qed.

#[local] Hint Resolve turns_relookup turns_client_for : turns.

Lemma turns_connect reg addr : turns (connect adminRegionInfo reg addr).
Proof. unfold connect, isRegionEstablished. turns_walk. Qed.

#[local] Hint Resolve turns_connect : turns.

Lemma refines_establish_loop n reg addr b :
  refines (establish_loop clientType adminRegionInfo metaRegionInfo unmarshal_RegionInfo n reg addr b)
    (establish_loop clientType adminRegionInfo metaRegionInfo unmarshal_RegionInfo (S n) reg addr b).
Proof.
  revert reg addr b. induction n as [|n IH]; intros reg addr b; [by intros evs w []|]. cbn [establish_loop] in IH |- *.
  apply refines_bind. intros [b'|e]; [|done]. apply refines_bind.
  intros [| |reg' addr']; [done..|]. apply refines_bind. intros []; [done|apply IH].
Qed.

Lemma turns_establishRegion reg addr :
  turns (establishRegion clientType adminRegionInfo metaRegionInfo unmarshal_RegionInfo reg addr).
Proof.
  apply (turns_fuel (fun n => establish_loop clientType adminRegionInfo metaRegionInfo unmarshal_RegionInfo n reg addr 0));
    intros n; [|apply refines_establish_loop|apply uses_establish_loop].
  revert reg addr. generalize 0. induction n as [|n IH]; intros b reg addr; cbn [establish_loop]; [done|turns_walk].
Qed.

#[local] Hint Resolve turns_establishRegion : turns.

Lemma turns_reestablishRegion reg :
  turns (reestablishRegion clientType adminRegionInfo metaRegionInfo unmarshal_RegionInfo reg).
Proof. unfold reestablishRegion. apply turns_bind; [turns_access|]. turns_walk. Qed.

(** *** Batches and Close *)

Lemma turns_wait_groups gs m region_of res ok : turns (wait_groups adminRegionInfo gs m region_of res ok).
Proof.
  assert (forall rc c res, turns (handle_call adminRegionInfo rc region_of c res)) by (unfold handle_call; turns_walk).
  assert (forall rc rpcs res, turns (wait_canceled adminRegionInfo rc m region_of rpcs res))
    by (intros rc rpcs; induction rpcs; simpl; turns_walk).
  assert (forall rc rpcs res ok, turns (wait_loop adminRegionInfo rc m region_of rpcs res ok))
    by (intros rc rpcs; induction rpcs; cbn [wait_loop]; turns_walk).
  revert res ok. induction gs as [|[] gs IH]; cbn [wait_groups]; unfold waitForCompletion; turns_walk.
Qed.

#[local] Hint Resolve turns_wait_groups : turns.

Lemma turns_SendBatch call_of batch :
  turns (SendBatch clientType adminRegionInfo metaRegionInfo unmarshal_RegionInfo call_of batch).
Proof.
  assert (forall l i res g ok,
    turns (findClients clientType adminRegionInfo metaRegionInfo unmarshal_RegionInfo call_of i l res g ok))
    by (induction l; cbn [findClients]; turns_walk).
  destruct batch as [|c batch]; [apply turns_ret|]. unfold SendBatch. turns_walk.
Qed.

Lemma turns_close_begin : turns close_begin.
Proof. turns_access. Qed.
Lemma turns_close_end : turns close_end.
Proof. turns_access. Qed.
Lemma turns_client_Close c : turns (client_Close c).
Proof. turns_access. Qed.
Lemma turns_closeAll_range : turns closeAll_range.
Proof. turns_access. Qed.

#[local] Hint Resolve turns_close_begin turns_close_end turns_client_Close turns_closeAll_range : turns.

Lemma turns_close_clients l : turns (close_clients l).
Proof.
  assert (forall l, turns (close_regions l)) by (clear l; intros l; induction l; cbn [close_regions]; turns_walk).
  induction l as [|[] l IH]; cbn [close_clients]; turns_walk.
Qed.

#[local] Hint Resolve turns_close_clients : turns.

Lemma turns_Close : turns (Close clientType adminRegionInfo).
Proof. unfold Close, close_admin, closeAll. turns_walk. Qed.

End Walk.

End Turns.

#[export] Hint Resolve turns_ret turns_fatal turns_no_fuel turns_read turns_markUnavailable turns_markAvailable turns_setClient
  turns_regions_put turns_regions_del turns_clients_del turns_clients_put turns_clients_down turns_wait turns_sendBlocking
  turns_dial turns_zkLookup turns_await_call turns_sleep turns_spawn turns_discard turns_lookupRegion turns_metaLookup
  turns_client_for turns_SendRPC turns_getRegionAndClientForRPC turns_establishRegion turns_reestablishRegion turns_close_begin
  turns_close_end turns_client_Close turns_closeAll_range : turns.
