(* ===== verification/Progress.v ===== *)
(** * Goroutines do not wait for each other in a circle

    A goroutine waits for a region only while it is answerable for none.  At
    every other point where it waits there is an answer that does not depend on
    another goroutine: of the scheduler, a timer, a server or zookeeper. *)

From S2P Require Import Prelude RegionName Pb RegionInfo RegionTree KeyRegionCache Hrpc RpcError Multi ClientRegionCache World Rpc Establish Fuel Discipline Batch Client Turns.

Create HintDb tidy.

Section Progress.
Context {T : RegionTree ptr} {HO : RangeOrder}.
Variable clientType : ClientType.
Variable adminRegionInfo metaRegionInfo : option ptr.
Variable unmarshal_RegionInfo : bytes -> option RegionInfo.

Abbreviation answer_ok := (answer_ok unmarshal_RegionInfo).

(** Whatever the goroutine finds, some answer lets it go on. *)
Definition can_go {A : Type} (m : M A) (evs : list event) (w : world) : Prop :=
  forall now, exists a, (forall u, answer_ok a u) /\ m (evs ++ [mkEvent (fun _ => now) a]) w <> Err Blocked.

(** The others do not change what a goroutine owns. *)
Definition steady (e : event) : Prop := forall w, w_owned (ev_env e w) = w_owned w.

(** From a state in which what is owned satisfies [P], the run waits only where
    it owns nothing or can go on; where it returns, [Q] holds. *)
Definition tidy {A : Type} (P : gset ptr -> Prop) (m : M A) (Q : A -> gset ptr -> Prop) : Prop :=
  turns m /\ forall evs w, Forall steady evs -> P (w_owned w) ->
  match m evs w with
  | Ok (a, evs', w') => Forall steady evs' /\ Q a (w_owned w')
  | Err (Waiting v) => w_owned v = ∅ \/ can_go m evs w
  | _ => True
  end.

Lemma tidy_ret {A : Type} (P : gset ptr -> Prop) (a : A) (Q : A -> gset ptr -> Prop) :
  (forall O, P O -> Q a O) -> tidy P (mret a) Q.
Proof. intros H. split; [apply turns_ret|]. intros evs w He HP. simpl. auto. Qed.

Lemma tidy_bind {A B : Type} P (m : M A) (f : A -> M B) Q R :
  tidy P m Q -> (forall a, tidy (Q a) (f a) R) -> tidy P (m ≫= f) R.
Proof.
  intros [Hmt Hm] Hf. assert (turns (m ≫= f)) as Ht by (apply turns_bind; [done|]; intros a; apply Hf).
  split; [done|]. intros evs w He HP. specialize (Hm evs w He HP). specialize (Hmt evs w). unfold can_go, mbind, M_bind.
  destruct (m evs w) as [[[a evs1] w1]|[| |v]|] eqn:E; try done.
  - destruct Hm as [He1 HQ]. destruct Hmt as [Hext _]. destruct (Hf a) as [_ Hfa]. specialize (Hfa evs1 w1 He1 HQ).
    destruct (f a evs1 w1) as [[[b evs2] w2]|[| |v]|]; try done. destruct Hfa as [?|Hgo]; [by left|]. right. intros now.
    destruct (Hgo now) as (x & Hx & Hb). exists x. split; [done|]. by rewrite Hext.
  - destruct Hm as [?|Hgo]; [by left|]. right. intros now. destruct (Hgo now) as (x & Hx & Hb). exists x. split; [done|].
    destruct Hmt as (_ & _ & Hnext). specialize (Hnext (mkEvent (fun _ => now) x)).
    destruct (m (evs ++ _) w) as [[[a evs1] w1]|[]|]; try done. destruct Hnext as [-> _].
    destruct (Hf a) as [Hft _]. specialize (Hft [] w1). by destruct (f a [] w1) as [[[]]|[]|].
Qed.

Lemma tidy_weaken {A : Type} (P P' : gset ptr -> Prop) (m : M A) (Q Q' : A -> gset ptr -> Prop) :
  tidy P m Q -> (forall O, P' O -> P O) -> (forall a O, Q a O -> Q' a O) -> tidy P' m Q'.
Proof.
  intros [Ht Hm] HP HQ. split; [done|]. intros evs w He Hp. specialize (Hm evs w He (HP _ Hp)).
  destruct (m evs w) as [[[a evs'] w']|[]|]; try done. destruct Hm. auto.
Qed.

(** An access or a wait that some answer lets go on. *)
Lemma tidy_await {A : Type} (P : gset ptr -> Prop) (f : answer -> world -> outcome halt (A * world)) Q x :
  turns (await f) -> (forall u, answer_ok x u) -> (forall w, f x w <> Err Blocked) ->
  (forall a w, P (w_owned w) -> match f a w with Ok (b, w') => Q b (w_owned w') | Err e => forall v, e <> Waiting v | Panic => True end) ->
  tidy P (await f) Q.
Proof.
  intros Ht Hx Hf HQ. split; [done|]. intros evs w He HP. destruct evs as [|e evs]; cbn [await].
  - right. intros now. exists x. split; [done|]. simpl. specialize (Hf now). by destruct (f x now) as [[]|[]|].
  - apply Forall_cons in He as [He Hes]. specialize (HQ (ev_ans e) (ev_env e w)). rewrite He in HQ. specialize (HQ HP).
    destruct (f _ _) as [[b w']|[| |v]|]; try done. by destruct (HQ v).
Qed.

Lemma tidy_atomic {A : Type} (P : gset ptr -> Prop) (f : world -> outcome halt (A * world)) Q :
  turns (atomic f) ->
  (forall w, f w <> Err Blocked) ->
  (forall w, P (w_owned w) -> match f w with Ok (b, w') => Q b (w_owned w') | Err e => forall v, e <> Waiting v | Panic => True end) ->
  tidy P (atomic f) Q.
Proof.
  intros Ht Hf HQ. apply (tidy_await P _ Q AnsGo); [done|done|done|]. intros a w HP. destruct a; try done. by apply HQ.
Qed.

Lemma no_err_blocked {A B : Type} (o : outcome Empty_set A) (k : A -> outcome halt B) :
  (forall a, k a <> Err Blocked) -> obind (no_err o) k <> Err Blocked.
Proof. intros Hk. destruct o as [a|[]|]; simpl; [apply Hk|done]. Qed.

Lemma no_err_match {A B : Type} (o : outcome Empty_set A) (k : A -> outcome halt (B * world)) (Q : B -> world -> Prop) :
  (forall a, match k a with Ok (b, w') => Q b w' | Err e => forall v, e <> Waiting v | Panic => True end) ->
  match obind (no_err o) k with Ok (b, w') => Q b w' | Err e => forall v, e <> Waiting v | Panic => True end.
Proof. intros Hk. destruct o as [a|[]|]; simpl; [apply Hk|done]. Qed.

(** *** Accesses *)

Ltac tidy_access :=
  first [apply tidy_atomic|apply (tidy_await _ _ _ AnsGo)];
  [solve [eauto with turns]
  |intros; repeat first [apply no_err_blocked; intros|case_match]; done
  |intros; try match goal with |- context [w_made ?w] => destruct (w_made w) end;
   try apply (no_err_match _ _ (fun b w' => _)); intros; repeat case_match; simplify_eq; done].

Section Leaves.
Variable P : gset ptr -> Prop.

Lemma tidy_read {A : Type} (f : heap -> outcome Empty_set A) : tidy P (read_heap f) (fun _ => P).
Proof. tidy_access. Qed.

Lemma tidy_setClient p c : tidy P (setClient p c) (fun _ => P).
Proof. tidy_access. Qed.
Lemma tidy_regions_put p : tidy P (regions_put p) (fun _ => P).
Proof. tidy_access. Qed.
Lemma tidy_regions_del p : tidy P (regions_del p) (fun _ => P).
Proof. tidy_access. Qed.
Lemma tidy_clients_del p : tidy P (clients_del p) (fun _ => P).
Proof. tidy_access. Qed.
Lemma tidy_clients_put addr p : tidy P (clients_put addr p) (fun _ => P).
Proof. tidy_access. Qed.
Lemma tidy_clients_down c : tidy P (clients_down c) (fun _ => P).
Proof. tidy_access. Qed.
Lemma tidy_client_for reg addr : tidy P (client_for adminRegionInfo reg addr) (fun _ => P).
Proof.
  pose proof (turns_client_for adminRegionInfo reg addr) as Ht. unfold client_for in *.
  case_bool_decide; [by apply tidy_atomic|apply tidy_clients_put].
Qed.
Lemma tidy_markUnavailable p :
  tidy P (markUnavailable p) (fun b O => exists O', P O' /\ O = if b then {[p]} ∪ O' else O').
Proof.
  apply tidy_atomic; [apply turns_markUnavailable|intros w; by apply no_err_blocked|]. intros w HP.
  apply (no_err_match _ _ (fun (b : bool) w' => exists O' : gset ptr, P O' /\ w_owned w' = if b then {[p]} ∪ O' else O')). intros [b h]. simpl.
  by exists (w_owned w).
Qed.
Lemma tidy_markAvailable p : tidy P (markAvailable p) (fun _ O => exists O', P O' /\ O = O' ∖ {[p]}).
Proof.
  apply tidy_atomic; [apply turns_markAvailable|intros w; by apply no_err_blocked|]. intros w HP.
  apply (no_err_match _ _ (fun (_ : unit) w' => exists O' : gset ptr, P O' /\ w_owned w' = O' ∖ {[p]})). intros h. simpl. by exists (w_owned w).
Qed.
Lemma tidy_spawn p addr : tidy P (spawn p addr) (fun _ O => exists O', P O' /\ O = O' ∖ {[p]}).
Proof. split; [apply turns_spawn|]. intros evs w He HP. simpl. split; [done|]. by exists (w_owned w). Qed.
Lemma tidy_discard p : tidy P (discard p) (fun _ O => exists O', P O' /\ O = O' ∖ {[p]}).
Proof. split; [apply turns_discard|]. intros evs w He HP. simpl. split; [done|]. by exists (w_owned w). Qed.

(** *** Waits *)

Lemma tidy_sleep ctx b : tidy P (sleepAndIncreaseBackoff ctx b) (fun _ => P).
Proof.
  pose proof (turns_sleep ctx b) as Ht. unfold sleepAndIncreaseBackoff in *. case_bool_decide; [by apply tidy_ret|].
  apply (tidy_await _ _ _ (AnsSleep false)); [done..|]. intros a w HP. repeat case_match; simplify_eq; done.
Qed.
Lemma tidy_sendBlocking ctx : tidy P (sendBlocking ctx) (fun _ => P).
Proof.
  apply (tidy_await _ _ _ (AnsResult (Some (mkRPCResult None None)))); [apply turns_sendBlocking|done..|].
  intros a w HP. repeat case_match; simplify_eq; done.
Qed.
Lemma tidy_dial : tidy P dial (fun _ => P).
Proof. apply (tidy_await _ _ _ (AnsDial DialOk)); [apply turns_dial|done..|]. intros a w HP. by destruct a. Qed.
Lemma tidy_zkLookup : tidy P zkLookup (fun _ => P).
Proof.
  apply (tidy_await _ _ _ (AnsZk (inl ""%string))); [apply turns_zkLookup|done..|]. intros a w HP. repeat case_match; simplify_eq; done.
Qed.
Lemma tidy_await_call c : tidy P (await_call c) (fun _ => P).
Proof.
  apply (tidy_await _ _ _ (AnsResultOf c None)); [apply turns_await_call|done|intros w; by rewrite bool_decide_eq_true_2|].
  intros a w HP. repeat case_match; simplify_eq; done.
Qed.
Lemma tidy_metaLookup table key : tidy P (metaLookup unmarshal_RegionInfo table key) (fun _ => P).
Proof.
  pose proof (turns_metaLookup unmarshal_RegionInfo table key) as Ht. unfold metaLookup in *.
  destruct (metaScan table key); [|by apply tidy_ret|done]. apply (tidy_await _ _ _ (AnsScan ScanEOF)); [done..|].
  intros x w HP. destruct x as [| | |[]| | | |]; try done. by apply (no_err_match _ _ (fun _ w' => P (w_owned w'))).
Qed.

(** The one wait for another goroutine: for the region to become available. *)
Lemma tidy_wait ctx ch : (forall O, P O -> O = ∅) -> tidy P (wait_available ctx ch) (fun _ => P).
Proof.
  intros Hnone. split; [apply turns_wait|]. intros [|e evs] w He HP; [left; by apply Hnone|]. cbn [wait_available await].
  apply Forall_cons in He as [He Hes]. pose proof HP as HP'. rewrite <- He in HP'.
  unfold wait_available, await. destruct (ev_ans e) as [|[]| | | | | |]; try done; repeat case_match; simplify_eq; done.
Qed.

End Leaves.

Lemma tidy_fatal {A : Type} P (Q : A -> gset ptr -> Prop) : tidy P fatal Q.
Proof. by split. Qed.
Lemma tidy_no_fuel {A : Type} P (Q : A -> gset ptr -> Prop) : tidy P no_fuel Q.
Proof. by split. Qed.

(** A loop with as much fuel as it can use. *)
Lemma tidy_fuel {A : Type} P (loop : nat -> M A) Q :
  (forall n, tidy P (loop n) Q) -> (forall n, refines (loop n) (loop (S n))) -> (forall n, uses n (loop n) (fun _ => 0%nat)) ->
  tidy P (fun evs w => loop (S (length evs)) evs w) Q.
Proof.
  intros Hl Hr Hu. split; [apply turns_fuel; [intros n; apply Hl|done|done]|]. intros evs w He HP.
  destruct (Hl (S (length evs))) as [_ H1]. specialize (H1 evs w He HP).
  destruct (loop (S (length evs)) evs w) as [[[a evs'] w']|[| |v]|] eqn:E; try done.
  destruct (Hl (S (S (length evs)))) as [_ H2]. specialize (H2 evs w He HP).
  rewrite (Hr (S (length evs)) evs w), E in H2; [|by rewrite E]. destruct H2 as [?|Hgo]; [by left|right].
  intros now. destruct (Hgo now) as (x & Hx & Hb). exists x. split; [done|]. rewrite length_app. simpl. by rewrite Nat.add_1_r.
Qed.

(** *** The functions of rpc.go, answerable for anything or for nothing *)

Definition anything (O : gset ptr) : Prop := True.
Definition nothing (O : gset ptr) : Prop := O = ∅.

Lemma tidy_then {A B : Type} P (m : M A) (f : A -> M B) :
  tidy P m (fun _ => P) -> (forall a, tidy P (f a) (fun _ => P)) -> tidy P (m ≫= f) (fun _ => P).
Proof. apply tidy_bind. Qed.

Lemma tidy_keep {A : Type} P (a : A) : tidy P (mret a) (fun _ => P).
Proof. by apply tidy_ret. Qed.

Lemma tidy_anything {A : Type} (m : M A) Q : tidy anything m Q -> tidy anything m (fun _ => anything).
Proof. intros H. by eapply tidy_weaken. Qed.

Lemma free_markUnavailable p : tidy anything (markUnavailable p) (fun _ => anything).
Proof. eapply tidy_anything, tidy_markUnavailable. Qed.
Lemma free_markAvailable p : tidy anything (markAvailable p) (fun _ => anything).
Proof. eapply tidy_anything, tidy_markAvailable. Qed.
Lemma free_spawn p addr : tidy anything (spawn p addr) (fun _ => anything).
Proof. eapply tidy_anything, tidy_spawn. Qed.

#[local] Hint Resolve tidy_keep tidy_fatal tidy_no_fuel tidy_read tidy_setClient tidy_regions_put tidy_regions_del tidy_clients_del
  tidy_clients_put tidy_clients_down tidy_client_for tidy_sleep tidy_sendBlocking tidy_dial tidy_zkLookup tidy_await_call
  tidy_metaLookup free_markUnavailable free_markAvailable free_spawn : tidy.

Ltac tidy_walk :=
  repeat first
    [ progress intros
    | progress cbv beta
    | solve [eauto with tidy]
    | apply tidy_then
    | case_match ].

Lemma tidy_clients_del_all P l : tidy P (clients_del_all l) (fun _ => P).
Proof. induction l; simpl; tidy_walk. Qed.

Lemma tidy_lookupRegion P ctx table key :
  tidy P (lookupRegion clientType adminRegionInfo metaRegionInfo unmarshal_RegionInfo ctx table key) (fun _ => P).
Proof.
  apply (tidy_fuel _ (fun n => lookup_loop clientType adminRegionInfo metaRegionInfo unmarshal_RegionInfo n ctx table key backoffStart));
    intros n; [|apply refines_lookup_loop|by apply uses_lookup_loop]. generalize backoffStart.
  induction n as [|n IH]; intros b; cbn [lookup_loop]; unfold lookup_once, located; tidy_walk.
Qed.

#[local] Hint Resolve tidy_clients_del_all tidy_lookupRegion : tidy.

(** The first to mark a region, who owned nothing, hands it over before it waits for another. *)
Lemma tidy_first {A : Type} p (m : M A) (m' : M A) :
  tidy (fun O => O = {[p]}) m (fun _ => nothing) -> tidy nothing m' (fun _ => nothing) ->
  tidy nothing (first ← markUnavailable p; if (first : bool) then m else m') (fun _ => nothing).
Proof.
  intros Hm Hm'. eapply tidy_bind; [apply tidy_markUnavailable|]. intros []; cbv beta.
  - eapply tidy_weaken; [exact Hm| |done]. intros O (O' & -> & ->). by rewrite union_empty_r_L.
  - eapply tidy_weaken; [exact Hm'| |done]. by intros O (O' & -> & ->).
Qed.

Lemma tidy_hand_over p addr : tidy (fun O => O = {[p]}) (spawn p addr) (fun _ => nothing).
Proof. eapply tidy_weaken; [apply (tidy_spawn (fun O => O = {[p]}))|done|]. intros [] O (O' & -> & ->). unfold nothing. by rewrite difference_diag_L. Qed.

Lemma tidy_mark_and_reestablish p : tidy nothing (mark_and_reestablish p) (fun _ => nothing).
Proof.
  apply tidy_first; [|apply tidy_keep]. eapply tidy_bind; [apply tidy_hand_over|]. intros []. apply tidy_keep.
Qed.

Lemma tidy_down_regions l reg : tidy nothing (down_regions l reg) (fun _ => nothing).
Proof.
  induction l as [|p l IH]; simpl; [apply tidy_keep|]. case_bool_decide; [done|]. apply tidy_first; [|done].
  eapply tidy_bind; [apply tidy_setClient|]. intros []. eapply tidy_bind; [apply tidy_hand_over|]. by intros [].
Qed.

Lemma tidy_clientDown c reg : tidy nothing (clientDown c reg) (fun _ => nothing).
Proof.
  unfold clientDown. apply tidy_then; [apply tidy_clients_down|]. intros rs.
  eapply tidy_bind; [apply tidy_markUnavailable|]. intros first. cbv beta.
  eapply tidy_bind with (Q := fun _ => nothing); [|intros []; apply tidy_down_regions]. destruct first.
  - eapply tidy_weaken with (P := fun O => O = {[reg]}); [|intros O (O' & -> & ->); by rewrite union_empty_r_L|by intros ? O H; exact H].
    eapply tidy_bind; [apply tidy_setClient|]. intros []. apply tidy_hand_over.
  - apply tidy_ret. by intros O (O' & -> & ->).
Qed.

Lemma tidy_handleResultError e reg rc : tidy nothing (handleResultError adminRegionInfo e reg rc) (fun _ => nothing).
Proof.
  unfold handleResultError. destruct e; try apply tidy_keep; repeat case_bool_decide; try apply tidy_clientDown;
    (apply tidy_then; [apply tidy_mark_and_reestablish|intros; apply tidy_keep]).
Qed.

Lemma tidy_share_region reg addr : tidy nothing (share_region adminRegionInfo metaRegionInfo reg addr) (fun _ => nothing).
Proof.
  unfold share_region. eapply tidy_bind with (Q := fun _ O => O ⊆ {[reg]}).
  { eapply tidy_weaken; [apply (tidy_markUnavailable nothing)|done|]. intros b O (O' & -> & ->). destruct b; set_solver. }
  assert (forall O : gset ptr, O ⊆ {[reg]} -> O ∖ {[reg]} = ∅) as Hnone by (intros O Hsub; set_solver).
  assert (tidy (fun O => O ⊆ {[reg]}) (spawn reg addr) (fun _ => nothing)) as Hspawn.
  { eapply tidy_weaken; [apply (tidy_spawn (fun O => O ⊆ {[reg]}))|done|]. intros [] O (O' & HO' & ->). by apply Hnone. }
  assert (tidy (fun O => O ⊆ {[reg]}) (discard reg) (fun _ => nothing)) as Hdiscard.
  { eapply tidy_weaken; [apply (tidy_discard (fun O => O ⊆ {[reg]}))|done|]. intros [] O (O' & HO' & ->). by apply Hnone. }
  intros _. destruct (_ && _); [|eapply tidy_bind; [exact Hspawn|intros; apply tidy_keep]].
  eapply tidy_bind; [apply tidy_regions_put|]. intros x. destruct (negb _).
  - eapply tidy_bind; [exact Hdiscard|intros; apply tidy_keep].
  - eapply tidy_bind; [apply tidy_clients_del_all|]. intros []. eapply tidy_bind; [exact Hspawn|intros; apply tidy_keep].
Qed.

Lemma tidy_getRegionFromCache P table key :
  tidy P (getRegionFromCache clientType adminRegionInfo metaRegionInfo table key) (fun _ => P).
Proof.
  unfold getRegionFromCache. repeat case_bool_decide; try apply tidy_keep. apply tidy_atomic.
  - apply turns_atomic. intros w. destruct (w_made w); [by apply keeps_no_err|done].
  - intros w. destruct (w_made w); [by apply no_err_blocked|done].
  - intros w HP. destruct (w_made w); [by apply (no_err_match _ _ (fun _ w' => P (w_owned w')))|done].
Qed.

Lemma tidy_wait_if ctx ch : tidy nothing (wait_if ctx ch) (fun _ => nothing).
Proof. unfold wait_if. destruct ch; [by apply tidy_wait|apply tidy_keep]. Qed.

#[local] Hint Resolve tidy_mark_and_reestablish tidy_handleResultError tidy_share_region tidy_getRegionFromCache tidy_wait_if : tidy.

Lemma tidy_region_and_client_once ctx table key :
  tidy nothing (region_and_client_once clientType adminRegionInfo metaRegionInfo unmarshal_RegionInfo ctx table key) (fun _ => nothing).
Proof.
  assert (forall k, tidy nothing (find_tries clientType adminRegionInfo metaRegionInfo unmarshal_RegionInfo k ctx table key)
    (fun _ => nothing)) by (induction k; cbn [find_tries]; unfold findRegion; tidy_walk).
  unfold region_and_client_once, getRegionForRpc. tidy_walk.
Qed.

Lemma tidy_getRegionAndClientForRPC ctx table key :
  tidy nothing (getRegionAndClientForRPC clientType adminRegionInfo metaRegionInfo unmarshal_RegionInfo ctx table key) (fun _ => nothing).
Proof.
  apply (tidy_fuel _ (fun n => region_and_client_loop clientType adminRegionInfo metaRegionInfo unmarshal_RegionInfo n ctx table key));
    [|intros n; apply refines_region_and_client_loop|intros n; apply uses_region_and_client_loop].
  induction n as [|n IH]; cbn [region_and_client_loop]; [apply tidy_no_fuel|].
  apply tidy_then; [apply tidy_region_and_client_once|]. tidy_walk.
Qed.

#[local] Hint Resolve tidy_getRegionAndClientForRPC : tidy.

Lemma tidy_SendRPC table key :
  tidy nothing (SendRPC clientType adminRegionInfo metaRegionInfo unmarshal_RegionInfo table key) (fun _ => nothing).
Proof.
  apply (tidy_fuel _ (fun n => send_loop clientType adminRegionInfo metaRegionInfo unmarshal_RegionInfo n table key backoffStart));
    intros n; [|apply refines_send_loop|by apply uses_send_loop]. generalize backoffStart.
  induction n as [|n IH]; intros b; cbn [send_loop]; unfold sendRPCToRegionClient; tidy_walk.
Qed.

Lemma tidy_SendBatch call_of batch :
  tidy nothing (SendBatch clientType adminRegionInfo metaRegionInfo unmarshal_RegionInfo call_of batch) (fun _ => nothing).
Proof.
  assert (forall l i res g ok, tidy nothing
    (findClients clientType adminRegionInfo metaRegionInfo unmarshal_RegionInfo call_of i l res g ok) (fun _ => nothing))
    by (induction l; cbn [findClients]; tidy_walk).
  assert (forall rc m c res, tidy nothing (handle_call adminRegionInfo rc m c res) (fun _ => nothing)) by (unfold handle_call; tidy_walk).
  assert (forall rc m r rpcs res, tidy nothing (wait_canceled adminRegionInfo rc m r rpcs res) (fun _ => nothing))
    by (intros rc m r rpcs; induction rpcs; simpl; tidy_walk).
  assert (forall rc m r rpcs res ok, tidy nothing (wait_loop adminRegionInfo rc m r rpcs res ok) (fun _ => nothing))
    by (intros rc m r rpcs; induction rpcs; cbn [wait_loop]; tidy_walk).
  assert (forall gs m r res ok, tidy nothing (wait_groups adminRegionInfo gs m r res ok) (fun _ => nothing))
    by (induction gs as [|[] gs IH]; cbn [wait_groups]; unfold waitForCompletion; tidy_walk).
  destruct batch as [|c batch]; [apply tidy_keep|]. unfold SendBatch. tidy_walk.
Qed.

(** [closeOnce] is the other wait for a goroutine: for the [Close] that runs. *)
Lemma tidy_close_begin : tidy nothing close_begin (fun _ => nothing).
Proof.
  split; [apply turns_close_begin|]. intros [|e evs] w He HP; [by left|]. apply Forall_cons in He as [He Hes].
  unfold close_begin, atomic, await. unfold nothing in *. rewrite <- (He w) in HP.
  destruct (ev_ans e); try done. by repeat case_match; simplify_eq.
Qed.

Lemma free_closeAll : tidy anything closeAll (fun _ => anything).
Proof.
  assert (forall c, tidy anything (client_Close c) (fun _ => anything)) by (intros c; tidy_access).
  assert (tidy anything closeAll_range (fun _ => anything)) by tidy_access.
  assert (forall l, tidy anything (close_regions l) (fun _ => anything)) by (induction l; cbn [close_regions]; tidy_walk).
  assert (forall l, tidy anything (close_clients l) (fun _ => anything)) by (induction l as [|[] l IH]; cbn [close_clients]; tidy_walk).
  unfold closeAll. tidy_walk.
Qed.

Lemma tidy_Close : tidy nothing (Close RegionClientType None) (fun _ => anything).
Proof.
  eapply tidy_bind; [apply tidy_close_begin|]. intros []; [|by apply tidy_ret].
  eapply tidy_weaken with (P := anything); [|done|by intros a O H; exact H].
  apply tidy_then; [apply tidy_keep|]. intros _. apply tidy_then; [apply free_closeAll|]. intros marked.
  apply tidy_then; [tidy_access|]. intros _. apply tidy_keep.
Qed.

(** *** Establishing *)

Lemma free_clientDown c reg : tidy anything (clientDown c reg) (fun _ => anything).
Proof.
  assert (forall l, tidy anything (down_regions l reg) (fun _ => anything)) by (induction l; simpl; tidy_walk).
  unfold clientDown. tidy_walk.
Qed.

#[local] Hint Resolve free_clientDown : tidy.

Lemma free_establishRegion reg addr :
  tidy anything (establishRegion clientType adminRegionInfo metaRegionInfo unmarshal_RegionInfo reg addr) (fun _ => anything).
Proof.
  assert (forall reg, tidy anything (relookup clientType adminRegionInfo metaRegionInfo unmarshal_RegionInfo reg) (fun _ => anything))
    by (unfold relookup; tidy_walk).
  assert (forall reg addr, tidy anything (connect adminRegionInfo reg addr) (fun _ => anything))
    by (unfold connect, isRegionEstablished; tidy_walk).
  apply (tidy_fuel _ (fun n => establish_loop clientType adminRegionInfo metaRegionInfo unmarshal_RegionInfo n reg addr 0));
    intros n; [|apply refines_establish_loop|apply uses_establish_loop].
  revert reg addr. generalize 0. induction n as [|n IH]; intros b reg addr; cbn [establish_loop]; tidy_walk.
Qed.

Lemma free_reestablishRegion reg :
  tidy anything (reestablishRegion clientType adminRegionInfo metaRegionInfo unmarshal_RegionInfo reg) (fun _ => anything).
Proof.
  unfold reestablishRegion. apply tidy_then; [apply tidy_atomic; [by apply turns_atomic|done|done]|].
  intros []; [apply tidy_keep|apply free_establishRegion].
Qed.

End Progress.
