(* ===== verification/Pool.v ===== *)
(** * All goroutines of a client together

    The goroutines of a client take turns: one that waits gets an answer (from the
    scheduler, a server, a timer, zookeeper) and runs up to its next wait.  What it
    finds is what the others have made of the shared state; the goroutines that
    it starts wait for their first turn.  The functions of Rpc, Establish, Batch
    and Client, each of them safe if the others follow the discipline
    (Discipline.v), are safe together: no assumption about the others is left. *)

From S2P Require Import Prelude RegionName Pb RegionInfo RegionTree KeyRegionCache Hrpc RpcError Multi ClientRegionCache World Rpc Establish Fuel Discipline Safety Retries Batch BatchProps BatchSafety Client Closing Turns Progress.

#[global] Instance info_eq_dec : EqDecision info.
Proof. solve_decision. Defined.
#[global] Instance heap_eq_dec : EqDecision heap.
Proof. solve_decision. Defined.

Section Pool.
Context {T : RegionTree ptr} {HT : RegionTreeSpec ptr T} {HO : RangeOrder}.
Variable clientType : ClientType.
Variable adminRegionInfo metaRegionInfo : option ptr.
Variable unmarshal_RegionInfo : bytes -> option RegionInfo.

Abbreviation world_ok := (world_ok clientType adminRegionInfo metaRegionInfo).
Abbreviation good := (good clientType adminRegionInfo metaRegionInfo).
Abbreviation rely := (rely clientType adminRegionInfo metaRegionInfo).
Abbreviation event_ok := (event_ok clientType adminRegionInfo metaRegionInfo unmarshal_RegionInfo).
Abbreviation safe := (safe clientType adminRegionInfo metaRegionInfo unmarshal_RegionInfo).

(** ** The pool *)

(** What a goroutine runs, the state it started from, and the turns it had. *)
Record goroutine := mkGo { g_run : M unit; g_start : world; g_events : list event }.

Definition g_outcome (g : goroutine) : outcome halt (unit * list event * world) := g_run g (g_events g) (g_start g).

(** The state in which it returned or waits. *)
Definition g_left (g : goroutine) : option world :=
  match g_outcome g with Ok (_, _, w) | Err (Waiting w) => Some w | _ => None end.

Definition owned (g : goroutine) : gset ptr := match g_left g with Some w => w_owned w | None => ∅ end.
Definition unshared (g : goroutine) : gset ptr := match g_left g with Some w => w_private w | None => ∅ end.

Record pool := mkPool {
  p_heap : heap;
  p_regions : tree;
  p_clients : clients;
  p_made : bool;
  p_done : bool;
  p_once : once;
  p_pending : list (ptr * string);        (* goroutines that have not had a turn *)
  p_gos : gmap nat goroutine;
}.

Definition total (f : goroutine -> gset ptr) (gos : gmap nat goroutine) : gset ptr := ⋃ (f <$> (map_to_list gos).*2).

(** What goroutine [i], which owns [O] and has not shared [Pr], finds when it gets a turn. *)
Definition view (p : pool) (i : nat) (pend : list (ptr * string)) (O Pr : gset ptr) : world :=
  mkWorld _ (p_heap p) (p_regions p) (p_clients p) (p_made p) (p_done p) (p_once p) [] O Pr
    (mkFrame (total owned (delete i (p_gos p)) ∪ list_to_set pend.*1) (total unshared (delete i (p_gos p)))
       (p_heap p) (p_done p) (p_once p) (cc_closed (p_clients p)) [] Pr).

(** The turn of goroutine [i] has left it as [g]. *)
Definition settle (p : pool) (i : nat) (pend : list (ptr * string)) (g : goroutine) : pool :=
  match g_left g with
  | Some w =>
      mkPool (w_heap w) (w_regions w) (w_clients w) (w_made w) (w_done w) (w_once w) (pend ++ w_spawned w) (<[i := g]> (p_gos p))
  | None => mkPool (p_heap p) (p_regions p) (p_clients p) (p_made p) (p_done p) (p_once p) pend (<[i := g]> (p_gos p))
  end.

(** [go c.reestablishRegion(reg)] and [go c.establishRegion(reg, addr)]. *)
Definition establisher (reg : ptr) (addr : string) : M unit :=
  _ ← (if bool_decide (addr = ""%string)
       then reestablishRegion clientType adminRegionInfo metaRegionInfo unmarshal_RegionInfo reg
       else establishRegion clientType adminRegionInfo metaRegionInfo unmarshal_RegionInfo reg addr);
  mret tt.

(** What the user may call at any time. *)
Inductive user_call : M unit -> Prop :=
| call_SendRPC table key :
    (clientType = RegionClientType -> table <> metaTableName -> table_fits table key) ->
    user_call (_ ← SendRPC clientType adminRegionInfo metaRegionInfo unmarshal_RegionInfo table key; mret tt)
| call_SendBatch call_of batch :
    Forall (fits clientType call_of) batch ->
    user_call (_ ← SendBatch clientType adminRegionInfo metaRegionInfo unmarshal_RegionInfo call_of batch; mret tt)
| call_Close :
    clientType = RegionClientType -> adminRegionInfo = None ->
    user_call (_ ← Close clientType adminRegionInfo; mret tt).

(** Who takes a step: a goroutine that has not had a turn, one that has, or the user. *)
Inductive actor := Pending (k : nat) | Running (i : nat) | User.

Inductive pool_step (p : pool) : actor -> pool -> Prop :=
| step_turn i g left a :
    p_gos p !! i = Some g -> g_outcome g = Err (Waiting left) ->
    let now := view p i (p_pending p) (w_owned left) (w_private left) in
    let g' := mkGo (g_run g) (g_start g) (g_events g ++ [mkEvent (fun _ => now) a]) in
    answer_ok unmarshal_RegionInfo a now -> g_outcome g' <> Err Blocked ->
    pool_step p (Running i) (settle p i (p_pending p) g')
| step_begin i k reg addr :
    p_gos p !! i = None -> p_pending p !! k = Some (reg, addr) ->
    let rest := delete k (p_pending p) in
    pool_step p (Pending k) (settle p i rest (mkGo (establisher reg addr) (view p i rest {[reg]} ∅) []))
| step_call i m :
    p_gos p !! i = None -> user_call m ->
    pool_step p User (settle p i (p_pending p) (mkGo m (view p i (p_pending p) ∅ ∅) [])).

Definition reachable : relation pool := rtc (fun p p' => exists who, pool_step p who p').

(** ** What holds of a pool *)

(** What a goroutine relies on, from the state it left to the shared state. *)
Record follows (left : world) (p : pool) (FP : gset ptr) : Prop := {
  fo_ext : heap_ext (w_heap left) (p_heap p);
  fo_dead : dead_kept (w_heap left) (p_heap p);
  fo_done : w_done left = true -> p_done p = true;
  fo_once : w_once left = OnceDone -> p_once p = OnceDone;
  fo_closed : cc_closed (w_clients left) ⊆ cc_closed (p_clients p);
  fo_client q i i' : q ∈ w_owned left -> h_infos (w_heap left) !! q = Some i -> h_infos (p_heap p) !! q = Some i' ->
    r_client i = None -> r_client i' = None;
  fo_private q : q ∈ w_private left -> h_infos (p_heap p) !! q = h_infos (w_heap left) !! q;
  fo_known q : alloc (w_heap left) q -> q ∉ f_private (w_frame left) -> q ∉ FP;
}.

(** A program that is safe from [P] on, whatever the others do, and is answerable
    for no region when it returns. *)
Record disciplined (m : M unit) (P : world -> Prop) : Prop := {
  di_turns : turns m;
  di_fuel evs w : m evs w <> Err NoFuel;
  di_safe : safe P m (fun _ w => w_done w = true \/ w_owned w = ∅);
  di_tidy : exists P', (forall w, P w -> P' (w_owned w)) /\ tidy unmarshal_RegionInfo P' m (fun _ _ => True);
}.

(** A goroutine that runs such a program and has had turns as the discipline
    allows them; the events of the schedule do so where they take place. *)
Record go_ok (g : goroutine) : Prop := {
  go_disciplined : exists P, disciplined (g_run g) P /\ P (g_start g);
  go_start : world_ok (g_start g);
  go_events : exists evs, Forall event_ok evs /\
    forall r, g_run g (g_events g ++ r) (g_start g) = g_run g (evs ++ r) (g_start g);
}.

Definition audience (p : pool) : world :=
  mkWorld _ (p_heap p) (p_regions p) (p_clients p) (p_made p) (p_done p) (p_once p) [] ∅ ∅
    (mkFrame (total owned (p_gos p) ∪ list_to_set (p_pending p).*1) (total unshared (p_gos p)) (p_heap p) (p_done p)
       (p_once p) (cc_closed (p_clients p)) [] ∅).

Record pool_ok (p : pool) : Prop := {
  po_audience : world_ok (audience p);
  po_owned i j g g' : i <> j -> p_gos p !! i = Some g -> p_gos p !! j = Some g' -> owned g ## owned g';
  po_unshared i j g g' : i <> j -> p_gos p !! i = Some g -> p_gos p !! j = Some g' -> unshared g ## unshared g';
  po_cross i j g g' : i <> j -> p_gos p !! i = Some g -> p_gos p !! j = Some g' -> owned g ## unshared g';
  po_once : NoDup (p_pending p).*1;
  po_pending q : q ∈ (p_pending p).*1 -> (q ∉ total owned (p_gos p)) /\ good (audience p) q;
  po_gos i g : p_gos p !! i = Some g -> go_ok g /\ exists left, g_left g = Some left /\
    follows left p (total unshared (delete i (p_gos p)));
}.

Lemma elem_of_total f gos x : x ∈ total f gos <-> exists i g, gos !! i = Some g /\ x ∈ f g.
Proof.
  unfold total. rewrite elem_of_union_list. split.
  - intros (X & (g & -> & ([i g'] & -> & Hin%elem_of_map_to_list)%list_elem_of_fmap)%list_elem_of_fmap & Hx). by exists i, g'.
  - intros (i & g & Hi & Hx). exists (f g). split; [|done]. apply list_elem_of_fmap. exists g. split; [done|].
    apply list_elem_of_fmap. exists (i, g). split; [done|]. by apply elem_of_map_to_list.
Qed.

Lemma elem_of_others f gos i x :
  x ∈ total f (delete i gos) <-> exists j g, j <> i /\ gos !! j = Some g /\ x ∈ f g.
Proof.
  rewrite elem_of_total. split.
  - intros (j & g & [? ?]%lookup_delete_Some & Hx). by exists j, g.
  - intros (j & g & ? & ? & Hx). exists j, g. split; [|done]. by apply lookup_delete_Some.
Qed.

Lemma elem_of_insert_total f gos i g x : x ∈ total f (<[i := g]> gos) <-> x ∈ f g \/ x ∈ total f (delete i gos).
Proof.
  rewrite elem_of_total, elem_of_others. split.
  - intros (j & g' & [[<- <-]|[? ?]]%lookup_insert_Some & Hx); [by left|]. right. by exists j, g'.
  - intros [Hx|(j & g' & ? & ? & Hx)]; [exists i, g|exists j, g']; (split; [|done]); apply lookup_insert_Some; auto.
Qed.

Lemma elem_of_split_total f gos i g x :
  gos !! i = Some g -> x ∈ total f gos <-> x ∈ f g \/ x ∈ total f (delete i gos).
Proof. intros Hi. rewrite <- elem_of_insert_total. by rewrite insert_id. Qed.

Lemma total_delete f gos i x : x ∈ total f (delete i gos) -> x ∈ total f gos.
Proof. rewrite elem_of_others, elem_of_total. intros (j & g & _ & ? & ?). by exists j, g. Qed.

(** The same state seen by another. *)
Lemma world_ok_swap w (O FO Pr FP : gset ptr) :
  world_ok w ->
  (forall q, q ∈ O \/ q ∈ FO <-> q ∈ w_owned w \/ q ∈ f_owned (w_frame w) \/ q ∈ spawned_now w) ->
  (forall q, q ∈ O -> q ∉ FO) ->
  (forall q, q ∈ Pr \/ q ∈ FP <-> q ∈ w_private w \/ q ∈ f_private (w_frame w)) ->
  (forall q, q ∈ Pr -> q ∉ FP) -> (forall q, q ∈ O -> q ∉ FP) ->
  world_ok (mkWorld _ (w_heap w) (w_regions w) (w_clients w) (w_made w) (w_done w) (w_once w) [] O Pr
    (mkFrame FO FP (w_heap w) (w_done w) (w_once w) (cc_closed (w_clients w)) [] Pr)).
Proof.
  intros Hw HO1 HO2 HP1 HP2 HP3. set (w' := mkWorld _ _ _ _ _ _ _ _ _ _ _).
  assert (forall q, good w q -> good w' q) as Hg.
  { intros q [Ha Hp Hk He]. pose proof (HP1 q). split; simpl; [done|tauto|tauto|done]. }
  assert (forall q, q ∈ O \/ q ∈ FO -> unav (w_heap w) q) as Hun.
  { intros q [?|[?|?]]%HO1; [by apply (wo_owned w Hw)|by apply (wo_others w Hw)|by apply (wo_spawned w Hw)]. }
  assert (forall q, q ∈ Pr \/ q ∈ FP -> alloc (w_heap w) q) as Hal.
  { intros q [?|?]%HP1; [by apply (wo_private w Hw)|by apply (wo_foreign w Hw)]. }
  split; try (by apply Hw); simpl; try done.
  - intros kv Hkv. by apply Hg, (wo_items_good w Hw).
  - intros q Hq. by apply Hg, (wo_fixed_good w Hw).
  - intros c rs r Hc Hr. by eapply Hg, (wo_clients w Hw).
  - auto.
  - intros q Hq. pose proof (wo_cover w Hw q Hq) as Hc. unfold covered in *. simpl. pose proof (HO1 q). pose proof (HP1 q). tauto.
  - intros q Hq. split_and!; [auto|by intros ?%HO2|by intros ?%elem_of_nil].
  - intros q Hq. split; [auto|done].
  - intros q Hq. split_and!; auto.
  - apply dead_kept_refl.
  - intros q i i' _ Hi Hi'. by simplify_eq.
  - apply NoDup_nil_2.
  - by intros q ?%elem_of_nil.
Qed.

Lemma view_ok p i pend (O Pr : gset ptr) :
  pool_ok p ->
  (forall q, q ∈ O \/ q ∈ total owned (delete i (p_gos p)) \/ q ∈ pend.*1 <->
     q ∈ total owned (p_gos p) \/ q ∈ (p_pending p).*1) ->
  (forall q, q ∈ O -> (q ∉ total owned (delete i (p_gos p))) /\ (q ∉ pend.*1) /\ (q ∉ total unshared (delete i (p_gos p)))) ->
  (forall q, q ∈ Pr \/ q ∈ total unshared (delete i (p_gos p)) <-> q ∈ total unshared (p_gos p)) ->
  (forall q, q ∈ Pr -> q ∉ total unshared (delete i (p_gos p))) ->
  world_ok (view p i pend O Pr).
Proof.
  intros Hp HO1 HO2 HP1 HP2. apply (world_ok_swap (audience p)); simpl; [apply Hp|..].
  - intros q. specialize (HO1 q). rewrite !elem_of_union, !elem_of_list_to_set. set_solver.
  - intros q (? & ? & ?)%HO2. rewrite elem_of_union, elem_of_list_to_set. tauto.
  - intros q. specialize (HP1 q). set_solver.
  - done.
  - by intros q (? & ? & ?)%HO2.
Qed.

(** The view of a goroutine of the pool. *)
Lemma view_go_ok p i g : pool_ok p -> p_gos p !! i = Some g -> world_ok (view p i (p_pending p) (owned g) (unshared g)).
Proof.
  intros Hp Hi. apply view_ok; [done|..].
  - intros q. rewrite (elem_of_split_total owned _ _ _ q Hi). tauto.
  - intros q Hq. rewrite !elem_of_others. split_and!.
    + intros (j & g' & Hne & Hj & Hq'). by eapply (po_owned p Hp i j g g').
    + intros [Hno _]%(po_pending p Hp). apply Hno. apply (elem_of_split_total _ _ _ _ _ Hi). by left.
    + intros (j & g' & Hne & Hj & Hq'). by eapply (po_cross p Hp i j g g').
  - intros q. by rewrite (elem_of_split_total unshared _ _ _ q Hi).
  - intros q Hq. rewrite elem_of_others. intros (j & g' & Hne & Hj & Hq'). by eapply (po_unshared p Hp i j g g').
Qed.

(** *** After the turn of a goroutine *)

Section Settle.
Variables (p : pool) (i : nat) (pend : list (ptr * string)) (O Pr : gset ptr) (g : goroutine) (w : world).
Hypothesis Hp : pool_ok p.
Hypothesis Hg : go_ok g.
Hypothesis Hl : g_left g = Some w.
Hypothesis Hw : world_ok w.
Hypothesis Hf : w_frame w = w_frame (view p i pend O Pr).
Hypothesis Hnd : NoDup pend.*1.
Hypothesis Hpend : forall q, q ∈ pend.*1 -> (q ∉ total owned (delete i (p_gos p))) /\ good (audience p) q.
Hypothesis HPr : forall q, q ∈ Pr -> exists g0, p_gos p !! i = Some g0 /\ q ∈ unshared g0.

Abbreviation after :=
  (mkPool (w_heap w) (w_regions w) (w_clients w) (w_made w) (w_done w) (w_once w) (pend ++ w_spawned w) (<[i := g]> (p_gos p))).

Lemma settle_owned : owned g = w_owned w.
Proof. unfold owned. by rewrite Hl. Qed.
Lemma settle_unshared : unshared g = w_private w.
Proof. unfold unshared. by rewrite Hl. Qed.
Lemma settle_spawned : spawned_now w = (w_spawned w).*1.
Proof. unfold spawned_now. by rewrite Hf. Qed.

Lemma owned_alloc q : q ∈ total owned (p_gos p) -> alloc (p_heap p) q.
Proof. intros Hq. apply unav_alloc, (wo_others _ (po_audience p Hp)). simpl. apply elem_of_union. by left. Qed.

Lemma other_owned j g' q :
  j <> i -> p_gos p !! j = Some g' -> q ∈ owned g' -> unav (w_heap w) q /\ (q ∉ w_owned w) /\ (q ∉ (w_spawned w).*1).
Proof.
  intros Hne Hj Hq. rewrite <- settle_spawned. apply (wo_others w Hw). rewrite Hf. simpl. apply elem_of_union. left.
  apply elem_of_others. by exists j, g'.
Qed.

Lemma other_unshared j g' q : j <> i -> p_gos p !! j = Some g' -> q ∈ unshared g' -> q ∈ f_private (w_frame w).
Proof. intros Hne Hj Hq. rewrite Hf. simpl. apply elem_of_others. by exists j, g'. Qed.

(** What is not shared after the turn was not before, or did not exist. *)
Lemma settle_new q : q ∈ w_private w -> alloc (p_heap p) q -> exists g0, p_gos p !! i = Some g0 /\ q ∈ unshared g0.
Proof.
  intros Hq [j Hj]. destruct (wo_private w Hw q Hq) as (_ & _ & H). rewrite Hf in H. simpl in H.
  destruct H; [by apply HPr|congruence].
Qed.

Lemma settle_known q : alloc (p_heap p) q -> q ∉ total unshared (p_gos p) -> q ∉ total unshared (<[i := g]> (p_gos p)).
Proof.
  intros Hq Hno [Hx|Hx]%elem_of_insert_total; [|by apply Hno, (total_delete _ _ i)].
  rewrite settle_unshared in Hx. destruct (settle_new q Hx Hq) as (g0 & ? & ?). apply Hno, elem_of_total. by exists i, g0.
Qed.

Lemma settle_audience : world_ok (audience after).
Proof.
  apply (world_ok_swap w); try done; try (by intros q ?%elem_of_empty); intros q; rewrite elem_of_empty.
  - rewrite Hf, settle_spawned, elem_of_union, elem_of_list_to_set. cbn [p_gos p_pending].
    rewrite elem_of_insert_total, settle_owned, fmap_app, elem_of_app. simpl. rewrite elem_of_union, elem_of_list_to_set. tauto.
  - cbn [p_gos]. rewrite Hf, elem_of_insert_total, settle_unshared. simpl. tauto.
Qed.

(** Two goroutines, one of them the one that had the turn. *)
Lemma settle_pairs (R : goroutine -> goroutine -> Prop) :
  (forall j k gj gk, j <> k -> p_gos p !! j = Some gj -> p_gos p !! k = Some gk -> R gj gk) ->
  (forall j gj, j <> i -> p_gos p !! j = Some gj -> R g gj /\ R gj g) ->
  forall j k gj gk, j <> k -> p_gos after !! j = Some gj -> p_gos after !! k = Some gk -> R gj gk.
Proof.
  intros Hold Hnew j k gj gk Hne. simpl.
  intros [[<- <-]|[Hji Hj]]%lookup_insert_Some [[<- <-]|[Hki Hk]]%lookup_insert_Some; [done|..].
  - by apply (Hnew k gk).
  - by apply (Hnew j gj).
  - by apply (Hold j k).
Qed.

Lemma settle_cross j g' : j <> i -> p_gos p !! j = Some g' -> owned g ## unshared g' /\ owned g' ## unshared g.
Proof.
  intros Hne Hj. rewrite settle_owned, settle_unshared. split.
  - intros q Hq Hq'. destruct (wo_owned w Hw q Hq) as [_ Hno]. by apply Hno, (other_unshared j g').
  - intros q Hq Hq'. destruct (settle_new q Hq') as (g0 & Hg0 & Hq0).
    + apply owned_alloc, elem_of_total. by exists j, g'.
    + by eapply (po_cross p Hp j i g' g0).
Qed.

Lemma settle_pending q : q ∈ (pend ++ w_spawned w).*1 -> (q ∉ total owned (p_gos after)) /\ good (audience after) q.
Proof.
  cbn [p_gos]. rewrite elem_of_insert_total, settle_owned, fmap_app. intros [Hq|Hq]%elem_of_app.
  - destruct (Hpend q Hq) as (Hno & [Ha _ Hk He]). split.
    + intros [Hx|?]; [|done]. assert (q ∈ f_owned (w_frame w)) as Hfo.
      { rewrite Hf. simpl. apply elem_of_union. right. by apply elem_of_list_to_set. }
      by destruct (wo_others w Hw q Hfo) as (_ & ? & _).
    + pose proof (wo_ext w Hw) as He'. rewrite Hf in He'. simpl in *.
      split; simpl; [by eapply alloc_ext|set_solver|by apply settle_known|by eapply establishable_ext].
  - rewrite <- settle_spawned in Hq. destruct (wo_spawned w Hw q Hq) as (_ & Hno & [Ha Hs Hk He]). rewrite Hf in Hk. simpl in Hk. split.
    + intros [?|(j & g' & Hne & Hj & Hx)%elem_of_others]; [done|]. rewrite settle_spawned in Hq.
      by destruct (other_owned j g' q Hne Hj Hx) as (_ & _ & ?).
    + split; simpl; [done|set_solver| |done]. rewrite elem_of_insert_total, settle_unshared. tauto.
Qed.

Lemma settle_follows j g' :
  p_gos after !! j = Some g' -> go_ok g' /\ exists left, g_left g' = Some left /\
    follows left after (total unshared (delete j (p_gos after))).
Proof.
  simpl. intros [[<- <-]|[Hne Hj]]%lookup_insert_Some.
  - split; [done|]. exists w. split; [done|].
    split; try done; [apply dead_kept_refl|intros q k k' _ Hk Hk'; simpl in Hk'; by simplify_eq|].
    intros q _ Hq. rewrite Hf in Hq. by rewrite delete_insert_eq.
  - destruct (po_gos p Hp j g' Hj) as (Hgo & left & Hleft & [F1 F2 F3 F6 F7 F8 F4 F5]). split; [done|]. exists left. split; [done|].
    pose proof (wo_ext w Hw) as Wext. pose proof (wo_dead w Hw) as Wdead. pose proof (wo_done w Hw) as Wdone.
    pose proof (wo_once_done w Hw) as Wonce. pose proof (wo_closed w Hw) as Wclosed. pose proof (wo_client w Hw) as Wclient.
    rewrite Hf in Wext, Wdead, Wdone, Wonce, Wclosed, Wclient. simpl in *. split.
    + by etrans.
    + by eapply dead_kept_trans.
    + auto.
    + auto.
    + by etrans.
    + intros q k k' Hq Hk Hk' Hc. destruct (heap_ext_lookup _ _ _ _ F1 Hk) as (k1 & Hk1 & _). apply (Wclient q k1); try done.
      * apply elem_of_union. left. apply elem_of_others. exists j, g'. split_and!; [done..|]. unfold owned. by rewrite Hleft.
      * by apply (F8 q k).
    + intros q Hq. rewrite <- F4 by done. assert (q ∈ f_private (w_frame w)) as Hfp.
      { eapply (other_unshared j g'); [done..|]. unfold unshared. by rewrite Hleft. }
      destruct (wo_foreign w Hw q Hfp) as [_ He]. by rewrite Hf in He.
    + intros q Hq Hno (k & gk & Hkj & Hk & Hx)%elem_of_others.
      apply lookup_insert_Some in Hk as [[<- <-]|[Hik Hk]]; apply (F5 q Hq Hno), elem_of_others.
      * rewrite settle_unshared in Hx. destruct (settle_new q Hx) as (g0 & ? & ?); [by eapply alloc_ext|]. by exists i, g0.
      * by exists k, gk.
Qed.

Lemma settle_ok : pool_ok (settle p i pend g).
Proof.
  unfold settle. rewrite Hl. split; try apply settle_audience; try apply settle_pending; try apply settle_follows.
  - apply (settle_pairs (fun g g' => owned g ## owned g')); [apply (po_owned p Hp)|]. intros j g' Hne Hj.
    enough (owned g ## owned g') by done. rewrite settle_owned. intros q Hq Hq'. by destruct (other_owned j g' q Hne Hj Hq') as (_ & ? & _).
  - apply (settle_pairs (fun g g' => unshared g ## unshared g')); [apply (po_unshared p Hp)|]. intros j g' Hne Hj.
    enough (unshared g ## unshared g') by done. rewrite settle_unshared. intros q Hq Hq'.
    destruct (wo_private w Hw q Hq) as (_ & Hno & _). by apply Hno, (other_unshared j g').
  - apply (settle_pairs (fun g g' => owned g ## unshared g')); [apply (po_cross p Hp)|]. apply settle_cross.
  - simpl. rewrite fmap_app. apply NoDup_app. rewrite <- settle_spawned. split_and!; [done| |apply Hw].
    intros q Hq. apply (wo_others w Hw). rewrite Hf. simpl. apply elem_of_union. right. by apply elem_of_list_to_set.
Qed.

End Settle.

(** *** The programs *)

Lemma uses_fuel {A : Type} (m : M A) c : (forall n, uses n m c) -> forall evs w, m evs w <> Err NoFuel.
Proof. intros Hm evs w H. specialize (Hm (S (length evs)) evs w ltac:(lia)). by rewrite H in Hm. Qed.

(** A program whose result is not looked at. *)
Lemma disciplined_ignore {A : Type} (m : M A) c P Q P' Q' :
  (forall n, uses n m c) -> safe P m Q -> (forall a w, Q a w -> w_done w = true \/ w_owned w = ∅) ->
  tidy unmarshal_RegionInfo P' m Q' -> (forall w, P w -> P' (w_owned w)) -> disciplined (_ ← m; mret tt) P.
Proof.
  intros Hu Hs HQ Ht HP. split.
  - apply turns_bind; [apply Ht|]. intros _. apply turns_ret.
  - apply (uses_fuel _ (fun _ => 0%nat)). intros n. eapply uses_bind0; [apply Hu|]. intros _. by apply uses_ret.
  - eapply safe_bind; [exact Hs|]. intros a. apply safe_ret. intros w _. apply HQ.
  - exists P'. split; [done|]. eapply tidy_bind; [exact Ht|]. intros a. by apply tidy_ret.
Qed.

Lemma user_call_disciplined m : user_call m -> disciplined m (fun w => w_owned w = ∅).
Proof.
  assert (forall w, w_owned w = ∅ -> holds clientType adminRegionInfo metaRegionInfo ∅ [] [] w) as Hh by (by split).
  intros [table key Hfit|call_of batch Hfit|Hct Hadm].
  - eapply (disciplined_ignore _ (fun _ => 0%nat)) with (Q := fun _ => holds clientType adminRegionInfo metaRegionInfo ∅ [] []).
    + intros n evs w _. by apply uses_send_loop; [|lia].
    + intros evs w Hevs Hw Ho. pose proof (safe_send_loop clientType adminRegionInfo metaRegionInfo unmarshal_RegionInfo
        (S (length evs)) ∅ [] [] table key backoffStart Hfit evs w Hevs Hw (Hh w Ho)) as Hs. unfold SendRPC.
      destruct (send_loop _ _ _ _ _ _ _ _ evs w) as [[[r evs'] w']|[]|]; try done.
      destruct Hs as (? & ? & ? & ? & _). done.
    + intros a w []. by right.
    + apply tidy_SendRPC.
    + done.
  - eapply (disciplined_ignore _ (fun _ => 0%nat)).
    + intros n. apply uses_SendBatch.
    + eapply safe_pre; [by apply (safe_SendBatch clientType adminRegionInfo metaRegionInfo unmarshal_RegionInfo call_of ∅ [])|].
      intros w _. apply Hh.
    + intros a w ->. by right.
    + apply tidy_SendBatch.
    + done.
  - rewrite Hct, Hadm. eapply (disciplined_ignore _ (fun _ => 0%nat)) with (Q := fun _ w => w_done w = true /\ w_once w = OnceDone).
    + intros n. apply uses_Close.
    + rewrite Hct, Hadm. eapply safe_pre; [apply safe_Close|done].
    + intros a w [? _]. by left.
    + apply tidy_Close.
    + done.
Qed.

Lemma safe_reestablishRegion O R reg :
  mine clientType adminRegionInfo metaRegionInfo reg R -> reg ∉ O ->
  safe (holds clientType adminRegionInfo metaRegionInfo ({[reg]} ∪ O) [reg] R)
    (reestablishRegion clientType adminRegionInfo metaRegionInfo unmarshal_RegionInfo reg)
    (fun closed w => if closed then w_done w = true else w_owned w = O).
Proof.
  intros Hm Hno. eapply safe_bind with (R := fun closed w =>
    holds clientType adminRegionInfo metaRegionInfo ({[reg]} ∪ O) [reg] R w /\ (closed = true -> w_done w = true)).
  - apply safe_atomic; [apply holds_stable|]. intros w Hw H. split_and!; [by apply own_step_refl|done..].
  - intros []; cbv beta; [apply safe_ret; intros w _ [_ Hd]; by apply Hd|].
    eapply safe_pre; [intros evs w; by apply (safe_establish_loop clientType adminRegionInfo metaRegionInfo unmarshal_RegionInfo _ O R)|].
    by intros w _ [? _].
Qed.

Lemma establisher_disciplined reg addr R :
  mine clientType adminRegionInfo metaRegionInfo reg R ->
  disciplined (establisher reg addr) (holds clientType adminRegionInfo metaRegionInfo {[reg]} [reg] R).
Proof.
  intros Hm. unfold establisher.
  eapply (disciplined_ignore _ (fun _ => 0%nat)) with (Q := fun (closed : bool) w => if closed then w_done w = true else w_owned w = ∅).
  - intros n. case_bool_decide.
    + unfold reestablishRegion. eapply uses_bind0 with (c := fun _ => 0%nat); [apply uses_atomic; [done|intros; cbv beta; lia]|].
      intros []; [by apply uses_ret|]. intros evs w _. by apply uses_establish_loop; lia.
    + intros evs w _. by apply uses_establish_loop; lia.
  - apply safe_pre with (P := holds clientType adminRegionInfo metaRegionInfo ({[reg]} ∪ ∅) [reg] R);
      [|intros w _ H; by rewrite union_empty_r_L].
    case_bool_decide; [by apply safe_reestablishRegion; [|set_solver]|].
    intros evs w. apply safe_establish_loop; [done|set_solver].
  - intros [] w H; [by left|by right].
  - case_bool_decide; [apply free_reestablishRegion|apply free_establishRegion].
  - done.
Qed.

(** *** Turns *)

(** The turn in which the goroutine finds [now], as an event that keeps to the
    discipline wherever it takes place. *)
Definition facts (v : world) : heap * bool * once * gset cptr * gset ptr * gset ptr * gset ptr :=
  (w_heap v, w_done v, w_once v, cc_closed (w_clients v), w_owned v, w_private v, f_private (w_frame v)).

Definition resume (left now : world) (a : answer) : event :=
  mkEvent (fun v => if decide (facts v = facts left) then now else set_closing true OnceDone v) a.

Lemma resume_ok left now a :
  rely left now -> world_ok now -> answer_ok unmarshal_RegionInfo a now -> event_ok (resume left now a).
Proof.
  intros [_ R2 R3 R4 R5 R6 R9 R10 R11 R7 R8] Hnow Ha v. simpl. destruct (decide (facts v = facts left)) as [Heq|_].
  - split; [|done]. unfold facts in Heq. injection Heq as E1 E2 E6 E7 E3 E4 E5. split; rewrite ?E1, ?E2, ?E3, ?E4, ?E5, ?E6, ?E7; done.
  - split; [|by destruct a as [| | |[| |[]]| | | |]]. split; try done; [|apply dead_kept_refl|].
    + intros Hv. eapply own_step_ok; [exact Hv|by apply set_closing_step].
    + intros q i i' _ Hi Hi'. simpl in Hi'. by simplify_eq.
Qed.

Lemma owned_left g left : g_left g = Some left -> owned g = w_owned left.
Proof. unfold owned. by intros ->. Qed.
Lemma unshared_left g left : g_left g = Some left -> unshared g = w_private left.
Proof. unfold unshared. by intros ->. Qed.

Lemma follows_rely p i g left :
  pool_ok p -> p_gos p !! i = Some g -> g_left g = Some left ->
  let now := view p i (p_pending p) (w_owned left) (w_private left) in rely left now /\ world_ok now.
Proof.
  intros Hp Hi Hl now. pose proof (view_go_ok p i g Hp Hi) as Hv. rewrite (owned_left _ _ Hl), (unshared_left _ _ Hl) in Hv.
  split; [|done]. destruct (po_gos p Hp i g Hi) as (_ & left' & Hl' & []). simplify_eq. split; done.
Qed.

(** A run that starts or goes on, in a state [w0] that fits, leaves a good state. *)
Lemma outcome_left g evs :
  go_ok g -> Forall event_ok evs -> (forall r, g_run g (g_events g ++ r) (g_start g) = g_run g (evs ++ r) (g_start g)) ->
  g_outcome g <> Err Blocked -> exists w, g_left g = Some w /\ world_ok w.
Proof.
  intros [(P & Hd & HP) Hs _] Hevs Heq Hb. specialize (Heq []). rewrite !app_nil_r in Heq.
  pose proof (di_safe _ _ Hd evs (g_start g) Hevs Hs HP) as Hsafe. rewrite <- Heq in Hsafe.
  pose proof (di_fuel _ _ Hd (g_events g) (g_start g)) as Hfuel. unfold g_left, g_outcome in *.
  destruct (g_run g (g_events g) (g_start g)) as [[[a evs'] w]|[| |w]|]; try done; exists w; (split; [done|]); [apply Hsafe|done].
Qed.

Lemma turn_ok p i g left a :
  pool_ok p -> p_gos p !! i = Some g -> g_outcome g = Err (Waiting left) ->
  let now := view p i (p_pending p) (w_owned left) (w_private left) in
  let g' := mkGo (g_run g) (g_start g) (g_events g ++ [mkEvent (fun _ => now) a]) in
  answer_ok unmarshal_RegionInfo a now -> g_outcome g' <> Err Blocked ->
  go_ok g' /\ exists w, g_left g' = Some w /\ world_ok w /\ w_frame w = w_frame now.
Proof.
  intros Hp Hi Ho now g' Ha Hb.
  assert (g_left g = Some left) as Hl by (unfold g_left; by rewrite Ho).
  destruct (follows_rely p i g left Hp Hi Hl) as [Hr Hnow]. destruct (po_gos p Hp i g Hi) as ([(P & Hd & HP) Hs (evs & Hevs & Heq)] & _).
  pose proof (di_turns _ _ Hd evs (g_start g)) as Ht. pose proof (Heq []) as Heq0. rewrite !app_nil_r in Heq0.
  unfold g_outcome in Ho. rewrite Heq0 in Ho. rewrite Ho in Ht. destruct Ht as (_ & Hsame & Hnext).
  assert (ev_env (resume left now a) left = now) as Henv by (simpl; by rewrite decide_True).
  assert (forall r, g_run g' (g_events g' ++ r) (g_start g') = g_run g' ((evs ++ [resume left now a]) ++ r) (g_start g')) as Heq'.
  { intros r. simpl. rewrite <- !app_assoc. simpl. rewrite Heq. apply Hsame. split; [done|by rewrite Henv]. }
  assert (Forall event_ok (evs ++ [resume left now a])) as Hevs'.
  { apply Forall_app. split; [done|]. constructor; [|constructor]. by apply resume_ok. }
  assert (go_ok g') as Hg' by (split; [by exists P|done|by eexists]).
  split; [done|]. destruct (outcome_left g' _ Hg' Hevs' Heq' Hb) as (w & Hw & Hwok). exists w. split_and!; [done..|].
  specialize (Hnext (resume left now a)). rewrite Henv in Hnext. specialize (Heq' []). rewrite !app_nil_r in Heq'. simpl in Heq'.
  unfold g_left, g_outcome in Hw. simpl in Hw. rewrite Heq' in Hw.
  destruct (g_run g (evs ++ [resume left now a]) (g_start g)) as [[[x evs'] w']|[]|]; simplify_eq; [apply Hnext|done].
Qed.

Lemma start_ok m P w0 :
  disciplined m P -> P w0 -> world_ok w0 ->
  go_ok (mkGo m w0 []) /\ exists w, g_left (mkGo m w0 []) = Some w /\ world_ok w /\ w_frame w = w_frame w0.
Proof.
  intros Hd HP Hw0. assert (go_ok (mkGo m w0 [])) as Hg by (split; [by exists P|done|by exists []]).
  split; [done|]. pose proof (di_turns _ _ Hd [] w0) as Ht. destruct (outcome_left (mkGo m w0 []) []) as (w & Hw & Hwok); try done.
  { unfold g_outcome. simpl. intros H. by rewrite H in Ht. }
  exists w. split_and!; [done..|]. unfold g_left, g_outcome in Hw. simpl in Hw.
  destruct (m [] w0) as [[[x evs'] w']|[]|]; simplify_eq; by apply Ht.
Qed.

Lemma pending_apart p i (pend : list (ptr * string)) :
  pool_ok p -> pend.*1 `sublist_of` (p_pending p).*1 -> NoDup pend.*1 /\
  forall q, q ∈ pend.*1 -> (q ∉ total owned (delete i (p_gos p))) /\ good (audience p) q.
Proof.
  intros Hp Hs. split; [eapply sublist_NoDup; [apply (po_once p Hp)|exact Hs]|]. intros q Hq.
  destruct (po_pending p Hp q) as [Hno Hg]; [by eapply elem_of_submseteq, sublist_submseteq|]. split; [|done]. by intros ?%total_delete.
Qed.

Lemma begin_view_ok p i k reg addr :
  pool_ok p -> p_gos p !! i = None -> p_pending p !! k = Some (reg, addr) ->
  world_ok (view p i (delete k (p_pending p)) {[reg]} ∅).
Proof.
  intros Hp Hi Hk. pose proof (delete_Permutation _ _ _ Hk) as Hperm.
  pose proof (fmap_Permutation fst _ _ Hperm) as Hperm1. csimpl in Hperm1.
  pose proof (po_once p Hp) as Honce. rewrite Hperm1 in Honce. apply NoDup_cons in Honce as [Hnot _].
  destruct (po_pending p Hp reg) as [Hno [_ _ Hun _]]; [rewrite Hperm1; by left|].
  apply view_ok; [done|..]; rewrite ?(delete_id _ _ Hi).
  - intros q. rewrite Hperm1, elem_of_singleton, elem_of_cons. tauto.
  - intros q ->%elem_of_singleton. by split_and!.
  - intros q. rewrite elem_of_empty. tauto.
  - by intros q ?%elem_of_empty.
Qed.

Lemma step_ok p who p' : pool_ok p -> pool_step p who p' -> pool_ok p'.
Proof.
  intros Hp [i g left a Hi Ho now g' Ha Hb|i k reg addr Hi Hk rest|i m Hi Hm].
  - destruct (turn_ok p i g left a Hp Hi Ho Ha Hb) as (Hg' & w & Hl & Hw & Hf).
    destruct (pending_apart p i (p_pending p) Hp) as [Hnd Hapart]; [done|].
    eapply settle_ok; [done|done|exact Hl|done|exact Hf|done|done|]. intros q Hq. exists g. split; [done|].
    rewrite (unshared_left g left); [done|]. unfold g_left. by rewrite Ho.
  - destruct (pending_apart p i rest Hp) as [Hnd Hapart]; [apply fmap_sublist, sublist_delete|].
    destruct (po_pending p Hp reg) as [_ [Ha _ Hun (R & Hm & HR)]].
    { apply list_elem_of_fmap. exists (reg, addr). split; [done|]. by eapply list_elem_of_lookup_2. }
    destruct (start_ok (establisher reg addr) _ (view p i rest {[reg]} ∅) (establisher_disciplined reg addr R Hm))
      as (Hg & w & Hl & Hw & Hf); [|by eapply begin_view_ok|].
    { split; [done| |done]. constructor; [|constructor]. split; simpl; [done|set_solver| |by exists R].
      by intros ?%total_delete. }
    eapply settle_ok; [done|done|exact Hl|done|exact Hf|done|done|]. by intros q ?%elem_of_empty.
  - destruct (pending_apart p i (p_pending p) Hp) as [Hnd Hapart]; [done|].
    assert (world_ok (view p i (p_pending p) ∅ ∅)) as Hv.
    { apply view_ok; [done|..]; rewrite ?(delete_id _ _ Hi); intros q; set_solver. }
    destruct (start_ok m _ (view p i (p_pending p) ∅ ∅) (user_call_disciplined m Hm) eq_refl Hv) as (Hg & w & Hl & Hw & Hf).
    eapply settle_ok; [done|done|exact Hl|done|exact Hf|done|done|]. by intros q ?%elem_of_empty.
Qed.

Lemma reachable_ok p p' : reachable p p' -> pool_ok p -> pool_ok p'.
Proof. induction 1 as [|p q p' [who Hstep] _ IH]; eauto using step_ok. Qed.

(** *** What follows *)

(** The region is known to the client: cached, served by a region client, or fixed. *)
Definition in_use (p : pool) (reg : ptr) : Prop :=
  (exists kv, kv ∈ items (p_regions p) /\ kv.2 = reg) \/
  (exists c rs, cc_regions (p_clients p) !! c = Some rs /\ reg ∈ rs) \/
  is_fixed adminRegionInfo metaRegionInfo reg.

(** Who is to make a region available: a goroutine that waits for its first turn,
    or one that has not returned. *)
Definition answerable (p : pool) (reg : ptr) (who : actor) : Prop :=
  match who with
  | Pending k => (p_pending p).*1 !! k = Some reg
  | Running i => exists g left, p_gos p !! i = Some g /\ g_outcome g = Err (Waiting left) /\ reg ∈ w_owned left
  | User => False
  end.

Lemma in_use_good p reg : pool_ok p -> in_use p reg -> good (audience p) reg.
Proof.
  intros Hp. pose proof (po_audience p Hp) as Ha. intros [(kv & Hkv & <-)|[(c & rs & Hc & Hr)|Hf]].
  - by apply (wo_items_good _ Ha).
  - by apply (wo_clients _ Ha c rs).
  - by apply (wo_fixed_good _ Ha).
Qed.

Lemma answerable_unique p reg who who' : pool_ok p -> answerable p reg who -> answerable p reg who' -> who = who'.
Proof.
  intros Hp.
  assert (forall i, answerable p reg (Running i) -> exists g, p_gos p !! i = Some g /\ reg ∈ owned g) as Hgo.
  { intros i (g & left & Hi & Ho & Hr). exists g. split; [done|]. rewrite (owned_left g left); [done|]. unfold g_left. by rewrite Ho. }
  assert (forall k i, answerable p reg (Pending k) -> answerable p reg (Running i) -> False) as Hmix.
  { intros k i Hk (g & Hi & Hr)%Hgo. simpl in Hk. apply list_elem_of_lookup_2 in Hk.
    apply (po_pending p Hp) in Hk as [Hno _]. apply Hno, elem_of_total. by exists i, g. }
  destruct who as [k|i|], who' as [k'|i'|]; intros H1 H2; try done; [|by destruct (Hmix k i')|by destruct (Hmix k' i)|].
  - f_equal. simpl in H1, H2. by eapply NoDup_lookup; [apply (po_once p Hp)|..].
  - f_equal. apply Hgo in H1 as (g & Hi & Hr). apply Hgo in H2 as (g' & Hi' & Hr').
    destruct (decide (i = i')) as [|Hne]; [done|]. by destruct (po_owned p Hp i i' g g' Hne Hi Hi' reg Hr Hr').
Qed.

Lemma in_use_answerable p reg :
  pool_ok p -> in_use p reg -> unav (p_heap p) reg -> p_done p = false -> exists who, answerable p reg who.
Proof.
  intros Hp Hin Hu Hd. destruct (in_use_good p reg Hp Hin) as [_ _ Hk _].
  destruct (wo_cover _ (po_audience p Hp) reg Hu) as [H|[H|[H|[H|[H|H]]]]]; simpl in H; try done; try congruence; try set_solver.
  apply elem_of_union in H as [(i & g & Hi & Hr)%elem_of_total|H%elem_of_list_to_set].
  - exists (Running i). destruct (po_gos p Hp i g Hi) as ([(P & Hdi & HP) Hs (evs & Hevs & Heq)] & left & Hl & Hfo).
    exists g, left. rewrite (owned_left g left Hl) in Hr. split_and!; try done.
    unfold g_left, g_outcome in *. specialize (Heq []). rewrite !app_nil_r in Heq. rewrite Heq in Hl |- *.
    pose proof (di_safe _ _ Hdi evs (g_start g) Hevs Hs HP) as Hsafe.
    destruct (g_run g evs (g_start g)) as [[[a evs'] w']|[]|]; simplify_eq; [|done].
    destruct Hsafe as (_ & _ & _ & [Hdone|Ho]); [|by rewrite Ho in Hr; apply elem_of_empty in Hr].
    apply (fo_done _ _ _ Hfo) in Hdone. congruence.
  - apply list_elem_of_lookup in H as [k Hk']. by exists (Pending k).
Qed.

(** A goroutine that is answerable for a region does not wait for another one. *)
Lemma answerable_goes p reg who : pool_ok p -> answerable p reg who -> exists p', pool_step p who p'.
Proof.
  intros Hp. destruct who as [k|i|]; [| |done].
  - simpl. intros Hk. apply list_lookup_fmap_Some in Hk as ([r addr] & -> & Hk).
    destruct (exist_fresh (dom (p_gos p))) as [i Hi]. eexists. apply (step_begin p i k r addr); [|done].
    by apply not_elem_of_dom.
  - intros (g & left & Hi & Ho & Hr). destruct (po_gos p Hp i g Hi) as ([(P & Hd & HP) Hs (evs & Hevs & Heq)] & _).
    destruct (di_tidy _ _ Hd) as (P' & HP' & [_ Ht]).
    pose proof (Heq []) as Heq0. rewrite !app_nil_r in Heq0. pose proof Ho as Ho'. unfold g_outcome in Ho'. rewrite Heq0 in Ho'.
    specialize (Ht evs (g_start g)). rewrite Ho' in Ht. destruct Ht as [Hnone|Hgo].
    + eapply Forall_impl; [exact Hevs|]. intros e He v. by destruct (He v) as [[] _].
    + by apply HP'.
    + rewrite Hnone in Hr. by apply elem_of_empty in Hr.
    + destruct (Hgo (view p i (p_pending p) (w_owned left) (w_private left))) as (a & Ha & Hb).
      eexists. apply (step_turn p i g left a Hi Ho); [apply Ha|]. unfold g_outcome. simpl. by rewrite Heq.
Qed.

(** The pool of a client that was just made. *)
Definition start_pool (w : world) : pool := mkPool (w_heap w) (w_regions w) (w_clients w) (w_made w) (w_done w) (w_once w) [] ∅.

Lemma start_pool_ok w :
  world_ok w -> w_owned w = ∅ -> w_private w = ∅ -> w_spawned w = [] -> w_frame w = alone (w_heap w) -> pool_ok (start_pool w).
Proof.
  intros Hw Ho Hpr Hsp Hf. split; cbn [start_pool p_gos p_pending].
  - assert (spawned_now w = []) as Hnow by (unfold spawned_now; by rewrite Hsp, Hf).
    apply (world_ok_swap w); try done; try (by intros q ?%elem_of_empty); intros q; cbn [p_gos p_pending start_pool].
    + rewrite Hnow, Ho, Hf. unfold total. rewrite map_to_list_empty. simpl. set_solver.
    + rewrite Hpr, Hf. unfold total. rewrite map_to_list_empty. simpl. set_solver.
  - intros i j g g' _ Hi. by rewrite lookup_empty in Hi.
  - intros i j g g' _ Hi. by rewrite lookup_empty in Hi.
  - intros i j g g' _ Hi. by rewrite lookup_empty in Hi.
  - apply NoDup_nil_2.
  - by intros q ?%elem_of_nil.
  - intros i g Hi. by rewrite lookup_empty in Hi.
Qed.

End Pool.
