(* ===== verification/PoolProps.v ===== *)
(** * A client and all its goroutines

    What Pool shows of the clients that [newClient] and [newAdminClient] make, and
    a run of a client on which it can be seen. *)

From S2P Require Import Prelude RegionName Pb RegionInfo RegionTree KeyRegionCache Hrpc RpcError Multi ClientRegionCache World Rpc Establish Discipline Retries Batch Client ClientProps Safety Pool.

Section Claims.
Context {T : RegionTree ptr} {HT : RegionTreeSpec ptr T} {HO : RangeOrder}.
Variable unmarshal_RegionInfo : bytes -> option RegionInfo.

Definition is_client (options : list Option) (c : client) : Prop :=
  newClient options = Ok c \/ newAdminClient options = Ok c.

Abbreviation pool_ok c := (pool_ok (c_type c) (c_adminRegionInfo c) (c_metaRegionInfo c) unmarshal_RegionInfo).
Abbreviation pool_step c := (pool_step (c_type c) (c_adminRegionInfo c) (c_metaRegionInfo c) unmarshal_RegionInfo).
Abbreviation reachable c := (reachable (c_type c) (c_adminRegionInfo c) (c_metaRegionInfo c) unmarshal_RegionInfo).

Lemma client_pool_ok options c : is_client options c -> pool_ok c (start_pool (c_world c)).
Proof.
  intros Hc. destruct (new_client_world options c Hc) as (Hw & h & made & Hh). apply start_pool_ok; [done|..]; by rewrite Hh.
Qed.



End Claims.

(** ** A client that looks a region up *)

Section Run.
Context {T : RegionTree ptr} {HT : RegionTreeSpec ptr T} {HO : RangeOrder}.
Variable clientType : ClientType.
Variable adminRegionInfo metaRegionInfo : option ptr.
Variable unmarshal_RegionInfo : bytes -> option RegionInfo.

(** The turn of a goroutine, if the answer fits. *)
Definition take_turn (i : nat) (a : answer) (p : pool) : option pool :=
  match p_gos p !! i with
  | Some g =>
      match g_outcome g with
      | Err (Waiting v) =>
          let now := view p i (p_pending p) (w_owned v) (w_private v) in
          let g' := mkGo (g_run g) (g_start g) (g_events g ++ [mkEvent (fun _ => now) a]) in
          match g_outcome g' with Err Blocked => None | _ => Some (settle p i (p_pending p) g') end
      | _ => None
      end
  | None => None
  end.

Fixpoint take_turns (l : list (nat * answer)) (p : pool) : option pool :=
  match l with
  | [] => Some p
  | (i, a) :: l => p ← take_turn i a p; take_turns l p
  end.

Lemma take_turn_step i a p p' :
  (forall w, answer_ok unmarshal_RegionInfo a w) -> take_turn i a p = Some p' ->
  pool_step clientType adminRegionInfo metaRegionInfo unmarshal_RegionInfo p (Running i) p'.
Proof.
  intros Ha. unfold take_turn. destruct (p_gos p !! i) as [g|] eqn:Hi; [|done].
  destruct (g_outcome g) as [|[| |v]|] eqn:Ho; try done. intros H.
  set (now := view p i (p_pending p) (w_owned v) (w_private v)) in *.
  set (g' := mkGo (g_run g) (g_start g) (g_events g ++ [mkEvent (fun _ => now) a])) in *.
  assert (p' = settle p i (p_pending p) g' /\ g_outcome g' <> Err Blocked) as [-> Hb].
  { destruct (g_outcome g') as [|[]|]; by simplify_eq. }
  by apply (step_turn _ _ _ _ p i g v a Hi Ho).
Qed.

Lemma take_turns_reachable l p p' :
  Forall (fun x => forall w, answer_ok unmarshal_RegionInfo (snd x) w) l -> take_turns l p = Some p' ->
  reachable clientType adminRegionInfo metaRegionInfo unmarshal_RegionInfo p p'.
Proof.
  revert p. induction l as [|[i a] l IH]; intros p Hl; simpl; [intros [= <-]; apply rtc_refl|].
  apply Forall_cons in Hl as [Ha Hl]. intros (q & Hq & Hrest)%bind_Some. eapply rtc_l; [|by apply IH].
  exists (Running i). by apply (take_turn_step i a).
Qed.

End Run.

(** A user sends a call on a table of which nothing is known: the region is
    looked up, cached as unavailable, and handed to a new goroutine. *)
Definition one_region (b : bytes) : option RegionInfo := Some sample_region.

Definition sample_start : @pool list_tree :=
  match @newClient list_tree [] with Ok c => start_pool (c_world c) | _ => start_pool (initial_world empty_heap true) end.

Definition sample_call : @M list_tree unit :=
  _ ← SendRPC RegionClientType None (Some 0%nat) one_region (bs "t") (bs "row"); mret tt.

Definition sample_called : @pool list_tree :=
  settle sample_start 0 [] (mkGo sample_call (view sample_start 0 [] ∅ ∅) []).

Definition sample_turns : list (nat * answer) :=
  [(0%nat, AnsGo); (0%nat, AnsScan (ScanRow sample_row)); (0%nat, AnsGo); (0%nat, AnsGo)].

Lemma sample_turns_taken :
  match take_turns sample_turns sample_called with
  | Some p => bool_decide (p_pending p = [(1%nat, "host:1"%string)]) && negb (p_done p) &&
      bool_decide (p_regions p = [(bs "t,,7.", 1%nat)]) && bool_decide ((r_available <$> h_infos (p_heap p) !! 1%nat) = Some (Some 0%nat)) &&
      bool_decide (is_Some (p_gos p !! 0%nat))
  | None => false
  end = true.
Proof. vm_compute. reflexivity. Qed.

Definition sample_client : @client list_tree :=
  mkClient _ RegionClientType default_config (Some 0%nat) None (initial_world (Heap {[0%nat := sample_meta]} 1 0 ∅) true).

Lemma sample_client_made : is_client [] sample_client.
Proof. left. reflexivity. Qed.

Lemma sample_called_reachable :
  reachable RegionClientType None (Some 0%nat) one_region (start_pool (c_world sample_client)) sample_called.
Proof.
  apply rtc_once. exists User. apply (step_call RegionClientType None (Some 0%nat) one_region); [reflexivity|].
  constructor. intros _ _. split; [decide_tac|vm_compute; discriminate].
Qed.

Lemma sample_turns_reachable p :
  take_turns sample_turns sample_called = Some p ->
  reachable RegionClientType None (Some 0%nat) one_region (start_pool (c_world sample_client)) p.
Proof.
  intros Hp. unfold reachable. etrans; [apply sample_called_reachable|]. eapply take_turns_reachable; [|exact Hp].
  repeat (apply Forall_cons; split; [intros w; first [exact I|apply sample_row_ok]|]). by apply Forall_nil.
Qed.


