(* ===== verification/Debug.v ===== *)
(** * What the client tells about itself: client.go [MarshalJSON], caches.go [debugInfo], region/info.go [MarshalJSON]

    [DebugState] presents the two caches with every region and every region
    client under its address: the maps refer to them by it.  The structs are
    modelled as they are handed to the JSON encoder, which is not.  [%p] is a
    parameter that tells objects apart.  The caches do not change while they are
    walked. *)

From S2P Require Import Prelude RegionName RegionInfo RegionTree KeyRegionCache ClientRegionCache World.

Section Debug.
Context {HO : RangeOrder} {T : RegionTree ptr}.
Variable region_address : ptr -> string.
Variable client_address : cptr -> string.

(** The inner loop of [clientRegionCache.debugInfo]: the addresses of the
    regions, which are put in [regions]. *)
Fixpoint debug_regions (l : list ptr) (regions : gmap string ptr) : list string * gmap string ptr :=
  match l with
  | [] => ([], regions)
  | r :: l =>
      let '(rest, regions) := debug_regions l (<[region_address r := r]> regions) in
      (region_address r :: rest, regions)
  end.

Fixpoint debug_clients (site : list nat) (l : list (cptr * gset ptr)) (regions : gmap string ptr)
    (clients : gmap string cptr) (cache : gmap string (list string))
    : gmap string (list string) * gmap string ptr * gmap string cptr :=
  match l with
  | [] => (cache, regions, clients)
  | (c, reginfos) :: l =>
      let clients := <[client_address c := c]> clients in
      let '(addrs, regions) := debug_regions (fst <$> range (c :: site) (gset_to_gmap tt reginfos)) regions in
      debug_clients site l regions clients (<[client_address c := addrs]> cache)
  end.

(** [clientRegionCache.debugInfo] *)
Definition cdebugInfo (site : list nat) (s : clients) (regions : gmap string ptr) (clients : gmap string cptr) :=
  debug_clients site (range site (cc_regions s)) regions clients ∅.

Fixpoint debug_tree (fuel : nat) (enum : enumerator) (regions : gmap string ptr) (cache : gmap bytes string)
    : outcome out_of_fuel (gmap bytes string * gmap string ptr) :=
  match fuel with
  | O => Err OutOfFuel
  | S fuel =>
      match Next enum with
      | (None, _) => Ok (cache, regions)
      | (Some (k, v), enum) =>
          debug_tree fuel enum (<[region_address v := v]> regions) (<[k := region_address v]> cache)
      end
  end.

(** [keyRegionCache.debugInfo] *)
Definition kdebugInfo (t : tree) (regions : gmap string ptr) : outcome out_of_fuel (gmap bytes string * gmap string ptr) :=
  match SeekFirst t with
  | None => Ok (∅, regions)
  | Some enum => debug_tree (S (Z.to_nat (Len t))) enum regions ∅
  end.

(** [info.MarshalJSON] *)
Record info_state := InfoState {
  is_Id : Z;
  is_Namespace : bytes;
  is_Table : bytes;
  is_Name : bytes;
  is_StartKey : bytes;
  is_StopKey : bytes;
  is_Canceled : bool;                (* Err: the error of the context *)
  is_Client : option string;
  is_Available : bool;
}.

Definition info_MarshalJSON {E} (p : ptr) (h : heap) : outcome E info_state :=
  let* i := deref p h in
  let* err := ContextErr p h in
  let* unavailable := IsUnavailable p h in
  Ok (InfoState (r_id i) (default [] (r_namespace i)) (r_table i) (r_name i) (r_startKey i) (r_stopKey i)
        err (client_address <$> r_client i) (negb unavailable)).

(** [client.MarshalJSON] *)
Record debug_state := DebugState {
  ds_ClientType : ClientType;
  ds_ClientRegionMap : gmap string cptr;
  ds_RegionInfoMap : gmap string ptr;
  ds_KeyRegionCache : gmap bytes string;
  ds_ClientRegionCache : gmap string (list string);
  ds_MetaRegionInfo : option ptr;
  ds_AdminRegionInfo : option ptr;
  ds_Done_Status : string;
}.

Definition done_status (has_done closed : bool) : string :=
  if has_done then if closed then "Closed" else "Not Closed" else "nil".

(** The tree of an admin client is nil; its [SeekFirst] crashes. *)
Definition MarshalJSON (site : list nat) (ctype : ClientType) (meta admin : option ptr) (w : world)
    : outcome out_of_fuel debug_state :=
  let '(clientRegionCacheValues, regions, clientRegionsMap) := cdebugInfo site (w_clients w) ∅ ∅ in
  let* r := if w_made w then kdebugInfo (w_regions w) regions else Panic in
  let '(keyRegionCacheValues, keyRegionInfosMap) := r in
  Ok (DebugState ctype clientRegionsMap keyRegionInfosMap keyRegionCacheValues clientRegionCacheValues meta admin
        (done_status (w_made w) (w_done w))).

(** ** The objects under their addresses *)

(** The map has the objects of [P], each under its address. *)
Definition shows (f : nat -> string) (m : gmap string nat) (P : nat -> Prop) : Prop :=
  forall a x, m !! a = Some x <-> f x = a /\ P x.

Lemma shows_empty f : shows f ∅ (fun _ => False).
Proof. intros a x. rewrite lookup_empty. split; [done|]. by intros [_ []]. Qed.

Lemma shows_iff f m P Q : (forall x, P x <-> Q x) -> shows f m P -> shows f m Q.
Proof. intros HPQ H a x. by rewrite (H a x), HPQ. Qed.

Lemma shows_insert f `{!Inj (=) (=) f} m P x : shows f m P -> shows f (<[f x := x]> m) (fun y => y = x \/ P y).
Proof.
  intros H a y. destruct (decide (f x = a)) as [<-|Hne].
  - rewrite lookup_insert_eq. split; [intros [= <-]; auto|]. by intros [->%(inj f) _].
  - rewrite lookup_insert_ne, (H a y) by done. split; [intros []; auto|]. intros [<- [->|?]]; [done|auto].
Qed.

Context {HT : RegionTreeSpec ptr T} `{!Inj (=) (=) region_address} `{!Inj (=) (=) client_address}.

Lemma debug_regions_spec l regions P :
  shows region_address regions P ->
  fst (debug_regions l regions) = region_address <$> l /\
  shows region_address (snd (debug_regions l regions)) (fun p => p ∈ l \/ P p).
Proof.
  revert regions P. induction l as [|r l IH]; intros regions P H; simpl.
  { split; [done|]. eapply shows_iff; [|done]. intros x. rewrite elem_of_nil. tauto. }
  destruct (IH _ _ (shows_insert _ _ _ r H)) as [H1 H2].
  destruct (debug_regions l _) as [rest regions']. simpl in *. subst rest. split; [done|].
  eapply shows_iff; [|done]. intros x. rewrite elem_of_cons. simpl. tauto.
Qed.

(** Every client of the list with its regions, in some order. *)
Definition lists_regions (cache : gmap string (list string)) (has : cptr -> gset ptr -> Prop) : Prop :=
  (forall a addrs, cache !! a = Some addrs ->
     exists c rs, has c rs /\ a = client_address c /\ addrs ≡ₚ region_address <$> elements rs) /\
  (forall c rs, has c rs -> is_Some (cache !! client_address c)).

Lemma lists_regions_insert cache has c rs addrs :
  (forall rs', ~ has c rs') -> addrs ≡ₚ region_address <$> elements rs -> lists_regions cache has ->
  lists_regions (<[client_address c := addrs]> cache) (fun c' rs' => (c', rs') = (c, rs) \/ has c' rs').
Proof.
  intros Hnew Ha [H1 H2]. split.
  - intros a addrs'. destruct (decide (client_address c = a)) as [<-|Hne].
    + rewrite lookup_insert_eq. intros [= <-]. exists c, rs. auto.
    + rewrite lookup_insert_ne by done. intros (c' & rs' & Hh & ?)%H1. exists c', rs'. auto.
  - intros c' rs' [[= -> ->]|Hh]; [by rewrite lookup_insert_eq|].
    rewrite lookup_insert_ne; [by eapply H2|]. intros ->%(inj client_address). by eapply Hnew.
Qed.

Lemma lists_regions_iff cache has has' :
  (forall c rs, has c rs <-> has' c rs) -> lists_regions cache has -> lists_regions cache has'.
Proof.
  intros Hiff [H1 H2]. split.
  - intros a addrs (c & rs & Hh & ?)%H1. exists c, rs. by rewrite <- Hiff.
  - intros c rs Hh%Hiff. eauto.
Qed.

Lemma debug_clients_spec site l regions cs cache P Q has :
  NoDup l.*1 -> (forall c rs, has c rs -> c ∉ l.*1) ->
  shows region_address regions P -> shows client_address cs Q -> lists_regions cache has ->
  let '(cache', regions', cs') := debug_clients site l regions cs cache in
  shows region_address regions' (fun p => (exists c rs, (c, rs) ∈ l /\ p ∈ rs) \/ P p) /\
  shows client_address cs' (fun c => c ∈ l.*1 \/ Q c) /\
  lists_regions cache' (fun c rs => (c, rs) ∈ l \/ has c rs).
Proof.
  revert regions cs cache P Q has. induction l as [|[c rs] l IH]; intros regions cs cache P Q has Hnd Hnew HR HC HL; simpl.
  { split_and!.
    - eapply shows_iff; [|done]. intros x. split; [by right|]. by intros [(? & ? & []%elem_of_nil & _)|].
    - eapply shows_iff; [|done]. intros x. rewrite elem_of_nil. tauto.
    - eapply lists_regions_iff; [|done]. intros c rs. rewrite elem_of_nil. tauto. }
  simpl in Hnd. apply NoDup_cons in Hnd as [Hni Hnd].
  destruct (debug_regions_spec (fst <$> range (c :: site) (gset_to_gmap tt rs)) regions P HR) as [H1 H2].
  destruct (debug_regions _ regions) as [addrs regions1]. simpl in H1, H2.
  assert (lists_regions (<[client_address c := addrs]> cache) (fun c' rs' => (c', rs') = (c, rs) \/ has c' rs')) as HL1.
  { apply lists_regions_insert; [|rewrite H1; by apply fmap_Permutation, range_set|done].
    intros rs' Hh. apply (Hnew c rs' Hh). simpl. by left. }
  eapply IH in HL1; [|done| |exact H2|exact (shows_insert _ _ _ c HC)].
  2: { intros c' rs' [[= -> ->]|Hh]; [done|]. intros Hin. apply (Hnew c' rs' Hh). simpl. by right. }
  destruct (debug_clients site l regions1 _ _) as [[cache' regions'] cs']. destruct HL1 as (HR' & HC' & HL').
  split_and!.
  - eapply shows_iff; [|exact HR']. intros p. cbn beta. rewrite range_set, elem_of_elements. split.
    + intros [(c' & rs' & Hin & Hp)|[Hp|Hp]]; [left; exists c', rs'; by rewrite elem_of_cons; auto|left|by right].
      exists c, rs. rewrite elem_of_cons. auto.
    + intros [(c' & rs' & [[= -> ->]|Hin]%elem_of_cons & Hp)|Hp]; eauto 6.
  - eapply shows_iff; [|exact HC']. intros x. rewrite elem_of_cons. simpl. tauto.
  - eapply lists_regions_iff; [|exact HL']. intros c' rs'. rewrite elem_of_cons. tauto.
Qed.

(** The walk through the tree. *)
Lemma debug_tree_spec fuel enum l i regions cache P :
  enum_at enum l i -> (length l - i < fuel)%nat -> NoDup l.*1 -> shows region_address regions P ->
  (forall k a, cache !! k = Some a <-> exists p, (k, p) ∈ take i l /\ a = region_address p) ->
  exists cache' regions', debug_tree fuel enum regions cache = Ok (cache', regions') /\
    shows region_address regions' (fun p => p ∈ (drop i l).*2 \/ P p) /\
    (forall k a, cache' !! k = Some a <-> exists p, (k, p) ∈ l /\ a = region_address p).
Proof.
  revert enum i regions cache P. induction fuel as [|fuel IH]; intros enum i regions cache P He Hf Hnd HR HC; [lia|].
  cbn [debug_tree]. apply Next_at in He. destruct (l !! i) as [[k v]|] eqn:Hi.
  - destruct He as (e' & -> & He').
    destruct (IH e' (S i) _ (<[k := region_address v]> cache) _ He' ltac:(pose proof (lookup_lt_Some _ _ _ Hi); lia) Hnd
      (shows_insert _ _ _ v HR)) as (cache' & regions' & -> & HR' & HC').
    { intros k' a. rewrite (take_S_r _ _ _ Hi). setoid_rewrite elem_of_app. setoid_rewrite list_elem_of_singleton.
      destruct (decide (k = k')) as [<-|Hne].
      - rewrite lookup_insert_eq. split; [intros [= <-]; eauto|]. intros (p & [Hin|[= ->]] & ->); [|done].
        exfalso. apply list_elem_of_lookup in Hin as (j & Hj). apply lookup_take_Some in Hj as [Hj Hlt].
        assert (j = i); [|lia]. eapply (NoDup_lookup _ j i k Hnd); by rewrite list_lookup_fmap, ?Hj, ?Hi.
      - rewrite lookup_insert_ne, HC by done. split; [intros (p & ? & ?); eauto|].
        intros (p & [Hin|[= -> ->]] & ->); [eauto|done]. }
    eexists _, _. split; [done|]. split; [|done]. eapply shows_iff; [|exact HR'].
    intros p. rewrite (drop_S _ _ _ Hi). simpl. rewrite elem_of_cons. tauto.
  - destruct (Next enum) as [o e']. simpl in He. subst o. apply lookup_ge_None in Hi.
    eexists _, _. split; [done|]. rewrite drop_ge, (take_ge l i) in * by done. split; [|done].
    eapply shows_iff; [|done]. intros p. simpl. rewrite elem_of_nil. tauto.
Qed.

Lemma tree_ok_keys {V} (l : list (bytes * V)) : tree_ok l -> NoDup l.*1.
Proof.
  intros Hl. apply NoDup_alt. intros i j k Hi Hj. rewrite list_lookup_fmap in Hi, Hj.
  destruct (l !! i) as [a|] eqn:Ha; [|done]. destruct (l !! j) as [b|] eqn:Hb; [|done]. simpl in *.
  injection Hi as Hi. injection Hj as Hj.
  assert (forall i j a b, l !! i = Some a -> l !! j = Some b -> a.1 = b.1 -> ~ (i < j)%nat) as Hirr.
  { clear - Hl. intros i j a b Ha Hb Heq Hlt. pose proof (tree_ok_lookup_lt l i j a b Hl Ha Hb Hlt) as H.
    rewrite Heq in H. eapply key_lt_irrefl; [|exact H]. destruct Hl as [Hv _]. rewrite Forall_forall in Hv.
    apply Hv. by eapply list_elem_of_lookup_2. }
  pose proof (Hirr i j a b Ha Hb ltac:(congruence)). pose proof (Hirr j i b a Hb Ha ltac:(congruence)). lia.
Qed.

(** What [DebugState] tells is the caches: each cached region key has the address
    of its region, each client of the cache of clients the addresses of its
    regions, and every region and client that an address refers to is in the map
    under this address, and no other. *)
Theorem debug_state_consistent site ctype meta admin w :
  w_made w = true -> tree_ok (items (w_regions w)) ->
  exists ds, MarshalJSON site ctype meta admin w = Ok ds /\
    (forall k a, ds_KeyRegionCache ds !! k = Some a <->
       exists p, (k, p) ∈ items (w_regions w) /\ a = region_address p) /\
    lists_regions (ds_ClientRegionCache ds) (fun c rs => cc_regions (w_clients w) !! c = Some rs) /\
    shows region_address (ds_RegionInfoMap ds) (fun p =>
      p ∈ (items (w_regions w)).*2 \/ exists c rs, cc_regions (w_clients w) !! c = Some rs /\ p ∈ rs) /\
    shows client_address (ds_ClientRegionMap ds) (fun c => is_Some (cc_regions (w_clients w) !! c)) /\
    ds_Done_Status ds = done_status true (w_done w).
Proof.
  intros Hmk Hnd%tree_ok_keys. unfold MarshalJSON, cdebugInfo. rewrite Hmk.
  pose proof (debug_clients_spec site (range site (cc_regions (w_clients w))) ∅ ∅ ∅ _ _ (fun _ _ => False)
    (NoDup_range _ _) ltac:(done) (shows_empty _) (shows_empty _)) as Hcl.
  destruct (debug_clients _ _ _ _ _) as [[cache regions] cs].
  destruct Hcl as (HR & HC & HL).
  { split; [intros a addrs; by rewrite lookup_empty|done]. }
  assert (exists kc rm, kdebugInfo (w_regions w) regions = Ok (kc, rm) /\
    shows region_address rm (fun p => p ∈ (items (w_regions w)).*2 \/
      ((exists c rs, (c, rs) ∈ range site (cc_regions (w_clients w)) /\ p ∈ rs) \/ False)) /\
    (forall k a, kc !! k = Some a <-> exists p, (k, p) ∈ items (w_regions w) /\ a = region_address p))
    as (kc & rm & -> & HR' & HK).
  { unfold kdebugInfo. pose proof (SeekFirst_items (w_regions w)) as Hsf. destruct (SeekFirst (w_regions w)) as [e|].
    - destruct Hsf as [Hne Hv]. rewrite Len_items. unfold len. rewrite Nat2Z.id.
      apply (debug_tree_spec _ e (items (w_regions w)) 0 regions ∅ _); [|lia|done|done|].
      + unfold enum_at. rewrite Hv. simpl. auto.
      + intros k a. rewrite lookup_empty. split; [done|]. by intros (p & []%elem_of_nil & _).
    - rewrite Hsf. eexists _, _. split; [done|]. split.
      + eapply shows_iff; [|exact HR]. intros p. simpl. rewrite elem_of_nil. tauto.
      + intros k a. rewrite lookup_empty. split; [done|]. by intros (p & []%elem_of_nil & _). }
  cbn [obind]. eexists. split; [done|]. cbn [ds_KeyRegionCache ds_ClientRegionCache ds_RegionInfoMap ds_ClientRegionMap ds_Done_Status].
  split_and!; [done|..|done].
  - eapply lists_regions_iff; [|exact HL]. intros c rs. cbn beta. rewrite elem_of_range. tauto.
  - eapply shows_iff; [|exact HR']. intros p. cbn beta. setoid_rewrite elem_of_range. tauto.
  - eapply shows_iff; [|exact HC]. intros c. cbn beta. rewrite list_elem_of_fmap. split.
    + intros [([c' rs] & -> & Hin%elem_of_range)|[]]. by eexists.
    + intros [rs Hc]. left. exists (c, rs). by rewrite elem_of_range.
Qed.

End Debug.
