(* ===== verification/Tracing.v ===== *)
(** * Tracing: internal/observability/observability.go

    The carrier that puts tracing information in the header of a request, and the
    observation of a value with the trace it belongs to.  OpenTelemetry and
    Prometheus are third party: of a span context the code reads three things, of
    an observer it calls one of two methods. *)

From S2P Require Import Prelude.

(** The part of [pb.RequestHeader] that tracing uses: [TraceInfo], and its map
    [Headers], either of which may be nil. *)
Record trace_info := TraceInfo { ti_Headers : option (gmap string string) }.

Record traced_header := TracedHeader { th_TraceInfo : option trace_info }.

(** [RequestTracePropagator], with the header it points to. *)
Definition propagator : Type := option traced_header.

Definition trace_headers (r : propagator) : option (gmap string string) :=
  h ← r; i ← th_TraceInfo h; ti_Headers i.

Definition Get (r : propagator) (key : string) : string :=
  match trace_headers r with
  | None => ""
  | Some h => default "" (h !! key)
  end.

(** Writing to a nil map panics. *)
Definition Set_ {E} (r : propagator) (key value : string) : outcome E propagator :=
  match r with
  | None => Ok None
  | Some h =>
      match default (TraceInfo (Some ∅)) (th_TraceInfo h) with
      | TraceInfo (Some headers) => Ok (Some (TracedHeader (Some (TraceInfo (Some (<[key := value]> headers))))))
      | TraceInfo None => Panic
      end
  end.

Definition Keys `{RangeOrder} (r : propagator) : list string :=
  match trace_headers r with
  | None => []
  | Some h => fst <$> range [] h
  end.

(** ** [ObserveWithTrace] *)

Record span_context := SpanContext { sc_sampled : bool; sc_trace_id : option string }.

Inductive observation :=
| Observed (v : Z)
| ObservedWithExemplar (v : Z) (labels : gmap string string).

Definition ObserveWithTrace (sc : span_context) (exemplars : bool) (v : Z) : observation :=
  match sc_sampled sc, sc_trace_id sc, exemplars with
  | true, Some traceID, true => ObservedWithExemplar v {[ "traceID"%string := traceID ]}
  | _, _, _ => Observed v
  end.

(** ** What the carrier promises *)

(** On a header that has no tracing information yet, or has a map, what was set
    is what is got, under its key only, and the keys are those that were set.
    A header with tracing information but no map makes [Set] panic, although
    [Get] and [Keys] take it for empty. *)
Theorem propagator_set `{RangeOrder} h key value :
  match th_TraceInfo h with
  | Some (TraceInfo None) =>
      @Set_ Empty_set (Some h) key value = Panic /\ (forall k, Get (Some h) k = ""%string) /\ Keys (Some h) = []
  | _ =>
      exists r, @Set_ Empty_set (Some h) key value = Ok r /\
        (forall k, Get r k = if decide (k = key) then value else Get (Some h) k) /\
        NoDup (Keys r) /\ (forall k, k ∈ Keys r <-> k = key \/ k ∈ Keys (Some h))
  end.
Proof.
  assert (forall (m : gmap string string) k, k ∈ (range [] m).*1 <-> is_Some (m !! k)) as Hkeys.
  { intros m k. rewrite list_elem_of_fmap. split.
    - intros ([k' x] & -> & Hin%elem_of_range). by eexists.
    - intros [x Hx]. exists (k, x). by rewrite elem_of_range. }
  destruct h as [[[[m|]]|]]; cbn [th_TraceInfo].
  - eexists. split; [done|]. unfold Get, Keys. cbn [trace_headers mbind option_bind th_TraceInfo ti_Headers].
    split_and!; [|apply NoDup_range|].
    + intros k. case_decide as Hk; [by rewrite Hk, lookup_insert_eq|]. by rewrite lookup_insert_ne.
    + intros k. rewrite !Hkeys, lookup_insert_is_Some'. split; intros []; auto.
  - done.
  - eexists. split; [done|]. unfold Get, Keys. cbn [trace_headers mbind option_bind th_TraceInfo ti_Headers].
    split_and!; [|apply NoDup_range|].
    + intros k. case_decide as Hk; [by rewrite Hk, lookup_insert_eq|]. by rewrite lookup_insert_ne.
    + intros k. rewrite Hkeys, lookup_insert_is_Some', elem_of_nil, lookup_empty.
      split; intros [Hk|Hk]; auto; by destruct Hk.
Qed.
